(* ===== verification/_CoqProject ===== *)
-Q . S2P
Prelude.v
Raft.v
RaftCluster.v
RaftLog.v
RaftInv.v
RaftSteps.v
RaftHandlers.v
RaftSafety.v
RaftTheorems.v
RaftProgress.v
RaftLive.v
GoLib.v
Persister.v
NetLib.v
Tls.v
Transport.v
Http.v
Value.v
GoFloat.v
Files.v
Cold.v
Segment.v
SegmentFormat.v
SegmentProof.v
SegmentRecover.v
SegmentLog.v
LogProof.v
LogLifecycle.v
LogRecover.v
LogRefine.v
StorageTheorems.v
Batch.v
Partition.v
Replica.v
RaftIntegrity.v
Replication.v
Producer.v
BenchCluster.v
Bench.v
BenchTcp.v
Harness.v
Monitor.v
WireProtocol.v
WireProof.v
WireTheorems.v
Docstore.v
DocstoreProof.v
DocstoreTheorems.v
DocReplica.v
BenchReads.v
Cmd.v
DocMirror.v
Backend.v
Mongo.v
Rest.v
DocLive.v
ServiceTheorems.v
Group.v
Schema.v
Streaming.v
