(* ===== verification/Prelude.v ===== *)
(** * LedgerDB, verified

    LedgerDB is a replicated log and document store written in Go.  This library
    models its parts as executable definitions and proves what they promise.

    ** The program and the files

    - Consensus ([raft/raft.go], [raft/rpc_vote.go], [raft/rpc_append.go]).
      [Raft] has the state of a peer and one definition per critical section of
      the code: the two RPC handlers, [startElection], the handling of replies,
      [advanceCommitIndex], [Start], [Kill], one round of [applyTicker].
      [RaftCluster] composes peers into a group: a [World] has the peers, the
      goroutines in flight, the apply channels and the clock, and [exec] runs one
      [Action] (a timer, a goroutine's next step, a lost RPC, a client call, a
      delivery).  [RaftLog], [RaftInv], [RaftSteps], [RaftHandlers] and
      [RaftSafety] carry the inductive invariant over a ghost history of elected
      logs; [RaftTheorems] states the results, and [RaftIntegrity] what a delivered
      message stands for.  [RaftProgress] has the schedules
      by which a leader brings a peer up to date and [RaftLive] those of an
      election and of a commit.  [Persister] is [raft/persister.go], which no peer
      uses.
    - Transports ([raft/network.go], [raft/transport.go],
      [raft/tcp_transport.go]) in [Transport]: construction, listening and dialing,
      and every way a call can go as a few actions of the group.  [NetLib] has
      what they use of package net; [Tls] the authority, the certificates and the
      configurations of [security/tls.go], with the checks of crypto/x509 that
      decide a handshake.
    - The test harness ([raft/config.go]) in [Harness]: every operation of it, run
      beside a group that follows a schedule.
    - Storage ([storage/segment.go], [storage/log.go], [storage/tiering.go],
      [storage/coldstore.go], [storage/minio_coldstore.go]).  [Files] is a
      directory of byte strings whose calls fail or fall short by a script;
      [Cold] has the interface of cold stores as a class with laws, and the
      stores of the code as instances; [Segment] and [SegmentLog] are the
      operations of a segment and of a log; [SegmentFormat], [SegmentProof],
      [SegmentRecover], [LogProof], [LogLifecycle], [LogRecover] and [LogRefine]
      relate them to a sequence of records, and [StorageTheorems] states the
      results.
    - Batches ([batch/batch.go]) in [Batch], partitioned logs
      ([storage/partition.go]) in [Partition].
    - [Replica] runs a state machine at every peer of a group.  [Replication]
      ([replication/partition.go]) is the one that appends to a storage log,
      [Producer] ([producer/producer.go]) writes to it; [DocReplica]
      ([docstore/replicated.go], [docstore/replicated_locked.go]) is the one that
      applies transactions to a document store, and [DocMirror] runs its two
      kinds side by side.
    - Documents ([docstore/document.go], [docstore/locked_store.go],
      [docstore/mvcc_store.go]) in [Docstore], [DocstoreProof] and
      [DocstoreTheorems]; dynamic Go values are in [Value].
    - Front ends.  [Backend] is the interface [Store] that both use, with its
      laws, and the replicated document store as an instance.  [WireProtocol],
      [WireProof] and [WireTheorems] are the framing of the MongoDB protocol
      ([mongowire/protocol.go]), [Mongo] its commands, connections and server
      ([mongowire/commands.go], [mongowire/server.go]), [Rest] the HTTP handlers
      and their routes ([api/rest.go]) over the paths and the multiplexer of
      [Http]; [ServiceTheorems] states the results against the interface, and
      [DocLive] that a write is served while a majority lives.
    - Consumer groups ([group/coordinator.go]) in [Group]; schemas and access
      control ([schema/schema.go], [schema/registry.go], [security/acl.go]) in
      [Schema]; windows ([streaming/window.go]) in [Streaming]; metrics and the
      dashboard ([metrics/metrics.go], [metrics/instrumented.go],
      [dashboard/server.go]) in [Monitor].
    - Benchmarks, over the floating-point numbers of [GoFloat].  [BenchCluster] has
      what they share: a cluster that runs beside the benchmark, its clock, and the
      search for a leader.  [Bench] is the load generator, the measurement of a
      recovery and the comparison of sizes ([benchmarks/harness.go],
      [benchmarks/compression.go]), [BenchTcp] the measurement of a recovery over
      TCP ([benchmarks/real_transport.go]), [BenchReads] the benchmark of
      concurrent reads ([benchmarks/mvcc.go]), whose goroutines take turns.  The
      five programs under [cmd/] are in [Cmd].

    ** How the code is modelled

    Go's [int] is [Z]; fixed widths and their wrap-around are written out where
    the code has them (length prefixes, offsets, hashes, message lengths).
    Slices are lists indexed by [Z], and a read out of range is [None], a panic.
    Errors are [Err] of a shortened message.  Maps are [gmap]; where the code
    ranges over one, the order is an argument or the result is stated up to
    order.  Everything under one mutex is one step; what happens between two
    steps of a goroutine is an action of another.  Time is a clock that actions
    advance, and waiting is a schedule of actions between polls.

    Gzip, JSON, BSON, extended JSON, MinIO's client and cold stores are classes;
    their documented behaviour is a second class ([GzipOk], [JsonOk], [BsonOk],
    [JsonBodyOk], [ColdStoreOk]), and each is satisfied by an instance that the
    witnesses run.  Of package net the parsing of addresses, of net/http the paths
    and the routing, of net/rpc the lookup of a method, of crypto/x509 and
    crypto/tls the making and checking of certificates are written out.  Keys are
    numbers and a signature is the number of the key that made it, so nobody
    signs without the key.  What listens at an address and what the system makes of
    it are arguments.

    ** What is proved

    - Consensus: committed entries agree and are never lost or changed, a term
      has one leader for ever, logs match, leaders have everything committed, no
      step panics, and what is delivered was proposed, each message by a call of its
      own; from every reachable state a live majority can elect a leader
      and commit, except that a group of one never elects a leader.
    - Storage: a log behaves as a sequence of records under appends, compaction,
      tiering and restarts; under arbitrary I/O faults a read is exact or an
      error, an append is all or nothing, tiering never loses a record; recovery
      needs only the log files.
    - Replication: the storage logs of replicas are prefixes of one another and
      the documents of replicas agree at every index; replicas over either kind of
      store answer alike; what an acknowledged write means, and how one can be
      lost.
    - Documents: snapshots are stable, the versioned store refines the locked
      one, transactions are atomic if their documents decode (and not otherwise),
      indexed queries and scans are exact.
    - Front ends: messages read back as written, malformed ones panic or loop,
      concurrent connections are served as in some order, documents have addresses,
      acknowledged writes take effect as asked for, reads are exact, and writes
      can be served while a majority of the replicas lives.
    - Security: whom a TLS client trusts, exactly.
    - Benchmarks: what the numbers they report are, percentiles in floating point
      included, and when they end: the recoveries, on either transport, are
      those of a leader of another term with a committed entry, and the concurrent
      reads all find a document that was written.
    - Around it: transports, connections, batches, partitions, groups, schemas,
      windows, metrics and the harness do what their comments say, or the theorem
      says what they do instead.

    ** Fuel

    Loops over slices are structural.  [Search], the binary search of package
    sort, has the length as fuel, and every round shrinks its range.
    [rebuildIndex], the
    parser of messages and [ProcessTumblingWindows] take fuel; the theorems give
    an amount that is enough (the bytes of the file or message, the windows
    between the first and the last event) and hold from there on.
    [WaitApplied] and [handleConn] are bounded by the schedule and by the number
    of requests, and so is the load of a benchmark.  The loops of the harness and
    the searches of the benchmarks are bounded by their deadlines, since every turn
    sleeps, and their fuel is proved enough.  The last loop of [BenchTcp] does not
    sleep when it takes a message, and may run out of fuel only by taking as many
    messages; the wait for the readers of [BenchReads] ends once every reader had
    four turns after the time is over.  The search for certificate chains is
    bounded by the number of signatures crypto/x509 checks.

    ** Not modelled

    Restarts of peers, since the code persists no consensus state
    ([raft/persister.go] is not used); failures of writes to a client's
    connection; the bytes of HTTP responses, of the metrics page and of JSON files;
    the generator of [math/rand], whose numbers are arguments; the names of
    temporary directories ([benchmarks/tempdir.go]), which are arguments as well. *)
From Stdlib Require Export ZArith Lia.
From stdpp Require Export base option list gmap strings numbers.

Declare Scope go_scope.
Delimit Scope go_scope with go.
Open Scope Z_scope.

(** * Go integers and slices

    Go's [int] is modelled by [Z]; slices by [list], indexed by [Z].  A read or
    a slice expression that Go would refuse with a run-time panic is [None]. *)

Definition zlen {A} (l : list A) : Z := Z.of_nat (length l).

Definition zget {A} (l : list A) (i : Z) : option A :=
  if i <? 0 then None else l !! Z.to_nat i.

(** [l[:i]], [l[i:]] and [l[i:j]]: a panic when a bound is out of range. *)
Definition zprefix {A} (l : list A) (i : Z) : option (list A) :=
  if (i <? 0) || (zlen l <? i) then None else Some (take (Z.to_nat i) l).

Definition zsuffix {A} (l : list A) (i : Z) : option (list A) :=
  if (i <? 0) || (zlen l <? i) then None else Some (drop (Z.to_nat i) l).

Definition zslice {A} (l : list A) (i j : Z) : option (list A) :=
  if (i <? 0) || (j <? i) || (zlen l <? j) then None
  else Some (take (Z.to_nat (j - i)) (drop (Z.to_nat i) l)).

Notation "l @[ i ]" := (zget l i) (at level 1, format "l @[ i ]") : go_scope.
Open Scope go_scope.

(** A Go map read: the zero value [d] for a missing key. *)
Definition mapget {K V} `{Countable K} (d : V) (m : gmap K V) (k : K) : V :=
  default d (m !! k).

Lemma mapget_insert {K V} `{Countable K} (d : V) m (k : K) v : mapget d (<[k := v]> m) k = v.
Proof. unfold mapget. by rewrite lookup_insert_eq. Qed.

(** Point update of a total function: the per-node state of a cluster. *)
Definition upd {K V} `{EqDecision K} (f : K -> V) (k : K) (v : V) : K -> V :=
  fun k' => if decide (k' = k) then v else f k'.

(** * Hint databases and tactics *)

Create HintDb zlist discriminated.
Create Rewrite HintDb zlist.

Ltac bool_to_prop :=
  repeat match goal with
  | H : (_ && _) = true |- _ => apply andb_true_iff in H; destruct H
  | H : (_ || _) = false |- _ => apply orb_false_iff in H; destruct H
  | H : (_ <? _) = true |- _ => apply Z.ltb_lt in H
  | H : (_ <? _) = false |- _ => apply Z.ltb_ge in H
  | H : (_ <=? _) = true |- _ => apply Z.leb_le in H
  | H : (_ <=? _) = false |- _ => apply Z.leb_gt in H
  | H : (_ =? _) = true |- _ => apply Z.eqb_eq in H
  | H : (_ =? _) = false |- _ => apply Z.eqb_neq in H
  | H : negb _ = true |- _ => apply negb_true_iff in H
  | H : negb _ = false |- _ => apply negb_false_iff in H
  | H : bool_decide _ = true |- _ => apply bool_decide_eq_true in H
  | H : bool_decide _ = false |- _ => apply bool_decide_eq_false in H
  end.

(** Case analysis on the innermost boolean test of the goal. *)
Ltac case_test :=
  match goal with
  | |- context [if ?b then _ else _] =>
      lazymatch b with context [if _ then _ else _] => fail | _ => idtac end;
      let E := fresh "Etest" in destruct b eqn:E; bool_to_prop
  end.

(** The same in a hypothesis. *)
Ltac case_test_in H :=
  match type of H with
  | context [if ?b then _ else _] =>
      lazymatch b with context [if _ then _ else _] => fail | _ => idtac end;
      let E := fresh "Etest" in destruct b eqn:E; bool_to_prop
  end.

(** Inversion of one step of the option monad. *)
Ltac bind_inv H :=
  let x := fresh "x" in let E := fresh "Ebind" in
  apply bind_Some in H; destruct H as (x & E & H).

(** * Z-indexed lists *)

Section zlist.
Context {A : Type}.
Implicit Types (l : list A) (x : A) (i j n : Z).

Lemma zlen_nonneg l : 0 <= zlen l.
Proof. unfold zlen; lia. Qed.

Lemma zlen_nil : zlen (@nil A) = 0.
Proof. reflexivity. Qed.

Lemma zlen_cons x l : zlen (x :: l) = 1 + zlen l.
Proof. unfold zlen; cbn [length]; lia. Qed.

Lemma zlen_app l1 l2 : zlen (l1 ++ l2) = zlen l1 + zlen l2.
Proof. unfold zlen; rewrite length_app; lia. Qed.

Lemma zlen_snoc l x : zlen (l ++ [x]) = zlen l + 1.
Proof. rewrite zlen_app, zlen_cons, zlen_nil; lia. Qed.

Lemma zlen_take l i : 0 <= i <= zlen l -> zlen (take (Z.to_nat i) l) = i.
Proof. unfold zlen; rewrite length_take; lia. Qed.

Lemma zlen_drop l i : 0 <= i <= zlen l -> zlen (drop (Z.to_nat i) l) = zlen l - i.
Proof. unfold zlen; rewrite length_drop; lia. Qed.

Lemma zget_bounds l i x : zget l i = Some x -> 0 <= i < zlen l.
Proof.
  unfold zget, zlen; case_test; [done|]. intros H%lookup_lt_Some. lia.
Qed.

Lemma zget_nat l i x : zget l i = Some x -> exists n : nat, i = Z.of_nat n /\ l !! n = Some x.
Proof.
  intros H. assert (Hi := zget_bounds _ _ _ H). exists (Z.to_nat i). split; [lia|].
  unfold zget in H. destruct (i <? 0) eqn:E; [done|]. exact H.
Qed.

Lemma zget_lookup l i : 0 <= i -> l @[i] = l !! Z.to_nat i.
Proof. intros Hi. unfold zget. by rewrite (proj2 (Z.ltb_ge i 0)) by lia. Qed.

Lemma zget_Some l i : 0 <= i < zlen l -> exists x, zget l i = Some x.
Proof.
  unfold zget, zlen; intros H; case_test; [lia|].
  apply lookup_lt_is_Some_2. lia.
Qed.

Lemma zget_None l i : zget l i = None <-> i < 0 \/ zlen l <= i.
Proof.
  unfold zget, zlen; case_test; [split; [lia|done]|].
  rewrite lookup_ge_None. lia.
Qed.

Lemma zget_app_l l1 l2 i : i < zlen l1 -> zget (l1 ++ l2) i = zget l1 i.
Proof.
  unfold zget, zlen; intros H; case_test; [done|].
  apply lookup_app_l. lia.
Qed.

Lemma zget_app_r l1 l2 i :
  zlen l1 <= i -> zget (l1 ++ l2) i = zget l2 (i - zlen l1).
Proof.
  unfold zget, zlen; intros H; case_test; [lia|]. case_test; [lia|].
  rewrite lookup_app_r by lia. f_equal. lia.
Qed.

Lemma zget_snoc_last l x : zget (l ++ [x]) (zlen l) = Some x.
Proof. rewrite zget_app_r by lia. rewrite Z.sub_diag. reflexivity. Qed.

Lemma zget_snoc l x i y :
  zget (l ++ [x]) i = Some y ->
  (i < zlen l /\ zget l i = Some y) \/ (i = zlen l /\ y = x).
Proof.
  intros H. pose proof (zget_bounds _ _ _ H) as Hb. rewrite zlen_snoc in Hb.
  destruct (decide (i < zlen l)).
  - left. rewrite zget_app_l in H by lia. auto.
  - right. assert (i = zlen l) as -> by lia.
    rewrite zget_snoc_last in H. split; congruence.
Qed.

Lemma zget_singleton x i y : zget [x] i = Some y -> i = 0 /\ y = x.
Proof.
  intros [[H Hy]|[-> ->]]%(zget_snoc []); [|done].
  apply zget_bounds in Hy. rewrite zlen_nil in Hy. lia.
Qed.

Lemma zget_cons_0 x l : zget (x :: l) 0 = Some x.
Proof. reflexivity. Qed.

Lemma zget_cons_pos x l i : 0 < i -> zget (x :: l) i = zget l (i - 1).
Proof.
  intros H. change (x :: l) with ([x] ++ l).
  rewrite zget_app_r; rewrite zlen_cons, zlen_nil; [f_equal; lia|lia].
Qed.

Lemma zget_take l n i : i < n -> zget (take (Z.to_nat n) l) i = zget l i.
Proof.
  unfold zget; intros H; case_test; [done|]. apply lookup_take_lt. lia.
Qed.

Lemma zget_take_ge l n i : n <= i -> zget (take (Z.to_nat n) l) i = None.
Proof.
  intros H. apply zget_None. unfold zlen. rewrite length_take. lia.
Qed.

Lemma zget_drop l n i :
  0 <= n -> 0 <= i -> zget (drop (Z.to_nat n) l) i = zget l (n + i).
Proof.
  unfold zget; intros; case_test; [lia|]; case_test; [lia|].
  rewrite lookup_drop. f_equal. lia.
Qed.

Lemma zget_elem l i x : zget l i = Some x -> x ∈ l.
Proof.
  unfold zget; case_test; [done|]. intros H. by apply list_elem_of_lookup_2 in H.
Qed.

Lemma zlist_eq l1 l2 :
  zlen l1 = zlen l2 ->
  (forall i, 0 <= i < zlen l1 -> zget l1 i = zget l2 i) -> l1 = l2.
Proof.
  intros Hl H. apply list_eq; intros k.
  destruct (decide (Z.of_nat k < zlen l1)).
  - specialize (H (Z.of_nat k)). unfold zget in H.
    rewrite !(proj2 (Z.ltb_ge _ _)) in H by lia.
    rewrite !Nat2Z.id in H. apply H. lia.
  - unfold zlen in *. rewrite !lookup_ge_None_2 by lia. done.
Qed.

Lemma zprefix_Some l i : 0 <= i <= zlen l -> zprefix l i = Some (take (Z.to_nat i) l).
Proof. intros; unfold zprefix. case_test; [|done]. apply orb_true_iff in Etest; lia. Qed.

Lemma zsuffix_Some l i : 0 <= i <= zlen l -> zsuffix l i = Some (drop (Z.to_nat i) l).
Proof. intros; unfold zsuffix. case_test; [|done]. apply orb_true_iff in Etest; lia. Qed.

Lemma zprefix_inv l i l' :
  zprefix l i = Some l' -> 0 <= i <= zlen l /\ l' = take (Z.to_nat i) l.
Proof. unfold zprefix; case_test; [done|]. intros [= <-]. split; [lia|done]. Qed.

Lemma zsuffix_inv l i l' :
  zsuffix l i = Some l' -> 0 <= i <= zlen l /\ l' = drop (Z.to_nat i) l.
Proof. unfold zsuffix; case_test; [done|]. intros [= <-]. split; [lia|done]. Qed.

Lemma zslice_Some l i j :
  0 <= i <= j -> j <= zlen l -> zslice l i j = Some (take (Z.to_nat (j - i)) (drop (Z.to_nat i) l)).
Proof.
  intros. unfold zslice. rewrite !(proj2 (Z.ltb_ge _ _)) by lia. done.
Qed.

Lemma zslice_app l1 l2 l3 i j :
  i = zlen l1 -> j = i + zlen l2 -> zslice (l1 ++ l2 ++ l3) i j = Some l2.
Proof.
  intros -> ->. rewrite zslice_Some by (rewrite ?zlen_app; unfold zlen; lia).
  replace (Z.to_nat (zlen l1)) with (length l1) by (unfold zlen; lia). rewrite drop_app_length.
  replace (Z.to_nat (zlen l1 + zlen l2 - zlen l1)) with (length l2) by (unfold zlen; lia).
  by rewrite take_app_length.
Qed.

End zlist.

#[export] Instance concat_Permutation {A} : Proper (Permutation ==> Permutation) (@concat A).
Proof.
  intros l l' H. induction H as [|x l l' _ IH|x y l|]; cbn; [done|by rewrite IH| |by etrans].
  rewrite !app_assoc. by rewrite (Permutation_app_comm y x).
Qed.

#[export] Hint Rewrite @zlen_nil @zlen_cons @zlen_snoc @zlen_app : zlist.
#[export] Hint Resolve zlen_nonneg zget_bounds : zlist.

Section upd.
Context {K V : Type} `{EqDecision K}.
Implicit Types (f : K -> V).

Lemma upd_eq f k v : upd f k v k = v.
Proof. unfold upd. by rewrite decide_True. Qed.

Lemma upd_hit f k k' v : k' = k -> upd f k v k' = v.
Proof. intros ->. apply upd_eq. Qed.

Lemma upd_ne f k k' v : k' <> k -> upd f k v k' = f k'.
Proof. intros. unfold upd. by rewrite decide_False. Qed.

End upd.

(** Splits every [upd f k v k'] of the goal or the context on [k' = k]. *)
Ltac upd_cases :=
  repeat match goal with
  | |- context [upd ?f ?k ?v ?k] => rewrite (upd_eq f k v)
  | H : context [upd ?f ?k ?v ?k] |- _ => rewrite (upd_eq f k v) in H
  | H : ?k' = ?k |- context [upd ?f ?k ?v ?k'] => rewrite (upd_hit f k k' v H)
  | H : ?k' = ?k, H' : context [upd ?f ?k ?v ?k'] |- _ => rewrite (upd_hit f k k' v H) in H'
  | H : ?k' <> ?k |- context [upd ?f ?k ?v ?k'] => rewrite (upd_ne f k k' v H)
  | H : ?k' <> ?k, H' : context [upd ?f ?k ?v ?k'] |- _ => rewrite (upd_ne f k k' v H) in H'
  | |- context [upd ?f ?k ?v ?k'] =>
      let e := fresh "e" in
      destruct (decide (k' = k)) as [e|e];
      [rewrite (upd_hit f k k' v e); try (is_var k'; subst k')|rewrite (upd_ne f k k' v e)]
  | H : context [upd ?f ?k ?v ?k'] |- _ =>
      let e := fresh "e" in
      destruct (decide (k' = k)) as [e|e];
      [rewrite (upd_hit f k k' v e) in H; try (is_var k'; subst k')|rewrite (upd_ne f k k' v e) in H]
  end.
