(* ===== verification/Raft.v ===== *)
(** The consensus peer of [src/raft]: its state ([raft.Raft]), the two RPC
    handlers, the election and replication callbacks, [Start] and the apply
    loop.  Every critical section of the Go code (the code between
    [rf.mu.Lock] and [rf.mu.Unlock]) is one function on the [Raft] record; an
    out-of-range slice read, which panics in Go, is the result [None].  The
    value [dl] an operation takes is the deadline that [resetElectionTimer]
    draws while it runs. *)
From S2P Require Import Prelude.

(** * Data *)

(** [raft.state]. *)
Inductive state := follower | candidate | leader.

#[export] Instance state_eq_dec : EqDecision state.
Proof. solve_decision. Defined.

(** [LogEntry.Command] is an [interface{}]: [nil] (the entry a leader appends
    on election), the payload of a producer, or the integer of the package's
    own test harness. *)
Inductive Cmd := CBytes (b : list Byte.byte) | CInt (n : Z).

#[export] Instance Cmd_eq_dec : EqDecision Cmd.
Proof.
  assert (EqDecision Byte.byte) by exact Byte.byte_eq_dec. solve_decision.
Defined.

Record LogEntry := mkEntry { Term : Z; Index : Z; Command : option Cmd }.

Record ApplyMsg := mkApplyMsg {
  CommandValid : bool;
  MsgCommand : option Cmd;
  CommandIndex : Z
}.

Record Raft := mkRaft {
  me : Z;
  peers : list Z;
  currentTerm : Z;
  votedFor : Z;
  log : list LogEntry;
  st : state;
  commitIndex : Z;
  lastApplied : Z;
  nextIndex : gmap Z Z;
  matchIndex : gmap Z Z;
  electionDeadline : Z;
  killed : bool
}.

Definition set_currentTerm v r := mkRaft (me r) (peers r) v (votedFor r) (log r) (st r)
  (commitIndex r) (lastApplied r) (nextIndex r) (matchIndex r) (electionDeadline r) (killed r).
Definition set_votedFor v r := mkRaft (me r) (peers r) (currentTerm r) v (log r) (st r)
  (commitIndex r) (lastApplied r) (nextIndex r) (matchIndex r) (electionDeadline r) (killed r).
Definition set_log v r := mkRaft (me r) (peers r) (currentTerm r) (votedFor r) v (st r)
  (commitIndex r) (lastApplied r) (nextIndex r) (matchIndex r) (electionDeadline r) (killed r).
Definition set_st v r := mkRaft (me r) (peers r) (currentTerm r) (votedFor r) (log r) v
  (commitIndex r) (lastApplied r) (nextIndex r) (matchIndex r) (electionDeadline r) (killed r).
Definition set_commitIndex v r := mkRaft (me r) (peers r) (currentTerm r) (votedFor r) (log r)
  (st r) v (lastApplied r) (nextIndex r) (matchIndex r) (electionDeadline r) (killed r).
Definition set_lastApplied v r := mkRaft (me r) (peers r) (currentTerm r) (votedFor r) (log r)
  (st r) (commitIndex r) v (nextIndex r) (matchIndex r) (electionDeadline r) (killed r).
Definition set_nextIndex v r := mkRaft (me r) (peers r) (currentTerm r) (votedFor r) (log r)
  (st r) (commitIndex r) (lastApplied r) v (matchIndex r) (electionDeadline r) (killed r).
Definition set_matchIndex v r := mkRaft (me r) (peers r) (currentTerm r) (votedFor r) (log r)
  (st r) (commitIndex r) (lastApplied r) (nextIndex r) v (electionDeadline r) (killed r).
Definition set_electionDeadline v r := mkRaft (me r) (peers r) (currentTerm r) (votedFor r)
  (log r) (st r) (commitIndex r) (lastApplied r) (nextIndex r) (matchIndex r) v (killed r).
Definition set_killed v r := mkRaft (me r) (peers r) (currentTerm r) (votedFor r) (log r)
  (st r) (commitIndex r) (lastApplied r) (nextIndex r) (matchIndex r) (electionDeadline r) v.

(** * Election *)

Definition heartbeatInterval : Z := 50 * 1000000.
Definition electionTimeoutMin : Z := 300 * 1000000.
Definition electionTimeoutMax : Z := 600 * 1000000.

(** [rand.Int63n n] draws from [0, n): [r] is any draw, reduced into range. *)
Definition randElectionTimeout (r : Z) : Z :=
  let span := electionTimeoutMax - electionTimeoutMin in
  electionTimeoutMin + r mod span.

Definition resetElectionTimer (dl : Z) (rf : Raft) : Raft := set_electionDeadline dl rf.

Definition sentinel : LogEntry := mkEntry 0 0 None.

Definition newRaft (me : Z) (peers : list Z) (dl : Z) : Raft :=
  resetElectionTimer dl
    (mkRaft me peers 0 (-1) [sentinel] follower 0 0 ∅ ∅ 0 false).

(** With any transport; the transport is the group's. *)
Definition MakeWithTransport : Z -> list Z -> Z -> Raft := newRaft.

Definition Kill (rf : Raft) : Raft := set_killed true rf.
Definition isKilled (rf : Raft) : bool := killed rf.

Definition GetState (rf : Raft) : Z * bool :=
  (currentTerm rf, bool_decide (st rf = leader)).

(** [rf.log[len(rf.log)-1]]. *)
Definition lastEntry (l : list LogEntry) : option LogEntry := l @[zlen l - 1].

Definition lastLogInfo (rf : Raft) : option (Z * Z) :=
  last ← lastEntry (log rf); Some (Index last, Term last).

Definition becomeFollower (term dl : Z) (rf : Raft) : Raft :=
  resetElectionTimer dl (set_votedFor (-1) (set_currentTerm term (set_st follower rf))).

(** The loop of [becomeLeader] over [rf.peers]. *)
Fixpoint initIndexes (ps : list Z) (lastIndex : Z) (nx mt : gmap Z Z) : gmap Z Z * gmap Z Z :=
  match ps with
  | [] => (nx, mt)
  | p :: ps => initIndexes ps lastIndex (<[p := lastIndex + 1]> nx) (<[p := 0]> mt)
  end.

Definition becomeLeader (rf : Raft) : option Raft :=
  last ← lastEntry (log rf);
  let lastIndex := Index last in
  let '(nx, mt) := initIndexes (peers rf) lastIndex ∅ ∅ in
  let noopIndex := lastIndex + 1 in
  Some (set_matchIndex (<[me rf := noopIndex]> mt)
       (set_log (log rf ++ [mkEntry (currentTerm rf) noopIndex None])
       (set_nextIndex nx (set_st leader rf)))).

Record RequestVoteArgs := mkVoteArgs {
  VTerm : Z; CandidateId : Z; LastLogIndex : Z; LastLogTerm : Z
}.
Record RequestVoteReply := mkVoteReply { VRTerm : Z; VoteGranted : bool }.

(** The locked part of [startElection]: the new state and the arguments every
    [RequestVote] of this election carries. *)
Definition startElection (dl : Z) (rf : Raft) : option (Raft * RequestVoteArgs) :=
  let rf1 := resetElectionTimer dl
    (set_votedFor (me rf) (set_currentTerm (currentTerm rf + 1) (set_st candidate rf))) in
  '(lastLogIndex, lastLogTerm) ← lastLogInfo rf1;
  Some (rf1, mkVoteArgs (currentTerm rf1) (me rf1) lastLogIndex lastLogTerm).

(** [len(rf.peers)/2 + 1]. *)
Definition majority (ps : list Z) : Z := zlen ps / 2 + 1.

(** The reply callback of [startElection], for the election of [term] whose
    vote counter is [votes]: the new state, the new counter, and whether the
    peer became leader (and so started a heartbeat loop). *)
Definition onVoteReply (term : Z) (reply : RequestVoteReply) (votes : Z) (dl : Z) (rf : Raft)
  : option (Raft * Z * bool) :=
  if currentTerm rf <? VRTerm reply then
    Some (becomeFollower (VRTerm reply) dl rf, votes, false)
  else if negb (bool_decide (st rf = candidate)) || negb (currentTerm rf =? term) then
    Some (rf, votes, false)
  else if VoteGranted reply then
    let count := votes + 1 in
    if (majority (peers rf) <=? count) && bool_decide (st rf = candidate) then
      rf' ← becomeLeader rf; Some (rf', count, true)
    else Some (rf, count, false)
  else Some (rf, votes, false).

Definition RequestVote (args : RequestVoteArgs) (dl : Z) (rf : Raft)
  : option (Raft * RequestVoteReply) :=
  let rf1 := if currentTerm rf <? VTerm args then becomeFollower (VTerm args) dl rf else rf in
  let term := currentTerm rf1 in
  if VTerm args <? currentTerm rf1 then Some (rf1, mkVoteReply term false)
  else
    '(lastIndex, lastTerm) ← lastLogInfo rf1;
    let logOK := (lastTerm <? LastLogTerm args) ||
                 ((LastLogTerm args =? lastTerm) && (lastIndex <=? LastLogIndex args)) in
    let canVote := (votedFor rf1 =? -1) || (votedFor rf1 =? CandidateId args) in
    if canVote && logOK then
      Some (resetElectionTimer dl (set_votedFor (CandidateId args) rf1), mkVoteReply term true)
    else Some (rf1, mkVoteReply term false).

(** * Log replication *)

Record AppendEntriesArgs := mkAppArgs {
  ATerm : Z;
  LeaderId : Z;
  PrevLogIndex : Z;
  PrevLogTerm : Z;
  Entries : list LogEntry;
  LeaderCommit : Z
}.
Record AppendEntriesReply := mkAppReply {
  ARTerm : Z; Success : bool; ConflictIndex : Z; ConflictTerm : Z
}.

(** [for idx > 0 && rf.log[idx-1].Term == conflictTerm { idx-- }], on the
    counter [idx] itself: the loop runs at most [idx] times. *)
Fixpoint conflictStart (l : list LogEntry) (conflictTerm : Z) (idx : nat) : option nat :=
  match idx with
  | O => Some O
  | S idx' =>
      e ← l @[Z.of_nat idx'];
      if Term e =? conflictTerm then conflictStart l conflictTerm idx' else Some idx
  end.

(** The first loop over [args.Entries]: cut the log at the first index where
    it holds an entry of another term. *)
Fixpoint truncateConflict (l : list LogEntry) (idx : Z) (es : list LogEntry)
  : option (list LogEntry) :=
  match es with
  | [] => Some l
  | entry :: es =>
      last ← lastEntry l;
      if idx <=? Index last then
        e ← l @[idx];
        if negb (Term e =? Term entry) then zprefix l idx
        else truncateConflict l (idx + 1) es
      else truncateConflict l (idx + 1) es
  end.

(** The second loop: append the entries that lie beyond the log's end. *)
Fixpoint appendMissing (l : list LogEntry) (idx : Z) (es : list LogEntry)
  : option (list LogEntry) :=
  match es with
  | [] => Some l
  | entry :: es =>
      last ← lastEntry l;
      if Index last <? idx then appendMissing (l ++ [entry]) (idx + 1) es
      else appendMissing l (idx + 1) es
  end.

Definition AppendEntries (args : AppendEntriesArgs) (dl : Z) (rf : Raft)
  : option (Raft * AppendEntriesReply) :=
  let rf1 := if currentTerm rf <? ATerm args then becomeFollower (ATerm args) dl rf else rf in
  let term := currentTerm rf1 in
  if ATerm args <? currentTerm rf1 then Some (rf1, mkAppReply term false 0 0)
  else
    let rf2 := resetElectionTimer dl (set_st follower rf1) in
    last ← lastEntry (log rf2);
    let lastIndex := Index last in
    if lastIndex <? PrevLogIndex args then
      Some (rf2, mkAppReply term false (lastIndex + 1) (-1))
    else
      prev ← (log rf2) @[PrevLogIndex args];
      if negb (Term prev =? PrevLogTerm args) then
        idx ← conflictStart (log rf2) (Term prev) (Z.to_nat (PrevLogIndex args));
        Some (rf2, mkAppReply term false (Z.of_nat idx) (Term prev))
      else
        let insertAt := PrevLogIndex args + 1 in
        l1 ← truncateConflict (log rf2) insertAt (Entries args);
        l2 ← appendMissing l1 insertAt (Entries args);
        let rf3 := set_log l2 rf2 in
        lastNew ← lastEntry l2;
        let rf4 :=
          if commitIndex rf3 <? LeaderCommit args then
            if LeaderCommit args <? Index lastNew
            then set_commitIndex (LeaderCommit args) rf3
            else set_commitIndex (Index lastNew) rf3
          else rf3 in
        Some (rf4, mkAppReply term true 0 0).

(** The first critical section of [sendAppendEntriesTo]: the request the
    leader of [term] sends to [peer], or nothing when the peer no longer leads
    that term. *)
Definition prepareAppendEntries (peer term : Z) (rf : Raft) : option (option AppendEntriesArgs) :=
  if negb (bool_decide (st rf = leader)) || negb (currentTerm rf =? term) then Some None
  else
    let next := mapget 0 (nextIndex rf) peer in
    let prevLogIndex := if next - 1 <? 0 then 0 else next - 1 in
    prev ← (log rf) @[prevLogIndex];
    last ← lastEntry (log rf);
    entries ← (if next <=? Index last then zsuffix (log rf) next else Some []);
    Some (Some (mkAppArgs term (me rf) prevLogIndex (Term prev) entries (commitIndex rf))).

(** The peers other than [me] whose match index reaches [n]: the counting loop
    of [advanceCommitIndex]. *)
Definition countMatch (rf : Raft) (n : Z) : Z :=
  1 + zlen (filter (fun p => p <> me rf /\ n <= mapget 0 (matchIndex rf) p) (peers rf)).

(** [for n := last.Index; n > rf.commitIndex; n--], [k] steps above
    [commitIndex]. *)
Fixpoint advanceLoop (k : nat) (rf : Raft) : option Raft :=
  match k with
  | O => Some rf
  | S k' =>
      let n := commitIndex rf + Z.of_nat k in
      e ← (log rf) @[n];
      if negb (Term e =? currentTerm rf) then advanceLoop k' rf
      else if majority (peers rf) <=? countMatch rf n then Some (set_commitIndex n rf)
      else advanceLoop k' rf
  end.

Definition advanceCommitIndex (rf : Raft) : option Raft :=
  last ← lastEntry (log rf);
  advanceLoop (Z.to_nat (Index last - commitIndex rf)) rf.

(** [for i := len(rf.log)-1; i >= 0; i--]: the last index of [term], or -1. *)
Fixpoint lastIndexOfTerm (l : list LogEntry) (term : Z) (k : nat) : option Z :=
  match k with
  | O => Some (-1)
  | S k' =>
      e ← l @[Z.of_nat k'];
      if Term e =? term then Some (Z.of_nat k') else lastIndexOfTerm l term k'
  end.

(** The second critical section of [sendAppendEntriesTo]: the reply to [args]. *)
Definition onAppendReply (peer term : Z) (args : AppendEntriesArgs)
    (reply : AppendEntriesReply) (dl : Z) (rf : Raft) : option Raft :=
  if currentTerm rf <? ARTerm reply then Some (becomeFollower (ARTerm reply) dl rf)
  else if negb (bool_decide (st rf = leader)) || negb (currentTerm rf =? term) then Some rf
  else if Success reply then
    let newMatch := PrevLogIndex args + zlen (Entries args) in
    let rf1 := if mapget 0 (matchIndex rf) peer <? newMatch
               then set_matchIndex (<[peer := newMatch]> (matchIndex rf)) rf else rf in
    advanceCommitIndex (set_nextIndex (<[peer := newMatch + 1]> (nextIndex rf1)) rf1)
  else if ConflictTerm reply =? -1 then
    Some (set_nextIndex (<[peer := ConflictIndex reply]> (nextIndex rf)) rf)
  else
    lastIdxOfTerm ← lastIndexOfTerm (log rf) (ConflictTerm reply) (length (log rf));
    let next := if 0 <=? lastIdxOfTerm then lastIdxOfTerm + 1 else ConflictIndex reply in
    Some (set_nextIndex (<[peer := next]> (nextIndex rf)) rf).

(** The locked part of [Start]: the new state and the three results. *)
Definition Start (command : option Cmd) (rf : Raft) : option (Raft * (Z * Z * bool)) :=
  if negb (bool_decide (st rf = leader)) then Some (rf, (-1, currentTerm rf, false))
  else
    last ← lastEntry (log rf);
    let index := Index last + 1 in
    let term := currentTerm rf in
    Some (set_matchIndex (<[me rf := index]> (matchIndex rf))
           (set_log (log rf ++ [mkEntry term index command]) rf),
          (index, term, true)).

(** * Applying *)

(** The locked loop of [applyTicker]: [k] committed entries are left to
    apply; a [nil] command advances [lastApplied] and produces no message. *)
Fixpoint applyLoop (k : nat) (rf : Raft) (msgs : list ApplyMsg) : option (Raft * list ApplyMsg) :=
  match k with
  | O => Some (rf, msgs)
  | S k' =>
      let rf1 := set_lastApplied (lastApplied rf + 1) rf in
      entry ← (log rf1) @[lastApplied rf1];
      match Command entry with
      | None => applyLoop k' rf1 msgs
      | Some c => applyLoop k' rf1 (msgs ++ [mkApplyMsg true (Some c) (Index entry)])
      end
  end.

Definition applyTick (rf : Raft) : option (Raft * list ApplyMsg) :=
  applyLoop (Z.to_nat (commitIndex rf - lastApplied rf)) rf [].
