(* ===== verification/RaftCluster.v ===== *)
(** A Raft group: the peers of [src/raft], the goroutines they start and the
    RPCs in flight between them.

    The Go program interleaves goroutines at the granularity of the peer's
    mutex.  [World] holds every peer and the pool of live goroutines, each
    with the program point it waits at; one [Action] runs one critical
    section of one of them.  An RPC (an item [GVoteCall] or [GAppCall]) may be
    delivered in any order and arbitrarily late, and may be lost before or after
    its handler ran ([ALose]), which is what both transports of the program
    ([simTransport] and [TCPTransport]) can do to a call; each call runs its
    handler at most once and each reply is consumed at most once, as in
    [Network.Call] and [net/rpc].  A peer never restarts: the program has no
    code that rebuilds a peer from stored state. *)
From S2P Require Import Prelude Raft.

Inductive Goroutine :=
| GVoteCall (from to : Z) (args : RequestVoteArgs)
| GVoteRet (from to : Z) (args : RequestVoteArgs) (reply : RequestVoteReply)
| GHeartbeat (i term : Z)
| GSend (from to term : Z)
| GAppCall (from to : Z) (args : AppendEntriesArgs)
| GAppRet (from to : Z) (args : AppendEntriesArgs) (reply : AppendEntriesReply).

(** A peer with its two tickers and its apply channel: [armed] is the election
    ticker between its check and [startElection]; [sending] the messages
    [applyTicker] holds after it released the mutex; [applyCh] the channel;
    [consumed] what the channel's reader has taken so far. *)
Record Node := mkNode {
  rf : Raft;
  armed : bool;
  sending : list ApplyMsg;
  applyCh : list ApplyMsg;
  consumed : list ApplyMsg
}.

(** [votes] holds the [votes] variable of each [startElection] call, which is
    identified by the candidate and its term. *)
Record World := mkWorld {
  nodes : Z -> Node;
  pool : list Goroutine;
  votes : gmap (Z * Z) Z;
  clock : Z
}.

Inductive Action :=
| ATime (d : Z)
| ATickCheck (i : Z)
| ATickFire (i r : Z)
| ARun (k : nat) (r : Z)
| ALose (k : nat)
| AStart (i : Z) (c : option Cmd)
| AApply (i : Z)
| ASendMsg (i : Z)
| AConsume (i : Z)
| AKill (i : Z).

(** The outcome of an action: a new world, an action that is not enabled, or a
    run-time panic of the Go code. *)
Inductive outcome := Next (w : World) | Disabled | Panic.

Definition with_rf (r : Raft) (n : Node) : Node :=
  mkNode r (armed n) (sending n) (applyCh n) (consumed n).

Definition peer_state (w : World) (i : Z) : Raft := rf (nodes w i).

Definition set_peer (i : Z) (r : Raft) (w : World) : World :=
  mkWorld (upd (nodes w) i (with_rf r (nodes w i))) (pool w) (votes w) (clock w).

Definition set_node (i : Z) (n : Node) (w : World) : World :=
  mkWorld (upd (nodes w) i n) (pool w) (votes w) (clock w).

Definition set_pool (p : list Goroutine) (w : World) : World :=
  mkWorld (nodes w) p (votes w) (clock w).

Definition set_votes (v : gmap (Z * Z) Z) (w : World) : World :=
  mkWorld (nodes w) (pool w) v (clock w).

(** The peers an RPC is sent to: [for _, peer := range rf.peers { if peer == rf.me { continue } }]. *)
Definition others (r : Raft) : list Z := filter (fun p => p <> me r) (peers r).

(** [broadcastAppendEntries]: one goroutine per other peer. *)
Definition broadcastAppendEntries (term : Z) (r : Raft) : list Goroutine :=
  map (fun p => GSend (me r) p term) (others r).

Definition from_option_panic {A} (o : option A) (k : A -> outcome) : outcome :=
  match o with Some a => k a | None => Panic end.

Section cluster.
Context (ps : list Z) (chanCap : nat).

(** The deadline drawn by [resetElectionTimer] at time [clock w] with the
    random number [r]. *)
Definition deadline (w : World) (r : Z) : Z := clock w + randElectionTimeout r.

(** One goroutine of the pool runs to its next blocking point; [w] is the
    world without it. *)
Definition run_goroutine (g : Goroutine) (r : Z) (w : World) : outcome :=
  match g with
  | GVoteCall from to args =>
      from_option_panic (RequestVote args (deadline w r) (peer_state w to)) (fun '(r', reply) =>
        Next (set_pool (GVoteRet from to args reply :: pool w) (set_peer to r' w)))
  | GVoteRet from to args reply =>
      let key := (from, VTerm args) in
      from_option_panic
        (onVoteReply (VTerm args) reply (mapget 0 (votes w) key) (deadline w r) (peer_state w from))
        (fun '(r', v, elected) =>
          let w' := set_votes (<[key := v]> (votes w)) (set_peer from r' w) in
          Next (if (elected : bool)
                then set_pool (GHeartbeat from (currentTerm r') :: pool w) w' else w'))
  | GHeartbeat i term =>
      let p := peer_state w i in
      if killed p then Next w
      else if negb (bool_decide (st p = leader)) || negb (currentTerm p =? term) then Next w
      else Next (set_pool (GHeartbeat i term :: broadcastAppendEntries term p ++ pool w) w)
  | GSend from to term =>
      from_option_panic (prepareAppendEntries to term (peer_state w from)) (fun oargs =>
        match oargs with
        | None => Next w
        | Some args => Next (set_pool (GAppCall from to args :: pool w) w)
        end)
  | GAppCall from to args =>
      from_option_panic (AppendEntries args (deadline w r) (peer_state w to)) (fun '(r', reply) =>
        Next (set_pool (GAppRet from to args reply :: pool w) (set_peer to r' w)))
  | GAppRet from to args reply =>
      from_option_panic
        (onAppendReply to (ATerm args) args reply (deadline w r) (peer_state w from)) (fun r' =>
        Next (set_peer from r' w))
  end.

(** Only an RPC or its reply can be lost. *)
Definition losable (g : Goroutine) : bool :=
  match g with
  | GVoteCall _ _ _ | GVoteRet _ _ _ _ | GAppCall _ _ _ | GAppRet _ _ _ _ => true
  | GHeartbeat _ _ | GSend _ _ _ => false
  end.

Definition exec (a : Action) (w : World) : outcome :=
  match a with
  | ATime d => if 0 <=? d then Next (mkWorld (nodes w) (pool w) (votes w) (clock w + d)) else Disabled
  | ATickCheck i =>
      let n := nodes w i in
      if negb (bool_decide (i ∈ ps)) || killed (rf n) || armed n then Disabled
      else
        let expired := electionDeadline (rf n) <? clock w in
        let isLeader := bool_decide (st (rf n) = leader) in
        Next (set_node i (mkNode (rf n) (negb isLeader && expired)
                                 (sending n) (applyCh n) (consumed n)) w)
  | ATickFire i r =>
      let n := nodes w i in
      if negb (bool_decide (i ∈ ps)) || negb (armed n) then Disabled
      else from_option_panic (startElection (deadline w r) (rf n)) (fun '(r', args) =>
        let n' := mkNode r' false (sending n) (applyCh n) (consumed n) in
        Next (set_pool (map (fun p => GVoteCall (me r') p args) (others r') ++ pool w)
             (set_votes (<[(i, currentTerm r') := 1]> (votes w)) (set_node i n' w))))
  | ARun k r =>
      match pool w !! k with
      | None => Disabled
      | Some g => run_goroutine g r (set_pool (delete k (pool w)) w)
      end
  | ALose k =>
      match pool w !! k with
      | Some g => if losable g then Next (set_pool (delete k (pool w)) w) else Disabled
      | None => Disabled
      end
  | AStart i c =>
      if negb (bool_decide (i ∈ ps)) then Disabled
      else from_option_panic (Start c (peer_state w i)) (fun '(r', (_, term, isLeader)) =>
        let w' := set_peer i r' w in
        Next (if (isLeader : bool)
              then set_pool (broadcastAppendEntries term r' ++ pool w) w' else w'))
  | AApply i =>
      let n := nodes w i in
      if negb (bool_decide (i ∈ ps)) || killed (rf n) || negb (bool_decide (sending n = [])) then Disabled
      else from_option_panic (applyTick (rf n)) (fun '(r', msgs) =>
        Next (set_node i (mkNode r' (armed n) msgs (applyCh n) (consumed n)) w))
  | ASendMsg i =>
      let n := nodes w i in
      match sending n with
      | m :: ms =>
          if bool_decide (length (applyCh n) < chanCap)%nat
          then Next (set_node i (mkNode (rf n) (armed n) ms (applyCh n ++ [m]) (consumed n)) w)
          else Disabled
      | [] => Disabled
      end
  | AConsume i =>
      let n := nodes w i in
      match applyCh n with
      | m :: ms => Next (set_node i (mkNode (rf n) (armed n) (sending n) ms (consumed n ++ [m])) w)
      | [] => Disabled
      end
  | AKill i =>
      if negb (bool_decide (i ∈ ps)) then Disabled
      else Next (set_peer i (Kill (peer_state w i)) w)
  end.

(** Every peer freshly made by [newRaft] at time 0; [draw i] is the random
    number peer [i] draws. *)
Definition init (draw : Z -> Z) : World :=
  mkWorld (fun i => mkNode (newRaft i ps (randElectionTimeout (draw i))) false [] [] []) [] ∅ 0.

Inductive reachable : World -> Prop :=
| reach_init draw : reachable (init draw)
| reach_step w a w' : reachable w -> exec a w = Next w' -> reachable w'.

Fixpoint run (acts : list Action) (w : World) : outcome :=
  match acts with
  | [] => Next w
  | a :: acts => match exec a w with Next w' => run acts w' | o => o end
  end.

Lemma run_reachable acts w w' : reachable w -> run acts w = Next w' -> reachable w'.
Proof.
  revert w; induction acts as [|a acts IH]; cbn; intros w Hw H; [congruence|].
  destruct (exec a w) eqn:E; try done. eapply IH; [|done]. by eapply reach_step.
Qed.

End cluster.

(** The configuration every constructor call of the program uses: distinct
    peer ids, none of them the value -1 that means "no vote". *)
Definition valid_config (ps : list Z) : Prop := NoDup ps /\ Forall (fun p => 0 <= p) ps.
