(* ===== verification/RaftLog.v ===== *)
(** Facts about Raft logs and quorums that hold of one peer's data alone: what
    it means for two logs to agree up to an index, the well-formedness of a
    log with respect to the logs of the leaders that wrote it, and the effect
    of the two merge loops of [AppendEntries] under those conditions. *)
From S2P Require Import Prelude Raft.

(** * Agreement *)

(** Both logs hold the same entry at every index up to [k]. *)
Definition agree (l1 l2 : list LogEntry) (k : Z) : Prop :=
  forall i, 0 <= i <= k -> exists e, l1 @[i] = Some e /\ l2 @[i] = Some e.

Lemma agree_sym l1 l2 k : agree l1 l2 k -> agree l2 l1 k.
Proof. intros H i Hi. destruct (H i Hi) as (e & ? & ?). eauto. Qed.

Lemma agree_trans l1 l2 l3 k : agree l1 l2 k -> agree l2 l3 k -> agree l1 l3 k.
Proof.
  intros H1 H2 i Hi. destruct (H1 i Hi) as (e & ? & ?), (H2 i Hi) as (e' & ? & ?).
  exists e. split; congruence.
Qed.

Lemma agree_le l1 l2 k k' : agree l1 l2 k -> k' <= k -> agree l1 l2 k'.
Proof. intros H Hk i Hi. apply H. lia. Qed.

Lemma agree_refl l k : k < zlen l -> agree l l k.
Proof. intros H i Hi. destruct (zget_Some l i) as [e He]; [lia|eauto]. Qed.

Lemma agree_len l1 l2 k : 0 <= k -> agree l1 l2 k -> k < zlen l1 /\ k < zlen l2.
Proof.
  intros Hk H. destruct (H k) as (e & H1%zget_bounds & H2%zget_bounds); lia.
Qed.

Lemma agree_get l1 l2 k i e : agree l1 l2 k -> 0 <= i <= k -> l1 @[i] = Some e -> l2 @[i] = Some e.
Proof. intros H Hi He. destruct (H i Hi) as (e' & ? & ?). congruence. Qed.

Lemma agree_app_l l1 l2 x k : agree l1 l2 k -> agree (l1 ++ x) l2 k.
Proof.
  intros H i Hi. destruct (H i Hi) as (e & H1 & H2). exists e. split; [|done].
  rewrite zget_app_l; [done|]. apply zget_bounds in H1. lia.
Qed.

Lemma agree_app_r l1 l2 x k : agree l1 l2 k -> agree l1 (l2 ++ x) k.
Proof. intros H. by apply agree_sym, agree_app_l, agree_sym. Qed.

Lemma agree_take l n k : k < n -> n <= zlen l -> agree (take (Z.to_nat n) l) l k.
Proof.
  intros H Hn i Hi. destruct (zget_Some l i) as [e He]; [lia|].
  exists e. split; [|done]. rewrite zget_take; [done|lia].
Qed.

#[export] Hint Resolve agree_sym agree_app_l agree_app_r : zlist.

(** * Well-formed logs *)

(** [L t] is the log of the leader of term [t], if one was elected.  A log is
    well formed when it starts with the sentinel, holds at index [i] an entry
    whose [Index] is [i], has terms that never decrease, and up to each of its
    entries equals the log of the leader of that entry's term. *)
Record log_ok (L : Z -> option (list LogEntry)) (l : list LogEntry) : Prop := {
  lo_sent : l @[0] = Some sentinel;
  lo_idx : forall i e, l @[i] = Some e -> Index e = i;
  lo_src : forall i e, 1 <= i -> l @[i] = Some e ->
    1 <= Term e /\ exists lt, L (Term e) = Some lt /\ agree l lt i;
  lo_sorted : forall i j ei ej, i <= j -> l @[i] = Some ei -> l @[j] = Some ej -> Term ei <= Term ej
}.

Lemma log_ok_pos L l : log_ok L l -> 0 < zlen l.
Proof. intros H. pose proof (zget_bounds _ _ _ (lo_sent _ _ H)). lia. Qed.

Lemma log_ok_last L l :
  log_ok L l ->
  exists e, lastEntry l = Some e /\ l @[zlen l - 1] = Some e /\ Index e = zlen l - 1.
Proof.
  intros H. pose proof (log_ok_pos _ _ H).
  destruct (zget_Some l (zlen l - 1)) as [e He]; [lia|].
  exists e. unfold lastEntry. split_and!; [done..|]. by apply (lo_idx _ _ H).
Qed.

Lemma log_ok_term_nonneg L l i e : log_ok L l -> l @[i] = Some e -> 0 <= Term e.
Proof.
  intros H He. pose proof (zget_bounds _ _ _ He).
  exact (lo_sorted _ _ H 0 i sentinel e ltac:(lia) (lo_sent _ _ H) He).
Qed.

(** Log matching: equal terms at an index make the logs equal up to it. *)
Lemma log_ok_match L l1 l2 i e1 e2 :
  log_ok L l1 -> log_ok L l2 -> l1 @[i] = Some e1 -> l2 @[i] = Some e2 ->
  Term e1 = Term e2 -> agree l1 l2 i.
Proof.
  intros H1 H2 He1 He2 Ht. pose proof (zget_bounds _ _ _ He1).
  destruct (decide (i = 0)) as [->|Hi].
  - intros j Hj. assert (j = 0) as -> by lia. exists sentinel.
    split; [apply (lo_sent _ _ H1)|apply (lo_sent _ _ H2)].
  - destruct (lo_src _ _ H1 i e1) as (_ & lt1 & Hlt1 & Ha1); [lia|done|].
    destruct (lo_src _ _ H2 i e2) as (_ & lt2 & Hlt2 & Ha2); [lia|done|].
    assert (lt1 = lt2) as -> by congruence.
    eapply agree_trans; [done|]. by apply agree_sym.
Qed.

(** A well-formed log stays so when leaders' logs appear or grow. *)
Lemma log_ok_mono (L L' : Z -> option (list LogEntry)) l :
  (forall t lt, L t = Some lt -> exists x, L' t = Some (lt ++ x)) ->
  log_ok L l -> log_ok L' l.
Proof.
  intros HL [H1 H2 H3 H4]. split; [done..| |done].
  intros i e Hi He. destruct (H3 i e Hi He) as (? & lt & Hlt & Ha).
  destruct (HL _ _ Hlt) as [x Hx]. split; [done|]. exists (lt ++ x). auto with zlist.
Qed.

(** A non-empty prefix of a well-formed log is well formed. *)
Lemma log_ok_take L l n : log_ok L l -> 1 <= n <= zlen l -> log_ok L (take (Z.to_nat n) l).
Proof.
  intros [H1 H2 H3 H4] Hn.
  assert (Hg : forall i e, (take (Z.to_nat n) l) @[i] = Some e -> i < n /\ l @[i] = Some e).
  { intros i e He. pose proof (zget_bounds _ _ _ He) as Hb.
    rewrite zlen_take in Hb by lia. rewrite zget_take in He by lia. split; [lia|done]. }
  split.
  - rewrite zget_take; [done|lia].
  - intros i e [_ He]%Hg. auto.
  - intros i e Hi [Hin He]%Hg. destruct (H3 i e Hi He) as (? & lt & ? & ?).
    split; [done|]. exists lt. split; [done|]. eapply agree_trans; [|done].
    apply agree_take; lia.
  - intros i j ei ej Hij [_ Hi]%Hg [_ Hj]%Hg. eauto.
Qed.

(** Appending an entry of a term whose leader holds exactly the new log. *)
Lemma log_ok_snoc L l e :
  log_ok L l -> Index e = zlen l -> 1 <= Term e ->
  (forall i ei, l @[i] = Some ei -> Term ei <= Term e) ->
  (exists lt, L (Term e) = Some lt /\ agree (l ++ [e]) lt (zlen l)) ->
  log_ok L (l ++ [e]).
Proof.
  intros [H1 H2 H3 H4] Hidx Ht Hmax (lt & HL & Ha).
  split.
  - rewrite zget_app_l; [done|]. apply zget_bounds in H1. lia.
  - intros i x [[_ Hx]|[-> ->]]%zget_snoc; auto.
  - intros i x Hi [[Hb Hx]|[-> ->]]%zget_snoc; [|eauto].
    destruct (H3 i x Hi Hx) as (? & l' & ? & ?). eauto with zlist.
  - intros i j ei ej Hij Hgi Hgj.
    apply zget_snoc in Hgi as [[? Hgi]|[-> ->]], Hgj as [[? Hgj]|[-> ->]]; eauto; lia.
Qed.

(** * The merge loops of [AppendEntries] *)

Definition last_ok (l : list LogEntry) : Prop :=
  exists e, lastEntry l = Some e /\ Index e = zlen l - 1.

Lemma log_ok_last_ok L l : log_ok L l -> last_ok l.
Proof. intros (e & ? & _ & ?)%log_ok_last. by exists e. Qed.

(** [truncateConflict] either finds no conflict and keeps the log, or cuts it
    at the first index whose term differs. *)
Lemma truncateConflict_spec es : forall l idx,
  last_ok l -> 0 <= idx ->
  (truncateConflict l idx es = Some l /\
   forall k e e', es @[k] = Some e -> l @[idx + k] = Some e' -> Term e' = Term e) \/
  (exists k e e', es @[k] = Some e /\ l @[idx + k] = Some e' /\ Term e' <> Term e /\
   truncateConflict l idx es = Some (take (Z.to_nat (idx + k)) l) /\
   forall k1 e1 e1', k1 < k -> es @[k1] = Some e1 -> l @[idx + k1] = Some e1' -> Term e1' = Term e1).
Proof.
  induction es as [|x es IH]; intros l idx Hl Hidx; cbn [truncateConflict].
  { left. split; [done|]. intros k e e' Hk. apply zget_bounds in Hk.
    unfold zlen in Hk. cbn in Hk. lia. }
  destruct Hl as (le & Hle & Hli). rewrite Hle; cbn [mbind option_bind].
  assert (Hlo : last_ok l) by (exists le; done).
  assert (Hstep : (forall e', l @[idx] = Some e' -> Term e' = Term x) ->
    forall o, o = truncateConflict l (idx + 1) es ->
    (o = Some l /\
     forall k e e', (x :: es) @[k] = Some e -> l @[idx + k] = Some e' -> Term e' = Term e) \/
    (exists k e e', (x :: es) @[k] = Some e /\ l @[idx + k] = Some e' /\ Term e' <> Term e /\
     o = Some (take (Z.to_nat (idx + k)) l) /\
     forall k1 e1 e1', k1 < k -> (x :: es) @[k1] = Some e1 -> l @[idx + k1] = Some e1' ->
       Term e1' = Term e1)).
  { intros Hx o ->.
    assert (Hhd : forall k e e', k <= 0 -> (x :: es) @[k] = Some e -> l @[idx + k] = Some e' ->
      Term e' = Term e).
    { intros k e e' Hk0 Hk He'. pose proof (zget_bounds _ _ _ Hk). assert (k = 0) as -> by lia.
      rewrite zget_cons_0 in Hk. rewrite Z.add_0_r in He'. rewrite (Hx _ He'). congruence. }
    destruct (IH l (idx + 1) Hlo) as [[HE Hall]|(k & e & e' & He & He' & Hne & HE & Hall)];
      [lia|left|right].
    - split; [done|]. intros k e e' Hk He'. destruct (decide (k <= 0)); [eauto|].
      rewrite zget_cons_pos in Hk by lia. eapply Hall; [done|].
      by replace (idx + 1 + (k - 1)) with (idx + k) by lia.
    - pose proof (zget_bounds _ _ _ He). exists (k + 1), e, e'.
      rewrite zget_cons_pos by lia. replace (k + 1 - 1) with k by lia.
      replace (idx + (k + 1)) with (idx + 1 + k) by lia. split_and!; [done..|].
      intros k1 e1 e1' Hk1 Hg Hg'. destruct (decide (k1 <= 0)); [eauto|].
      rewrite zget_cons_pos in Hg by lia.
      eapply (Hall (k1 - 1)); [lia|done|].
      by replace (idx + 1 + (k1 - 1)) with (idx + k1) by lia. }
  case_test.
  - destruct (zget_Some l idx) as [e He]; [lia|]. rewrite He; cbn [mbind option_bind].
    case_test.
    + right. exists 0, x, e. rewrite Z.add_0_r. split_and!; [done..| |].
      * rewrite zprefix_Some; [done|]. apply zget_bounds in He. lia.
      * intros k1 e1 e1' Hk1 Hg. apply zget_bounds in Hg. lia.
    + apply Hstep; [|done]. intros e' He'. congruence.
  - apply Hstep; [|done]. intros e' He'%zget_bounds. lia.
Qed.

(** [appendMissing] adds exactly the entries beyond the log's end. *)
Lemma appendMissing_spec es : forall l idx,
  last_ok l -> idx <= zlen l ->
  (forall k e, es @[k] = Some e -> Index e = idx + k) ->
  appendMissing l idx es = Some (l ++ drop (Z.to_nat (zlen l - idx)) es).
Proof.
  induction es as [|x es IH]; intros l idx Hl Hidx Hes; cbn [appendMissing].
  { by rewrite drop_nil, app_nil_r. }
  assert (Hes' : forall k e, es @[k] = Some e -> Index e = idx + 1 + k).
  { intros k e Hk. pose proof (zget_bounds _ _ _ Hk).
    rewrite (Hes (k + 1) e); [lia|]. rewrite zget_cons_pos by lia.
    by replace (k + 1 - 1) with k by lia. }
  destruct Hl as (le & Hle & Hli). rewrite Hle; cbn [mbind option_bind]. case_test.
  - assert (idx = zlen l) by lia. rewrite IH.
    + rewrite zlen_snoc. replace (zlen l + 1 - (idx + 1)) with 0 by lia.
      replace (zlen l - idx) with 0 by lia. cbn. by rewrite <- app_assoc.
    + exists x. unfold lastEntry. rewrite zlen_snoc.
      replace (zlen l + 1 - 1) with (zlen l) by lia. rewrite zget_snoc_last.
      split; [done|]. rewrite (Hes 0 x); [lia|done].
    + rewrite zlen_snoc. lia.
    + done.
  - rewrite IH; [|by exists le|lia|done].
    replace (Z.to_nat (zlen l - idx)) with (S (Z.to_nat (zlen l - (idx + 1)))) by lia.
    done.
Qed.

(** The sequence [es] is what the log [lt] holds after index [prev]. *)
Definition segment (lt : list LogEntry) (prev : Z) (es : list LogEntry) : Prop :=
  forall k e, es @[k] = Some e -> lt @[prev + 1 + k] = Some e.

Lemma segment_len lt prev es :
  0 <= prev < zlen lt -> segment lt prev es -> prev + zlen es < zlen lt.
Proof.
  intros Hp H. destruct (decide (zlen es = 0)) as [->|]; [lia|].
  pose proof (zlen_nonneg es).
  destruct (zget_Some es (zlen es - 1)) as [e He]; [lia|].
  apply H, zget_bounds in He. lia.
Qed.

Lemma splice_eq l lt prev es c :
  0 <= prev -> prev < c <= prev + 1 + zlen es -> c <= zlen l ->
  prev < zlen lt -> segment lt prev es -> agree l lt (c - 1) ->
  take (Z.to_nat c) l ++ drop (Z.to_nat (c - (prev + 1))) es
  = take (Z.to_nat (prev + zlen es + 1)) lt.
Proof.
  intros Hp Hc Hcl Hlt Hseg Ha.
  pose proof (segment_len lt prev es ltac:(lia) Hseg).
  apply zlist_eq.
  { rewrite zlen_app, zlen_take, zlen_drop, zlen_take; lia. }
  rewrite zlen_app, zlen_take, zlen_drop by lia. intros i Hi.
  rewrite (zget_take lt) by lia.
  destruct (decide (i < c)).
  - rewrite zget_app_l by (rewrite zlen_take; lia). rewrite zget_take by lia.
    destruct (Ha i) as (e & -> & ->); [lia|done].
  - rewrite zget_app_r by (rewrite zlen_take; lia). rewrite zlen_take by lia.
    rewrite zget_drop by lia.
    destruct (zget_Some es (c - (prev + 1) + (i - c))) as [e He]; [lia|].
    rewrite He. apply Hseg in He. rewrite <- He. f_equal. lia.
Qed.

(** The log [l2] a follower holding [l] has after it accepted the first [k]
    entries of the leader's log [lt]: either [l] already held them and is
    unchanged, or it becomes the leader's log up to [k], having disagreed with
    it before that point. *)
Definition merged (l lt : list LogEntry) (k : Z) (l2 : list LogEntry) : Prop :=
  (l2 = l /\ agree l lt k) \/
  (l2 = take (Z.to_nat (k + 1)) lt /\ forall n, agree l lt n -> n <= k).

Lemma merged_agree l lt k l2 : k < zlen lt -> merged l lt k l2 -> agree l2 lt k.
Proof. intros Hk [[-> ?]|[-> _]]; [done|]. apply agree_take; lia. Qed.

(** Nothing on which the follower's and the leader's logs agreed is lost. *)
Lemma merged_stable l lt k l2 x n :
  k < zlen lt -> merged l lt k l2 -> agree l x n -> agree lt x n -> agree l2 x n.
Proof.
  intros Hk [[-> _]|[-> Hle]] Hl Hlt; [done|].
  assert (n <= k) by (apply Hle; eauto using agree_trans, agree_sym).
  eapply agree_trans; [apply agree_take; lia|done].
Qed.

Lemma merge_spec L l lt prev es :
  log_ok L l -> log_ok L lt -> 0 <= prev -> agree l lt prev -> segment lt prev es ->
  exists l1 l2,
    truncateConflict l (prev + 1) es = Some l1 /\
    appendMissing l1 (prev + 1) es = Some l2 /\
    merged l lt (prev + zlen es) l2.
Proof.
  intros Hl Hlt Hp Ha Hseg.
  destruct (agree_len _ _ _ Hp Ha) as [Hpl Hplt].
  pose proof (zlen_nonneg es) as Hes.
  pose proof (segment_len _ _ _ (conj Hp Hplt) Hseg) as Hend.
  assert (Hidx : forall k e, es @[k] = Some e -> Index e = prev + 1 + k).
  { intros k e He%Hseg. by apply (lo_idx _ _ Hlt). }
  (* matching terms up to [c - 1] give agreement up to [c - 1] *)
  assert (Hup : forall c, prev < c -> c <= zlen l -> c <= prev + 1 + zlen es ->
    (forall k e e', prev + 1 + k < c -> es @[k] = Some e -> l @[prev + 1 + k] = Some e' ->
       Term e' = Term e) -> agree l lt (c - 1)).
  { intros c Hc Hcl Hce Hm. destruct (decide (c = prev + 1)) as [->|].
    { by replace (prev + 1 - 1) with prev by lia. }
    destruct (zget_Some es (c - 1 - (prev + 1))) as [e He]; [lia|].
    destruct (zget_Some l (c - 1)) as [e' He']; [lia|].
    replace (c - 1) with (prev + 1 + (c - 1 - (prev + 1))) in He' by lia.
    pose proof (Hm (c - 1 - (prev + 1)) e e' ltac:(lia) He He') as Ht. apply Hseg in He.
    replace (c - 1) with (prev + 1 + (c - 1 - (prev + 1))) by lia.
    eauto using log_ok_match. }
  destruct (truncateConflict_spec es l (prev + 1) (log_ok_last_ok _ _ Hl) ltac:(lia))
    as [[HE Hall]|(k & e & e' & He & He' & Hne & HE & Hall)]; eexists; eexists;
    (split; [done|]).
  - rewrite appendMissing_spec by (eauto using log_ok_last_ok || lia).
    split; [done|]. destruct (decide (prev + zlen es < zlen l)).
    + left. rewrite drop_ge by (unfold zlen in *; lia). rewrite app_nil_r. split; [done|].
      replace (prev + zlen es) with (prev + 1 + zlen es - 1) by lia.
      apply Hup; [lia..|]. intros; eauto.
    + right. split.
      * rewrite <- (splice_eq l lt prev es (zlen l)); [|lia|lia|lia|lia|done|].
        { f_equal. unfold zlen. by rewrite Nat2Z.id, firstn_all. }
        apply Hup; [lia..|]. intros; eauto.
      * intros j Hj. destruct (decide (0 <= j)); [|lia].
        apply agree_len in Hj; lia.
  - pose proof (zget_bounds _ _ _ He). pose proof (zget_bounds _ _ _ He').
    assert (Hlok : log_ok L (take (Z.to_nat (prev + 1 + k)) l)) by (apply log_ok_take; [done|lia]).
    rewrite appendMissing_spec; [|by eapply log_ok_last_ok|rewrite zlen_take; lia|done].
    split; [done|]. right. rewrite zlen_take by lia. split.
    + apply splice_eq; [lia..|done|]. apply Hup; [lia..|].
      intros k1 e1 e1' Hk1. apply Hall. lia.
    + intros j Hj. destruct (decide (j < prev + 1 + k)); [lia|].
      exfalso. apply Hne. apply Hseg in He.
      pose proof (agree_get _ _ _ (prev + 1 + k) _ Hj ltac:(lia) He') as Hg. congruence.
Qed.

(** * Quorums *)

Definition quorum (ps Q : list Z) : Prop :=
  NoDup Q /\ (forall j, j ∈ Q -> j ∈ ps) /\ majority ps <= zlen Q.

Lemma quorum_inter ps Q1 Q2 :
  quorum ps Q1 -> quorum ps Q2 -> exists j, j ∈ Q1 /\ j ∈ Q2.
Proof.
  intros (Hn1 & Hs1 & Hm1) (Hn2 & Hs2 & Hm2).
  destruct (decide (Exists (fun j => j ∈ Q2) Q1)) as [(j & ? & ?)%list.Exists_exists|Hno]; [by exists j|].
  exfalso. rewrite <- Forall_Exists_neg, list.Forall_forall in Hno.
  assert (Hnd : NoDup (Q1 ++ Q2)) by (apply list.NoDup_app; auto).
  assert (Hlen : (length (Q1 ++ Q2) <= length ps)%nat).
  { apply submseteq_length, NoDup_submseteq; [done|]. intros j [?|?]%elem_of_app; auto. }
  rewrite length_app in Hlen. unfold majority, zlen in *.
  pose proof (Z.div_mod (Z.of_nat (length ps)) 2 ltac:(lia)).
  pose proof (Z.mod_pos_bound (Z.of_nat (length ps)) 2 ltac:(lia)). lia.
Qed.

(** * Reading a log *)

(** Whether a candidate's log is at least as up to date as a voter's: §5.4.1,
    the test of [RequestVote]. *)
Definition up_to_date (lc lv : list LogEntry) : Prop :=
  exists ec ev, lastEntry lc = Some ec /\ lastEntry lv = Some ev /\
    (Term ev < Term ec \/ (Term ec = Term ev /\ Index ev <= Index ec)).

Lemma up_to_date_refl L l : log_ok L l -> up_to_date l l.
Proof. intros (e & He & _)%log_ok_last. exists e, e. split_and!; [done..|lia]. Qed.

(** [lastIndexOfTerm] finds the last entry of a term. *)
Lemma lastIndexOfTerm_spec l t k :
  (k <= length l)%nat ->
  exists r, lastIndexOfTerm l t k = Some r /\
    ((r = -1 /\ forall i e, i < Z.of_nat k -> l @[i] = Some e -> Term e <> t) \/
     (0 <= r < Z.of_nat k /\ (exists e, l @[r] = Some e /\ Term e = t) /\
      forall i e, r < i < Z.of_nat k -> l @[i] = Some e -> Term e <> t)).
Proof.
  induction k as [|k IH]; intros Hk; cbn [lastIndexOfTerm].
  { exists (-1). split; [done|]. left. split; [done|]. intros i e Hi He%zget_bounds. lia. }
  destruct (zget_Some l (Z.of_nat k)) as [e He]; [unfold zlen; lia|].
  rewrite He; cbn [mbind option_bind]. case_test.
  - eexists; split; [done|]. right. split_and!; [lia|lia|eauto|]. intros; lia.
  - assert (Hlast : forall i e, i < Z.of_nat (S k) -> ~ i < Z.of_nat k -> l @[i] = Some e -> Term e <> t).
    { intros i e' ? ? He'. assert (i = Z.of_nat k) as -> by lia. congruence. }
    destruct (IH ltac:(lia)) as (r & -> & [[-> H]|(Hr & He' & H)]); (eexists; split; [done|]).
    + left. split; [done|]. intros i e' Hi He'. destruct (decide (i < Z.of_nat k)); eauto.
    + right. split_and!; [lia|lia|done|]. intros i e'' Hi ?. destruct (decide (i < Z.of_nat k)); eauto.
      eapply H; [|done]. lia. eapply Hlast; [| |done]; lia.
Qed.

(** [conflictStart] never leaves the log, stops above the sentinel when the
    term it follows is positive, and never goes past where it started. *)
Lemma conflictStart_spec L l t idx :
  log_ok L l -> 1 <= t -> (1 <= idx)%nat -> Z.of_nat idx < zlen l ->
  exists r, conflictStart l t idx = Some r /\ (1 <= r <= idx)%nat.
Proof.
  intros Hl Ht. induction idx as [|idx IH]; intros Hi Hb; [lia|]. cbn [conflictStart].
  destruct (zget_Some l (Z.of_nat idx)) as [e He]; [lia|].
  rewrite He; cbn [mbind option_bind]. case_test; [|eexists; split; [done|lia]].
  destruct idx as [|idx].
  { pose proof (lo_sent _ _ Hl) as Hs. change (Z.of_nat 0) with 0 in He.
    rewrite Hs in He. injection He as <-. cbn in Etest. lia. }
  destruct IH as (r & -> & ?); [lia..|]. eexists; split; [done|lia].
Qed.
