(* ===== verification/RaftInv.v ===== *)
(** The inductive invariant of a Raft group.

    It speaks of the peers and of a history [ghost] that the code does not
    store: the log of the leader of each term, who voted for whom with which
    log, and how far each peer acknowledged each leader.  The invariant is
    split into what holds of one peer ([node_ok]), what holds of the history
    ([hist_ok]) and what holds of one RPC in flight ([msg_ok]), so that an
    operation on one peer has to re-establish only that peer's part. *)
From S2P Require Import Prelude Raft RaftCluster RaftLog.

Record ghost := mkGhost {
  L : Z -> option (list LogEntry);
  ldr : Z -> Z;
  vote : Z * Z -> option Z;
  vlog : Z * Z -> list LogEntry;
  clog : Z * Z -> list LogEntry;
  ack : Z * Z -> Z;
  voters : Z * Z -> list Z
}.

(** The log holds at [n] an entry of term [t]. *)
Definition at_term (l : list LogEntry) (n t : Z) : Prop :=
  exists e, l @[n] = Some e /\ Term e = t.

(** Names the nineteen parts of [node_ok]. *)
Ltac open_node H :=
  destruct H as [Nme Npeers Nterm Nlog Nlogterm Nps Nvoted Nvote Nvotedby Ncand Nlead Nled
                 Nself Nmatch Nnext Nack Nacked Ncommit Napplied].

Section inv.
Context (ps : list Z).
Implicit Types (T : Z -> Z) (g : ghost) (r : Raft).

(** A majority acknowledged the leader of [t] up to [n]. *)
Definition chosen g (t n : Z) : Prop :=
  exists Q, quorum ps Q /\ forall j, j ∈ Q -> n <= ack g (j, t).

(** A majority has left term [t] without acknowledging [n]: the entry can never
    be committed by counting replicas in term [t]. *)
Definition blocked T g (t n : Z) : Prop :=
  exists Q, quorum ps Q /\ forall j, j ∈ Q -> t < T j /\ ack g (j, t) < n.

(** The first [k] entries of [l] are committed, on the authority of some leader
    of a term up to [t]. *)
Definition committed g (l : list LogEntry) (k t : Z) : Prop :=
  k = 0 \/ exists t0 n lt, t0 <= t /\ L g t0 = Some lt /\ at_term lt n t0 /\
    chosen g t0 n /\ 1 <= k <= n /\ agree l lt k.

Record node_ok T g (i : Z) r : Prop := {
  no_me : me r = i;
  no_peers : peers r = ps;
  no_term : 0 <= currentTerm r;
  no_log : log_ok (L g) (log r);
  no_logterm : forall k e, (log r) @[k] = Some e -> Term e <= currentTerm r;
  no_ps : st r <> follower -> i ∈ ps;
  no_voted : votedFor r <> -1 -> vote g (i, currentTerm r) = Some (votedFor r);
  no_vote : forall t c, vote g (i, t) = Some c ->
    t <= currentTerm r /\ (t = currentTerm r -> votedFor r = c);
  no_votedby : forall j t, vote g (j, t) = Some i -> t <= currentTerm r;
  no_cand : st r = candidate ->
    1 <= currentTerm r /\ vote g (i, currentTerm r) = Some i /\ clog g (i, currentTerm r) = log r /\
    forall k e, (log r) @[k] = Some e -> Term e < currentTerm r;
  no_lead : st r = leader -> L g (currentTerm r) = Some (log r) /\ ldr g (currentTerm r) = i;
  no_led : forall t l, L g t = Some l -> ldr g t = i ->
    t <= currentTerm r /\ (t = currentTerm r -> st r <> candidate);
  no_self : st r = leader -> zlen (log r) - 1 <= ack g (i, currentTerm r);
  no_match : st r = leader -> forall p, p ∈ ps -> p <> i ->
    mapget 0 (matchIndex r) p <= ack g (p, currentTerm r);
  no_next : st r = leader -> forall p, p ∈ ps -> p <> i ->
    1 <= mapget 0 (nextIndex r) p <= zlen (log r);
  no_ack : forall t, 0 < ack g (i, t) ->
    t <= currentTerm r /\ exists l, L g t = Some l /\ ack g (i, t) < zlen l;
  no_acked : forall t n l, L g t = Some l -> at_term l n t -> 1 <= n <= ack g (i, t) ->
    blocked T g t n \/ agree (log r) l n;
  no_commit : committed g (log r) (commitIndex r) (currentTerm r);
  no_applied : 0 <= lastApplied r <= commitIndex r
}.

Record hist_ok T g : Prop := {
  ho_L : forall t l, L g t = Some l ->
    1 <= t /\ log_ok (L g) l /\ ldr g t ∈ ps /\ forall k e, l @[k] = Some e -> Term e <= t;
  ho_quorum : forall t l, L g t = Some l ->
    exists Q, quorum ps Q /\ forall j, j ∈ Q -> vote g (j, t) = Some (ldr g t);
  ho_vote : forall j t c, vote g (j, t) = Some c ->
    c ∈ ps /\ up_to_date (clog g (c, t)) (vlog g (j, t)) /\ log_ok (L g) (vlog g (j, t)) /\
    log_ok (L g) (clog g (c, t)) /\ (forall k e, (clog g (c, t)) @[k] = Some e -> Term e < t);
  ho_vacked : forall j t' c t n l, vote g (j, t') = Some c -> t < t' ->
    L g t = Some l -> at_term l n t -> 1 <= n <= ack g (j, t) ->
    blocked T g t n \/ agree (vlog g (j, t')) l n;
  ho_safe : forall t t' l l' n, t < t' -> L g t = Some l -> L g t' = Some l' ->
    at_term l n t -> 1 <= n -> blocked T g t n \/ agree l' l n;
  ho_ack : forall k, 0 <= ack g k
}.

(** What a leader sends is part of its log, and the commit index it sends is
    covered by the entries it sends. *)
Definition app_ok g (from to : Z) (args : AppendEntriesArgs) : Prop :=
  to ∈ ps /\ from ∈ ps /\ from <> to /\ 0 <= PrevLogIndex args /\
  exists l, L g (ATerm args) = Some l /\ ldr g (ATerm args) = from /\
    at_term l (PrevLogIndex args) (PrevLogTerm args) /\
    segment l (PrevLogIndex args) (Entries args) /\
    LeaderCommit args <= PrevLogIndex args + zlen (Entries args) /\
    committed g l (LeaderCommit args) (ATerm args).

(** A rejection of the leader's own term carries a usable backtracking hint. *)
Definition conflict_ok g (args : AppendEntriesArgs) (reply : AppendEntriesReply) : Prop :=
  1 <= ConflictIndex reply <= PrevLogIndex args /\
  (ConflictTerm reply <> -1 ->
   ConflictTerm reply <> PrevLogTerm args /\
   exists lc, L g (ConflictTerm reply) = Some lc /\
     at_term lc (PrevLogIndex args) (ConflictTerm reply)).

Definition msg_ok T g (m : Goroutine) : Prop :=
  match m with
  | GVoteCall from to args =>
      to ∈ ps /\ from ∈ ps /\ CandidateId args = from /\ 1 <= VTerm args <= T from /\
      vote g (from, VTerm args) = Some from /\
      exists e, lastEntry (clog g (from, VTerm args)) = Some e /\
        Index e = LastLogIndex args /\ Term e = LastLogTerm args
  | GVoteRet from to args reply =>
      to ∈ ps /\ from ∈ ps /\ VTerm args <= T from /\
      (VoteGranted reply = true -> vote g (to, VTerm args) = Some from)
  | GHeartbeat i _ => i ∈ ps
  | GSend from to _ => to ∈ ps /\ from ∈ ps /\ from <> to
  | GAppCall from to args => app_ok g from to args
  | GAppRet from to args reply =>
      app_ok g from to args /\
      (Success reply = true -> PrevLogIndex args + zlen (Entries args) <= ack g (to, ATerm args)) /\
      (Success reply = false -> ARTerm reply <= ATerm args -> conflict_ok g args reply)
  end.

(** The peers whose reply to the election of [i] in [t] is still outstanding. *)
Definition target (i t : Z) (m : Goroutine) : option Z :=
  match m with
  | GVoteCall from to args => if decide (from = i /\ VTerm args = t) then Some to else None
  | GVoteRet from to args _ => if decide (from = i /\ VTerm args = t) then Some to else None
  | _ => None
  end.

Definition targets (i t : Z) (pl : list Goroutine) : list Z := omap (target i t) pl.

(** The vote counters count distinct peers that voted for the candidate. *)
Record votes_ok g (vs : gmap (Z * Z) Z) (pl : list Goroutine) : Prop := {
  vo_count : forall k, mapget 0 vs k = zlen (voters g k);
  vo_nodup : forall i t, NoDup (voters g (i, t) ++ targets i t pl);
  vo_voted : forall i t j, j ∈ voters g (i, t) -> j ∈ ps /\ vote g (j, t) = Some i
}.

Definition terms (N : Z -> Raft) : Z -> Z := fun i => currentTerm (N i).

(** The whole invariant of a group. *)
Record inv (N : Z -> Raft) (pl : list Goroutine) (vs : gmap (Z * Z) Z) g : Prop := {
  inv_node : forall i, node_ok (terms N) g i (N i);
  inv_hist : hist_ok (terms N) g;
  inv_msg : forall m, m ∈ pl -> msg_ok (terms N) g m;
  inv_votes : votes_ok g vs pl
}.

(** * How the history evolves *)

(** Histories only grow: leaders' logs are extended, votes stay, and what a peer
    acknowledged of a term it has left is final. *)
Record ext T g T' g' : Prop := {
  x_T : forall j, T j <= T' j;
  x_L : forall t l, L g t = Some l -> exists x, L g' t = Some (l ++ x);
  x_ldr : forall t l, L g t = Some l -> ldr g' t = ldr g t;
  x_vote : forall j t c, vote g (j, t) = Some c ->
    vote g' (j, t) = Some c /\ vlog g' (j, t) = vlog g (j, t) /\ clog g' (c, t) = clog g (c, t);
  x_ack : forall k, ack g k <= ack g' k;
  x_frozen : forall j t, t < T j -> ack g' (j, t) = ack g (j, t)
}.

(** Leaders' logs only grow. *)
Definition grows g g' : Prop :=
  forall t l, L g t = Some l -> (exists x, L g' t = Some (l ++ x)) /\ ldr g' t = ldr g t.

Lemma grows_same g g' : (L g', ldr g') = (L g, ldr g) -> grows g g'.
Proof. intros [= E1 E2] t l H. rewrite E1, E2. split; [|done]. exists []. by rewrite app_nil_r. Qed.

Lemma grows_trans g1 g2 g3 : grows g1 g2 -> grows g2 g3 -> grows g1 g3.
Proof.
  intros H12 H23 t l H. destruct (H12 _ _ H) as [[x Hx] E1]. destruct (H23 _ _ Hx) as [[y Hy] E2].
  split; [|congruence]. exists (x ++ y). by rewrite app_assoc.
Qed.

Lemma at_term_app l x n t : at_term l n t -> at_term (l ++ x) n t.
Proof.
  intros (e & He & Ht). exists e. split; [|done].
  rewrite zget_app_l; [done|]. apply zget_bounds in He. lia.
Qed.

Lemma at_term_len l n t : at_term l n t -> 0 <= n < zlen l.
Proof. intros (e & He & _). by apply zget_bounds in He. Qed.

Lemma at_term_app_inv l x n t : at_term (l ++ x) n t -> n < zlen l -> at_term l n t.
Proof. intros (e & He & Ht) Hn. exists e. by rewrite zget_app_l in He by lia. Qed.

Lemma at_term_agree l1 l2 k n t : agree l1 l2 k -> 0 <= n <= k -> at_term l1 n t -> at_term l2 n t.
Proof. intros Ha Hn (e & He & Ht). exists e. eauto using agree_get. Qed.

Lemma chosen_ext T g T' g' t n : ext T g T' g' -> chosen g t n -> chosen g' t n.
Proof.
  intros X (Q & HQ & H). exists Q. split; [done|]. intros j Hj.
  etransitivity; [by apply H|]. apply (x_ack _ _ _ _ X).
Qed.

Lemma blocked_ext T g T' g' t n : ext T g T' g' -> blocked T g t n -> blocked T' g' t n.
Proof.
  intros X (Q & HQ & H). exists Q. split; [done|]. intros j Hj.
  destruct (H j Hj). pose proof (x_T _ _ _ _ X j).
  rewrite (x_frozen _ _ _ _ X) by lia. lia.
Qed.

Lemma chosen_not_blocked T g t n : chosen g t n -> blocked T g t n -> False.
Proof.
  intros (Q1 & HQ1 & H1) (Q2 & HQ2 & H2).
  destruct (quorum_inter _ _ _ HQ1 HQ2) as (j & Hj1 & Hj2).
  specialize (H1 _ Hj1). specialize (H2 _ Hj2). lia.
Qed.

Lemma committed_ext T g T' g' l k t t' x :
  ext T g T' g' -> t <= t' -> committed g l k t -> committed g' (l ++ x) k t'.
Proof.
  intros X Ht [->|(t0 & n & lt & Ht0 & HL & Hat & Hch & Hk & Ha)]; [by left|right].
  destruct (x_L _ _ _ _ X _ _ HL) as [y Hy]. exists t0, n, (lt ++ y).
  split_and!; [lia|done|by apply at_term_app|by eapply chosen_ext|lia|lia|auto with zlist].
Qed.

Lemma committed_ext0 T g T' g' l k t t' :
  ext T g T' g' -> t <= t' -> committed g l k t -> committed g' l k t'.
Proof. intros. rewrite <- (app_nil_r l). by eapply committed_ext. Qed.

Lemma committed_nonneg g l k t : committed g l k t -> 0 <= k.
Proof. intros [->|(? & ? & ? & ? & ? & ? & ? & ? & ?)]; lia. Qed.

Lemma committed_len g l k t : 0 < zlen l -> committed g l k t -> k < zlen l.
Proof.
  intros Hl [->|(? & ? & ? & _ & _ & _ & _ & ? & Ha)]; [done|].
  apply agree_len in Ha; lia.
Qed.

Lemma log_ok_ext T g T' g' l : ext T g T' g' -> log_ok (L g) l -> log_ok (L g') l.
Proof. intros X. apply log_ok_mono. apply (x_L _ _ _ _ X). Qed.

Lemma ext_refl T g : ext T g T g.
Proof.
  split; [done| |done|done|done|done]. intros t l H. exists []. by rewrite app_nil_r.
Qed.

Lemma ext_terms T T' g : (forall j, T j <= T' j) -> ext T g T' g.
Proof.
  intros H. split; [done| |done|done|done|done]. intros t l Hl. exists []. by rewrite app_nil_r.
Qed.

Lemma app_ok_ext T g T' g' from to args :
  ext T g T' g' -> app_ok g from to args -> app_ok g' from to args.
Proof.
  intros X (? & ? & ? & ? & l & HL & Hldr & Hat & Hseg & Hc & Hcm).
  destruct (x_L _ _ _ _ X _ _ HL) as [x Hx]. split_and!; [done..|].
  exists (l ++ x). split_and!; [done| |by apply at_term_app| |done|].
  - by rewrite (x_ldr _ _ _ _ X _ _ HL).
  - intros k e He%Hseg. rewrite zget_app_l; [done|]. apply zget_bounds in He. lia.
  - eapply committed_ext; [done| |done]. lia.
Qed.

Lemma msg_ok_ext T g T' g' m : ext T g T' g' -> msg_ok T g m -> msg_ok T' g' m.
Proof.
  intros X. pose proof (x_T _ _ _ _ X) as HT. destruct m; cbn.
  - intros (? & ? & ? & ? & Hv & e & He & ? & ?). specialize (HT from).
    destruct (x_vote _ _ _ _ X _ _ _ Hv) as (Hv' & _ & Hc).
    split_and!; [done..|lia|lia|done|]. exists e. by rewrite Hc.
  - intros (? & ? & ? & Hg). specialize (HT from). split_and!; [done..|lia|].
    intros Hr. by apply (x_vote _ _ _ _ X), Hg.
  - done.
  - done.
  - by apply app_ok_ext with (T := T) (T' := T').
  - intros (Ha & Hs & Hf). split_and!.
    + by apply app_ok_ext with (T := T) (T' := T') (g := g).
    + intros H%Hs. etransitivity; [done|]. apply (x_ack _ _ _ _ X).
    + intros H1 H2. destruct (Hf H1 H2) as (? & Hct). split; [done|].
      intros (? & lc & HL & Hat)%Hct. split; [done|].
      destruct (x_L _ _ _ _ X _ _ HL) as [x Hx]. exists (lc ++ x). auto using at_term_app.
Qed.

(** A step of another peer that leaves this peer's votes, acknowledgements and
    leadership alone keeps its invariant. *)
Record quiet g g' (i : Z) r : Prop := {
  q_vote : forall t, vote g' (i, t) = vote g (i, t);
  q_votedby : forall j t, vote g' (j, t) = Some i -> t <= currentTerm r;
  q_ack : forall t, ack g' (i, t) = ack g (i, t);
  q_lead : st r = leader -> L g' (currentTerm r) = L g (currentTerm r);
  q_led : forall t l, L g' t = Some l -> ldr g' t = i -> exists l0, L g t = Some l0;
  q_clog : st r = candidate -> clog g' (i, currentTerm r) = clog g (i, currentTerm r)
}.

Lemma node_ok_ext T g T' g' i r :
  ext T g T' g' -> quiet g g' i r -> node_ok T g i r -> node_ok T' g' i r.
Proof.
  intros X [Q1 Q2 Q3 Q4 Q5 Q6] H. open_node H. split; try done.
  - by eapply log_ok_ext.
  - by rewrite Q1.
  - intros t c. rewrite Q1. auto.
  - intros Hst. rewrite Q1, Q6 by done. auto.
  - intros Hst. destruct (Nlead Hst) as [HL Hl]. rewrite Q4 by done. split; [done|].
    by rewrite (x_ldr _ _ _ _ X _ _ HL).
  - intros t l HL' Hl. destruct (Q5 _ _ HL' Hl) as [l0 HL].
    eapply Nled; [done|]. by rewrite <- (x_ldr _ _ _ _ X _ _ HL).
  - by rewrite Q3.
  - intros Hst p Hp Hpi. etransitivity; [by apply Nmatch|]. apply (x_ack _ _ _ _ X).
  - intros t. rewrite Q3. intros (? & l & HL & ?)%Nack. split; [done|].
    destruct (x_L _ _ _ _ X _ _ HL) as [x Hx]. exists (l ++ x).
    rewrite zlen_app. pose proof (zlen_nonneg x). split; [done|lia].
  - intros t n l' HL' Hat. rewrite Q3. intros Hn.
    destruct (Nack t) as (_ & l & HL & Hlt); [lia|].
    destruct (x_L _ _ _ _ X _ _ HL) as [x Hx]. assert (l' = l ++ x) as -> by congruence.
    destruct (Nacked t n l HL) as [Hb|Ha]; [|done| |].
    + eapply at_term_app_inv; [done|lia].
    + left. by eapply blocked_ext.
    + right. auto with zlist.
  - eapply committed_ext0; [done| |done]. lia.
Qed.

Lemma quiet_refl T g i r : node_ok T g i r -> quiet g g i r.
Proof. intros H. split; try done; eauto using no_votedby. Qed.

(** The history's own invariant survives an extension that adds no leader and no
    leader entry, once its new votes are justified. *)
Lemma hist_ok_ext T g T' g' :
  ext T g T' g' -> (forall t, L g' t = L g t) -> hist_ok T g ->
  (forall j t c, vote g' (j, t) = Some c -> vote g (j, t) = Some c \/
    (c ∈ ps /\ up_to_date (clog g' (c, t)) (vlog g' (j, t)) /\ log_ok (L g') (vlog g' (j, t)) /\
     log_ok (L g') (clog g' (c, t)) /\ (forall k e, (clog g' (c, t)) @[k] = Some e -> Term e < t) /\
     forall t0 n l, t0 < t -> L g' t0 = Some l -> at_term l n t0 -> 1 <= n <= ack g' (j, t0) ->
       blocked T' g' t0 n \/ agree (vlog g' (j, t)) l n)) ->
  (forall j t c, vote g (j, t) = Some c -> t <= T j) ->
  hist_ok T' g'.
Proof.
  intros X HL [H1 H2 H3 H4 H5 H6] Hnew Hcur.
  split.
  - intros t l Hl. rewrite HL in Hl. destruct (H1 t l Hl) as (? & ? & ? & ?).
    rewrite (x_ldr _ _ _ _ X _ _ Hl). split_and!; eauto using log_ok_ext.
  - intros t l Hl. rewrite HL in Hl. destruct (H2 t l Hl) as (Q & HQ & Hv). exists Q. split; [done|].
    intros j Hj. rewrite (x_ldr _ _ _ _ X _ _ Hl). apply (x_vote _ _ _ _ X). auto.
  - intros j t c [Hv|(? & ? & ? & ? & ? & _)]%Hnew; [|done].
    destruct (x_vote _ _ _ _ X _ _ _ Hv) as (_ & -> & ->).
    destruct (H3 _ _ _ Hv) as (? & ? & ? & ? & ?). split_and!; eauto using log_ok_ext.
  - intros j t' c t n l Hv Ht Hl Hat Hn. pose proof Hv as [Hv'|(_ & _ & _ & _ & _ & Hb)]%Hnew; [|eauto].
    destruct (x_vote _ _ _ _ X _ _ _ Hv') as (_ & -> & _).
    rewrite HL in Hl. rewrite (x_frozen _ _ _ _ X) in Hn by (specialize (Hcur _ _ _ Hv'); lia).
    destruct (H4 j t' c t n l) as [Hb|]; eauto using blocked_ext.
  - intros t t' l l' n Ht Hl Hl' Hat Hn. rewrite HL in Hl, Hl'.
    destruct (H5 t t' l l' n) as [Hb|]; eauto using blocked_ext.
  - intros k. etransitivity; [apply H6|]. apply (x_ack _ _ _ _ X).
Qed.

End inv.
