(* ===== verification/RaftSteps.v ===== *)
(** The invariant of [RaftInv] is preserved by the elementary state changes the
    critical sections of [src/raft] are made of: leaving a term, casting a
    vote, starting an election, winning it, appending as a leader, accepting a
    leader's entries, and advancing the leader's commit index. *)
From S2P Require Import Prelude Raft RaftCluster RaftLog RaftInv.

Section steps.
Context (ps : list Z) (Hcfg : valid_config ps).
Implicit Types (N : Z -> Raft) (g : ghost) (r : Raft).

#[local] Abbreviation node_ok := (node_ok ps).
#[local] Abbreviation hist_ok := (hist_ok ps).
#[local] Abbreviation inv := (inv ps).
#[local] Abbreviation msg_ok := (msg_ok ps).

(** * Changes that add nothing to the history *)

Lemma ext_upd N g i r :
  currentTerm (N i) <= currentTerm r -> ext (terms N) g (terms (upd N i r)) g.
Proof. intros H. apply ext_terms. intros j. unfold terms. upd_cases; lia. Qed.

Lemma inv_change N pl vs g i r T' :
  inv N pl vs g -> ext (terms N) g T' g -> (forall j, T' j = terms (upd N i r) j) ->
  node_ok (terms N) g i r -> inv (upd N i r) pl vs g.
Proof.
  intros [Hn Hh Hm Hv] X0 HT Hi.
  assert (X : ext (terms N) g (terms (upd N i r)) g).
  { apply ext_terms. intros j. rewrite <- HT. apply (x_T _ _ _ _ X0). }
  split.
  - intros j. upd_cases; (eapply node_ok_ext; [done|by eapply quiet_refl|done]).
  - eapply hist_ok_ext; [done..|by left|].
    intros j t c Hc. by eapply (no_vote _ _ _ _ _ (Hn j)).
  - intros m Hm'. eapply msg_ok_ext; eauto.
  - done.
Qed.

Lemma inv_local N pl vs g i r :
  inv N pl vs g -> currentTerm (N i) <= currentTerm r ->
  node_ok (terms N) g i r -> inv (upd N i r) pl vs g.
Proof. intros ? ? ?. eapply inv_change; [done|by apply ext_upd|done|done]. Qed.

(** The invariant sees the peers only pointwise. *)
Lemma inv_pointwise N N' pl vs g : (forall i, N i = N' i) -> inv N pl vs g -> inv N' pl vs g.
Proof.
  intros HN [Hn Hh Hm Hv].
  assert (X : ext (terms N) g (terms N') g).
  { apply ext_terms. intros j. unfold terms. rewrite HN. lia. }
  split.
  - intros j. rewrite <- HN. eapply node_ok_ext; [done|by eapply quiet_refl|done].
  - eapply hist_ok_ext; [done..|by left|].
    intros j t c Hc. by eapply (no_vote _ _ _ _ _ (Hn j)).
  - intros m Hm'. eapply msg_ok_ext; eauto.
  - done.
Qed.

#[global] Instance inv_proper pl vs g :
  Proper (pointwise_relation Z eq ==> iff) (fun N => inv N pl vs g).
Proof. intros N N' HN. split; apply inv_pointwise; intros i; [|symmetry]; apply HN. Qed.

Lemma inv_upd_idem N pl vs g i r : N i = r -> inv N pl vs g -> inv (upd N i r) pl vs g.
Proof. intros <-. apply inv_pointwise. intros j. upd_cases; done. Qed.

Lemma inv_upd_upd N pl vs g i r1 r2 : inv (upd (upd N i r1) i r2) pl vs g -> inv (upd N i r2) pl vs g.
Proof. apply inv_pointwise. intros j. upd_cases; done. Qed.

Lemma node_ok_deadline T g i r dl : node_ok T g i r -> node_ok T g i (set_electionDeadline dl r).
Proof. intros H; open_node H; by split. Qed.

Lemma node_ok_killed T g i r : node_ok T g i r -> node_ok T g i (Kill r).
Proof. intros H; open_node H; by split. Qed.

Lemma node_ok_lastApplied T g i r k :
  node_ok T g i r -> 0 <= k <= commitIndex r -> node_ok T g i (set_lastApplied k r).
Proof. intros H ?; open_node H; by split. Qed.

Lemma node_ok_follower T g i r : node_ok T g i r -> node_ok T g i (set_st follower r).
Proof. intros H; open_node H; split; try done. intros t l HL Hl. by split; [eapply Nled|]. Qed.

(** Leaving a term: [becomeFollower] with a larger term. *)
Lemma node_ok_stepdown T g i r t dl :
  node_ok T g i r -> currentTerm r < t -> node_ok T g i (becomeFollower t dl r).
Proof.
  intros H Ht; open_node H; split; try done; cbn.
  - lia.
  - intros k e He%Nlogterm. lia.
  - intros t0 c H. destruct (Nvote _ _ H). split; lia.
  - intros j t0 H%Nvotedby. lia.
  - intros t0 l HL Hl. destruct (Nled _ _ HL Hl). split; lia.
  - intros t0 H. destruct (Nack _ H). split; [lia|done].
  - eapply committed_ext0; [apply ext_refl with (T := T)| |done]. lia.
Qed.

Lemma inv_stepdown N pl vs g i t dl :
  inv N pl vs g -> currentTerm (N i) < t -> inv (upd N i (becomeFollower t dl (N i))) pl vs g.
Proof.
  intros H Ht. apply inv_local; [done|cbn; lia|].
  apply node_ok_stepdown; [apply (inv_node _ _ _ _ _ H)|done].
Qed.

(** * The pool *)

Lemma targets_perm i t pl pl' : pl ≡ₚ pl' -> targets i t pl ≡ₚ targets i t pl'.
Proof. intros H. unfold targets. by apply omap_Permutation. Qed.

Lemma inv_perm N pl pl' vs g : pl ≡ₚ pl' -> inv N pl vs g -> inv N pl' vs g.
Proof.
  intros Hp [Hn Hh Hm [V1 V2 V3]]. split; [done..| |].
  - intros m. rewrite <- Hp. apply Hm.
  - split; [done| |done]. intros i t. by rewrite <- (targets_perm i t _ _ Hp).
Qed.

Lemma inv_pop N m pl vs g : inv N (m :: pl) vs g -> inv N pl vs g.
Proof.
  intros [Hn Hh Hm [V1 V2 V3]]. split; [done..| |].
  - intros m' ?. apply Hm. by right.
  - split; [done| |done]. intros i t. specialize (V2 i t). unfold targets in *. cbn in V2.
    destruct (target i t m) as [j|]; [|done].
    eapply sublist_NoDup; [apply V2|]. apply sublist_app; [done|]. by apply sublist_cons.
Qed.

(** One goroutine turns into another that waits for the same vote. *)
Lemma inv_swap N m m' pl vs g :
  inv N (m :: pl) vs g -> msg_ok (terms N) g m' ->
  (forall i t, target i t m' = target i t m) -> inv N (m' :: pl) vs g.
Proof.
  intros [Hn Hh Hm [V1 V2 V3]] Hm0 Ht. split; [done..| |].
  - intros m1 [->|?]%elem_of_cons; [done|]. apply Hm. by right.
  - split; [done| |done]. intros i t. unfold targets. cbn. rewrite Ht. apply V2.
Qed.

Lemma inv_push N pl vs g ms :
  inv N pl vs g -> (forall m, m ∈ ms -> msg_ok (terms N) g m /\ forall i t, target i t m = None) ->
  inv N (ms ++ pl) vs g.
Proof.
  intros [Hn Hh Hm [V1 V2 V3]] Hms. split; [done..| |].
  - intros m [?|?]%elem_of_app; [by apply Hms|auto].
  - split; [done| |done]. intros i t.
    assert (targets i t ms = []) as E.
    { induction ms as [|m ms IH]; [done|]. unfold targets; cbn.
      rewrite (proj2 (Hms m ltac:(by left))). apply IH. intros. apply Hms. by right. }
    unfold targets in *. rewrite omap_app, E. apply V2.
Qed.

(** * Casting a vote *)

Definition cast g (j t c : Z) (l : list LogEntry) : ghost :=
  mkGhost (L g) (ldr g) (upd (vote g) (j, t) (Some c)) (upd (vlog g) (j, t) l)
    (clog g) (ack g) (voters g).

(** [RequestVote] grants: the voter had not voted in its current term, and the
    candidate's log is up to date. *)
Lemma inv_grant N pl vs g j c :
  inv N pl vs g ->
  let t := currentTerm (N j) in
  votedFor (N j) = -1 -> c ∈ ps -> t <= currentTerm (N c) -> vote g (c, t) = Some c ->
  up_to_date (clog g (c, t)) (log (N j)) ->
  inv (upd N j (set_votedFor c (N j))) pl vs (cast g j t c (log (N j))).
Proof.
  intros [Hn Hh Hm [V1 V2 V3]] t Hno Hc Htc Hvc Hup.
  assert (Hnone : vote g (j, t) = None).
  { destruct (vote g (j, t)) as [c0|] eqn:E; [|done].
    destruct (no_vote _ _ _ _ _ (Hn j) _ _ E) as [_ Hv]. specialize (Hv eq_refl).
    destruct (ho_vote _ _ _ Hh _ _ _ E) as [Hin _]. destruct Hcfg as [_ Hpos].
    rewrite list.Forall_forall in Hpos. specialize (Hpos _ Hin). lia. }
  assert (X : ext (terms N) g (terms (upd N j (set_votedFor c (N j)))) (cast g j t c (log (N j)))).
  { split; cbn; [|eauto using app_nil_r|done| |done|done].
    - intros i. unfold terms. upd_cases; done.
    - intros t0 l Hl. exists []. by rewrite app_nil_r.
    - intros i t0 c0 Hv. rewrite !upd_ne by congruence. done. }
  assert (Hcj : t <= currentTerm (N c)) by done.
  split.
  - intros i. destruct (decide (i = j)) as [->|Hij].
    + rewrite upd_eq. specialize (Hn j). open_node Hn.
      split; try done; cbn.
      * intros _. apply upd_eq.
      * intros t0 c0. upd_cases.
        { injection e as ->. intros [= ->]. done. }
        intros H. destruct (Nvote _ _ H). split; [done|]. intros ->. by destruct e.
      * intros i t0. upd_cases; [|eauto]. injection e as -> ->. intros [= ->]. done.
      * intros Hst. destruct (Ncand Hst) as (_ & Hv & _). subst t. congruence.
      * intros t0 n l Hl Hat Hk. destruct (Nacked t0 n l Hl Hat Hk) as [?|?]; [left|by right].
        by eapply blocked_ext.
    + rewrite upd_ne by done. eapply node_ok_ext; [done| |apply Hn].
      split; cbn; try done; [|intros i' t0|by eauto].
      * intros t0. by rewrite upd_ne by congruence.
      * upd_cases; [|intros H; by eapply (no_votedby _ _ _ _ _ (Hn i))].
        injection e as -> ->. intros [= ->]. done.
  - eapply hist_ok_ext; [done..| |].
    + cbn. intros i t0 c0. upd_cases; [|by left]. injection e as -> ->. intros [= <-]. right.
      destruct (ho_vote _ _ _ Hh _ _ _ Hvc) as (_ & _ & _ & Hcl & Hclt).
      split_and!; [done|done|apply (no_log _ _ _ _ _ (Hn j))|done|done|].
      intros t0 n l _ Hl Hat Hk.
      destruct (no_acked _ _ _ _ _ (Hn j) t0 n l Hl Hat Hk); [left|by right].
      by eapply blocked_ext.
    + intros i t0 c0 H. by eapply (no_vote _ _ _ _ _ (Hn i)).
  - intros m Hm'. eapply msg_ok_ext; eauto.
  - split; cbn; [done..|]. intros i t0 i0 Hi0. destruct (V3 _ _ _ Hi0) as [? Hv]. split; [done|].
    by apply (x_vote _ _ _ _ X) in Hv as [? _].
Qed.

(** * Standing for election *)

Definition stand g (i t : Z) (l : list LogEntry) : ghost :=
  mkGhost (L g) (ldr g) (upd (vote g) (i, t) (Some i)) (upd (vlog g) (i, t) l)
    (upd (clog g) (i, t) l) (ack g) (upd (voters g) (i, t) [i]).

Lemma targets_app i t pl pl' : targets i t (pl ++ pl') = targets i t pl ++ targets i t pl'.
Proof. apply omap_app. Qed.

Lemma targets_calls i t i' args l :
  targets i t (map (fun p => GVoteCall i' p args) l)
  = if decide (i' = i /\ VTerm args = t) then l else [].
Proof.
  unfold targets. induction l as [|p l IH]; cbn; [by case_decide|].
  rewrite IH. by case_decide.
Qed.

Lemma targets_fresh N pl vs g i t :
  inv N pl vs g -> currentTerm (N i) < t -> targets i t pl = [].
Proof.
  intros [_ _ Hm _] Ht. induction pl as [|m pl IH]; [done|]. unfold targets; cbn.
  assert (target i t m = None) as ->.
  { specialize (Hm m ltac:(by left)). unfold terms in Hm.
    destruct m; cbn in *; try done; case_decide as E; try done; destruct E as [-> <-]; lia. }
  apply IH. intros. apply Hm. by right.
Qed.

Lemma ext_stand N pl vs g i r' :
  inv N pl vs g -> currentTerm r' = currentTerm (N i) + 1 ->
  ext (terms N) g (terms (upd N i r')) (stand g i (currentTerm r') (log (N i))).
Proof.
  intros [Hn _ _ _] Ht. split; cbn; [|intros t0 l Hl; exists []; by rewrite app_nil_r|done| |done|done].
  - intros j. unfold terms. upd_cases; lia.
  - intros j t0 c Hv.
    pose proof (no_vote _ _ _ _ _ (Hn j) _ _ Hv) as [Hj _].
    pose proof (no_votedby _ _ _ _ _ (Hn c) _ _ Hv) as Hc.
    rewrite !upd_ne; [done|..]; intros [= -> ->]; lia.
Qed.

Lemma node_stand N pl vs g i dl r' args :
  inv N pl vs g -> i ∈ ps -> startElection dl (N i) = Some (r', args) ->
  r' = resetElectionTimer dl
    (set_votedFor i (set_currentTerm (currentTerm (N i) + 1) (set_st candidate (N i)))) /\
  exists e, lastEntry (log (N i)) = Some e /\
    args = mkVoteArgs (currentTerm (N i) + 1) i (Index e) (Term e).
Proof.
  intros [Hn _ _ _] Hi H. unfold startElection, lastLogInfo in H. cbn in H.
  destruct (log_ok_last _ _ (no_log _ _ _ _ _ (Hn i))) as (e & He & _ & _).
  rewrite (no_me _ _ _ _ _ (Hn i)) in H. rewrite He in H. cbn in H.
  injection H as <- <-. split; [done|]. by exists e.
Qed.

(** The candidate itself. *)
Lemma node_standing N pl vs g i dl r' args :
  inv N pl vs g -> i ∈ ps -> startElection dl (N i) = Some (r', args) ->
  node_ok (terms (upd N i r')) (stand g i (currentTerm r') (log (N i))) i r'.
Proof.
  intros Hinv Hi H. destruct (node_stand _ _ _ _ _ _ _ _ Hinv Hi H) as (Hr & e & He & _).
  assert (Ht : currentTerm r' = currentTerm (N i) + 1) by (by rewrite Hr).
  pose proof (ext_stand _ _ _ _ _ _ Hinv Ht) as X. pose proof (inv_node _ _ _ _ _ Hinv i) as Hni. open_node Hni.
  rewrite Hr in *. split; try done; cbn.
  - lia.
  - intros k x Hx%Nlogterm. lia.
  - intros _. apply upd_eq.
  - intros t0 c. upd_cases; [|intros Hv; apply Nvote in Hv; lia].
    injection e0 as ->. intros [= ->]. done.
  - intros j t0. upd_cases; [|intros Hv%Nvotedby; lia].
    injection e0 as -> ->. lia.
  - intros _. rewrite !upd_eq. split_and!; [lia|done..|].
    intros k x Hx%Nlogterm. lia.
  - intros t0 l HL Hl. destruct (Nled _ _ HL Hl). split; lia.
  - intros t0 Ha. destruct (Nack _ Ha). split; [lia|done].
  - intros t0 n l Hl Hat Hk. destruct (Nacked t0 n l Hl Hat Hk) as [?|?]; [left|by right]. by eapply blocked_ext.
  - eapply committed_ext0; [exact X| |exact Ncommit]. lia.
Qed.

(** The votes it has so far, and those it asks for. *)
Lemma votes_stand N pl vs g i r' args :
  inv N pl vs g -> i ∈ ps -> currentTerm r' = currentTerm (N i) + 1 -> VTerm args = currentTerm r' ->
  votes_ok ps (stand g i (currentTerm r') (log (N i))) (<[(i, currentTerm r') := 1]> vs)
    (map (fun p => GVoteCall i p args) (filter (fun p => p <> i) ps) ++ pl).
Proof.
  intros Hinv Hi Ht Ha. pose proof (ext_stand _ _ _ _ _ _ Hinv Ht) as X.
  pose proof (targets_fresh _ _ _ _ i (currentTerm r') Hinv ltac:(lia)) as Hfresh. destruct Hinv as [_ _ _ [V1 V2 V3]].
  split; cbn.
  - intros k. unfold mapget. rewrite lookup_insert. upd_cases.
    + by rewrite decide_True by done.
    + rewrite decide_False by done. apply V1.
  - intros j t0. rewrite targets_app, targets_calls, Ha. case_decide as E.
    + destruct E as [-> <-]. rewrite upd_eq, Hfresh, app_nil_r.
      cbn. apply list.NoDup_cons. split; [by intros [? _]%list_elem_of_filter|]. apply list.NoDup_filter, Hcfg.
    + rewrite upd_ne by (intros [= -> ->]; by apply E). apply V2.
  - intros j t0 p. destruct (decide ((j, t0) = (i, currentTerm r'))) as [[= -> ->]|e0].
    + rewrite upd_eq. intros ->%list_elem_of_singleton. by rewrite upd_eq.
    + rewrite upd_ne by done. intros Hp. destruct (V3 _ _ _ Hp) as [? Hv]. split; [done|].
      by apply (x_vote _ _ _ _ X) in Hv as [? _].
Qed.

Lemma inv_stand N pl vs g i dl r' args :
  inv N pl vs g -> i ∈ ps -> startElection dl (N i) = Some (r', args) ->
  inv (upd N i r') (map (fun p => GVoteCall (me r') p args) (others r') ++ pl)
    (<[(i, currentTerm r') := 1]> vs) (stand g i (currentTerm r') (log (N i))).
Proof.
  intros Hinv Hi H. destruct (node_stand _ _ _ _ _ _ _ _ Hinv Hi H) as (Hr & e & He & Ha).
  assert (Ht : currentTerm r' = currentTerm (N i) + 1) by (by rewrite Hr).
  pose proof (ext_stand _ _ _ _ _ _ Hinv Ht) as X. pose proof (node_standing _ _ _ _ _ _ _ _ Hinv Hi H) as Hself.
  pose proof (votes_stand _ _ _ _ _ r' args Hinv Hi Ht ltac:(by rewrite Ht, Ha)) as Hvotes.
  destruct Hinv as [Hn Hh Hm _]. pose proof (Hn i) as Hni. open_node Hni.
  assert (Hme : me r' = i) by (by rewrite Hr).
  assert (Hps : others r' = filter (fun p => p <> i) ps).
  { unfold others. rewrite Hr. cbn. by rewrite Npeers, Nme. }
  rewrite Hme, Hps. split; [| | |exact Hvotes].
  - intros j. destruct (decide (j = i)) as [->|Hij]; [by rewrite upd_eq|].
    rewrite upd_ne by done. eapply node_ok_ext; [done| |apply Hn].
    split; cbn; try done; [| |by eauto|].
    + intros t0. by rewrite upd_ne by congruence.
    + intros j' t0. upd_cases; [intros [= ->]; done|].
      intros Hv. by eapply (no_votedby _ _ _ _ _ (Hn j)).
    + intros _. by rewrite upd_ne by congruence.
  - eapply hist_ok_ext; [done..| |].
    + cbn. intros j t0 c. destruct (decide ((j, t0) = (i, currentTerm r'))) as [[= -> ->]|e0];
        [|rewrite upd_ne by done; by left].
      rewrite upd_eq. intros [= <-]. right. rewrite !upd_eq. split_and!; [done|by eapply up_to_date_refl|done|done|..].
      * intros k x Hx%Nlogterm. lia.
      * intros t0 n l _ Hl Hat Hk.
        destruct (Nacked t0 n l Hl Hat Hk); [left|by right]. by eapply blocked_ext.
    + intros j t0 c Hv. by eapply (no_vote _ _ _ _ _ (Hn j)).
  - intros m [(p & -> & Hp)%list_elem_of_fmap|Hm']%elem_of_app; [|eapply msg_ok_ext; eauto].
    apply list_elem_of_filter in Hp as [Hpi Hp]. cbn. unfold terms. rewrite Ha. cbn.
    rewrite !upd_eq, Ht, !upd_eq. split_and!; try done; [lia|]. by exists e.
Qed.

(** * Counting votes *)

Definition count_vote g (i t j : Z) : ghost :=
  mkGhost (L g) (ldr g) (vote g) (vlog g) (clog g) (ack g)
    (upd (voters g) (i, t) (j :: voters g (i, t))).

Lemma ext_count N g i t j : ext (terms N) g (terms N) (count_vote g i t j).
Proof. destruct (ext_refl (terms N) g). by split. Qed.

Lemma inv_count N pl vs g i to args reply :
  inv N (GVoteRet i to args reply :: pl) vs g -> VoteGranted reply = true ->
  inv N pl (<[(i, VTerm args) := mapget 0 vs (i, VTerm args) + 1]> vs)
    (count_vote g i (VTerm args) to).
Proof.
  intros Hinv Hg. pose proof (inv_msg _ _ _ _ _ Hinv _ ltac:(by left)) as (Hto & _ & _ & Hv).
  specialize (Hv Hg). destruct Hinv as [Hn Hh Hm [V1 V2 V3]].
  pose proof (ext_count N g i (VTerm args) to) as X. split.
  - intros j. eapply node_ok_ext; [done| |apply Hn].
    destruct (quiet_refl _ _ _ _ _ (Hn j)). by split.
  - by destruct Hh.
  - intros m ?. eapply msg_ok_ext; [done|]. apply Hm. by right.
  - split; cbn.
    + intros k. unfold mapget. rewrite lookup_insert. upd_cases.
      * rewrite decide_True by done. cbn. rewrite zlen_cons, <- V1. unfold mapget. lia.
      * rewrite decide_False by done. apply V1.
    + intros i0 t0. specialize (V2 i0 t0). unfold targets in *. cbn in V2.
      destruct (decide ((i0, t0) = (i, VTerm args))) as [[= -> ->]|Hne].
      * rewrite upd_eq. rewrite decide_True in V2 by done. cbn. by rewrite Permutation_middle.
      * rewrite upd_ne by done. rewrite decide_False in V2; [done|]. intros [-> <-]. done.
    + intros i0 t0 j. upd_cases; [|apply V3].
      injection e as -> ->. intros [->|Hj]%elem_of_cons; [done|by apply V3].
Qed.

(** The counter is rewritten with the value it had. *)
Lemma inv_same_votes N pl vs g k :
  inv N pl vs g -> inv N pl (<[k := mapget 0 vs k]> vs) g.
Proof.
  intros [Hn Hh Hm [V1 V2 V3]]. split; [done..|]. split; [|done..].
  intros k'. rewrite <- V1. unfold mapget. rewrite lookup_insert. by case_decide; subst.
Qed.

(** * Leading *)

Definition lead g (i t : Z) (l : list LogEntry) : ghost :=
  mkGhost (upd (L g) t (Some l)) (upd (ldr g) t i) (vote g) (vlog g) (clog g)
    (upd (ack g) (i, t) (zlen l - 1)) (voters g).

(** Leader completeness at the election: the log of a candidate a majority voted
    for holds every entry that earlier leaders could still commit. *)
Lemma election_complete N pl vs g i Q t0 l0 n :
  inv N pl vs g -> st (N i) = candidate -> let t := currentTerm (N i) in
  quorum ps Q -> (forall j, j ∈ Q -> vote g (j, t) = Some i) ->
  t0 < t -> L g t0 = Some l0 -> at_term l0 n t0 -> 1 <= n ->
  blocked ps (terms N) g t0 n \/ agree (log (N i)) l0 n.
Proof.
  intros [Hn Hh _ _] Hst t HQ Hvotes Ht HL0 Hat Hpos.
  destruct (decide (Exists (fun j => n <= ack g (j, t0)) Q)) as [(j & Hj & Hack)%list.Exists_exists|Hno].
  2:{ left. exists Q. split; [done|]. intros j Hj.
      pose proof (no_vote _ _ _ _ _ (Hn j) _ _ (Hvotes j Hj)) as [? _].
      rewrite <- Forall_Exists_neg, list.Forall_forall in Hno. specialize (Hno j Hj).
      unfold terms. lia. }
  specialize (Hvotes j Hj).
  destruct (ho_vacked _ _ _ Hh j t i t0 n l0) as [?|Hav]; [done|done|done|done|lia|by left|].
  destruct (ho_vote _ _ _ Hh _ _ _ Hvotes) as (_ & Hup & Hvok & _ & Hclt).
  destruct (no_cand _ _ _ _ _ (Hn i) Hst) as (_ & _ & Hclog & _).
  subst t. rewrite Hclog in Hup, Hclt. pose proof (no_log _ _ _ _ _ (Hn i)) as Hcok.
  set (lc := log (N i)) in *. set (lv := vlog g (j, currentTerm (N i))) in *.
  destruct Hup as (ec & ev & Hec & Hev & Hcmp).
  destruct (log_ok_last _ _ Hcok) as (ec' & Hec' & Hgc & Hic).
  destruct (log_ok_last _ _ Hvok) as (ev' & Hev' & Hgv & Hiv).
  assert (ec' = ec) as -> by congruence. assert (ev' = ev) as -> by congruence.
  destruct (agree_len lv l0 n ltac:(lia) Hav) as [Hlv _].
  assert (Hvt : t0 <= Term ev).
  { pose proof (at_term_agree _ _ n n t0 (agree_sym _ _ _ Hav) ltac:(lia) Hat) as (e & He & <-).
    eapply (lo_sorted _ _ Hvok n (zlen lv - 1)); [lia|done|done]. }
  destruct Hcmp as [Hlt|[Heq Hidx]].
  - (* the candidate's last term is larger than the voter's *)
    assert (Hc1 : 1 <= zlen lc - 1).
    { pose proof (log_ok_pos _ _ Hcok). destruct (decide (zlen lc - 1 = 0)) as [E|]; [|lia].
      rewrite E, (lo_sent _ _ Hcok) in Hgc. injection Hgc as <-. cbn in Hlt.
      pose proof (log_ok_term_nonneg _ _ _ _ Hvok Hgv). lia. }
    destruct (lo_src _ _ Hcok _ _ Hc1 Hgc) as (_ & lT & HLT & HaT).
    destruct (ho_safe _ _ _ Hh t0 (Term ec) l0 lT n) as [?|Ha]; [lia|done|done|done|done|by left|].
    right. assert (n <= zlen lc - 1).
    { destruct (decide (n <= zlen lc - 1)); [done|]. exfalso.
      pose proof (at_term_agree _ _ n n t0 (agree_sym _ _ _ Ha) ltac:(lia) Hat) as (e & He & Hte).
      pose proof (agree_get _ _ _ (zlen lc - 1) _ HaT ltac:(lia) Hgc) as HgT.
      destruct (ho_L _ _ _ Hh _ _ HLT) as (_ & HTok & _).
      pose proof (lo_sorted _ _ HTok (zlen lc - 1) n ec e ltac:(lia) HgT He). lia. }
    eapply agree_trans; [by eapply agree_le|done].
  - (* equal last terms: the voter's log is a prefix of the candidate's *)
    right. destruct (lo_src _ _ Hcok (zlen lc - 1) ec) as (_ & l1 & HL1 & Ha1); [lia|done|].
    destruct (lo_src _ _ Hvok (zlen lv - 1) ev) as (_ & l2 & HL2 & Ha2); [lia|done|].
    assert (l1 = l2) as -> by congruence.
    eapply agree_trans; [|done]. eapply agree_trans; [eapply agree_le; [exact Ha1|lia]|].
    apply agree_sym. eapply agree_le; [exact Ha2|lia].
Qed.

(** A later leader's voters have left term [t], so no new entry of that term
    can be committed by it. *)
Lemma later_blocks N pl vs g g' i r' t t2 l2 n :
  inv N pl vs g -> ext (terms N) g (terms (upd N i r')) g' ->
  currentTerm (N i) = t -> t < t2 -> L g t2 = Some l2 ->
  (forall j, ack g (j, t) < n) -> blocked ps (terms (upd N i r')) g' t n.
Proof.
  intros [Hn Hh _ _] X Hi Ht HL2 Hack.
  destruct (ho_quorum _ _ _ Hh _ _ HL2) as (Q & HQ & Hv). exists Q. split; [done|].
  intros j Hj. pose proof (no_vote _ _ _ _ _ (Hn j) _ _ (Hv j Hj)) as [Hle _].
  pose proof (x_T _ _ _ _ X j). change (currentTerm (N j)) with (terms N j) in Hle.
  rewrite (x_frozen _ _ _ _ X) by lia. specialize (Hack j). lia.
Qed.

(** What [becomeLeader] and [Start] have in common: peer [i] leads its term and
    appends one entry of that term. *)
Record leads N g (i : Z) (r' : Raft) (e : LogEntry) : Prop := {
  ld_ps : i ∈ ps;
  ld_me : me r' = i;
  ld_peers : peers r' = ps;
  ld_term : currentTerm r' = currentTerm (N i);
  ld_pos : 1 <= currentTerm (N i);
  ld_voted : votedFor r' = votedFor (N i);
  ld_st : st r' = leader;
  ld_log : log r' = log (N i) ++ [e];
  ld_entry : Term e = currentTerm (N i) /\ Index e = zlen (log (N i));
  ld_commit : commitIndex r' = commitIndex (N i) /\ lastApplied r' = lastApplied (N i);
  ld_next : forall p, p ∈ ps -> p <> i -> 1 <= mapget 0 (nextIndex r') p <= zlen (log r');
  ld_match : forall p, p ∈ ps -> p <> i -> mapget 0 (matchIndex r') p <= ack g (p, currentTerm (N i));
  ld_quorum : exists Q, quorum ps Q /\ forall j, j ∈ Q -> vote g (j, currentTerm (N i)) = Some i;
  ld_fresh : forall j, ack g (j, currentTerm (N i)) < zlen (log (N i));
  ld_L : (L g (currentTerm (N i)) = None /\
          forall k x, (log (N i)) @[k] = Some x -> Term x < currentTerm (N i)) \/
         (L g (currentTerm (N i)) = Some (log (N i)) /\ ldr g (currentTerm (N i)) = i);
  ld_safe : forall t0 l0 n, t0 < currentTerm (N i) -> L g t0 = Some l0 -> at_term l0 n t0 ->
    1 <= n -> blocked ps (terms N) g t0 n \/ agree (log (N i)) l0 n
}.

Lemma ext_lead N g i r' e :
  leads N g i r' e ->
  ext (terms N) g (terms (upd N i r')) (lead g i (currentTerm (N i)) (log r')).
Proof.
  intros H. pose proof (ld_log _ _ _ _ _ H) as Hl.
  split; cbn.
  - intros j. unfold terms. upd_cases; [|done]. rewrite (ld_term _ _ _ _ _ H). done.
  - intros t l HL. upd_cases; [|exists []; by rewrite app_nil_r].
    destruct (ld_L _ _ _ _ _ H) as [[? _]|[HL' _]]; [congruence|].
    rewrite Hl. exists [e]. congruence.
  - intros t l HL. upd_cases; [|done].
    destruct (ld_L _ _ _ _ _ H) as [[? _]|[_ ?]]; congruence.
  - done.
  - intros [j t]. upd_cases; [|done]. injection e0 as -> ->.
    pose proof (ld_fresh _ _ _ _ _ H i). rewrite Hl, zlen_snoc. lia.
  - intros j t Ht. rewrite upd_ne; [done|]. intros [= -> ->]. unfold terms in Ht. lia.
Qed.

Lemma grows_lead N g i r' e : leads N g i r' e -> grows g (lead g i (currentTerm (N i)) (log r')).
Proof.
  intros H t l HL. split; [exact (x_L _ _ _ _ (ext_lead _ _ _ _ _ H) t l HL)|exact (x_ldr _ _ _ _ (ext_lead _ _ _ _ _ H) t l HL)].
Qed.

Lemma at_term_snoc l x n t :
  at_term (l ++ [x]) n t -> (n < zlen l /\ at_term l n t) \/ (n = zlen l /\ Term x = t).
Proof.
  intros (e & [[? He]|[-> ->]]%zget_snoc & <-); [left|by right]. split; [done|]. by exists e.
Qed.

(** What a majority acknowledged of a leader is in the log of a later one. *)
Lemma safe_lead N pl vs g i r' e t1 t2 l1 l2 n :
  inv N pl vs g -> leads N g i r' e ->
  let g' := lead g i (currentTerm (N i)) (log r') in
  t1 < t2 -> L g' t1 = Some l1 -> L g' t2 = Some l2 -> at_term l1 n t1 -> 1 <= n ->
  blocked ps (terms (upd N i r')) g' t1 n \/ agree l2 l1 n.
Proof.
  intros Hinv H g' Ht HL1 HL2 Hat Hpos. pose proof (ext_lead _ _ _ _ _ H) as X. pose proof (inv_hist _ _ _ _ _ Hinv) as Hh.
  pose proof (ld_log _ _ _ _ _ H) as Hl. unfold g' in *. clear g'. cbn in HL1, HL2. set (t := currentTerm (N i)) in *.
  destruct (decide (t2 = t)) as [->|Ht2].
  - rewrite upd_eq in HL2. injection HL2 as <-. rewrite upd_ne in HL1 by lia.
    destruct (ld_safe _ _ _ _ _ H t1 l1 n) as [?|?]; [done..|left|right].
    + by eapply blocked_ext.
    + rewrite Hl. auto with zlist.
  - rewrite upd_ne in HL2 by done. destruct (decide (t1 = t)) as [->|Ht1].
    + rewrite upd_eq in HL1. injection HL1 as <-. rewrite Hl in Hat.
      apply at_term_snoc in Hat as [[Hlt Hat]|[-> _]].
      * destruct (ld_L _ _ _ _ _ H) as [[_ Hno]|[HL _]].
        { destruct Hat as (x & Hx & Hxt). apply Hno in Hx. fold t in Hx. lia. }
        destruct (ho_safe _ _ _ Hh t t2 (log (N i)) l2 n) as [?|?]; [done..|left|right].
        { by eapply blocked_ext. } rewrite Hl. auto with zlist.
      * left. eapply later_blocks; [done|done|done|done|done|apply (ld_fresh _ _ _ _ _ H)].
    + rewrite upd_ne in HL1 by done.
      destruct (ho_safe _ _ _ Hh t1 t2 l1 l2 n) as [?|?]; [done..|left|by right].
      by eapply blocked_ext.
Qed.

Lemma hist_lead N pl vs g i r' e :
  inv N pl vs g -> leads N g i r' e ->
  hist_ok (terms (upd N i r')) (lead g i (currentTerm (N i)) (log r')).
Proof.
  intros Hinv H. pose proof (ext_lead _ _ _ _ _ H) as X.
  pose proof Hinv as [Hn Hh _ _]. destruct (ld_entry _ _ _ _ _ H) as [Het Hei].
  pose proof (ld_log _ _ _ _ _ H) as Hl. set (t := currentTerm (N i)) in *.
  assert (Hlk : forall k x, (log r') @[k] = Some x -> Term x <= t).
  { rewrite Hl. intros k x [[_ Hx]|[-> ->]]%zget_snoc; [|lia].
    by apply (no_logterm _ _ _ _ _ (Hn i)) in Hx. }
  assert (Hok : log_ok (L (lead g i t (log r'))) (log r')).
  { rewrite Hl. apply log_ok_snoc; [|done|pose proof (ld_pos _ _ _ _ _ H); lia| |].
    - rewrite <- Hl. eapply log_ok_ext; [exact X|apply (no_log _ _ _ _ _ (Hn i))].
    - intros k x Hx. apply (no_logterm _ _ _ _ _ (Hn i)) in Hx. lia.
    - exists (log (N i) ++ [e]). cbn. rewrite Het, upd_eq. split; [done|].
      apply agree_refl. rewrite zlen_snoc. lia. }
  split; cbn.
  - intros t0 l. upd_cases.
    + intros [= <-]. split_and!; [apply (ld_pos _ _ _ _ _ H)|done|apply (ld_ps _ _ _ _ _ H)|done].
    + intros HL. destruct (ho_L _ _ _ Hh _ _ HL) as (? & ? & ? & ?). split_and!; try done.
      by apply (log_ok_ext _ _ _ _ _ X).
  - intros t0 l. upd_cases; [|apply (ho_quorum _ _ _ Hh)]. intros _. apply (ld_quorum _ _ _ _ _ H).
  - intros j t0 c Hv. destruct (ho_vote _ _ _ Hh _ _ _ Hv) as (? & ? & ? & ? & ?).
    split_and!; try done; by apply (log_ok_ext _ _ _ _ _ X).
  - intros j t' c t0 n l Hv Ht HL Hat Hk.
    assert (Hj : (j, t0) <> (i, t)).
    { intros [= -> ->]. apply (no_vote _ _ _ _ _ (Hn i)) in Hv as [? _]. lia. }
    rewrite upd_ne in Hk by done.
    destruct (no_ack _ _ _ _ _ (Hn j) t0 ltac:(lia)) as (_ & l1 & HL1 & Hlt).
    destruct (x_L _ _ _ _ X _ _ HL1) as [x Hx]. cbn in Hx. assert (l = l1 ++ x) as -> by congruence.
    destruct (ho_vacked _ _ _ Hh j t' c t0 n l1) as [?|?];
      [done|done|done|eapply at_term_app_inv; [done|lia]|done|left|right; auto with zlist].
    by eapply blocked_ext.
  - intros t1 t2 l1 l2 n. by apply (safe_lead _ _ _ _ _ _ _ _ _ _ _ _ Hinv H).
  - intros [j t0]. upd_cases; [|apply (ho_ack _ _ _ Hh)].
    rewrite Hl, zlen_snoc. pose proof (zlen_nonneg (log (N i))). lia.
Qed.

Lemma node_lead N pl vs g i r' e :
  inv N pl vs g -> leads N g i r' e ->
  node_ok (terms (upd N i r')) (lead g i (currentTerm (N i)) (log r')) i r'.
Proof.
  intros Hinv H. pose proof (ext_lead _ _ _ _ _ H) as X.
  pose proof (hist_lead _ _ _ _ _ _ _ Hinv H) as Hh'.
  destruct Hinv as [Hn _ _ _]. destruct H as [Hps Hme Hpe Hterm Hpos Hvf Hst Hl [Het Hei] [Hci Hla]
    Hnx Hmt HQ Hfr HL Hsafe].
  pose proof (Hn i) as Hni. open_node Hni.
  destruct (ho_L _ _ _ Hh' (currentTerm (N i)) (log r')) as (_ & Hlok & _ & Hlt); [apply upd_eq|].
  split; try done; try congruence; rewrite ?Hterm, ?Hvf, ?Hst; cbn; try done; try congruence.
  - intros _. by rewrite !upd_eq.
  - intros t0 l. upd_cases; [done|]. intros HL0 Hl0. by split; [eapply Nled|].
  - intros _. by rewrite upd_eq.
  - intros _ p Hp Hpi. rewrite upd_ne by congruence. auto.
  - intros t0. destruct (decide (t0 = currentTerm (N i))) as [->|Ht0].
    + intros _. split; [done|]. rewrite !upd_eq. eexists; split; [done|]. lia.
    + rewrite !(upd_ne (ack g)) by congruence. intros Ha. destruct (Nack _ Ha) as (? & l & HL0 & ?). split; [done|].
      destruct (x_L _ _ _ _ X _ _ HL0) as [x Hx]. exists (l ++ x). split; [done|].
      rewrite zlen_app. pose proof (zlen_nonneg x). lia.
  - intros t0 n l HL0 Hat Hk. destruct (decide (t0 = currentTerm (N i))) as [->|Ht0].
    + rewrite upd_eq in HL0. rewrite (upd_eq (ack g)) in Hk. injection HL0 as <-. right. apply agree_refl. lia.
    + rewrite upd_ne in HL0 by done. rewrite upd_ne in Hk by congruence.
      destruct (Nacked t0 n l HL0 Hat Hk) as [?|?]; [left; by eapply blocked_ext|right].
      rewrite Hl. auto with zlist.
  - rewrite Hci. rewrite Hl at 2. eapply committed_ext; [exact X| |exact Ncommit]. lia.
Qed.

Lemma inv_lead N pl vs g i r' e :
  inv N pl vs g -> leads N g i r' e ->
  inv (upd N i r') pl vs (lead g i (currentTerm (N i)) (log r')).
Proof.
  intros Hinv H. pose proof (ext_lead _ _ _ _ _ H) as X.
  pose proof Hinv as [Hn Hh Hm Hv]. split.
  - intros j. destruct (decide (j = i)) as [->|Hij].
    { rewrite upd_eq. by eapply node_lead. }
    rewrite upd_ne by done. eapply node_ok_ext; [done| |apply Hn]. split; cbn; try done.
    + apply (no_votedby _ _ _ _ _ (Hn j)).
    + intros t. by rewrite upd_ne by congruence.
    + intros Hst. rewrite upd_ne; [done|]. intros E.
      destruct (no_lead _ _ _ _ _ (Hn j) Hst) as [HL Hl]. rewrite E in HL, Hl.
      destruct (ld_L _ _ _ _ _ H) as [[? _]|[_ ?]]; congruence.
    + intros t l. upd_cases; [congruence|]. eauto.
  - by eapply hist_lead.
  - intros m ?. eapply msg_ok_ext; eauto.
  - by destruct Hv.
Qed.

End steps.
