(* ===== verification/RaftHandlers.v ===== *)
(** Each critical section of the consensus code, run in a state that satisfies
    the invariant of [RaftInv], does not panic, re-establishes the invariant
    and keeps the committed prefix of the peer's log. *)
From S2P Require Import Prelude Raft RaftCluster RaftLog RaftInv RaftSteps.

(** The committed prefix of the log stays, and the commit index never goes
    back. *)
Definition keeps_committed (r r' : Raft) : Prop :=
  agree (log r) (log r') (commitIndex r) /\ commitIndex r <= commitIndex r' /\
  lastApplied r' = lastApplied r.

Section handlers.
Context (ps : list Z) (Hcfg : valid_config ps).
Implicit Types (N : Z -> Raft) (g : ghost) (r : Raft).

#[local] Abbreviation node_ok := (node_ok ps).
#[local] Abbreviation hist_ok := (hist_ok ps).
#[local] Abbreviation inv := (inv ps).
#[local] Abbreviation msg_ok := (msg_ok ps).

Lemma node_commit_lt T g i r : node_ok T g i r -> 0 <= commitIndex r < zlen (log r).
Proof.
  intros H. pose proof (no_commit _ _ _ _ _ H) as Hc. split; [by eapply committed_nonneg|].
  eapply committed_len; [|done]. eapply log_ok_pos, no_log, H.
Qed.

Lemma keeps_refl T g i r r' :
  node_ok T g i r -> log r' = log r -> commitIndex r' = commitIndex r ->
  lastApplied r' = lastApplied r -> keeps_committed r r'.
Proof.
  intros H Hl Hc Ha. split_and!; [|lia|done]. rewrite Hl.
  apply agree_refl. by eapply node_commit_lt.
Qed.

Lemma keeps_app T g i r r' x :
  node_ok T g i r -> log r' = log r ++ x -> commitIndex r' = commitIndex r ->
  lastApplied r' = lastApplied r -> keeps_committed r r'.
Proof.
  intros H Hl Hc Ha. split_and!; [|lia|done]. rewrite Hl.
  apply agree_app_r, agree_refl. by eapply node_commit_lt.
Qed.

(** * Accepting a leader's entries *)

Definition accept g (j t k : Z) : ghost :=
  mkGhost (L g) (ldr g) (vote g) (vlog g) (clog g)
    (upd (ack g) (j, t) (Z.max (ack g (j, t)) k)) (voters g).

Lemma ext_accept N g j r' k :
  currentTerm r' = currentTerm (N j) ->
  ext (terms N) g (terms (upd N j r')) (accept g j (currentTerm (N j)) k).
Proof.
  intros Ht. split; cbn; [| |done|done| |].
  - intros i. unfold terms. upd_cases; [|done]. lia.
  - intros t l Hl. exists []. by rewrite app_nil_r.
  - intros [i t]. upd_cases; [|done]. injection e as -> ->. lia.
  - intros i t Hlt. rewrite upd_ne; [done|]. intros [= -> ->]. unfold terms in Hlt. lia.
Qed.

(** A leader's log holds every committed entry a peer of an earlier or equal
    term knows of. *)
Lemma leader_has_committed T g l k t t' lt :
  hist_ok T g -> committed ps g l k t -> t <= t' -> L g t' = Some lt ->
  k = 0 \/ exists t0 n l0, t0 <= t /\ L g t0 = Some l0 /\ at_term l0 n t0 /\ chosen ps g t0 n /\
    1 <= k <= n /\ agree l l0 k /\ agree lt l0 k.
Proof.
  intros Hh [->|(t0 & n & l0 & Ht0 & HL0 & Hat & Hch & Hk & Ha)] Ht HL; [by left|right].
  exists t0, n, l0. split_and!; [done..|lia|lia|done|].
  destruct (decide (t0 = t')) as [->|].
  - assert (lt = l0) as -> by congruence. apply agree_refl. apply agree_len in Ha; lia.
  - destruct (ho_safe _ _ _ Hh t0 t' l0 lt n) as [Hb|Hs]; [lia|done|done|done|lia| |].
    + exfalso. by eapply chosen_not_blocked.
    + eapply agree_le; [done|lia].
Qed.

Lemma committed_merged T g l lt k l2 c t t' :
  hist_ok T g -> L g t' = Some lt -> k < zlen lt -> merged l lt k l2 -> t <= t' ->
  committed ps g l c t -> committed ps g l2 c t'.
Proof.
  intros Hh HL Hk Hm Ht Hc.
  destruct (leader_has_committed _ _ _ _ _ _ _ Hh Hc Ht HL)
    as [->|(t0 & n & l0 & ? & ? & ? & ? & ? & ? & ?)]; [by left|right].
  exists t0, n, l0. split_and!; try done; try lia. by eapply merged_stable.
Qed.

Lemma merged_keeps T g l lt k l2 c t t' :
  hist_ok T g -> L g t' = Some lt -> k < zlen lt -> merged l lt k l2 -> t <= t' ->
  0 < zlen l -> l @[0] = Some sentinel -> lt @[0] = Some sentinel ->
  committed ps g l c t -> agree l l2 c.
Proof.
  intros Hh HL Hk Hm Ht Hpos Hs1 Hs2 Hc.
  assert (agree l lt c) as Ha.
  { destruct (leader_has_committed _ _ _ _ _ _ _ Hh Hc Ht HL)
      as [->|(t0 & n & l0 & ? & ? & ? & ? & ? & ? & ?)].
    - intros i Hi. assert (i = 0) as -> by lia. eauto.
    - eauto using agree_trans, agree_sym. }
  apply agree_sym. apply (merged_stable l lt k l2 l c); [lia|done| |by apply agree_sym].
  apply agree_refl. pose proof (committed_nonneg _ _ _ _ _ Hc). apply agree_len in Ha; lia.
Qed.

Lemma node_accept N pl vs g j lt k l2 c :
  inv N pl vs g -> let t := currentTerm (N j) in
  st (N j) = follower -> L g t = Some lt -> 0 <= k < zlen lt ->
  merged (log (N j)) lt k l2 -> commitIndex (N j) <= c -> committed ps g l2 c t ->
  let r' := set_commitIndex c (set_log l2 (N j)) in
  node_ok (terms (upd N j r')) (accept g j t k) j r'.
Proof.
  intros [Hn Hh _ _] t Hst HL Hk Hm Hc Hcom r'.
  pose proof (ext_accept N g j r' k eq_refl) as X.
  destruct (ho_L _ _ _ Hh _ _ HL) as (Ht1 & Hltok & _ & Hltt).
  assert (Hagk : agree l2 lt k) by (eapply merged_agree; [lia|done]).
  pose proof (Hn j) as Hnj. open_node Hnj. subst r'.
  assert (Hl2 : log_ok (L g) l2).
  { destruct Hm as [[-> _]|[-> _]]; [done|]. apply log_ok_take; [done|lia]. }
  assert (Hl2t : forall i e, l2 @[i] = Some e -> Term e <= currentTerm (N j)).
  { destruct Hm as [[-> _]|[-> _]]; [done|]. intros i e He.
    pose proof (zget_bounds _ _ _ He) as Hb. rewrite zlen_take in Hb by lia.
    rewrite zget_take in He by lia. by apply Hltt in He. }
  split; try done; cbn; try (rewrite Hst; done).
  - intros t0. destruct (decide (t0 = t)) as [->|Ht0].
    + intros _. split; [done|]. exists lt. split; [done|]. rewrite upd_eq.
      destruct (decide (0 < ack g (j, t))) as [Ha|Ha]; [|lia].
      destruct (Nack _ Ha) as (_ & l & HL' & ?). assert (l = lt) as -> by congruence. lia.
    + rewrite !(upd_ne (ack g)) by congruence. apply Nack.
  - intros t0 n l0 HL0 Hat Hn0. destruct (decide (t0 = t)) as [->|Ht0].
    + assert (l0 = lt) as -> by congruence. rewrite (upd_eq (ack g)) in Hn0.
      destruct (decide (n <= k)); [right; by eapply agree_le|].
      destruct (Nacked t n lt HL Hat ltac:(lia)) as [?|?]; [left; by eapply blocked_ext|right].
      apply (merged_stable (log (N j)) lt k); [lia|done|done|].
      apply agree_refl. apply at_term_len in Hat. lia.
    + rewrite (upd_ne (ack g)) in Hn0 by congruence.
      destruct (Nack t0 ltac:(lia)) as [Hle _].
      destruct (Nacked t0 n l0 HL0 Hat Hn0) as [?|Ha]; [left; by eapply blocked_ext|].
      destruct (ho_safe _ _ _ Hh t0 t l0 lt n) as [?|Hs]; [lia|done|done|done|lia| |].
      { left; by eapply blocked_ext. }
      right. apply (merged_stable (log (N j)) lt k); [lia|done..].
  - eapply committed_ext0; [exact X| |exact Hcom]. done.
  - lia.
Qed.

Lemma inv_accept N pl vs g j lt k l2 c :
  inv N pl vs g -> let t := currentTerm (N j) in
  st (N j) = follower -> L g t = Some lt -> 0 <= k < zlen lt ->
  merged (log (N j)) lt k l2 -> commitIndex (N j) <= c -> committed ps g l2 c t ->
  inv (upd N j (set_commitIndex c (set_log l2 (N j)))) pl vs (accept g j t k).
Proof.
  intros Hinv t Hst HL Hk Hm Hc Hcom.
  pose proof (ext_accept N g j (set_commitIndex c (set_log l2 (N j))) k eq_refl) as X.
  pose proof (node_accept _ _ _ _ _ _ _ _ _ Hinv Hst HL Hk Hm Hc Hcom) as Hnj.
  destruct Hinv as [Hn Hh Hm' Hv]. split.
  - intros i. destruct (decide (i = j)) as [->|Hij]; [by rewrite upd_eq|].
    rewrite upd_ne by done. eapply node_ok_ext; [exact X| |apply Hn].
    split; cbn; try done; [apply (no_votedby _ _ _ _ _ (Hn i))| |by eauto].
    intros t0. by rewrite upd_ne by congruence.
  - eapply hist_ok_ext; [exact X|done|done|by left|].
    intros i t0 c0 H. by eapply (no_vote _ _ _ _ _ (Hn i)).
  - intros m ?. eapply msg_ok_ext; eauto.
  - by destruct Hv.
Qed.

(** * The RPC handlers *)

(** The common start of both handlers: adopt a larger term. *)
Definition adopt (t dl : Z) (r : Raft) : Raft :=
  if currentTerm r <? t then becomeFollower t dl r else r.

Lemma adopt_spec t dl r :
  log (adopt t dl r) = log r /\ commitIndex (adopt t dl r) = commitIndex r /\
  lastApplied (adopt t dl r) = lastApplied r /\
  currentTerm (adopt t dl r) = Z.max (currentTerm r) t /\
  (st (adopt t dl r) = st r \/ st (adopt t dl r) = follower).
Proof. unfold adopt. case_test; cbn; split_and!; try done; try lia; auto. Qed.

Lemma inv_adopt N pl vs g i t dl :
  inv N pl vs g -> inv (upd N i (adopt t dl (N i))) pl vs g.
Proof.
  intros H. unfold adopt. case_test; [by apply inv_stepdown|by apply inv_upd_idem].
Qed.

Lemma inv_deadline N pl vs g i r dl :
  inv (upd N i r) pl vs g -> inv (upd N i (resetElectionTimer dl r)) pl vs g.
Proof.
  intros H. apply (inv_upd_upd ps N pl vs g i r). apply inv_local; [done|by rewrite upd_eq|].
  apply node_ok_deadline. pose proof (inv_node _ _ _ _ _ H i) as Hn. by rewrite upd_eq in Hn.
Qed.

(** The call becomes a reply. *)
Lemma inv_vote_reply N pl vs g from to args reply :
  inv N (GVoteCall from to args :: pl) vs g ->
  (VoteGranted reply = true -> vote g (to, VTerm args) = Some from) ->
  inv N (GVoteRet from to args reply :: pl) vs g.
Proof.
  intros H Hb. eapply inv_swap; [exact H| |done].
  pose proof (inv_msg _ _ _ _ _ H _ ltac:(by left)) as (? & ? & ? & ? & _).
  cbn. split_and!; try done. lia.
Qed.

(** The vote itself, for a voter that has already adopted the candidate's
    term. *)
Lemma inv_vote N pl vs g from to args el :
  inv N (GVoteCall from to args :: pl) vs g -> VTerm args = currentTerm (N to) ->
  lastEntry (log (N to)) = Some el ->
  votedFor (N to) = -1 \/ votedFor (N to) = from ->
  Term el < LastLogTerm args \/ (LastLogTerm args = Term el /\ Index el <= LastLogIndex args) ->
  exists g', inv (upd N to (set_votedFor from (N to)))
               (GVoteRet from to args (mkVoteReply (currentTerm (N to)) true) :: pl) vs g' /\ (L g', ldr g') = (L g, ldr g).
Proof.
  intros Hinv Hcur Hel Hv Hup.
  pose proof (inv_msg _ _ _ _ _ Hinv _ ltac:(by left)) as (_ & Hfp & _ & Hvt & Hvf & e & He & Hie & Hte).
  destruct (decide (votedFor (N to) = -1)) as [Hno|Hyes].
  - exists (cast g to (currentTerm (N to)) from (log (N to))). split; [|done].
    apply inv_vote_reply; [|intros _; cbn; rewrite Hcur; apply upd_eq].
    apply inv_grant; [done|done|done|done|rewrite <- Hcur; apply Hvt|by rewrite <- Hcur|].
    rewrite <- Hcur. exists e, el. split_and!; [done..|lia].
  - assert (Hfrom : votedFor (N to) = from) by (destruct Hv; [done|done]).
    exists g. split; [|done]. apply inv_vote_reply.
    + apply inv_upd_idem; [|done]. rewrite <- Hfrom. by destruct (N to).
    + intros _. rewrite Hcur, <- Hfrom. by apply (no_voted _ _ _ _ _ (inv_node _ _ _ _ _ Hinv to)).
Qed.

(** [RequestVote] never panics; a granted vote is recorded for the voter's
    current term. *)
Lemma RequestVote_ok N pl vs g from to args dl :
  inv N (GVoteCall from to args :: pl) vs g ->
  exists r' reply g', RequestVote args dl (N to) = Some (r', reply) /\
    inv (upd N to r') (GVoteRet from to args reply :: pl) vs g' /\ keeps_committed (N to) r' /\ (L g', ldr g') = (L g, ldr g).
Proof.
  intros Hinv. pose proof (inv_node _ _ _ _ _ Hinv to) as Hto.
  apply (inv_adopt _ _ _ _ to (VTerm args) dl) in Hinv.
  pose proof (adopt_spec (VTerm args) dl (N to)) as (Hl & Hc & Ha & Ht & _).
  unfold RequestVote. fold (adopt (VTerm args) dl (N to)).
  set (r1 := adopt (VTerm args) dl (N to)) in *.
  assert (Hkeep : forall r', log r' = log r1 -> commitIndex r' = commitIndex r1 ->
    lastApplied r' = lastApplied r1 -> keeps_committed (N to) r').
  { intros. eapply keeps_refl; [done|congruence..]. }
  assert (Hrej : inv (upd N to r1)
    (GVoteRet from to args (mkVoteReply (currentTerm r1) false) :: pl) vs g)
    by (by apply inv_vote_reply).
  case_test; [eauto 10|].
  pose proof (inv_node _ _ _ _ _ Hinv to) as Hn1. rewrite upd_eq in Hn1.
  destruct (log_ok_last _ _ (no_log _ _ _ _ _ Hn1)) as (el & Hel & _ & _).
  unfold lastLogInfo. rewrite Hel. cbn [mbind option_bind].
  case_test; [|eauto 10].
  pose proof (inv_msg _ _ _ _ _ Hinv _ ltac:(by left)) as (_ & _ & Hcand & _).
  destruct (inv_vote _ _ _ _ from to args el Hinv) as (g' & Hg' & HL); rewrite ?upd_eq; try done.
  - lia.
  - rewrite Hcand in H. apply orb_true_iff in H as [?|?]; bool_to_prop; auto.
  - apply orb_true_iff in H0 as [?|?]; bool_to_prop; auto.
  - rewrite upd_eq in Hg'. apply inv_upd_upd in Hg'. eexists _, _, g'. split; [done|].
    split; [|by split; [apply Hkeep|]]. rewrite Hcand. by apply inv_deadline.
Qed.

(** The acceptance of the entries, for a peer that has adopted the leader's
    term and is a follower. *)
Lemma inv_merge N pl vs g from to args prev :
  inv N (GAppCall from to args :: pl) vs g -> ATerm args = currentTerm (N to) ->
  st (N to) = follower -> (log (N to)) @[PrevLogIndex args] = Some prev ->
  Term prev = PrevLogTerm args ->
  exists l1 l2 last c g',
    truncateConflict (log (N to)) (PrevLogIndex args + 1) (Entries args) = Some l1 /\
    appendMissing l1 (PrevLogIndex args + 1) (Entries args) = Some l2 /\
    lastEntry l2 = Some last /\
    (if commitIndex (N to) <? LeaderCommit args then
       if LeaderCommit args <? Index last then LeaderCommit args else Index last
     else commitIndex (N to)) = c /\
    inv (upd N to (set_commitIndex c (set_log l2 (N to))))
      (GAppRet from to args (mkAppReply (currentTerm (N to)) true 0 0) :: pl) vs g' /\
    keeps_committed (N to) (set_commitIndex c (set_log l2 (N to))) /\
    (exists lt, L g' (ATerm args) = Some lt /\ agree l2 lt (PrevLogIndex args + zlen (Entries args))) /\
    (L g', ldr g') = (L g, ldr g).
Proof.
  intros Hinv Hcur Hst Hprev Hpt. pose proof (inv_hist _ _ _ _ _ Hinv) as Hh.
  pose proof (inv_node _ _ _ _ _ Hinv to) as Hto.
  pose proof (inv_msg _ _ _ _ _ Hinv _ ltac:(by left)) as Hm.
  pose proof Hm as (_ & _ & _ & Hp & lt & HL & Hldr & (ep & Hep & Hept) & Hseg & Hcl & Hcm).
  destruct (ho_L _ _ _ Hh _ _ HL) as (_ & Hltok & _ & _).
  pose proof (no_log _ _ _ _ _ Hto) as Hlok.
  assert (Ha : agree (log (N to)) lt (PrevLogIndex args)).
  { eapply log_ok_match; [done|done|done|done|congruence]. }
  destruct (merge_spec _ _ _ _ _ Hlok Hltok Hp Ha Hseg) as (l1 & l2 & E1 & E2 & Hmg).
  set (k := PrevLogIndex args + zlen (Entries args)) in *.
  assert (Hk : 0 <= k < zlen lt).
  { pose proof (zlen_nonneg (Entries args)). pose proof (zget_bounds _ _ _ Hep).
    pose proof (segment_len _ _ _ ltac:(eauto) Hseg). lia. }
  pose proof (merged_agree _ _ _ _ (proj2 Hk) Hmg) as Hagk.
  assert (Hold : committed ps g l2 (commitIndex (N to)) (currentTerm (N to))).
  { rewrite <- Hcur. eapply committed_merged; [done|done|apply Hk|done| |apply (no_commit _ _ _ _ _ Hto)]. lia. }
  assert (Hl2 : log_ok (L g) l2).
  { destruct Hmg as [[-> _]|[-> _]]; [done|]. apply log_ok_take; [done|lia]. }
  destruct (log_ok_last _ _ Hl2) as (last & Hlast & _ & Hli).
  assert (Hkl : k < zlen l2) by (apply agree_len in Hagk; lia).
  set (c := if commitIndex (N to) <? LeaderCommit args then
       if LeaderCommit args <? Index last then LeaderCommit args else Index last
     else commitIndex (N to)).
  assert (Hc : c = Z.max (commitIndex (N to)) (LeaderCommit args)).
  { unfold c. repeat case_test; lia. }
  assert (Hcc : committed ps g l2 c (currentTerm (N to))).
  { rewrite Hc. destruct (Z.max_spec (commitIndex (N to)) (LeaderCommit args)) as [[? ->]|[? ->]]; [|done].
    destruct Hcm as [->|(t0 & n & l0 & ? & ? & ? & ? & ? & ?)]; [by left|right].
    exists t0, n, l0. split_and!; try done; try lia.
    eapply agree_trans; [eapply agree_le; [exact Hagk|lia]|done]. }
  exists l1, l2, last, c, (accept g to (currentTerm (N to)) k). split_and!; try done.
  - assert (Hacc := inv_accept N _ _ _ to lt k l2 c Hinv Hst ltac:(by rewrite <- Hcur) Hk Hmg ltac:(lia) Hcc).
    cbn zeta in Hacc. eapply inv_swap; [exact Hacc| |done].
    pose proof (inv_msg _ _ _ _ _ Hacc _ ltac:(by left)) as Hm'. cbn in Hm' |- *.
    split_and!; [done| |done]. intros _. rewrite Hcur, upd_eq. unfold k. lia.
  - unfold keeps_committed. split_and!; cbn; [|lia|done].
    eapply (merged_keeps _ _ _ _ k); [done|exact HL|apply Hk|done| | | | |apply (no_commit _ _ _ _ _ Hto)].
    + lia.
    + by eapply log_ok_pos.
    + apply (lo_sent _ _ Hlok).
    + apply (lo_sent _ _ Hltok).
  - by exists lt.
Qed.

Lemma inv_follower N pl vs g i : inv N pl vs g -> inv (upd N i (set_st follower (N i))) pl vs g.
Proof.
  intros H. apply inv_local; [done|done|]. apply node_ok_follower, (inv_node _ _ _ _ _ H).
Qed.

Lemma inv_app_reply N pl vs g from to args reply :
  inv N (GAppCall from to args :: pl) vs g -> Success reply = false ->
  (ARTerm reply <= ATerm args -> conflict_ok g args reply) ->
  inv N (GAppRet from to args reply :: pl) vs g.
Proof.
  intros H Hs Hb. eapply inv_swap; [exact H| |done].
  pose proof (inv_msg _ _ _ _ _ H _ ltac:(by left)) as ?. cbn.
  split_and!; try done. congruence.
Qed.

(** The two rejections of a well-formed request carry a usable hint. *)
Lemma conflict_short g args t lastIndex :
  0 <= lastIndex < PrevLogIndex args ->
  conflict_ok g args (mkAppReply t false (lastIndex + 1) (-1)).
Proof. intros H. split; cbn; [lia|done]. Qed.

Lemma conflict_mismatch T g i r args prev idx t :
  node_ok T g i r -> 0 <= PrevLogIndex args ->
  (log r) @[PrevLogIndex args] = Some prev -> Term prev <> PrevLogTerm args ->
  1 <= Z.of_nat idx <= PrevLogIndex args ->
  conflict_ok g args (mkAppReply t false (Z.of_nat idx) (Term prev)).
Proof.
  intros Hn Hp Hprev Hne Hidx. split; cbn; [done|]. intros _. split; [done|].
  destruct (lo_src _ _ (no_log _ _ _ _ _ Hn) (PrevLogIndex args) prev) as (_ & lc & HL & Ha);
    [lia|done|].
  exists lc. split; [done|]. exists prev. split; [|done]. by apply (agree_get _ _ _ _ _ Ha); [lia|].
Qed.

Lemma prev_pos L l lt k e ep :
  log_ok L l -> log_ok L lt -> l @[k] = Some e -> lt @[k] = Some ep -> Term e <> Term ep ->
  1 <= k /\ 1 <= Term e.
Proof.
  intros Hl Hlt He Hep Hne. pose proof (zget_bounds _ _ _ He).
  destruct (decide (k = 0)) as [->|].
  { rewrite (lo_sent _ _ Hl) in He. rewrite (lo_sent _ _ Hlt) in Hep. congruence. }
  destruct (lo_src _ _ Hl k e) as [? _]; [lia|done|]. lia.
Qed.

(** What the sender of a request may conclude: a current request is answered in
    its term, and after a success the follower's log agrees with the leader's up
    to the last entry sent. *)
Definition answered g args (r r' : Raft) (reply : AppendEntriesReply) : Prop :=
  (currentTerm r <= ATerm args -> currentTerm r' = ATerm args /\ ARTerm reply = ATerm args) /\
  (Success reply = true -> exists lt, L g (ATerm args) = Some lt /\
     agree (log r') lt (PrevLogIndex args + zlen (Entries args))).

(** [AppendEntries] never panics on a request a leader sent. *)
Lemma AppendEntries_spec N pl vs g from to args dl :
  inv N (GAppCall from to args :: pl) vs g ->
  exists r' reply g', AppendEntries args dl (N to) = Some (r', reply) /\
    inv (upd N to r') (GAppRet from to args reply :: pl) vs g' /\ keeps_committed (N to) r' /\
    answered g' args (N to) r' reply /\ (L g', ldr g') = (L g, ldr g).
Proof.
  intros Hinv. pose proof (inv_node _ _ _ _ _ Hinv to) as Hto.
  apply (inv_adopt _ _ _ _ to (ATerm args) dl) in Hinv.
  pose proof (adopt_spec (ATerm args) dl (N to)) as (Hl & Hc & Ha & Ht & _).
  unfold AppendEntries. fold (adopt (ATerm args) dl (N to)).
  set (r1 := adopt (ATerm args) dl (N to)) in *.
  assert (Hkeep : forall r', log r' = log r1 -> commitIndex r' = commitIndex r1 ->
    lastApplied r' = lastApplied r1 -> keeps_committed (N to) r').
  { intros. eapply keeps_refl; [done|congruence..]. }
  case_test.
  { eexists _, _, g. split; [done|]. split; [apply inv_app_reply; [done|done|cbn; lia]|].
    split; [by apply Hkeep|]. split; [|done]. split; cbn; [lia|done]. }
  apply (inv_follower _ _ _ _ to) in Hinv. rewrite upd_eq in Hinv.
  apply inv_upd_upd in Hinv. apply (inv_deadline _ _ _ _ _ _ dl) in Hinv.
  set (r2 := resetElectionTimer dl (set_st follower r1)) in *.
  assert (Hl2 : log r2 = log r1) by done. rewrite <- Hl2 in *.
  assert (Hr2 : ATerm args = currentTerm r2) by (cbn; lia).
  pose proof (inv_node _ _ _ _ _ Hinv to) as Hn. rewrite upd_eq in Hn.
  pose proof (inv_msg _ _ _ _ _ Hinv _ ltac:(by left)) as (_ & _ & _ & Hp & lt & HL & _ & (ep & Hep & Hept) & _).
  destruct (ho_L _ _ _ (inv_hist _ _ _ _ _ Hinv) _ _ HL) as (_ & Hltok & _).
  pose proof (no_log _ _ _ _ _ Hn) as Hlok.
  destruct (log_ok_last _ _ Hlok) as (last & Hlast & Hgl & Hli).
  rewrite Hlast. cbn [mbind option_bind]. case_test.
  { eexists _, _, g. split; [done|]. split; [|split; [by apply Hkeep|by split; [split|]]].
    apply inv_app_reply; [done|done|]. intros _. apply conflict_short.
    apply zget_bounds in Hgl. lia. }
  destruct (zget_Some (log r2) (PrevLogIndex args)) as [prev Hprev]; [lia|].
  rewrite Hprev. cbn [mbind option_bind]. case_test.
  - (* the terms differ at [PrevLogIndex] *)
    destruct (prev_pos _ _ _ _ _ _ Hlok Hltok Hprev Hep) as [Hp1 Ht1]; [congruence|].
    destruct (conflictStart_spec _ _ (Term prev) (Z.to_nat (PrevLogIndex args)) Hlok Ht1)
      as (idx & -> & Hidx); [lia|lia|].
    cbn [mbind option_bind]. eexists _, _, g. split; [done|]. split; [|split; [by apply Hkeep|by split; [split|]]].
    apply inv_app_reply; [done|done|]. intros _.
    eapply conflict_mismatch; [done..|lia].
  - destruct (inv_merge (upd N to r2) pl vs g from to args prev) as
      (l1 & l2 & ll & c & g' & E1 & E2 & E3 & E4 & Hi & Hk & Hag & HLg); rewrite ?upd_eq; try done.
    rewrite upd_eq in E1, E4, Hi, Hk. rewrite E1. cbn [mbind option_bind].
    rewrite E2. cbn [mbind option_bind]. rewrite E3. cbn [mbind option_bind].
    eexists _, _, g'. split; [done|].
    replace (if commitIndex (set_log l2 r2) <? LeaderCommit args then _ else _)
      with (set_commitIndex c (set_log l2 r2))
      by (rewrite <- E4; cbn; repeat case_test; try lia; done).
    split; [by eapply inv_upd_upd|]. split; [|by split; [split|]].
    destruct Hk as (? & ? & ?). unfold keeps_committed in *. cbn in *. rewrite Hl, Hc, Ha in *.
    by split_and!.
Qed.

Lemma AppendEntries_ok N pl vs g from to args dl :
  inv N (GAppCall from to args :: pl) vs g ->
  exists r' reply g', AppendEntries args dl (N to) = Some (r', reply) /\
    inv (upd N to r') (GAppRet from to args reply :: pl) vs g' /\ keeps_committed (N to) r' /\ (L g', ldr g') = (L g, ldr g).
Proof. intros H. destruct (AppendEntries_spec N pl vs g from to args dl H) as (? & ? & ? & ? & ? & ? & _ & ?); eauto 8. Qed.

(** * Winning an election *)

Lemma initIndexes_spec qs li : forall nx mt nx' mt',
  initIndexes qs li nx mt = (nx', mt') ->
  forall p, (p ∈ qs -> mapget 0 nx' p = li + 1 /\ mapget 0 mt' p = 0) /\
            (p ∉ qs -> mapget 0 nx' p = mapget 0 nx p /\ mapget 0 mt' p = mapget 0 mt p).
Proof.
  induction qs as [|q qs IH]; intros nx mt nx' mt' H p; cbn in H.
  { injection H as <- <-. split; [by intros ?%not_elem_of_nil|done]. }
  destruct (IH _ _ _ _ H p) as [Hin Hout].
  destruct (decide (p ∈ qs)) as [Hp|Hp].
  - split; [auto|]. intros Hn. exfalso. apply Hn. by right.
  - destruct (Hout Hp) as [E1 E2]. unfold mapget in *. rewrite !lookup_insert in E1, E2. split.
    + intros [->|?]%elem_of_cons; [|done]. by rewrite !decide_True in E1, E2 by done.
    + intros Hn. rewrite !decide_False in E1, E2; [done|..]; intros ->; apply Hn; by left.
Qed.

Lemma becomeLeader_spec T g i r :
  node_ok T g i r ->
  exists r', becomeLeader r = Some r' /\
    log r' = log r ++ [mkEntry (currentTerm r) (zlen (log r)) None] /\
    st r' = leader /\ me r' = me r /\ peers r' = peers r /\ currentTerm r' = currentTerm r /\
    votedFor r' = votedFor r /\ commitIndex r' = commitIndex r /\ lastApplied r' = lastApplied r /\
    forall p, p ∈ ps -> p <> i ->
      mapget 0 (nextIndex r') p = zlen (log r) /\ mapget 0 (matchIndex r') p = 0.
Proof.
  intros H. destruct (log_ok_last _ _ (no_log _ _ _ _ _ H)) as (last & Hl & _ & Hi).
  unfold becomeLeader. rewrite Hl. cbn [mbind option_bind].
  destruct (initIndexes (peers r) (Index last) ∅ ∅) as [nx mt] eqn:E.
  eexists; split; [done|]. cbn. replace (Index last + 1) with (zlen (log r)) by lia.
  split_and!; try done. intros p Hp Hpi. rewrite (no_me _ _ _ _ _ H).
  destruct (initIndexes_spec _ _ _ _ _ _ E p) as [Hin _].
  rewrite (no_peers _ _ _ _ _ H) in Hin. destruct (Hin Hp) as [E1 E2]. split; [lia|].
  unfold mapget in *. by rewrite lookup_insert_ne by done.
Qed.

(** A candidate with a majority of votes is the first leader of its term. *)
Lemma no_leader_yet N pl vs g i Q :
  inv N pl vs g -> st (N i) = candidate -> quorum ps Q ->
  (forall j, j ∈ Q -> vote g (j, currentTerm (N i)) = Some i) -> L g (currentTerm (N i)) = None.
Proof.
  intros [Hn Hh _ _] Hst HQ Hv. destruct (L g (currentTerm (N i))) as [l|] eqn:HL; [exfalso|done].
  destruct (ho_quorum _ _ _ Hh _ _ HL) as (Q' & HQ' & Hv').
  destruct (quorum_inter _ _ _ HQ HQ') as (j & Hj & Hj').
  assert (ldr g (currentTerm (N i)) = i) as Hl.
  { specialize (Hv _ Hj). specialize (Hv' _ Hj'). congruence. }
  destruct (no_led _ _ _ _ _ (Hn i) _ _ HL Hl) as [_ Hc]. by apply Hc.
Qed.

Lemma leads_elected N pl vs g i Q r' :
  inv N pl vs g -> st (N i) = candidate -> quorum ps Q ->
  (forall j, j ∈ Q -> vote g (j, currentTerm (N i)) = Some i) ->
  becomeLeader (N i) = Some r' ->
  leads ps N g i r' (mkEntry (currentTerm (N i)) (zlen (log (N i))) None).
Proof.
  intros Hinv Hst HQ Hv E.
  pose proof (no_leader_yet _ _ _ _ _ _ Hinv Hst HQ Hv) as HL.
  pose proof Hinv as [Hn Hh _ _].
  destruct (becomeLeader_spec _ _ _ _ (Hn i)) as (r1 & E' & Hl & Hs & Hm & Hp & Ht & Hvf & Hci & Hla & Hnx).
  assert (r1 = r') as -> by congruence.
  destruct (no_cand _ _ _ _ _ (Hn i) Hst) as (Ht1 & _ & _ & Hlt).
  pose proof (log_ok_pos _ _ (no_log _ _ _ _ _ (Hn i))) as Hpos.
  assert (Hack : forall j, ack g (j, currentTerm (N i)) = 0).
  { intros j. pose proof (ho_ack _ _ _ Hh (j, currentTerm (N i))).
    destruct (decide (0 < ack g (j, currentTerm (N i)))) as [Ha|]; [|lia].
    apply (no_ack _ _ _ _ _ (Hn j)) in Ha as (_ & l & ? & _). congruence. }
  split; try done.
  - apply (no_ps _ _ _ _ _ (Hn i)). by rewrite Hst.
  - by rewrite Hm, (no_me _ _ _ _ _ (Hn i)).
  - by rewrite Hp, (no_peers _ _ _ _ _ (Hn i)).
  - intros p Hpp Hpi. destruct (Hnx p Hpp Hpi) as [-> _]. rewrite Hl, zlen_snoc. lia.
  - intros p Hpp Hpi. destruct (Hnx p Hpp Hpi) as [_ ->]. rewrite Hack. done.
  - by exists Q.
  - intros j. by rewrite Hack.
  - by left.
  - intros. by eapply election_complete.
Qed.

(** [startElection]'s reply callback: the candidate becomes leader exactly with
    a majority of distinct voters. *)
Lemma onVoteReply_ok N pl vs g from to args reply dl :
  inv N (GVoteRet from to args reply :: pl) vs g ->
  exists r' v b g',
    onVoteReply (VTerm args) reply (mapget 0 vs (from, VTerm args)) dl (N from) = Some (r', v, b) /\
    inv (upd N from r') pl (<[(from, VTerm args) := v]> vs) g' /\ keeps_committed (N from) r' /\ grows g g'.
Proof.
  intros Hinv. pose proof (inv_node _ _ _ _ _ Hinv from) as Hf. unfold onVoteReply.
  case_test.
  { eexists _, _, _, g. split; [done|]. split; [|by split; [eapply keeps_refl|apply grows_same]].
    apply inv_same_votes. apply inv_stepdown; [|done]. by eapply inv_pop. }
  assert (Hk : keeps_committed (N from) (N from)) by (by eapply keeps_refl).
  assert (Hskip : inv (upd N from (N from)) pl
      (<[(from, VTerm args) := mapget 0 vs (from, VTerm args)]> vs) g).
  { apply inv_same_votes, inv_upd_idem; [done|]. by eapply inv_pop. }
  pose proof (grows_same g g eq_refl) as Hgg.
  case_test; [eauto 11|]. destruct (VoteGranted reply) eqn:Hg; [|eauto 11].
  pose proof (inv_count ps N pl vs g from to args reply Hinv Hg) as Hcnt.
  set (g1 := count_vote g from (VTerm args) to) in *.
  case_test.
  2:{ eexists _, _, _, g1. split; [done|]. split; [|by split; [|apply grows_same]]. by apply inv_upd_idem. }
  assert (Hmaj : majority (peers (N from)) <= mapget 0 vs (from, VTerm args) + 1) by done.
  destruct (becomeLeader_spec _ _ _ _ Hf) as (r' & E & Hl & _ & _ & _ & _ & _ & Hci & Hla & _).
  rewrite E. cbn [mbind option_bind]. eexists _, _, _, _. split; [done|].
  assert (HQ : quorum ps (voters g1 (from, currentTerm (N from))) /\
    forall j, j ∈ voters g1 (from, currentTerm (N from)) -> vote g1 (j, currentTerm (N from)) = Some from).
  { pose proof (inv_votes _ _ _ _ _ Hcnt) as [V1 V2 V3].
    assert (Hcur : currentTerm (N from) = VTerm args) by lia. rewrite Hcur. split; [|by apply V3].
    split_and!; [|by intros; eapply V3|].
    - specialize (V2 from (VTerm args)). by apply list.NoDup_app in V2 as (? & _ & _).
    - rewrite <- V1. unfold mapget at 1. rewrite lookup_insert_eq. cbn.
      rewrite (no_peers _ _ _ _ _ Hf) in Hmaj. done. }
  destruct HQ as [HQ HQv].
  pose proof (leads_elected _ _ _ _ _ _ _ Hcnt ltac:(done) HQ HQv E) as HLd.
  split; [by eapply inv_lead|]. split; [by eapply keeps_app|].
  apply (grows_trans _ g1); [by apply grows_same|]. by eapply grows_lead.
Qed.

(** * Leading *)

(** What a leader sends satisfies the invariant of requests. *)
Lemma prepareAppendEntries_ok N pl vs g from to term :
  inv N (GSend from to term :: pl) vs g ->
  exists o, prepareAppendEntries to term (N from) = Some o /\
    match o with
    | None => True
    | Some args => inv N (GAppCall from to args :: pl) vs g
    end.
Proof.
  intros Hinv. pose proof (inv_node _ _ _ _ _ Hinv from) as Hf.
  pose proof (inv_msg _ _ _ _ _ Hinv _ ltac:(by left)) as (Hto & Hfrom & Hne).
  unfold prepareAppendEntries. case_test; [by exists None|].
  assert (Hterm : term = currentTerm (N from)) by lia. subst term.
  destruct (no_lead _ _ _ _ _ Hf) as [HL Hldr]; [done|].
  pose proof (no_next _ _ _ _ _ Hf ltac:(done) to Hto ltac:(done)) as Hnx.
  set (next := mapget 0 (nextIndex (N from)) to) in *.
  case_test; [lia|].
  destruct (zget_Some (log (N from)) (next - 1)) as [prev Hprev]; [lia|].
  destruct (log_ok_last _ _ (no_log _ _ _ _ _ Hf)) as (last & Hlast & _ & Hli).
  rewrite Hprev. cbn [mbind option_bind]. rewrite Hlast. cbn [mbind option_bind].
  pose proof (node_commit_lt _ _ _ _ Hf) as Hclt.
  assert (Hes : exists es, (if next <=? Index last then zsuffix (log (N from)) next else Some []) = Some es /\
    segment (log (N from)) (next - 1) es /\ next - 1 + zlen es = zlen (log (N from)) - 1).
  { case_test.
    - rewrite zsuffix_Some by lia. eexists. split; [done|]. split.
      + intros k e He. pose proof (zget_bounds _ _ _ He). rewrite zget_drop in He by lia.
        rewrite <- He. f_equal. lia.
      + rewrite zlen_drop; lia.
    - exists []. split; [done|]. split; [intros k e He%zget_bounds; unfold zlen in He; cbn in He; lia|].
      rewrite zlen_nil. lia. }
  destruct Hes as (es & -> & Hseg & Hlen). cbn [mbind option_bind].
  eexists. split; [done|]. cbn. eapply inv_swap; [exact Hinv| |done].
  cbn. unfold app_ok. cbn. split_and!; try done.
  exists (log (N from)). split_and!; try done; [by exists prev|lia|].
  apply (no_commit _ _ _ _ _ Hf).
Qed.

Lemma advanceLoop_spec r k :
  0 <= commitIndex r -> commitIndex r + Z.of_nat k < zlen (log r) ->
  exists r', advanceLoop k r = Some r' /\
    (r' = r \/ exists n, commitIndex r < n <= commitIndex r + Z.of_nat k /\
       r' = set_commitIndex n r /\ at_term (log r) n (currentTerm r) /\
       majority (peers r) <= countMatch r n).
Proof.
  intros Hc. induction k as [|k IH]; intros Hk; cbn [advanceLoop]; [eauto|].
  destruct (zget_Some (log r) (commitIndex r + Z.of_nat (S k))) as [e He]; [lia|].
  rewrite He. cbn [mbind option_bind].
  destruct IH as (r' & E & Hr'); [lia|].
  assert (Hrec : exists r', advanceLoop k r = Some r' /\
    (r' = r \/ exists n, commitIndex r < n <= commitIndex r + Z.of_nat (S k) /\
       r' = set_commitIndex n r /\ at_term (log r) n (currentTerm r) /\
       majority (peers r) <= countMatch r n)).
  { exists r'. split; [done|]. destruct Hr' as [?|(n & ? & ? & ? & ?)]; [by left|right].
    exists n. split_and!; try done; lia. }
  case_test; [done|]. case_test; [|done].
  eexists; split; [done|]. right. eexists. split_and!; [| |done| |done]; [lia|lia|]. by exists e.
Qed.

(** A leader's commit index only moves to an entry of its own term that a
    majority acknowledged. *)
Lemma node_commit T g i r n :
  node_ok T g i r -> st r = leader -> commitIndex r < n -> at_term (log r) n (currentTerm r) ->
  majority (peers r) <= countMatch r n -> node_ok T g i (set_commitIndex n r).
Proof.
  intros H Hst Hn Hat Hm. pose proof (node_commit_lt _ _ _ _ H) as Hc.
  pose proof (at_term_len _ _ _ Hat) as Hlen. open_node H.
  assert (Hch : chosen ps g (currentTerm r) n).
  { exists (i :: filter (fun p => p <> me r /\ n <= mapget 0 (matchIndex r) p) (peers r)).
    rewrite Npeers, Nme in *. split.
    - split_and!.
      + apply list.NoDup_cons. split; [|apply list.NoDup_filter, Hcfg].
        by intros [[? _] _]%list_elem_of_filter.
      + intros j [->|[_ ?]%list_elem_of_filter]%elem_of_cons; [|done]. apply Nps. by rewrite Hst.
      + unfold countMatch in Hm. rewrite Npeers, Nme in Hm. by rewrite zlen_cons.
    - intros j [->|[[Hji Hj] Hjp]%list_elem_of_filter]%elem_of_cons.
      + specialize (Nself Hst). lia.
      + specialize (Nmatch Hst j Hjp Hji). lia. }
  destruct (Nlead Hst) as [HL _].
  split; try done; cbn; [|lia].
  right. exists (currentTerm r), n, (log r). split_and!; try done; [lia|].
  apply agree_refl. lia.
Qed.

Lemma advanceCommitIndex_ok T g i r :
  node_ok T g i r -> st r = leader ->
  exists r', advanceCommitIndex r = Some r' /\ node_ok T g i r' /\ keeps_committed r r' /\
    currentTerm r' = currentTerm r.
Proof.
  intros H Hst. pose proof (node_commit_lt _ _ _ _ H) as Hc.
  destruct (log_ok_last _ _ (no_log _ _ _ _ _ H)) as (last & Hl & _ & Hi).
  unfold advanceCommitIndex. rewrite Hl. cbn [mbind option_bind].
  destruct (advanceLoop_spec r (Z.to_nat (Index last - commitIndex r))) as (r' & E & Hr'); [lia|lia|].
  exists r'. split; [done|]. destruct Hr' as [->|(n & Hn & -> & Hat & Hm)].
  - split_and!; [done|by eapply keeps_refl|done].
  - split_and!; [by apply node_commit; try done; lia| |done].
    unfold keeps_committed. cbn. split_and!; [apply agree_refl; lia|lia|done].
Qed.

Lemma keeps_trans_fields r0 r r' :
  log r0 = log r -> commitIndex r0 = commitIndex r -> lastApplied r0 = lastApplied r ->
  keeps_committed r0 r' -> keeps_committed r r'.
Proof. unfold keeps_committed. intros -> -> ->. done. Qed.

Lemma node_indexes T g i r p nx m :
  node_ok T g i r -> 1 <= nx <= zlen (log r) -> m <= ack g (p, currentTerm r) ->
  node_ok T g i (set_nextIndex (<[p := nx]> (nextIndex r))
    (if mapget 0 (matchIndex r) p <? m then set_matchIndex (<[p := m]> (matchIndex r)) r else r)).
Proof.
  intros H Hnx Hm. open_node H. case_test; split; try done; cbn.
  - intros Hst q Hq Hqi. unfold mapget. rewrite lookup_insert. case_decide as E.
    + by subst.
    + by apply Nmatch.
  - intros Hst q Hq Hqi. unfold mapget. rewrite lookup_insert. case_decide; [done|]. by apply Nnext.
  - intros Hst q Hq Hqi. unfold mapget. rewrite lookup_insert. case_decide; [done|]. by apply Nnext.
Qed.

(** The new [nextIndex] a rejection leads to: inside the log and no larger than
    the index that was rejected. *)
Lemma backtrack_ok N pl vs g from to args reply :
  inv N (GAppRet from to args reply :: pl) vs g -> st (N from) = leader ->
  ATerm args = currentTerm (N from) -> ARTerm reply <= currentTerm (N from) ->
  Success reply = false -> ConflictTerm reply <> -1 ->
  exists li, lastIndexOfTerm (log (N from)) (ConflictTerm reply) (length (log (N from))) = Some li /\
    1 <= (if 0 <=? li then li + 1 else ConflictIndex reply) <= PrevLogIndex args.
Proof.
  intros Hinv Hst Hcur Hrt Hs Hct.
  pose proof (inv_node _ _ _ _ _ Hinv from) as Hf.
  pose proof (inv_msg _ _ _ _ _ Hinv _ ltac:(by left))
    as ((_ & _ & _ & Hp & l & HL & Hldr & Hat & _) & _ & Hconf).
  destruct (Hconf Hs ltac:(lia)) as [Hci Hc]. destruct (Hc Hct) as (Hne & lc & HLc & Hatc).
  destruct (no_lead _ _ _ _ _ Hf Hst) as [HL' _].
  assert (l = log (N from)) as -> by congruence.
  destruct (lastIndexOfTerm_spec (log (N from)) (ConflictTerm reply) (length (log (N from))))
    as (li & -> & Hli); [lia|].
  exists li. split; [done|].
  destruct Hli as [[-> _]|(Hr & (e & He & Het) & _)]; [done|].
  case_test; [|done]. split; [lia|].
  destruct (decide (li + 1 <= PrevLogIndex args)) as [|Hgt]; [done|exfalso].
  destruct (decide (li = 0)) as [->|]; [lia|].
  destruct (lo_src _ _ (no_log _ _ _ _ _ Hf) li e) as (_ & lt & HLt & Ha); [lia|done|].
  rewrite Het in HLt. assert (lt = lc) as -> by congruence.
  destruct Hat as (e1 & He1 & Het1), Hatc as (e2 & He2 & Het2).
  pose proof (agree_get _ _ _ (PrevLogIndex args) _ Ha ltac:(lia) He1). congruence.
Qed.

(** The reply callback of [sendAppendEntriesTo]. *)
Lemma onAppendReply_ok N pl vs g from to args reply dl :
  inv N (GAppRet from to args reply :: pl) vs g ->
  exists r', onAppendReply to (ATerm args) args reply dl (N from) = Some r' /\
    inv (upd N from r') pl vs g /\ keeps_committed (N from) r'.
Proof.
  intros Hinv. pose proof (inv_node _ _ _ _ _ Hinv from) as Hf.
  pose proof (inv_msg _ _ _ _ _ Hinv _ ltac:(by left))
    as ((Hto & _ & Hne & Hp & l & HL & Hldr & (ep & Hep & _) & Hseg & _) & Hsucc & Hconf).
  pose proof (backtrack_ok _ _ _ _ _ _ _ _ Hinv) as Hback.
  apply inv_pop in Hinv. unfold onAppendReply.
  assert (Hkeep : forall nx, keeps_committed (N from) (set_nextIndex nx (N from))).
  { intros. by eapply keeps_refl. }
  case_test.
  { eexists; split; [done|]. split; [by apply inv_stepdown|by eapply keeps_refl]. }
  case_test.
  { eexists; split; [done|]. split; [by apply inv_upd_idem|by eapply keeps_refl]. }
  assert (Hst : st (N from) = leader) by done. assert (Hcur : ATerm args = currentTerm (N from)) by lia.
  destruct (no_lead _ _ _ _ _ Hf Hst) as [HL' _]. assert (l = log (N from)) as -> by congruence.
  pose proof (zlen_nonneg (Entries args)).
  assert (Hnm : 0 <= PrevLogIndex args + zlen (Entries args) < zlen (log (N from))).
  { pose proof (segment_len _ _ _ (zget_bounds _ _ _ Hep) Hseg). lia. }
  destruct (Success reply) eqn:Es.
  - specialize (Hsucc eq_refl). rewrite Hcur in Hsucc.
    set (nm := PrevLogIndex args + zlen (Entries args)) in *.
    pose proof (node_indexes _ _ _ _ to (nm + 1) nm Hf ltac:(lia) Hsucc) as Hn1.
    replace (nextIndex (if mapget 0 (matchIndex (N from)) to <? nm then _ else _))
      with (nextIndex (N from)) by (by case_test).
    set (r1 := set_nextIndex _ _) in *.
    assert (Hr1 : st r1 = leader /\ log r1 = log (N from) /\ commitIndex r1 = commitIndex (N from) /\
      lastApplied r1 = lastApplied (N from) /\ currentTerm r1 = currentTerm (N from)).
    { unfold r1. case_test; cbn; by split_and!. }
    destruct Hr1 as (Hs1 & Hl1 & Hc1 & Ha1 & Ht1).
    destruct (advanceCommitIndex_ok _ _ _ _ Hn1 Hs1) as (r' & E & Hn' & Hk & Ht').
    exists r'. split; [done|]. split; [|by eapply keeps_trans_fields].
    apply inv_local; [done|lia|done].
  - assert (Hset : forall nx, 1 <= nx <= PrevLogIndex args ->
      inv (upd N from (set_nextIndex (<[to := nx]> (nextIndex (N from))) (N from))) pl vs g).
    { intros nx Hnx. apply inv_local; [done|done|].
      pose proof (node_indexes _ _ _ _ to nx 0 Hf) as Hn. revert Hn. case_test; intros Hn.
      - open_node Hf. split; try done. cbn. intros _ q Hq Hqi. unfold mapget. rewrite lookup_insert.
        case_decide; [cbn; lia|]. by apply Nnext.
      - apply Hn; [lia|]. apply (ho_ack _ _ _ (inv_hist _ _ _ _ _ Hinv)). }
    case_test.
    + eexists; split; [done|]. split; [|done]. apply Hset.
      destruct (Hconf eq_refl ltac:(lia)). done.
    + destruct Hback as (li & -> & Hli); [done|done|lia|done|done|].
      cbn [mbind option_bind]. eexists; split; [done|]. split; [|done]. by apply Hset.
Qed.

(** [Start]: a leader appends the command at the end of its log. *)
Lemma Start_ok N pl vs g i c :
  inv N pl vs g ->
  exists r' idx t b g', Start c (N i) = Some (r', (idx, t, b)) /\
    inv (upd N i r') pl vs g' /\ keeps_committed (N i) r' /\
    (b = true -> i ∈ ps) /\ me r' = i /\ peers r' = ps /\ grows g g'.
Proof.
  intros Hinv. pose proof Hinv as [Hn Hh _ _]. pose proof (Hn i) as Hi. unfold Start.
  case_test.
  { eexists _, _, _, _, g. split; [done|]. split; [by apply inv_upd_idem|].
    split; [by eapply keeps_refl|]. split; [done|].
    split; [apply (no_me _ _ _ _ _ Hi)|]. split; [apply (no_peers _ _ _ _ _ Hi)|by apply grows_same]. }
  assert (Hst : st (N i) = leader) by done.
  destruct (log_ok_last _ _ (no_log _ _ _ _ _ Hi)) as (last & Hl & _ & Hli).
  rewrite Hl. cbn [mbind option_bind]. replace (Index last + 1) with (zlen (log (N i))) by lia.
  set (e := mkEntry (currentTerm (N i)) (zlen (log (N i))) c).
  set (r' := set_matchIndex _ _).
  assert (HLd : leads ps N g i r' e).
  2:{ eexists _, _, _, _, _. split; [done|]. split; [by eapply (inv_lead ps)|]. split; [by eapply keeps_app|].
      split; [intros _; apply (no_ps _ _ _ _ _ Hi); by rewrite Hst|].
      split; [apply (no_me _ _ _ _ _ Hi)|]. split; [apply (no_peers _ _ _ _ _ Hi)|by eapply grows_lead]. }
  destruct (no_lead _ _ _ _ _ Hi Hst) as [HL Hldr].
  destruct (ho_L _ _ _ Hh _ _ HL) as (Ht1 & _ & _ & _).
  split; cbn; try done.
  - apply (no_ps _ _ _ _ _ Hi). by rewrite Hst.
  - apply (no_me _ _ _ _ _ Hi).
  - apply (no_peers _ _ _ _ _ Hi).
  - intros p Hp Hpi. pose proof (no_next _ _ _ _ _ Hi Hst p Hp Hpi). rewrite zlen_snoc. lia.
  - intros p Hp Hpi. unfold mapget. rewrite (no_me _ _ _ _ _ Hi), lookup_insert_ne by done.
    by apply (no_match _ _ _ _ _ Hi).
  - destruct (ho_quorum _ _ _ Hh _ _ HL) as (Q & HQ & Hv). exists Q. split; [done|].
    intros j Hj. rewrite (Hv j Hj). by f_equal.
  - intros j. pose proof (log_ok_pos _ _ (no_log _ _ _ _ _ Hi)).
    destruct (decide (0 < ack g (j, currentTerm (N i)))) as [Ha|]; [|lia].
    apply (no_ack _ _ _ _ _ (Hn j)) in Ha as (_ & l & HL' & ?).
    assert (l = log (N i)) as -> by congruence. lia.
  - by right.
  - intros t0 l0 n Ht0 HL0 Hat Hn0. by eapply (ho_safe _ _ _ Hh).
Qed.

End handlers.
