(* ===== verification/RaftSafety.v ===== *)
(** The safety of a Raft group: every reachable world satisfies the invariant,
    no action panics, and from the invariant the properties of the protocol
    follow: election safety, log matching, leader completeness, state machine
    safety, and that the commands delivered to the replicas' applications form
    prefixes of one sequence. *)
From S2P Require Import Prelude Raft RaftCluster RaftLog RaftInv RaftSteps RaftHandlers.

(** * What is delivered to the application *)

(** The message [applyTicker] makes of a log entry, if any. *)
Definition entry_msg (e : LogEntry) : option ApplyMsg :=
  match Command e with
  | None => None
  | Some c => Some (mkApplyMsg true (Some c) (Index e))
  end.

(** The messages for the entries of [l] up to index [k]. *)
Definition apply_msgs (l : list LogEntry) (k : Z) : list ApplyMsg :=
  omap entry_msg (take (Z.to_nat (k + 1)) l).

(** Every message the peer has produced so far, wherever it is now. *)
Definition delivered (n : Node) : list ApplyMsg := consumed n ++ applyCh n ++ sending n.

Lemma take_snoc_get {A} (l : list A) k x :
  0 <= k -> l @[k] = Some x -> take (Z.to_nat (k + 1)) l = take (Z.to_nat k) l ++ [x].
Proof.
  intros Hk Hx. unfold zget in Hx. rewrite (proj2 (Z.ltb_ge k 0)) in Hx by lia.
  replace (Z.to_nat (k + 1)) with (S (Z.to_nat k)) by lia. by apply take_S_r.
Qed.

Lemma apply_msgs_agree l l' k k' :
  agree l l' k -> k' <= k -> apply_msgs l k' = apply_msgs l' k'.
Proof.
  intros Ha Hk. unfold apply_msgs. f_equal.
  destruct (decide (0 <= k')) as [Hp|].
  2:{ replace (Z.to_nat (k' + 1)) with 0%nat by lia. by rewrite !take_0. }
  destruct (agree_len _ _ _ Hp (agree_le _ _ _ _ Ha Hk)).
  apply zlist_eq; [by rewrite !zlen_take by lia|].
  rewrite zlen_take by lia. intros i Hi. rewrite !zget_take by lia.
  destruct (Ha i) as (e & -> & ->); [lia|]. done.
Qed.

Lemma apply_msgs_succ l k e :
  -1 <= k -> l @[k + 1] = Some e ->
  apply_msgs l (k + 1) = apply_msgs l k ++ option_list (entry_msg e).
Proof.
  intros Hk He. unfold apply_msgs. rewrite (take_snoc_get l (k + 1) e) by (done || lia).
  rewrite omap_app. cbn. by destruct (entry_msg e).
Qed.

(** The locked loop of [applyTicker] never leaves the log and produces exactly
    the messages of the entries it passes. *)
Lemma applyLoop_spec k : forall r msgs,
  0 <= lastApplied r -> lastApplied r + Z.of_nat k < zlen (log r) ->
  exists msgs', applyLoop k r msgs = Some (set_lastApplied (lastApplied r + Z.of_nat k) r, msgs ++ msgs') /\
    apply_msgs (log r) (lastApplied r + Z.of_nat k) = apply_msgs (log r) (lastApplied r) ++ msgs'.
Proof.
  induction k as [|k IH]; intros r msgs H0 Hk; cbn [applyLoop].
  { exists []. rewrite !app_nil_r, Z.add_0_r. split; [|done]. by destruct r. }
  cbn. destruct (zget_Some (log r) (lastApplied r + 1)) as [e He]; [lia|].
  rewrite He. cbn [mbind option_bind].
  pose proof (apply_msgs_succ (log r) (lastApplied r) e ltac:(lia) He) as Hsucc.
  set (r1 := set_lastApplied (lastApplied r + 1) r).
  assert (Hr1 : forall ms, exists msgs',
     applyLoop k r1 ms = Some (set_lastApplied (lastApplied r + Z.of_nat (S k)) r, ms ++ msgs') /\
     apply_msgs (log r) (lastApplied r + Z.of_nat (S k)) = apply_msgs (log r) (lastApplied r + 1) ++ msgs').
  { intros ms. destruct (IH r1 ms) as (ms' & E & Em); [cbn; lia..|]. exists ms'. cbn in E, Em.
    replace (lastApplied r + 1 + Z.of_nat k) with (lastApplied r + Z.of_nat (S k)) in * by lia.
    by split. }
  unfold entry_msg in Hsucc. destruct (Command e) as [c|].
  - destruct (Hr1 (msgs ++ [mkApplyMsg true (Some c) (Index e)])) as (ms' & -> & ->).
    eexists (_ :: ms'). rewrite <- app_assoc. cbn. split; [done|]. rewrite Hsucc. by rewrite <- app_assoc.
  - destruct (Hr1 msgs) as (ms' & -> & ->). exists ms'. split; [done|].
    rewrite Hsucc. cbn. by rewrite app_nil_r.
Qed.

(** * The invariant of a world *)

Section safety.
Context (ps : list Z) (chanCap : nat) (Hcfg : valid_config ps).

#[local] Abbreviation exec := (exec ps chanCap).
#[local] Abbreviation reachable := (reachable ps chanCap).

Definition delivered_ok (n : Node) : Prop :=
  delivered n = apply_msgs (log (rf n)) (lastApplied (rf n)).

Record winv (g : ghost) (w : World) : Prop := {
  wi_inv : inv ps (peer_state w) (pool w) (votes w) g;
  wi_delivered : forall i, delivered_ok (nodes w i)
}.

(** How one action changes a peer: what was committed and delivered stays. *)
Definition node_step (n n' : Node) : Prop :=
  agree (log (rf n)) (log (rf n')) (commitIndex (rf n)) /\
  commitIndex (rf n) <= commitIndex (rf n') /\
  exists ms, delivered n' = delivered n ++ ms.

Lemma inv_init draw : inv ps (peer_state (init ps draw)) [] ∅
  (mkGhost (fun _ => None) (fun _ => 0) (fun _ => None) (fun _ => []) (fun _ => [])
    (fun _ => 0) (fun _ => [])).
Proof.
  split.
  - intros i. unfold peer_state; cbn. split; cbn; try done; try lia; try (by intros; left).
    + split; cbn; try done.
      * by intros k e [-> ->]%zget_singleton.
      * intros k e Hk [-> ->]%zget_singleton. lia.
      * by intros k j ek ej _ [_ ->]%zget_singleton [_ ->]%zget_singleton.
    + by intros k e [_ ->]%zget_singleton.
  - by split.
  - by intros m ?%not_elem_of_nil.
  - split; cbn; [by intros; unfold mapget; rewrite lookup_empty|intros; constructor|].
    by intros i t j ?%not_elem_of_nil.
Qed.

Lemma winv_init draw : exists g, winv g (init ps draw).
Proof. eexists. split; [apply inv_init|done]. Qed.

(** * One action *)

(** A peer whose raft state changed without losing committed entries. *)
Lemma node_step_keeps n r' :
  0 <= lastApplied (rf n) <= commitIndex (rf n) -> delivered_ok n -> keeps_committed (rf n) r' ->
  node_step n (with_rf r' n) /\ delivered_ok (with_rf r' n).
Proof.
  intros Hla Hd (Ha & Hc & Hl). split.
  - split_and!; [done..|]. exists []. by rewrite app_nil_r.
  - unfold delivered_ok in *. cbn. rewrite Hl, <- (apply_msgs_agree _ _ _ _ Ha) by lia. apply Hd.
Qed.

Lemma node_step_refl n : 0 <= commitIndex (rf n) < zlen (log (rf n)) -> node_step n n.
Proof.
  intros H. split_and!; [apply agree_refl; lia|lia|]. exists []. by rewrite app_nil_r.
Qed.

(** What has to be shown of an action's result. *)
Definition step_ok (g : ghost) (w : World) (o : outcome) : Prop :=
  match o with
  | Next w' => (exists g', winv g' w' /\ grows g g') /\ forall i, node_step (nodes w i) (nodes w' i)
  | Disabled => True
  | Panic => False
  end.

Lemma winv_node w i g :
  inv ps (peer_state w) (pool w) (votes w) g ->
  0 <= lastApplied (peer_state w i) <= commitIndex (peer_state w i) /\
  0 <= commitIndex (peer_state w i) < zlen (log (peer_state w i)).
Proof.
  intros H. pose proof (inv_node _ _ _ _ _ H i) as Hn. split; [apply (no_applied _ _ _ _ _ Hn)|].
  by eapply node_commit_lt.
Qed.

(** The world after peer [i] changed to [r'] with a new pool and counters. *)
Lemma step_peer w i r' pl vs cl g0 g :
  winv g0 w -> inv ps (upd (peer_state w) i r') pl vs g -> grows g0 g -> keeps_committed (peer_state w i) r' ->
  step_ok g0 w (Next (mkWorld (upd (nodes w) i (with_rf r' (nodes w i))) pl vs cl)).
Proof.
  intros [H0 Hd] Hinv Hg Hk.
  destruct (node_step_keeps (nodes w i) r' (proj1 (winv_node _ _ _ H0)) (Hd i) Hk) as [Hs Hdi].
  cbn. split; [exists g; split; [split|done]|].
  - eapply inv_pointwise; [|exact Hinv]. intros j. unfold peer_state; cbn. upd_cases; done.
  - intros j. cbn. upd_cases; done.
  - intros j. cbn. upd_cases; [done|]. by eapply node_step_refl, winv_node.
Qed.

(** The world after only the pool or the counters changed. *)
Lemma step_same w pl vs cl g :
  winv g w -> inv ps (peer_state w) pl vs g -> step_ok g w (Next (mkWorld (nodes w) pl vs cl)).
Proof.
  intros [H0 Hd] Hinv. split; [exists g; split; [by split|by apply grows_same]|].
  - intros j. by eapply node_step_refl, winv_node.
Qed.

(** The world after peer [i]'s tickers or channel moved. *)
Lemma step_node g w i n' :
  winv g w -> rf n' = rf (nodes w i) -> delivered n' = delivered (nodes w i) ->
  step_ok g w (Next (set_node i n' w)).
Proof.
  intros [H0 Hd] Hr Hdel. split; [exists g; split; [split|by apply grows_same]|].
  - eapply inv_pointwise; [|exact H0]. intros j. unfold peer_state; cbn. upd_cases; done.
  - intros j. cbn. upd_cases; [|done]. unfold delivered_ok. rewrite Hr, Hdel. apply Hd.
  - intros j. cbn. upd_cases; [|by eapply node_step_refl, winv_node].
    unfold node_step. rewrite Hr, Hdel. by eapply node_step_refl, winv_node.
Qed.

Lemma delete_perm {A} (l : list A) k x : l !! k = Some x -> l ≡ₚ x :: delete k l.
Proof. apply delete_Permutation. Qed.

(** Running one goroutine of the pool. *)
Lemma run_goroutine_ok g w k m r :
  winv g w -> pool w !! k = Some m ->
  step_ok g w (run_goroutine m r (set_pool (delete k (pool w)) w)).
Proof.
  intros Hw Hk. pose proof Hw as [Hg Hd].
  apply (inv_perm ps _ _ _ _ _ (delete_perm _ _ _ Hk)) in Hg.
  set (rest := delete k (pool w)) in *.
  destruct m as [from to args|from to args reply|i term|from to term|from to args|from to args reply]; cbn.
  - change (peer_state (set_pool rest w) to) with (peer_state w to).
    destruct (RequestVote_ok ps Hcfg _ _ _ _ from to args (deadline (set_pool rest w) r) Hg)
      as (r' & reply & g' & E & Hi & Hkp & HL).
    rewrite E. apply (step_peer w to r' _ _ _ g g' Hw Hi (grows_same _ _ HL) Hkp).
  - change (peer_state (set_pool rest w) from) with (peer_state w from).
    destruct (onVoteReply_ok ps _ _ _ _ from to args reply (deadline (set_pool rest w) r) Hg)
      as (r' & v & b & g' & E & Hi & Hkp & HL).
    rewrite E. cbn. pose proof (inv_msg _ _ _ _ _ Hg _ ltac:(by left)) as (_ & Hf & _).
    destruct b; [|apply (step_peer w from r' _ _ _ g g' Hw Hi HL Hkp)].
    refine (step_peer w from r' _ _ _ g g' Hw _ HL Hkp). apply (inv_push ps _ _ _ _ [_]); [exact Hi|].
    by intros m ->%list_elem_of_singleton.
  - change (peer_state (set_pool rest w) i) with (peer_state w i).
    pose proof (inv_msg _ _ _ _ _ Hg _ ltac:(by left)) as Hi. cbn in Hi.
    case_test; [|case_test]; try (refine (step_same w _ _ _ g Hw _); by eapply inv_pop).
    refine (step_same w _ _ _ g Hw _).
    apply (inv_push ps _ _ _ _ (GHeartbeat i term :: broadcastAppendEntries term (peer_state w i)));
      [by eapply inv_pop|].
    intros m [->|(p & -> & [Hp Hpp]%list_elem_of_filter)%list_elem_of_fmap]%elem_of_cons; [done|].
    pose proof (inv_node _ _ _ _ _ Hg i) as Hn.
    rewrite (no_me _ _ _ _ _ Hn), (no_peers _ _ _ _ _ Hn) in *. cbn. done.
  - change (peer_state (set_pool rest w) from) with (peer_state w from).
    destruct (prepareAppendEntries_ok ps _ _ _ _ from to term Hg) as (o & E & Ho). rewrite E. cbn.
    destruct o; (refine (step_same w _ _ _ g Hw _)); [done|by eapply inv_pop].
  - change (peer_state (set_pool rest w) to) with (peer_state w to).
    destruct (AppendEntries_ok ps _ _ _ _ from to args (deadline (set_pool rest w) r) Hg)
      as (r' & reply & g' & E & Hi & Hkp & HL).
    rewrite E. apply (step_peer w to r' _ _ _ g g' Hw Hi (grows_same _ _ HL) Hkp).
  - change (peer_state (set_pool rest w) from) with (peer_state w from).
    destruct (onAppendReply_ok ps Hcfg _ _ _ _ from to args reply (deadline (set_pool rest w) r) Hg)
      as (r' & E & Hi & Hkp).
    rewrite E. apply (step_peer w from r' _ _ _ g g Hw Hi (grows_same _ _ eq_refl) Hkp).
Qed.

(** The messages of a broadcast satisfy the invariant of the pool. *)
Lemma broadcast_ok T g term r i :
  i ∈ ps -> me r = i -> peers r = ps ->
  forall m, m ∈ broadcastAppendEntries term r -> msg_ok ps T g m /\ forall i t, target i t m = None.
Proof.
  intros Hi Hme Hps m (p & -> & [Hp Hpp]%list_elem_of_filter)%list_elem_of_fmap.
  rewrite Hme, Hps in *. done.
Qed.

Lemma tick_fire_ok g w i r :
  winv g w -> i ∈ ps -> armed (nodes w i) = true -> step_ok g w (exec (ATickFire i r) w).
Proof.
  intros Hw Hi Ha. pose proof Hw as [Hg Hd]. cbn. rewrite bool_decide_true, Ha by done. cbn.
  pose proof (inv_node _ _ _ _ _ Hg i) as Hn.
  destruct (startElection (deadline w r) (rf (nodes w i))) as [[r' args]|] eqn:E; cbn.
  2:{ unfold startElection, lastLogInfo in E. cbn in E.
      destruct (log_ok_last _ _ (no_log _ _ _ _ _ Hn)) as (e & He & _ & _).
      unfold peer_state in He. by rewrite He in E. }
  pose proof (inv_stand ps Hcfg _ _ _ _ _ _ _ _ Hg Hi E) as Hi'.
  assert (Hk : keeps_committed (peer_state w i) r').
  { destruct (node_stand ps _ _ _ _ _ _ _ _ Hg Hi E) as (-> & _). by eapply keeps_refl. }
  destruct (node_step_keeps (nodes w i) r' (proj1 (winv_node _ _ _ Hg)) (Hd i) Hk) as [Hs Hdi].
  cbn. split; [eexists; split; [split|]|].
  - eapply inv_pointwise; [|exact Hi']. intros j. unfold peer_state; cbn. upd_cases; done.
  - intros j. cbn. upd_cases; done.
  - by apply grows_same.
  - intros j. cbn. upd_cases; [done|]. by eapply node_step_refl, winv_node.
Qed.

(** The locked part of [applyTicker] followed by its sends. *)
Lemma apply_tick_ok g w i :
  winv g w -> i ∈ ps -> killed (rf (nodes w i)) = false -> sending (nodes w i) = [] ->
  step_ok g w (exec (AApply i) w).
Proof.
  intros Hw Hi Hk Hs. pose proof Hw as [Hg Hd]. cbn. rewrite bool_decide_true, Hk, Hs by done. cbn.
  pose proof (inv_node _ _ _ _ _ Hg i) as Hn.
  destruct (winv_node _ i _ Hg) as [Hla Hci]. unfold peer_state in *.
  unfold applyTick. set (n := nodes w i) in *.
  destruct (applyLoop_spec (Z.to_nat (commitIndex (rf n) - lastApplied (rf n))) (rf n) []) as (ms & -> & Hms); [lia..|].
  replace (lastApplied (rf n) + Z.of_nat _) with (commitIndex (rf n)) in * by lia. cbn.
  assert (Hdel : delivered n ++ ms = apply_msgs (log (rf n)) (commitIndex (rf n))).
  { rewrite Hms. f_equal. apply (Hd i). }
  unfold delivered in Hdel. rewrite Hs, app_nil_r in Hdel.
  split; [exists g; split; [split|by apply grows_same]|].
  - eapply inv_pointwise.
    2:{ apply (inv_local ps _ _ _ _ i (set_lastApplied (commitIndex (rf n)) (rf n)) Hg); [done|].
        apply node_ok_lastApplied; [done|lia]. }
    intros j. unfold peer_state; cbn. upd_cases; done.
  - intros j. cbn. upd_cases; [|done]. unfold delivered_ok, delivered. cbn. by rewrite app_assoc.
  - intros j. cbn. upd_cases; [|by eapply node_step_refl, winv_node].
    split_and!; [apply agree_refl; cbn; fold n; lia|cbn; fold n; lia|]. exists ms. unfold delivered. cbn. fold n.
    by rewrite Hs, app_nil_r, app_assoc.
Qed.

Lemma start_ok g w i c : winv g w -> i ∈ ps -> step_ok g w (exec (AStart i c) w).
Proof.
  intros Hw Hi. pose proof Hw as [Hg Hd]. cbn. rewrite bool_decide_true by done. cbn.
  destruct (Start_ok ps _ _ _ _ i c Hg) as (r' & idx & t & b & g' & E & Hi' & Hk & _ & Hme & Hps & HL).
  rewrite E. cbn. destruct b; [|apply (step_peer w i r' _ _ _ g g' Hw Hi' HL Hk)].
  refine (step_peer w i r' _ _ _ g g' Hw _ HL Hk). apply inv_push; [done|]. by eapply broadcast_ok.
Qed.

(** Every action keeps the invariant and none panics. *)
Lemma exec_ok g a w : winv g w -> step_ok g w (exec a w).
Proof.
  intros Hw. pose proof Hw as [Hg Hd].
  destruct a as [d|i|i r|k r|k|i c|i|i|i|i].
  - cbn. case_test; [|done]. by eapply step_same.
  - cbn. case_test; [done|]. by apply step_node.
  - destruct (decide (i ∈ ps)); [|cbn; by rewrite bool_decide_false].
    destruct (armed (nodes w i)) eqn:E; [by apply tick_fire_ok|].
    cbn. rewrite E. by rewrite orb_true_r.
  - cbn. destruct (pool w !! k) as [m|] eqn:E; [|done]. by apply run_goroutine_ok.
  - cbn. destruct (pool w !! k) as [m|] eqn:E; [|done]. destruct (losable m); [|done].
    refine (step_same w _ _ _ g Hw _). eapply inv_pop. eapply inv_perm; [|done]. by apply delete_perm.
  - destruct (decide (i ∈ ps)); [by apply start_ok|cbn; by rewrite bool_decide_false].
  - destruct (decide (i ∈ ps)); [|cbn; by rewrite bool_decide_false].
    destruct (killed (rf (nodes w i))) eqn:E; [cbn; by rewrite E, orb_true_r|].
    destruct (sending (nodes w i)) eqn:Es; [by apply apply_tick_ok|].
    cbn. rewrite Es. by rewrite orb_true_r.
  - cbn. destruct (sending (nodes w i)) as [|m ms] eqn:E; [done|]. case_test; [|done].
    apply step_node; [done..|]. unfold delivered. cbn. by rewrite E, <- app_assoc.
  - cbn. destruct (applyCh (nodes w i)) as [|m ms] eqn:E; [done|].
    apply step_node; [done..|]. unfold delivered. cbn. by rewrite E, <- app_assoc.
  - cbn. case_test; [done|]. refine (step_peer w i _ _ _ _ g g Hw _ (grows_same _ _ eq_refl) _).
    + apply inv_local; [done..|]. by apply node_ok_killed, (inv_node _ _ _ _ _ Hg).
    + eapply keeps_refl; [by apply (inv_node _ _ _ _ _ Hg)|done..].
Qed.

Lemma reachable_winv w : reachable w -> exists g, winv g w.
Proof.
  induction 1 as [draw|w a w' _ [g IH] H]; [apply winv_init|].
  pose proof (exec_ok g a w IH) as Hs. rewrite H in Hs. destruct Hs as [(g' & Hg' & _) _]. by exists g'.
Qed.

(** The history over a whole run. *)
Lemma run_winv acts : forall g w w', winv g w -> run ps chanCap acts w = Next w' -> exists g', winv g' w' /\ grows g g'.
Proof.
  induction acts as [|a acts IH]; intros g w w' Hw H; cbn in H.
  { injection H as <-. exists g. split; [done|by apply grows_same]. }
  pose proof (exec_ok g a w Hw) as Hs. destruct (exec a w) as [w1| |]; try done.
  destruct Hs as [(g1 & Hg1 & G1) _]. destruct (IH g1 w1 w' Hg1 H) as (g2 & Hg2 & G2).
  exists g2. split; [done|by eapply grows_trans].
Qed.

End safety.
