(* ===== verification/RaftTheorems.v ===== *)
(** The properties of a Raft group, read off the invariant of [RaftSafety]. *)
From S2P Require Import Prelude Raft RaftCluster RaftLog RaftInv RaftSteps RaftHandlers RaftSafety.

(** * A concrete run

    Three peers: peer 0 times out, is elected by peer 1, appends a command,
    replicates it to peer 1, commits it and hands it to its application. *)
Definition trio : list Z := [0; 1; 2].

Definition election : list Action :=
  [ATime 700000000; ATickCheck 0; ATickFire 0 5; ARun 0 1; ARun 0 1].

Definition commit_one : list Action :=
  election ++ [AStart 0 (Some (CInt 7)); ARun 0 0; ARun 0 0; ARun 0 0;
               AApply 0; ASendMsg 0; AConsume 0].

(** The leader's next heartbeat makes peer 1 commit and deliver it too. *)
Definition commit_both : list Action :=
  commit_one ++ [ARun 1 0; ARun 1 0; ARun 0 0; AApply 1; ASendMsg 1; AConsume 1].

(** The world at the end of a run, or the initial one when it gets stuck. *)
Definition after (acts : list Action) : World :=
  match run trio 100 acts (init trio (fun _ => 0)) with
  | Next w => w
  | _ => init trio (fun _ => 0)
  end.

Lemma trio_valid : valid_config trio.
Proof.
  split; [|repeat constructor; lia].
  repeat (constructor; [rewrite ?elem_of_cons, elem_of_nil; lia|]). constructor.
Qed.

Lemma after_reachable acts : reachable trio 100 (after acts).
Proof.
  unfold after. destruct (run trio 100 acts _) eqn:E; [|constructor..].
  eapply run_reachable; [|exact E]. constructor.
Qed.

Definition succeeds (o : outcome) : bool := match o with Next _ => true | _ => false end.

Lemma run_app ps chanCap a b w :
  run ps chanCap (a ++ b) w =
  match run ps chanCap a w with Next w' => run ps chanCap b w' | o => o end.
Proof.
  revert w; induction a as [|x a IH]; cbn; intros w; [done|]. by destruct (exec _ _ x w).
Qed.

Lemma after_run a b :
  succeeds (run trio 100 (a ++ b) (init trio (fun _ => 0))) = true ->
  run trio 100 b (after a) = Next (after (a ++ b)).
Proof.
  unfold after. rewrite run_app. destruct (run trio 100 a _) as [w| |]; [|done..].
  by destruct (run trio 100 b w).
Qed.

Lemma run_one ps chanCap a w w' : run ps chanCap [a] w = Next w' -> exec ps chanCap a w = Next w'.
Proof. cbn. by destruct (exec ps chanCap a w). Qed.

(** * Consequences of the invariant *)

Section theorems.
Context (ps : list Z) (chanCap : nat).

Lemma reachable_inv w :
  valid_config ps -> reachable ps chanCap w ->
  exists g, inv ps (peer_state w) (pool w) (votes w) g.
Proof. intros Hv Hr. destruct (reachable_winv ps chanCap Hv w Hr) as [g [Hg _]]. by exists g. Qed.

(** Committed prefixes of any two peers agree. *)
Lemma committed_agree T g i j ri rj :
  hist_ok ps T g -> node_ok ps T g i ri -> node_ok ps T g j rj ->
  agree (log ri) (log rj) (commitIndex ri `min` commitIndex rj).
Proof.
  intros Hh Hi Hj.
  pose proof (node_commit_lt _ _ _ _ _ Hi). pose proof (node_commit_lt _ _ _ _ _ Hj).
  assert (Hz : agree (log ri) (log rj) 0).
  { intros k Hk. assert (k = 0) as -> by lia. exists sentinel.
    split; [apply (lo_sent _ _ (no_log _ _ _ _ _ Hi))|apply (lo_sent _ _ (no_log _ _ _ _ _ Hj))]. }
  destruct (no_commit _ _ _ _ _ Hi) as [->|(ti & ni & li & Hti & HLi & Hati & Hchi & Hki & Hai)].
  { eapply agree_le; [done|lia]. }
  destruct (no_commit _ _ _ _ _ Hj) as [->|(tj & nj & lj & Htj & HLj & Hatj & Hchj & Hkj & Haj)].
  { eapply agree_le; [done|lia]. }
  set (k := commitIndex ri `min` commitIndex rj).
  assert (Hij : agree li lj k).
  { pose proof (agree_len _ _ (commitIndex ri) ltac:(lia) Hai).
    pose proof (agree_len _ _ (commitIndex rj) ltac:(lia) Haj).
    destruct (Z.lt_trichotomy ti tj) as [Hlt|[->|Hgt]].
    - destruct (ho_safe _ _ _ Hh ti tj li lj ni) as [Hb|Hs]; [lia|done|done|done|lia| |].
      + destruct (chosen_not_blocked _ _ _ _ _ Hchi Hb).
      + apply agree_sym. eapply agree_le; [exact Hs|lia].
    - assert (li = lj) as -> by congruence. apply agree_refl. lia.
    - destruct (ho_safe _ _ _ Hh tj ti lj li nj) as [Hb|Hs]; [lia|done|done|done|lia| |].
      + destruct (chosen_not_blocked _ _ _ _ _ Hchj Hb).
      + eapply agree_le; [exact Hs|lia]. }
  eapply agree_trans; [eapply agree_le; [exact Hai|lia]|].
  eapply agree_trans; [exact Hij|]. apply agree_sym. eapply agree_le; [exact Haj|lia].
Qed.

Lemma committed_agree_world w i j :
  valid_config ps -> reachable ps chanCap w ->
  agree (log (peer_state w i)) (log (peer_state w j))
    (commitIndex (peer_state w i) `min` commitIndex (peer_state w j)).
Proof.
  intros Hv Hr. destruct (reachable_inv w Hv Hr) as [g [Hn Hh _ _]].
  by eapply committed_agree.
Qed.

(** Messages up to an index of one log are a prefix of those up to a later one. *)
Lemma apply_msgs_le l k k' : k <= k' -> apply_msgs l k `prefix_of` apply_msgs l k'.
Proof.
  intros Hk. unfold apply_msgs.
  replace (Z.to_nat (k' + 1)) with (Z.to_nat (k + 1) + (Z.to_nat (k' + 1) - Z.to_nat (k + 1)))%nat by lia.
  rewrite <- take_take_drop, omap_app. by eexists.
Qed.

End theorems.

(** C5: Panic freedom.  No action of any peer in a reachable state panics: every
    slice index of the vote, replication, commit and apply code is in range. *)
Theorem raft_never_panics (ps : list Z) (chanCap : nat) (w : World) (a : Action) :
  valid_config ps -> reachable ps chanCap w -> exec ps chanCap a w <> Panic.
Proof.
  intros Hv Hr E. destruct (reachable_winv ps chanCap Hv w Hr) as [g Hg].
  pose proof (exec_ok ps chanCap Hv g a w Hg) as H. by rewrite E in H.
Qed.

Lemma raft_never_panics_witness : exec trio 100 (ARun 1 0) (after commit_one) <> Panic.
Proof. apply (raft_never_panics trio 100 _ _ trio_valid (after_reachable _)). Defined.

(** What a peer leads it leads alone, also over time. *)
Lemma leads_alone ps chanCap w acts w' i j :
  valid_config ps -> reachable ps chanCap w -> run ps chanCap acts w = Next w' ->
  st (peer_state w i) = leader -> st (peer_state w' j) = leader ->
  currentTerm (peer_state w i) = currentTerm (peer_state w' j) -> i = j.
Proof.
  intros Hv Hr Hrun Hi Hj Ht. destruct (reachable_winv ps chanCap Hv w Hr) as [g Hg].
  destruct (run_winv ps chanCap Hv _ _ _ _ Hg Hrun) as (g' & Hg' & G).
  destruct (no_lead _ _ _ _ _ (inv_node _ _ _ _ _ (wi_inv _ _ _ Hg) i) Hi) as [HL <-].
  destruct (no_lead _ _ _ _ _ (inv_node _ _ _ _ _ (wi_inv _ _ _ Hg') j) Hj) as [_ <-].
  destruct (G _ _ HL) as [_ E]. by rewrite <- E, Ht.
Qed.

(** C3: Election safety.  At most one peer ever leads a term: peers that lead the
    same term, at the same time or one before the other, are the same. *)
Theorem election_safety (ps : list Z) (chanCap : nat) (w w' : World) (acts : list Action) (i j : Z) :
  valid_config ps -> reachable ps chanCap w -> run ps chanCap acts w = Next w' ->
  st (peer_state w i) = leader -> st (peer_state w' j) = leader ->
  currentTerm (peer_state w i) = currentTerm (peer_state w' j) -> i = j.
Proof. apply leads_alone. Qed.

Lemma election_safety_witness :
  (st (peer_state (after election) 0) = leader /\ currentTerm (peer_state (after commit_one) 0) = 1) /\ 0 = 0.
Proof.
  split; [split; reflexivity|].
  apply (election_safety trio 100 (after election) (after commit_one)
    [AStart 0 (Some (CInt 7)); ARun 0 0; ARun 0 0; ARun 0 0; AApply 0; ASendMsg 0; AConsume 0] 0 0 trio_valid (after_reachable _));
    [apply after_run; vm_compute; reflexivity|reflexivity..].
Defined.

(** C21: Log matching.  If two peers' logs hold entries of the same term at the
    same index, the logs are identical up to that index. *)
Theorem log_matching (ps : list Z) (chanCap : nat) (w : World) (i j k : Z) (ei ej : LogEntry) :
  valid_config ps -> reachable ps chanCap w ->
  (log (peer_state w i)) @[k] = Some ei -> (log (peer_state w j)) @[k] = Some ej ->
  Term ei = Term ej -> agree (log (peer_state w i)) (log (peer_state w j)) k.
Proof.
  intros Hv Hr Hi Hj Ht. destruct (reachable_inv ps chanCap w Hv Hr) as [g [Hn _ _ _]].
  by eapply log_ok_match; [apply (no_log _ _ _ _ _ (Hn i))|apply (no_log _ _ _ _ _ (Hn j))|..].
Qed.

Lemma log_matching_witness :
  agree (log (peer_state (after commit_one) 0)) (log (peer_state (after commit_one) 1)) 2.
Proof.
  apply (log_matching trio 100 (after commit_one) 0 1 2 (mkEntry 1 2 (Some (CInt 7)))
           (mkEntry 1 2 (Some (CInt 7))) trio_valid (after_reachable _)); reflexivity.
Defined.

(** C4: Leader completeness.  A leader's log contains everything that any peer of
    the same or an earlier term has committed. *)
Theorem leader_completeness (ps : list Z) (chanCap : nat) (w : World) (i j : Z) :
  valid_config ps -> reachable ps chanCap w ->
  st (peer_state w j) = leader -> currentTerm (peer_state w i) <= currentTerm (peer_state w j) ->
  agree (log (peer_state w i)) (log (peer_state w j)) (commitIndex (peer_state w i)).
Proof.
  intros Hv Hr Hj Ht. destruct (reachable_inv ps chanCap w Hv Hr) as [g [Hn Hh _ _]].
  destruct (no_lead _ _ _ _ _ (Hn j) Hj) as [HL _].
  destruct (leader_has_committed _ _ _ _ _ _ _ _ Hh (no_commit _ _ _ _ _ (Hn i)) Ht HL)
    as [->|(t0 & n & l0 & _ & _ & _ & _ & _ & Ha & Hb)].
  - intros k Hk. assert (k = 0) as -> by lia. exists sentinel.
    split; [apply (lo_sent _ _ (no_log _ _ _ _ _ (Hn i)))|apply (lo_sent _ _ (no_log _ _ _ _ _ (Hn j)))].
  - eauto using agree_trans, agree_sym.
Qed.

Lemma leader_completeness_witness :
  commitIndex (peer_state (after commit_both) 1) = 2 /\
  agree (log (peer_state (after commit_both) 1)) (log (peer_state (after commit_both) 0))
    (commitIndex (peer_state (after commit_both) 1)).
Proof.
  split; [reflexivity|].
  apply (leader_completeness trio 100 (after commit_both) 1 0 trio_valid (after_reachable _));
    [reflexivity|vm_compute; discriminate].
Defined.

Lemma prefix_comparable {A} (l1 l2 l : list A) :
  l1 `prefix_of` l -> l2 `prefix_of` l -> l1 `prefix_of` l2 \/ l2 `prefix_of` l1.
Proof. apply prefix_weak_total. Qed.

(** What a peer has produced for its application is a prefix of the messages of
    its committed log. *)
Lemma delivered_committed ps chanCap w i :
  valid_config ps -> reachable ps chanCap w ->
  delivered (nodes w i) `prefix_of` apply_msgs (log (peer_state w i)) (commitIndex (peer_state w i)).
Proof.
  intros Hv Hr. destruct (reachable_winv ps chanCap Hv w Hr) as [g [Hg Hd]].
  rewrite (Hd i). apply apply_msgs_le. apply (no_applied _ _ _ _ _ (inv_node _ _ _ _ _ Hg i)).
Qed.

(** What two applications have consumed. *)
Lemma consumed_agree ps chanCap w i j :
  valid_config ps -> reachable ps chanCap w ->
  consumed (nodes w i) `prefix_of` consumed (nodes w j) \/ consumed (nodes w j) `prefix_of` consumed (nodes w i).
Proof.
  intros Hv Hr. pose proof (committed_agree_world ps chanCap w i j Hv Hr) as Ha.
  assert (Hc : forall k, consumed (nodes w k) `prefix_of`
    apply_msgs (log (peer_state w k)) (commitIndex (peer_state w k))).
  { intros k. transitivity (delivered (nodes w k)); [by eexists|by eapply delivered_committed]. }
  pose proof (Hc i) as Hi. pose proof (Hc j) as Hj.
  destruct (Z.le_ge_cases (commitIndex (peer_state w i)) (commitIndex (peer_state w j))).
  - rewrite (apply_msgs_agree _ _ _ _ Ha) in Hi by lia.
    eapply prefix_comparable; [|exact Hj]. etransitivity; [exact Hi|]. by apply apply_msgs_le.
  - rewrite <- (apply_msgs_agree _ _ _ _ Ha) in Hj by lia.
    eapply prefix_comparable; [exact Hi|]. etransitivity; [exact Hj|]. by apply apply_msgs_le.
Qed.

(** Agreement of the applications.  The sequences of commands that the
    applications of any two peers have consumed from their apply channels are
    prefixes of one another: replicas apply the same commands in the same order,
    without gaps, and differ only in how far they are. *)
Lemma consumed_comparable (ps : list Z) (chanCap : nat) (w : World) (i j : Z) :
  valid_config ps -> reachable ps chanCap w ->
  consumed (nodes w i) `prefix_of` consumed (nodes w j) \/
  consumed (nodes w j) `prefix_of` consumed (nodes w i).
Proof. apply consumed_agree. Qed.

(** How a peer changes over a whole run: committed entries stay, the commit
    index and what was delivered only grow. *)
Lemma run_node_step ps chanCap acts : forall w w' i,
  valid_config ps -> reachable ps chanCap w -> run ps chanCap acts w = Next w' ->
  node_step (nodes w i) (nodes w' i).
Proof.
  induction acts as [|a acts IH]; intros w w' i Hv Hr H.
  - injection H as <-. destruct (reachable_inv ps chanCap w Hv Hr) as [g Hg].
    apply node_step_refl. by eapply winv_node.
  - cbn in H. destruct (exec ps chanCap a w) as [w1| |] eqn:E; try done.
    destruct (reachable_winv ps chanCap Hv w Hr) as [g Hg]. pose proof (exec_ok ps chanCap Hv g a w Hg) as Hs.
    rewrite E in Hs. destruct Hs as [_ Hs]. destruct (Hs i) as (A1 & C1 & m1 & D1).
    destruct (IH w1 w' i Hv) as (A2 & C2 & m2 & D2); [by eapply reach_step|done|].
    split_and!; [|lia|].
    + eapply agree_trans; [exact A1|]. eapply agree_le; [exact A2|done].
    + exists (m1 ++ m2). by rewrite D2, D1, app_assoc.
Qed.

(** C1: State machine safety.  Under any interleaving of RPCs, losses, duplicated
    tickers, elections, client commands and kills, an entry (term, index and
    command) that one peer considers committed is the entry at that index of
    every peer that considers the index committed, then or at any later time; no
    commit index decreases, and what a peer handed to its application is only
    extended. *)
Theorem state_machine_safety (ps : list Z) (chanCap : nat) (acts : list Action) (w w' : World) (i : Z) :
  valid_config ps -> reachable ps chanCap w -> run ps chanCap acts w = Next w' ->
  (forall j k, 0 <= k <= commitIndex (peer_state w i) -> k <= commitIndex (peer_state w' j) ->
     exists e, (log (peer_state w i)) @[k] = Some e /\ (log (peer_state w' j)) @[k] = Some e) /\
  commitIndex (peer_state w i) <= commitIndex (peer_state w' i) /\
  delivered (nodes w i) `prefix_of` delivered (nodes w' i).
Proof.
  intros Hv Hr E. destruct (run_node_step ps chanCap acts w w' i Hv Hr E) as (Ha & Hc & Hd). split_and!; [|done|done].
  unfold peer_state in *. intros j k Hk Hj. destruct (Ha k) as (e & He & He'); [lia|]. exists e. split; [done|].
  destruct (committed_agree_world ps chanCap w' i j Hv (run_reachable _ _ _ _ _ Hr E) k) as (e2 & H1 & H2); [unfold peer_state; lia|].
  unfold peer_state in *. congruence.
Qed.

Lemma state_machine_safety_witness :
  (log (peer_state (after commit_one) 0)) @[2] = Some (mkEntry 1 2 (Some (CInt 7))) /\
  exists e, (log (peer_state (after commit_one) 0)) @[2] = Some e /\
            (log (peer_state (after commit_both) 1)) @[2] = Some e.
Proof.
  split; [reflexivity|].
  apply (state_machine_safety trio 100 [ARun 1 0; ARun 1 0; ARun 0 0; AApply 1; ASendMsg 1; AConsume 1] (after commit_one) (after commit_both) 0 trio_valid (after_reachable _));
    [apply after_run; vm_compute; reflexivity|vm_compute; split; discriminate|vm_compute; discriminate].
Defined.
