(* ===== verification/RaftProgress.v ===== *)
(** Progress of a Raft group and the properties of single operations.

    First what every operation guarantees of the peer it changes whatever the
    state ([raft_step]); then that an elected leader keeps a heartbeat loop
    running, and that its heartbeats bring any follower's log up to date within
    a bounded number of rounds. *)
From S2P Require Import Prelude Raft RaftCluster RaftLog RaftInv RaftSteps RaftHandlers RaftSafety RaftTheorems.

(** * Steps of one peer

    What every operation guarantees of the peer it changes, whatever state the
    peer is in. *)
Record raft_step (r r' : Raft) : Prop := {
  rs_term : currentTerm r <= currentTerm r';
  rs_vote : currentTerm r' = currentTerm r -> votedFor r <> -1 -> votedFor r' = votedFor r;
  rs_log : st r' = follower \/ log r `prefix_of` log r';
  rs_killed : killed r = true -> killed r' = true
}.

(** Steps other than winning an election do not make a leader. *)
Definition no_new_leader (r r' : Raft) : Prop :=
  st r' = leader -> st r = leader /\ currentTerm r' = currentTerm r /\ log r `prefix_of` log r'.

Lemma raft_step_refl r : raft_step r r.
Proof. split; try done. by right. Qed.

Lemma no_new_leader_refl r : no_new_leader r r.
Proof. by intros H. Qed.

Create HintDb raft.
#[local] Hint Resolve raft_step_refl no_new_leader_refl : raft.

Lemma becomeFollower_step t dl r :
  currentTerm r < t -> raft_step r (becomeFollower t dl r) /\ no_new_leader r (becomeFollower t dl r).
Proof. intros H. split; [split; cbn; try done; [lia|lia|by left]|done]. Qed.

Lemma RequestVote_step args dl r r' reply :
  RequestVote args dl r = Some (r', reply) -> raft_step r r' /\ no_new_leader r r'.
Proof.
  unfold RequestVote. intros H.
  set (rf1 := if currentTerm r <? VTerm args then becomeFollower (VTerm args) dl r else r) in *.
  assert (H1 : raft_step r rf1 /\ no_new_leader r rf1).
  { subst rf1. case_test; [by apply becomeFollower_step|auto with raft]. }
  case_test_in H; [by injection H as <- <-|].
  destruct (lastLogInfo rf1) as [[li lt]|]; [|done]. cbn in H.
  case_test_in H; injection H as <- <-; [|done].
  destruct H1 as [[R1 R2 R3 R4] N]. split; [|exact N].
  split; cbn; try done. intros Ht Hv. specialize (R2 Ht Hv). lia.
Qed.

Lemma AppendEntries_step args dl r r' reply :
  AppendEntries args dl r = Some (r', reply) -> raft_step r r' /\ no_new_leader r r'.
Proof.
  unfold AppendEntries. intros H.
  set (rf1 := if currentTerm r <? ATerm args then becomeFollower (ATerm args) dl r else r) in *.
  assert (H1 : raft_step r rf1 /\ no_new_leader r rf1).
  { subst rf1. case_test; [by apply becomeFollower_step|auto with raft]. }
  case_test_in H; [by injection H as <- <-|]. cbn zeta in H.
  set (rf2 := resetElectionTimer dl (set_st follower rf1)) in *.
  assert (Hf : forall r', currentTerm r' = currentTerm rf1 -> votedFor r' = votedFor rf1 ->
    killed r' = killed rf1 -> st r' = follower -> raft_step r r' /\ no_new_leader r r').
  { intros q Ht Hv Hk Hs. destruct H1 as [[R1 R2 R3 R4] N].
    split; [split; [by rewrite Ht|by rewrite Ht, Hv|by left|by rewrite Hk]|]. intros E. by rewrite Hs in E. }
  destruct (lastEntry (log rf2)); [|done]. cbn [mbind option_bind] in H.
  case_test_in H; [injection H as <- <-; by apply Hf|].
  destruct ((log rf2) @[_]); [|done]. cbn [mbind option_bind] in H.
  case_test_in H.
  { destruct (conflictStart _ _ _); [|done]. injection H as <- <-. by apply Hf. }
  destruct (truncateConflict _ _ _) as [l1|]; [|done]. cbn [mbind option_bind] in H.
  destruct (appendMissing _ _ _) as [l2|]; [|done]. cbn [mbind option_bind] in H.
  destruct (lastEntry l2) as [ln|]; [|done]. cbn [mbind option_bind] in H.
  injection H as <- <-. repeat case_test; by apply Hf.
Qed.

(** A step that leaves everything but the leader's bookkeeping alone. *)
Lemma same_step r r' x :
  currentTerm r' = currentTerm r -> votedFor r' = votedFor r -> killed r' = killed r ->
  st r' = st r -> log r' = log r ++ x -> raft_step r r' /\ no_new_leader r r'.
Proof.
  intros Ht Hv Hk Hs Hl. split; [split|].
  - lia.
  - by intros; rewrite Hv.
  - right. rewrite Hl. by eexists.
  - by rewrite Hk.
  - intros E. rewrite <- Hs, Hl. split_and!; [done..|]. by eexists.
Qed.

Lemma onVoteReply_step term reply votes dl r r' v b :
  onVoteReply term reply votes dl r = Some (r', v, b) ->
  raft_step r r' /\ (b = false -> no_new_leader r r') /\ (b = true -> currentTerm r' = currentTerm r).
Proof.
  unfold onVoteReply. intros H.
  case_test_in H.
  { injection H as <- <- <-. pose proof (becomeFollower_step (VRTerm reply) dl r ltac:(lia)) as [? ?]. done. }
  assert (Hid : raft_step r r /\ (false = false -> no_new_leader r r) /\ (false = true -> currentTerm r = currentTerm r))
    by auto with raft.
  case_test_in H; [by injection H as <- <- <-|].
  destruct (VoteGranted reply); [|by injection H as <- <- <-].
  case_test_in H; [|by injection H as <- <- <-].
  destruct (becomeLeader r) as [q|] eqn:E; [|done]. injection H as <- <- <-.
  unfold becomeLeader in E. destruct (lastEntry (log r)); [|done]. cbn [mbind option_bind] in E.
  destruct (initIndexes _ _ _ _). injection E as <-. split_and!; [|done|done].
  split; cbn; try done. right. by eexists.
Qed.

Lemma advanceCommitIndex_step r r' :
  advanceCommitIndex r = Some r' -> r' = set_commitIndex (commitIndex r') r.
Proof.
  unfold advanceCommitIndex. destruct (lastEntry (log r)) as [l|]; [|done]. cbn [mbind option_bind].
  generalize (Z.to_nat (Index l - commitIndex r)). intros k. induction k as [|k IH]; cbn [advanceLoop]; intros H.
  - injection H as <-. by destruct r.
  - destruct ((log r) @[_]); [|done]. cbn [mbind option_bind] in H.
    case_test_in H; [by apply IH|]. case_test_in H; [by injection H as <-|by apply IH].
Qed.

Lemma onAppendReply_step peer term args reply dl r r' :
  onAppendReply peer term args reply dl r = Some r' -> raft_step r r' /\ no_new_leader r r'.
Proof.
  unfold onAppendReply. intros H.
  case_test_in H; [injection H as <-; by apply becomeFollower_step|].
  case_test_in H; [injection H as <-; auto with raft|].
  destruct (Success reply).
  - apply advanceCommitIndex_step in H. rewrite H. case_test; apply (same_step _ _ []); try done; cbn;
    by rewrite app_nil_r.
  - case_test_in H.
    + injection H as <-. apply (same_step _ _ []); try done; cbn; by rewrite app_nil_r.
    + destruct (lastIndexOfTerm _ _ _); [|done]. injection H as <-.
      apply (same_step _ _ []); try done; cbn; by rewrite app_nil_r.
Qed.

Lemma Start_step c r r' res :
  Start c r = Some (r', res) -> raft_step r r' /\ no_new_leader r r'.
Proof.
  unfold Start. intros H. case_test_in H; [injection H as <- <-; auto with raft|].
  destruct (lastEntry (log r)); [|done]. injection H as <- <-. by eapply same_step.
Qed.

Lemma startElection_step dl r r' args :
  startElection dl r = Some (r', args) -> raft_step r r' /\ no_new_leader r r'.
Proof.
  unfold startElection. intros H. destruct (lastLogInfo _) as [[li lt]|]; [|done].
  injection H as <- <-. split; [|done]. split; cbn; try done; [lia|lia|by right].
Qed.

Lemma applyLoop_step k : forall r ms r' ms',
  applyLoop k r ms = Some (r', ms') -> r' = set_lastApplied (lastApplied r') r.
Proof.
  induction k as [|k IH]; cbn [applyLoop]; intros r ms r' ms' H.
  - injection H as <- <-. by destruct r.
  - cbn zeta in H. destruct ((log _) @[_]); [|done]. cbn [mbind option_bind] in H.
    destruct (Command _); apply IH in H; by rewrite H.
Qed.

(** * Steps of the group *)

(** [GHeartbeat i t] has nothing left to do. *)
Definition stale (w : World) (i t : Z) : Prop :=
  st (peer_state w i) = leader -> killed (peer_state w i) = false -> currentTerm (peer_state w i) <> t.

Record world_step (w w' : World) : Prop := {
  ws_raft : forall i, raft_step (peer_state w i) (peer_state w' i);
  ws_leader : forall i, no_new_leader (peer_state w i) (peer_state w' i) \/
    GHeartbeat i (currentTerm (peer_state w' i)) ∈ pool w';
  ws_beat : forall i t, GHeartbeat i t ∈ pool w -> GHeartbeat i t ∈ pool w' \/ stale w i t
}.

Lemma world_step_peer w w' i r' :
  (forall j, peer_state w' j = upd (peer_state w) i r' j) ->
  raft_step (peer_state w i) r' ->
  (no_new_leader (peer_state w i) r' \/ GHeartbeat i (currentTerm r') ∈ pool w') ->
  (forall j t, GHeartbeat j t ∈ pool w -> GHeartbeat j t ∈ pool w' \/ stale w j t) ->
  world_step w w'.
Proof.
  intros Hn Hs Hl Hb. split; [intros j..|done]; rewrite Hn; upd_cases; auto with raft.
Qed.

Lemma world_step_same w w' :
  (forall j, peer_state w' j = peer_state w j) ->
  (forall j t, GHeartbeat j t ∈ pool w -> GHeartbeat j t ∈ pool w' \/ stale w j t) ->
  world_step w w'.
Proof. intros Hn Hb. split; [intros j..|done]; rewrite Hn; auto with raft. Qed.

Lemma heartbeat_stays (pl : list Goroutine) k m i t :
  pl !! k = Some m -> (forall i t, m <> GHeartbeat i t) ->
  GHeartbeat i t ∈ pl -> GHeartbeat i t ∈ delete k pl.
Proof.
  intros Hk Hm. rewrite (delete_perm _ _ _ Hk) at 1. intros [E|?]%elem_of_cons; [|done].
  by destruct (Hm i t).
Qed.

Lemma peer_state_upd w w' i n r' j :
  nodes w' = upd (nodes w) i n -> rf n = r' -> peer_state w' j = upd (peer_state w) i r' j.
Proof. intros E <-. unfold peer_state. rewrite E. upd_cases; done. Qed.

Lemma run_goroutine_step w k m r w' :
  pool w !! k = Some m -> run_goroutine m r (set_pool (delete k (pool w)) w) = Next w' -> world_step w w'.
Proof.
  intros Hk H. destruct m as [from to args|from to args reply|i term|from to term|from to args|from to args reply];
    cbn in H; unfold from_option_panic in H;
    try assert (Hb := fun i t => heartbeat_stays _ _ _ i t Hk ltac:(done)).
  - destruct (RequestVote _ _ _) as [[r' reply]|] eqn:E; [|done]. injection H as <-.
    destruct (RequestVote_step _ _ _ _ _ E). apply (world_step_peer w _ to r'); auto.
    + intros; by eapply peer_state_upd.
    + intros j t ?%Hb. left. by right.
  - destruct (onVoteReply _ _ _ _ _) as [[[r' v] b]|] eqn:E; [|done]. injection H as <-.
    destruct (onVoteReply_step _ _ _ _ _ _ _ _ E) as (? & Hl & _).
    destruct b; (apply (world_step_peer w _ from r'); auto; [intros; by eapply peer_state_upd|..]); cbn.
    + right. by left.
    + intros j t ?%Hb. left. by right.
  - assert (Hd : stale w i term -> world_step w (set_pool (delete k (pool w)) w)).
    { intros Hst. apply world_step_same; [done|]. intros j t Hj. cbn.
      rewrite (delete_perm _ _ _ Hk) in Hj at 1. apply elem_of_cons in Hj as [[= -> ->]|]; auto. }
    case_test_in H; [injection H as <-; apply Hd; by intros ? ?%not_true_iff_false|].
    case_test_in H.
    { injection H as <-. apply Hd. intros Hs _ Ht. cbn in *.
      apply orb_true_iff in Etest0 as [E|E]; bool_to_prop; [done|by apply E]. }
    injection H as <-. apply world_step_same; [done|]. intros j t Hj. cbn. left.
    rewrite (delete_perm _ _ _ Hk) in Hj at 1. apply elem_of_cons in Hj as [[= -> ->]|]; [by left|].
    right. apply elem_of_app. by right.
  - destruct (prepareAppendEntries _ _ _) as [o|]; [|done].
    destruct o; injection H as <-; (apply world_step_same; [done|]; intros j t ?%Hb; left); [by right|done].
  - destruct (AppendEntries _ _ _) as [[r' reply]|] eqn:E; [|done]. injection H as <-.
    destruct (AppendEntries_step _ _ _ _ _ E). apply (world_step_peer w _ to r'); auto.
    + intros; by eapply peer_state_upd.
    + intros j t ?%Hb. left. by right.
  - destruct (onAppendReply _ _ _ _ _ _) as [r'|] eqn:E; [|done]. injection H as <-.
    destruct (onAppendReply_step _ _ _ _ _ _ _ E). apply (world_step_peer w _ from r'); auto.
    intros; by eapply peer_state_upd.
Qed.

Lemma exec_step ps chanCap a w w' : exec ps chanCap a w = Next w' -> world_step w w'.
Proof.
  intros H. destruct a as [d|i|i r|k r|k|i c|i|i|i|i]; cbn in H; unfold from_option_panic in H.
  - case_test_in H; [|done]. injection H as <-. apply world_step_same; auto.
  - case_test_in H; [done|]. injection H as <-. apply (world_step_peer w _ i (peer_state w i)); auto with raft.
    intros; by eapply peer_state_upd.
  - case_test_in H; [done|]. destruct (startElection _ _) as [[r' args]|] eqn:E; [|done]. injection H as <-.
    destruct (startElection_step _ _ _ _ E). apply (world_step_peer w _ i r'); auto.
    + intros; by eapply peer_state_upd.
    + intros j t ?. left. apply elem_of_app. by right.
  - destruct (pool w !! k) as [m|] eqn:E; [|done]. by eapply run_goroutine_step.
  - destruct (pool w !! k) as [m|] eqn:E; [|done]. case_test_in H; [|done]. injection H as <-.
    apply world_step_same; [done|]. intros j t Hj. left.
    eapply heartbeat_stays; [done| |done]. intros ? ? ->. done.
  - case_test_in H; [done|]. destruct (Start _ _) as [[r' [[idx t] b]]|] eqn:E; [|done]. injection H as <-.
    destruct (Start_step _ _ _ _ E). apply (world_step_peer w _ i r'); auto.
    + intros; destruct b; by eapply peer_state_upd.
    + intros j t' ?. left. destruct b; [|done]. apply elem_of_app. by right.
  - case_test_in H; [done|]. destruct (applyTick _) as [[r' ms]|] eqn:E; [|done]. injection H as <-.
    apply applyLoop_step in E. destruct (same_step (peer_state w i) r' []) as [? ?];
      [rewrite E; try done; cbn; by rewrite app_nil_r..|].
    apply (world_step_peer w _ i r'); auto. intros; by eapply peer_state_upd.
  - destruct (sending _); [done|]. case_test_in H; [|done]. injection H as <-.
    apply (world_step_peer w _ i (peer_state w i)); auto with raft. intros; by eapply peer_state_upd.
  - destruct (applyCh _); [done|]. injection H as <-.
    apply (world_step_peer w _ i (peer_state w i)); auto with raft. intros; by eapply peer_state_upd.
  - case_test_in H; [done|]. injection H as <-.
    apply (world_step_peer w _ i (Kill (peer_state w i))); auto; [intros; by eapply peer_state_upd| |].
    + split; cbn; try done. by right.
    + by left.
Qed.

(** A live leader keeps its heartbeat loop. *)
Lemma leader_heartbeat ps chanCap w i :
  reachable ps chanCap w -> st (peer_state w i) = leader -> killed (peer_state w i) = false ->
  GHeartbeat i (currentTerm (peer_state w i)) ∈ pool w.
Proof.
  intros Hr. revert i. induction Hr as [draw|w a w' _ IH H]; intros i Hl Hk; [done|].
  apply exec_step in H as [H1 H2 H3].
  destruct (H2 i) as [Hn|]; [|done]. destruct (Hn Hl) as (Hl0 & Ht & _). rewrite Ht.
  assert (Hk0 : killed (peer_state w i) = false).
  { destruct (killed (peer_state w i)) eqn:E; [|done]. pose proof (rs_killed _ _ (H1 i) E). congruence. }
  destruct (H3 i (currentTerm (peer_state w i))) as [|Hs]; [by apply IH|done|]. by destruct (Hs Hl0 Hk0).
Qed.

Lemma run_raft_step ps chanCap acts : forall w w' i,
  run ps chanCap acts w = Next w' ->
  currentTerm (peer_state w i) <= currentTerm (peer_state w' i) /\
  (currentTerm (peer_state w' i) = currentTerm (peer_state w i) ->
   votedFor (peer_state w i) <> -1 -> votedFor (peer_state w' i) = votedFor (peer_state w i)).
Proof.
  induction acts as [|a acts IH]; cbn; intros w w' i H; [injection H as <-; done|].
  destruct (exec ps chanCap a w) as [w1| |] eqn:E; try done.
  destruct (ws_raft _ _ (exec_step _ _ _ _ _ E) i) as [T1 V1 _ _].
  destruct (IH w1 w' i H) as [T2 V2]. split; [lia|]. intros Ht Hv.
  rewrite <- V1 in * by (done || lia). rewrite V2; [done|lia|done].
Qed.

(** One vote per term.  Over any run, a peer's term never decreases, and a
    vote it has cast is not changed as long as it stays in that term. *)
Lemma vote_once (ps : list Z) (chanCap : nat) (acts : list Action) (w w' : World) (i : Z) :
  run ps chanCap acts w = Next w' ->
  currentTerm (peer_state w i) <= currentTerm (peer_state w' i) /\
  (currentTerm (peer_state w' i) = currentTerm (peer_state w i) ->
   votedFor (peer_state w i) <> -1 -> votedFor (peer_state w' i) = votedFor (peer_state w i)).
Proof. apply run_raft_step. Qed.

(** Leader append-only.  An action that leaves a peer leading only ever
    extends that peer's log. *)
Lemma leader_append_only (ps : list Z) (chanCap : nat) (a : Action) (w w' : World) (i : Z) :
  exec ps chanCap a w = Next w' -> st (peer_state w' i) = leader ->
  log (peer_state w i) `prefix_of` log (peer_state w' i).
Proof.
  intros H Hl. destruct (ws_raft _ _ (exec_step _ _ _ _ _ H) i) as [_ _ [E|] _]; [congruence|done].
Qed.

(** * Advancing the commit index *)

(** What [advanceCommitIndex] looks for. *)
Definition committable (r : Raft) (n : Z) : Prop :=
  at_term (log r) n (currentTerm r) /\ majority (peers r) <= countMatch r n.

Lemma advanceLoop_max r k : forall r', advanceLoop k r = Some r' ->
  forall n, commitIndex r < n <= commitIndex r + Z.of_nat k -> committable r n -> n <= commitIndex r'.
Proof.
  induction k as [|k IH]; cbn [advanceLoop]; intros r' H n Hn Hc; [lia|].
  set (m := commitIndex r + Z.of_nat (S k)) in *.
  apply bind_Some in H as (e & He & H).
  assert (Hrec : n <> m -> advanceLoop k r = Some r' -> n <= commitIndex r').
  { intros. eapply IH; [done|lia|done]. }
  destruct (decide (n = m)) as [->|]; [|by repeat case_test_in H; [auto|injection H as <-; cbn; lia|auto]].
  destruct Hc as [(e' & He' & Ht) Hm]. assert (e' = e) as -> by congruence.
  case_test_in H; [done|]. case_test_in H; [|lia]. injection H as <-. cbn. lia.
Qed.

(** The commit rule.  In a reachable state a leader's [advanceCommitIndex]
    moves the commit index to the largest index above it that holds an entry of
    the leader's own term and that a majority of the group has acknowledged, and
    leaves it alone when there is none. *)
Lemma commit_rule (ps : list Z) (chanCap : nat) (w : World) (i : Z) :
  valid_config ps -> reachable ps chanCap w ->
  let r := peer_state w i in
  exists r', advanceCommitIndex r = Some r' /\ r' = set_commitIndex (commitIndex r') r /\
    (commitIndex r' = commitIndex r \/ (commitIndex r < commitIndex r' /\ committable r (commitIndex r'))) /\
    forall n, commitIndex r < n -> committable r n -> n <= commitIndex r'.
Proof.
  intros Hv Hr r. destruct (reachable_inv ps chanCap w Hv Hr) as [g Hg].
  pose proof (inv_node _ _ _ _ _ Hg i) as Hn. fold r in Hn.
  pose proof (node_commit_lt _ _ _ _ _ Hn) as Hc.
  destruct (log_ok_last _ _ (no_log _ _ _ _ _ Hn)) as (last & Hl & _ & Hi).
  destruct (advanceLoop_spec r (Z.to_nat (Index last - commitIndex r))) as (r' & E & Hr'); [lia|lia|].
  assert (Ha : advanceCommitIndex r = Some r') by (unfold advanceCommitIndex; rewrite Hl; exact E).
  exists r'. split_and!; [done|by apply advanceCommitIndex_step| |].
  - destruct Hr' as [->|(n & Hn' & -> & Hat & Hm)]; [by left|right]. cbn. split; [lia|by split].
  - intros n Hlt Hcm. pose proof (at_term_len _ _ _ (proj1 Hcm)).
    eapply advanceLoop_max; [exact E|lia|done].
Qed.

(** Nothing more can be committed. *)
Definition settled (r : Raft) : Prop := forall n, committable r n -> n <= commitIndex r.

Lemma advance_settled ps T g i r0 r r' :
  node_ok ps T g i r0 -> log r = log r0 -> commitIndex r = commitIndex r0 -> advanceCommitIndex r = Some r' -> settled r'.
Proof.
  intros Hn El Ec H n Hc. pose proof (advanceCommitIndex_step _ _ H) as Hr. pose proof (node_commit_lt _ _ _ _ _ Hn).
  destruct (log_ok_last _ _ (no_log _ _ _ _ _ Hn)) as (last & Hl & _ & Hi). rewrite <- El, <- ?Ec in *.
  unfold advanceCommitIndex in H. rewrite Hl in H. cbn [mbind option_bind] in H.
  assert (Hcm : committable r n) by (rewrite Hr in Hc; exact Hc). pose proof (at_term_len _ _ _ (proj1 Hcm)).
  destruct (Z.le_gt_cases n (commitIndex r)) as [Hle|Hgt].
  - destruct (advanceLoop_spec r (Z.to_nat (Index last - commitIndex r))) as (r2 & E & Hr'); [lia|lia|].
    assert (r2 = r') as -> by congruence. destruct Hr' as [->|(m & Hm & -> & _)]; cbn; lia.
  - eapply advanceLoop_max; [exact H|lia|done].
Qed.

(** * Bringing a follower up to date *)

(** The request a leader sends runs from its [nextIndex] to the end of its log. *)
Lemma prepare_leader T g ps i r to args :
  node_ok ps T g i r -> st r = leader -> to ∈ ps -> to <> i ->
  prepareAppendEntries to (currentTerm r) r = Some (Some args) ->
  ATerm args = currentTerm r /\ PrevLogIndex args = mapget 0 (nextIndex r) to - 1 /\
  PrevLogIndex args + zlen (Entries args) = zlen (log r) - 1.
Proof.
  intros Hn Hst Hto Hne H. pose proof (no_next _ _ _ _ _ Hn Hst to Hto Hne) as Hnx.
  destruct (log_ok_last _ _ (no_log _ _ _ _ _ Hn)) as (last & Hlast & _ & Hli).
  unfold prepareAppendEntries in H. 
  rewrite bool_decide_true, Z.eqb_refl in H by done. cbn [negb orb] in H.
  set (next := mapget 0 (nextIndex r) to) in *. case_test_in H; [lia|].
  destruct ((log r) @[next - 1]); [|done]. cbn [mbind option_bind] in H.
  rewrite Hlast in H. cbn [mbind option_bind] in H. case_test_in H.
  - rewrite zsuffix_Some in H by lia. injection H as <-. cbn. rewrite zlen_drop by lia. lia.
  - injection H as <-. cbn. rewrite zlen_nil. lia.
Qed.

(** A reply of the leader's own term leaves it leading with the same log; a
    rejection strictly lowers the follower's [nextIndex]. *)
Lemma onAppendReply_progress ps N pl vs g from to args reply dl r' :
  inv ps N (GAppRet from to args reply :: pl) vs g -> st (N from) = leader ->
  ATerm args = currentTerm (N from) -> ARTerm reply <= currentTerm (N from) ->
  onAppendReply to (ATerm args) args reply dl (N from) = Some r' ->
  st r' = leader /\ currentTerm r' = currentTerm (N from) /\ log r' = log (N from) /\
  killed r' = killed (N from) /\
  (forall p, mapget 0 (matchIndex (N from)) p <= mapget 0 (matchIndex r') p) /\
  if Success reply then PrevLogIndex args + zlen (Entries args) <= mapget 0 (matchIndex r') to /\ settled r'
  else 1 <= mapget 0 (nextIndex r') to <= PrevLogIndex args.
Proof.
  intros Hinv Hst Hcur Hrt H. pose proof (backtrack_ok _ _ _ _ _ _ _ _ _ Hinv Hst Hcur Hrt) as Hback.
  pose proof (inv_msg _ _ _ _ _ Hinv _ ltac:(by left)) as (_ & _ & Hconf).
  unfold onAppendReply in H. case_test_in H; [lia|].
  rewrite bool_decide_true, Hcur, Z.eqb_refl in H by done. cbn [negb orb] in H.
  destruct (Success reply) eqn:Es.
  - assert (Hset : settled r').
    { eapply advance_settled; [exact (inv_node _ _ _ _ _ Hinv from)| | |exact H]; by case_test. }
    apply advanceCommitIndex_step in H. rewrite H. rewrite H in Hset. case_test; cbn; split_and!; try done.
    + intros p. unfold mapget. rewrite lookup_insert. case_decide as Ep; [|done]. subst p. cbn. unfold mapget in *. lia.
    + unfold mapget. rewrite lookup_insert_eq. cbn. lia.
  - destruct (Hconf eq_refl ltac:(lia)) as [Hci _]. case_test_in H.
    + injection H as <-. cbn. split_and!; try done; unfold mapget; rewrite lookup_insert_eq; cbn; lia.
    + destruct Hback as (li & E & Hli); [done|done|]. rewrite E in H. injection H as <-. cbn.
      split_and!; try done; unfold mapget; rewrite lookup_insert_eq; cbn; lia.
Qed.

(** Conflict backtracking makes progress.  When a rejection of the current
    term reaches a leader, the peer's next index moves strictly below the index
    that was rejected and stays at least 1, so that retries cannot loop. *)
Lemma backtracking_progress (ps : list Z) (chanCap : nat) (w : World) (from to dl : Z)
    (args : AppendEntriesArgs) (reply : AppendEntriesReply) :
  valid_config ps -> reachable ps chanCap w -> GAppRet from to args reply ∈ pool w ->
  st (peer_state w from) = leader -> ATerm args = currentTerm (peer_state w from) ->
  ARTerm reply <= currentTerm (peer_state w from) -> Success reply = false ->
  exists r', onAppendReply to (ATerm args) args reply dl (peer_state w from) = Some r' /\
    1 <= mapget 0 (nextIndex r') to <= PrevLogIndex args.
Proof.
  intros Hv Hr [k Hk]%list_elem_of_lookup Hst Hcur Hrt Hs.
  destruct (reachable_inv ps chanCap w Hv Hr) as [g Hg].
  apply (inv_perm ps _ _ _ _ _ (delete_perm _ _ _ Hk)) in Hg.
  destruct (onAppendReply_ok ps Hv _ _ _ _ from to args reply dl Hg) as (r' & E & _).
  exists r'. split; [done|].
  destruct (onAppendReply_progress _ _ _ _ _ _ _ _ _ _ _ Hg Hst Hcur Hrt E) as (_ & _ & _ & _ & _ & Hnx). by rewrite Hs in Hnx.
Qed.

(** Peer 1 is elected in term 2 while peer 2 still has an empty log, and peer 2
    rejects its first request. *)
Definition second_election : list Action :=
  commit_one ++ [ATime 700000000; ATickCheck 1; ATickFire 1 5; ARun 0 0; ARun 0 0].

Definition rejected : list Action := second_election ++ [ARun 0 0; ARun 2 0; ARun 0 0].

Definition rejected_args : AppendEntriesArgs := mkAppArgs 2 1 2 1 [mkEntry 2 3 None] 0.

(** ** A round of the heartbeat loop *)

(** Running the goroutine [m] wherever it is in the pool. *)
Lemma run_member ps chanCap w m r :
  m ∈ pool w -> exists k rest, pool w ≡ₚ m :: rest /\
    exec ps chanCap (ARun k r) w = run_goroutine m r (set_pool rest w).
Proof.
  intros [k Hk]%list_elem_of_lookup. exists k, (delete k (pool w)).
  split; [by apply delete_perm|]. cbn. by rewrite Hk.
Qed.

Lemma run_head ps chanCap w m rest r :
  pool w = m :: rest -> exec ps chanCap (ARun 0 r) w = run_goroutine m r (set_pool rest w).
Proof. intros E. cbn. by rewrite E. Qed.

Lemma run_cons ps chanCap a acts w w1 o :
  exec ps chanCap a w = Next w1 -> run ps chanCap acts w1 = o -> run ps chanCap (a :: acts) w = o.
Proof. intros E <-. cbn [run]. by rewrite E. Qed.

Section round.
Context (ps : list Z) (chanCap : nat) (Hv : valid_config ps) (i j t : Z) (Hj : j ∈ ps) (Hij : i <> j).

(** Peer [i] leads term [t] with log [l], and peer [j] has not gone beyond it. *)
Record leading (l : list LogEntry) (w : World) : Prop := {
  ld_reach : reachable ps chanCap w;
  ld_st : st (peer_state w i) = leader;
  ld_term : currentTerm (peer_state w i) = t;
  ld_log : log (peer_state w i) = l;
  ld_alive : killed (peer_state w i) = false;
  ld_peer : currentTerm (peer_state w j) <= t
}.

(** A leader's heartbeat puts a request to [j] in the pool. *)
Lemma heartbeat_sends l w : leading l w ->
  exists a w', exec ps chanCap a w = Next w' /\ leading l w' /\ GSend i j t ∈ pool w' /\ nodes w' = nodes w /\ clock w' = clock w.
Proof.
  intros [Hr Hs Ht Hl Ha Hp]. pose proof (leader_heartbeat _ _ _ _ Hr Hs Ha) as Hb. rewrite Ht in Hb.
  destruct (reachable_inv ps chanCap w Hv Hr) as [g Hg].
  pose proof (inv_node _ _ _ _ _ Hg i) as Hn.
  destruct (run_member ps chanCap w _ 0 Hb) as (k & rest & Hrest & E).
  cbn [run_goroutine] in E. change (peer_state (set_pool rest w) i) with (peer_state w i) in E.
  rewrite Ha, bool_decide_true, Ht, Z.eqb_refl in E by done. cbn [negb orb] in E.
  eexists (ARun k 0), _. split; [exact E|].
  split_and!; [|cbn|done|done].
  - split; try done. exact (reach_step _ _ _ _ _ Hr E).
  - right. apply elem_of_app. left. apply list_elem_of_fmap. exists j.
    rewrite (no_me _ _ _ _ _ Hn). split; [done|]. apply list_elem_of_filter.
    rewrite (no_me _ _ _ _ _ Hn), (no_peers _ _ _ _ _ Hn). done.
Qed.

(** Only the two peers change, no time passes, and the leader forgets no
    acknowledgement. *)
Definition advances (w w' : World) : Prop :=
  (forall q, q <> i -> q <> j -> nodes w' q = nodes w q) /\ clock w' = clock w /\
  forall p, mapget 0 (matchIndex (peer_state w i)) p <= mapget 0 (matchIndex (peer_state w' i)) p.

(** Peer [j] has the leader's log, and the leader knows and has committed what it
    can. *)
Definition caught_up (l : list LogEntry) (w : World) : Prop :=
  agree (log (peer_state w j)) l (zlen l - 1) /\ zlen l - 1 <= mapget 0 (matchIndex (peer_state w i)) j /\
  settled (peer_state w i).

Lemma advances_trans w1 w2 w3 : advances w1 w2 -> advances w2 w3 -> advances w1 w3.
Proof.
  intros (N1 & C1 & M1) (N2 & C2 & M2). split_and!; [intros; by rewrite N2, N1|congruence|]. intros p. etransitivity; [apply M1|apply M2].
Qed.

(** One exchange: request, handler, reply.  Either [j] now has the leader's log
    or its next index went down. *)
Lemma exchange l w : leading l w -> GSend i j t ∈ pool w ->
  exists acts w', run ps chanCap acts w = Next w' /\ leading l w' /\ advances w w' /\
    (caught_up l w' \/ mapget 0 (nextIndex (peer_state w' i)) j < mapget 0 (nextIndex (peer_state w i)) j).
Proof.
  intros [Hr Hs Ht Hl Ha Hp] Hm. destruct (reachable_inv ps chanCap w Hv Hr) as [g Hg].
  pose proof (inv_node _ _ _ _ _ Hg i) as Hn.
  destruct (run_member ps chanCap w _ 0 Hm) as (k & rest & Hrest & E1).
  apply (inv_perm ps _ _ _ _ _ Hrest) in Hg. cbn [run_goroutine] in E1.
  change (peer_state (set_pool rest w) i) with (peer_state w i) in E1.
  destruct (prepareAppendEntries_ok ps _ _ _ _ i j t Hg) as (o & Eo & Ho).
  rewrite Eo in E1. cbn [from_option_panic] in E1. destruct o as [args|].
  2:{ unfold prepareAppendEntries in Eo. rewrite bool_decide_true, Ht, Z.eqb_refl in Eo by done.
      cbn [negb orb] in Eo. by repeat (apply bind_Some in Eo; destruct Eo as (? & _ & Eo)). }
  rewrite <- Ht in Eo. destruct (prepare_leader _ _ _ _ _ _ _ Hn Hs Hj ltac:(done) Eo) as (Hat & Hprev & Hend).
  rewrite Ht in Hat.
  set (w1 := set_pool (GAppCall i j args :: rest) (set_pool rest w)) in *.
  destruct (AppendEntries_spec ps _ _ _ _ i j args (deadline (set_pool rest w1) 0) Ho)
    as (rj & reply & g' & EA & Hg' & _ & [Hcur Hsucc] & _).
  destruct (Hcur ltac:(lia)) as [Htj Hrt].
  pose proof (run_head ps chanCap w1 _ rest 0 eq_refl) as E2. cbn [run_goroutine] in E2.
  change (peer_state (set_pool rest w1) j) with (peer_state w j) in E2. rewrite EA in E2. cbn [from_option_panic] in E2.
  match type of E2 with _ = Next ?x => set (w2 := x) in * end.
  assert (Hp2 : forall q, peer_state w2 q = upd (peer_state w) j rj q).
  { intros; by eapply peer_state_upd. }
  assert (Hi2 : peer_state w2 i = peer_state w i) by (rewrite Hp2, upd_ne; done).
  assert (Hg2 : inv ps (peer_state w2) (GAppRet i j args reply :: rest) (votes w) g').
  { eapply inv_pointwise; [|exact Hg']. intros q. by rewrite Hp2. }
  destruct (onAppendReply_ok ps Hv _ _ _ _ i j args reply (deadline (set_pool rest w2) 0) Hg2)
    as (ri & EB & _).
  pose proof EB as EB'. eapply onAppendReply_progress in EB' as (Hs' & Ht' & Hl' & Hk' & Hmt' & Hnx');
    [|exact Hg2|by rewrite Hi2|by rewrite Hi2, Ht|rewrite Hi2; lia].
  pose proof (run_head ps chanCap w2 _ rest 0 eq_refl) as E3. cbn [run_goroutine] in E3.
  change (peer_state (set_pool rest w2) i) with (peer_state w2 i) in E3. rewrite EB in E3. cbn [from_option_panic] in E3.
  match type of E3 with _ = Next ?x => set (w3 := x) in * end.
  assert (Hp3 : forall q, peer_state w3 q = upd (peer_state w2) i ri q).
  { intros; by eapply peer_state_upd. }
  assert (Hi3 : peer_state w3 i = ri) by (by rewrite Hp3, upd_eq).
  assert (Hj3 : peer_state w3 j = rj) by (by rewrite Hp3, upd_ne, Hp2, upd_eq by done).
  exists [ARun k 0; ARun 0 0; ARun 0 0], w3.
  split; [by do 3 (eapply run_cons; [eassumption|])|]. rewrite Hi2 in *. split_and!.
  - split; rewrite ?Hi3, ?Hj3; try congruence; [|lia].
    do 3 (eapply reach_step; [|eassumption]). done.
  - split_and!; [|done|by rewrite Hi3]. intros q Hqi Hqj. cbn. by rewrite !upd_ne by done.
  - rewrite Hi3. unfold caught_up. rewrite Hi3, Hj3. destruct (Success reply) eqn:Es; [left|right; lia].
    destruct Hnx' as [Hnx' Hset]. split_and!; [|rewrite <- Hl; lia|done]. destruct (Hsucc eq_refl) as (lt & HL & Hag). rewrite Hat in HL.
    pose proof (inv_node _ _ _ _ _ Hg2 i) as Hn2. rewrite Hi2 in Hn2.
    destruct (no_lead _ _ _ _ _ Hn2 Hs) as [HL2 _]. rewrite Ht in HL2.
    assert (lt = l) as -> by congruence. by rewrite Hend, Hl in Hag.
Qed.

Lemma converge n : forall l w, leading l w ->
  mapget 0 (nextIndex (peer_state w i)) j <= Z.of_nat n ->
  exists acts w', run ps chanCap acts w = Next w' /\ leading l w' /\ advances w w' /\ caught_up l w'.
Proof.
  induction n as [|n IH]; intros l w Hl Hn.
  - destruct (reachable_inv ps chanCap w Hv (ld_reach _ _ Hl)) as [g Hg].
    pose proof (no_next _ _ _ _ _ (inv_node _ _ _ _ _ Hg i) (ld_st _ _ Hl) j Hj ltac:(done)). lia.
  - destruct (heartbeat_sends l w Hl) as (a & w1 & E1 & Hl1 & Hm & Hnd & Hck).
    destruct (exchange l w1 Hl1 Hm) as (acts & w2 & E2 & Hl2 & Ha2 & Hor).
    assert (Hsame : peer_state w1 i = peer_state w i) by (unfold peer_state; by rewrite Hnd).
    assert (Ha : advances w w2) by (eapply advances_trans, Ha2; split_and!; [intros; by rewrite Hnd|done|by rewrite Hsame]).
    destruct Hor as [Hag|Hlt].
    + exists (a :: acts), w2. split_and!; [by eapply run_cons|done..].
    + rewrite Hsame in Hlt. destruct (IH l w2 Hl2 ltac:(lia)) as (acts' & w3 & E3 & Hl3 & Ha3 & Hag).
      exists (a :: acts ++ acts'), w3. split_and!; [|done|by eapply advances_trans|done]. eapply run_cons; [done|].
      rewrite run_app, E2. exact E3.
Qed.

End round.

(** Log convergence.  From every reachable state in which a live peer leads
    and another peer of the group has not moved to a later term, there is a
    schedule (the leader's heartbeats, the requests and the replies) at whose
    end that peer's log agrees with the leader's whole log, the leader still
    leading with the same log. *)
Lemma replication_converges (ps : list Z) (chanCap : nat) (w : World) (i j : Z) :
  valid_config ps -> reachable ps chanCap w -> j ∈ ps -> i <> j ->
  st (peer_state w i) = leader -> killed (peer_state w i) = false ->
  currentTerm (peer_state w j) <= currentTerm (peer_state w i) ->
  exists acts w', run ps chanCap acts w = Next w' /\
    st (peer_state w' i) = leader /\ log (peer_state w' i) = log (peer_state w i) /\
    agree (log (peer_state w' j)) (log (peer_state w i)) (zlen (log (peer_state w i)) - 1).
Proof.
  intros Hv Hr Hj Hij Hs Hk Ht.
  destruct (converge ps chanCap Hv i j (currentTerm (peer_state w i)) Hj Hij
              (Z.to_nat (mapget 0 (nextIndex (peer_state w i)) j)) (log (peer_state w i)) w)
    as (acts & w' & E & [] & _ & Ha & _); [by split|lia|].
  exists acts, w'. by split_and!.
Qed.

(** * A group of one *)

Lemma single_pool p chanCap w :
  0 <= p -> reachable [p] chanCap w -> pool w = [] /\ forall i, st (peer_state w i) <> leader.
Proof.
  intros Hp0. assert (Hv : valid_config [p]) by (split; [apply NoDup_singleton|by constructor]).
  induction 1 as [draw|w a w' Hr [Hp Hs] H]; [done|].
  assert (Hpool : pool w' = []).
  { destruct a as [d|i|i r|k r|k|i c|i|i|i|i]; cbn in H; unfold from_option_panic in H; rewrite ?Hp in H.
    - case_test_in H; [|done]. by injection H as <-.
    - case_test_in H; [done|]. by injection H as <-.
    - case_test_in H; [done|]. destruct (startElection _ _) as [[r' args]|] eqn:E; [|done].
      injection H as <-. cbn. rewrite app_nil_r.
      destruct (reachable_inv [p] chanCap w Hv Hr) as [g Hg].
      assert (i = p) as -> by (by apply list_elem_of_singleton).
      destruct (node_stand [p] _ _ _ _ p _ r' args Hg ltac:(by left) E) as [-> _].
      unfold others. cbn. pose proof (inv_node _ _ _ _ _ Hg p) as Hn.
      rewrite (no_me _ _ _ _ _ Hn), (no_peers _ _ _ _ _ Hn). rewrite filter_cons_False, filter_nil by (intros []; done). done.
    - done.
    - done.
    - case_test_in H; [done|]. unfold Start in H. rewrite bool_decide_false in H by apply Hs. by injection H as <-.
    - case_test_in H; [done|]. destruct (applyTick _) as [[r' ms]|]; [|done]. by injection H as <-.
    - destruct (sending _); [done|]. case_test_in H; [|done]. by injection H as <-.
    - destruct (applyCh _); [done|]. by injection H as <-.
    - case_test_in H; [done|]. by injection H as <-. }
  split; [done|]. intros i Hl. destruct (ws_leader _ _ (exec_step _ _ _ _ _ H) i) as [Hn|Hin].
  - by apply (Hs i), Hn.
  - rewrite Hpool in Hin. by apply not_elem_of_nil in Hin.
Qed.

(** A group of one never elects a leader: votes are counted only when a
    reply arrives and a single peer has nobody to reply, so [Start] always
    refuses and nothing is ever committed. *)
Lemma single_node_never_leads (p : Z) (chanCap : nat) (w : World) (i : Z) (c : option Cmd) :
  0 <= p -> reachable [p] chanCap w ->
  st (peer_state w i) <> leader /\
  Start c (peer_state w i) = Some (peer_state w i, (-1, currentTerm (peer_state w i), false)).
Proof.
  intros Hp Hr. destruct (single_pool p chanCap w Hp Hr) as [_ Hs]. split; [done|].
  unfold Start. by rewrite bool_decide_false by apply Hs.
Qed.

(** * Single operations *)

(** The vote rule.  [RequestVote] grants exactly when the candidate's term is
    not stale, the peer is free to vote in it, and the candidate's log is at
    least as up to date; it then records the vote, and in every case the peer
    ends in the larger of the two terms. *)
Lemma RequestVote_rule (args : RequestVoteArgs) (dl : Z) (r : Raft) (last : LogEntry) :
  lastEntry (log r) = Some last ->
  exists r' granted, RequestVote args dl r = Some (r', mkVoteReply (currentTerm r `max` VTerm args) granted) /\
    currentTerm r' = currentTerm r `max` VTerm args /\ log r' = log r /\
    (granted = true <->
       currentTerm r <= VTerm args /\
       (currentTerm r < VTerm args \/ votedFor r = -1 \/ votedFor r = CandidateId args) /\
       (Term last < LastLogTerm args \/
        Term last = LastLogTerm args /\ Index last <= LastLogIndex args)) /\
    (granted = true -> votedFor r' = CandidateId args /\ electionDeadline r' = dl).
Proof.
  intros Hl. unfold RequestVote, lastLogInfo.
  destruct (Z.ltb_spec (currentTerm r) (VTerm args)).
  - cbn -[Z.eqb Z.ltb Z.leb]. rewrite Z.ltb_irrefl, Hl. cbn -[Z.eqb Z.ltb Z.leb]. rewrite Z.max_r by lia.
    destruct (_ && _) eqn:E; (eexists _, _; split_and!; [done|done|done| |done]); lia.
  - rewrite Z.max_l by lia. destruct (Z.ltb_spec (VTerm args) (currentTerm r)).
    { eexists _, _; split_and!; [done|done|done|lia|done]. }
    rewrite Hl. cbn -[Z.eqb Z.ltb Z.leb].
    destruct (_ && _) eqn:E; (eexists _, _; split_and!; [done|done|done| |done]); lia.
Qed.
