(* ===== verification/RaftLive.v ===== *)
(** Availability of a Raft group: as long as a majority of at least two peers is
    alive, some schedule in which only these take part elects a leader among them
    that commits and delivers any command.

    The schedule is built in rounds.  A peer of the highest term either leads
    already, or stands for election and so deposes every other leader; then a
    peer with a most up-to-date log stands, is voted for by all and leads; it
    appends the command, replicates it to each of the others, commits it and
    hands it to its application. *)
From S2P Require Import Prelude Raft RaftCluster RaftLog RaftInv RaftSteps RaftHandlers RaftSafety RaftTheorems RaftProgress.

Section live.
Context (ps : list Z) (chanCap : nat) (Hv : valid_config ps).
Context (Q : list Z) (HQ : forall q, q ∈ Q -> q ∈ ps).

(** The peers of [Q] get from one world to another. *)
Definition moves (w w' : World) : Prop :=
  (exists acts, run ps chanCap acts w = Next w') /\ forall j, j ∉ Q -> nodes w' j = nodes w j.

Lemma moves_refl w : moves w w.
Proof. split; [by exists []|done]. Qed.

Lemma moves_trans w1 w2 w3 : moves w1 w2 -> moves w2 w3 -> moves w1 w3.
Proof.
  intros [[a1 E1] N1] [[a2 E2] N2]. split; [|intros; by rewrite N2, N1]. exists (a1 ++ a2). by rewrite run_app, E1.
Qed.

#[local] Instance moves_preorder : PreOrder moves.
Proof. split; [exact moves_refl|exact moves_trans]. Qed.

Lemma moves_reachable w w' : reachable ps chanCap w -> moves w w' -> reachable ps chanCap w'.
Proof. intros Hr [[acts E] _]. by eapply run_reachable. Qed.

(** One action at a peer of [Q]. *)
Lemma moves_one a w w' i : i ∈ Q -> exec ps chanCap a w = Next w' -> (forall j, j <> i -> nodes w' j = nodes w j) -> moves w w'.
Proof.
  intros Hi E Hn. split; [exists [a]; cbn; by rewrite E|]. intros j Hj. apply Hn. by intros ->.
Qed.

(** Without time passing. *)
Definition quick (w w' : World) : Prop := moves w w' /\ clock w' = clock w.

#[local] Instance quick_preorder : PreOrder quick.
Proof. split; [by split|]. intros w1 w2 w3 [M1 C1] [M2 C2]. split; [by transitivity w2|congruence]. Qed.

Lemma quick_reachable w w' : reachable ps chanCap w -> quick w w' -> reachable ps chanCap w'.
Proof. intros Hr [M _]. by eapply moves_reachable. Qed.

Lemma quick_one a w w' i : i ∈ Q -> exec ps chanCap a w = Next w' -> (forall j, j <> i -> nodes w' j = nodes w j) -> clock w' = clock w -> quick w w'.
Proof. intros Hi E Hn Hc. split; [by eapply moves_one|done]. Qed.

(** * Elections *)

(** Peer [i] stands for election in term [t] with log [l] and its own vote. *)
Record stands (w : World) (i t : Z) (l : list LogEntry) : Prop := {
  sd_st : st (peer_state w i) = candidate;
  sd_term : currentTerm (peer_state w i) = t;
  sd_log : log (peer_state w i) = l;
  sd_alive : killed (peer_state w i) = false;
  sd_votes : mapget 0 (votes w) (i, t) = 1
}.

(** The request [i] sends to all the others. *)
Definition vote_request (i t : Z) (last : LogEntry) : RequestVoteArgs := mkVoteArgs t i (Index last) (Term last).

(** The election ticker gets as far as [startElection]. *)
Lemma arms w i : i ∈ Q -> killed (peer_state w i) = false -> st (peer_state w i) <> leader ->
  exists w', moves w w' /\ armed (nodes w' i) = true /\ rf (nodes w' i) = rf (nodes w i) /\
    (forall j, j <> i -> nodes w' j = nodes w j).
Proof.
  intros Hi Hk Hs. destruct (armed (nodes w i)) eqn:Ea; [by exists w|].
  set (d := Z.max 0 (electionDeadline (peer_state w i) - clock w + 1)).
  set (w1 := mkWorld (nodes w) (pool w) (votes w) (clock w + d)).
  assert (E1 : exec ps chanCap (ATime d) w = Next w1) by (cbn; by rewrite (proj2 (Z.leb_le _ _)) by lia).
  assert (E2 : exec ps chanCap (ATickCheck i) w1 = Next (set_node i (mkNode (rf (nodes w i)) true
    (sending (nodes w i)) (applyCh (nodes w i)) (consumed (nodes w i))) w1)).
  { cbn [exec]. change (nodes w1 i) with (nodes w i). unfold peer_state in *. rewrite bool_decide_true, Hk, Ea by auto. cbn [negb orb].
    rewrite bool_decide_false by done. cbn [negb andb]. rewrite (proj2 (Z.ltb_lt _ _)); [done|]. cbn. unfold peer_state in d. lia. }
  eexists. split_and!; [transitivity w1; [by eapply moves_one|eapply moves_one; [done|exact E2|]]|..].
  - intros j Hj. cbn. by rewrite upd_ne.
  - cbn. by rewrite upd_eq.
  - cbn. by rewrite upd_eq.
  - intros j Hj. cbn. by rewrite upd_ne.
Qed.

Lemma fires w i : reachable ps chanCap w -> i ∈ Q -> killed (peer_state w i) = false -> st (peer_state w i) <> leader ->
  exists w' last, moves w w' /\ lastEntry (log (peer_state w i)) = Some last /\
    stands w' i (currentTerm (peer_state w i) + 1) (log (peer_state w i)) /\
    (forall p, p ∈ ps -> p <> i -> GVoteCall i p (vote_request i (currentTerm (peer_state w i) + 1) last) ∈ pool w') /\
    (forall j, j <> i -> nodes w' j = nodes w j).
Proof.
  intros Hr Hi Hk Hs. destruct (arms w i Hi Hk Hs) as (w1 & M1 & Ha & Hrf & N1).
  pose proof (moves_reachable _ _ Hr M1) as Hr1. destruct (reachable_inv ps chanCap w1 Hv Hr1) as [g Hg].
  pose proof (inv_node _ _ _ _ _ Hg i) as Hn.
  assert (Hps : peer_state w1 i = peer_state w i) by exact Hrf.
  destruct (startElection (deadline w1 0) (peer_state w1 i)) as [[r' args]|] eqn:ES.
  2:{ unfold startElection, lastLogInfo in ES. cbn in ES. destruct (log_ok_last _ _ (no_log _ _ _ _ _ Hn)) as (e & He & _).
      by rewrite He in ES. }
  destruct (node_stand ps _ _ _ _ i _ r' args Hg (HQ _ Hi) ES) as (Hr' & last & Hlast & Hargs).
  assert (E : exec ps chanCap (ATickFire i 0) w1 = Next (set_pool (map (fun p => GVoteCall (me r') p args) (others r') ++ pool w1)
    (set_votes (<[(i, currentTerm r') := 1]> (votes w1))
      (set_node i (mkNode r' false (sending (nodes w1 i)) (applyCh (nodes w1 i)) (consumed (nodes w1 i))) w1)))).
  { cbn [exec]. rewrite bool_decide_true, Ha by auto. cbn [negb orb]. change (rf (nodes w1 i)) with (peer_state w1 i). by rewrite ES. }
  eexists _, last. split_and!; [transitivity w1; [done|eapply moves_one; [exact Hi|exact E|]]| | | |].
  - intros j Hj. cbn. by rewrite upd_ne.
  - by rewrite <- Hps.
  - rewrite Hps in *. split; unfold peer_state; cbn; rewrite ?upd_eq; cbn; rewrite ?Hr'; try done; cbn.
    unfold mapget, peer_state. by rewrite lookup_insert_eq.
  - rewrite Hps in *. rewrite Hr'. cbn. intros p Hp Hpi. unfold vote_request. apply elem_of_app. left. apply list_elem_of_fmap. exists p. fold (peer_state w i). rewrite Hargs, (no_me _ _ _ _ _ Hn). split; [done|].
      apply list_elem_of_filter. cbn. fold (peer_state w i). by rewrite (no_peers _ _ _ _ _ Hn).
  - intros j Hj. cbn. rewrite upd_ne by done. by apply N1.
Qed.

(** A request of a later term reaches [p]: it follows, and votes for a candidate
    whose log is at least as up to date. *)
Lemma asks w i p args :
  reachable ps chanCap w -> p ∈ Q -> GVoteCall i p args ∈ pool w -> currentTerm (peer_state w p) < VTerm args ->
  exists w' reply, moves w w' /\ (forall j, j <> p -> nodes w' j = nodes w j) /\ votes w' = votes w /\
    currentTerm (peer_state w' p) = VTerm args /\ st (peer_state w' p) = follower /\
    log (peer_state w' p) = log (peer_state w p) /\ killed (peer_state w' p) = killed (peer_state w p) /\
    GVoteRet i p args reply ∈ pool w' /\ (forall m, m ∈ pool w -> m <> GVoteCall i p args -> m ∈ pool w') /\
    VRTerm reply = VTerm args /\
    (forall last, lastEntry (log (peer_state w p)) = Some last ->
       Term last < LastLogTerm args \/ Term last = LastLogTerm args /\ Index last <= LastLogIndex args -> VoteGranted reply = true).
Proof.
  intros Hr Hp Hm Ht. destruct (run_member ps chanCap w _ 0 Hm) as (k & rest & Hrest & E). cbn [run_goroutine] in E.
  change (peer_state (set_pool rest w) p) with (peer_state w p) in E.
  destruct (reachable_inv ps chanCap w Hv Hr) as [g Hg].
  destruct (log_ok_last _ _ (no_log _ _ _ _ _ (inv_node _ _ _ _ _ Hg p))) as (last & Hlast & _).
  unfold RequestVote, lastLogInfo in E. rewrite (proj2 (Z.ltb_lt _ _) Ht) in E. cbn -[Z.ltb Z.leb Z.eqb] in E.
  rewrite Z.ltb_irrefl, Hlast in E. cbn -[Z.ltb Z.leb Z.eqb] in E. change (-1 =? -1) with true in E. cbn [orb andb] in E.
  destruct (_ || _) eqn:Eg in E; cbn in E; (eexists _, _; split_and!; [eapply (moves_one (ARun k 0)); [exact Hp|exact E|]|..]); unfold peer_state; cbn;
    rewrite ?upd_eq; try done; try (intros; by rewrite upd_ne); try (by left);
    try (intros m Hin Hne; right; rewrite Hrest in Hin; by apply elem_of_cons in Hin as [?|?]); try (intros; reflexivity).
  intros last' Hl' Hup. assert (last' = last) as -> by (unfold peer_state in *; congruence). lia.
Qed.

(** The reply to a request of the current term is counted. *)
Lemma counts w i q args reply t k :
  reachable ps chanCap w -> i ∈ Q -> GVoteRet i q args reply ∈ pool w -> VTerm args = t -> VRTerm reply = t -> VoteGranted reply = true ->
  currentTerm (peer_state w i) = t ->
  st (peer_state w i) = leader \/ st (peer_state w i) = candidate /\ mapget 0 (votes w) (i, t) = k /\ k < majority ps ->
  exists w', moves w w' /\ (forall j, j <> i -> nodes w' j = nodes w j) /\ currentTerm (peer_state w' i) = t /\
    killed (peer_state w' i) = killed (peer_state w i) /\ (forall m, m ∈ pool w -> m <> GVoteRet i q args reply -> m ∈ pool w') /\
    (st (peer_state w' i) = leader \/ st (peer_state w' i) = candidate /\ mapget 0 (votes w') (i, t) = k + 1 /\ k + 1 < majority ps).
Proof.
  intros Hr Hi Hm Hargs Hrt Hgr Ht Hst. destruct (run_member ps chanCap w _ 0 Hm) as (n & rest & Hrest & E). cbn [run_goroutine] in E.
  change (peer_state (set_pool rest w) i) with (peer_state w i) in E. change (votes (set_pool rest w)) with (votes w) in E.
  destruct (reachable_inv ps chanCap w Hv Hr) as [g Hg]. pose proof (inv_node _ _ _ _ _ Hg i) as Hn.
  destruct (log_ok_last _ _ (no_log _ _ _ _ _ Hn)) as (last & Hlast & _).
  assert (Hpool : forall m, m ∈ pool w -> m <> GVoteRet i q args reply -> m ∈ rest).
  { intros m Hin Hne. rewrite Hrest in Hin. by apply elem_of_cons in Hin as [?|?]. }
  unfold onVoteReply in E. rewrite Hargs, Hrt, Ht, Z.ltb_irrefl, Z.eqb_refl, Hgr in E. cbn [negb orb] in E.
  destruct Hst as [Hl|(Hc & Hk & Hlt)].
  - rewrite bool_decide_false in E by (rewrite Hl; done). cbn [negb orb from_option_panic] in E.
    eexists. split_and!; [eapply (moves_one (ARun n 0)); [exact Hi|exact E|]|..]; unfold peer_state; cbn; rewrite ?upd_eq; try done;
      try (intros; by rewrite upd_ne). by left.
  - rewrite bool_decide_true, Hk, (no_peers _ _ _ _ _ Hn), andb_true_r in E by done. cbn [negb orb] in E.
    destruct (majority ps <=? k + 1) eqn:Em; bool_to_prop.
    + unfold becomeLeader in E. rewrite Hlast in E. cbn [mbind option_bind] in E.
      destruct (initIndexes _ _ _ _) as [nx mt]. cbn [from_option_panic] in E.
      eexists. split_and!; [eapply (moves_one (ARun n 0)); [exact Hi|exact E|]|..]; unfold peer_state; cbn; rewrite ?upd_eq; try done;
        try (intros; by rewrite upd_ne); [|by left]. intros m Hin Hne. right. by apply Hpool.
    + cbn [from_option_panic] in E.
      eexists. split_and!; [eapply (moves_one (ARun n 0)); [exact Hi|exact E|]|..]; unfold peer_state; cbn; rewrite ?upd_eq; try done;
        try (intros; by rewrite upd_ne). right. split_and!; [done| |lia]. unfold mapget. by rewrite lookup_insert_eq.
Qed.

(** The request [args] of [i] has reached [p], which follows and whose answer is on
    its way. *)
Definition answered (w0 w : World) (i : Z) (args : RequestVoteArgs) (p : Z) : Prop :=
  currentTerm (peer_state w p) = VTerm args /\ st (peer_state w p) = follower /\
  log (peer_state w p) = log (peer_state w0 p) /\ killed (peer_state w p) = killed (peer_state w0 p) /\
  exists reply, GVoteRet i p args reply ∈ pool w /\ VRTerm reply = VTerm args /\
    (forall last, lastEntry (log (peer_state w0 p)) = Some last ->
       Term last < LastLogTerm args \/ Term last = LastLogTerm args /\ Index last <= LastLogIndex args -> VoteGranted reply = true).

Lemma asks_all i args R : forall w, reachable ps chanCap w -> NoDup R ->
  (forall p, p ∈ R -> p ∈ Q /\ GVoteCall i p args ∈ pool w /\ currentTerm (peer_state w p) < VTerm args) ->
  exists w', moves w w' /\ (forall j, j ∉ R -> nodes w' j = nodes w j) /\ votes w' = votes w /\
    (forall m, m ∈ pool w -> (forall p, m <> GVoteCall i p args) -> m ∈ pool w') /\
    (forall p, p ∈ R -> answered w w' i args p).
Proof.
  induction R as [|p R IH]; intros w Hr Hd HR.
  { exists w. split_and!; try done. by intros p ?%not_elem_of_nil. }
  apply list.NoDup_cons in Hd as [Hp Hd]. destruct (HR p ltac:(by left)) as (HpQ & Hm & Ht).
  destruct (asks w i p args Hr HpQ Hm Ht) as (w1 & reply & M1 & N1 & V1 & T1 & S1 & L1 & K1 & R1 & P1 & G1 & G2).
  assert (Hother : forall q, q ∈ R -> nodes w1 q = nodes w q) by (intros q Hq; apply N1; by intros ->).
  destruct (IH w1) as (w2 & M2 & N2 & V2 & P2 & A2); [by eapply moves_reachable|done| |].
  { intros q Hq. destruct (HR q ltac:(by right)) as (HqQ & Hmq & Htq). split_and!; [done| |unfold peer_state in *; by rewrite Hother].
    apply P1; [done|]. intros [= ->]. done. }
  exists w2. split_and!; [by transitivity w1| |by rewrite V2| |].
  - intros j Hj. rewrite N2, N1; [done|intros ->; apply Hj; by left|intros Hj'; apply Hj; by right].
  - intros m Hin Hne. apply P2; [|done]. apply P1; [done|]. apply Hne.
  - intros q [->|Hq]%elem_of_cons.
    + unfold answered. unfold peer_state in *. rewrite (N2 p Hp). split_and!; try done. exists reply. split_and!; [|done|done].
      by apply P2.
    + destruct (A2 q Hq) as (a & b & c & d & e). unfold answered, peer_state in *. rewrite <- (Hother q Hq). by split_and!.
Qed.

Lemma counts_all i args t R : forall w k, reachable ps chanCap w -> i ∈ Q -> NoDup R -> VTerm args = t ->
  (forall q, q ∈ R -> q <> i /\ exists reply, GVoteRet i q args reply ∈ pool w /\ VRTerm reply = t /\ VoteGranted reply = true) ->
  currentTerm (peer_state w i) = t ->
  st (peer_state w i) = leader \/ st (peer_state w i) = candidate /\ mapget 0 (votes w) (i, t) = k /\ k < majority ps ->
  majority ps <= k + zlen R ->
  exists w', moves w w' /\ (forall j, j <> i -> nodes w' j = nodes w j) /\ currentTerm (peer_state w' i) = t /\
    killed (peer_state w' i) = killed (peer_state w i) /\ st (peer_state w' i) = leader.
Proof.
  induction R as [|q R IH]; intros w k Hr Hi Hd Ha HR Ht Hst Hk.
  { rewrite zlen_nil in Hk. exists w. split_and!; try done. destruct Hst as [?|(_ & _ & ?)]; [done|lia]. }
  apply list.NoDup_cons in Hd as [Hq Hd]. rewrite zlen_cons in Hk.
  destruct (HR q ltac:(by left)) as (Hqi & reply & Hin & Hrt & Hg).
  destruct (counts w i q args reply t k Hr Hi Hin Ha Hrt Hg Ht Hst) as (w1 & M1 & N1 & T1 & K1 & P1 & S1).
  destruct (IH w1 (k + 1)) as (w2 & M2 & N2 & T2 & K2 & S2); [by eapply moves_reachable|done..| |done|done|lia|].
  { intros q' Hq'. destruct (HR q' ltac:(by right)) as (Hqi' & reply' & Hin' & Hrt' & Hg'). split; [done|]. exists reply'.
    split_and!; [|done|done]. apply P1; [done|]. intros [= -> _]. done. }
  exists w2. split_and!; [by transitivity w1|intros; by rewrite N2, N1|done|congruence|done].
Qed.

(** * The leader *)

Context (HQd : NoDup Q) (Hmaj : majority ps <= zlen Q) (H2 : 2 <= zlen ps).

Definition all_alive (w : World) : Prop := forall q, q ∈ Q -> killed (peer_state w q) = false.

Lemma majority_two : 2 <= majority ps.
Proof. unfold majority. pose proof (Z.div_le_mono 2 (zlen ps) 2 ltac:(lia) H2). change (2 / 2) with 1 in *. lia. Qed.

(** The others of [Q]. *)
Definition rest_of (i : Z) : list Z := filter (fun q => q <> i) Q.

Lemma rest_of_spec i q : q ∈ rest_of i <-> q ∈ Q /\ q <> i.
Proof. unfold rest_of. rewrite list_elem_of_filter. tauto. Qed.

Lemma rest_of_nodup i : NoDup (rest_of i).
Proof. by apply list.NoDup_filter. Qed.

Lemma rest_of_len i : i ∈ Q -> zlen Q = 1 + zlen (rest_of i).
Proof.
  intros Hi. assert (Hp : Q ≡ₚ i :: rest_of i).
  { apply NoDup_Permutation; [done|apply list.NoDup_cons; split; [by rewrite rest_of_spec; intros []|apply rest_of_nodup]|].
    intros x. rewrite elem_of_cons, rest_of_spec. destruct (decide (x = i)) as [->|]; tauto. }
  unfold zlen. rewrite Hp at 1. cbn [length]. lia.
Qed.

Lemma exists_max (f : Z -> Z) (L : list Z) : L <> [] -> exists m, m ∈ L /\ forall q, q ∈ L -> f q <= f m.
Proof.
  induction L as [|x [|y L] IH]; intros Hn; [done|exists x; split; [by left|intros q ->%list_elem_of_singleton; lia]|].
  destruct (IH ltac:(done)) as (m & Hm & Hmax). destruct (Z.le_gt_cases (f x) (f m)).
  - exists m. split; [by right|]. intros q [->|Hq]%elem_of_cons; [done|by apply Hmax].
  - exists x. split; [by left|]. intros q [->|Hq]%elem_of_cons; [lia|]. specialize (Hmax q Hq). lia.
Qed.

(** A peer with the greatest last term, and among these the greatest last index. *)
Lemma exists_up_to_date (ft fi : Z -> Z) (L : list Z) : L <> [] ->
  exists m, m ∈ L /\ forall q, q ∈ L -> ft q < ft m \/ ft q = ft m /\ fi q <= fi m.
Proof.
  intros Hn. destruct (exists_max ft L Hn) as (a & Ha & Hat).
  destruct (exists_max fi (filter (fun q => ft q = ft a) L)) as (m & Hm & Hmi).
  { intros E. apply (not_elem_of_nil a). rewrite <- E. by apply list_elem_of_filter. }
  apply list_elem_of_filter in Hm as [Hmt Hm]. exists m. split; [done|]. intros q Hq. specialize (Hat q Hq).
  destruct (Z.eq_dec (ft q) (ft a)) as [E|]; [|lia]. right. split; [lia|]. apply Hmi. by apply list_elem_of_filter.
Qed.

Lemma Q_nonempty : Q <> [].
Proof. intros E. pose proof majority_two. rewrite E in Hmaj. unfold zlen in Hmaj. cbn in Hmaj. lia. Qed.

(** A round of elections: [i] stands in a term above all the others' and every
    other peer of [Q] answers. *)
Lemma round w i : reachable ps chanCap w -> all_alive w -> i ∈ Q -> st (peer_state w i) <> leader ->
  (forall q, q ∈ Q -> currentTerm (peer_state w q) <= currentTerm (peer_state w i)) ->
  exists w' last, moves w w' /\ lastEntry (log (peer_state w i)) = Some last /\
    stands w' i (currentTerm (peer_state w i) + 1) (log (peer_state w i)) /\
    (forall q, q ∈ rest_of i -> answered w w' i (vote_request i (currentTerm (peer_state w i) + 1) last) q).
Proof.
  intros Hr Ha Hi Hs Hmax. destruct (fires w i Hr Hi (Ha i Hi) Hs) as (w1 & last & M1 & Hl & S1 & C1 & N1).
  set (t := currentTerm (peer_state w i) + 1) in *.
  destruct (asks_all i (vote_request i t last) (rest_of i) w1) as (w2 & M2 & N2 & V2 & P2 & A2).
  - by eapply moves_reachable.
  - apply rest_of_nodup.
  - intros p [Hp Hpi]%rest_of_spec. split_and!; [done|apply C1; auto|]. unfold peer_state. rewrite N1 by done.
    specialize (Hmax p Hp). unfold peer_state in Hmax, t. cbn. unfold t. lia.
  - exists w2, last. split_and!; [by transitivity w1|done| |].
    + assert (Hni : peer_state w2 i = peer_state w1 i) by (unfold peer_state; rewrite N2; [done|by rewrite rest_of_spec; intros []]).
      destruct S1. split; by rewrite ?Hni, ?V2.
    + intros q Hq. pose proof (A2 q Hq) as A. unfold answered, peer_state in *. rewrite <- (N1 q); [done|]. by apply rest_of_spec in Hq as [].
Qed.

(** After a round nobody leads, everybody is in the same term and no log changed. *)
Lemma round_state w w' i t last : stands w' i t (log (peer_state w i)) -> all_alive w ->
  (forall q, q ∈ rest_of i -> answered w w' i (vote_request i t last) q) -> i ∈ Q ->
  forall q, q ∈ Q -> st (peer_state w' q) <> leader /\ currentTerm (peer_state w' q) = t /\
    killed (peer_state w' q) = false /\ log (peer_state w' q) = log (peer_state w q).
Proof.
  intros S Ha A Hi q Hq. destruct (decide (q = i)) as [->|Hqi].
  - destruct S. split_and!; try done. congruence.
  - destruct (A q) as (E1 & E2 & E3 & E4 & _); [by apply rest_of_spec|]. split_and!; [congruence|exact E1| |done]. rewrite E4. by apply Ha.
Qed.

(** The state the elections aim at. *)
Record governs (w : World) (i : Z) : Prop := {
  le_reach : reachable ps chanCap w;
  le_in : i ∈ Q;
  le_st : st (peer_state w i) = leader;
  le_alive : killed (peer_state w i) = false;
  le_terms : forall q, q ∈ Q -> currentTerm (peer_state w q) <= currentTerm (peer_state w i)
}.

(** In a state where nobody of [Q] leads and all are in the same term, a peer with
    a most up-to-date log gets elected. *)
Lemma wins w t : reachable ps chanCap w -> all_alive w ->
  (forall q, q ∈ Q -> st (peer_state w q) <> leader /\ currentTerm (peer_state w q) = t) ->
  exists w' i, moves w w' /\ governs w' i.
Proof.
  intros Hr Ha Hq. set (lastof q := default (mkEntry 0 0 None) (lastEntry (log (peer_state w q)))).
  destruct (exists_up_to_date (fun q => Term (lastof q)) (fun q => Index (lastof q)) Q Q_nonempty) as (i & Hi & Hmax).
  destruct (Hq i Hi) as [Hs Ht].
  destruct (round w i Hr Ha Hi Hs) as (w1 & last & M1 & Hl & S1 & A1); [intros q Hq'; destruct (Hq q Hq'); lia|].
  rewrite Ht in *. pose proof (moves_reachable _ _ Hr M1) as Hr1.
  pose proof (round_state _ _ _ _ _ S1 Ha A1 Hi) as Hst.
  destruct (counts_all i (vote_request i (t + 1) last) (t + 1) (rest_of i) w1 1) as (w2 & M2 & N2 & T2 & K2 & L2);
    [done|done|apply rest_of_nodup|done| |apply (Hst i Hi)| | |].
  - intros q Hqr. destruct (A1 q Hqr) as (_ & _ & _ & _ & reply & Hin & Hrt & Hg). apply rest_of_spec in Hqr as [HqQ Hqi].
    split; [done|]. exists reply. split_and!; [done|done|].
    destruct (reachable_inv ps chanCap w Hv Hr) as [g Hgi].
    destruct (log_ok_last _ _ (no_log _ _ _ _ _ (inv_node _ _ _ _ _ Hgi q))) as (lq & Hlq & _).
    apply (Hg lq Hlq). specialize (Hmax q HqQ). unfold lastof in Hmax. rewrite Hlq, Hl in Hmax. exact Hmax.
  - right. destruct S1. split_and!; [done|done|]. pose proof majority_two. lia.
  - rewrite (rest_of_len i Hi) in Hmaj. lia.
  - exists w2, i. split; [by transitivity w1|].
    assert (Hother : forall q, q <> i -> peer_state w2 q = peer_state w1 q) by (intros q Hqi; unfold peer_state; by rewrite N2).
    split; [by eapply moves_reachable|done|done|rewrite K2; apply (Hst i Hi)|].
    intros q HqQ. destruct (Hst q HqQ) as (_ & Et & _). destruct (decide (q = i)) as [->|Hqi]; [lia|]. rewrite Hother by done. lia.
Qed.

Lemma elects w : reachable ps chanCap w -> all_alive w -> exists w' i, moves w w' /\ governs w' i.
Proof.
  intros Hr Ha. destruct (exists_max (fun q => currentTerm (peer_state w q)) Q Q_nonempty) as (m & Hm & Hmax).
  destruct (decide (st (peer_state w m) = leader)) as [Hl|Hl]; [exists w, m; split; [done|split; auto]|].
  destruct (round w m Hr Ha Hm Hl Hmax) as (w1 & last & M1 & _ & S1 & A1).
  pose proof (round_state _ _ _ _ _ S1 Ha A1 Hm) as Hst.
  destruct (wins w1 (currentTerm (peer_state w m) + 1)) as (w2 & i & M2 & L2).
  - by eapply moves_reachable.
  - intros q Hq. apply (Hst q Hq).
  - intros q Hq. destruct (Hst q Hq) as (? & ? & _). done.
  - exists w2, i. split; [by transitivity w1|done].
Qed.

(** * The command *)

Lemma proposes w i c : governs w i ->
  exists w' r', exec ps chanCap (AStart i c) w = Next w' /\
    Start c (peer_state w i) = Some (r', (zlen (log (peer_state w i)), currentTerm (peer_state w i), true)) /\
    moves w w' /\ governs w' i /\ currentTerm (peer_state w' i) = currentTerm (peer_state w i) /\
    log (peer_state w' i) = log (peer_state w i) ++ [mkEntry (currentTerm (peer_state w i)) (zlen (log (peer_state w i))) c].
Proof.
  intros [Hr Hi Hs Ha Ht]. destruct (reachable_inv ps chanCap w Hv Hr) as [g Hg].
  destruct (log_ok_last _ _ (no_log _ _ _ _ _ (inv_node _ _ _ _ _ Hg i))) as (last & Hl & _ & Hli).
  assert (E : exists w', exec ps chanCap (AStart i c) w = Next w' /\ nodes w' = upd (nodes w) i (with_rf
    (set_matchIndex (<[me (peer_state w i) := Index last + 1]> (matchIndex (peer_state w i)))
       (set_log (log (peer_state w i) ++ [mkEntry (currentTerm (peer_state w i)) (Index last + 1) c]) (peer_state w i))) (nodes w i))).
  { cbn [exec]. rewrite bool_decide_true by auto. unfold Start. rewrite bool_decide_true, Hl by done. cbn. by eexists. }
  destruct E as (w' & E & N). assert (Hother : forall j, j <> i -> nodes w' j = nodes w j) by (intros j Hj; by rewrite N, upd_ne).
  exists w'. eexists. split; [exact E|]. split.
  { unfold Start. rewrite bool_decide_true, Hl by done. cbn. by replace (Index last + 1) with (zlen (log (peer_state w i))) by lia. }
  split; [by eapply moves_one|].
  assert (Hp : peer_state w' i = set_matchIndex (<[me (peer_state w i) := Index last + 1]> (matchIndex (peer_state w i)))
    (set_log (log (peer_state w i) ++ [mkEntry (currentTerm (peer_state w i)) (Index last + 1) c]) (peer_state w i))).
  { unfold peer_state at 1. by rewrite N, upd_eq. }
  split_and!; [|by rewrite Hp|rewrite Hp; cbn; by replace (Index last + 1) with (zlen (log (peer_state w i))) by lia].
  split; [by eapply reach_step|done|by rewrite Hp|by rewrite Hp|]. intros q Hq. destruct (decide (q = i)) as [->|Hqi]; [lia|].
  rewrite Hp. unfold peer_state at 1. rewrite Hother by done. by apply Ht.
Qed.

(** The leader brings the peers of [R] up to date, one after the other. *)
Lemma replicates i l t R : forall w, governs w i -> log (peer_state w i) = l -> currentTerm (peer_state w i) = t ->
  (forall q, q ∈ R -> q ∈ rest_of i) ->
  exists w', quick w w' /\ governs w' i /\ log (peer_state w' i) = l /\ currentTerm (peer_state w' i) = t /\
    (forall p, mapget 0 (matchIndex (peer_state w i)) p <= mapget 0 (matchIndex (peer_state w' i)) p) /\
    (forall q, q ∈ R -> zlen l - 1 <= mapget 0 (matchIndex (peer_state w' i)) q) /\
    (R <> [] -> settled (peer_state w' i)).
Proof.
  induction R as [|j R IH] using rev_ind; intros w G Hl Ht HR.
  { exists w. split_and!; try done. by intros q ?%not_elem_of_nil. }
  destruct (IH w G Hl Ht) as (w1 & M1 & G1 & L1 & T1 & X1 & A1 & _); [intros q Hq; apply HR, elem_of_app; by left|].
  destruct (proj1 (rest_of_spec i j)) as [Hj Hji]; [apply HR, elem_of_app; right; by left|].
  destruct (converge ps chanCap Hv i j t (HQ _ Hj) ltac:(done) (Z.to_nat (mapget 0 (nextIndex (peer_state w1 i)) j)) l w1)
    as (acts & w2 & E2 & [LR LS LT LL LA LP] & (N2 & K2 & X2) & _ & C2 & S2).
  { destruct G1. split; try done. rewrite <- T1. auto. }
  { lia. }
  exists w2. split_and!; [transitivity w1; [done|]| |done|done| | |done].
  - split; [|done]. split; [by exists acts|]. intros q Hq. apply N2; intros ->; [apply Hq, (le_in _ _ G1)|done].
  - split; [done|apply (le_in _ _ G1)|done|done|]. intros q Hq. rewrite LT.
    destruct (decide (q = i)) as [->|Hqi]; [lia|]. destruct (decide (q = j)) as [->|Hqj]; [done|].
    unfold peer_state. rewrite N2 by done. rewrite <- T1. by apply (le_terms _ _ G1).
  - intros p. etransitivity; [apply X1|apply X2].
  - intros q [Hq| ->%list_elem_of_singleton]%elem_of_app; [|done]. etransitivity; [by apply A1|apply X2].
Qed.

(** What all of [Q] has acknowledged can be committed. *)
Lemma all_committable w i e : governs w i -> lastEntry (log (peer_state w i)) = Some e -> Term e = currentTerm (peer_state w i) ->
  (forall q, q ∈ rest_of i -> zlen (log (peer_state w i)) - 1 <= mapget 0 (matchIndex (peer_state w i)) q) ->
  committable (peer_state w i) (zlen (log (peer_state w i)) - 1).
Proof.
  intros G He Ht Hm. destruct (reachable_inv ps chanCap w Hv (le_reach _ _ G)) as [g Hg].
  pose proof (inv_node _ _ _ _ _ Hg i) as Hn. split; [by exists e|].
  unfold countMatch. rewrite (no_peers _ _ _ _ _ Hn). etransitivity; [exact Hmaj|]. rewrite (rest_of_len i (le_in _ _ G)).
  apply Z.add_le_mono_l. unfold zlen at 1 2. apply inj_le, submseteq_length, NoDup_submseteq; [apply rest_of_nodup|].
  intros q Hq. pose proof (Hm q Hq). apply rest_of_spec in Hq as [Hq Hqi]. apply list_elem_of_filter.
  rewrite (no_me _ _ _ _ _ Hn). auto.
Qed.

(** * Delivery *)

(** The application reads everything the apply channel holds. *)
Lemma consumes i ch : forall w, i ∈ Q -> applyCh (nodes w i) = ch ->
  exists w', quick w w' /\ rf (nodes w' i) = rf (nodes w i) /\ sending (nodes w' i) = sending (nodes w i) /\
    applyCh (nodes w' i) = [] /\ consumed (nodes w' i) = consumed (nodes w i) ++ ch.
Proof.
  induction ch as [|m ch IH]; intros w Hi Hc; [exists w; by rewrite app_nil_r|].
  set (n := nodes w i) in *. set (w1 := set_node i (mkNode (rf n) (armed n) (sending n) ch (consumed n ++ [m])) w).
  assert (E : exec ps chanCap (AConsume i) w = Next w1) by (cbn; fold n; by rewrite Hc).
  destruct (IH w1 Hi) as (w2 & M2 & R2 & S2 & C2 & D2); [cbn; by rewrite upd_eq|].
  exists w2. subst w1. cbn in R2, S2, D2. rewrite upd_eq in R2, S2, D2. cbn in R2, S2, D2.
  split_and!; [|done|done|done|by rewrite D2, <- app_assoc]. etransitivity; [|exact M2].
  eapply quick_one; [exact Hi|exact E| |done]. intros j Hj. cbn. by rewrite upd_ne.
Qed.

(** The apply ticker gets rid of all its messages. *)
Lemma drains i ms : (0 < chanCap)%nat -> forall w, i ∈ Q -> sending (nodes w i) = ms -> applyCh (nodes w i) = [] ->
  exists w', quick w w' /\ rf (nodes w' i) = rf (nodes w i) /\ sending (nodes w' i) = [] /\
    applyCh (nodes w' i) = [] /\ consumed (nodes w' i) = consumed (nodes w i) ++ ms.
Proof.
  intros Hcap. induction ms as [|m ms IH]; intros w Hi Hs Hc; [exists w; by rewrite app_nil_r|].
  set (n := nodes w i) in *. set (w1 := set_node i (mkNode (rf n) (armed n) ms [m] (consumed n)) w).
  assert (E : exec ps chanCap (ASendMsg i) w = Next w1).
  { cbn. fold n. rewrite Hs, Hc. cbn. by rewrite bool_decide_true by done. }
  destruct (consumes i [m] w1 Hi) as (w2 & M2 & R2 & S2 & C2 & D2); [cbn; by rewrite upd_eq|].
  subst w1. cbn in R2, S2, D2. rewrite upd_eq in R2, S2, D2. cbn in R2, S2, D2.
  destruct (IH w2 Hi S2 C2) as (w3 & M3 & R3 & S3 & C3 & D3). exists w3.
  split_and!; [|congruence|done|done|by rewrite D3, D2, <- app_assoc]. etransitivity; [|etransitivity; [exact M2|exact M3]].
  eapply quick_one; [exact Hi|exact E| |done]. intros j Hj. cbn. by rewrite upd_ne.
Qed.

Lemma flushes w i : (0 < chanCap)%nat -> i ∈ Q ->
  exists w', quick w w' /\ rf (nodes w' i) = rf (nodes w i) /\ sending (nodes w' i) = [] /\ 
    consumed (nodes w' i) = delivered (nodes w i).
Proof.
  intros Hcap Hi. destruct (consumes i _ w Hi eq_refl) as (w1 & M1 & R1 & S1 & C1 & D1).
  destruct (drains i _ Hcap w1 Hi eq_refl C1) as (w2 & M2 & R2 & S2 & C2 & D2). exists w2.
  split_and!; [by transitivity w1|congruence|done|]. unfold delivered. by rewrite D2, D1, S1, <- app_assoc.
Qed.

(** Everything committed is delivered and consumed. *)
Lemma delivers w i : (0 < chanCap)%nat -> governs w i ->
  exists w', quick w w' /\ st (peer_state w' i) = leader /\
    consumed (nodes w' i) = apply_msgs (log (peer_state w i)) (commitIndex (peer_state w i)).
Proof.
  intros Hcap [Hr Hi Hs Ha _]. destruct (flushes w i Hcap Hi) as (w1 & M1 & R1 & S1 & _).
  pose proof (quick_reachable _ _ Hr M1) as Hr1. destruct (reachable_winv ps chanCap Hv w1 Hr1) as [g Hg].
  destruct (winv_node ps w1 i g (wi_inv _ _ _ Hg)) as [Hla Hci]. unfold peer_state in *.
  destruct (applyLoop_spec (Z.to_nat (commitIndex (rf (nodes w1 i)) - lastApplied (rf (nodes w1 i)))) (rf (nodes w1 i)) [])
    as (ms & Ems & _); [lia..|].
  set (n := nodes w1 i) in *. replace (lastApplied (rf n) + Z.of_nat _) with (commitIndex (rf n)) in Ems by lia.
  set (w2 := set_node i (mkNode (set_lastApplied (commitIndex (rf n)) (rf n)) (armed n) ms (applyCh n) (consumed n)) w1).
  assert (E : exec ps chanCap (AApply i) w1 = Next w2).
  { cbn [exec]. fold n. rewrite bool_decide_true, R1, Ha, S1 by auto. cbn [negb orb bool_decide]. rewrite bool_decide_true by done.
    cbn [negb orb]. rewrite <- R1. unfold applyTick. by rewrite Ems. }
  pose proof (reach_step _ _ _ _ _ Hr1 E) as Hr2. destruct (reachable_winv ps chanCap Hv w2 Hr2) as [g2 Hg2].
  destruct (flushes w2 i Hcap Hi) as (w3 & M3 & R3 & S3 & C3). pose proof (wi_delivered _ _ _ Hg2 i) as Hd.
  unfold delivered_ok in Hd. rewrite <- C3 in Hd. subst w2. cbn in R3, Hd. rewrite upd_eq in R3, Hd. cbn in R3, Hd.
  exists w3. rewrite R3, Hd, <- R1. split_and!; [|cbn; congruence|done]. transitivity w1; [done|]. etransitivity; [|exact M3].
  eapply quick_one; [exact Hi|exact E| |done]. intros j Hj. cbn. by rewrite upd_ne.
Qed.

(** The leader commits a command at once. *)
Lemma commits w i c : (0 < chanCap)%nat -> governs w i ->
  exists r' w1 w2, Start (Some c) (peer_state w i) = Some (r', (zlen (log (peer_state w i)), currentTerm (peer_state w i), true)) /\
    exec ps chanCap (AStart i (Some c)) w = Next w1 /\ moves w w1 /\ quick w1 w2 /\ st (peer_state w2 i) = leader /\
    mkApplyMsg true (Some c) (zlen (log (peer_state w i))) ∈ consumed (nodes w2 i).
Proof.
  intros Hcap G1. destruct (proposes w i (Some c) G1) as (w2 & r' & E2 & S2 & M2 & G2 & T2 & L2). set (l := log (peer_state w i)) in *.
  destruct (replicates i _ _ (rest_of i) w2 G2 eq_refl eq_refl ltac:(done)) as (w3 & M3 & G3 & L3 & T3 & _ & A3 & S3).
  rewrite L2 in L3, A3. rewrite T2 in T3. set (e := mkEntry (currentTerm (peer_state w i)) (zlen l) (Some c)) in *.
  assert (Hlen : zlen (l ++ [e]) - 1 = zlen l) by (rewrite zlen_app; unfold zlen at 2; cbn; lia).
  assert (He : (l ++ [e]) @[zlen l] = Some e) by (rewrite zget_app_r by lia; by rewrite Z.sub_diag).
  assert (Hcm : zlen l <= commitIndex (peer_state w3 i)).
  { rewrite <- Hlen. apply S3.
    - intros E. pose proof (rest_of_len i (le_in _ _ G3)) as Hlq. rewrite E in Hlq. pose proof majority_two. unfold zlen in Hlq at 2. cbn in Hlq. lia.
    - rewrite <- L3. apply (all_committable w3 i e G3); [|by rewrite T3|by rewrite L3].
      unfold lastEntry. by rewrite L3, Hlen. }
  destruct (delivers w3 i Hcap G3) as (w4 & M4 & S4 & C4).
  exists r', w2, w4. split_and!; [done|done|done|by transitivity w3|done|].
  rewrite C4, L3. apply list_elem_of_omap. exists e. split; [|done].
  pose proof (zlen_nonneg l). unfold zget in He. rewrite (proj2 (Z.ltb_ge _ _)) in He by lia.
  apply (list_elem_of_lookup_2 _ (Z.to_nat (zlen l))). apply lookup_take_Some. split; [done|lia].
Qed.

(** All rounds together. *)
Lemma serves w c : (0 < chanCap)%nat -> reachable ps chanCap w -> all_alive w ->
  exists w' i idx, moves w w' /\ i ∈ Q /\ st (peer_state w' i) = leader /\ commitIndex (peer_state w i) < idx /\
    mkApplyMsg true (Some c) idx ∈ consumed (nodes w' i).
Proof.
  intros Hcap Hr Ha. destruct (elects w Hr Ha) as (w1 & i & M1 & G1).
  destruct (commits w1 i c Hcap G1) as (r' & w2 & w3 & _ & _ & M2 & [M3 _] & S3 & C3).
  exists w3, i, (zlen (log (peer_state w1 i))). split_and!; [|apply (le_in _ _ G1)|done| |done].
  - transitivity w1; [done|]. by transitivity w2.
  - destruct M1 as [[acts E1] _]. destruct (run_node_step ps chanCap acts w w1 i Hv Hr E1) as (_ & Hle & _).
    destruct (reachable_inv ps chanCap w1 Hv (le_reach _ _ G1)) as [g Hg]. destruct (winv_node ps w1 i g Hg) as [_ Hlt].
    unfold peer_state in *. lia.
Qed.

End live.

(** C7: Availability.  From every reachable state of a group of at least two peers,
    whatever happened before, if a majority [Q] of the group is alive then for
    every command there is a schedule in which no peer outside [Q] takes a
    step, and at whose end a peer of [Q] leads and its application has received
    the command at an index above everything that peer had committed before.  A
    group of one never elects a leader: votes are counted only when a reply
    arrives and a single peer has nobody to reply, so [Start] always refuses. *)
Theorem majority_available (ps : list Z) (chanCap : nat) (w : World) (c : Cmd) :
  valid_config ps -> (0 < chanCap)%nat -> reachable ps chanCap w ->
  (2 <= zlen ps -> forall Q, NoDup Q -> (forall q, q ∈ Q -> q ∈ ps /\ killed (peer_state w q) = false) -> majority ps <= zlen Q ->
   exists acts w' i idx, run ps chanCap acts w = Next w' /\ (forall j, j ∉ Q -> nodes w' j = nodes w j) /\
     i ∈ Q /\ st (peer_state w' i) = leader /\ commitIndex (peer_state w i) < idx /\
     mkApplyMsg true (Some c) idx ∈ consumed (nodes w' i)) /\
  (zlen ps = 1 -> forall i, st (peer_state w i) <> leader /\
     Start (Some c) (peer_state w i) = Some (peer_state w i, (-1, currentTerm (peer_state w i), false))).
Proof.
  intros Hv Hcap Hr. split.
  - intros H2 Q Hd HQ Hm.
    destruct (serves ps chanCap Hv Q (fun q Hq => proj1 (HQ q Hq)) Hd Hm H2 w c Hcap Hr (fun q Hq => proj2 (HQ q Hq)))
      as (w' & i & idx & [[acts E] N] & H). by exists acts, w', i, idx.
  - intros H1 i. destruct ps as [|p [|p' ps]]; [done| |unfold zlen in H1; cbn in H1; lia].
    apply (single_node_never_leads p chanCap w i (Some c)); [|done]. destruct Hv as [_ Hp]. by inversion Hp.
Qed.

(** The leader that committed a command crashes; the two others go on. *)
Lemma majority_available_witness :
  (st (peer_state (after (commit_both ++ [AKill 0])) 0) = leader /\ killed (peer_state (after (commit_both ++ [AKill 0])) 0) = true) /\
  exists acts w' i idx, run trio 100 acts (after (commit_both ++ [AKill 0])) = Next w' /\
    (forall j, j ∉ [1; 2] -> nodes w' j = nodes (after (commit_both ++ [AKill 0])) j) /\
    i ∈ [1; 2] /\ st (peer_state w' i) = leader /\ commitIndex (peer_state (after (commit_both ++ [AKill 0])) i) < idx /\
    mkApplyMsg true (Some (CInt 8)) idx ∈ consumed (nodes w' i).
Proof.
  split; [split; vm_compute; reflexivity|].
  apply (majority_available trio 100 (after (commit_both ++ [AKill 0])) (CInt 8) trio_valid ltac:(lia) (after_reachable _)).
  - vm_compute. discriminate.
  - repeat (constructor; [rewrite ?elem_of_cons, elem_of_nil; lia|]). constructor.
  - intros q [->|[->|[]%not_elem_of_nil]%elem_of_cons]%elem_of_cons; (split; [|vm_compute; reflexivity]);
      unfold trio; rewrite !elem_of_cons; auto.
  - vm_compute. discriminate.
Defined.
