(* ===== verification/GoLib.v ===== *)
(** What the program uses of the Go language and its standard library, beyond
    the lists of [Prelude]: results with errors, a state-and-error monad, bytes
    and big-endian integers, decimal file names, [sort.Search], [sort.Ints] and
    the FNV-1a hash. *)
From Stdlib Require Export Strings.Byte.
From Stdlib Require Import Strings.Ascii.
From stdpp Require Export sorting gmap.
From S2P Require Import Prelude.

(** * Results *)

(** A Go result [(a, err)]: errors are the context message of the code. *)
Inductive res (A : Type) := Ok (a : A) | Err (e : string).
Arguments Ok {A} a.
Arguments Err {A} e.

Definition is_ok {A} (r : res A) : bool := match r with Ok _ => true | Err _ => false end.

#[export] Instance res_ret : MRet res := fun A a => Ok a.
#[export] Instance res_bind : MBind res := fun A B k r =>
  match r with Ok a => k a | Err e => Err e end.

(** Stateful code that may fail: the state reached is kept on failure too. *)
Definition M (S A : Type) : Type := S -> res A * S.

#[export] Instance M_ret S : MRet (M S) := fun A a s => (Ok a, s).
#[export] Instance M_bind S : MBind (M S) := fun A B k m s =>
  match m s with
  | (Ok a, s') => k a s'
  | (Err e, s') => (Err e, s')
  end.

Definition fail {S A} (e : string) : M S A := fun s => (Err e, s).
Definition get {S} : M S S := fun s => (Ok s, s).
Definition put {S} (s : S) : M S unit := fun _ => (Ok tt, s).
Definition modify {S} (f : S -> S) : M S unit := fun s => (Ok tt, f s).

(** [if err != nil { return fmt.Errorf(msg, err) }]. *)
Definition context {S A} (msg : string) (m : M S A) : M S A := fun s =>
  match m s with
  | (Ok a, s') => (Ok a, s')
  | (Err _, s') => (Err msg, s')
  end.

(** A call whose error is inspected instead of returned. *)
Definition try {S A} (m : M S A) : M S (res A) := fun s => let '(r, s') := m s in (Ok r, s').

(** * Machine integers *)

Definition u32 (z : Z) : Z := z mod 2 ^ 32.

Lemma u32_small z : 0 <= z < 2 ^ 32 -> u32 z = z.
Proof. apply Z.mod_small. Qed.

(** * Bytes *)

Abbreviation bytes := (list byte).

#[export] Instance byte_eq_dec : EqDecision byte := Byte.byte_eq_dec.

Definition Z_of_byte (b : byte) : Z := Z.of_N (Byte.to_N b).

Definition byte_of_Z (z : Z) : byte :=
  match Byte.of_N (Z.to_N (z mod 256)) with Some b => b | None => x00 end.

Lemma Z_of_byte_range b : 0 <= Z_of_byte b < 256.
Proof. unfold Z_of_byte. pose proof (Byte.to_N_bounded b). lia. Qed.

Lemma Z_of_byte_of_Z z : Z_of_byte (byte_of_Z z) = z mod 256.
Proof.
  unfold byte_of_Z, Z_of_byte. pose proof (Z.mod_pos_bound z 256 eq_refl).
  destruct (Byte.of_N (Z.to_N (z mod 256))) as [b|] eqn:E.
  - apply Byte.to_of_N in E. rewrite E. lia.
  - apply Byte.of_N_None_iff in E. lia.
Qed.

Lemma byte_of_Z_of_byte b : byte_of_Z (Z_of_byte b) = b.
Proof.
  unfold byte_of_Z. rewrite Z.mod_small by apply Z_of_byte_range.
  unfold Z_of_byte. rewrite N2Z.id. by rewrite Byte.of_to_N.
Qed.

(** [binary.BigEndian.PutUint32] and [binary.BigEndian.Uint32]. *)
Definition PutUint32 (v : Z) : bytes :=
  [byte_of_Z (Z.shiftr v 24); byte_of_Z (Z.shiftr v 16); byte_of_Z (Z.shiftr v 8); byte_of_Z v].

Definition Uint32 (b : bytes) : Z :=
  match b with
  | b0 :: b1 :: b2 :: b3 :: _ =>
      Z.lor (Z_of_byte b3) (Z.lor (Z.shiftl (Z_of_byte b2) 8)
        (Z.lor (Z.shiftl (Z_of_byte b1) 16) (Z.shiftl (Z_of_byte b0) 24)))
  | _ => 0
  end.

Lemma lor_add a b n : 0 <= n -> 0 <= a < 2 ^ n -> Z.lor a (Z.shiftl b n) = a + b * 2 ^ n.
Proof.
  intros Hn Ha. pose proof (Z.add_lor_land a (Z.shiftl b n)) as E.
  assert (Z.land a (Z.shiftl b n) = 0) as E0.
  { apply Z.bits_inj'. intros i Hi. rewrite Z.land_spec, Z.bits_0, Z.shiftl_spec by done.
    destruct (decide (i < n)).
    - rewrite (Z.testbit_neg_r b) by lia. apply andb_false_r.
    - destruct (decide (a = 0)) as [->|]; [by rewrite Z.bits_0|].
      rewrite Z.bits_above_log2; [done|lia|]. apply Z.log2_lt_pow2; [lia|].
      apply (Z.lt_le_trans _ (2 ^ n)); [lia|]. apply Z.pow_le_mono_r; lia. }
  rewrite Z.shiftl_mul_pow2 in * by done. lia.
Qed.

Lemma Uint32_sum b0 b1 b2 b3 rest :
  Uint32 (b0 :: b1 :: b2 :: b3 :: rest) =
  Z_of_byte b3 + Z_of_byte b2 * 2 ^ 8 + Z_of_byte b1 * 2 ^ 16 + Z_of_byte b0 * 2 ^ 24.
Proof.
  pose proof (Z_of_byte_range b0). pose proof (Z_of_byte_range b1).
  pose proof (Z_of_byte_range b2). pose proof (Z_of_byte_range b3).
  unfold Uint32.
  replace (Z.shiftl (Z_of_byte b0) 24) with (Z.shiftl (Z.shiftl (Z_of_byte b0) 8) 16)
    by (rewrite Z.shiftl_shiftl; [done|lia]).
  rewrite <- Z.shiftl_lor.
  replace (Z.shiftl (Z.lor (Z_of_byte b1) (Z.shiftl (Z_of_byte b0) 8)) 16)
    with (Z.shiftl (Z.shiftl (Z.lor (Z_of_byte b1) (Z.shiftl (Z_of_byte b0) 8)) 8) 8)
    by (rewrite Z.shiftl_shiftl; [done|lia]).
  rewrite <- Z.shiftl_lor. rewrite !lor_add by lia. lia.
Qed.

Lemma Uint32_Put v : Uint32 (PutUint32 v) = u32 v.
Proof.
  unfold PutUint32. rewrite Uint32_sum, !Z_of_byte_of_Z, !Z.shiftr_div_pow2 by lia. unfold u32.
  change (2 ^ 24) with (2 ^ 8 * 2 ^ 8 * 2 ^ 8). change (2 ^ 16) with (2 ^ 8 * 2 ^ 8).
  change (2 ^ 32) with (2 ^ 8 * 2 ^ 8 * 2 ^ 8 * 2 ^ 8). change 256 with (2 ^ 8).
  rewrite <- !Z.div_div by lia. rewrite <- !(Z.mul_comm (2 ^ 8)).
  rewrite !Z.rem_mul_r by lia. rewrite <- !Z.div_div by lia. lia.
Qed.

Lemma PutUint32_len v : length (PutUint32 v) = 4%nat.
Proof. done. Qed.

Lemma Uint32_range b : 0 <= Uint32 b < 2 ^ 32.
Proof.
  destruct b as [|b0 [|b1 [|b2 [|b3 rest]]]]; try done. rewrite Uint32_sum.
  pose proof (Z_of_byte_range b0). pose proof (Z_of_byte_range b1).
  pose proof (Z_of_byte_range b2). pose proof (Z_of_byte_range b3). lia.
Qed.

Lemma Put_Uint32 b : length b = 4%nat -> PutUint32 (Uint32 b) = b.
Proof.
  destruct b as [|b0 [|b1 [|b2 [|b3 [|]]]]]; try done. intros _. rewrite Uint32_sum. unfold PutUint32.
  pose proof (Z_of_byte_range b0). pose proof (Z_of_byte_range b1).
  pose proof (Z_of_byte_range b2). pose proof (Z_of_byte_range b3).
  assert (Hb : forall z b, (z mod 256 = Z_of_byte b) -> byte_of_Z z = b).
  { intros z b Hz. rewrite <- (byte_of_Z_of_byte b), <- Hz. unfold byte_of_Z. by rewrite Z.mod_mod. }
  rewrite !Z.shiftr_div_pow2 by lia. refine (f_equal4 (fun a b c d => [a; b; c; d]) _ _ _ _); apply Hb; Z.to_euclidean_division_equations; lia.
Qed.

(** * Decimal file names *)

(** [list_ascii_of_string] under a short name. *)
Definition chars (s : string) : list Ascii.ascii := String.list_ascii_of_string s.

Lemma chars_app s1 s2 : chars (s1 +:+ s2) = chars s1 ++ chars s2.
Proof. unfold chars. induction s1 as [|c s1 IH]; [done|]. exact (f_equal (cons c) IH). Qed.

Lemma chars_inj s1 s2 : chars s1 = chars s2 -> s1 = s2.
Proof.
  intros H. rewrite <- (String.string_of_list_ascii_of_string s1),
    <- (String.string_of_list_ascii_of_string s2). unfold chars in H. by rewrite H.
Qed.

(** The [k] least significant decimal digits of [n], most significant first. *)
Fixpoint digits (k : nat) (n : Z) : list Z :=
  match k with
  | O => []
  | S k => digits k (n / 10) ++ [n mod 10]
  end.

Definition ascii_of_digit (d : Z) : Ascii.ascii := Ascii.ascii_of_N (Z.to_N (48 + d)).

(** [fmt.Sprintf("%020d", n)]: 20 characters, since a 64-bit integer has at most
    19 digits. *)
Definition Sprintf020d (n : Z) : string :=
  if n <? 0
  then "-" +:+ String.string_of_list_ascii (map ascii_of_digit (digits 19 (- n)))
  else String.string_of_list_ascii (map ascii_of_digit (digits 20 n)).

Definition digit_of_ascii (c : Ascii.ascii) : option Z :=
  let v := Z.of_N (Ascii.N_of_ascii c) in
  if (48 <=? v) && (v <=? 57) then Some (v - 48) else None.

(** The digits read from the left, [acc] being the value so far. *)
Fixpoint parse_digits (l : list Ascii.ascii) (acc : Z) : option Z :=
  match l with
  | [] => Some acc
  | c :: l => d ← digit_of_ascii c; parse_digits l (10 * acc + d)
  end.

(** [strconv.Atoi]: an optional sign, at least one digit, and the value in the
    range of a 64-bit integer. *)
Definition Atoi (s : string) : option Z :=
  let '(neg, ds) := match chars s with
    | c :: l => if Ascii.eqb c "-"%char then (true, l) else if Ascii.eqb c "+"%char then (false, l) else (false, c :: l)
    | [] => (false, [])
    end in
  if bool_decide (ds = []) then None
  else
    v ← parse_digits ds 0;
    let n := if (neg : bool) then - v else v in
    if (- 2 ^ 63 <=? n) && (n <? 2 ^ 63) then Some n else None.

Lemma digits_len k n : length (digits k n) = k.
Proof. revert n; induction k as [|k IH]; intros n; cbn; [done|]. rewrite length_app, IH. cbn. lia. Qed.

Lemma digit_of_ascii_of d : 0 <= d < 10 -> digit_of_ascii (ascii_of_digit d) = Some d.
Proof.
  intros Hd. unfold digit_of_ascii, ascii_of_digit.
  rewrite Ascii.N_ascii_embedding by lia. rewrite Z2N.id by lia.
  rewrite (proj2 (Z.leb_le _ _)), (proj2 (Z.leb_le _ _)) by lia. cbn. f_equal. lia.
Qed.

Lemma parse_digits_app l1 l2 acc :
  parse_digits (l1 ++ l2) acc = (v ← parse_digits l1 acc; parse_digits l2 v).
Proof.
  revert acc; induction l1 as [|c l1 IH]; intros acc; cbn; [done|].
  destruct (digit_of_ascii c); cbn; [apply IH|done].
Qed.

Lemma parse_digits_digits k n acc :
  0 <= n < 10 ^ Z.of_nat k -> parse_digits (map ascii_of_digit (digits k n)) acc = Some (10 ^ Z.of_nat k * acc + n).
Proof.
  revert n acc; induction k as [|k IH]; intros n acc Hn.
  - cbn in *. f_equal. lia.
  - cbn [digits]. rewrite map_app, parse_digits_app.
    rewrite Nat2Z.inj_succ, Z.pow_succ_r in * by lia.
    pose proof (Z.div_mod n 10 ltac:(lia)). pose proof (Z.mod_pos_bound n 10 eq_refl).
    rewrite IH by lia. cbn. rewrite digit_of_ascii_of by done. cbn. f_equal. nia.
Qed.

(** Printing then parsing an offset gives it back. *)
Lemma Atoi_Sprintf020d n : 0 <= n < 2 ^ 63 -> Atoi (Sprintf020d n) = Some n.
Proof.
  intros Hn. unfold Sprintf020d. rewrite (proj2 (Z.ltb_ge n 0)) by lia. unfold Atoi, chars.
  rewrite String.list_ascii_of_string_of_list_ascii.
  assert (Hp : parse_digits (map ascii_of_digit (digits 20 n)) 0 = Some n).
  { rewrite parse_digits_digits by (change (Z.of_nat 20) with 20; lia). done. }
  pose proof (digits_len 20 n) as Hl.
  destruct (map ascii_of_digit (digits 20 n)) as [|c l] eqn:E.
  { apply (f_equal length) in E. rewrite length_map, Hl in E. done. }
  assert (Hc : exists d, digit_of_ascii c = Some d).
  { cbn in Hp. destruct (digit_of_ascii c); [by eexists|done]. }
  destruct Hc as [d Hd].
  destruct (Ascii.eqb_spec c "-"%char) as [->|]; [done|]. destruct (Ascii.eqb_spec c "+"%char) as [->|]; [done|].
  rewrite bool_decide_false by done. rewrite Hp. cbn [mbind option_bind].
  by rewrite (proj2 (Z.leb_le _ _)), (proj2 (Z.ltb_lt _ _)) by lia.
Qed.

Lemma Sprintf020d_inj n1 n2 :
  0 <= n1 < 2 ^ 63 -> 0 <= n2 < 2 ^ 63 -> Sprintf020d n1 = Sprintf020d n2 -> n1 = n2.
Proof.
  intros H1 H2 E. apply (f_equal Atoi) in E. rewrite !Atoi_Sprintf020d in E by done. congruence.
Qed.

(** [strings.HasSuffix] and [strings.TrimSuffix]. *)
Definition HasSuffix (s suf : string) : bool :=
  let n := (length (chars s) - length (chars suf))%nat in
  (length (chars suf) <=? length (chars s))%nat && bool_decide (drop n (chars s) = chars suf).

Definition TrimSuffix (s suf : string) : string :=
  if HasSuffix s suf
  then String.string_of_list_ascii (take (length (chars s) - length (chars suf)) (chars s))
  else s.

Lemma HasSuffix_app s suf : HasSuffix (s +:+ suf) suf = true.
Proof.
  unfold HasSuffix. rewrite chars_app, length_app. apply andb_true_iff. split; [apply Nat.leb_le; lia|].
  apply bool_decide_eq_true. rewrite drop_app_length'; [done|lia].
Qed.

Lemma TrimSuffix_app s suf : TrimSuffix (s +:+ suf) suf = s.
Proof.
  unfold TrimSuffix. rewrite HasSuffix_app, chars_app, length_app.
  rewrite take_app_length' by lia. apply String.string_of_list_ascii_of_string.
Qed.

(** * Searching and sorting *)

(** The loop of [sort.Search], [fuel] bounding its iterations: [j - i] of them
    are enough, since each one shrinks the interval. *)
Fixpoint search_loop (fuel : nat) (f : Z -> option bool) (i j : Z) : option Z :=
  match fuel with
  | O => Some i
  | S fuel =>
      if i <? j then
        let h := (i + j) / 2 in
        b ← f h;
        if negb b then search_loop fuel f (h + 1) j else search_loop fuel f i h
      else Some i
  end.

Definition Search (n : Z) (f : Z -> option bool) : option Z := search_loop (Z.to_nat n) f 0 n.

Lemma search_loop_spec f p n fuel : forall i j,
  (forall k, 0 <= k < n -> f k = Some (p k)) -> (forall k k', 0 <= k <= k' -> k' < n -> p k = true -> p k' = true) ->
  0 <= i <= j -> j <= n -> j - i <= Z.of_nat fuel ->
  (forall k, 0 <= k < i -> p k = false) -> (forall k, j <= k < n -> p k = true) ->
  exists r, search_loop fuel f i j = Some r /\ i <= r <= j /\
    (forall k, 0 <= k < r -> p k = false) /\ (forall k, r <= k < n -> p k = true).
Proof.
  induction fuel as [|fuel IH]; intros i j Hf Hm Hij Hjn Hfuel Hlo Hhi; cbn [search_loop].
  { assert (i = j) as -> by lia. eauto with lia. }
  destruct (Z.ltb_spec i j) as [Hlt|].
  2:{ assert (i = j) as -> by lia. eauto with lia. }
  assert (Hh : i <= (i + j) / 2 < j) by (split; [apply Z.div_le_lower_bound|apply Z.div_lt_upper_bound]; lia).
  set (h := (i + j) / 2) in *. rewrite Hf by lia. cbn [mbind option_bind].
  destruct (p h) eqn:Ep; cbn [negb].
  - destruct (IH i h) as (r & E & Hr & H1 & H2); try done; try lia.
    { intros k Hk. apply (Hm h); [lia|lia|done]. }
    exists r. split_and!; try done; lia.
  - destruct (IH (h + 1) j) as (r & E & Hr & H1 & H2); try done; try lia.
    { intros k Hk. destruct (p k) eqn:Ek; [|done]. rewrite (Hm k h) in Ep; [done|lia|lia|done]. }
    exists r. split_and!; try done; lia.
Qed.

(** [sort.Search] finds the least index at which a monotone predicate holds. *)
Lemma Search_spec f p n :
  0 <= n -> (forall k, 0 <= k < n -> f k = Some (p k)) ->
  (forall k k', 0 <= k <= k' -> k' < n -> p k = true -> p k' = true) ->
  exists r, Search n f = Some r /\ 0 <= r <= n /\
    (forall k, 0 <= k < r -> p k = false) /\ (forall k, r <= k < n -> p k = true).
Proof. intros. apply (search_loop_spec f p n); try done; lia. Qed.

(** [sort.Ints]. *)
Definition Ints (l : list Z) : list Z := merge_sort Z.le l.

(** * FNV-1a, 32 bits *)

Definition fnv_offset32 : Z := 2166136261.
Definition fnv_prime32 : Z := 16777619.

Fixpoint fnv32a_write (h : Z) (data : bytes) : Z :=
  match data with
  | [] => h
  | b :: data => fnv32a_write (u32 (Z.lxor h (Z_of_byte b) * fnv_prime32)) data
  end.

Definition fnv32a (data : bytes) : Z := fnv32a_write fnv_offset32 data.

Lemma fnv32a_range data : 0 <= fnv32a data < 2 ^ 32.
Proof.
  unfold fnv32a. assert (Hh : 0 <= fnv_offset32 < 2 ^ 32) by done. revert Hh. generalize fnv_offset32.
  induction data as [|b data IH]; cbn; intros h Hh; [done|]. apply IH. by apply Z.mod_pos_bound.
Qed.

(** The bytes of a Go string. *)
Definition bytes_of_string (s : string) : bytes := String.list_byte_of_string s.

(** * [sort.Strings]: strings are compared byte by byte *)

Definition str_le (s1 s2 : string) : Prop := String.leb s1 s2 = true.

#[export] Instance str_le_dec : RelDecision str_le.
Proof. intros s1 s2. unfold str_le. apply _. Defined.

#[export] Instance str_le_total : Total str_le.
Proof. intros s1 s2. apply String.leb_total. Qed.

#[export] Instance str_le_antisymm : AntiSymm (=) str_le.
Proof. intros s1 s2. apply String.leb_antisym. Qed.

Lemma str_le_cons a1 s1 a2 s2 :
  str_le (String a1 s1) (String a2 s2) <->
  (Ascii.N_of_ascii a1 < Ascii.N_of_ascii a2)%N \/ a1 = a2 /\ str_le s1 s2.
Proof.
  unfold str_le, String.leb. cbn. unfold Ascii.compare. destruct (N.compare_spec (Ascii.N_of_ascii a1) (Ascii.N_of_ascii a2)) as [E|E|E].
  - assert (a1 = a2) as -> by (by rewrite <- (Ascii.ascii_N_embedding a1), E, Ascii.ascii_N_embedding).
    split; [by right|]. intros [?|[_ ?]]; [lia|done].
  - split; [by left|done].
  - split; [done|]. intros [?|[-> _]]; lia.
Qed.

#[export] Instance str_le_trans : Transitive str_le.
Proof.
  intros s1. induction s1 as [|a1 s1 IH]; intros [|a2 s2] [|a3 s3]; try done.
  rewrite !str_le_cons. intros [H1|[-> H1]] [H2|[-> H2]]; [left; lia|by left|by left|right]. split; [done|by eapply IH].
Qed.

Definition Strings (l : list string) : list string := merge_sort str_le l.

(** The result depends only on what is sorted. *)
Lemma Strings_unique l1 l2 : l1 ≡ₚ l2 -> Strings l1 = Strings l2.
Proof.
  intros H. apply (Sorted_unique str_le); [apply (Sorted_merge_sort _)..|]. unfold Strings. by rewrite !merge_sort_Permutation.
Qed.
