(* ===== verification/Persister.v ===== *)
(** The store of a peer's state between a crash and a restart
    ([raft/persister.go]).

    The bytes are shared, not copied: [SaveRaftState] keeps the caller's slice,
    [ReadRaftState] hands it out and [Copy] shares it, so a write through any of
    them shows in all.  A slice is the array it points into, with its part of it;
    [mem] is the contents of the arrays. *)
From S2P Require Import Prelude GoLib.
#[local] Open Scope Z_scope.

Record Slice := mkSlice { array : Z; offset : Z; len : Z }.

(** The [nil] slice has length zero and points nowhere. *)
Definition nil_slice : Slice := mkSlice 0 0 0.

Definition contents (mem : gmap Z bytes) (s : Slice) : bytes := take (Z.to_nat (len s)) (drop (Z.to_nat (offset s)) (mapget [] mem (array s))).

(** [s[i] = b]; [None] is a panic. *)
Definition write (s : Slice) (i : Z) (b : Byte.byte) (mem : gmap Z bytes) : option (gmap Z bytes) :=
  if (0 <=? i) && (i <? len s)
  then Some (<[array s := <[Z.to_nat (offset s + i) := b]> (mapget [] mem (array s))]> mem)
  else None.

Record Persister := mkPersister { raftstate : Slice }.

Definition MakePersister : Persister := mkPersister nil_slice.
Definition Copy (ps : Persister) : Persister := mkPersister (raftstate ps).
Definition ReadRaftState (ps : Persister) : Slice := raftstate ps.
Definition SaveRaftState (state : Slice) (ps : Persister) : Persister := mkPersister state.
Definition RaftStateSize (ps : Persister) : Z := len (raftstate ps).

(** What was saved is read back, by a copy too, for as long as nobody writes into
    the array of the caller's buffer; a write into it shows. *)
Lemma save_read mem mem' state ps :
  mapget [] mem' (array state) = mapget [] mem (array state) ->
  contents mem' (ReadRaftState (Copy (SaveRaftState state ps))) = contents mem state /\
  RaftStateSize (Copy (SaveRaftState state ps)) = len state.
Proof. intros H. cbn. unfold contents. by rewrite H. Qed.

Lemma write_shows mem mem' state ps i b :
  0 <= offset state -> offset state + len state <= zlen (mapget [] mem (array state)) -> write state i b mem = Some mem' ->
  (contents mem' (ReadRaftState (Copy (SaveRaftState state ps)))) @[i] = Some b.
Proof.
  intros H0 Hl. unfold write. destruct (0 <=? i) eqn:E0; [|done]. destruct (i <? len state) eqn:E1; [|done]. cbn [andb]. intros [= <-].
  unfold contents, zget, zlen in *. rewrite (proj2 (Z.ltb_ge _ _)) by lia.
  cbn [ReadRaftState Copy SaveRaftState raftstate].
  rewrite lookup_take_lt, lookup_drop by lia. rewrite mapget_insert.
  replace (Z.to_nat (offset state) + Z.to_nat i)%nat with (Z.to_nat (offset state + i)) by lia.
  apply list_lookup_insert_eq. lia.
Qed.
