(* ===== verification/NetLib.v ===== *)
(** What the program uses of Go's [net] and [crypto/x509] packages on addresses
    and host names: [net.ParseIP], [net.SplitHostPort] and the matching of a
    host name against the names in a certificate. *)
From Stdlib Require Import Strings.Ascii.
From S2P Require Import Prelude GoLib.

#[local] Open Scope char_scope.
#[local] Open Scope Z_scope.

(** * Characters *)

Definition code (c : ascii) : Z := Z.of_N (N_of_ascii c).
Definition between (lo hi : Z) (c : ascii) : bool := (lo <=? code c) && (code c <=? hi).

Definition is_digit (c : ascii) : bool := between 48 57 c.
Definition is_upper (c : ascii) : bool := between 65 90 c.
Definition is_lower (c : ascii) : bool := between 97 122 c.

(** The value of a hexadecimal digit. *)
Definition hex_digit (c : ascii) : option Z :=
  if is_digit c then Some (code c - 48)
  else if between 97 102 c then Some (code c - 97 + 10)
  else if between 65 70 c then Some (code c - 65 + 10)
  else None.

(** [strings.IndexByte] and [strings.LastIndex] of one character. *)
Fixpoint index_byte (c : ascii) (l : list ascii) : option nat :=
  match l with
  | [] => None
  | x :: l => if bool_decide (x = c) then Some 0%nat else S <$> index_byte c l
  end.

Fixpoint last_index_byte (c : ascii) (l : list ascii) : option nat :=
  match l with
  | [] => None
  | x :: l => match last_index_byte c l with
              | Some i => Some (S i)
              | None => if bool_decide (x = c) then Some 0%nat else None
              end
  end.

Definition has_byte (c : ascii) (l : list ascii) : bool := bool_decide (is_Some (index_byte c l)).

(** [strings.Split] at one character. *)
Fixpoint split_byte (c : ascii) (l : list ascii) : list (list ascii) :=
  match l with
  | [] => [[]]
  | x :: l =>
      if bool_decide (x = c) then [] :: split_byte c l
      else match split_byte c l with
           | p :: ps => (x :: p) :: ps
           | [] => [[x]]
           end
  end.

(** * Addresses *)

(** An address in its sixteen-byte form. *)
Abbreviation IP := (list Z).

(** [parseIPv4Fields]: [val] and [digLen] describe the octet being read, [prev]
    says whether the last character was a dot or the string begins. *)
Fixpoint parseIPv4Fields (s : list ascii) (fields : list Z) (val digLen : Z) (prev : bool) : option (list Z) :=
  match s with
  | [] => if zlen fields <? 3 then None else Some (fields ++ [val])
  | c :: s =>
      if is_digit c then
        if (digLen =? 1) && (val =? 0) then None
        else
          let val := val * 10 + (code c - 48) in
          if 255 <? val then None else parseIPv4Fields s fields val (digLen + 1) false
      else if bool_decide (c = ".") then
        if prev || bool_decide (s = []) then None
        else if zlen fields =? 3 then None
        else parseIPv4Fields s (fields ++ [val]) 0 0 true
      else None
  end.

Definition ipv4_prefix : list Z := replicate 10 0 ++ [255; 255].

Definition parseIPv4 (s : list ascii) : option IP :=
  fields ← parseIPv4Fields s [] 0 0 true; Some (ipv4_prefix ++ fields).

(** The digits of one group: the value, and what follows. *)
Fixpoint hex_group (s : list ascii) (off acc : Z) : option (Z * Z * list ascii) :=
  match s with
  | c :: s' =>
      match hex_digit c with
      | Some d => if 3 <? off then None else hex_group s' (off + 1) (acc * 16 + d)
      | None => Some (off, acc, s)
      end
  | [] => Some (off, acc, [])
  end.

(** The loop of [parseIPv6]: [ip] are the bytes read, [ellipsis] is where the
    double colon was.  At most eight groups fit. *)
Fixpoint ipv6_groups (fuel : nat) (s : list ascii) (ip : list Z) (ellipsis : option Z)
    : option (list ascii * list Z * option Z) :=
  match fuel with
  | O => Some (s, ip, ellipsis)
  | S fuel =>
      '(off, acc, rest) ← hex_group s 0 0;
      if off =? 0 then None
      else match rest with
      | "." :: _ =>
          if bool_decide (ellipsis = None) && negb (zlen ip =? 12) then None
          else if 16 <? zlen ip + 4 then None
          else fields ← parseIPv4Fields s [] 0 0 true; Some ([], ip ++ fields, ellipsis)
      | _ =>
          let ip := ip ++ [acc / 256; acc mod 256] in
          match rest with
          | [] => Some ([], ip, ellipsis)
          | ":" :: [] => None
          | ":" :: ":" :: rest =>
              match ellipsis with
              | Some _ => None
              | None => if bool_decide (rest = []) then Some ([], ip, Some (zlen ip))
                        else ipv6_groups fuel rest ip (Some (zlen ip))
              end
          | ":" :: rest => ipv6_groups fuel rest ip ellipsis
          | _ => None
          end
      end
  end.

(** [parseIPv6]; an address with a zone is refused by [net.ParseIP]. *)
Definition parseIPv6 (s : list ascii) : option IP :=
  if has_byte "%" s then None
  else
    let '(s, ellipsis) := match s with ":" :: ":" :: s => (s, Some 0) | _ => (s, None) end in
    if bool_decide (ellipsis = Some 0) && bool_decide (s = []) then Some (replicate 16 0)
    else
      '(s, ip, ellipsis) ← ipv6_groups 8 s [] ellipsis;
      if negb (bool_decide (s = [])) then None
      else if zlen ip <? 16 then
        e ← ellipsis;
        Some (take (Z.to_nat e) ip ++ replicate (Z.to_nat (16 - zlen ip)) 0 ++ drop (Z.to_nat e) ip)
      else match ellipsis with Some _ => None | None => Some ip end.

(** [net.ParseIP]: the first dot, colon or percent sign decides. *)
Fixpoint ip_kind (s : list ascii) : option bool :=
  match s with
  | [] => None
  | "." :: _ => Some true
  | ":" :: _ => Some false
  | "%" :: _ => None
  | _ :: s => ip_kind s
  end.

Definition ParseIP (s : string) : option IP :=
  match ip_kind (chars s) with
  | Some true => parseIPv4 (chars s)
  | Some false => parseIPv6 (chars s)
  | None => None
  end.

Definition string_of (l : list ascii) : string := String.string_of_list_ascii l.

(** [net.SplitHostPort]. *)
Definition SplitHostPort (hostport : string) : option (string * string) :=
  let l := chars hostport in
  i ← last_index_byte ":" l;
  let port := string_of (drop (S i) l) in
  match l with
  | "[" :: l1 =>
      e ← index_byte "]" l;
      if negb (S e =? i)%nat then None
      else if has_byte "[" l1 || has_byte "]" (drop (S e) l) then None
      else Some (string_of (drop 1 (take e l)), port)
  | _ =>
      let host := take i l in
      if has_byte ":" host then None
      else if has_byte "[" l || has_byte "]" l then None
      else Some (string_of host, port)
  end.

(** * Host names *)

Definition lower_char (c : ascii) : ascii := if is_upper c then ascii_of_N (Z.to_N (code c + 32)) else c.

(** [toLowerCaseASCII]. *)
Definition lower (l : list ascii) : list ascii := map lower_char l.

Definition trim_dot (l : list ascii) : list ascii :=
  match reverse l with "." :: r => reverse r | _ => l end.

(** A character of a label at position [j]. *)
Definition label_char (j : nat) (c : ascii) : bool :=
  is_lower c || is_digit c || is_upper c || (bool_decide (c = "-") && negb (j =? 0)%nat) || bool_decide (c = "_").

Definition label_ok (isPattern : bool) (i : nat) (part : list ascii) : bool :=
  if bool_decide (part = []) then false
  else if isPattern && (i =? 0)%nat && bool_decide (part = ["*"]) then true
  else forallb (fun '(j, c) => label_char j c) (imap pair part).

(** [validHostname]. *)
Definition validHostname (host : list ascii) (isPattern : bool) : bool :=
  let host := if isPattern then host else trim_dot host in
  if bool_decide (host = []) then false
  else if bool_decide (host = ["*"]) then false
  else forallb (fun '(i, part) => label_ok isPattern i part) (imap pair (split_byte "." host)).

Definition matchExactly (a b : list ascii) : bool :=
  if bool_decide (a = []) || bool_decide (a = ["."]) || bool_decide (b = []) || bool_decide (b = ["."]) then false
  else bool_decide (lower a = lower b).

Fixpoint match_parts (first : bool) (pat host : list (list ascii)) : bool :=
  match pat, host with
  | [], [] => true
  | p :: pat, h :: host => ((first && bool_decide (p = ["*"])) || bool_decide (p = h)) && match_parts false pat host
  | _, _ => false
  end.

Definition matchHostnames (pattern host : list ascii) : bool :=
  let pattern := lower pattern in
  let host := lower (trim_dot host) in
  if bool_decide (pattern = []) || bool_decide (host = []) then false
  else match_parts true (split_byte "." pattern) (split_byte "." host).

(** Whether the name of a DNS entry of a certificate covers [host]. *)
Definition matchName (host : string) (name : string) : bool :=
  let candidate := lower (chars host) in
  let m := chars name in
  if validHostname candidate false && validHostname m true then matchHostnames m candidate else matchExactly m candidate.

(** An IP address may be written in brackets. *)
Definition unbracket (h : string) : string :=
  match chars h with
  | "[" :: l => match reverse l with
                | "]" :: ((_ :: _) as r) => string_of (reverse r)
                | _ => h
                end
  | _ => h
  end.

(** [isIA5String]. *)
Definition isIA5String (s : string) : bool := forallb (fun c => code c <=? 127) (chars s).

(** * Matching a name against itself *)

Lemma lower_char_idem c : lower_char (lower_char c) = lower_char c.
Proof. destruct c as [[] [] [] [] [] [] [] []]; reflexivity. Qed.

Lemma lower_idem l : lower (lower l) = lower l.
Proof. unfold lower. rewrite map_map. apply map_ext. apply lower_char_idem. Qed.

Lemma match_parts_refl first ps : match_parts first ps ps = true.
Proof. revert first; induction ps as [|p ps IH]; intros; cbn; [done|]. rewrite (bool_decide_true (p = p)), orb_true_r by done. apply IH. Qed.

Lemma split_byte_cons c l : exists p ps, split_byte c l = p :: ps.
Proof. destruct l as [|x l]; cbn; [by eexists _, _|]. case_bool_decide; [by eexists _, _|]. destruct (split_byte c l); by eexists _, _. Qed.

Lemma split_byte_snoc c l : split_byte c (l ++ [c]) = split_byte c l ++ [[]].
Proof.
  induction l as [|x l IH]; cbn; [by rewrite bool_decide_eq_true_2|]. case_bool_decide; [by rewrite IH|].
  rewrite IH. by destruct (split_byte_cons c l) as (p & ps & ->).
Qed.

Lemma trim_dot_valid h : validHostname h true = true -> trim_dot h = h.
Proof.
  intros H. unfold trim_dot. destruct (reverse h) as [|c r] eqn:E; [done|].
  assert (Hh : h = reverse r ++ [c]) by (rewrite <- (reverse_involutive h), E; by rewrite reverse_cons).
  destruct (decide (c = ".")) as [->|Hc].
  2:{ destruct c as [[] [] [] [] [] [] [] []]; try done. }
  exfalso. unfold validHostname in H. case_bool_decide; [done|]. case_bool_decide; [done|].
  rewrite Hh, split_byte_snoc, imap_app, forallb_app in H. cbn in H. by rewrite andb_false_r in H.
Qed.

Lemma lower_trim h : lower (trim_dot h) = trim_dot (lower h).
Proof.
  assert (Hr : reverse (lower h) = lower (reverse h)) by (symmetry; apply (fmap_reverse lower_char)).
  unfold trim_dot. rewrite Hr. destruct (reverse h) as [|c r] eqn:E; [done|].
  destruct c as [[] [] [] [] [] [] [] []]; cbn; try reflexivity; apply (fmap_reverse lower_char).
Qed.

(** Every name but the empty one and a single dot covers itself. *)
Lemma matchName_self h : h <> ""%string -> h <> "."%string -> matchName h h = true.
Proof.
  intros H0 H1. assert (C0 : chars h <> []) by (intros E; apply H0, chars_inj; by rewrite E).
  assert (C1 : chars h <> ["."]) by (intros E; apply H1, chars_inj; by rewrite E).
  assert (L0 : lower (chars h) <> []) by (destruct (chars h); done).
  unfold matchName. destruct (_ && _) eqn:E.
  - apply andb_true_iff in E as [_ Hv]. unfold matchHostnames. rewrite <- lower_trim, lower_idem, (trim_dot_valid _ Hv).
    rewrite bool_decide_false by done. apply match_parts_refl.
  - assert (L1 : lower (chars h) <> ["."]).
    { intros Hl. destruct (chars h) as [|c [|]]; cbn in Hl; try done. injection Hl as Hl. apply C1.
      destruct c as [[] [] [] [] [] [] [] []]; done. }
    unfold matchExactly. rewrite (bool_decide_false _ C0), (bool_decide_false _ C1), (bool_decide_false _ L0), (bool_decide_false _ L1).
    cbn [orb]. by rewrite bool_decide_true by by rewrite lower_idem.
Qed.

(** An address literal is not in brackets. *)
Lemma ParseIP_unbracket h ip : ParseIP h = Some ip -> unbracket h = h.
Proof.
  unfold ParseIP, unbracket. destruct (chars h) as [|c l] eqn:E; [done|]. destruct (decide (c = "[")) as [->|Hc].
  - assert (H4 : parseIPv4 ("[" :: l) = None) by reflexivity.
    assert (H6 : parseIPv6 ("[" :: l) = None) by (unfold parseIPv6; destruct (has_byte _ _); reflexivity).
    rewrite H4, H6. by destruct (ip_kind _) as [[]|].
  - intros _. clear E. destruct c as [[] [] [] [] [] [] [] []]; try reflexivity. by destruct Hc.
Qed.
