(* ===== verification/Tls.v ===== *)
(** Certificates and TLS ([security/tls.go]): the authority, the server
    certificates it issues, and who completes a handshake with a client that
    trusts it.

    What the code uses of [crypto/x509], [crypto/tls] and [encoding/pem] is
    modelled symbolically: a key pair is a number, a signature is the number of
    the key that made it, a DER document is the value it encodes and a PEM text
    is the list of its blocks.  Chain building follows [x509.Certificate.Verify]
    step by step; name constraints, which nothing here sets, are left out.
    Random draws and clock readings (in nanoseconds) are arguments. *)
From S2P Require Import Prelude GoLib NetLib.

#[local] Open Scope Z_scope.
#[local] Set Warnings "-clear-no-such-hyp".

(** * Certificates *)

Definition KeyUsageDigitalSignature : Z := 1.
Definition KeyUsageKeyEncipherment : Z := 4.
Definition KeyUsageCertSign : Z := 32.
Definition ExtKeyUsageAny : Z := 0.
Definition ExtKeyUsageServerAuth : Z := 1.

(** What a caller of [x509.CreateCertificate] fills in of an [x509.Certificate]. *)
Record Template := mkTemplate {
  t_SerialNumber : Z;
  t_Subject : string;
  t_NotBefore : Z;
  t_NotAfter : Z;
  t_IsCA : bool;
  t_KeyUsage : Z;
  t_ExtKeyUsage : list Z;
  t_BasicConstraintsValid : bool;
  t_DNSNames : list string;
  t_IPAddresses : list IP
}.

(** A certificate as [x509.ParseCertificate] returns it; times in seconds,
    [SignedBy] the key that made the signature, [MaxPathLen] -1 when absent. *)
Record Certificate := mkCertificate {
  CertVersion : Z;
  SerialNumber : Z;
  Subject : string;
  Issuer : string;
  NotBefore : Z;
  NotAfter : Z;
  IsCA : bool;
  BasicConstraintsValid : bool;
  MaxPathLen : Z;
  KeyUsage : Z;
  ExtKeyUsage : list Z;
  DNSNames : list string;
  IPAddresses : list IP;
  SubjectKeyId : option Z;
  AuthorityKeyId : option Z;
  UnhandledCritical : bool;
  PublicKey : Z;
  SignedBy : Z
}.

#[export] Instance Certificate_eq_dec : EqDecision Certificate.
Proof. solve_decision. Defined.

Definition second : Z := 1000000000.

(** [x509.CreateCertificate(rand, template, parent, pub, priv)].  The names must
    be ASCII, times are cut to seconds, an authority gets a key identifier; a
    [parent] that is itself a template has none to refer to. *)
Definition CreateCertificate (template parent : Template) (pub priv : Z) : res Certificate :=
  if negb (forallb isIA5String (t_DNSNames template)) then Err "x509: cannot be encoded as an IA5String"
  else Ok (mkCertificate 3 (t_SerialNumber template) (t_Subject template) (t_Subject parent)
             (t_NotBefore template / second) (t_NotAfter template / second)
             (t_BasicConstraintsValid template && t_IsCA template) (t_BasicConstraintsValid template) (-1)
             (t_KeyUsage template) (t_ExtKeyUsage template) (t_DNSNames template) (t_IPAddresses template)
             (if t_IsCA template then Some pub else None) None false pub priv).

(** * PEM *)

Inductive Der := DerCertificate (c : Certificate) | DerPKCS1 (k : Z) | DerOther (b : bytes).

Record Block := mkBlock { BlockType : string; BlockHeaders : bool; BlockBytes : Der }.

(** A PEM text: its blocks, in order; what is between them is skipped. *)
Abbreviation Pem := (list Block).

Definition EncodeToMemory (ty : string) (d : Der) : Pem := [mkBlock ty false d].

Definition ParseCertificate (d : Der) : option Certificate :=
  match d with DerCertificate c => Some c | _ => None end.

(** * The authority *)

Record CA := mkCA { CertPEM : Pem; KeyPEM : Pem; ca_cert : Template; ca_key : Z }.

(** [rsa.GenerateKey]: the key drawn, if the random source does not fail. *)
Definition GenerateKey (draw : option Z) : res Z :=
  match draw with Some k => Ok k | None => Err "rand" end.

Definition minute : Z := 60 * second.
Definition hour : Z := 60 * minute.

(** [res] with another message. *)
Definition wrap {A} (msg : string) (r : res A) : res A := match r with Ok a => Ok a | Err _ => Err msg end.

(** [now] and [now'] are the two readings of the clock. *)
Definition GenerateCA (draw : option Z) (now now' : Z) : res CA :=
  key ← wrap "generate CA key" (GenerateKey draw);
  let template := mkTemplate 1 "ledgerdb-test-ca" (now - minute) (now' + hour) true
                    (Z.lor KeyUsageCertSign KeyUsageDigitalSignature) [] true [] [] in
  cert ← wrap "create CA cert" (CreateCertificate template template key key);
  Ok (mkCA (EncodeToMemory "CERTIFICATE" (DerCertificate cert)) (EncodeToMemory "RSA PRIVATE KEY" (DerPKCS1 key)) template key).

Definition IssueServerCert (ca : CA) (host : string) (draw : option Z) (now now' : Z) : res (Pem * Pem) :=
  key ← wrap "generate server key" (GenerateKey draw);
  let '(dns, ips) := match ParseIP host with Some ip => ([], [ip]) | None => ([host], []) end in
  let template := mkTemplate 2 host (now - minute) (now' + hour) false
                    (Z.lor KeyUsageDigitalSignature KeyUsageKeyEncipherment) [ExtKeyUsageServerAuth] false dns ips in
  cert ← wrap "create server cert" (CreateCertificate template (ca_cert ca) key (ca_key ca));
  Ok (EncodeToMemory "CERTIFICATE" (DerCertificate cert), EncodeToMemory "RSA PRIVATE KEY" (DerPKCS1 key)).

(** * Configurations *)

Definition VersionTLS12 : Z := 771.
Definition VersionTLS13 : Z := 772.

(** A server of the handshake: the versions it speaks, the chain it presents and
    the key it holds. *)
Record ServerConfig := mkServer { sv_min : Z; sv_max : Z; sv_chain : list Der; sv_key : Z }.

(** The roots a client trusts and its least version. *)
Record ClientConfig := mkClient { cl_roots : list Certificate; cl_min : Z }.

Definition is_key_type (ty : string) : bool := bool_decide (ty = "PRIVATE KEY"%string) || HasSuffix ty " PRIVATE KEY".

(** [tls.X509KeyPair]. *)
Definition X509KeyPair (certPEM keyPEM : Pem) : res (list Der * Z) :=
  let chain := BlockBytes <$> filter (fun b => BlockType b = "CERTIFICATE"%string) certPEM in
  match chain with
  | [] => Err "tls: failed to find any PEM data in certificate input"
  | leaf :: _ =>
      match filter (fun b => is_key_type (BlockType b) = true) keyPEM with
      | [] => Err "tls: failed to find any PEM data in key input"
      | kb :: _ =>
          match ParseCertificate leaf with
          | None => Err "x509: malformed certificate"
          | Some c =>
              match BlockBytes kb with
              | DerPKCS1 k => if PublicKey c =? k then Ok (chain, k) else Err "tls: private key does not match public key"
              | _ => Err "tls: failed to parse private key"
              end
          end
      end
  end.

Definition ServerTLSConfig (certPEM keyPEM : Pem) : res ServerConfig :=
  '(chain, key) ← wrap "load server keypair" (X509KeyPair certPEM keyPEM);
  Ok (mkServer VersionTLS12 VersionTLS13 chain key).

(** [CertPool.AppendCertsFromPEM]: the certificates added. *)
Definition AppendCertsFromPEM (pem : Pem) : list Certificate :=
  omap (fun b => if bool_decide (BlockType b = "CERTIFICATE"%string) && negb (BlockHeaders b)
                 then ParseCertificate (BlockBytes b) else None) pem.

Definition ClientTLSConfig (caCertPEM : Pem) : res ClientConfig :=
  match AppendCertsFromPEM caCertPEM with
  | [] => Err "failed to parse CA certificate"
  | pool => Ok (mkClient pool VersionTLS12)
  end.

(** * Verification *)

Inductive certType := leafCertificate | intermediateCertificate | rootCertificate.
#[export] Instance certType_eq_dec : EqDecision certType.
Proof. solve_decision. Defined.

(** The validity in time; [now] in nanoseconds. *)
Definition in_time (now : Z) (c : Certificate) : bool :=
  (NotBefore c * second <=? now) && (now <=? NotAfter c * second).

(** [isValid]; [chain] is the chain so far, leaf first. *)
Definition isValid (now : Z) (ty : certType) (chain : list Certificate) (c : Certificate) : bool :=
  if UnhandledCritical c then false
  else if match last chain with Some child => negb (bool_decide (Issuer child = Subject c)) | None => false end then false
  else if negb (in_time now c) then false
  else if bool_decide (ty = intermediateCertificate) && (negb (BasicConstraintsValid c) || negb (IsCA c)) then false
  else negb (BasicConstraintsValid c && (0 <=? MaxPathLen c) && (MaxPathLen c <? zlen chain - 1)).

(** [VerifyHostname]. *)
Definition VerifyHostname (c : Certificate) (h : string) : bool :=
  match ParseIP (unbracket h) with
  | Some ip => bool_decide (ip ∈ IPAddresses c)
  | None => existsb (matchName h) (DNSNames c)
  end.

(** [CheckSignatureFrom]. *)
Definition CheckSignatureFrom (c parent : Certificate) : bool :=
  if ((CertVersion parent =? 3) && negb (BasicConstraintsValid parent)) || (BasicConstraintsValid parent && negb (IsCA parent)) then false
  else if negb (KeyUsage parent =? 0) && (Z.land (KeyUsage parent) KeyUsageCertSign =? 0) then false
  else SignedBy c =? PublicKey parent.

Definition has_san (c : Certificate) : bool := negb (bool_decide (DNSNames c = [] /\ IPAddresses c = [])).

(** [alreadyInChain]. *)
Fixpoint alreadyInChain (candidate : Certificate) (chain : list Certificate) : bool :=
  match chain with
  | [] => false
  | c :: chain =>
      if negb (bool_decide (Subject candidate = Subject c)) || negb (PublicKey candidate =? PublicKey c)
      then alreadyInChain candidate chain
      else if negb (has_san candidate) && negb (has_san c) then true
      else if negb (has_san candidate) || negb (has_san c) then false
      else if bool_decide (DNSNames candidate = DNSNames c /\ IPAddresses candidate = IPAddresses c) then true
      else alreadyInChain candidate chain
  end.

(** [CertPool.findPotentialParents]: the likely ones first. *)
Definition findPotentialParents (pool : list Certificate) (c : Certificate) : list Certificate :=
  let named := filter (fun p => Subject p = Issuer c) pool in
  let matches p := bool_decide (SubjectKeyId p = AuthorityKeyId c) in
  let one p := bool_decide (is_Some (SubjectKeyId p) <-> AuthorityKeyId c = None) in
  filter (fun p => matches p = true) named ++
  filter (fun p => matches p = false /\ one p = true) named ++
  filter (fun p => matches p = false /\ one p = false) named.

Section chains.
Context (roots inters : list Certificate) (now : Z).

Definition maxChainSignatureChecks : nat := 100.

(** [considerCandidate] of [buildChains]: the chains found and the signature
    checks left; [build] goes on from an intermediate certificate. *)
Definition considerCandidate (build : Certificate -> list Certificate -> nat -> list (list Certificate) * nat)
    (c : Certificate) (chain : list Certificate) (ty : certType) (acc : list (list Certificate) * nat) (candidate : Certificate)
    : list (list Certificate) * nat :=
  let '(found, checks) := acc in
  if alreadyInChain candidate chain then (found, checks)
  else match checks with
  | O => (found, O)
  | S checks =>
      if negb (CheckSignatureFrom c candidate) then (found, checks)
      else if negb (isValid now ty chain candidate) then (found, checks)
      else match ty with
           | rootCertificate => (found ++ [chain ++ [candidate]], checks)
           | _ => let '(more, checks) := build candidate (chain ++ [candidate]) checks in (found ++ more, checks)
           end
  end.

(** [buildChains]; [fuel] bounds the depth, and every level uses up a signature
    check. *)
Fixpoint buildChains (fuel : nat) (c : Certificate) (chain : list Certificate) (checks : nat) : list (list Certificate) * nat :=
  match fuel with
  | O => ([], checks)
  | S fuel =>
      let acc := foldl (considerCandidate (buildChains fuel) c chain rootCertificate) ([], checks) (findPotentialParents roots c) in
      foldl (considerCandidate (buildChains fuel) c chain intermediateCertificate) acc (findPotentialParents inters c)
  end.

(** [checkChainForKeyUsage] for server authentication. *)
Definition checkChainForKeyUsage (chain : list Certificate) : bool :=
  forallb (fun c => bool_decide (ExtKeyUsage c = []) || bool_decide (ExtKeyUsageAny ∈ ExtKeyUsage c) ||
                    bool_decide (ExtKeyUsageServerAuth ∈ ExtKeyUsage c)) chain.

(** [Certificate.Verify] with a server name that is not empty. *)
Definition Verify (c : Certificate) (name : string) : bool :=
  if negb (isValid now leafCertificate [] c) then false
  else if negb (VerifyHostname c name) then false
  else
    let candidateChains := if bool_decide (c ∈ roots) then [[c]]
                           else fst (buildChains (S maxChainSignatureChecks) c [c] maxChainSignatureChecks) in
    existsb checkChainForKeyUsage candidateChains.

End chains.

(** The client's side of the handshake with a server: a common version, the chain
    it presents parses and verifies for [name], and it proves that it holds the
    leaf's key. *)
Definition handshake (cl : ClientConfig) (name : string) (now : Z) (sv : ServerConfig) : bool :=
  if bool_decide (name = ""%string) then false
  else if negb (Z.max (cl_min cl) (sv_min sv) <=? Z.min VersionTLS13 (sv_max sv)) then false
  else match mapM ParseCertificate (sv_chain sv) with
  | Some (leaf :: inters) => Verify (cl_roots cl) inters now leaf name && (PublicKey leaf =? sv_key sv)
  | _ => false
  end.

(** * Who is accepted *)

(** A path of signatures from a certificate to a root that is valid at [now]. *)
Inductive path (roots inters : list Certificate) (now : Z) : Certificate -> Prop :=
| path_root c r : r ∈ roots -> CheckSignatureFrom c r = true -> in_time now r = true -> path roots inters now c
| path_step c p : p ∈ inters -> CheckSignatureFrom c p = true -> path roots inters now p -> path roots inters now c.

Lemma isValid_time now ty chain c : isValid now ty chain c = true -> in_time now c = true.
Proof.
  unfold isValid. destruct (UnhandledCritical c); [done|]. intros H. case_match; [done|]. by destruct (in_time now c).
Qed.

Lemma path_time root inters now c : path [root] inters now c -> in_time now root = true.
Proof. induction 1 as [c r ->%list_elem_of_singleton _ Ht|]; done. Qed.

Lemma findPotentialParents_in pool c p : p ∈ findPotentialParents pool c -> p ∈ pool.
Proof. unfold findPotentialParents. rewrite !elem_of_app, !list_elem_of_filter. tauto. Qed.

(** A fold that adds to a list of findings. *)
Lemma foldl_inv {A B} (P : B -> Prop) (f : B -> A -> B) (l : list A) : forall b,
  P b -> (forall b a, a ∈ l -> P b -> P (f b a)) -> P (foldl f b l).
Proof.
  induction l as [|a l IH]; intros b Hb Hf; [done|]. cbn. apply IH; [apply Hf; [by left|done]|]. intros b' a' Ha'. apply Hf. by right.
Qed.

Lemma buildChains_path roots inters now fuel : forall c chain checks,
  fst (buildChains roots inters now fuel c chain checks) <> [] -> path roots inters now c.
Proof.
  induction fuel as [|fuel IH]; intros c chain checks; cbn [buildChains]; [done|].
  apply (foldl_inv (fun b => fst b <> [] -> path roots inters now c)).
  - apply (foldl_inv (fun b => fst b <> [] -> path roots inters now c)); [done|].
    intros [found k] p Hp%findPotentialParents_in Hb. unfold considerCandidate.
    destruct (alreadyInChain p chain); [done|]. destruct k as [|k]; [done|].
    destruct (CheckSignatureFrom c p) eqn:Es; cbn [negb]; [|done].
    destruct (isValid _ _ _ _) eqn:Ev; cbn [negb]; [|done]. intros _. exact (path_root _ _ _ _ p Hp Es (isValid_time _ _ _ _ Ev)).
  - intros [found k] p Hp%findPotentialParents_in Hb. unfold considerCandidate.
    destruct (alreadyInChain p chain); [done|]. destruct k as [|k]; [done|].
    destruct (CheckSignatureFrom c p) eqn:Es; cbn [negb]; [|done]. destruct (isValid _ _ _ _); cbn [negb]; [|done].
    destruct (buildChains _ _ _ fuel p (chain ++ [p]) k) as [more k'] eqn:E. cbn [fst].
    intros Hne. destruct found as [|f found]; [|by apply Hb]. apply (path_step _ _ _ _ p Hp Es). apply (IH p (chain ++ [p]) k). by rewrite E.
Qed.

(** What a fold found stays. *)
Lemma foldl_found now build c chain ty l f : forall acc,
  f ∈ fst acc -> f ∈ fst (foldl (considerCandidate now build c chain ty) acc l).
Proof.
  intros acc Hf. apply (foldl_inv (fun b => f ∈ fst b)); [done|]. intros [found k] p _ Hin. unfold considerCandidate. cbn in Hin.
  destruct (alreadyInChain p chain); [done|]. destruct k as [|k]; [done|]. destruct (CheckSignatureFrom c p); [|done].
  destruct (isValid _ _ _ _); [|done]. destruct ty; cbn [negb fst]; try (apply elem_of_app; by left);
    (destruct (build p (chain ++ [p]) k); apply elem_of_app; by left).
Qed.

(** Two ways to go on that agree while there are checks left. *)
Lemma foldl_build now build build' c chain ty l n : (forall c chain k, (k < n)%nat -> build c chain k = build' c chain k /\ (snd (build c chain k) <= k)%nat) ->
  forall acc, (snd acc <= n)%nat ->
    foldl (considerCandidate now build c chain ty) acc l = foldl (considerCandidate now build' c chain ty) acc l /\
    (snd (foldl (considerCandidate now build c chain ty) acc l) <= snd acc)%nat.
Proof.
  intros Hb. induction l as [|p l IH]; intros acc Hacc; [by split|]. cbn.
  assert (H : considerCandidate now build c chain ty acc p = considerCandidate now build' c chain ty acc p /\
              (snd (considerCandidate now build c chain ty acc p) <= snd acc)%nat).
  { destruct acc as [found k]. cbn in *. destruct (alreadyInChain p chain); [by split|]. destruct k as [|k]; [by split|].
    destruct (CheckSignatureFrom c p); cbn; [|by split; [|lia]]. destruct (isValid _ _ _ _); cbn; [|by split; [|lia]].
    destruct (Hb p (chain ++ [p]) k ltac:(lia)) as [-> Hk].
    destruct ty; [| |by split; [|cbn; lia]]; (destruct (build' p (chain ++ [p]) k); cbn in *; split; [done|lia]). }
  destruct H as [E Hk]. rewrite <- E. destruct (IH (considerCandidate now build c chain ty acc p)) as [E2 Hk2]; [lia|]. split; [done|lia].
Qed.

(** The fuel of [Verify] is enough: more of it finds the same chains. *)
Lemma buildChains_fuel roots inters now fuel : forall fuel' c chain checks, (checks < fuel)%nat -> (checks < fuel')%nat ->
  buildChains roots inters now fuel c chain checks = buildChains roots inters now fuel' c chain checks /\
  (snd (buildChains roots inters now fuel c chain checks) <= checks)%nat.
Proof.
  induction fuel as [|fuel IH]; intros [|fuel'] c chain checks Hf Hf'; try lia. cbn [buildChains].
  assert (Hb : forall c chain k, (k < checks)%nat -> buildChains roots inters now fuel c chain k = buildChains roots inters now fuel' c chain k /\
    (snd (buildChains roots inters now fuel c chain k) <= k)%nat) by (intros; apply IH; lia).
  destruct (foldl_build now _ _ c chain rootCertificate (findPotentialParents roots c) checks Hb ([], checks) ltac:(cbn; lia)) as [E1 K1].
  rewrite <- E1. cbn [snd] in K1.
  destruct (foldl_build now _ _ c chain intermediateCertificate (findPotentialParents inters c) checks Hb
    (foldl (considerCandidate now (buildChains roots inters now fuel) c chain rootCertificate) ([], checks) (findPotentialParents roots c)) K1)
    as [E2 K2].
  split; [exact E2|lia].
Qed.

(** The certificate is that of the authority, or issued by it. *)
Definition is_authority (ca : CA) (c : Certificate) : Prop := CertPEM ca = EncodeToMemory "CERTIFICATE" (DerCertificate c).
Definition issued (ca : CA) (c : Certificate) : Prop :=
  exists host draw m m' keyPEM, IssueServerCert ca host draw m m' = Ok (EncodeToMemory "CERTIFICATE" (DerCertificate c), keyPEM).

(** The validity the code gives a certificate made between [n] and [n']. *)
Definition lives (n n' now : Z) : Prop := (n - minute) / second * second <= now <= (n' + hour) / second * second.

Section authority.
Context (draw : option Z) (n n' : Z) (ca : CA) (HCA : GenerateCA draw n n' = Ok ca).

Lemma authority_shape : exists root, is_authority ca root /\ PublicKey root = ca_key ca /\ SignedBy root = ca_key ca /\
  Subject root = t_Subject (ca_cert ca) /\ SerialNumber root = 1 /\ DNSNames root = [] /\ IPAddresses root = [] /\
  ExtKeyUsage root = [] /\ NotBefore root = (n - minute) / second /\ NotAfter root = (n' + hour) / second /\
  (forall c, CheckSignatureFrom c root = (SignedBy c =? ca_key ca)) /\
  (forall now ty chain, isValid now ty chain root =
     match last chain with Some child => bool_decide (Issuer child = Subject root) | None => true end && in_time now root).
Proof.
  unfold GenerateCA in HCA. destruct draw as [k|]; [|done]. cbn in HCA. injection HCA as <-. cbn.
  eexists. split; [done|]. cbn. split_and!; try done. intros now ty chain. unfold isValid. cbn -[in_time].
  rewrite andb_false_r. destruct (last chain) as [child|]; [destruct (bool_decide _)|]; cbn -[in_time]; try done; by destruct (in_time _ _).
Qed.

(** What [IssueServerCert] makes. *)
Lemma issue_shape host d m m' cp kp : IssueServerCert ca host d m m' = Ok (cp, kp) ->
  exists k leaf, d = Some k /\ cp = EncodeToMemory "CERTIFICATE" (DerCertificate leaf) /\ kp = EncodeToMemory "RSA PRIVATE KEY" (DerPKCS1 k) /\
    PublicKey leaf = k /\ SignedBy leaf = ca_key ca /\ Issuer leaf = t_Subject (ca_cert ca) /\ SerialNumber leaf = 2 /\
    CertVersion leaf = 3 /\ BasicConstraintsValid leaf = false /\ UnhandledCritical leaf = false /\ AuthorityKeyId leaf = None /\
    ExtKeyUsage leaf = [ExtKeyUsageServerAuth] /\ NotBefore leaf = (m - minute) / second /\ NotAfter leaf = (m' + hour) / second /\
    (DNSNames leaf, IPAddresses leaf) = match ParseIP host with Some ip => ([], [ip]) | None => ([host], []) end.
Proof.
  unfold IssueServerCert. destruct d as [k|]; [|done]. cbn -[isIA5String ParseIP]. destruct (ParseIP host) as [ip|]; cbn -[isIA5String].
  - intros [= <- <-]. by eexists k, _.
  - unfold CreateCertificate. cbn -[isIA5String]. rewrite andb_true_r. destruct (isIA5String host); [|done]. intros [= <- <-]. by eexists k, _.
Qed.

(** An issued certificate signs nothing. *)
Lemma issued_no_parent c p : issued ca p -> CheckSignatureFrom c p = true -> False.
Proof.
  intros (host & d & m & m' & kp & H). apply issue_shape in H as (k & leaf & _ & E & _ & _ & _ & _ & _ & Hv & Hb & _).
  injection E as <-. unfold CheckSignatureFrom. by rewrite Hv, Hb.
Qed.

(** Everything on a path to the authority is signed by it. *)
Lemma path_signed root inters now c : is_authority ca root ->
  (forall p, p ∈ inters -> SignedBy p = ca_key ca -> is_authority ca p \/ issued ca p) ->
  path [root] inters now c -> SignedBy c = ca_key ca.
Proof.
  intros Hr Hin. destruct authority_shape as (root' & Hr' & _ & _ & _ & _ & _ & _ & _ & _ & _ & Hs & _).
  assert (root' = root) as -> by (unfold is_authority in *; rewrite Hr in Hr'; by injection Hr').
  induction 1 as [c r ->%list_elem_of_singleton Hc _|c p Hp Hc _ IH]; [rewrite Hs in Hc; lia|].
  destruct (Hin p Hp IH) as [Ha|Hi]; [|by destruct (issued_no_parent c p Hi Hc)].
  assert (p = root) as -> by (unfold is_authority in *; rewrite Hr in Ha; by injection Ha). rewrite Hs in Hc. lia.
Qed.

Lemma authority_unique c c' : is_authority ca c -> is_authority ca c' -> c = c'.
Proof. unfold is_authority. intros -> H. by injection H. Qed.

Lemma lives_in_time m m' now c :
  NotBefore c = (m - minute) / second -> NotAfter c = (m' + hour) / second -> in_time now c = true <-> lives m m' now.
Proof. intros E1 E2. unfold in_time, lives. rewrite E1, E2, andb_true_iff, !Z.leb_le. done. Qed.

(** Verification against the authority alone, whatever else the server sends. *)
Lemma Verify_authority root inters leaf name now host d m m' kp : is_authority ca root ->
  IssueServerCert ca host d m m' = Ok (EncodeToMemory "CERTIFICATE" (DerCertificate leaf), kp) ->
  Verify [root] inters now leaf name = VerifyHostname leaf name && in_time now leaf && in_time now root.
Proof.
  intros Hr Hi. destruct authority_shape as (root' & Hr' & Hpk & _ & Hsub & Hser & Hdn & Hip & Heku & _ & _ & Hsig & Hval).
  assert (root' = root) as -> by by apply authority_unique.
  apply issue_shape in Hi as (k & leaf' & _ & E & _ & Hk & Hsb & His & Hserl & _ & Hbc & Huc & Hak & Hekul & _ & _ & Hsan).
  injection E as <-. assert (Hsanl : has_san leaf = true).
  { unfold has_san. destruct (ParseIP host) as [ip|]; injection Hsan as -> ->; rewrite bool_decide_false by (intros [? ?]; done); done. }
  assert (Hin : bool_decide (leaf ∈ [root]) = false).
  { apply bool_decide_false. intros ->%list_elem_of_singleton. congruence. }
  unfold Verify. rewrite Hin. unfold isValid at 1. rewrite Huc, Hbc. cbn -[in_time buildChains VerifyHostname].
  destruct (in_time now leaf) eqn:Et; [|by rewrite andb_false_r]. cbn [negb]. destruct (VerifyHostname leaf name); [|done]. cbn [negb andb].
  assert (Hal : alreadyInChain root [leaf] = false).
  { cbn [alreadyInChain]. destruct (_ || _); [done|]. assert (Hsr : has_san root = false) by (unfold has_san; by rewrite bool_decide_true).
    by rewrite Hsr, Hsanl. }
  assert (Hpar : root ∈ findPotentialParents [root] leaf).
  { unfold findPotentialParents. rewrite !elem_of_app, !list_elem_of_filter, list_elem_of_singleton.
    destruct (bool_decide (SubjectKeyId root = _)); [|destruct (bool_decide (is_Some _ <-> _))]; split_and?; naive_solver congruence. }
  destruct (in_time now root) eqn:Etr.
  - apply existsb_exists. exists [leaf; root]. split; [|cbn; rewrite Hekul, Heku; done]. apply list_elem_of_In.
    assert (Hfind : forall fuel k, [leaf; root] ∈ fst (buildChains [root] inters now (S fuel) leaf [leaf] (S k))); [|apply Hfind].
    intros fuel k'. cbn [buildChains]. apply foldl_found. destruct (findPotentialParents [root] leaf) as [|p ps] eqn:Ep; [by apply not_elem_of_nil in Hpar|].
    assert (p = root) as -> by (apply list_elem_of_singleton, (findPotentialParents_in _ leaf); rewrite Ep; by left).
    cbn [foldl]. apply foldl_found. cbn -[isValid alreadyInChain CheckSignatureFrom].
    rewrite Hal, Hsig, Hsb, Z.eqb_refl, Hval, Etr. cbn. rewrite bool_decide_true by congruence. by left.
  - apply not_true_is_false. intros (f & Hf%list_elem_of_In & _)%existsb_exists.
    assert (Hp : path [root] inters now leaf).
    { eapply buildChains_path. intros E. rewrite E in Hf. by apply not_elem_of_nil in Hf. }
    apply path_time in Hp. congruence.
Qed.

(** Only a certificate the authority issued verifies. *)
Lemma Verify_issued root inters leaf name now : is_authority ca root ->
  (forall c, c ∈ leaf :: inters -> SignedBy c = ca_key ca -> is_authority ca c \/ issued ca c) ->
  Verify [root] inters now leaf name = true -> issued ca leaf.
Proof.
  intros Hr Hin. destruct authority_shape as (root' & Hr' & _ & Hsb & _ & _ & Hdn & Hip & _).
  assert (root' = root) as -> by by apply authority_unique. unfold Verify.
  destruct (isValid _ _ _ leaf); [|done]. destruct (VerifyHostname leaf name) eqn:Eh; [|done]. cbn [negb].
  assert (Hne : leaf <> root).
  { intros ->. unfold VerifyHostname in Eh. rewrite Hdn, Hip in Eh. destruct (ParseIP _); [|done].
    by apply bool_decide_eq_true, not_elem_of_nil in Eh. }
  rewrite bool_decide_false by (by intros ?%list_elem_of_singleton). intros (f & Hf%list_elem_of_In & _)%existsb_exists.
  assert (Hp : path [root] inters now leaf).
  { eapply buildChains_path. intros E. rewrite E in Hf. by apply not_elem_of_nil in Hf. }
  apply path_signed in Hp; [|done|intros p Hp' Hs; apply Hin; [by right|done]].
  destruct (Hin leaf ltac:(by left) Hp) as [Ha|]; [|done]. by destruct Hne; apply authority_unique.
Qed.

Lemma client_roots cl : ClientTLSConfig (CertPEM ca) = Ok cl -> exists root, is_authority ca root /\ cl = mkClient [root] VersionTLS12.
Proof. destruct authority_shape as (root & Hr & _). unfold ClientTLSConfig. rewrite Hr. cbn. intros [= <-]. by exists root. Qed.

End authority.

(** Whom a client trusts.  Take a client whose configuration is made from the
    certificate of an authority, and a server that presents any chain and
    holds any key, where what the authority's key signed is only its own
    certificate and what [IssueServerCert] made; the other certificates of the
    chain may be signed by anyone.  The handshake for a name succeeds exactly
    when the server speaks TLS 1.2 or later, its leaf is one that
    [IssueServerCert] made for a host that covers the name, it holds the key made
    with it, and at that time both the leaf and the authority are within the
    validity the code gives them. *)
Lemma trust_exact draw n n' ca cl sv name now :
  GenerateCA draw n n' = Ok ca -> ClientTLSConfig (CertPEM ca) = Ok cl ->
  (forall c, DerCertificate c ∈ sv_chain sv -> SignedBy c = ca_key ca -> is_authority ca c \/ issued ca c) ->
  handshake cl name now sv = true <->
  name <> ""%string /\ Z.max VersionTLS12 (sv_min sv) <= Z.min VersionTLS13 (sv_max sv) /\
  exists leaf inters host m m', mapM ParseCertificate (sv_chain sv) = Some (leaf :: inters) /\
    IssueServerCert ca host (Some (sv_key sv)) m m' =
      Ok (EncodeToMemory "CERTIFICATE" (DerCertificate leaf), EncodeToMemory "RSA PRIVATE KEY" (DerPKCS1 (sv_key sv))) /\
    VerifyHostname leaf name = true /\ lives m m' now /\ lives n n' now.
Proof.
  intros HCA Hcl Hin. destruct (client_roots _ _ _ _ HCA cl Hcl) as (root & Hr & ->). unfold handshake. cbn [cl_roots cl_min].
  destruct (authority_shape _ _ _ _ HCA) as (root' & Hr' & _ & _ & _ & _ & _ & _ & _ & Hnb & Hna & _).
  assert (root' = root) as -> by by eapply authority_unique.
  destruct (bool_decide (name = ""%string)) eqn:En; [apply bool_decide_eq_true in En; naive_solver|]. apply bool_decide_eq_false in En.
  destruct (Z.max VersionTLS12 (sv_min sv) <=? _) eqn:Ev; cbn [negb]; [|rewrite Z.leb_gt in Ev; split; [done|lia]].
  destruct (mapM ParseCertificate (sv_chain sv)) as [[|leaf inters]|] eqn:Em; [naive_solver| |naive_solver].
  assert (Hall : forall c, c ∈ leaf :: inters -> DerCertificate c ∈ sv_chain sv).
  { intros c Hc. apply mapM_Some in Em. apply list_elem_of_lookup in Hc as [i Hc].
    destruct (Forall2_lookup_r _ _ _ _ _ Em Hc) as (d & Hd & Hp). apply list_elem_of_lookup. exists i. by destruct d; [injection Hp as ->|..]. }
  split.
  - intros [Hv Hk]%andb_true_iff. split_and!; [done|lia|].
    pose proof (Verify_issued _ _ _ _ HCA root inters leaf name now Hr ltac:(auto) Hv) as (host & d & m & m' & kp & Hi).
    rewrite (Verify_authority _ _ _ _ HCA root inters leaf name now host d m m' kp Hr Hi) in Hv.
    apply andb_true_iff in Hv as [[Hh Ht]%andb_true_iff Htr].
    pose proof Hi as (k & leaf' & -> & E & -> & <- & _ & _ & _ & _ & _ & _ & _ & _ & Hlb & Hla & _)%issue_shape. injection E as <-.
    assert (PublicKey leaf = sv_key sv) as <- by lia. exists leaf, inters, host, m, m'.
    split_and!; [done|done|done|by eapply lives_in_time|by eapply lives_in_time].
  - intros (_ & _ & leaf' & inters' & host & m & m' & [= <- <-] & Hi & Hh & Hl & Hlr).
    rewrite (Verify_authority _ _ _ _ HCA root inters leaf name now host _ m m' _ Hr Hi), Hh.
    pose proof Hi as (k & leaf' & [= <-] & E & _ & Hk & _ & _ & _ & _ & _ & _ & _ & _ & Hlb & Hla & _)%issue_shape. injection E as <-.
    rewrite Hk, Z.eqb_refl, (proj2 (lives_in_time m m' now leaf Hlb Hla) Hl), (proj2 (lives_in_time n n' now root Hnb Hna) Hlr). done.
Qed.

(** Certificates work for their host.  The pair that [IssueServerCert] makes for
    a host (other than the empty name, a dot, or an address in brackets) is
    accepted by [ServerTLSConfig], and a client that trusts the authority
    completes the handshake with that server for that host exactly while both
    the server's and the authority's certificates are valid: a certificate issued
    later than the authority outlives it by its own dates, but is not
    accepted after the authority's end. *)
Lemma issued_cert_accepted draw n n' ca cl host d m m' certPEM keyPEM :
  GenerateCA draw n n' = Ok ca -> ClientTLSConfig (CertPEM ca) = Ok cl ->
  IssueServerCert ca host d m m' = Ok (certPEM, keyPEM) ->
  host <> ""%string -> host <> "."%string -> (ParseIP host = None -> ParseIP (unbracket host) = None) ->
  exists sv, ServerTLSConfig certPEM keyPEM = Ok sv /\
    forall now, handshake cl host now sv = true <-> lives m m' now /\ lives n n' now.
Proof.
  intros HCA Hcl Hi H0 H1 Hb. destruct (client_roots _ _ _ _ HCA cl Hcl) as (root & Hr & ->).
  destruct (authority_shape _ _ _ _ HCA) as (root' & Hr' & _ & _ & _ & _ & _ & _ & _ & Hnb & Hna & _).
  assert (root' = root) as -> by by eapply authority_unique.
  pose proof Hi as (k & leaf & -> & -> & -> & Hk & _ & _ & _ & _ & _ & _ & _ & _ & Hlb & Hla & Hsan)%issue_shape.
  exists (mkServer VersionTLS12 VersionTLS13 [DerCertificate leaf] k). split.
  { assert (E : X509KeyPair (EncodeToMemory "CERTIFICATE" (DerCertificate leaf)) (EncodeToMemory "RSA PRIVATE KEY" (DerPKCS1 k)) =
      if PublicKey leaf =? k then Ok ([DerCertificate leaf], k) else Err "tls: private key does not match public key") by reflexivity.
    unfold ServerTLSConfig. by rewrite E, Hk, Z.eqb_refl. }
  assert (Hh : VerifyHostname leaf host = true).
  { unfold VerifyHostname. destruct (ParseIP host) as [ip|] eqn:Ep; injection Hsan as -> ->.
    - rewrite (ParseIP_unbracket _ _ Ep), Ep. apply bool_decide_true, list_elem_of_singleton. done.
    - rewrite Hb by done. cbn. by rewrite matchName_self. }
  intros now. unfold handshake. rewrite bool_decide_false by done. cbn [cl_roots cl_min sv_min sv_max sv_chain sv_key].
  change (Z.max VersionTLS12 VersionTLS12 <=? Z.min VersionTLS13 VersionTLS13) with true. cbn -[Verify Z.eqb PublicKey]. rewrite (Verify_authority _ _ _ _ HCA root [] leaf host now host _ m m' _ Hr Hi), Hh, Hk, Z.eqb_refl, andb_true_r.
  cbn [andb]. rewrite andb_true_iff, (lives_in_time m m' now leaf Hlb Hla), (lives_in_time n n' now root Hnb Hna). done.
Qed.

(** C20: Whom a client trusts.  Take a client whose configuration is made from the
    certificate of an authority.  With a server that presents any chain and holds
    any key, where what the authority's key signed is only its own certificate and
    what [IssueServerCert] made, while the other certificates of the chain may be
    signed by anyone, the handshake for a name succeeds exactly when the server
    speaks TLS 1.2 or later, its leaf is one that [IssueServerCert] made for a host
    that covers the name, it holds the key made with it, and at that time both the
    leaf and the authority are within the validity the code gives them.  And the
    pair that [IssueServerCert] makes for a host (other than the empty name, a
    dot, or an address in brackets) is accepted by [ServerTLSConfig], and that
    server is trusted for that host exactly while both certificates are valid:
    one issued later than the authority outlives it by its own dates, but is not
    accepted after the authority's end. *)
Theorem tls_trust draw n n' ca cl :
  GenerateCA draw n n' = Ok ca -> ClientTLSConfig (CertPEM ca) = Ok cl ->
  (forall sv name now,
    (forall c, DerCertificate c ∈ sv_chain sv -> SignedBy c = ca_key ca -> is_authority ca c \/ issued ca c) ->
    handshake cl name now sv = true <->
    name <> ""%string /\ Z.max VersionTLS12 (sv_min sv) <= Z.min VersionTLS13 (sv_max sv) /\
    exists leaf inters host m m', mapM ParseCertificate (sv_chain sv) = Some (leaf :: inters) /\
      IssueServerCert ca host (Some (sv_key sv)) m m' =
        Ok (EncodeToMemory "CERTIFICATE" (DerCertificate leaf), EncodeToMemory "RSA PRIVATE KEY" (DerPKCS1 (sv_key sv))) /\
      VerifyHostname leaf name = true /\ lives m m' now /\ lives n n' now) /\
  (forall host d m m' certPEM keyPEM, IssueServerCert ca host d m m' = Ok (certPEM, keyPEM) ->
    host <> ""%string -> host <> "."%string -> (ParseIP host = None -> ParseIP (unbracket host) = None) ->
    exists sv, ServerTLSConfig certPEM keyPEM = Ok sv /\
      forall now, handshake cl host now sv = true <-> lives m m' now /\ lives n n' now).
Proof. intros HCA Hcl. split; intros; [by eapply trust_exact|by eapply issued_cert_accepted]. Qed.

(** * A concrete authority *)

Definition noon : Z := 43200 * second.

Definition test_ca : CA :=
  mkCA (EncodeToMemory "CERTIFICATE" (DerCertificate (mkCertificate 3 1 "ledgerdb-test-ca" "ledgerdb-test-ca" 43140 46800 true true (-1) 33 [] [] []
         (Some 7) None false 7 7)))
    (EncodeToMemory "RSA PRIVATE KEY" (DerPKCS1 7))
    (mkTemplate 1 "ledgerdb-test-ca" (noon - minute) (noon + hour) true 33 [] true [] []) 7.

(** Half an hour later a certificate for the local host is issued. *)
Definition test_leaf : Certificate :=
  mkCertificate 3 2 "127.0.0.1" "ledgerdb-test-ca" 44940 48600 false false (-1) 5 [1] [] [[0; 0; 0; 0; 0; 0; 0; 0; 0; 0; 255; 255; 127; 0; 0; 1]]
    None None false 8 7.

(** Somebody else's authority with the same name, sent along. *)
Definition foreign_ca : Certificate :=
  mkCertificate 3 1 "ledgerdb-test-ca" "ledgerdb-test-ca" 0 90000 true true (-1) 33 [] [] [] (Some 9) None false 9 9.

Definition test_server : ServerConfig := mkServer VersionTLS12 VersionTLS13 [DerCertificate test_leaf; DerCertificate foreign_ca] 8.

Definition test_client : ClientConfig :=
  mkClient [mkCertificate 3 1 "ledgerdb-test-ca" "ledgerdb-test-ca" 43140 46800 true true (-1) 33 [] [] [] (Some 7) None false 7 7] VersionTLS12.

(** A certificate is accepted while it is valid, and refused once the authority has
    ended, before its own end. *)
Lemma tls_trust_witness :
  (handshake test_client "127.0.0.1" (45000 * second) test_server = true /\
   exists leaf inters host m m', mapM ParseCertificate (sv_chain test_server) = Some (leaf :: inters) /\
     IssueServerCert test_ca host (Some (sv_key test_server)) m m' =
       Ok (EncodeToMemory "CERTIFICATE" (DerCertificate leaf), EncodeToMemory "RSA PRIVATE KEY" (DerPKCS1 (sv_key test_server))) /\
     VerifyHostname leaf "127.0.0.1" = true /\ lives m m' (45000 * second) /\ lives noon noon (45000 * second)) /\
  exists sv, ServerTLSConfig (EncodeToMemory "CERTIFICATE" (DerCertificate test_leaf)) (EncodeToMemory "RSA PRIVATE KEY" (DerPKCS1 8)) = Ok sv /\
    handshake test_client "127.0.0.1" (45000 * second) sv = true /\ handshake test_client "127.0.0.1" (47000 * second) sv = false /\
    lives (noon + 30 * minute) (noon + 30 * minute) (47000 * second).
Proof.
  destruct (tls_trust (Some 7) noon noon test_ca test_client ltac:(vm_compute; reflexivity) ltac:(vm_compute; reflexivity)) as [T I].
  split.
  - assert (H : handshake test_client "127.0.0.1" (45000 * second) test_server = true) by (vm_compute; reflexivity). split; [exact H|].
    apply T in H as (_ & _ & H); [exact H|].
    intros c Hc Hs. right. exists "127.0.0.1"%string, (Some 8), (noon + 30 * minute), (noon + 30 * minute), (EncodeToMemory "RSA PRIVATE KEY" (DerPKCS1 8)).
    unfold test_server in Hc. cbn in Hc. apply elem_of_cons in Hc as [[= ->]|Hc]; [vm_compute; reflexivity|].
    apply list_elem_of_singleton in Hc as [= ->]. discriminate Hs.
  - destruct (I "127.0.0.1"%string (Some 8) (noon + 30 * minute) (noon + 30 * minute)
      (EncodeToMemory "CERTIFICATE" (DerCertificate test_leaf)) (EncodeToMemory "RSA PRIVATE KEY" (DerPKCS1 8))
      ltac:(vm_compute; reflexivity) ltac:(discriminate) ltac:(discriminate) ltac:(vm_compute; discriminate)) as (sv & E & H).
    exists sv. split; [exact E|]. split; [|split].
    + apply H. unfold lives. vm_compute. repeat split; discriminate.
    + apply not_true_is_false. intros E2. apply H in E2 as [_ [_ E2]]. vm_compute in E2. by destruct E2.
    + unfold lives. vm_compute. repeat split; discriminate.
Defined.
