(* ===== verification/Transport.v ===== *)
(** The transports of the Raft group: the simulated network ([raft/network.go],
    [raft/transport.go]) and the TCP transport ([raft/tcp_transport.go]).

    A call spans time: other goroutines run between its critical sections, so an
    operation takes the state it finds at each of them.  Delays are time that
    passes.  What the Go runtime and [net/rpc] decide (a draw, whether a dial
    succeeds, how a remote call ends) is an argument: a dial reaches what listens
    at the address, and over TLS completes the handshake with it. *)
From Stdlib Require Import Strings.Ascii.
From S2P Require Import Prelude Raft RaftCluster RaftLog RaftInv RaftSteps RaftHandlers RaftSafety RaftTheorems GoLib NetLib Tls.
#[local] Open Scope Z_scope.
#[local] Set Warnings "-clear-no-such-hyp".

(** * The simulated network *)

(** [servers] are the peers that are known; their state is in the group. *)
Record Network := mkNetwork {
  reliable : bool;
  longDelay : bool;
  servers : gset Z;
  connected : gmap Z bool
}.

Definition MakeNetwork : Network := mkNetwork true false ∅ ∅.

Definition AddServer (id : Z) (n : Network) : Network :=
  mkNetwork (reliable n) (longDelay n) ({[id]} ∪ servers n) (<[id := true]> (connected n)).

(** [Make]: a peer on the simulated network; [dl] is the deadline it draws. *)
Definition Make (net : Network) (me : Z) (peers : list Z) (dl : Z) : Raft * Network := (newRaft me peers dl, AddServer me net).

Definition SetReliable (r : bool) (n : Network) : Network := mkNetwork r (longDelay n) (servers n) (connected n).
Definition SetLongDelay (l : bool) (n : Network) : Network := mkNetwork (reliable n) l (servers n) (connected n).
Definition Connect (id : Z) (n : Network) : Network :=
  mkNetwork (reliable n) (longDelay n) (servers n) (<[id := true]> (connected n)).
Definition Disconnect (id : Z) (n : Network) : Network :=
  mkNetwork (reliable n) (longDelay n) (servers n) (<[id := false]> (connected n)).
Definition IsConnected (id : Z) (n : Network) : bool := mapget false (connected n) id.

(** [Call]: [n] is the network when it starts and [n'] when the handler is done;
    [draw] is [rand.Intn(1000)].  The result is the peer after the call, and what
    [fn] returned unless the call reports failure. *)
Definition Call {R} (n n' : Network) (from to draw : Z) (fn : Raft -> option (Raft * R * bool)) (peer : Raft)
    : option (Raft * option R) :=
  let fromOK := IsConnected from n in
  let toOK := IsConnected to n in
  if negb fromOK || negb toOK || negb (bool_decide (to ∈ servers n)) then Some (peer, None)
  else if negb (reliable n) && (draw <? 100) then Some (peer, None)
  else
    '(peer, reply, ok) ← fn peer;
    let stillUp := IsConnected from n' && IsConnected to n' in
    if negb stillUp then Some (peer, None)
    else Some (peer, if (ok : bool) then Some reply else None).

(** [simTransport]: the closures run the handlers, which return true. *)
Definition sim_SendRequestVote (n n' : Network) (me peer draw : Z) (args : RequestVoteArgs) (dl : Z) (target : Raft)
    : option (Raft * option RequestVoteReply) :=
  Call n n' me peer draw (fun target => '(target, reply) ← RequestVote args dl target; Some (target, reply, true)) target.

Definition sim_SendAppendEntries (n n' : Network) (me peer draw : Z) (args : AppendEntriesArgs) (dl : Z) (target : Raft)
    : option (Raft * option AppendEntriesReply) :=
  Call n n' me peer draw (fun target => '(target, reply) ← AppendEntries args dl target; Some (target, reply, true)) target.

(** * The TCP transport *)

(** [rpcService]: the peer it is bound to, if any; calling a method of a nil peer
    panics. *)
Definition rpcService : Type := option Raft.
Definition Bind (rf : Raft) (s : rpcService) : rpcService := Some rf.
Definition rpc_RequestVote (args : RequestVoteArgs) (dl : Z) (s : rpcService) : option (Raft * RequestVoteReply) :=
  rf ← s; RequestVote args dl rf.
Definition rpc_AppendEntries (args : AppendEntriesArgs) (dl : Z) (s : rpcService) : option (Raft * AppendEntriesReply) :=
  rf ← s; AppendEntries args dl rf.

(** What [net/rpc] needs to know of a method: its arguments besides the receiver,
    whether the last one is a pointer, and whether it returns an error. *)
Record Method := mkMethod { methodName : string; methodArgs : Z; replyPointer : bool; returnsError : bool }.

Definition rpcService_methods : list Method :=
  [mkMethod "AppendEntries" 2 true true; mkMethod "Bind" 1 true false; mkMethod "RequestVote" 2 true true].

Definition suitable (m : Method) : bool := (methodArgs m =? 2) && replyPointer m && returnsError m.

(** [rpc.Server]: the methods of each registered service. *)
Abbreviation RpcServer := (gmap string (list string)).

Definition RegisterName (name : string) (methods : list Method) (server : RpcServer) : res RpcServer :=
  let names := methodName <$> filter (fun m => suitable m = true) methods in
  if bool_decide (names = []) then Err "rpc.Register: type has no exported methods of suitable type"
  else match server !! name with
  | Some _ => Err "rpc: service already defined"
  | None => Ok (<[name := names]> server)
  end.

(** How a request finds its method: the service is before the last dot. *)
Definition findMethod (server : RpcServer) (serviceMethod : string) : res string :=
  match last_index_byte "."%char (chars serviceMethod) with
  | None => Err "rpc: service/method request ill-formed"
  | Some dot =>
      let method := string_of (drop (S dot) (chars serviceMethod)) in
      match server !! string_of (take dot (chars serviceMethod)) with
      | None => Err "rpc: can't find service"
      | Some names => if bool_decide (method ∈ names) then Ok method else Err "rpc: can't find method"
      end
  end.

(** The accept loop: the connections that are served, up to the first failure of
    [Accept]. *)
Fixpoint acceptLoop {C} (accepted : list (option C)) : list C :=
  match accepted with
  | Some conn :: accepted => conn :: acceptLoop accepted
  | _ => []
  end.

(** What may listen at an address. *)
Inductive Endpoint := Plain | Secure (sv : ServerConfig).

(** The network a dial meets: from a source address, if it is fixed, to an
    address. *)
Definition Wire : Type := option IP -> string -> option Endpoint.

(** [peerConns] holds the cached client of each peer ([t.peers]); a client is
    named by the number of its connection.  [opened] counts the connections made,
    [open] are those not closed yet, with their other end. *)
Record TCPTransport := mkTCP {
  tme : Z;
  addrs : gmap Z string;
  timeout : Z;
  listenAddr : string;
  clientTLS : option ClientConfig;
  localAddr : option IP;
  peerConns : gmap Z (option Z);
  blocked : gset Z;
  opened : Z;
  open : gmap Z Endpoint;
  listening : bool
}.

(** [tls.Listen] wants a certificate. *)
Definition Listen (bind : string -> option string) (address : string) (serverTLS : option ServerConfig) : res string :=
  match serverTLS with
  | Some sv => if bool_decide (sv_chain sv = []) then Err "tls: neither Certificates, GetCertificate, nor GetConfigForClient set in Config"
               else match bind address with Some a => Ok a | None => Err "listen" end
  | None => match bind address with Some a => Ok a | None => Err "listen" end
  end.

(** The source address of outbound dials: the host of the own address, if it is an
    address literal. *)
Definition localIP (address : string) : option IP :=
  '(host, _) ← SplitHostPort address; ParseIP host.

(** [bind] is what the system makes of a listening address. *)
Definition newTCPTransport (bind : string -> option string) (me : Z) (addrs : gmap Z string)
    (serverTLS : option ServerConfig) (clientTLS : option ClientConfig) : res (TCPTransport * rpcService * RpcServer) :=
  server ← RegisterName "Raft" rpcService_methods ∅;
  listener ← Listen bind (mapget ""%string addrs me) serverTLS;
  Ok (mkTCP me addrs 500000000 listener clientTLS (localIP (mapget ""%string addrs me)) ((fun _ => None) <$> addrs) ∅ 0 ∅ true,
      None, server).

Definition NewTCPTransport (bind : string -> option string) (me : Z) (addrs : gmap Z string) : res (TCPTransport * rpcService * RpcServer) :=
  newTCPTransport bind me addrs None None.

Definition NewTCPTransportTLS (bind : string -> option string) (me : Z) (addrs : gmap Z string) (serverTLS : ServerConfig) (clientTLS : ClientConfig)
    : res (TCPTransport * rpcService * RpcServer) :=
  newTCPTransport bind me addrs (Some serverTLS) (Some clientTLS).

Definition Addr (t : TCPTransport) : string := listenAddr t.

Definition set_conn (peer : Z) (c : option Z) (opened : Z) (open : gmap Z Endpoint) (t : TCPTransport) : TCPTransport :=
  mkTCP (tme t) (addrs t) (timeout t) (listenAddr t) (clientTLS t) (localAddr t) (<[peer := c]> (peerConns t)) (blocked t) opened open (listening t).

(** [tls.DialWithDialer] takes the name to verify from the address. *)
Definition serverName (address : string) : string :=
  match last_index_byte ":"%char (chars address) with
  | Some i => string_of (take i (chars address))
  | None => address
  end.

(** A dial to [peer] over the network [net] at time [now]: the other end. *)
Definition dial (net : Wire) (now : Z) (peer : Z) (t : TCPTransport) : option Endpoint :=
  let address := mapget ""%string (addrs t) peer in
  ep ← net (localAddr t) address;
  match clientTLS t with
  | None => Some ep
  | Some cl =>
      match ep with
      | Plain => None
      | Secure sv => if handshake cl (serverName address) now sv then Some ep else None
      end
  end.

(** [getClient]; [None] is the nil dereference on a peer it does not know. *)
Definition getClient (net : Wire) (now : Z) (peer : Z) (t : TCPTransport) : option (option Z * TCPTransport) :=
  pc ← peerConns t !! peer;
  match pc with
  | Some client => Some (Some client, t)
  | None =>
      match dial net now peer t with
      | None => Some (None, t)
      | Some ep => Some (Some (opened t), set_conn peer (Some (opened t)) (opened t + 1) (<[opened t := ep]> (open t)) t)
      end
  end.

Definition dropClient (peer : Z) (t : TCPTransport) : option TCPTransport :=
  pc ← peerConns t !! peer;
  match pc with
  | Some client => Some (set_conn peer None (opened t) (delete client (open t)) t)
  | None => Some t
  end.

Definition BlockPeer (peer : Z) (t : TCPTransport) : option TCPTransport :=
  dropClient peer (mkTCP (tme t) (addrs t) (timeout t) (listenAddr t) (clientTLS t) (localAddr t) (peerConns t) ({[peer]} ∪ blocked t)
    (opened t) (open t) (listening t)).

Definition UnblockPeer (peer : Z) (t : TCPTransport) : TCPTransport :=
  mkTCP (tme t) (addrs t) (timeout t) (listenAddr t) (clientTLS t) (localAddr t) (peerConns t) (blocked t ∖ {[peer]})
    (opened t) (open t) (listening t).

(** How a remote call ends: with the reply of the method, which ran once; with an
    error; or not before the timeout.  In the last two cases the method may have
    run or may run later. *)
Inductive RpcEnd := RpcReply | RpcError (ran : bool) | RpcTimeout (ran : bool).

(** The two parts of [call]: up to [client.Go], and the [select]. *)
Definition callStart (net : Wire) (now : Z) (peer : Z) (t : TCPTransport) : option (option Z * TCPTransport) :=
  if bool_decide (peer ∈ blocked t) then Some (None, t) else getClient net now peer t.

Definition callDone (e : RpcEnd) (peer : Z) (t : TCPTransport) : option (bool * TCPTransport) :=
  match e with
  | RpcReply => Some (true, t)
  | RpcError _ | RpcTimeout _ => t ← dropClient peer t; Some (false, t)
  end.

(** A call of a method of the peer's service; [t'] is the transport when the call
    ends.  [serve] is the method, run on the target. *)
Definition tcp_call {R} (net : Wire) (now : Z) (e : RpcEnd) (peer : Z) (serve : Raft -> option (Raft * R)) (t t' : TCPTransport) (target : Raft)
    : option (Raft * option R) :=
  '(client, _) ← callStart net now peer t;
  match client with
  | None => Some (target, None)
  | Some _ =>
      '(ok, _) ← callDone e peer t';
      match e with
      | RpcReply => '(target, reply) ← serve target; Some (target, if (ok : bool) then Some reply else None)
      | RpcError ran | RpcTimeout ran =>
          if (ran : bool) then '(target, _) ← serve target; Some (target, None) else Some (target, None)
      end
  end.

Definition tcp_SendRequestVote (net : Wire) (now : Z) (e : RpcEnd) (peer : Z) (args : RequestVoteArgs) (dl : Z) (t t' : TCPTransport) (target : Raft)
    : option (Raft * option RequestVoteReply) :=
  tcp_call net now e peer (fun target => rpc_RequestVote args dl (Bind target None)) t t' target.

Definition tcp_SendAppendEntries (net : Wire) (now : Z) (e : RpcEnd) (peer : Z) (args : AppendEntriesArgs) (dl : Z) (t t' : TCPTransport) (target : Raft)
    : option (Raft * option AppendEntriesReply) :=
  tcp_call net now e peer (fun target => rpc_AppendEntries args dl (Bind target None)) t t' target.

(** The connections that are cached. *)
Definition cached (t : TCPTransport) : list Z := omap snd (map_to_list (peerConns t)).

(** [Close] closes every cached client and the listener; the clients stay cached. *)
Definition CloseTCP (t : TCPTransport) : TCPTransport :=
  mkTCP (tme t) (addrs t) (timeout t) (listenAddr t) (clientTLS t) (localAddr t) (peerConns t) (blocked t) (opened t)
    (foldr delete (open t) (cached t)) false.

(** * Calls against the model of the group *)

Section refine.
Context (ps : list Z) (chanCap : nat).

(** What a call did to its target and what it returned is what some actions of the
    group do with the goroutine at position [k]: the handler ran at most once, the
    reply, if any, waits for the caller, and nothing else changed. *)
Definition carries {R} (w : World) (k : nat) (to : Z) (ret : R -> Goroutine) (out : option (Raft * option R)) : Prop :=
  match out with
  | None => exists acts, run ps chanCap acts w = Panic
  | Some (target, reply) => exists acts w', run ps chanCap acts w = Next w' /\ peer_state w' to = target /\
      (forall i, i <> to -> nodes w' i = nodes w i) /\ votes w' = votes w /\ clock w' = clock w /\
      pool w' = match reply with Some r => [ret r] | None => [] end ++ delete k (pool w)
  end.

(** A goroutine that waits in a call, with the handler and the caller's end. *)
Definition waits {R} (w : World) (k : nat) (to r : Z) (handler : Raft -> option (Raft * R)) (ret : R -> Goroutine) : Prop :=
  exists g, pool w !! k = Some g /\ losable g = true /\ (forall x, losable (ret x) = true) /\
    exec ps chanCap (ARun k r) w = from_option_panic (handler (peer_state w to)) (fun '(r', reply) =>
      Next (set_pool (ret reply :: delete k (pool w)) (set_peer to r' (set_pool (delete k (pool w)) w)))).

Lemma carries_lost {R} w k to r handler (ret : R -> Goroutine) :
  waits w k to r handler ret -> carries w k to ret (Some (peer_state w to, None)).
Proof.
  intros (g & Hg & Hl & _). exists [ALose k]. eexists. cbn. rewrite Hg, Hl. split_and!; done.
Qed.

Lemma carries_served {R} w k to r handler (ret : R -> Goroutine) (keep : R -> bool) :
  waits w k to r handler ret ->
  carries w k to ret ('(t, reply) ← handler (peer_state w to); Some (t, if keep reply then Some reply else None)).
Proof.
  intros (g & Hg & Hl & Hr & E). destruct (handler (peer_state w to)) as [[t reply]|]; cbn [mbind option_bind] in *.
  2:{ exists [ARun k r]. cbn [run]. by rewrite E. }
  destruct (keep reply).
  - exists [ARun k r]. cbn [run]. rewrite E. eexists. split; [done|]. unfold peer_state. cbn. split_and!; try done; [by rewrite upd_eq|].
    intros i Hi. by rewrite upd_ne.
  - exists [ARun k r; ALose 0]. cbn [run]. rewrite E. cbn. rewrite Hr. eexists. split; [done|]. unfold peer_state. cbn.
    split_and!; try done; [by rewrite upd_eq|]. intros i Hi. by rewrite upd_ne.
Qed.

Lemma Call_carries {R} n n' from to draw handler w k r (ret : R -> Goroutine) :
  waits w k to r handler ret ->
  carries w k to ret (Call n n' from to draw (fun t => '(t, reply) ← handler t; Some (t, reply, true)) (peer_state w to)).
Proof.
  intros H. unfold Call. destruct (_ || _); [by eapply carries_lost|]. destruct (_ && (draw <? 100)); [by eapply carries_lost|].
  pose proof (carries_served w k to r handler ret (fun _ => IsConnected from n' && IsConnected to n') H) as Hc.
  destruct (handler (peer_state w to)) as [[t reply]|]; cbn [mbind option_bind] in *; [|exact Hc]. by destruct (_ && _).
Qed.

Lemma tcp_call_carries {R} net now e t t' to handler w k r (ret : R -> Goroutine) :
  waits w k to r handler ret -> to ∈ dom (peerConns t) -> to ∈ dom (peerConns t') ->
  carries w k to ret (tcp_call net now e to handler t t' (peer_state w to)).
Proof.
  intros H [pc Hpc]%elem_of_dom [pc' Hpc']%elem_of_dom. unfold tcp_call, callStart, getClient. rewrite Hpc.
  assert (Hd : exists t'', dropClient to t' = Some t'') by (unfold dropClient; rewrite Hpc'; destruct pc'; by eexists).
  destruct Hd as [t'' Hd].
  assert (Hrest : carries w k to ret ('(ok, _) ← callDone e to t';
      match e with
      | RpcReply => '(target, reply) ← handler (peer_state w to); Some (target, if (ok : bool) then Some reply else None)
      | RpcError ran | RpcTimeout ran =>
          if (ran : bool) then '(target, _) ← handler (peer_state w to); Some (target, None) else Some (peer_state w to, None)
      end)).
  { unfold callDone. destruct e as [|[]|[]]; rewrite ?Hd; cbn [mbind option_bind]; try (by eapply carries_lost).
    - apply (carries_served w k to r handler ret (fun _ => true) H).
    - pose proof (carries_served w k to r handler ret (fun _ => false) H) as Hc. by destruct (handler (peer_state w to)) as [[? ?]|].
    - pose proof (carries_served w k to r handler ret (fun _ => false) H) as Hc. by destruct (handler (peer_state w to)) as [[? ?]|]. }
  case_bool_decide; [by eapply carries_lost|]. destruct pc as [c|]; cbn [mbind option_bind]; [done|].
  destruct (dial net now to t); cbn [mbind option_bind]; [done|by eapply carries_lost].
Qed.

Lemma waits_vote w k from to args r : pool w !! k = Some (GVoteCall from to args) ->
  waits w k to r (RequestVote args (deadline w r)) (GVoteRet from to args).
Proof. intros H. exists (GVoteCall from to args). split_and!; try done. cbn. by rewrite H. Qed.

Lemma waits_app w k from to args r : pool w !! k = Some (GAppCall from to args) ->
  waits w k to r (AppendEntries args (deadline w r)) (GAppRet from to args).
Proof. intros H. exists (GAppCall from to args). split_and!; try done. cbn. by rewrite H. Qed.

(** C22: The transports are the RPCs the group assumes.  Whatever the simulated
    network does (disconnections before or during the call, drops) and however a
    TCP call ends (blocked peer, failed dial, error, timeout with the method run
    or not, reply), sending a [RequestVote] or [AppendEntries] has exactly the
    effect of actions of the group model: the handler runs at most once at the
    target, and the caller gets its reply or a failure.  So what is proved of
    reachable groups holds over both transports. *)
Theorem transports_refine w k g r n n' draw net now e t t' :
  pool w !! k = Some g ->
  match g with
  | GVoteCall from to args =>
      carries w k to (GVoteRet from to args) (sim_SendRequestVote n n' from to draw args (deadline w r) (peer_state w to)) /\
      (to ∈ dom (peerConns t) -> to ∈ dom (peerConns t') ->
       carries w k to (GVoteRet from to args) (tcp_SendRequestVote net now e to args (deadline w r) t t' (peer_state w to)))
  | GAppCall from to args =>
      carries w k to (GAppRet from to args) (sim_SendAppendEntries n n' from to draw args (deadline w r) (peer_state w to)) /\
      (to ∈ dom (peerConns t) -> to ∈ dom (peerConns t') ->
       carries w k to (GAppRet from to args) (tcp_SendAppendEntries net now e to args (deadline w r) t t' (peer_state w to)))
  | _ => True
  end.
Proof.
  intros H. destruct g; try done.
  - pose proof (waits_vote w k from to args r H) as Hw. split; [by apply (Call_carries n n' from to draw _ _ _ r)|].
    intros Ht Ht'. by apply (tcp_call_carries net now e t t' to _ w k r).
  - pose proof (waits_app w k from to args r H) as Hw. split; [by apply (Call_carries n n' from to draw _ _ _ r)|].
    intros Ht Ht'. by apply (tcp_call_carries net now e t t' to _ w k r).
Qed.

End refine.

(** * Connections *)

Inductive TcpStep :=
| TStart (net : Wire) (now : Z) (peer : Z)
| TDone (e : RpcEnd) (peer : Z)
| TBlock (peer : Z)
| TUnblock (peer : Z)
| TClose.

Definition tcp_step (s : TcpStep) (t : TCPTransport) : option TCPTransport :=
  match s with
  | TStart net now peer => snd <$> callStart net now peer t
  | TDone e peer => snd <$> callDone e peer t
  | TBlock peer => BlockPeer peer t
  | TUnblock peer => Some (UnblockPeer peer t)
  | TClose => Some (CloseTCP t)
  end.

Fixpoint tcp_run (ss : list TcpStep) (t : TCPTransport) : option TCPTransport :=
  match ss with [] => Some t | s :: ss => t ← tcp_step s t; tcp_run ss t end.

Definition step_peer (s : TcpStep) : option Z :=
  match s with TStart _ _ p | TDone _ p | TBlock p => Some p | TUnblock _ | TClose => None end.

(** What a connection to [peer] ends at, when [cl] is the client's configuration. *)
Definition end_ok (cl : option ClientConfig) (address : string) (ep : Endpoint) : Prop :=
  match cl with
  | None => True
  | Some cl => exists sv now, ep = Secure sv /\ handshake cl (serverName address) now sv = true
  end.

Record tcp_ok (a : gmap Z string) (cl : option ClientConfig) (t : TCPTransport) : Prop := {
  to_addrs : addrs t = a;
  to_tls : clientTLS t = cl;
  to_dom : dom (peerConns t) = dom a;
  to_open : forall c ep, open t !! c = Some ep ->
    exists p, peerConns t !! p = Some (Some c) /\ end_ok cl (mapget ""%string a p) ep;
  to_new : forall p c, peerConns t !! p = Some (Some c) -> c < opened t;
  to_inj : forall p p' c, peerConns t !! p = Some (Some c) -> peerConns t !! p' = Some (Some c) -> p = p'
}.

(** [RegisterName] accepts the service with its two methods. *)
Lemma register_raft : RegisterName "Raft" rpcService_methods ∅ = Ok {["Raft" := ["AppendEntries"; "RequestVote"]]}%string.
Proof. vm_compute. reflexivity. Qed.

Lemma new_shape bind me a sv cl t svc srv : newTCPTransport bind me a sv cl = Ok (t, svc, srv) ->
  svc = None /\ srv = {["Raft" := ["AppendEntries"; "RequestVote"]]}%string /\
  exists listener, t = mkTCP me a 500000000 listener cl (localIP (mapget ""%string a me)) ((fun _ => None) <$> a) ∅ 0 ∅ true.
Proof.
  unfold newTCPTransport. rewrite register_raft. cbn [mbind res_bind].
  destruct (Listen _ _ _) as [listener|]; [|done]. cbn [mbind res_bind]. intros [= <- <- <-].
  split_and!; [done..|by exists listener].
Qed.

Lemma tcp_ok_new bind me a sv cl t svc srv : newTCPTransport bind me a sv cl = Ok (t, svc, srv) -> tcp_ok a cl t.
Proof.
  intros (_ & _ & listener & ->)%new_shape. split; cbn; try done.
  - by rewrite dom_fmap_L.
  - intros p c. rewrite lookup_fmap. by destruct (a !! p).
  - intros p p' c. rewrite lookup_fmap. by destruct (a !! p).
Qed.

Lemma tcp_ok_drop a cl t peer : tcp_ok a cl t -> peer ∈ dom a -> exists t', dropClient peer t = Some t' /\ tcp_ok a cl t'.
Proof.
  intros [Ha Hc Hd Ho Hn Hi] Hp. rewrite <- Hd in Hp. apply elem_of_dom in Hp as [pc Hpc]. unfold dropClient. rewrite Hpc. cbn.
  destruct pc as [client|]; [|eexists; by split]. eexists. split; [done|]. split; cbn; [done|done| | | |].
  - rewrite dom_insert_lookup_L by eauto. done.
  - intros c ep [Hne Hc']%lookup_delete_Some. destruct (Ho c ep Hc') as (p & Hcp & He). exists p. split; [|done].
    rewrite lookup_insert_ne; [done|]. intros ->. rewrite Hpc in Hcp. by injection Hcp.
  - intros p c. rewrite lookup_insert_Some. intros [[_ ?]|[_ ?]]; [done|by eapply Hn].
  - intros p p' c. rewrite !lookup_insert_Some. intros [[_ ?]|[_ ?]] [[_ ?]|[_ ?]]; try done. by eapply Hi.
Qed.

Lemma dial_end net now peer t ep : dial net now peer t = Some ep -> end_ok (clientTLS t) (mapget ""%string (addrs t) peer) ep.
Proof.
  unfold dial. intros (e & _ & H)%bind_Some. destruct (clientTLS t) as [cl|]; [|done]. destruct e as [|sv]; [done|].
  destruct (handshake _ _ _ _) eqn:Eh; [|done]. injection H as <-. by exists sv, now.
Qed.

Lemma tcp_ok_get a cl t net now peer : tcp_ok a cl t -> peer ∈ dom a -> exists c t', getClient net now peer t = Some (c, t') /\ tcp_ok a cl t'.
Proof.
  intros H Hp. pose proof H as [Ha Hc Hd Ho Hn Hi]. rewrite <- Hd in Hp. apply elem_of_dom in Hp as [pc Hpc]. unfold getClient. rewrite Hpc. cbn.
  destruct pc as [client|]; [by exists (Some client), t|]. destruct (dial net now peer t) as [ep|] eqn:Ed; [|by exists None, t].
  apply dial_end in Ed. rewrite Ha, Hc in Ed. do 2 eexists. split; [done|]. split; cbn; [done|done| | | |].
  - rewrite dom_insert_lookup_L by eauto. done.
  - intros c e. rewrite lookup_insert_Some. intros [[<- <-]|[_ Hc']]; [exists peer; by rewrite lookup_insert_eq|].
    destruct (Ho c e Hc') as (p & Hcp & He). exists p. split; [|done]. rewrite lookup_insert_ne; [done|]. intros ->. congruence.
  - intros p c. rewrite lookup_insert_Some. intros [[_ [= <-]]|[_ Hc']]; [lia|]. specialize (Hn p c Hc'). lia.
  - intros p p' c. rewrite !lookup_insert_Some.
    intros [[<- [= <-]]|[? Hc1]] [[<- Hc2]|[? Hc']]; [done| | |by eapply Hi].
    + specialize (Hn _ _ Hc'). lia.
    + injection Hc2 as <-. specialize (Hn _ _ Hc1). lia.
Qed.

(** Every open connection is cached. *)
Lemma open_cached a cl t c ep : tcp_ok a cl t -> open t !! c = Some ep -> c ∈ cached t.
Proof.
  intros H Hc. destruct (to_open _ _ _ H c ep Hc) as (p & Hp & _). apply list_elem_of_omap.
  exists (p, Some c). split; [by apply elem_of_map_to_list|done].
Qed.

Lemma lookup_foldr_delete {V} (l : list Z) (m : gmap Z V) c : foldr delete m l !! c = if bool_decide (c ∈ l) then None else m !! c.
Proof.
  induction l as [|x l IH]; [done|]. cbn [foldr]. destruct (decide (x = c)) as [->|Hne].
  - rewrite lookup_delete_eq, bool_decide_true; [done|by left].
  - rewrite lookup_delete_ne, IH by done. apply (f_equal (fun b : bool => if b then None else m !! c)).
    apply bool_decide_ext. rewrite elem_of_cons. naive_solver.
Qed.

Lemma CloseTCP_open a cl t : tcp_ok a cl t -> open (CloseTCP t) = ∅.
Proof.
  intros H. apply map_eq. intros c. cbn. rewrite lookup_foldr_delete, lookup_empty. case_bool_decide as Hc; [done|].
  destruct (open t !! c) as [ep|] eqn:E; [|done]. by destruct Hc; eapply open_cached.
Qed.

Lemma tcp_ok_step a cl t s : tcp_ok a cl t -> (forall p, step_peer s = Some p -> p ∈ dom a) -> exists t', tcp_step s t = Some t' /\ tcp_ok a cl t'.
Proof.
  intros H Hp. destruct s as [net now p|e p|p|p|]; cbn in *.
  - unfold callStart. case_bool_decide; [by exists t|]. destruct (tcp_ok_get a cl t net now p H (Hp p eq_refl)) as (c & t' & -> & H').
    by exists t'.
  - destruct (tcp_ok_drop a cl t p H (Hp p eq_refl)) as (t' & Hd & H'). unfold callDone.
    destruct e; [by exists t|rewrite Hd; by exists t'..].
  - apply tcp_ok_drop; [|by apply Hp]. by destruct H.
  - eexists. split; [done|]. by destruct H.
  - eexists. split; [done|]. pose proof (CloseTCP_open a cl t H) as Hc. destruct H as [Ha Ht Hd Ho Hn Hi]. split; try done.
    intros c ep. by rewrite Hc.
Qed.

Lemma tcp_ok_run a cl ss : forall t, tcp_ok a cl t -> (forall s p, s ∈ ss -> step_peer s = Some p -> p ∈ dom a) ->
  exists t', tcp_run ss t = Some t' /\ tcp_ok a cl t'.
Proof.
  induction ss as [|s ss IH]; intros t H Hp; [by exists t|]. cbn.
  destruct (tcp_ok_step a cl t s H) as (t1 & -> & H1); [intros p; apply Hp; left|]. apply IH; [done|]. intros s' p Hs. apply Hp. by right.
Qed.

Lemma size_list_to_set_le (l : list Z) : (size (list_to_set l : gset Z) <= length l)%nat.
Proof.
  induction l as [|x l IH]; [done|]. rewrite list_to_set_cons, size_union_alt, size_singleton. cbn [length].
  assert (size ((list_to_set l : gset Z) ∖ {[x]}) <= size (list_to_set l : gset Z))%nat by (apply subseteq_size; set_solver). lia.
Qed.

Lemma length_omap_le {A B} (f : A -> option B) (l : list A) : (length (omap f l) <= length l)%nat.
Proof. induction l as [|x l IH]; cbn; [done|]. destruct (f x); cbn; lia. Qed.

Lemma open_bounded a cl t : tcp_ok a cl t -> (size (open t) <= size a)%nat.
Proof.
  intros H. assert (Hs : size a = length (map_to_list (peerConns t))).
  { by rewrite length_map_to_list, <- !size_dom, (to_dom _ _ _ H). }
  rewrite Hs, <- (size_dom (open t)). etransitivity; [|apply (length_omap_le snd)]. etransitivity; [|apply size_list_to_set_le].
  apply subseteq_size. intros c [ep Hc]%elem_of_dom. apply elem_of_list_to_set. by eapply open_cached.
Qed.


(** * Concrete transports *)

Definition trio_addrs : gmap Z string := {[0 := "127.0.0.1:0"%string; 1 := "127.0.0.2:0"%string; 2 := "127.0.0.3:0"%string]}.

(** The system takes any address, and all peers serve TLS. *)
Definition bind_any (address : string) : option string := Some address.

Definition tcp0 : TCPTransport :=
  mkTCP 0 trio_addrs 500000000 "127.0.0.1:0" (Some test_client) (localIP "127.0.0.1:0") ((fun _ => None) <$> trio_addrs) ∅ 0 ∅ true.

(** The certificate of [test_server] is for 127.0.0.1 only. *)
Definition wire_tls : Wire := fun _ _ => Some (Secure test_server).

Definition trio_net : Network := foldr AddServer MakeNetwork trio.

Lemma transports_refine_witness :
  exists args, pool (after [ATime 700000000; ATickCheck 0; ATickFire 0 5]) !! 0%nat = Some (GVoteCall 0 1 args) /\
    carries trio 100 (after [ATime 700000000; ATickCheck 0; ATickFire 0 5]) 0 1 (GVoteRet 0 1 args)
      (sim_SendRequestVote trio_net (Disconnect 1 trio_net) 0 1 500 args
         (deadline (after [ATime 700000000; ATickCheck 0; ATickFire 0 5]) 1)
         (peer_state (after [ATime 700000000; ATickCheck 0; ATickFire 0 5]) 1)).
Proof.
  destruct (pool (after [ATime 700000000; ATickCheck 0; ATickFire 0 5]) !! 0%nat) as [g|] eqn:E; [|vm_compute in E; discriminate E].
  assert (Hg : exists args, g = GVoteCall 0 1 args) by (vm_compute in E; injection E as <-; eexists; reflexivity).
  destruct Hg as [args ->]. exists args. split; [reflexivity|].
  apply (transports_refine trio 100 _ 0 (GVoteCall 0 1 args) 1 trio_net (Disconnect 1 trio_net) 500 wire_tls 0 RpcReply tcp0 tcp0 E).
Defined.

(** A dial before the certificate is valid and one to an address it does not cover
    fail; a call that times out drops the connection, and the next one dials again. *)
Definition tcp_steps : list TcpStep :=
  [TStart wire_tls noon 0; TStart wire_tls (45000 * second) 0; TStart wire_tls (45000 * second) 0; TStart wire_tls (45000 * second) 2;
   TDone (RpcTimeout false) 0; TStart wire_tls (45000 * second) 0; TDone (RpcError true) 1; TBlock 2].

