(* ===== verification/Http.v ===== *)
(** What the front ends use of [net/http] and [net/url]: the paths of requests and
    the routing of [http.ServeMux], for patterns without methods, hosts and
    wildcards other than a trailing slash. *)
From Stdlib Require Import Strings.Ascii.
From S2P Require Import Prelude GoLib NetLib.

#[local] Open Scope char_scope.
#[local] Open Scope Z_scope.

Abbreviation text := (list ascii).

(** * Escapes *)

Definition unreserved (c : ascii) : bool :=
  is_lower c || is_upper c || is_digit c || bool_decide (c ∈ ["-"; "_"; "."; "~"]).

(** [shouldEscape] in a path, and in a segment of one. *)
Definition escape_in_path (c : ascii) : bool :=
  negb (unreserved c || bool_decide (c ∈ ["$"; "&"; "+"; ","; "/"; ":"; ";"; "="; "@"])).
Definition escape_in_segment (c : ascii) : bool :=
  negb (unreserved c || bool_decide (c ∈ ["$"; "&"; "+"; ":"; "="; "@"])).

Definition hex_char (n : Z) : ascii := ascii_of_N (Z.to_N (if n <? 10 then 48 + n else 65 + n - 10)).

(** [escape], with the characters to escape. *)
Fixpoint escape (should : ascii -> bool) (s : text) : text :=
  match s with
  | [] => []
  | c :: s => (if should c then ["%"; hex_char (code c / 16); hex_char (code c mod 16)] else [c]) ++ escape should s
  end.

(** [unescape]: [None] is a malformed escape. *)
Fixpoint unescape (s : text) : option text :=
  match s with
  | [] => Some []
  | "%" :: s =>
      match s with
      | a :: b :: s => x ← hex_digit a; y ← hex_digit b; rest ← unescape s; Some (ascii_of_N (Z.to_N (16 * x + y)) :: rest)
      | _ => None
      end
  | c :: s => rest ← unescape s; Some (c :: rest)
  end.

(** [validEncoded] in a path. *)
Definition valid_char (c : ascii) : bool :=
  bool_decide (c ∈ ["!"; "$"; "&"; "'"; "("; ")"; "*"; "+"; ","; ";"; "="; ":"; "@"; "["; "]"; "%"]) || negb (escape_in_path c).
Definition validEncoded (s : text) : bool := forallb valid_char s.

(** [url.PathEscape]. *)
Definition PathEscape (s : text) : text := escape escape_in_segment s.

(** [url.PathUnescape], or the text itself when it is malformed. *)
Definition pathUnescape (s : text) : text := default s (unescape s).

(** The path of a request: [URL.Path] and [URL.RawPath] of what the client sent. *)
Definition setPath (p : text) : option (text * text) :=
  path ← unescape p;
  Some (path, if bool_decide (p = escape escape_in_path path) then [] else p).

Definition EscapedPath (path rawPath : text) : text :=
  if negb (bool_decide (rawPath = [])) && validEncoded rawPath && bool_decide (unescape rawPath = Some path) then rawPath
  else if bool_decide (path = ["*"]) then ["*"]
  else escape escape_in_path path.

(** * Clean paths *)

(** The segments of a cleaned rooted path, last first. *)
Definition clean_step (acc : list text) (seg : text) : list text :=
  if bool_decide (seg = []) || bool_decide (seg = ["."]) then acc
  else if bool_decide (seg = ["."; "."]) then drop 1 acc
  else seg :: acc.

Definition join (segs : list text) : text := concat (map (fun s => "/" :: s) segs).

Definition ends_slash (p : text) : bool := bool_decide (last p = Some "/").

(** [path.Clean] of a path that begins with a slash. *)
Definition path_Clean (p : text) : text :=
  match reverse (foldl clean_step [] (split_byte "/" (drop 1 p))) with
  | [] => ["/"]
  | segs => join segs
  end.

(** [cleanPath]: a trailing slash stays. *)
Definition cleanPath (p : text) : text :=
  if bool_decide (p = []) then ["/"]
  else
    let p := match p with "/" :: _ => p | _ => "/" :: p end in
    let np := path_Clean p in
    if ends_slash p && negb (bool_decide (np = ["/"])) then np ++ ["/"] else np.

(** * Routing *)

(** A pattern: its literal segments, and whether it ends in a slash and so matches
    everything below. *)
Record Pattern := mkPattern { literals : list text; multi : bool }.

Definition parsePattern (s : text) : Pattern :=
  let parts := split_byte "/" (drop 1 s) in
  match reverse parts with
  | [] :: parts => mkPattern (reverse parts) true
  | _ => mkPattern parts false
  end.

Definition segments (p : Pattern) : Z := zlen (literals p) + (if multi p then 1 else 0).

#[export] Instance Pattern_eq_dec : EqDecision Pattern.
Proof. solve_decision. Defined.

Section mux.
Context {H : Type}.

(** [http.ServeMux]: the patterns with their handlers. *)
Abbreviation ServeMux := (list (Pattern * H)).

(** [HandleFunc]; [None] is the panic on a pattern that is there already. *)
Definition HandleFunc (pattern : text) (h : H) (mux : ServeMux) : option ServeMux :=
  let p := parsePattern pattern in
  if bool_decide (p ∈ map fst mux) then None else Some (mux ++ [(p, h)]).

(** The segments of a path as the routing tree takes them: unescaped, a trailing
    slash is a segment of its own. *)
Definition path_segments (path : text) : list text :=
  match path with
  | [] => []
  | _ :: path =>
      let parts := split_byte "/" path in
      match reverse parts with
      | [] :: parts => map pathUnescape (reverse parts) ++ [["/"]]
      | _ => map pathUnescape parts
      end
  end.

(** [routingNode.matchPath]: literals first, then what matches everything below.
    A node is the patterns that go through it, with their literals left. *)
Fixpoint matchPath (segs : list text) (node : list (list text * (Pattern * H))) : option (Pattern * H) :=
  match segs with
  | [] => head (omap (fun '(lits, ph) => if bool_decide (lits = []) && negb (multi (fst ph)) then Some ph else None) node)
  | seg :: segs =>
      let child := omap (fun '(lits, ph) => match lits with l :: lits => if bool_decide (l = seg) then Some (lits, ph) else None | [] => None end) node in
      match matchPath segs child with
      | Some ph => Some ph
      | None => head (omap (fun '(lits, ph) => if bool_decide (lits = []) && multi (fst ph) then Some ph else None) node)
      end
  end.

Definition tree_match (mux : ServeMux) (path : text) : option (Pattern * H) :=
  matchPath (path_segments path) (map (fun ph => (literals (fst ph), ph)) mux).

Definition count_slashes (p : text) : Z := zlen (filter (fun c => c = "/") p).

Definition exactMatch (n : option (Pattern * H)) (path : text) : bool :=
  match n with
  | None => false
  | Some (p, _) => if multi p && negb (ends_slash path) then false else segments p =? count_slashes path
  end.

(** [matchOrRedirect]: the match, or the path to redirect to. *)
Definition matchOrRedirect (mux : ServeMux) (path urlPath : text) (redirect : bool) : option (Pattern * H) * option text :=
  let n := tree_match mux path in
  if negb (exactMatch n path) && redirect && negb (ends_slash path) && negb (bool_decide (path = [])) then
    let n2 := tree_match mux (path ++ ["/"]) in
    if exactMatch n2 (path ++ ["/"]) then (n2, Some (cleanPath urlPath ++ ["/"])) else (n, None)
  else (n, None).

Inductive route := Handle (h : H) | Redirect (path : text) | NotFound.

(** [findHandler] for a request with [method] and the paths of its URL. *)
Definition findHandler (mux : ServeMux) (method : string) (urlPath rawPath : text) : route :=
  let escapedPath := EscapedPath urlPath rawPath in
  let found n := match n with Some (_, h) => Handle h | None => NotFound end in
  if bool_decide (method = "CONNECT"%string) then
    match matchOrRedirect mux escapedPath urlPath true with
    | (_, Some u) => Redirect u
    | _ => found (fst (matchOrRedirect mux escapedPath urlPath false))
    end
  else
    let path := cleanPath escapedPath in
    match matchOrRedirect mux path urlPath true with
    | (_, Some u) => Redirect u
    | (n, None) => if negb (bool_decide (path = escapedPath)) then Redirect path else found n
    end.

End mux.
Arguments route : clear implicits.

(** * Escapes come back *)

(** Checks a statement about every character. *)
Ltac each_char c := destruct c as [[] [] [] [] [] [] [] []]; vm_compute; try reflexivity; try discriminate.

Lemma unescape_plain c s : c <> "%" -> unescape (c :: s) = rest ← unescape s; Some (c :: rest).
Proof. intros Hc. destruct c as [[] [] [] [] [] [] [] []]; first [reflexivity|by destruct Hc]. Qed.

Lemma unescape_hex c s :
  unescape ("%" :: hex_char (code c / 16) :: hex_char (code c mod 16) :: s) = rest ← unescape s; Some (c :: rest).
Proof.
  cbn [unescape].
  assert (Hx : hex_digit (hex_char (code c / 16)) = Some (code c / 16)) by each_char c.
  assert (Hy : hex_digit (hex_char (code c mod 16)) = Some (code c mod 16)) by each_char c.
  assert (Hc : ascii_of_N (Z.to_N (16 * (code c / 16) + code c mod 16)) = c) by each_char c.
  rewrite Hx, Hy. cbn [mbind option_bind]. by rewrite Hc.
Qed.

Lemma unescape_escape should s : should "%" = true -> unescape (escape should s) = Some s.
Proof.
  intros Hp. induction s as [|c s IH]; [done|]. cbn [escape]. destruct (should c) eqn:E; cbn [app].
  - rewrite unescape_hex, IH. done.
  - rewrite unescape_plain by congruence. by rewrite IH.
Qed.

Lemma PathEscape_chars s : Forall (fun c => valid_char c = true /\ c <> "/") (PathEscape s).
Proof.
  induction s as [|c s IH]; [constructor|]. unfold PathEscape. cbn [escape]. apply Forall_app. split; [|exact IH].
  assert (Hh : forall n, (n = code c / 16 \/ n = code c mod 16) -> valid_char (hex_char n) = true /\ hex_char n <> "/").
  { intros n [-> | ->]; split; each_char c. }
  destruct (escape_in_segment c) eqn:E.
  - apply Forall_cons. split; [by split|]. apply Forall_cons. split; [apply Hh; auto|]. apply Forall_singleton, Hh. auto.
  - apply Forall_singleton. revert E. destruct c as [[] [] [] [] [] [] [] []]; vm_compute; intros; done.
Qed.

Lemma EscapedPath_set p path raw : setPath p = Some (path, raw) -> validEncoded p = true -> path <> ["*"] -> EscapedPath path raw = p.
Proof.
  unfold setPath. intros (path' & Hu & Heq)%bind_Some Hv Hs. injection Heq as <- <-. unfold EscapedPath.
  destruct (decide (p = escape escape_in_path path')) as [Hp|Hp].
  - rewrite (bool_decide_true (p = escape _ _)) by done. cbn -[escape]. rewrite bool_decide_false by done. by rewrite <- Hp.
  - rewrite (bool_decide_false (p = escape _ _)) by done.
    assert (Hne : p <> []) by (intros ->; injection Hu as <-; by apply Hp).
    rewrite (bool_decide_false (p = [])) by done. rewrite Hv, (bool_decide_true (unescape p = _)) by done. done.
Qed.

Lemma split_byte_none c l : Forall (fun x => x <> c) l -> split_byte c l = [l].
Proof. induction 1 as [|x l Hx _ IH]; cbn; [done|]. by rewrite bool_decide_false, IH. Qed.

Lemma split_byte_app c a b : Forall (fun x => x <> c) a -> split_byte c (a ++ c :: b) = a :: split_byte c b.
Proof.
  induction 1 as [|x a Hx _ IH]; cbn; [by rewrite bool_decide_eq_true_2|]. by rewrite bool_decide_false, IH.
Qed.

(** * The paths below a directory *)

(** A directory and a name below it, which is not special. *)
Record below (dir name : text) : Prop := {
  be_dir : Forall (fun c => c <> "/") dir;
  be_name : Forall (fun c => c <> "/") name;
  be_dots : forall x, x ∈ [dir; name] -> x <> [] /\ x <> ["."] /\ x <> ["."; "."]
}.

Lemma below_split dir name : below dir name -> split_byte "/" (dir ++ "/" :: name) = [dir; name].
Proof. intros [Hd Hn _]. by rewrite split_byte_app, split_byte_none. Qed.

Lemma below_no_slash dir name : below dir name -> ends_slash ("/" :: dir ++ "/" :: name) = false.
Proof.
  intros [_ Hn Hd]. destruct (Hd name) as [Hne _]; [right; by left|]. unfold ends_slash. apply bool_decide_false.
  destruct name as [|x name _] using rev_ind; [done|].
  replace ("/" :: dir ++ "/" :: name ++ [x]) with (("/" :: dir ++ "/" :: name) ++ [x]) by (rewrite <- app_comm_cons, <- app_assoc; reflexivity).
  rewrite last_snoc. intros [= E]. apply Forall_app in Hn as [_ Hn]. rewrite list.Forall_singleton in Hn. exact (Hn E).
Qed.

Lemma cleanPath_rooted q : cleanPath ("/" :: q) =
  let np := match reverse (foldl clean_step [] (split_byte "/" q)) with [] => ["/"] | segs => join segs end in
  if ends_slash ("/" :: q) && negb (bool_decide (np = ["/"])) then np ++ ["/"] else np.
Proof. reflexivity. Qed.

Lemma clean_below dir name : below dir name -> cleanPath ("/" :: dir ++ "/" :: name) = "/" :: dir ++ "/" :: name.
Proof.
  intros Hb. rewrite cleanPath_rooted, (below_no_slash _ _ Hb), (below_split _ _ Hb). destruct Hb as [_ _ Hd].
  destruct (Hd dir) as (D1 & D2 & D3); [by left|]. destruct (Hd name) as (N1 & N2 & N3); [right; by left|].
  assert (E : foldl clean_step [] [dir; name] = [name; dir]).
  { cbn [foldl]. unfold clean_step. by rewrite !bool_decide_false by done. }
  rewrite E. cbn [andb reverse]. unfold join. cbn. by rewrite app_nil_r.
Qed.

Lemma count_slashes_none l : Forall (fun c => c <> "/") l -> count_slashes l = 0.
Proof.
  unfold count_slashes. induction 1 as [|c l Hc _ IH]; [done|]. by rewrite filter_cons, decide_False.
Qed.

Lemma count_slashes_app a b : count_slashes (a ++ b) = count_slashes a + count_slashes b.
Proof. unfold count_slashes. by rewrite filter_app, zlen_app. Qed.

(** * A collection and its members *)

Section collection.
Context {H : Type} (dir : text) (one all : H) (Hdir : pathUnescape dir = dir).

(** The patterns ["/dir/"] and ["/dir"]. *)
Definition collection : list (Pattern * H) := [(mkPattern [dir] true, one); (mkPattern [dir] false, all)].

Lemma matchPath_nil (segs : list text) : matchPath (H := H) segs [] = None.
Proof. induction segs as [|seg segs IH]; [done|]. cbn. by rewrite IH. Qed.

Lemma match_member x rest : matchPath (dir :: x :: rest) (map (fun ph => (literals (fst ph), ph)) collection) = Some (mkPattern [dir] true, one).
Proof. cbn. rewrite !bool_decide_true by done. cbn. by rewrite matchPath_nil. Qed.

Lemma segments_member name : below dir name -> path_segments ("/" :: dir ++ "/" :: name) = [dir; pathUnescape name].
Proof.
  intros Hb. unfold path_segments. rewrite (below_split _ _ Hb). destruct Hb as [_ _ Hd].
  destruct (Hd name) as [Hne _]; [right; by left|]. cbn. destruct name; [done|]. by rewrite Hdir.
Qed.

Lemma segments_member_slash name : below dir name -> path_segments (("/" :: dir ++ "/" :: name) ++ ["/"]) = [dir; pathUnescape name; ["/"]].
Proof.
  intros Hb. unfold path_segments. rewrite <- app_comm_cons, split_byte_snoc, (below_split _ _ Hb). cbn. by rewrite Hdir.
Qed.

(** The request for a member goes to its handler, without a redirect. *)
Lemma route_member method raw path name : below dir name -> EscapedPath path raw = "/" :: dir ++ "/" :: name ->
  findHandler collection method path raw = Handle one.
Proof.
  intros Hb He. set (p := "/" :: dir ++ "/" :: name) in *. pose proof (below_no_slash _ _ Hb) as Hs. fold p in Hs.
  assert (Hm : tree_match collection p = Some (mkPattern [dir] true, one)).
  { unfold tree_match, p. rewrite (segments_member _ Hb). apply match_member. }
  assert (Hm2 : tree_match collection (p ++ ["/"]) = Some (mkPattern [dir] true, one)).
  { unfold tree_match, p. rewrite (segments_member_slash _ Hb). apply match_member. }
  assert (Hc : count_slashes (p ++ ["/"]) = 3).
  { destruct Hb as [Hd Hn _]. unfold p. change ("/" :: dir ++ "/" :: name) with (["/"] ++ dir ++ ["/"] ++ name).
    rewrite !count_slashes_app, (count_slashes_none _ Hd), (count_slashes_none _ Hn). reflexivity. }
  assert (He2 : exactMatch (Some (mkPattern [dir] true, one)) (p ++ ["/"]) = false).
  { unfold exactMatch. rewrite Hc. by destruct (_ && _). }
  assert (Hr : forall b, matchOrRedirect collection p path b = (Some (mkPattern [dir] true, one), None)).
  { intros b. unfold matchOrRedirect. rewrite Hm, Hm2, He2. by destruct (_ && _). }
  assert (Hcl : cleanPath p = p) by exact (clean_below _ _ Hb). unfold findHandler. rewrite He, Hcl, !Hr. cbn [fst].
  case_bool_decide; [done|]. by rewrite bool_decide_true.
Qed.

End collection.

(** The name under a directory as a client sends it: escaped. *)
Lemma PathEscape_inj a b : PathEscape a = PathEscape b -> a = b.
Proof.
  intros E. assert (Some a = Some b) as [= ->]; [|done].
  rewrite <- (unescape_escape escape_in_segment a), <- (unescape_escape escape_in_segment b) by reflexivity.
  unfold PathEscape in E. by rewrite E.
Qed.

Lemma below_escaped dir name : Forall (fun c => c <> "/") dir -> dir <> [] -> dir <> ["."] -> dir <> ["."; "."] ->
  name <> [] -> name <> ["."] -> name <> ["."; "."] -> below dir (PathEscape name).
Proof.
  intros Hd D1 D2 D3 N1 N2 N3. split; [done| |].
  - eapply Forall_impl; [apply PathEscape_chars|]. by intros c [_ ?].
  - intros x [->|[->|[]%not_elem_of_nil]%elem_of_cons]%elem_of_cons; [done|].
    split_and!; intros E; [apply N1|apply N2|apply N3]; apply PathEscape_inj; by rewrite E.
Qed.

(** * A page and everything else *)

Section page.
Context {H : Type} (name : text) (page rest : H) (Hname : Forall (fun c => c <> "/") name).

(** The patterns ["/name"] and ["/"]. *)
Definition page_mux : list (Pattern * H) := [(mkPattern [name] false, page); (mkPattern [] true, rest)].

Lemma match_page segs : segs <> [] -> matchPath segs (map (fun ph => (literals (fst ph), ph)) page_mux) =
  Some (if bool_decide (segs = [name]) then (mkPattern [name] false, page) else (mkPattern [] true, rest)).
Proof.
  destruct segs as [|seg segs]; [done|]. intros _. cbn. destruct (decide (name = seg)) as [<-|Hne].
  - rewrite bool_decide_true by done. destruct segs as [|x segs]; cbn; [by rewrite bool_decide_true|].
    rewrite matchPath_nil. by rewrite bool_decide_false.
  - rewrite !bool_decide_false, matchPath_nil by congruence. done.
Qed.

Lemma path_segments_cons c path : path_segments (c :: path) <> [].
Proof.
  unfold path_segments. destruct (split_byte_cons "/" path) as (p & ps & ->). destruct (reverse (p :: ps)) as [|[|] l]; [done| |done].
  by destruct (map pathUnescape (reverse l)).
Qed.

Lemma path_segments_slash q : last (path_segments ("/" :: q ++ ["/"])) = Some ["/"].
Proof. unfold path_segments. rewrite split_byte_snoc, reverse_snoc. by rewrite last_snoc. Qed.

(** A clean path goes to the page or to the rest. *)
Lemma route_page method path raw q : EscapedPath path raw = "/" :: q -> cleanPath ("/" :: q) = "/" :: q ->
  findHandler page_mux method path raw = Handle (if bool_decide (path_segments ("/" :: q) = [name]) then page else rest).
Proof.
  intros He Hc. set (p := "/" :: q) in *.
  assert (Hm : tree_match page_mux p = Some (if bool_decide (path_segments p = [name]) then (mkPattern [name] false, page) else (mkPattern [] true, rest))).
  { unfold tree_match. apply match_page, path_segments_cons. }
  assert (Hm2 : tree_match page_mux (p ++ ["/"]) = Some (mkPattern [] true, rest)).
  { unfold tree_match. rewrite match_page by apply path_segments_cons. rewrite bool_decide_false; [done|]. intros E.
    pose proof (path_segments_slash q) as Hl. change ("/" :: q ++ ["/"]) with (p ++ ["/"]) in Hl. rewrite E in Hl. injection Hl as ->.
    by apply Forall_inv in Hname. }
  assert (He2 : exactMatch (Some (mkPattern [] true, rest)) (p ++ ["/"]) = false).
  { unfold exactMatch. destruct (_ && _); [done|]. apply Z.eqb_neq. unfold p. change ("/" :: q) with (["/"] ++ q).
    rewrite !count_slashes_app. pose proof (zlen_nonneg (filter (fun c => c = "/") q) : 0 <= count_slashes q).
    change (segments (mkPattern [] true)) with 1. change (count_slashes ["/"]) with 1. lia. }
  assert (Hr : forall b, matchOrRedirect page_mux p path b = (Some (if bool_decide (path_segments p = [name]) then (mkPattern [name] false, page) else (mkPattern [] true, rest)), None)).
  { intros b. unfold matchOrRedirect. rewrite Hm, Hm2, He2. by destruct (_ && _). }
  unfold findHandler. rewrite He, Hc, !Hr. cbn [fst]. rewrite (bool_decide_true (p = p)) by done. cbn [negb].
  destruct (bool_decide (path_segments p = _)), (bool_decide (method = _)); done.
Qed.

End page.
