(* ===== verification/Value.v ===== *)
(** Go's dynamic values, as far as the program meets them: what an [interface{}]
    holds after JSON or BSON was decoded into it. *)
From S2P Require Import Prelude GoLib.
From Stdlib Require Export SpecFloat.
#[local] Open Scope Z_scope.

(** [VSlice] is [[]interface{}], [VMap] is [map[string]interface{}]; [VA], [VM] and
    [VD] are the types [bson.A], [bson.M] and [bson.D], [VDocs] is [[]bson.M]; [VTime] is a [time.Time];
    [VOther] is a value of another type of the BSON library. *)
#[warnings="-register-all"]
Inductive value :=
| VNil
| VBool (b : bool)
| VFloat (f : spec_float)
| VInt32 (z : Z)
| VInt64 (z : Z)
| VString (s : string)
| VSlice (l : list value)
| VMap (m : gmap string value)
| VA (l : list value)
| VM (m : gmap string value)
| VD (l : list (string * value))
| VTime (t : Z)
| VDocs (l : list (gmap string value))
| VOther (type : string) (raw : bytes).

(** [num == math.Trunc(num)], for a finite number: the mantissa has no bits below
    the point. *)
Definition is_trunc (f : spec_float) : bool :=
  match f with
  | S754_zero _ | S754_infinity _ => true
  | S754_nan => false
  | S754_finite _ m e => (0 <=? e) || (Z.pos m mod 2 ^ (- e) =? 0)
  end.
