(* ===== verification/GoFloat.v ===== *)
(** Go's [float64]: the conversions and the rounding of a product, over the
    specification of binary floating point in the standard library. *)
From S2P Require Import Prelude GoLib Value.
#[local] Open Scope Z_scope.

(** [float64(n)], [x * y], [x / y] and [x + y]. *)
Definition float64 (n : Z) : spec_float := binary_normalize 53 1024 n 0 false.
Definition fmul : spec_float -> spec_float -> spec_float := SFmul 53 1024.
Definition fdiv : spec_float -> spec_float -> spec_float := SFdiv 53 1024.
Definition fadd : spec_float -> spec_float -> spec_float := SFadd 53 1024.

(** [int(f)]: towards zero; what does not fit is the least integer (as on amd64). *)
Definition int_of_float (f : spec_float) : Z :=
  match f with
  | S754_zero _ => 0
  | S754_finite s m e =>
      let a := if 0 <=? e then Z.pos m * 2 ^ e else Z.pos m / 2 ^ (- e) in
      let v := if s then - a else a in
      if (- 2 ^ 63 <=? v) && (v <? 2 ^ 63) then v else - 2 ^ 63
  | _ => - 2 ^ 63
  end.

(** * Rounding *)

Lemma digits2_pos_spec p : 2 ^ (Z.pos (digits2_pos p) - 1) <= Z.pos p < 2 ^ Z.pos (digits2_pos p).
Proof.
  induction p as [p IH|p IH|]; cbn [digits2_pos]; [..|done]; rewrite Pos2Z.inj_succ;
    replace (Z.succ (Z.pos (digits2_pos p)) - 1) with (Z.pos (digits2_pos p)) by lia; rewrite Z.pow_succ_r by lia;
    (replace (2 ^ Z.pos (digits2_pos p)) with (2 * 2 ^ (Z.pos (digits2_pos p) - 1)) in * by (rewrite <- Z.pow_succ_r by lia; f_equal; lia)); lia.
Qed.

(** The number of digits is determined by the powers of two around a number. *)
Lemma digits2_pos_le p k : 0 <= k -> Z.pos p < 2 ^ k -> Z.pos (digits2_pos p) <= k.
Proof.
  intros Hk H. destruct (digits2_pos_spec p) as [Hl _]. assert (2 ^ (Z.pos (digits2_pos p) - 1) < 2 ^ k) as Hlt by lia.
  apply Z.pow_lt_mono_r_iff in Hlt; lia.
Qed.

Lemma digits2_pos_ge p k : 0 <= k -> 2 ^ k <= Z.pos p -> k < Z.pos (digits2_pos p).
Proof.
  intros Hk H. destruct (digits2_pos_spec p) as [_ Hu]. assert (2 ^ k < 2 ^ Z.pos (digits2_pos p)) as Hlt by lia.
  apply Z.pow_lt_mono_r_iff in Hlt; lia.
Qed.

Lemma shr_1_m mrs : 0 <= shr_m mrs -> shr_m (shr_1 mrs) = shr_m mrs / 2.
Proof.
  destruct mrs as [[|[p|p|]|p] r s]; cbn [shr_m shr_1]; intros H; try done; [|].
  - apply (Z.div_unique _ _ _ 1); lia.
  - apply (Z.div_unique _ _ _ 0); lia.
Qed.

Lemma iter_shr_m p : forall mrs, 0 <= shr_m mrs -> shr_m (iter_pos shr_1 p mrs) = shr_m mrs / 2 ^ Z.pos p.
Proof.
  induction p as [p IH|p IH|]; intros mrs H; cbn [iter_pos]; [| |by apply shr_1_m].
  all: assert (Hd : 2 ^ Z.pos p <> 0 /\ 0 < 2 ^ Z.pos p) by (split; [apply Z.pow_nonzero; lia|lia]).
  - pose proof (shr_1_m mrs H) as E. assert (0 <= shr_m (shr_1 mrs)) by (rewrite E; apply Z.div_pos; lia).
    rewrite !IH, E by (rewrite ?IH by done; try apply Z.div_pos; lia). rewrite !Z.div_div by lia. f_equal.
    replace (Z.pos p~1) with (1 + Z.pos p + Z.pos p) by lia. rewrite !Z.pow_add_r by lia. change (2 ^ 1) with 2. ring.
  - rewrite !IH by (rewrite ?IH by done; try apply Z.div_pos; lia). rewrite Z.div_div by lia. f_equal.
    replace (Z.pos p~0) with (Z.pos p + Z.pos p) by lia. by rewrite Z.pow_add_r by lia.
Qed.

(** A shift of a normal number drops the digits beyond the 53rd. *)
Lemma shr_fexp_m p e l : - 1021 <= Z.pos (digits2_pos p) + e ->
  let k := Z.max 0 (Z.pos (digits2_pos p) - 53) in
  exists mrs, shr_fexp 53 1024 (Z.pos p) e l = (mrs, e + k) /\ shr_m mrs = Z.pos p / 2 ^ k /\
    (k = 0 -> mrs = shr_record_of_loc (Z.pos p) l).
Proof.
  intros He k. unfold shr_fexp, fexp, emin. cbn [Zdigits2].
  replace (Z.max _ _ - e) with (Z.pos (digits2_pos p) - 53) by lia.
  assert (Hm : shr_m (shr_record_of_loc (Z.pos p) l) = Z.pos p) by (by destruct l as [|[]]).
  unfold k. destruct (Z.pos (digits2_pos p) - 53) as [|q|q] eqn:Ek; cbn [shr].
  1, 3: exists (shr_record_of_loc (Z.pos p) l); split_and!; [f_equal; lia|rewrite Hm; symmetry; apply Z.div_1_r|done].
  eexists. split; [f_equal; lia|]. split; [|lia]. rewrite iter_shr_m by (rewrite Hm; lia). by rewrite Hm.
Qed.

Lemma round_nearest_even_near m l : round_nearest_even m l = m \/ round_nearest_even m l = m + 1.
Proof. destruct l as [|[]]; cbn; try destruct (Z.even m); auto. Qed.

(** Rounding a product: exact when it has at most 53 digits, and within one part in
    2^52 otherwise. *)
Lemma round_near s p e :
  - 1021 <= Z.pos (digits2_pos p) + e <= 900 ->
  exists m e', binary_round_aux 53 1024 s (Z.pos p) e loc_Exact = S754_finite s m e' /\ e <= e' /\
    Z.abs (Z.pos m * 2 ^ (e' - e) - Z.pos p) * 2 ^ 52 <= Z.pos p /\
    (Z.pos (digits2_pos p) <= 53 -> m = p /\ e' = e).
Proof.
  intros [He1 He2]. unfold binary_round_aux. set (d := Z.pos (digits2_pos p)) in *.
  destruct (shr_fexp_m p e loc_Exact He1) as (mrs & E1 & Hm & Hk0). fold d in E1, Hm, Hk0. rewrite E1.
  destruct (Z.le_gt_cases d 53) as [Hd|Hd].
  - replace (Z.max 0 (d - 53)) with 0 in * by lia. rewrite (Hk0 eq_refl). cbn [shr_record_of_loc shr_m loc_of_shr_record round_nearest_even].
    rewrite Z.add_0_r. destruct (shr_fexp_m p e loc_Exact He1) as (mrs2 & E2 & _ & Hk2). fold d in E2, Hk2.
    replace (Z.max 0 (d - 53)) with 0 in * by lia. rewrite E2, (Hk2 eq_refl), Z.add_0_r. cbn [shr_m shr_record_of_loc].
    rewrite (proj2 (Z.leb_le _ _)) by lia. exists p, e. rewrite Z.sub_diag, Z.mul_1_r, Z.sub_diag. split_and!; [done|lia|lia|done].
  - replace (Z.max 0 (d - 53)) with (d - 53) in * by lia. destruct (digits2_pos_spec p) as [Hl Hu]. fold d in Hl, Hu.
    set (k := d - 53) in *. set (q := Z.pos p / 2 ^ k) in *.
    assert (Hk : 0 < 2 ^ k) by lia. pose proof (Z.div_mod (Z.pos p) (2 ^ k) ltac:(lia)) as Hdm. fold q in Hdm.
    pose proof (Z.mod_pos_bound (Z.pos p) (2 ^ k) Hk) as Hmod.
    replace (2 ^ (d - 1)) with (2 ^ 52 * 2 ^ k) in Hl by (rewrite <- Z.pow_add_r by lia; f_equal; lia).
    replace (2 ^ d) with (2 ^ 53 * 2 ^ k) in Hu by (rewrite <- Z.pow_add_r by lia; f_equal; lia).
    assert (Hq : 2 ^ 52 <= q < 2 ^ 53).
    { split; [apply Z.div_le_lower_bound; lia|apply Z.div_lt_upper_bound; lia]. }
    rewrite Hm. set (c := round_nearest_even q (loc_of_shr_record mrs)).
    assert (Hc : c = q \/ c = q + 1) by apply round_nearest_even_near.
    destruct c as [|pc|] eqn:Ec; [lia| |lia].
    assert (Hnear : Z.abs (Z.pos pc * 2 ^ k - Z.pos p) * 2 ^ 52 <= Z.pos p) by nia.
    destruct (Z.eq_dec (Z.pos pc) (2 ^ 53)) as [Etop|Hne].
    + assert (pc = 9007199254740992%positive) as -> by lia.
      assert (E2 : shr_fexp 53 1024 9007199254740992 (e + k) loc_Exact = ({| shr_m := 4503599627370496; shr_r := false; shr_s := false |}, e + k + 1)).
      { unfold shr_fexp, fexp, emin. cbn [Zdigits2 digits2_pos Pos.succ]. replace (Z.max _ _ - (e + k)) with 1 by lia. reflexivity. }
      rewrite E2. cbn [shr_m]. rewrite (proj2 (Z.leb_le _ _)) by lia. exists 4503599627370496%positive, (e + k + 1). split_and!; [done|lia| |lia].
      replace (e + k + 1 - e) with (k + 1) by lia. rewrite Z.pow_add_r by lia. lia.
    + assert (Hdig : Z.pos (digits2_pos pc) = 53).
      { apply Z.le_antisymm; [apply digits2_pos_le; lia|]. pose proof (digits2_pos_ge pc 52 ltac:(lia) ltac:(lia)). lia. }
      destruct (shr_fexp_m pc (e + k) loc_Exact ltac:(lia)) as (mrs2 & E2 & _ & Hk2). rewrite Hdig in E2, Hk2. cbn [Z.max Z.compare Z.sub] in E2, Hk2.
      rewrite E2, (Hk2 eq_refl). cbn [shr_m shr_record_of_loc]. rewrite (proj2 (Z.leb_le _ _)) by lia.
      exists pc, (e + k). rewrite Z.add_0_r. split_and!; [done|lia| |lia]. by replace (e + k - e) with k by lia.
Qed.

(** * Integers and fractions of them *)

Lemma iter_xO p j : Z.pos (Pos.iter xO p j) = Z.pos p * 2 ^ Z.pos j.
Proof.
  revert p. induction j as [|j IH] using Pos.peano_ind; intros p; [cbn; lia|].
  rewrite Pos.iter_succ, Pos2Z.inj_xO, IH, Pos2Z.inj_succ, Z.pow_succ_r by lia. ring.
Qed.

(** Integers below 2^53 are floats. *)
Lemma float64_exact n : 0 < n < 2 ^ 53 ->
  exists j m, 0 <= j <= 52 /\ float64 n = S754_finite false m (- j) /\ Z.pos m = n * 2 ^ j /\ Z.pos m < 2 ^ 53.
Proof.
  intros [H0 H1]. destruct n as [|p|]; [lia| |lia]. unfold float64, binary_normalize, binary_round. rewrite Z.add_0_r.
  pose proof (digits2_pos_le p 53 ltac:(lia) H1) as Hd. destruct (digits2_pos_spec p) as [_ Hu].
  unfold fexp, emin. replace (Z.max _ _) with (- (53 - Z.pos (digits2_pos p))) by lia.
  set (j := 53 - Z.pos (digits2_pos p)). assert (Hj : 0 <= j <= 52) by lia.
  assert (E : exists m, shl_align p 0 (- j) = (m, - j) /\ Z.pos m = Z.pos p * 2 ^ j).
  { unfold shl_align. destruct j as [|q|]; cbn [Z.opp Z.sub Z.add]; [exists p; split; [done|lia]| |lia].
    exists (Pos.iter xO p q). split; [done|apply iter_xO]. }
  destruct E as (m & -> & Em). assert (Hm : Z.pos m < 2 ^ 53).
  { rewrite Em. replace 53 with (Z.pos (digits2_pos p) + j) at 1 by lia. rewrite Z.pow_add_r by lia. apply Z.mul_lt_mono_pos_r; lia. }
  pose proof (digits2_pos_le m 53 ltac:(lia) Hm) as Hdm.
  destruct (round_near false m (- j) ltac:(lia)) as (m' & e' & -> & _ & _ & Hx). destruct (Hx Hdm) as [-> ->].
  exists j, m. done.
Qed.

Lemma int_of_finite m e b : b <= 0 -> b <= e -> (Z.pos m * 2 ^ (e - b)) / 2 ^ (- b) < 2 ^ 63 ->
  int_of_float (S754_finite false m e) = (Z.pos m * 2 ^ (e - b)) / 2 ^ (- b).
Proof.
  intros Hb He Hlt. unfold int_of_float.
  assert ((if 0 <=? e then Z.pos m * 2 ^ e else Z.pos m / 2 ^ (- e)) = (Z.pos m * 2 ^ (e - b)) / 2 ^ (- b)) as ->.
  { destruct (0 <=? e) eqn:E.
    - replace (e - b) with (e + (- b)) by lia. rewrite Z.pow_add_r, Z.mul_assoc by lia. rewrite Z.div_mul by lia. done.
    - replace (2 ^ (- b)) with (2 ^ (- e) * 2 ^ (e - b)) by (rewrite <- Z.pow_add_r by lia; f_equal; lia).
      by rewrite Z.div_mul_cancel_r by lia. }
  assert (0 <= (Z.pos m * 2 ^ (e - b)) / 2 ^ (- b)) by (apply Z.div_pos; lia).
  rewrite (proj2 (Z.leb_le _ _)) by lia. by rewrite (proj2 (Z.ltb_lt _ _)) by lia.
Qed.

(** [int(p * float64(n))] for a fraction [p] of 53 binary digits: the quotient of a
    number [r] close to the exact product by a power of two. *)
Lemma int_of_fraction n : 0 < n < 2 ^ 53 -> exists j, 0 <= j <= 52 /\
  forall pm, Z.pos pm < 2 ^ 53 -> exists r, int_of_float (fmul (S754_finite false pm (-53)) (float64 n)) = r / 2 ^ (53 + j) /\
    Z.abs (r - Z.pos pm * (n * 2 ^ j)) * 2 ^ 52 <= Z.pos pm * (n * 2 ^ j).
Proof.
  intros Hn. destruct (float64_exact n Hn) as (j & m & Hj & -> & Em & Hm). exists j. split; [done|]. intros pm Hpm.
  cbn [fmul SFmul xorb]. unfold fmul, SFmul. cbn [xorb].
  assert (Hprod : Z.pos (pm * m) < 2 ^ 106) by nia.
  pose proof (digits2_pos_le (pm * m) 106 ltac:(lia) Hprod) as Hd.
  destruct (round_near false (pm * m) (-53 + - j) ltac:(lia)) as (m' & e' & -> & He & Hr & _).
  rewrite Pos2Z.inj_mul, Em in Hr. exists (Z.pos m' * 2 ^ (e' - (-53 + - j))). split; [|done].
  rewrite (int_of_finite m' e' (-53 + - j)); [by replace (- (-53 + - j)) with (53 + j) by lia|lia|lia|].
  apply (Z.le_lt_trans _ (2 * Z.pos (pm * m) / 2 ^ (- (-53 + - j)))); [apply Z.div_le_mono; [lia|]|].
  - rewrite Pos2Z.inj_mul, Em. lia.
  - apply Z.div_lt_upper_bound; [lia|]. assert (2 ^ 53 <= 2 ^ (- (-53 + - j))) by (apply Z.pow_le_mono_r; lia). lia.
Qed.
