(* ===== verification/Files.v ===== *)
(** Directories and open files, as the storage code uses them through package
    [os]: a directory maps names to contents, a [File] is an open descriptor
    with a position, and every call may be made to fail by a fault taken from a
    list, so that the error paths of the code can be run. *)
From S2P Require Import Prelude GoLib.
#[local] Open Scope Z_scope.

(** What the operating system does with the next call: carry it out, refuse
    it, or, for a write, carry out only its first [k] bytes and report an
    error. *)
Inductive fault := Fine | Deny | Short (k : nat).

#[export] Instance fault_eq : EqDecision fault.
Proof. solve_decision. Defined.

Record Dir := mkDir {
  files : gmap string bytes;
  faults : list fault
}.

(** The same directory with every later call carried out. *)
Definition calm (d : Dir) : Prop := faults d = [].

Definition next_fault (d : Dir) : fault * Dir :=
  match faults d with
  | [] => (Fine, d)
  | f :: fl => (f, mkDir (files d) fl)
  end.

Definition set_file (name : string) (c : bytes) (d : Dir) : Dir :=
  mkDir (<[name := c]> (files d)) (faults d).

(** [os.ReadFile]. *)
Definition ReadFile (name : string) : M Dir bytes := fun d =>
  let '(f, d) := next_fault d in
  match f, files d !! name with
  | Fine, Some c => (Ok c, d)
  | Fine, None => (Err "no such file", d)
  | _, _ => (Err "input/output error", d)
  end.

(** [os.WriteFile]: create or truncate, then write. *)
Definition WriteFile (name : string) (data : bytes) : M Dir unit := fun d =>
  let '(f, d) := next_fault d in
  match f with
  | Fine => (Ok tt, set_file name data d)
  | Deny => (Err "input/output error", d)
  | Short k => (Err "input/output error", set_file name (take k data) d)
  end.

(** [os.Remove]. *)
Definition Remove (name : string) : M Dir unit := fun d =>
  let '(f, d) := next_fault d in
  match f, files d !! name with
  | Fine, Some _ => (Ok tt, mkDir (delete name (files d)) (faults d))
  | Fine, None => (Err "no such file", d)
  | _, _ => (Err "input/output error", d)
  end.

(** [os.ReadDir]: the names in the directory. *)
Definition ReadDir : M Dir (list string) := fun d =>
  let '(f, d) := next_fault d in
  match f with
  | Fine => (Ok (map fst (map_to_list (files d))), d)
  | _ => (Err "input/output error", d)
  end.

(** * Open files *)

Record File := mkFile {
  path : string;
  appendMode : bool;
  pos : Z;
  isOpen : bool
}.

(** [os.OpenFile] with [O_CREATE|O_RDWR] and either [O_APPEND] or [O_TRUNC]. *)
Definition OpenAppend (name : string) : M Dir File := fun d =>
  let '(f, d) := next_fault d in
  match f with
  | Fine =>
      let c := match files d !! name with Some c => c | None => [] end in
      (Ok (mkFile name true 0 true), set_file name c d)
  | _ => (Err "input/output error", d)
  end.

Definition OpenTrunc (name : string) : M Dir File := fun d =>
  let '(f, d) := next_fault d in
  match f with
  | Fine => (Ok (mkFile name false 0 true), set_file name [] d)
  | _ => (Err "input/output error", d)
  end.

(** The contents after writing [data] at [at], a gap being filled with zeros. *)
Definition write_at (c : bytes) (at_ : Z) (data : bytes) : bytes :=
  let k := Z.to_nat at_ in
  take k (c ++ replicate (k - length c) x00) ++ data ++ drop (k + length data) c.

Definition file_op (A : Type) := M (File * Dir) A.

(** Calls on a closed file fail before they reach the operating system. *)
Definition on_open {A} (k : bytes -> fault -> file_op A) : file_op A := fun '(f, d) =>
  if negb (isOpen f) then (Err "file already closed", (f, d))
  else match files d !! path f with
       | None => (Err "no such file", (f, d))
       | Some c => let '(flt, d') := next_fault d in k c flt (f, d')
       end.

Definition Write (data : bytes) : file_op unit := on_open (fun c flt '(f, d) =>
  let at_ := if appendMode f then zlen c else pos f in
  let put_ data := (mkFile (path f) (appendMode f) (at_ + zlen data) true,
                    set_file (path f) (write_at c at_ data) d) in
  match flt with
  | Fine => (Ok tt, put_ data)
  | Deny => (Err "input/output error", (f, d))
  | Short k => (Err "input/output error", put_ (take k data))
  end).

(** [Read] into a buffer of [n] bytes; no bytes at the end of the file. *)
Definition Read (n : nat) : file_op bytes := on_open (fun c flt '(f, d) =>
  match flt with
  | Fine =>
      let got := take n (drop (Z.to_nat (pos f)) c) in
      (Ok got, (mkFile (path f) (appendMode f) (pos f + zlen got) true, d))
  | _ => (Err "input/output error", (f, d))
  end).

(** [ReadAt]: exactly [n] bytes from [off], or an error. *)
Definition ReadAt (n : nat) (off : Z) : file_op bytes := on_open (fun c flt '(f, d) =>
  match flt with
  | Fine =>
      let got := take n (drop (Z.to_nat off) c) in
      if (length got <? n)%nat then (Err "EOF", (f, d)) else (Ok got, (f, d))
  | _ => (Err "input/output error", (f, d))
  end).

Inductive whence := SeekStart | SeekCurrent | SeekEnd.

Definition Seek (off : Z) (w : whence) : file_op Z := on_open (fun c flt '(f, d) =>
  match flt with
  | Fine =>
      let p := (match w with SeekStart => off | SeekCurrent => pos f + off | SeekEnd => zlen c + off end)%Z in
      (Ok p, (mkFile (path f) (appendMode f) p true, d))
  | _ => (Err "input/output error", (f, d))
  end).

Definition Truncate0 : file_op unit := on_open (fun c flt '(f, d) =>
  match flt with
  | Fine => (Ok tt, (f, set_file (path f) [] d))
  | _ => (Err "input/output error", (f, d))
  end).

(** [Close] releases the descriptor even when it reports an error. *)
Definition Close : file_op unit := fun '(f, d) =>
  if negb (isOpen f) then (Err "file already closed", (f, d))
  else
    let '(flt, d') := next_fault d in
    let f' := mkFile (path f) (appendMode f) (pos f) false in
    match flt with
    | Fine => (Ok tt, (f', d'))
    | _ => (Err "input/output error", (f', d'))
    end.

(** * Facts about calls that are carried out *)

Lemma next_fault_calm d : calm d -> next_fault d = (Fine, d).
Proof. unfold calm, next_fault. by intros ->. Qed.

Lemma calm_set_file n c d : calm d -> calm (set_file n c d).
Proof. done. Qed.

Lemma write_at_end c data : write_at c (zlen c) data = c ++ data.
Proof.
  unfold write_at, zlen. rewrite Nat2Z.id, Nat.sub_diag, app_nil_r, firstn_all.
  rewrite drop_ge by lia. by rewrite app_nil_r.
Qed.

Lemma write_at_prefix c at_ data : 0 <= at_ <= zlen c -> take (Z.to_nat at_) (write_at c at_ data) = take (Z.to_nat at_) c.
Proof.
  unfold write_at, zlen. intros H. replace (Z.to_nat at_ - length c)%nat with 0%nat by lia.
  rewrite app_nil_r. rewrite take_app_le by (rewrite length_take; lia).
  by rewrite take_take, Nat.min_id.
Qed.

Lemma next_fault_files d f d' :
  next_fault d = (f, d') -> files d' = files d /\ (calm d -> f = Fine /\ calm d').
Proof.
  unfold next_fault, calm. destruct (faults d) as [|x fl] eqn:E; intros [= <- <-]; cbn; split; try done.
Qed.

(** A write at the end of a file extends it, by all of the data unless it
    fails. *)
Lemma Write_spec f d c data r f' d' :
  isOpen f = true -> files d !! path f = Some c -> appendMode f = true \/ pos f = zlen c ->
  Write data (f, d) = (r, (f', d')) ->
  exists x, files d' = <[path f := c ++ x]> (files d) /\ (r = Ok tt -> x = data) /\
    (calm d -> r = Ok tt /\ calm d') /\
    path f' = path f /\ appendMode f' = appendMode f /\ isOpen f' = true /\
    (appendMode f = true \/ pos f' = zlen (c ++ x)).
Proof.
  intros Ho Hc Hpos H. unfold Write, on_open in H. rewrite Ho, Hc in H. cbn in H.
  destruct (next_fault d) as [flt d1] eqn:En. destruct (next_fault_files _ _ _ En) as [Hf Hcm].
  replace (if appendMode f then zlen c else pos f) with (zlen c) in H.
  2:{ destruct (appendMode f); [done|]. by destruct Hpos. }
  rewrite !write_at_end in H.
  destruct flt as [| |k]; injection H as <- <- <-; cbn.
  - exists data. rewrite zlen_app. split_and!; try done; [by rewrite Hf|by intros [_ ?]%Hcm|by right].
  - exists []. rewrite app_nil_r. split_and!; try done; [by rewrite Hf, insert_id|by intros [? _]%Hcm].
  - exists (take k data). rewrite zlen_app. split_and!; try done; [by rewrite write_at_end, Hf|by intros [? _]%Hcm|by right].
Qed.

(** A read at a position that holds enough bytes returns them, unless it fails. *)
Lemma ReadAt_spec n off f d c r f' d' :
  isOpen f = true -> files d !! path f = Some c -> ReadAt n off (f, d) = (r, (f', d')) ->
  f' = f /\ files d' = files d /\ (calm d -> calm d') /\
  forall x y, drop (Z.to_nat off) c = x ++ y -> length x = n ->
    (r = Ok x \/ exists err, r = Err err) /\ (calm d -> r = Ok x).
Proof.
  intros Ho Hc H. unfold ReadAt, on_open in H. rewrite Ho, Hc in H. cbn [negb] in H.
  destruct (next_fault d) as [flt d1] eqn:En. destruct (next_fault_files _ _ _ En) as [Hf Hcm].
  assert (Hres : f' = f /\ d' = d1 /\
    (flt = Fine -> r = (if (length (take n (drop (Z.to_nat off) c)) <? n)%nat
                        then Err "EOF" else Ok (take n (drop (Z.to_nat off) c)))) /\
    (flt <> Fine -> exists err, r = Err err)).
  { destruct flt; [destruct (_ <? n)%nat|..]; injection H as <- <- <-; split_and!; eauto; done. }
  destruct Hres as (-> & -> & Hr & Hr'). split_and!; try done; [by intros [_ ?]%Hcm|].
  intros x y E Hx. rewrite E, take_app_length' in Hr by done.
  rewrite (proj2 (Nat.ltb_ge _ _)) in Hr by lia.
  split; [|intros [? _]%Hcm; auto]. destruct (decide (flt = Fine)); auto.
Qed.
