(* ===== verification/Cold.v ===== *)
(** Cold storage ([storage/coldstore.go], [storage/minio_coldstore.go]): the
    interface tiering writes through, what it promises, and its three
    implementations.  The MinIO client is third-party code: its calls are the
    operations of a class, with the documented behaviour as laws. *)
From S2P Require Import Prelude GoLib Files.
#[local] Open Scope Z_scope.

(** The [ColdStore] interface. *)
Class ColdStore (C : Type) := {
  Put : string -> bytes -> bytes -> M C unit;
  Get : string -> M C (bytes * bytes);
  Delete : string -> M C unit
}.

(** What tiering relies on: a store durably [holds] an object after a successful
    [Put], no other operation on other keys disturbs it, and a successful [Get]
    returns it unchanged. *)
Class ColdStoreOk (C : Type) `{ColdStore C} := {
  holds : C -> string -> bytes -> bytes -> Prop;
  settled : C -> Prop;
  put_holds k l i c c' : Put k l i c = (Ok tt, c') -> holds c' k l i;
  put_keeps k l i c c' r k' l' i' :
    Put k l i c = (r, c') -> k <> k' -> holds c k' l' i' -> holds c' k' l' i';
  get_holds k l i c c' r : holds c k l i -> Get k c = (r, c') -> r = Ok (l, i) \/ exists e, r = Err e;
  get_keeps k c c' r k' l i : Get k c = (r, c') -> holds c k' l i -> holds c' k' l i;
  get_settled k l i c : settled c -> holds c k l i -> Get k c = (Ok (l, i), c);
  put_settled k l i c : settled c -> exists c', Put k l i c = (Ok tt, c') /\ settled c';
  delete_keeps k c c' r k' l i : Delete k c = (r, c') -> k <> k' -> holds c k' l i -> holds c' k' l i;
  delete_settled k c : settled c -> exists c', Delete k c = (Ok tt, c') /\ settled c'
}.

(** * A local directory *)

Definition logName (key : string) : string := key +:+ ".log".
Definition indexName (key : string) : string := key +:+ ".index".

Lemma app_inj_suffix a b s : a +:+ s = b +:+ s -> a = b.
Proof.
  intros E%(f_equal chars). rewrite !chars_app in E. apply chars_inj. by eapply app_inv_tail.
Qed.

Lemma logName_inj k k' : logName k = logName k' -> k = k'.
Proof. apply app_inj_suffix. Qed.

Lemma indexName_inj k k' : indexName k = indexName k' -> k = k'.
Proof. apply app_inj_suffix. Qed.

Lemma logName_indexName k k' : logName k <> indexName k'.
Proof.
  intros E%(f_equal (fun s => last (chars s))). unfold logName, indexName in E.
  rewrite !chars_app, !last_app in E. done.
Qed.

Lemma WriteFile_other n data d r d' n' :
  WriteFile n data d = (r, d') -> n <> n' -> files d' !! n' = files d !! n'.
Proof.
  unfold WriteFile, next_fault. intros H Hne.
  destruct (faults d) as [|[| |k] fl]; injection H as <- <-; cbn; try done; by apply lookup_insert_ne.
Qed.

Lemma WriteFile_ok n data d d' : WriteFile n data d = (Ok tt, d') -> files d' !! n = Some data.
Proof.
  unfold WriteFile, next_fault. intros H.
  destruct (faults d) as [|[| |k] fl]; simplify_eq/=; by apply lookup_insert_eq.
Qed.

Lemma ReadFile_files n d r d' : ReadFile n d = (r, d') -> files d' = files d.
Proof.
  unfold ReadFile, next_fault. intros H.
  destruct (faults d) as [|[| |k] fl]; cbn in H; repeat case_match; by simplify_eq/=.
Qed.

Lemma ReadFile_content n c d r d' :
  files d !! n = Some c -> ReadFile n d = (r, d') -> r = Ok c \/ exists e, r = Err e.
Proof.
  unfold ReadFile, next_fault. intros E H.
  destruct (faults d) as [|[| |k] fl]; cbn in H; repeat case_match; simplify_eq/=; eauto.
Qed.

Lemma ReadFile_calm n c d : calm d -> files d !! n = Some c -> ReadFile n d = (Ok c, d).
Proof. unfold ReadFile. intros Hc E. by rewrite next_fault_calm, E. Qed.

Lemma Remove_other n d r d' n' :
  Remove n d = (r, d') -> n <> n' -> files d' !! n' = files d !! n'.
Proof.
  unfold Remove, next_fault. intros H Hne.
  destruct (faults d) as [|[| |k] fl]; cbn in H; repeat case_match; simplify_eq/=; try done;
    by apply lookup_delete_ne.
Qed.

Lemma Remove_calm n d r d' : calm d -> Remove n d = (r, d') -> calm d'.
Proof.
  unfold Remove. intros Hc H. rewrite next_fault_calm in H by done.
  destruct (files d !! n); by injection H as <- <-.
Qed.

Definition LocalDirColdStore := Dir.

#[export] Instance LocalDir_store : ColdStore LocalDirColdStore := {
  Put key l i :=
    _ ← context "cold put log" (WriteFile (logName key) l);
    context "cold put index" (WriteFile (indexName key) i);
  Get key :=
    l ← context "cold get log" (ReadFile (logName key));
    i ← context "cold get index" (ReadFile (indexName key));
    mret (l, i);
  Delete key :=
    _ ← try (Remove (logName key));
    _ ← try (Remove (indexName key));
    mret tt
}.

(** [FailingColdStore]: every call fails. *)
Definition FailingColdStore := unit.

#[export] Instance Failing_store : ColdStore FailingColdStore := {
  Put key l i := fail "cold store failure";
  Get key := fail "cold store failure";
  Delete key := fail "cold store failure"
}.

Definition local_holds (d : LocalDirColdStore) (k : string) (l i : bytes) : Prop :=
  files d !! logName k = Some l /\ files d !! indexName k = Some i.

Lemma local_put_holds k l i c c' : Put k l i c = (Ok tt, c') -> local_holds c' k l i.
Proof.
  intros H. cbn in H. unfold mbind, M_bind, context in H.
  destruct (WriteFile (logName k) l c) as [[[]|] d1] eqn:E1; [|done].
  destruct (WriteFile (indexName k) i d1) as [[[]|] d2] eqn:E2; simplify_eq.
  split; [|by eapply WriteFile_ok]. rewrite (WriteFile_other _ _ _ _ _ _ E2).
  + by eapply WriteFile_ok.
  + apply not_eq_sym, logName_indexName.
Qed.

Lemma local_put_keeps k l i c c' r k' l' i' :
  Put k l i c = (r, c') -> k <> k' -> local_holds c k' l' i' -> local_holds c' k' l' i'.
Proof.
  intros H Hne [Hl Hi]. cbn in H. unfold mbind, M_bind, context in H.
  assert (N1 : logName k <> logName k') by (by intros E%logName_inj).
  assert (N2 : indexName k <> indexName k') by (by intros E%indexName_inj).
  pose proof (logName_indexName k k') as N3. pose proof (logName_indexName k' k) as N4.
  destruct (WriteFile (logName k) l c) as [r1 d1] eqn:E1.
  rewrite <- (WriteFile_other _ _ _ _ _ _ E1 N1) in Hl. rewrite <- (WriteFile_other _ _ _ _ _ _ E1 N3) in Hi.
  destruct r1 as [[]|]; [|by simplify_eq].
  destruct (WriteFile (indexName k) i d1) as [r2 d2] eqn:E2.
  rewrite <- (WriteFile_other _ _ _ _ _ _ E2 (not_eq_sym N4)) in Hl.
  rewrite <- (WriteFile_other _ _ _ _ _ _ E2 N2) in Hi. destruct r2 as [[]|]; by simplify_eq.
Qed.

Lemma local_get_holds k l i c c' r :
  local_holds c k l i -> Get k c = (r, c') -> r = Ok (l, i) \/ exists e, r = Err e.
Proof.
  intros [Hl Hi] H. cbn in H. unfold mbind, M_bind, context, mret, M_ret in H.
  destruct (ReadFile (logName k) c) as [r1 d1] eqn:E1.
  destruct (ReadFile_content _ _ _ _ _ Hl E1) as [->|[e ->]]; [|simplify_eq; eauto].
  rewrite <- (ReadFile_files _ _ _ _ E1) in Hi.
  destruct (ReadFile (indexName k) d1) as [r2 d2] eqn:E2.
  destruct (ReadFile_content _ _ _ _ _ Hi E2) as [->|[e ->]]; simplify_eq; eauto.
Qed.

Lemma local_get_keeps k c c' r k' l i : Get k c = (r, c') -> local_holds c k' l i -> local_holds c' k' l i.
Proof.
  unfold local_holds. intros H. cbn in H. unfold mbind, M_bind, context, mret, M_ret in H.
  destruct (ReadFile (logName k) c) as [r1 d1] eqn:E1. apply ReadFile_files in E1.
  destruct r1; [|injection H as <- <-; by rewrite E1].
  destruct (ReadFile (indexName k) d1) as [r2 d2] eqn:E2. apply ReadFile_files in E2.
  destruct r2; injection H as <- <-; by rewrite E2, E1.
Qed.

Lemma local_get_settled k l i c : calm c -> local_holds c k l i -> Get k c = (Ok (l, i), c).
Proof.
  intros Hc [Hl Hi]. cbn. unfold mbind, M_bind, context, mret, M_ret.
  by rewrite !(ReadFile_calm _ _ _ Hc Hl), !(ReadFile_calm _ _ _ Hc Hi).
Qed.

Lemma local_put_settled k l i c : calm c -> exists c', Put k l i c = (Ok tt, c') /\ calm c'.
Proof.
  intros Hc. cbn. unfold mbind, M_bind, context, WriteFile.
  rewrite next_fault_calm by done. cbn. rewrite next_fault_calm by done. eauto.
Qed.

Lemma local_delete_keeps k c c' r k' l i :
  Delete k c = (r, c') -> k <> k' -> local_holds c k' l i -> local_holds c' k' l i.
Proof.
  intros H Hne [Hl Hi]. cbn in H. unfold mbind, M_bind, try, mret, M_ret in H.
  assert (N1 : logName k <> logName k') by (by intros E%logName_inj).
  assert (N2 : indexName k <> indexName k') by (by intros E%indexName_inj).
  pose proof (logName_indexName k k') as N3. pose proof (logName_indexName k' k) as N4.
  destruct (Remove (logName k) c) as [r1 d1] eqn:E1.
  destruct (Remove (indexName k) d1) as [r2 d2] eqn:E2. simplify_eq.
  split.
  + by rewrite (Remove_other _ _ _ _ _ E2 (not_eq_sym N4)), (Remove_other _ _ _ _ _ E1 N1).
  + by rewrite (Remove_other _ _ _ _ _ E2 N2), (Remove_other _ _ _ _ _ E1 N3).
Qed.

Lemma local_delete_settled k c : calm c -> exists c', Delete k c = (Ok tt, c') /\ calm c'.
Proof.
  intros Hc. cbn. unfold mbind, M_bind, try, mret, M_ret.
  destruct (Remove (logName k) c) as [r1 d1] eqn:E1.
  destruct (Remove (indexName k) d1) as [r2 d2] eqn:E2. eauto using Remove_calm.
Qed.

#[export] Instance LocalDir_ok : ColdStoreOk LocalDirColdStore := {
  holds := local_holds;
  settled d := calm d;
  put_holds := local_put_holds;
  put_keeps := local_put_keeps;
  get_holds := local_get_holds;
  get_keeps := local_get_keeps;
  get_settled := local_get_settled;
  put_settled := local_put_settled;
  delete_keeps := local_delete_keeps;
  delete_settled := local_delete_settled
}.

(** * MinIO *)

(** The calls of the MinIO client the program makes, on a bucket [K] whose
    objects are read in two steps: [GetObject], then [io.ReadAll]. *)
Class ObjectClient (K Obj : Type) := {
  PutObject : string -> bytes -> M K unit;
  GetObject : string -> M K Obj;
  ReadAll : Obj -> M K bytes;
  RemoveObject : string -> M K unit
}.

(** Documented behaviour of an object store: a put that succeeds stores the
    object, calls on other names leave it alone, and what is read is what is
    stored. *)
Class ObjectClientOk (K Obj : Type) `{ObjectClient K Obj} := {
  object : K -> string -> option bytes;
  ready : K -> Prop;
  PutObject_ok n b k k' : PutObject n b k = (Ok tt, k') -> object k' n = Some b;
  PutObject_other n b k r k' n' : PutObject n b k = (r, k') -> n <> n' -> object k' n' = object k n';
  PutObject_ready n b k : ready k -> exists k', PutObject n b k = (Ok tt, k') /\ ready k';
  GetObject_same n k r k' n' : GetObject n k = (r, k') -> object k' n' = object k n';
  ReadAll_same o k r k' n' : ReadAll o k = (r, k') -> object k' n' = object k n';
  GetObject_content n b k o k1 k2 r :
    object k n = Some b -> GetObject n k = (Ok o, k1) -> ReadAll o k1 = (r, k2) ->
    r = Ok b \/ exists e, r = Err e;
  GetObject_ready n b k : ready k -> object k n = Some b ->
    exists o, GetObject n k = (Ok o, k) /\ ReadAll o k = (Ok b, k);
  RemoveObject_other n k r k' n' : RemoveObject n k = (r, k') -> n <> n' -> object k' n' = object k n';
  RemoveObject_ready n k : ready k -> exists k', RemoveObject n k = (Ok tt, k') /\ ready k'
}.

Section minio.
Context {K Obj : Type} `{OC : ObjectClient K Obj}.
Implicit Types (k : string) (c : K).

Definition MinioColdStore := K.

Definition minio_Put (key : string) (l i : bytes) : M K unit :=
  _ ← context "minio put log" (PutObject (logName key) l);
  context "minio put index" (PutObject (indexName key) i).

Definition minio_Get (key : string) : M K (bytes * bytes) :=
  logObj ← context "minio get log" (GetObject (logName key));
  l ← context "minio read log" (ReadAll logObj);
  indexObj ← context "minio get index" (GetObject (indexName key));
  i ← context "minio read index" (ReadAll indexObj);
  mret (l, i).

Definition minio_Delete (key : string) : M K unit :=
  _ ← context "minio delete log" (RemoveObject (logName key));
  context "minio delete index" (RemoveObject (indexName key)).

Definition Minio_store : ColdStore MinioColdStore := {|
  Put := minio_Put; Get := minio_Get; Delete := minio_Delete
|}.

Context `{OK : !ObjectClientOk K Obj}.
#[local] Existing Instance Minio_store.

Definition minio_holds c k (l i : bytes) : Prop :=
  object c (logName k) = Some l /\ object c (indexName k) = Some i.

(** Splits a call made of several client calls into them. *)
Ltac client H := unfold minio_Put, minio_Get, minio_Delete, mbind, M_bind, context, mret, M_ret in H;
  repeat match type of H with
  | context [match ?m with pair _ _ => _ end] =>
      lazymatch m with context [match _ with pair _ _ => _ end] => fail | _ => idtac end;
      let r := fresh "r" in let c := fresh "c" in let E := fresh "E" in
      destruct m as [r c] eqn:E; destruct r; try (simplify_eq; fail)
  end.

Lemma minio_put_holds k l i c c' : minio_Put k l i c = (Ok tt, c') -> minio_holds c' k l i.
Proof.
  intros H. client H. simplify_eq. destruct a. split; [|by eapply PutObject_ok].
  rewrite (PutObject_other _ _ _ _ _ _ E0); [by eapply PutObject_ok|apply not_eq_sym, logName_indexName].
Qed.

Lemma minio_put_keeps k l i c c' r k' l' i' :
  minio_Put k l i c = (r, c') -> k <> k' -> minio_holds c k' l' i' -> minio_holds c' k' l' i'.
Proof.
  intros H Hne [Hl Hi].
  assert (N1 : logName k <> logName k') by (by intros E%logName_inj).
  assert (N2 : indexName k <> indexName k') by (by intros E%indexName_inj).
  pose proof (logName_indexName k k') as N3. pose proof (logName_indexName k' k) as N4.
  client H; injection H as <- <-; unfold minio_holds.
  - rewrite !(PutObject_other _ _ _ _ _ _ E0), !(PutObject_other _ _ _ _ _ _ E) by done. done.
  - rewrite !(PutObject_other _ _ _ _ _ _ E0), !(PutObject_other _ _ _ _ _ _ E) by done. done.
  - rewrite !(PutObject_other _ _ _ _ _ _ E) by done. done.
Qed.

Lemma minio_get_holds k l i c c' r :
  minio_holds c k l i -> minio_Get k c = (r, c') -> r = Ok (l, i) \/ exists e, r = Err e.
Proof.
  intros [Hl Hi] H. client H; injection H as <- <-; eauto.
  destruct (GetObject_content _ _ _ _ _ _ _ Hl E E0) as [?|[??]]; [simplify_eq|done].
  assert (Hi' : object c1 (indexName k) = Some i).
  { by rewrite (ReadAll_same _ _ _ _ _ E0), (GetObject_same _ _ _ _ _ E). }
  destruct (GetObject_content _ _ _ _ _ _ _ Hi' E1 E2) as [?|[??]]; simplify_eq. by left.
Qed.

Lemma minio_get_keeps k c c' r k' l i :
  minio_Get k c = (r, c') -> minio_holds c k' l i -> minio_holds c' k' l i.
Proof.
  unfold minio_holds. intros H. client H; injection H as <- <-;
    repeat match goal with
    | E : GetObject _ _ = _ |- _ => rewrite !(GetObject_same _ _ _ _ _ E); clear E
    | E : ReadAll _ _ = _ |- _ => rewrite !(ReadAll_same _ _ _ _ _ E); clear E
    end; done.
Qed.

Lemma minio_get_settled k l i c : ready c -> minio_holds c k l i -> minio_Get k c = (Ok (l, i), c).
Proof.
  intros Hr [Hl Hi]. destruct (GetObject_ready _ _ _ Hr Hl) as (o1 & E1 & E2).
  destruct (GetObject_ready _ _ _ Hr Hi) as (o2 & E3 & E4).
  unfold minio_Get, mbind, M_bind, context, mret, M_ret. by rewrite E1, E2, E3, E4.
Qed.

Lemma minio_put_settled k l i c : ready c -> exists c', minio_Put k l i c = (Ok tt, c') /\ ready c'.
Proof.
  intros Hr. destruct (PutObject_ready (logName k) l c Hr) as (c1 & E1 & Hr1).
  destruct (PutObject_ready (indexName k) i c1 Hr1) as (c2 & E2 & Hr2).
  exists c2. unfold minio_Put, mbind, M_bind, context. by rewrite E1, E2.
Qed.

Lemma minio_delete_keeps k c c' r k' l i :
  minio_Delete k c = (r, c') -> k <> k' -> minio_holds c k' l i -> minio_holds c' k' l i.
Proof.
  intros H Hne [Hl Hi].
  assert (N1 : logName k <> logName k') by (by intros E%logName_inj).
  assert (N2 : indexName k <> indexName k') by (by intros E%indexName_inj).
  pose proof (logName_indexName k k') as N3. pose proof (logName_indexName k' k) as N4.
  client H; injection H as <- <-; unfold minio_holds;
    rewrite ?(RemoveObject_other _ _ _ _ _ E0), !(RemoveObject_other _ _ _ _ _ E) by done; done.
Qed.

Lemma minio_delete_settled k c : ready c -> exists c', minio_Delete k c = (Ok tt, c') /\ ready c'.
Proof.
  intros Hr. destruct (RemoveObject_ready (logName k) c Hr) as (c1 & E1 & Hr1).
  destruct (RemoveObject_ready (indexName k) c1 Hr1) as (c2 & E2 & Hr2).
  exists c2. unfold minio_Delete, mbind, M_bind, context. by rewrite E1, E2.
Qed.

(** The MinIO store keeps the promises of the interface. *)
Definition Minio_ok : @ColdStoreOk MinioColdStore Minio_store := {|
  holds := minio_holds; settled := ready;
  put_holds := minio_put_holds; put_keeps := minio_put_keeps;
  get_holds := minio_get_holds; get_keeps := minio_get_keeps;
  get_settled := minio_get_settled; put_settled := minio_put_settled;
  delete_keeps := minio_delete_keeps; delete_settled := minio_delete_settled
|}.
End minio.

(** * Connecting to MinIO *)

(** The calls that set up a client and a bucket on a service [S]. *)
Class ObjectService (Client S : Type) := {
  NewClient : string -> string -> string -> bool -> res Client;
  BucketExists : Client -> string -> M S bool;
  MakeBucket : Client -> string -> M S unit
}.

(** Documented behaviour: asking changes nothing and answers whether the bucket is
    there; making one that succeeds makes it; neither removes any. *)
Class ObjectServiceOk (Client S : Type) `{ObjectService Client S} := {
  has_bucket : S -> string -> Prop;
  BucketExists_sound c b s r s' : BucketExists c b s = (Ok r, s') -> (r = true -> has_bucket s' b);
  BucketExists_keeps c b s r s' b' : BucketExists c b s = (r, s') -> has_bucket s b' -> has_bucket s' b';
  MakeBucket_made c b s s' : MakeBucket c b s = (Ok tt, s') -> has_bucket s' b;
  MakeBucket_keeps c b s r s' b' : MakeBucket c b s = (r, s') -> has_bucket s b' -> has_bucket s' b'
}.

Section service.
Context {Client S : Type} `{OS : ObjectService Client S}.

Definition NewMinioColdStore (endpoint accessKey secretKey bucket : string) (useSSL : bool) : M S (Client * string) :=
  match NewClient endpoint accessKey secretKey useSSL with
  | Err _ => fun s => (Err "minio client", s)
  | Ok client =>
      found ← context "check bucket" (BucketExists client bucket);
      if (found : bool) then mret (client, bucket)
      else _ ← context "create bucket" (MakeBucket client bucket); mret (client, bucket)
  end.

(** The bucket of a store that was made is there, and no other was lost. *)
Lemma NewMinioColdStore_bucket `{OSO : !ObjectServiceOk Client S} endpoint accessKey secretKey bucket useSSL s r s' :
  NewMinioColdStore endpoint accessKey secretKey bucket useSSL s = (r, s') ->
  (forall b, has_bucket s b -> has_bucket s' b) /\
  forall client b, r = Ok (client, b) -> b = bucket /\ has_bucket s' b /\ NewClient endpoint accessKey secretKey useSSL = Ok client.
Proof.
  unfold NewMinioColdStore. destruct (NewClient _ _ _ _) as [client|]; [|by intros [= <- <-]].
  unfold mbind, M_bind, context, mret, M_ret. destruct (BucketExists client bucket s) as [[found|e] s1] eqn:E1.
  - pose proof (fun b => BucketExists_keeps _ _ _ _ _ b E1) as K1. destruct found.
    { intros [= <- <-]. split; [done|]. intros c b [= <- <-]. split_and!; [done|by eapply BucketExists_sound|done]. }
    destruct (MakeBucket client bucket s1) as [[[]|e] s2] eqn:E2; pose proof (fun b => MakeBucket_keeps _ _ _ _ _ b E2) as K2;
      intros [= <- <-]; (split; [by auto|]); [|done].
    intros c b [= <- <-]. split_and!; [done|by eapply MakeBucket_made|done].
  - pose proof (fun b => BucketExists_keeps _ _ _ _ _ b E1) as K1. intros [= <- <-]. split; [done|done].
Qed.

End service.
