(* ===== verification/Segment.v ===== *)
(** One segment of the append-only log ([storage/segment.go]): a log file of
    length-prefixed records, an index file with one fixed-size entry per record,
    and, once tiered, a copy in cold storage in place of both.

    The directory of the log, its faults and the cold store are the environment
    [Env]; an operation changes the segment and the environment also when it
    returns an error. *)
From S2P Require Import Prelude GoLib Files Cold.
#[local] Open Scope Z_scope.

Definition lenPrefixSize : Z := 4.
Definition indexEntrySize : Z := 8.

Record segment := mkSegment {
  baseOffset : Z;
  nextOffset : Z;
  size : Z;
  logFile : File;
  indexFile : File;
  tiered : bool;
  coldKey : string
}.

Record Env (C : Type) := mkEnv { dir : Dir; cold : C }.
Arguments mkEnv {C} dir cold.
Arguments dir {C} e.
Arguments cold {C} e.

Definition set_offsets (next sz : Z) (s : segment) : segment :=
  mkSegment (baseOffset s) next sz (logFile s) (indexFile s) (tiered s) (coldKey s).
Definition set_logFile (f : File) (s : segment) : segment :=
  mkSegment (baseOffset s) (nextOffset s) (size s) f (indexFile s) (tiered s) (coldKey s).
Definition set_indexFile (f : File) (s : segment) : segment :=
  mkSegment (baseOffset s) (nextOffset s) (size s) (logFile s) f (tiered s) (coldKey s).
Definition set_tiered (key : string) (s : segment) : segment :=
  mkSegment (baseOffset s) (nextOffset s) (size s) (logFile s) (indexFile s) true key.

(** [segmentPaths]: names inside the log's directory. *)
Definition segmentPaths (base : Z) : string * string :=
  (logName (Sprintf020d base), indexName (Sprintf020d base)).

Section segment.
Context {C : Type} `{ColdStore C}.

(** Code of a segment. *)
Definition Seg (A : Type) := M (segment * Env C) A.

(** A call on the segment's log or index file. *)
Definition on_log {A} (op : file_op A) : Seg A := fun '(s, e) =>
  let '(r, (f, d)) := op (logFile s, dir e) in (r, (set_logFile f s, mkEnv d (cold e))).
Definition on_index {A} (op : file_op A) : Seg A := fun '(s, e) =>
  let '(r, (f, d)) := op (indexFile s, dir e) in (r, (set_indexFile f s, mkEnv d (cold e))).
(** A call on the directory. *)
Definition on_dir {A} (op : M Dir A) : Seg A := fun '(s, e) =>
  let '(r, d) := op (dir e) in (r, (s, mkEnv d (cold e))).
Definition on_cold {A} (op : M C A) : Seg A := fun '(s, e) =>
  let '(r, c) := op (cold e) in (r, (s, mkEnv (dir e) c)).
Definition this : Seg segment := fun '(s, e) => (Ok s, (s, e)).
Definition update (f : segment -> segment) : Seg unit := fun '(s, e) => (Ok tt, (f s, e)).

Definition appendIndexEntry (relOffset position : Z) : Seg unit :=
  on_index (Write (PutUint32 relOffset ++ PutUint32 position)).

(** The new contents of a 4-byte buffer after [got] was read into it. *)
Definition fill (buf got : bytes) : bytes := got ++ drop (length got) buf.

(** The scanning loop of [rebuildIndex]; [fuel] bounds the records: every
    iteration advances the file's position, so one more than the file's length
    is enough. *)
Fixpoint rebuildLoop (fuel : nat) (p : Z) (lenBuf : bytes) (relOffset : Z) : Seg (Z * Z) :=
  match fuel with
  | O => mret (p, relOffset)
  | S fuel =>
      r ← try (on_log (Read 4));
      match r with
      | Err _ => mret (p, relOffset)
      | Ok got =>
          if (length got =? 0)%nat then mret (p, relOffset)
          else
            let lenBuf := fill lenBuf got in
            let recLen := Uint32 lenBuf in
            _ ← appendIndexEntry relOffset (u32 p);
            _ ← on_log (Seek recLen SeekCurrent);
            rebuildLoop fuel (p + lenPrefixSize + recLen) lenBuf (u32 (relOffset + 1))
      end
  end.

(** The contents of the segment's log file, for the loop's bound. *)
Definition log_bytes : Seg bytes := fun '(s, e) =>
  (Ok (match files (dir e) !! path (logFile s) with Some c => c | None => [] end), (s, e)).

Definition rebuildIndex : Seg unit :=
  _ ← on_log (Seek 0 SeekStart);
  _ ← on_index (Seek 0 SeekStart);
  _ ← on_index Truncate0;
  c ← log_bytes;
  '(p, relOffset) ← rebuildLoop (S (length c)) 0 (replicate 4 x00) 0;
  _ ← update (fun s => set_offsets (baseOffset s + relOffset) p s);
  _ ← on_log (Seek 0 SeekEnd);
  mret tt.

(** [openSegment]: the new segment, or an error after the files were closed. *)
Definition openSegment (base : Z) : M (Env C) segment := fun e =>
  let '(logPath, indexPath) := segmentPaths base in
  match OpenAppend logPath (dir e) with
  | (Err _, d) => (Err "open log file", mkEnv d (cold e))
  | (Ok lf, d) =>
      match OpenTrunc indexPath d with
      | (Err _, d) => let '(_, (_, d)) := Close (lf, d) in (Err "open index file", mkEnv d (cold e))
      | (Ok ixf, d) =>
          match rebuildIndex (mkSegment base base 0 lf ixf false "", mkEnv d (cold e)) with
          | (Ok _, (s, e)) => (Ok s, e)
          | (Err msg, (s, e)) =>
              let '(_, (_, d)) := Close (logFile s, dir e) in
              let '(_, (_, d)) := Close (indexFile s, d) in
              (Err msg, mkEnv d (cold e))
          end
      end
  end.

Definition append (payload : bytes) : Seg Z :=
  _ ← on_log (Write (PutUint32 (u32 (zlen payload))));
  _ ← on_log (Write payload);
  s ← this;
  _ ← appendIndexEntry (u32 (nextOffset s - baseOffset s)) (u32 (size s));
  let offset := nextOffset s in
  _ ← update (fun s => set_offsets (nextOffset s + 1) (size s + lenPrefixSize + zlen payload) s);
  mret offset.

Definition readLocal (entryPos : Z) : Seg bytes :=
  entryBuf ← context "read index entry" (on_index (ReadAt 8 entryPos));
  let position := Uint32 (drop 4 entryBuf) in
  lenBuf ← context "read length prefix" (on_log (ReadAt 4 position));
  let recLen := Uint32 lenBuf in
  context "read payload" (on_log (ReadAt (Z.to_nat recLen) (position + lenPrefixSize))).

Definition readTiered (entryPos : Z) : Seg bytes :=
  s ← this;
  '(logBytes, indexBytes) ← context "fetch tiered segment" (on_cold (Get (coldKey s)));
  if zlen indexBytes <? entryPos + indexEntrySize then fail "tiered index entry out of range"
  else
    let entryBuf := zslice indexBytes entryPos (entryPos + indexEntrySize) in
    let position := Uint32 (drop 4 (default [] entryBuf)) in
    if zlen logBytes <? position + lenPrefixSize then fail "tiered log length prefix out of range"
    else
      let recLen := Uint32 (default [] (zslice logBytes position (position + lenPrefixSize))) in
      let start := position + lenPrefixSize in
      if zlen logBytes <? start + recLen then fail "tiered payload out of range"
      else mret (default [] (zslice logBytes start (start + recLen))).

Definition read (offset : Z) : Seg bytes :=
  s ← this;
  if (offset <? baseOffset s) || (nextOffset s <=? offset) then fail "offset out of range"
  else
    let relOffset := u32 (offset - baseOffset s) in
    let entryPos := relOffset * indexEntrySize in
    if tiered s then readTiered entryPos else readLocal entryPos.

Definition close : Seg unit :=
  s ← this;
  if tiered s then mret tt
  else
    _ ← on_log Close;
    on_index Close.

(** [tierOut]: upload, and only then close and delete the local files. *)
Definition tierOut (key : string) : Seg unit :=
  s ← this;
  let '(logPath, indexPath) := segmentPaths (baseOffset s) in
  logBytes ← context "read local log for tiering" (on_dir (ReadFile logPath));
  indexBytes ← context "read local index for tiering" (on_dir (ReadFile indexPath));
  _ ← context "upload to cold store" (on_cold (Put key logBytes indexBytes));
  _ ← on_log Close;
  _ ← on_index Close;
  _ ← on_dir (Remove logPath);
  _ ← on_dir (Remove indexPath);
  update (set_tiered key).

Definition remove : Seg unit :=
  _ ← try close;
  s ← this;
  if tiered s then on_cold (Delete (coldKey s))
  else
    let '(logPath, indexPath) := segmentPaths (baseOffset s) in
    _ ← on_dir (Remove logPath);
    on_dir (Remove indexPath).

End segment.
