(* ===== verification/SegmentFormat.v ===== *)
(** The on-disk format of a segment: the bytes of its log and index files as
    functions of its records, and what reading at an index entry finds. *)
From S2P Require Import Prelude GoLib Files Cold Segment.
#[local] Open Scope Z_scope.

(** A record: its length, then its bytes. *)
Definition enc_rec (p : bytes) : bytes := PutUint32 (u32 (zlen p)) ++ p.

(** The log file. *)
Fixpoint enc (recs : list bytes) : bytes :=
  match recs with
  | [] => []
  | p :: recs => enc_rec p ++ enc recs
  end.

(** The index entries of records whose first has number [rel] and position [p]. *)
Fixpoint index_from (rel p : Z) (recs : list bytes) : bytes :=
  match recs with
  | [] => []
  | r :: recs => (PutUint32 rel ++ PutUint32 (u32 p)) ++ index_from (rel + 1) (p + zlen (enc_rec r)) recs
  end.

(** The index file. *)
Definition index (recs : list bytes) : bytes := index_from 0 0 recs.

(** Every record's length and position fit into 32 bits. *)
Definition fits (recs : list bytes) : Prop :=
  forall k p, recs !! k = Some p -> zlen p < 2 ^ 32 /\ zlen (enc (take k recs)) < 2 ^ 32.

Lemma enc_app r1 r2 : enc (r1 ++ r2) = enc r1 ++ enc r2.
Proof. induction r1 as [|p r1 IH]; cbn; [done|]. by rewrite IH, app_assoc. Qed.

Lemma enc_snoc recs p : enc (recs ++ [p]) = enc recs ++ enc_rec p.
Proof. rewrite enc_app. cbn. by rewrite app_nil_r. Qed.

Lemma zlen_enc_rec p : zlen (enc_rec p) = 4 + zlen p.
Proof. unfold enc_rec. rewrite zlen_app. done. Qed.

Lemma zlen_enc_ge recs : 4 * zlen recs <= zlen (enc recs).
Proof.
  induction recs as [|p recs IH]; [done|]. cbn [enc]. rewrite zlen_app, zlen_cons, zlen_enc_rec.
  pose proof (zlen_nonneg p). lia.
Qed.

Lemma index_from_app rel p r1 r2 :
  index_from rel p (r1 ++ r2) = index_from rel p r1 ++ index_from (rel + zlen r1) (p + zlen (enc r1)) r2.
Proof.
  revert rel p; induction r1 as [|r r1 IH]; intros rel p; cbn [app index_from enc].
  - by rewrite !Z.add_0_r.
  - rewrite IH, <- !app_assoc, zlen_cons, (zlen_app (enc_rec r)). do 4 f_equal; lia.
Qed.

Lemma index_snoc recs p :
  index (recs ++ [p]) = index recs ++ PutUint32 (zlen recs) ++ PutUint32 (u32 (zlen (enc recs))).
Proof. unfold index. rewrite index_from_app. cbn. by rewrite !Z.add_0_l. Qed.

Lemma zlen_index_from rel p recs : zlen (index_from rel p recs) = 8 * zlen recs.
Proof.
  revert rel p; induction recs as [|r recs IH]; intros rel p; cbn [index_from]; [done|].
  rewrite zlen_app, IH, zlen_cons. change (zlen (_ ++ _)) with 8. lia.
Qed.

Lemma zlen_index recs : zlen (index recs) = 8 * zlen recs.
Proof. apply zlen_index_from. Qed.

(** Splitting the records at the one that is read. *)
Lemma split_at {A} (l : list A) k x : l !! k = Some x -> l = take k l ++ x :: drop (S k) l.
Proof. intros H. by rewrite take_drop_middle. Qed.

(** The log file at the position of record [k]. *)
Lemma enc_at recs k p :
  recs !! k = Some p ->
  drop (Z.to_nat (zlen (enc (take k recs)))) (enc recs) = enc_rec p ++ enc (drop (S k) recs).
Proof.
  intros H. rewrite (split_at _ _ _ H) at 2. rewrite enc_app. cbn [enc].
  unfold zlen. rewrite Nat2Z.id. by rewrite drop_app_length.
Qed.

(** The index file at entry [k]. *)
Lemma index_at recs k p :
  recs !! k = Some p ->
  exists rest, drop (Z.to_nat (Z.of_nat k * 8)) (index recs) =
    PutUint32 (Z.of_nat k) ++ PutUint32 (u32 (zlen (enc (take k recs)))) ++ rest.
Proof.
  intros H.
  assert (Hk : zlen (take k recs) = Z.of_nat k).
  { apply lookup_lt_Some in H. unfold zlen. rewrite length_take. lia. }
  pose proof (index_from_app 0 0 (take k recs) (p :: drop (S k) recs)) as E.
  rewrite take_drop_middle in E by done. unfold index. rewrite E. cbn [index_from]. rewrite drop_app_length'.
  - rewrite Hk. eexists. rewrite !Z.add_0_l. by rewrite <- app_assoc.
  - pose proof (zlen_index_from 0 0 (take k recs)) as Hl. unfold zlen in *. lia.
Qed.

Lemma fits_count recs k p : fits recs -> recs !! k = Some p -> Z.of_nat k < 2 ^ 30.
Proof.
  intros Hf H. destruct (Hf k p H) as [_ Hp]. pose proof (zlen_enc_ge (take k recs)) as Hge.
  assert (zlen (take k recs) = Z.of_nat k) as Hk.
  { apply lookup_lt_Some in H. unfold zlen. rewrite length_take. lia. }
  lia.
Qed.

Lemma fits_nil : fits [].
Proof. intros k p H. done. Qed.

Lemma fits_snoc recs p :
  fits recs -> zlen p < 2 ^ 32 -> zlen (enc recs) < 2 ^ 32 -> fits (recs ++ [p]).
Proof.
  intros Hf Hp He k q H. apply lookup_snoc_Some in H as [[Hk H]|[-> <-]].
  - rewrite take_app_le by lia. by apply Hf.
  - rewrite take_app_length. done.
Qed.

Lemma fits_prefix r1 r2 : fits (r1 ++ r2) -> fits r1.
Proof.
  intros Hf k p H. pose proof (lookup_lt_Some _ _ _ H).
  destruct (Hf k p) as [? He]; [by rewrite lookup_app_l|].
  by rewrite take_app_le in He by lia.
Qed.
