(* ===== verification/SegmentProof.v ===== *)
(** The operations of one segment against its format: what [append], [read],
    [openSegment] and [tierOut] do to the records a segment holds, with and
    without faults. *)
From S2P Require Import Prelude GoLib Files Cold Segment SegmentFormat.
#[local] Open Scope Z_scope.

(** * Representation *)

(** The log file is open for appending, the index file at its end. *)
Record handles (s : segment) (ixlen : Z) : Prop := {
  ha_log : path (logFile s) = logName (Sprintf020d (baseOffset s));
  ha_app : appendMode (logFile s) = true;
  ha_open : isOpen (logFile s) = true;
  ha_index : indexFile s = mkFile (indexName (Sprintf020d (baseOffset s))) false ixlen true
}.

(** A local segment with records [recs]; [g] and [gi] are bytes a failed append
    left behind the records and the index entries. *)
Record local (d : Dir) (s : segment) (recs : list bytes) (g gi : bytes) : Prop := {
  lc_tiered : tiered s = false;
  lc_next : nextOffset s = baseOffset s + zlen recs;
  lc_size : size s = zlen (enc recs);
  lc_fits : fits recs;
  lc_handles : handles s (zlen (index recs ++ gi));
  lc_log : files d !! logName (Sprintf020d (baseOffset s)) = Some (enc recs ++ g);
  lc_index : files d !! indexName (Sprintf020d (baseOffset s)) = Some (index recs ++ gi)
}.

(** Only the two files of a segment may change. *)
Definition frame (base : Z) (d d' : Dir) : Prop :=
  (forall n, n <> logName (Sprintf020d base) -> n <> indexName (Sprintf020d base) ->
     files d' !! n = files d !! n) /\ (calm d -> calm d').

Lemma frame_refl base d : frame base d d.
Proof. by split. Qed.

Lemma frame_trans base d1 d2 d3 : frame base d1 d2 -> frame base d2 d3 -> frame base d1 d3.
Proof.
  intros [H1 C1] [H2 C2]. split; [|by auto]. intros n Hl Hi. by rewrite H2, H1.
Qed.

Section proofs.
Context {C : Type} `{CS : ColdStore C}.
Implicit Types (s : segment) (e : Env C).

(** ** Writes *)

Lemma frame_write base n d d' c :
  n = logName (Sprintf020d base) \/ n = indexName (Sprintf020d base) ->
  files d' = <[n := c]> (files d) -> (calm d -> calm d') -> frame base d d'.
Proof. intros Hn E Hc. split; [|done]. intros m ? ?. rewrite E, lookup_insert_ne; [done|]. by destruct Hn as [-> | ->]; apply not_eq_sym. Qed.

Lemma frame_same base d d' : files d' = files d -> (calm d -> calm d') -> frame base d d'.
Proof. intros E Hc. split; [|done]. by rewrite E. Qed.

(** Writing to the log leaves the index alone, and conversely. *)
Lemma write_log_spec s e recs g gi data r s' e' :
  local (dir e) s recs g gi -> on_log (Write data) (s, e) = (r, (s', e')) ->
  exists x, local (dir e') s' recs (g ++ x) gi /\ (r = Ok tt -> x = data) /\
    (calm (dir e) -> r = Ok tt) /\ frame (baseOffset s) (dir e) (dir e') /\ cold e' = cold e /\
    baseOffset s' = baseOffset s /\ nextOffset s' = nextOffset s /\ size s' = size s.
Proof.
  intros [Ht Hn Hs Hf [Hp Ha Ho Hi] Hl Hx] H. unfold on_log in H.
  destruct (Write data (logFile s, dir e)) as [r1 [f1 d1]] eqn:E. injection H as <- <- <-.
  destruct (Write_spec _ _ (enc recs ++ g) _ _ _ _ Ho ltac:(by rewrite Hp) ltac:(by left) E)
    as (x & Hd & Hr & Hcm & Hp1 & Ha1 & Ho1 & _).
  rewrite Hp in Hd. exists x. split_and!; cbn; try done.
  - split; try done; cbn.
    + split; cbn; congruence.
    + rewrite Hd, lookup_insert_eq. by rewrite app_assoc.
    + rewrite Hd, lookup_insert_ne; [done|apply logName_indexName].
  - by intros [? ?]%Hcm.
  - eapply frame_write; [left; reflexivity|exact Hd|by intros [? ?]%Hcm].
Qed.

Lemma write_index_spec s e recs g gi data r s' e' :
  local (dir e) s recs g gi -> on_index (Write data) (s, e) = (r, (s', e')) ->
  exists x, local (dir e') s' recs g (gi ++ x) /\ (r = Ok tt -> x = data) /\
    (calm (dir e) -> r = Ok tt) /\ frame (baseOffset s) (dir e) (dir e') /\ cold e' = cold e /\
    baseOffset s' = baseOffset s /\ nextOffset s' = nextOffset s /\ size s' = size s.
Proof.
  intros [Ht Hn Hs Hf [Hp Ha Ho Hi] Hl Hx] H. unfold on_index in H.
  destruct (Write data (indexFile s, dir e)) as [r1 [f1 d1]] eqn:E. injection H as <- <- <-. rewrite Hi in E.
  eapply (Write_spec _ _ (index recs ++ gi)) in E as (x & Hd & Hr & Hcm & Hp1 & Ha1 & Ho1 & Hpos);
    [|done|exact Hx|by right]. cbn in *.
  exists x. split_and!; cbn; try done.
  - split; try done; cbn.
    + split; cbn; try done. destruct f1, Hpos; cbn in *; [done|]. subst. by rewrite app_assoc.
    + rewrite Hd, lookup_insert_ne; [done|apply not_eq_sym, logName_indexName].
    + rewrite Hd, lookup_insert_eq. by rewrite app_assoc.
  - by intros [? ?]%Hcm.
  - eapply frame_write; [right; reflexivity|exact Hd|by intros [? ?]%Hcm].
Qed.

(** ** Appending *)

(** The bytes of a whole record and its index entry become a record. *)
Lemma local_commit d s recs p :
  local d s recs (enc_rec p) (PutUint32 (zlen recs) ++ PutUint32 (u32 (zlen (enc recs)))) ->
  fits (recs ++ [p]) ->
  local d (set_offsets (nextOffset s + 1) (size s + lenPrefixSize + zlen p) s) (recs ++ [p]) [] [].
Proof.
  intros [Ht Hn Hs Hf [Hp Ha Ho Hi] Hl Hx] Hf'. rewrite <- (index_snoc recs p) in Hx, Hi. rewrite <- enc_snoc in Hl.
  split; cbn; rewrite ?app_nil_r; try done.
  - rewrite zlen_snoc. lia.
  - rewrite enc_snoc, zlen_app, zlen_enc_rec. unfold lenPrefixSize. lia.
Qed.

(** What [append] guarantees whatever fails: an error leaves the records in
    place, possibly followed by garbage; success on a clean segment adds the
    record at the next offset. *)
Lemma append_spec s e recs g gi p r s' e' :
  local (dir e) s recs g gi -> append p (s, e) = (r, (s', e')) ->
  frame (baseOffset s) (dir e) (dir e') /\ cold e' = cold e /\ baseOffset s' = baseOffset s /\
  (calm (dir e) -> is_ok r = true) /\
  match r with
  | Err _ => exists g' gi', local (dir e') s' recs g' gi'
  | Ok off => off = nextOffset s /\
      (g = [] -> gi = [] -> fits (recs ++ [p]) -> local (dir e') s' (recs ++ [p]) [] [])
  end.
Proof.
  intros Hl H. unfold append, appendIndexEntry, mbind, M_bind in H.
  destruct (on_log (Write (PutUint32 _)) (s, e)) as [r1 [s1 e1]] eqn:E1.
  destruct (write_log_spec _ _ _ _ _ _ _ _ _ Hl E1) as (x1 & L1 & X1 & C1 & F1 & D1 & B1 & N1 & Z1).
  destruct r1 as [[]|msg].
  2:{ injection H as <- <- <-. split_and!; eauto. by intros ?%C1. }
  destruct (on_log (Write p) (s1, e1)) as [r2 [s2 e2]] eqn:E2.
  destruct (write_log_spec _ _ _ _ _ _ _ _ _ L1 E2) as (x2 & L2 & X2 & C2 & F2 & D2 & B2 & N2 & Z2).
  rewrite B1 in F2. pose proof (frame_trans _ _ _ _ F1 F2) as F12.
  destruct r2 as [[]|msg].
  2:{ injection H as <- <- <-. split_and!; eauto; try congruence. by intros ?%F1%C2. }
  cbn [this] in H.
  destruct (on_index (Write _) (s2, e2)) as [r3 [s3 e3]] eqn:E3.
  destruct (write_index_spec _ _ _ _ _ _ _ _ _ L2 E3) as (x3 & L3 & X3 & C3 & F3 & D3 & B3 & N3 & Z3).
  rewrite B2, B1 in F3. pose proof (frame_trans _ _ _ _ F12 F3) as F13.
  destruct r3 as [[]|msg].
  2:{ injection H as <- <- <-. split_and!; eauto; try congruence. by intros ?%F12%C3. }
  cbn in H. injection H as <- <- <-. split_and!; try done; try (cbn; congruence).
  intros -> -> Hf. rewrite (X1 eq_refl), (X2 eq_refl), (X3 eq_refl) in L3.
  apply local_commit; [|done].
  assert (Hrel : u32 (nextOffset s2 - baseOffset s2) = zlen recs).
  { rewrite N2, N1, B2, B1, (lc_next _ _ _ _ _ Hl). rewrite u32_small; [lia|].
    pose proof (fits_count _ (length recs) p Hf ltac:(by rewrite lookup_app_r, Nat.sub_diag by lia)).
    unfold zlen. lia. }
  rewrite Hrel, Z2, Z1, (lc_size _ _ _ _ _ Hl) in L3. exact L3.
Qed.

(** ** Reading *)

(** The environment after calls that only read. *)
Definition same_files (d d' : Dir) : Prop := files d' = files d /\ (calm d -> calm d').

Lemma local_same d d' s recs g gi : same_files d d' -> local d s recs g gi -> local d' s recs g gi.
Proof. intros [E _] []. split; try done; by rewrite E. Qed.

(** A call returns [x], or fails, and does not fail without faults. *)
Definition yields {A} (d : Dir) (r : res A) (x : A) : Prop :=
  (r = Ok x \/ exists err, r = Err err) /\ (calm d -> r = Ok x).

Lemma log_ReadAt s e recs g gi off n x y r s' e' :
  local (dir e) s recs g gi -> drop (Z.to_nat off) (enc recs) = x ++ y -> off <= zlen (enc recs) -> length x = n ->
  on_log (ReadAt n off) (s, e) = (r, (s', e')) ->
  s' = s /\ same_files (dir e) (dir e') /\ cold e' = cold e /\ yields (dir e) r x.
Proof.
  intros Hl Hd Hoff Hx H. unfold on_log in H.
  destruct (ReadAt n off (logFile s, dir e)) as [r1 [f1 d1]] eqn:E. injection H as <- <- <-.
  destruct (lc_handles _ _ _ _ _ Hl) as [Hp _ Ho _].
  destruct (ReadAt_spec _ _ _ _ (enc recs ++ g) _ _ _ Ho ltac:(rewrite Hp; apply (lc_log _ _ _ _ _ Hl)) E)
    as (-> & Hf & Hc & Hr).
  split; [by destruct s|]. split; [done|]. split; [done|]. apply (Hr x (y ++ g)); [|done].
  rewrite drop_app_le by (unfold zlen in Hoff; lia). by rewrite Hd, app_assoc.
Qed.

Lemma index_ReadAt s e recs g gi k x y r s' e' :
  local (dir e) s recs g gi -> drop (Z.to_nat (k * 8)) (index recs) = x ++ y -> k <= zlen recs -> length x = 8%nat ->
  on_index (ReadAt 8 (k * 8)) (s, e) = (r, (s', e')) ->
  s' = s /\ same_files (dir e) (dir e') /\ cold e' = cold e /\ yields (dir e) r x.
Proof.
  intros Hl Hd Hk Hx H. unfold on_index in H.
  destruct (ReadAt 8 (k * 8) (indexFile s, dir e)) as [r1 [f1 d1]] eqn:E. injection H as <- <- <-.
  destruct (lc_handles _ _ _ _ _ Hl) as [_ _ _ Hi].
  eapply (ReadAt_spec _ _ _ _ (index recs ++ gi)) in E as (-> & Hf & Hc & Hr);
    [|by rewrite Hi|rewrite Hi; apply (lc_index _ _ _ _ _ Hl)].
  split; [by destruct s|]. split; [done|]. split; [done|]. apply (Hr x (y ++ gi)); [|done].
  pose proof (zlen_index recs) as Hlen. unfold zlen in *.
  rewrite drop_app_le by lia. by rewrite Hd, app_assoc.
Qed.

Lemma same_files_trans d1 d2 d3 : same_files d1 d2 -> same_files d2 d3 -> same_files d1 d3.
Proof. intros [E1 C1] [E2 C2]. split; [congruence|auto]. Qed.

Lemma readLocal_spec s e recs g gi k p r s' e' :
  local (dir e) s recs g gi -> recs !! k = Some p ->
  readLocal (Z.of_nat k * 8) (s, e) = (r, (s', e')) ->
  s' = s /\ same_files (dir e) (dir e') /\ cold e' = cold e /\ yields (dir e) r p.
Proof.
  intros Hl Hp H. destruct (lc_fits _ _ _ _ _ Hl k p Hp) as [Hlen Hpos].
  destruct (index_at recs k p Hp) as [rest Hix]. pose proof (enc_at recs k p Hp) as Hen.
  pose proof (lookup_lt_Some _ _ _ Hp) as Hk.
  set (at_ := zlen (enc (take k recs))) in *.
  assert (Hat : 0 <= at_) by apply zlen_nonneg.
  assert (Hatle : at_ + 4 + zlen p <= zlen (enc recs)).
  { apply (f_equal zlen) in Hen. rewrite zlen_app, zlen_enc_rec in Hen.
    pose proof (zlen_nonneg (enc (drop (S k) recs))). pose proof (zlen_nonneg p).
    unfold zlen in Hen. rewrite length_drop in Hen. unfold zlen in *. lia. }
  unfold readLocal, mbind, M_bind, context in H.
  destruct (on_index (ReadAt 8 _) (s, e)) as [r1 [s1 e1]] eqn:E1.
  rewrite app_assoc in Hix.
  destruct (index_ReadAt _ _ _ _ _ _ _ _ _ _ _ Hl Hix ltac:(unfold zlen; lia) eq_refl E1)
    as (-> & F1 & D1 & [[->|[err ->]] C1]).
  2:{ injection H as <- <- <-. split_and!; try done. split; [eauto|by intros ?%C1]. }
  rewrite drop_app_length' in H by done.
  rewrite u32_small, Uint32_Put, u32_small in H by done.
  destruct (on_log (ReadAt 4 at_) (s, e1)) as [r2 [s2 e2]] eqn:E2.
  unfold enc_rec in Hen. rewrite <- app_assoc in Hen.
  pose proof (zlen_nonneg p) as Hp0.
  destruct (log_ReadAt _ _ _ _ _ at_ _ _ _ _ _ _ (local_same _ _ _ _ _ _ F1 Hl) Hen ltac:(lia) eq_refl E2)
    as (-> & F2 & D2 & [[->|[err ->]] C2]).
  2:{ injection H as <- <- <-. split_and!; [done|by eapply same_files_trans|congruence|].
      split; [eauto|by intros ?%F1%C2]. }
  rewrite Uint32_Put, !u32_small in H by (rewrite ?u32_small; split; done || apply zlen_nonneg).
  pose proof (same_files_trans _ _ _ F1 F2) as F12.
  destruct (on_log (ReadAt _ _) (s, e2)) as [r3 [s3 e3]] eqn:E3.
  assert (Hpl : drop (Z.to_nat (at_ + lenPrefixSize)) (enc recs) = p ++ enc (drop (S k) recs)).
  { replace (Z.to_nat (at_ + lenPrefixSize)) with (Z.to_nat at_ + 4)%nat by (unfold lenPrefixSize; lia).
    rewrite <- drop_drop, Hen. by rewrite drop_app_length' by done. }
  destruct (log_ReadAt _ _ _ _ _ (at_ + lenPrefixSize) (Z.to_nat (zlen p)) _ _ _ _ _ (local_same _ _ _ _ _ _ F12 Hl) Hpl
              ltac:(unfold lenPrefixSize; lia) ltac:(unfold zlen; lia) E3) as (-> & F3 & D3 & [Hr C3]).
  assert (Hres : r = match r3 with Ok a => Ok a | Err _ => Err "read payload" end /\ s' = s /\ e' = e3)
    by (by destruct r3; simplify_eq).
  destruct Hres as (-> & -> & ->). split_and!; [done|by eapply same_files_trans|congruence|].
  split; [destruct Hr as [->|[err ->]]; eauto|]. by intros ->%F12%C3.
Qed.

Context `{CSO : !ColdStoreOk C}.

(** A tiered segment: the store holds its two files. *)
Record remote (c : C) (s : segment) (recs : list bytes) (g gi : bytes) : Prop := {
  rm_tiered : tiered s = true;
  rm_next : nextOffset s = baseOffset s + zlen recs;
  rm_size : size s = zlen (enc recs);
  rm_fits : fits recs;
  rm_holds : holds c (coldKey s) (enc recs ++ g) (index recs ++ gi)
}.

(** Where the records of a segment are. *)
Definition stored (e : Env C) (s : segment) (recs : list bytes) : Prop :=
  (exists g gi, local (dir e) s recs g gi) \/ (exists g gi, remote (cold e) s recs g gi).

Lemma stored_next e s recs : stored e s recs -> nextOffset s = baseOffset s + zlen recs /\ fits recs.
Proof. intros [(g & gi & [])|(g & gi & [])]; done. Qed.

(** Nothing stored was changed. *)
Record same_env (e e' : Env C) : Prop := {
  se_files : same_files (dir e) (dir e');
  se_holds : forall k l i, holds (cold e) k l i -> holds (cold e') k l i;
  se_settled : settled (cold e) -> settled (cold e')
}.

Lemma same_env_refl e : same_env e e.
Proof. by split. Qed.

Lemma stored_same e e' s recs : same_env e e' -> stored e s recs -> stored e' s recs.
Proof.
  intros [F H S] [(g & gi & L)|(g & gi & [])]; [left|right]; exists g, gi.
  - by eapply local_same.
  - split; auto.
Qed.

(** No call will fail. *)
Definition quiet_env (e : Env C) : Prop := calm (dir e) /\ settled (cold e).

Lemma zslice_take {A} (l : list A) i n x y :
  0 <= i -> drop (Z.to_nat i) l = x ++ y -> zlen x = n -> i + n <= zlen l -> zslice l i (i + n) = Some x.
Proof.
  intros Hi Hd Hx Hl. pose proof (zlen_nonneg x). unfold zslice.
  rewrite !(proj2 (Z.ltb_ge _ _)) by lia.
  cbn. f_equal. rewrite Hd. rewrite take_app_length'; [done|]. unfold zlen in *. lia.
Qed.

Lemma default_Some {A} (x y : A) : default x (Some y) = y.
Proof. done. Qed.

(** The files are long enough for the record at [k]. *)
Lemma enc_index_len recs k p g gi :
  recs !! k = Some p ->
  zlen (enc (take k recs)) + 4 + zlen p <= zlen (enc recs ++ g) /\ Z.of_nat k * 8 + 8 <= zlen (index recs ++ gi).
Proof.
  intros Hp. pose proof (enc_at recs k p Hp) as Hen. pose proof (lookup_lt_Some _ _ _ Hp) as Hk.
  rewrite !zlen_app, zlen_index. pose proof (zlen_nonneg g). pose proof (zlen_nonneg gi).
  split; [|unfold zlen in *; lia].
  apply (f_equal zlen) in Hen. rewrite zlen_app, zlen_enc_rec in Hen.
  pose proof (zlen_nonneg (enc (drop (S k) recs))). pose proof (zlen_nonneg p).
  unfold zlen in Hen. rewrite length_drop in Hen. unfold zlen in *. lia.
Qed.

Lemma readTiered_spec s e recs g gi k p r s' e' :
  remote (cold e) s recs g gi -> recs !! k = Some p ->
  readTiered (Z.of_nat k * 8) (s, e) = (r, (s', e')) ->
  s' = s /\ same_env e e' /\ (r = Ok p \/ exists err, r = Err err) /\ (settled (cold e) -> r = Ok p).
Proof.
  intros [Ht Hn Hs Hf Hh] Hp H. destruct (Hf k p Hp) as [Hlen Hpos].
  destruct (index_at recs k p Hp) as [rest Hix]. pose proof (enc_at recs k p Hp) as Hen.
  pose proof (lookup_lt_Some _ _ _ Hp) as Hk.
  destruct (enc_index_len recs k p g gi Hp) as (Hl1 & Hl2).
  set (at_ := zlen (enc (take k recs))) in *.
  assert (Hat : 0 <= at_) by apply zlen_nonneg. pose proof (zlen_nonneg p) as Hp0.
  unfold readTiered, mbind, M_bind, context in H. cbn [this] in H. unfold on_cold in H.
  destruct (Get (coldKey s) (cold e)) as [rg c'] eqn:E.
  assert (Hse : same_env e (mkEnv (dir e) c')).
  { split; cbn; [done|by intros; eapply get_keeps|]. intros Hst. rewrite (get_settled _ _ _ _ Hst Hh) in E. congruence. }
  assert (Hset : settled (cold e) -> rg = Ok (enc recs ++ g, index recs ++ gi)).
  { intros Hst. rewrite (get_settled _ _ _ _ Hst Hh) in E. congruence. }
  destruct (get_holds _ _ _ _ _ _ Hh E) as [->|[err ->]].
  2:{ injection H as <- <- <-. split_and!; eauto. by intros ?%Hset. }
  unfold indexEntrySize, lenPrefixSize in H.
  rewrite (proj2 (Z.ltb_ge _ _)) in H by lia.
  rewrite (zslice_take (index recs ++ gi) (Z.of_nat k * 8) 8 (PutUint32 (Z.of_nat k) ++ PutUint32 (u32 at_)) (rest ++ gi)) in H;
    [|lia| |done|lia].
  2:{ pose proof (zlen_index recs). unfold zlen in *. rewrite drop_app_le by lia.
      rewrite Hix. by rewrite <- !app_assoc. }
  rewrite default_Some, drop_app_length', Uint32_Put, !u32_small in H by (rewrite ?u32_small; done).
  rewrite (proj2 (Z.ltb_ge _ _)) in H by lia.
  assert (Hen' : drop (Z.to_nat at_) (enc recs ++ g) = PutUint32 (u32 (zlen p)) ++ p ++ enc (drop (S k) recs) ++ g).
  { rewrite zlen_app in Hl1. pose proof (enc_index_len recs k p [] [] Hp) as [Hl0 _].
    rewrite app_nil_r in Hl0. fold at_ in Hl0.
    rewrite drop_app_le by (unfold zlen in Hl0; lia). rewrite Hen. unfold enc_rec. by rewrite <- !app_assoc. }
  rewrite (zslice_take _ at_ 4 _ _ Hat Hen') in H by (done || lia).
  rewrite default_Some, Uint32_Put, !u32_small in H by (rewrite ?u32_small; lia).
  rewrite (proj2 (Z.ltb_ge _ _)) in H by lia.
  rewrite (zslice_take _ (at_ + 4) (zlen p) p (enc (drop (S k) recs) ++ g)) in H; [|lia| |done|lia].
  2:{ replace (Z.to_nat (at_ + 4)) with (Z.to_nat at_ + 4)%nat by lia.
      rewrite <- drop_drop, Hen'. by rewrite drop_app_length' by done. }
  injection H as <- <- <-. split_and!; eauto.
Qed.

Lemma read_spec s e recs off r s' e' :
  stored e s recs -> read off (s, e) = (r, (s', e')) ->
  s' = s /\ same_env e e' /\
  match recs @[off - baseOffset s] with
  | Some p => (r = Ok p \/ exists err, r = Err err) /\ (quiet_env e -> r = Ok p)
  | None => r = Err "offset out of range"
  end.
Proof.
  intros Hst H. destruct (stored_next _ _ _ Hst) as [Hn Hf].
  unfold read, mbind, M_bind in H. cbn [this] in H. unfold zget.
  destruct (Z.ltb_spec (off - baseOffset s) 0).
  { rewrite (proj2 (Z.ltb_lt _ _)) in H by lia. cbn in H. injection H as <- <- <-. by split_and!; try apply same_env_refl. }
  rewrite (proj2 (Z.ltb_ge _ _)) in H by lia. cbn [orb] in H.
  destruct (recs !! Z.to_nat (off - baseOffset s)) as [p|] eqn:Hp.
  2:{ apply lookup_ge_None in Hp. rewrite (proj2 (Z.leb_le _ _)) in H by (unfold zlen in *; lia).
      injection H as <- <- <-. by split_and!; try apply same_env_refl. }
  pose proof (lookup_lt_Some _ _ _ Hp). pose proof (fits_count _ _ _ Hf Hp).
  rewrite (proj2 (Z.leb_gt _ _)) in H by (unfold zlen in *; lia).
  rewrite u32_small in H by lia. unfold indexEntrySize in H.
  replace (off - baseOffset s) with (Z.of_nat (Z.to_nat (off - baseOffset s))) in H by lia.
  destruct Hst as [(g & gi & L)|(g & gi & R)].
  - rewrite (lc_tiered _ _ _ _ _ L) in H.
    destruct (readLocal_spec _ _ _ _ _ _ _ _ _ _ L Hp H) as (-> & F & D & Y1 & Y2).
    split_and!; [done|by split; rewrite ?D|done|]. intros [Hc _]. auto.
  - rewrite (rm_tiered _ _ _ _ _ R) in H.
    destruct (readTiered_spec _ _ _ _ _ _ _ _ _ _ R Hp H) as (-> & F & Y1 & Y2).
    split_and!; [done..|]. intros [_ Hc]. auto.
Qed.

(** ** Tiering *)

(** Calls that change at most a segment's own files and its own object. *)
Record own (base : Z) (key : string) (e e' : Env C) : Prop := {
  own_frame : frame base (dir e) (dir e');
  own_holds : forall k l i, k <> key -> holds (cold e) k l i -> holds (cold e') k l i
}.

Lemma own_refl base key e : own base key e e.
Proof. split; [apply frame_refl|done]. Qed.

Lemma own_trans base key e1 e2 e3 : own base key e1 e2 -> own base key e2 e3 -> own base key e1 e3.
Proof. intros [F1 H1] [F2 H2]. split; [by eapply frame_trans|eauto]. Qed.

Lemma Close_files f d r f' d' : Close (f, d) = (r, (f', d')) -> same_files d d'.
Proof.
  unfold Close. destruct (negb (isOpen f)); [by intros [= <- <- <-]|].
  destruct (next_fault d) as [flt d1] eqn:E. destruct (next_fault_files _ _ _ E) as [Hf Hc].
  destruct flt; intros [= <- <- <-]; split; try done; by intros [_ ?]%Hc.
Qed.

Lemma Close_calm f d : isOpen f = true -> calm d ->
  Close (f, d) = (Ok tt, (mkFile (path f) (appendMode f) (pos f) false, d)).
Proof. intros Ho Hc. unfold Close. by rewrite Ho, next_fault_calm. Qed.

(** The part of [tierOut] after the upload. *)
Definition discard (logPath indexPath key : string) : @Seg C unit :=
  _ ← on_log Close;
  _ ← on_index Close;
  _ ← on_dir (Remove logPath);
  _ ← on_dir (Remove indexPath);
  update (set_tiered key).

Lemma Remove_frame base n d r d' :
  n = logName (Sprintf020d base) \/ n = indexName (Sprintf020d base) ->
  Remove n d = (r, d') -> frame base d d'.
Proof.
  intros Hn E. split; [|by intros; eapply Remove_calm]. intros m ? ?.
  eapply Remove_other; [done|]. destruct Hn as [-> | ->]; by apply not_eq_sym.
Qed.

Lemma same_files_frame base d d' : same_files d d' -> frame base d d'.
Proof. intros [E Hc]. by apply frame_same. Qed.

Lemma close_log_spec s e r s' e' :
  on_log Close (s, e) = (r, (s', e')) ->
  exists f, s' = set_logFile f s /\ cold e' = cold e /\ same_files (dir e) (dir e').
Proof.
  unfold on_log. destruct (Close (logFile s, dir e)) as [r1 [f1 d1]] eqn:E. intros [= <- <- <-].
  exists f1. split_and!; [done..|by apply Close_files in E|by apply Close_files in E].
Qed.

Lemma close_index_spec s e r s' e' :
  on_index Close (s, e) = (r, (s', e')) ->
  exists f, s' = set_indexFile f s /\ cold e' = cold e /\ same_files (dir e) (dir e').
Proof.
  unfold on_index. destruct (Close (indexFile s, dir e)) as [r1 [f1 d1]] eqn:E. intros [= <- <- <-].
  exists f1. split_and!; [done..|by apply Close_files in E|by apply Close_files in E].
Qed.

Lemma discard_spec s e key r s' e' :
  discard (logName (Sprintf020d (baseOffset s))) (indexName (Sprintf020d (baseOffset s))) key (s, e) = (r, (s', e')) ->
  cold e' = cold e /\ frame (baseOffset s) (dir e) (dir e') /\
  baseOffset s' = baseOffset s /\ nextOffset s' = nextOffset s /\ size s' = size s /\
  (r = Ok tt -> tiered s' = true /\ coldKey s' = key).
Proof.
  intros H. unfold discard, mbind, M_bind in H.
  destruct (on_log Close (s, e)) as [r1 [s1 e1]] eqn:E1. apply close_log_spec in E1 as (f1 & -> & C1 & F1).
  apply (same_files_frame (baseOffset s)) in F1.
  destruct r1; [|injection H as <- <- <-; by split_and!].
  destruct (on_index Close _) as [r2 [s2 e2]] eqn:E2. apply close_index_spec in E2 as (f2 & -> & C2 & F2).
  apply (same_files_frame (baseOffset s)), (frame_trans _ _ _ _ F1) in F2. rewrite C1 in C2.
  destruct r2; [|injection H as <- <- <-; by split_and!].
  unfold on_dir at 1 in H.
  destruct (Remove (logName _) (dir e2)) as [r3 d3] eqn:E3.
  apply (Remove_frame (baseOffset s)), (frame_trans _ _ _ _ F2) in E3; [|by left].
  destruct r3; [|injection H as <- <- <-; by split_and!].
  unfold on_dir in H. cbn [dir cold] in H.
  destruct (Remove (indexName _) d3) as [r4 d4] eqn:E4.
  apply (Remove_frame (baseOffset s)), (frame_trans _ _ _ _ E3) in E4; [|by right].
  destruct r4; injection H as <- <- <-; by split_and!.
Qed.

Lemma Remove_fine n d c : calm d -> files d !! n = Some c ->
  Remove n d = (Ok tt, mkDir (delete n (files d)) (faults d)).
Proof. intros Hc E. unfold Remove. by rewrite next_fault_calm, E. Qed.

Lemma discard_fine s e recs g gi key :
  local (dir e) s recs g gi -> calm (dir e) ->
  exists s' e', discard (logName (Sprintf020d (baseOffset s))) (indexName (Sprintf020d (baseOffset s))) key (s, e)
    = (Ok tt, (s', e')).
Proof.
  intros [Ht Hn Hs Hf [Hp Ha Ho Hi] Hl Hx] Hc.
  unfold discard, mbind, M_bind, on_log, on_index, on_dir, update.
  rewrite Close_calm by done. cbn [indexFile set_logFile dir]. rewrite Close_calm by (by rewrite ?Hi). cbn [dir].
  rewrite (Remove_fine _ _ _ Hc Hl). cbn [dir].
  erewrite Remove_fine; [eauto|done|]. cbn. rewrite lookup_delete_ne; [exact Hx|apply logName_indexName].
Qed.

Lemma ReadFile_spec n c d r d' :
  files d !! n = Some c -> ReadFile n d = (r, d') -> same_files d d' /\ yields d r c.
Proof.
  intros Hc E. split; [split; [by eapply ReadFile_files|]|split; [by eapply ReadFile_content|]]; intros Hd;
    rewrite (ReadFile_calm _ _ _ Hd Hc) in E; by simplify_eq.
Qed.

(** The part of [tierOut] before that: either nothing local changed, or the
    object was uploaded. *)
Lemma upload_spec s e recs g gi key r s' e' :
  local (dir e) s recs g gi ->
  (logBytes ← context "read local log for tiering" (on_dir (ReadFile (logName (Sprintf020d (baseOffset s)))));
   indexBytes ← context "read local index for tiering" (on_dir (ReadFile (indexName (Sprintf020d (baseOffset s)))));
   context "upload to cold store" (on_cold (Put key logBytes indexBytes))) (s, e) = (r, (s', e')) ->
  s' = s /\ same_files (dir e) (dir e') /\
  (forall k l i, k <> key -> holds (cold e) k l i -> holds (cold e') k l i) /\
  (r = Ok tt -> holds (cold e') key (enc recs ++ g) (index recs ++ gi)) /\
  (quiet_env e -> r = Ok tt /\ quiet_env e').
Proof.
  intros [Ht Hn Hs Hf _ Hl Hx] H. unfold mbind, M_bind, context, on_dir, on_cold in H. cbn [dir cold] in H.
  destruct (ReadFile (logName _) (dir e)) as [r1 d1] eqn:E1.
  destruct (ReadFile_spec _ _ _ _ _ Hl E1) as [F1 [Y1 C1]].
  destruct Y1 as [->|[err ->]]; [|injection H as <- <- <-; split_and!; try done; by intros [?%C1 _]].
  rewrite <- (proj1 F1) in Hx. cbn [dir cold] in H. destruct (ReadFile (indexName _) d1) as [r2 d2] eqn:E2.
  destruct (ReadFile_spec _ _ _ _ _ Hx E2) as [F2 [Y2 C2]].
  pose proof (same_files_trans _ _ _ F1 F2) as F12.
  destruct Y2 as [->|[err ->]]; [|injection H as <- <- <-; split_and!; try done; by intros [?%F1%C2 _]].
  cbn [dir cold] in H. destruct (Put key _ _ (cold e)) as [r3 c3] eqn:E3.
  assert (Hres : s' = s /\ e' = mkEnv d2 c3 /\ (r = Ok tt -> r3 = Ok tt) /\ (r3 = Ok tt -> r = Ok tt)).
  { destruct r3 as [[]|]; by simplify_eq. }
  destruct Hres as (-> & -> & R1 & R2). split_and!; [done|done|cbn..].
  - intros k l i Hk Hh. eapply put_keeps; [exact E3|by apply not_eq_sym|done].
  - intros ->%R1. by eapply put_holds.
  - intros [Hc Hs']. destruct (put_settled key (enc recs ++ g) (index recs ++ gi) (cold e) Hs') as (c' & Ep & Hs3).
    rewrite Ep in E3. simplify_eq. split; [by apply R2|]. split; [by apply F12|done].
Qed.

(** [tierOut] is the upload followed by [discard]. *)
Lemma tierOut_split key s e :
  tierOut key (s, e) =
  (_ ← (logBytes ← context "read local log for tiering" (on_dir (ReadFile (logName (Sprintf020d (baseOffset s)))));
        indexBytes ← context "read local index for tiering" (on_dir (ReadFile (indexName (Sprintf020d (baseOffset s)))));
        context "upload to cold store" (on_cold (Put key logBytes indexBytes)));
   discard (logName (Sprintf020d (baseOffset s))) (indexName (Sprintf020d (baseOffset s))) key) (s, e).
Proof.
  unfold tierOut, discard, mbind, M_bind. cbn [this segmentPaths].
  destruct (context _ (on_dir (ReadFile (logName _))) (s, e)) as [[l|] ?]; [|done].
  by destruct (context _ (on_dir (ReadFile (indexName _))) _) as [[i|] ?].
Qed.

(** Every outcome of [tierOut] leaves the local files untouched or the whole
    segment in the store, and a successful one leaves the records readable from
    the store. *)
Lemma tierOut_spec s e recs g gi key r s' e' :
  local (dir e) s recs g gi -> tierOut key (s, e) = (r, (s', e')) ->
  own (baseOffset s) key e e' /\
  (s' = s /\ same_files (dir e) (dir e') \/ holds (cold e') key (enc recs ++ g) (index recs ++ gi)) /\
  baseOffset s' = baseOffset s /\
  (r = Ok tt -> remote (cold e') s' recs g gi /\ coldKey s' = key) /\
  (quiet_env e -> r = Ok tt /\ quiet_env e').
Proof.
  intros L H. rewrite tierOut_split in H. unfold mbind at 1, M_bind at 1 in H.
  destruct ((_ ← context "read local log for tiering" _; _) (s, e)) as [r1 [s1 e1]] eqn:E1.
  destruct (upload_spec _ _ _ _ _ _ _ _ _ L E1) as (-> & F1 & K1 & P1 & Q1).
  pose proof (local_same _ _ _ _ _ _ F1 L) as L1.
  destruct r1 as [[]|err].
  2:{ injection H as <- <- <-. split_and!; try done; [split; [by apply same_files_frame|done]|by left]. }
  specialize (P1 eq_refl). destruct (discard_spec _ _ _ _ _ _ H) as (Ec & F2 & B & N & Z & T).
  split_and!; [|right; by rewrite Ec|done| |].
  - split; [|by rewrite Ec]. eapply frame_trans; [by apply same_files_frame|done].
  - intros Hr. destruct (T Hr) as [Ht Hk]. destruct L as [_ Hn Hs Hf _ _ _]. split; [|done].
    split; rewrite ?N, ?B, ?Z, ?Hk, ?Ec; done.
  - intros Hq. destruct (Q1 Hq) as [_ [Hc1 Hs1]].
    destruct (discard_fine _ _ _ _ _ key L1 Hc1) as (s2 & e2 & Ed). rewrite Ed in H. injection H as <- <- <-.
    split; [done|]. split; [by apply F2|by rewrite Ec].
Qed.

(** ** Removing *)

Lemma remove_spec s e recs :
  stored e s recs -> quiet_env e ->
  exists s' e', remove (s, e) = (Ok tt, (s', e')) /\ quiet_env e' /\ frame (baseOffset s) (dir e) (dir e') /\
    (forall k l i, (tiered s = true -> k <> coldKey s) -> holds (cold e) k l i -> holds (cold e') k l i) /\
    files (dir e') ⊆ files (dir e) /\
    (tiered s = false -> files (dir e') !! logName (Sprintf020d (baseOffset s)) = None).
Proof.
  intros Hst [Hc Hq]. unfold remove, mbind, M_bind, try, close. cbn [this].
  destruct Hst as [(g & gi & L)|(g & gi & R)].
  - pose proof L as [Ht Hn Hs Hf [Hp Ha Ho Hi] Hl Hx]. unfold mbind, M_bind. cbn [this]. rewrite Ht.
    unfold on_log. rewrite Close_calm by done. unfold on_index. cbn [indexFile set_logFile dir].
    rewrite Close_calm by (by rewrite ?Hi). cbn [this tiered set_indexFile set_logFile]. rewrite Ht.
    cbn [segmentPaths baseOffset set_indexFile set_logFile]. unfold on_dir. cbn [dir].
    rewrite (Remove_fine _ _ _ Hc Hl). cbn [dir].
    erewrite Remove_fine; [|done|cbn; rewrite lookup_delete_ne; [exact Hx|apply logName_indexName]].
    eexists _, _. split; [done|]. split; [done|]. cbn [dir cold files]. split; [|split_and!; [done| |]].
    + split; [|done]. intros n Hn1 Hn2. cbn. by rewrite !lookup_delete_ne by (by apply not_eq_sym).
    + etransitivity; [apply delete_subseteq|apply delete_subseteq].
    + intros _. rewrite lookup_delete_ne by apply not_eq_sym, logName_indexName. by rewrite lookup_delete_eq.
  - pose proof (rm_tiered _ _ _ _ _ R) as Ht. unfold mbind, M_bind. cbn [this]. rewrite Ht. cbn [mret M_ret this].
    rewrite Ht. unfold on_cold. destruct (delete_settled (coldKey s) (cold e) Hq) as (c' & E & Hq'). rewrite E.
    eexists _, _. split; [done|]. split; [done|]. split; [apply frame_refl|]. split_and!; [|done|done].
    intros k l i Hk Hh. eapply delete_keeps; [exact E| |done]. apply not_eq_sym. auto.
Qed.

End proofs.
