(* ===== verification/SegmentRecover.v ===== *)
(** Opening a segment: [rebuildIndex] recovers the records, their index and the
    next offset from the log file alone, and creates an empty segment where
    there was none. *)
From S2P Require Import Prelude GoLib Files Cold Segment SegmentFormat SegmentProof.
#[local] Open Scope Z_scope.
#[local] Set Warnings "-clear-no-such-hyp".

Lemma Write_calm f d c data :
  isOpen f = true -> calm d -> files d !! path f = Some c -> appendMode f = true \/ pos f = zlen c ->
  Write data (f, d) =
    (Ok tt, (mkFile (path f) (appendMode f) (zlen c + zlen data) true, set_file (path f) (c ++ data) d)).
Proof.
  intros Ho Hd Hc Hp. unfold Write, on_open. rewrite Ho, Hc, next_fault_calm by done. cbn.
  replace (if appendMode f then zlen c else pos f) with (zlen c).
  2:{ destruct (appendMode f); [done|]. by destruct Hp. }
  by rewrite write_at_end.
Qed.

Lemma Read_calm n f d c :
  isOpen f = true -> calm d -> files d !! path f = Some c ->
  let got := take n (drop (Z.to_nat (pos f)) c) in
  Read n (f, d) = (Ok got, (mkFile (path f) (appendMode f) (pos f + zlen got) true, d)).
Proof. intros Ho Hd Hc. unfold Read, on_open. by rewrite Ho, Hc, next_fault_calm. Qed.

Lemma Seek_calm off w f d c :
  isOpen f = true -> calm d -> files d !! path f = Some c ->
  let p := match w with SeekStart => off | SeekCurrent => pos f + off | SeekEnd => zlen c + off end in
  Seek off w (f, d) = (Ok p, (mkFile (path f) (appendMode f) p true, d)).
Proof. intros Ho Hd Hc. unfold Seek, on_open. by rewrite Ho, Hc, next_fault_calm. Qed.

Lemma Truncate0_calm f d c :
  isOpen f = true -> calm d -> files d !! path f = Some c ->
  Truncate0 (f, d) = (Ok tt, (f, set_file (path f) [] d)).
Proof. intros Ho Hd Hc. unfold Truncate0, on_open. by rewrite Ho, Hc, next_fault_calm. Qed.

(** The same calls when they may fail. *)
Lemma Seek_any off w f d c r f' d' :
  isOpen f = true -> files d !! path f = Some c -> Seek off w (f, d) = (r, (f', d')) ->
  same_files d d' /\ path f' = path f /\ appendMode f' = appendMode f /\ isOpen f' = true /\
  match r with
  | Ok _ => pos f' = match w with SeekStart => off | SeekCurrent => pos f + off | SeekEnd => zlen c + off end
  | Err _ => pos f' = pos f
  end /\ (calm d -> is_ok r = true).
Proof.
  intros Ho Hc H. unfold Seek, on_open in H. rewrite Ho, Hc in H. cbn [negb] in H.
  destruct (next_fault d) as [flt d1] eqn:En. destruct (next_fault_files _ _ _ En) as [Hf Hcm].
  destruct flt; injection H as <- <- <-; unfold same_files; cbn; split_and!; try done; by intros [? ?]%Hcm.
Qed.

Lemma Truncate0_any f d c r f' d' :
  isOpen f = true -> files d !! path f = Some c -> Truncate0 (f, d) = (r, (f', d')) ->
  f' = f /\ (calm d -> is_ok r = true /\ calm d') /\
  (files d' = files d \/ files d' = <[path f := []]> (files d)) /\
  (r = Ok tt -> files d' = <[path f := []]> (files d)).
Proof.
  intros Ho Hc H. unfold Truncate0, on_open in H. rewrite Ho, Hc in H. cbn [negb] in H.
  destruct (next_fault d) as [flt d1] eqn:En. destruct (next_fault_files _ _ _ En) as [Hf Hcm].
  destruct flt; injection H as <- <- <-; cbn; rewrite Hf; split_and!; auto; try done; by intros [? ?]%Hcm.
Qed.

Lemma Read_empty n f d r f' d' :
  isOpen f = true -> files d !! path f = Some [] -> Read n (f, d) = (r, (f', d')) ->
  same_files d d' /\ path f' = path f /\ appendMode f' = appendMode f /\ isOpen f' = true /\
  (r = Ok [] \/ exists err, r = Err err).
Proof.
  intros Ho Hc H. unfold Read, on_open in H. rewrite Ho, Hc in H. cbn [negb] in H.
  destruct (next_fault d) as [flt d1] eqn:En. destruct (next_fault_files _ _ _ En) as [Hf Hcm].
  rewrite drop_nil, take_nil in H.
  destruct flt; injection H as <- <- <-; unfold same_files; cbn; split_and!; eauto; by intros [? ?]%Hcm.
Qed.

Section recover.
Context {C : Type} `{CS : ColdStore C}.
Implicit Types (e : Env C).

(** A segment whose files stand at the given positions. *)
Definition scanning (base n z p ip : Z) : segment :=
  mkSegment base n z (mkFile (logName (Sprintf020d base)) true p true)
    (mkFile (indexName (Sprintf020d base)) false ip true) false "".

Lemma fill_word buf v : length buf = 4%nat -> fill buf (PutUint32 v) = PutUint32 v.
Proof. intros H. unfold fill. rewrite drop_ge by (rewrite H; done). apply app_nil_r. Qed.

(** Scanning the records that follow [seen]. *)
Lemma rebuildLoop_spec base n z todo : forall seen buf fuel e,
  calm (dir e) -> fits (seen ++ todo) -> length buf = 4%nat -> (length todo < fuel)%nat ->
  files (dir e) !! logName (Sprintf020d base) = Some (enc (seen ++ todo)) ->
  files (dir e) !! indexName (Sprintf020d base) = Some (index seen) ->
  exists e', rebuildLoop fuel (zlen (enc seen)) buf (zlen seen)
      (scanning base n z (zlen (enc seen)) (zlen (index seen)), e) =
    (Ok (zlen (enc (seen ++ todo)), zlen (seen ++ todo)),
     (scanning base n z (zlen (enc (seen ++ todo))) (zlen (index (seen ++ todo))), e')) /\
    frame base (dir e) (dir e') /\ cold e' = cold e /\
    files (dir e') !! logName (Sprintf020d base) = Some (enc (seen ++ todo)) /\
    files (dir e') !! indexName (Sprintf020d base) = Some (index (seen ++ todo)).
Proof.
  induction todo as [|p todo IH]; intros seen buf fuel e Hc Hf Hb Hfuel Hl Hi;
    (destruct fuel as [|fuel]; [lia|]); cbn [rebuildLoop]; unfold mbind, M_bind, try, on_log, on_index.
  - rewrite app_nil_r in *. cbn [logFile scanning]. rewrite (Read_calm 4 _ _ (enc seen)) by done. cbn [pos].
    rewrite drop_ge by (unfold zlen; lia). cbn. rewrite Z.add_0_r. exists e. destruct e. by split_and!.
  - assert (Hp : (seen ++ p :: todo) !! length seen = Some p) by (by rewrite lookup_app_r, Nat.sub_diag by lia).
    destruct (Hf _ _ Hp) as [Hlen Hpos]. pose proof (fits_count _ _ _ Hf Hp) as Hcount.
    pose proof (enc_at _ _ _ Hp) as Hen. rewrite take_app_length in Hpos, Hen.
    pose proof (zlen_nonneg p) as Hp0. pose proof (zlen_nonneg (enc seen)) as Hs0.
    cbn [logFile scanning]. rewrite (Read_calm 4 _ _ (enc (seen ++ p :: todo))) by done. cbn [pos].
    assert (Hgot : take 4 (drop (Z.to_nat (zlen (enc seen))) (enc (seen ++ p :: todo))) = PutUint32 (u32 (zlen p))).
    { rewrite Hen. unfold enc_rec. by rewrite <- app_assoc, take_app_length' by done. }
    rewrite Hgot, fill_word, Uint32_Put, !u32_small by (rewrite ?u32_small; done || (unfold zlen; lia)).
    cbn [length PutUint32 Nat.eqb]. unfold appendIndexEntry, on_index.
    cbn [indexFile set_logFile scanning dir].
    rewrite (Write_calm _ _ (index seen)) by (done || by right). cbn [logFile set_indexFile set_logFile dir path appendMode].
    rewrite (Seek_calm _ SeekCurrent _ _ (enc (seen ++ p :: todo))); [|done|done|].
    2:{ cbn. rewrite lookup_insert_ne; [done|apply not_eq_sym, logName_indexName]. }
    cbn [pos cold dir path appendMode].
    set (e1 := mkEnv _ _). rewrite cons_middle, app_assoc in *.
    assert (Hix : index (seen ++ [p]) = index seen ++ PutUint32 (zlen seen) ++ PutUint32 (zlen (enc seen))).
    { by rewrite index_snoc, u32_small. }
    assert (He : zlen (enc (seen ++ [p])) = zlen (enc seen) + 4 + zlen p).
    { rewrite enc_snoc, zlen_app, zlen_enc_rec. lia. }
    destruct (IH (seen ++ [p]) (PutUint32 (zlen p)) fuel e1) as (e' & E & F & Hcold & Hl' & Hi');
      [done|done|done|cbn in Hfuel; lia| | |].
    { cbn. rewrite lookup_insert_ne; [done|apply not_eq_sym, logName_indexName]. }
    { cbn. by rewrite lookup_insert_eq, Hix. }
    exists e'. split_and!; try done.
    + rewrite <- E. f_equal; [unfold lenPrefixSize; lia|by rewrite zlen_snoc|].
      rewrite Hix, He, (zlen_app (index seen)). done.
    + eapply frame_trans; [|exact F]. eapply frame_write; [right; reflexivity|reflexivity|done].
Qed.

(** [rebuildIndex] on a whole log file. *)
Lemma rebuildIndex_spec base recs ix e :
  calm (dir e) -> fits recs ->
  files (dir e) !! logName (Sprintf020d base) = Some (enc recs) ->
  files (dir e) !! indexName (Sprintf020d base) = Some ix ->
  exists s e', rebuildIndex (scanning base base 0 0 0, e) = (Ok tt, (s, e')) /\ baseOffset s = base /\
    frame base (dir e) (dir e') /\ cold e' = cold e /\ local (dir e') s recs [] [].
Proof.
  intros Hc Hf Hl Hi. unfold rebuildIndex, mbind, M_bind, on_log, on_index.
  cbn [logFile indexFile scanning set_logFile].
  rewrite (Seek_calm 0 SeekStart _ _ (enc recs)) by done. cbn [dir indexFile set_logFile path appendMode].
  rewrite (Seek_calm 0 SeekStart _ _ ix) by done. cbn [dir indexFile set_indexFile path appendMode].
  rewrite (Truncate0_calm _ _ ix) by done. unfold log_bytes. cbn [dir path].
  set (e1 := mkEnv _ _). cbn [logFile set_indexFile set_logFile path].
  assert (Hl1 : files (dir e1) !! logName (Sprintf020d base) = Some (enc recs)).
  { cbn. rewrite lookup_insert_ne; [done|apply not_eq_sym, logName_indexName]. }
  assert (Hi1 : files (dir e1) !! indexName (Sprintf020d base) = Some (index [])).
  { cbn. by rewrite lookup_insert_eq. }
  destruct (rebuildLoop_spec base base 0 recs [] (replicate 4 x00) (S (length (enc recs))) e1)
    as (e2 & E & F & Hcold & Hl2 & Hi2); [done|done|done| |done|done|].
  { pose proof (zlen_enc_ge recs). unfold zlen in *. lia. }
  match goal with |- context [rebuildLoop (S (length ?m)) _ _ _ ?st] =>
    change m with (match files (dir e1) !! logName (Sprintf020d base) with Some c => c | None => [] end);
    change st with (scanning base base 0 0 0, e1) end.
  rewrite Hl1. cbn [app] in E, Hl2, Hi2.
  change (zlen (enc [])) with 0 in E. change (zlen []) with 0 in E. change (zlen (index [])) with 0 in E.
  rewrite E. unfold update. cbn [logFile set_offsets scanning dir].
  rewrite (Seek_calm 0 SeekEnd _ _ (enc recs)) by (done || by apply F). cbn [mret M_ret].
  assert (F1 : frame base (dir e) (dir e2)).
  { eapply frame_trans; [|exact F]. eapply frame_write; [right; reflexivity|reflexivity|done]. }
  eexists _, _. split; [done|]. split; [done|]. split; [done|]. split; [done|].
  split; cbn; rewrite ?app_nil_r; try done.
Qed.

(** Opening the segment whose log file holds [recs], or creating it empty. *)
Lemma openSegment_spec base recs e :
  calm (dir e) -> fits recs ->
  (files (dir e) !! logName (Sprintf020d base) = Some (enc recs) \/
   files (dir e) !! logName (Sprintf020d base) = None /\ recs = []) ->
  exists s e', openSegment base e = (Ok s, e') /\ baseOffset s = base /\
    frame base (dir e) (dir e') /\ cold e' = cold e /\ local (dir e') s recs [] [].
Proof.
  intros Hc Hf Hl. unfold openSegment. cbn [segmentPaths]. unfold OpenAppend.
  rewrite next_fault_calm by done.
  assert (Hcont : match files (dir e) !! logName (Sprintf020d base) with Some c => c | None => [] end = enc recs).
  { by destruct Hl as [-> |[-> ->]]. }
  rewrite Hcont. unfold OpenTrunc. rewrite next_fault_calm by done.
  set (e1 := mkEnv (set_file _ [] _) (cold e)).
  destruct (rebuildIndex_spec base recs [] e1) as (s & e2 & E & Hb & F & Hcold & L); [done|done| | |].
  { cbn. rewrite lookup_insert_ne by apply not_eq_sym, logName_indexName. by rewrite lookup_insert_eq. }
  { cbn. by rewrite lookup_insert_eq. }
  change (mkSegment base base 0 _ _ false "") with (scanning base base 0 0 0). rewrite E.
  exists s, e2. split_and!; try done.
  eapply frame_trans; [|exact F]. split; [|done]. intros n Hn1 Hn2. cbn.
  by rewrite !lookup_insert_ne by (by apply not_eq_sym).
Qed.

(** ** Opening an empty or missing segment, whatever fails *)

(** What a call may do to an empty segment: nothing but move the log's position. *)
Definition idle s e s' e' : Prop :=
  local (dir e') s' [] [] [] /\ frame (baseOffset s) (dir e) (dir e') /\ cold e' = cold e /\
  baseOffset s' = baseOffset s.

Lemma idle_trans s1 e1 s2 e2 s3 e3 : idle s1 e1 s2 e2 -> idle s2 e2 s3 e3 -> idle s1 e1 s3 e3.
Proof.
  intros (L1 & F1 & C1 & B1) (L2 & F2 & C2 & B2). rewrite B1 in *.
  split_and!; [done|by eapply frame_trans|congruence|congruence].
Qed.

Lemma local_logFile d d' s f recs g gi :
  local d s recs g gi -> same_files d d' -> path f = path (logFile s) ->
  appendMode f = appendMode (logFile s) -> isOpen f = true -> local d' (set_logFile f s) recs g gi.
Proof.
  intros [Ht Hn Hs Hf [Hp Ha Ho Hi] Hl Hx] [Ef _] Ep Ea Eo. split; try done; cbn; rewrite ?Ef; try done.
  split; cbn; congruence.
Qed.

Lemma log_Seek_idle off w s e r s' e' :
  local (dir e) s [] [] [] -> on_log (Seek off w) (s, e) = (r, (s', e')) -> idle s e s' e'.
Proof.
  intros L H. unfold on_log in H. destruct (Seek off w _) as [r1 [f1 d1]] eqn:E. injection H as <- <- <-.
  pose proof (lc_handles _ _ _ _ _ L) as [Hp Ha Ho Hi]. pose proof (lc_log _ _ _ _ _ L) as Hl. rewrite <- Hp in Hl.
  destruct (Seek_any _ _ _ _ _ _ _ _ Ho Hl E) as (F & P & A & O & _ & _).
  split_and!; cbn; try done; [by eapply local_logFile|by apply same_files_frame].
Qed.

Lemma log_Read_idle n s e r s' e' :
  local (dir e) s [] [] [] -> on_log (Read n) (s, e) = (r, (s', e')) ->
  idle s e s' e' /\ (r = Ok [] \/ exists err, r = Err err).
Proof.
  intros L H. unfold on_log in H. destruct (Read n _) as [r1 [f1 d1]] eqn:E. injection H as <- <- <-.
  pose proof (lc_handles _ _ _ _ _ L) as [Hp Ha Ho Hi]. pose proof (lc_log _ _ _ _ _ L) as Hl. rewrite <- Hp in Hl.
  destruct (Read_empty _ _ _ _ _ _ Ho Hl E) as (F & P & A & O & R). split; [|done].
  split_and!; cbn; try done; [by eapply local_logFile|by apply same_files_frame].
Qed.

Lemma index_Seek_idle s e r s' e' :
  local (dir e) s [] [] [] -> on_index (Seek 0 SeekStart) (s, e) = (r, (s', e')) -> idle s e s' e'.
Proof.
  intros L H. unfold on_index in H. destruct (Seek 0 SeekStart _) as [r1 [f1 d1]] eqn:E. injection H as <- <- <-.
  pose proof L as [Ht Hn Hs Hf [Hp Ha Ho Hi] Hl Hx]. rewrite Hi in E.
  eapply Seek_any in E as (F & P & A & O & R & _); [|done|exact Hx]. cbn in *.
  assert (f1 = indexFile s) as ->.
  { rewrite Hi. destruct f1; cbn in *. destruct r1; subst; reflexivity. }
  split_and!; cbn; try done; [|by apply same_files_frame].
  assert (set_indexFile (indexFile s) s = s) as -> by (by destruct s). by eapply local_same.
Qed.

Lemma index_Truncate_idle s e r s' e' :
  local (dir e) s [] [] [] -> on_index Truncate0 (s, e) = (r, (s', e')) -> idle s e s' e'.
Proof.
  intros L H. unfold on_index in H. destruct (Truncate0 _) as [r1 [f1 d1]] eqn:E. injection H as <- <- <-.
  pose proof L as [Ht Hn Hs Hf [Hp Ha Ho Hi] Hl Hx]. pose proof E as E'. rewrite Hi in E'.
  eapply Truncate0_any in E' as (-> & Hcm & Hd & _); [|done|exact Hx]. cbn in Hd.
  assert (Fd : same_files (dir e) d1).
  { split; [|by intros [_ ?]%Hcm]. destruct Hd as [?| ->]; [done|]. by apply insert_id. }
  rewrite <- Hi. assert (set_indexFile (indexFile s) s = s) as -> by (by destruct s).
  split_and!; cbn; try done; [by eapply local_same|by apply same_files_frame].
Qed.

Lemma rebuildIndex_empty s e r s' e' :
  local (dir e) s [] [] [] -> rebuildIndex (s, e) = (r, (s', e')) -> idle s e s' e'.
Proof.
  intros L H. unfold rebuildIndex, mbind, M_bind in H.
  destruct (on_log (Seek 0 SeekStart) (s, e)) as [r1 [s1 e1]] eqn:E1.
  pose proof (log_Seek_idle _ _ _ _ _ _ _ L E1) as I1. pose proof I1 as [L1 _].
  destruct r1; [|by injection H as <- <- <-].
  destruct (on_index (Seek 0 SeekStart) (s1, e1)) as [r2 [s2 e2]] eqn:E2.
  pose proof (index_Seek_idle _ _ _ _ _ L1 E2) as I2. pose proof I2 as [L2 _].
  apply (idle_trans _ _ _ _ _ _ I1) in I2. destruct r2; [|by injection H as <- <- <-].
  destruct (on_index Truncate0 (s2, e2)) as [r3 [s3 e3]] eqn:E3.
  pose proof (index_Truncate_idle _ _ _ _ _ L2 E3) as I3. pose proof I3 as [L3 _].
  apply (idle_trans _ _ _ _ _ _ I2) in I3. destruct r3; [|by injection H as <- <- <-].
  unfold log_bytes in H. rewrite (ha_log _ _ (lc_handles _ _ _ _ _ L3)), (lc_log _ _ _ _ _ L3) in H.
  cbn [length enc app rebuildLoop] in H. unfold mbind, M_bind, try in H.
  destruct (on_log (Read 4) (s3, e3)) as [r4 [s4 e4]] eqn:E4.
  pose proof (log_Read_idle _ _ _ _ _ _ L3 E4) as [I4 R4]. pose proof I4 as [L4 _].
  apply (idle_trans _ _ _ _ _ _ I3) in I4.
  assert (Hgo : (_ ← update (fun s => set_offsets (baseOffset s + 0) 0 s); _ ← on_log (Seek 0 SeekEnd); mret tt) (s4, e4)
    = (r, (s', e'))) by (destruct R4 as [->|[? ->]]; exact H).
  unfold mbind, M_bind, update in Hgo.
  assert (Hs4 : set_offsets (baseOffset s4 + 0) 0 s4 = s4).
  { destruct L4 as [_ Hn Hs _ _ _ _]. destruct s4; cbn in *. subst. reflexivity. }
  rewrite Hs4 in Hgo. destruct (on_log (Seek 0 SeekEnd) (s4, e4)) as [r5 [s5 e5]] eqn:E5.
  pose proof (idle_trans _ _ _ _ _ _ I4 (log_Seek_idle _ _ _ _ _ _ _ L4 E5)) as I5.
  destruct r5; by injection Hgo as <- <- <-.
Qed.

Lemma openSegment_empty base e r e' :
  (files (dir e) !! logName (Sprintf020d base) = None \/
   files (dir e) !! logName (Sprintf020d base) = Some []) ->
  openSegment base e = (r, e') ->
  frame base (dir e) (dir e') /\ cold e' = cold e /\
  (files (dir e') !! logName (Sprintf020d base) = None \/
   files (dir e') !! logName (Sprintf020d base) = Some []) /\
  (calm (dir e) -> is_ok r = true) /\
  match r with Ok s => baseOffset s = base /\ local (dir e') s [] [] [] | Err _ => True end.
Proof.
  intros Hl H.
  assert (Hcalm : calm (dir e) -> is_ok r = true).
  { intros Hc. destruct (openSegment_spec base [] e Hc fits_nil) as (s & e1 & E & _); [naive_solver|].
    rewrite E in H. by injection H as <- <-. }
  unfold openSegment in H. cbn [segmentPaths] in H. unfold OpenAppend in H.
  destruct (next_fault (dir e)) as [flt d1] eqn:En1. destruct (next_fault_files _ _ _ En1) as [Hf1 Hc1].
  destruct flt as [| |k].
  2,3: injection H as <- <-; cbn; rewrite Hf1; split_and!; try done; apply frame_same; [done|by intros [? ?]%Hc1].
  rewrite Hf1 in H.
  replace (match files (dir e) !! logName (Sprintf020d base) with Some c => c | None => [] end) with (@nil byte) in H
    by (by destruct Hl as [-> | ->]).
  set (d2 := set_file (logName (Sprintf020d base)) [] d1) in *.
  assert (F2 : frame base (dir e) d2).
  { eapply frame_write; [left; reflexivity|cbn; by rewrite Hf1|by intros [_ ?]%Hc1]. }
  assert (Hl2 : files d2 !! logName (Sprintf020d base) = Some []) by (cbn; by rewrite lookup_insert_eq).
  unfold OpenTrunc in H. destruct (next_fault d2) as [flt d3] eqn:En3. destruct (next_fault_files _ _ _ En3) as [Hf3 Hc3].
  assert (F3 : frame base (dir e) d3) by (eapply frame_trans; [exact F2|apply frame_same; [done|by intros [_ ?]%Hc3]]).
  destruct flt as [| |k].
  2,3: destruct (Close _) as [rc [fc dc]] eqn:Ec; apply Close_files in Ec as [Ef Ec]; injection H as <- <-; cbn;
    rewrite Ef, Hf3, Hl2; split_and!; auto; (eapply frame_trans; [exact F3|by apply frame_same]).
  set (d4 := set_file (indexName (Sprintf020d base)) [] d3) in *.
  assert (F4 : frame base (dir e) d4).
  { eapply frame_trans; [exact F3|]. eapply frame_write; [right; reflexivity|done|done]. }
  assert (L4 : local (dir (mkEnv d4 (cold e))) (scanning base base 0 0 0) [] [] []).
  { split; try done; cbn.
    - by rewrite Z.add_0_r.
    - rewrite lookup_insert_ne, Hf3 by apply not_eq_sym, logName_indexName. done.
    - by rewrite lookup_insert_eq. }
  change (mkSegment base base 0 _ _ false "") with (scanning base base 0 0 0) in H.
  destruct (rebuildIndex _) as [r5 [s5 e5]] eqn:E5.
  destruct (rebuildIndex_empty _ _ _ _ _ L4 E5) as (L5 & F5 & C5 & B5).
  pose proof (frame_trans _ _ _ _ F4 F5) as F45. cbn in B5. pose proof (lc_log _ _ _ _ _ L5) as Hl5. rewrite B5 in Hl5.
  destruct r5 as [[]|msg]; [injection H as <- <-; split_and!; auto|].
  destruct (Close (logFile s5, dir e5)) as [rc [fc dc]] eqn:Ec. apply Close_files in Ec as [Ef Ec].
  destruct (Close (indexFile s5, dc)) as [rc' [fc' dc']] eqn:Ec'. apply Close_files in Ec' as [Ef' Ec'].
  injection H as <- <-. cbn. rewrite Ef', Ef, Hl5. split_and!; auto.
  eapply frame_trans; [exact F45|]. apply frame_same; [congruence|auto].
Qed.

End recover.
