(* ===== verification/SegmentLog.v ===== *)
(** The append-only log ([storage/log.go], [storage/tiering.go]): a list of
    segments of which the last is active, with appending, rolling, reading,
    retention and tiering. *)
From S2P Require Import Prelude GoLib Files Cold Segment.
#[local] Open Scope Z_scope.

Definition defaultMaxSegmentBytes : Z := 4 * 1024 * 1024.

(** [active] aliases the last element of the code's [segments] slice, so it is
    stored once, after the [closed] ones.  [tiering] says whether
    [EnableTiering] has been called; the store itself is in the environment. *)
Record Log := mkLog {
  maxSegmentBytes : Z;
  closed : list segment;
  active : segment;
  tiering : bool
}.

Definition segments (l : Log) : list segment := closed l ++ [active l].

Definition set_active (s : segment) (l : Log) : Log := mkLog (maxSegmentBytes l) (closed l) s (tiering l).
Definition set_closed (ss : list segment) (l : Log) : Log := mkLog (maxSegmentBytes l) ss (active l) (tiering l).

(** [os.MkdirAll] on the log's directory. *)
Definition MkdirAll : M Dir unit := fun d =>
  let '(f, d) := next_fault d in
  match f with Fine => (Ok tt, d) | _ => (Err "mkdir", d) end.

(** The base offset in a file name, if it is the name of a segment's log. *)
Definition baseOfName (name : string) : option Z :=
  if negb (HasSuffix name ".log") then None else Atoi (TrimSuffix name ".log").

Definition discoverSegments : M Dir (list Z) :=
  entries ← ReadDir;
  mret (Ints (remove_dups (omap baseOfName entries))).

Section log.
Context {C : Type} `{ColdStore C}.

Definition in_dir {A} (op : M Dir A) : M (Env C) A := fun e =>
  let '(r, d) := op (dir e) in (r, mkEnv d (cold e)).

(** The loop of [Open] over the base offsets. *)
Fixpoint openAll (bases : list Z) : M (Env C) (list segment) :=
  match bases with
  | [] => mret []
  | base :: bases =>
      s ← openSegment base;
      ss ← openAll bases;
      mret (s :: ss)
  end.

Definition Open (maxBytes : Z) : M (Env C) Log :=
  let maxBytes := if maxBytes <=? 0 then defaultMaxSegmentBytes else maxBytes in
  _ ← in_dir MkdirAll;
  baseOffsets ← in_dir discoverSegments;
  let baseOffsets := match baseOffsets with [] => [0] | _ => baseOffsets end in
  ss ← openAll baseOffsets;
  match last ss with
  | Some s => mret (mkLog maxBytes (removelast ss) s false)
  | None => fail "unreachable: no segment"
  end.

(** Code of a log. *)
Definition LogM (A : Type) := M (Log * Env C) A.

Definition on_active {A} (op : Seg A) : LogM A := fun '(l, e) =>
  let '(r, (s, e)) := op (active l, e) in (r, (set_active s l, e)).

Definition roll : LogM unit := fun '(l, e) =>
  match openSegment (nextOffset (active l)) e with
  | (Err msg, e) => (Err msg, (l, e))
  | (Ok s, e) => (Ok tt, (mkLog (maxSegmentBytes l) (closed l ++ [active l]) s (tiering l), e))
  end.

Definition Append (payload : bytes) : LogM Z :=
  '(l, _) ← get;
  let needed := lenPrefixSize + zlen payload in
  _ ← (if (maxSegmentBytes l <? size (active l) + needed) && (0 <? size (active l))
       then roll else mret tt);
  on_active (append payload).

(** [findSegment]: the index of the segment that covers [offset]; the outer
    [option] is a panic of the search's predicate. *)
Definition findSegment (l : Log) (offset : Z) : option (option Z) :=
  r ← Search (zlen (segments l)) (fun i => s ← (segments l) @[i]; Some (offset <? baseOffset s));
  let idx := r - 1 in
  if (idx <? 0) || (zlen (segments l) <=? idx) then Some None
  else
    seg ← (segments l) @[idx];
    if (offset <? baseOffset seg) || (nextOffset seg <=? offset) then Some None else Some (Some idx).

(** The [i]-th segment replaced. *)
Definition set_segment (i : Z) (s : segment) (l : Log) : Log :=
  if i <? zlen (closed l) then set_closed (<[Z.to_nat i := s]> (closed l)) l else set_active s l.

Definition on_segment {A} (i : Z) (op : Seg A) : LogM A := fun '(l, e) =>
  match (segments l) @[i] with
  | Some s => let '(r, (s, e)) := op (s, e) in (r, (set_segment i s l, e))
  | None => (Err "panic: index out of range", (l, e))
  end.

Definition Read (offset : Z) : LogM bytes :=
  '(l, _) ← get;
  match findSegment l offset with
  | None => fail "panic: index out of range"
  | Some None => fail "offset not found"
  | Some (Some i) => on_segment i (read offset)
  end.

Definition NextOffset (l : Log) : Z := nextOffset (active l).

(** [l.segments[0].baseOffset]. *)
Definition OldestOffset (l : Log) : Z :=
  match closed l with s :: _ => baseOffset s | [] => baseOffset (active l) end.

(** The loop of [Compact] over the segments to remove; the ones already visited
    keep what [remove] did to them. *)
Fixpoint removeAll (ss : list segment) (e : Env C) : res unit * (list segment * Env C) :=
  match ss with
  | [] => (Ok tt, ([], e))
  | s :: ss =>
      match remove (s, e) with
      | (Err msg, (s, e)) => (Err msg, (s :: ss, e))
      | (Ok _, (s, e)) => let '(r, (ss, e)) := removeAll ss e in (r, (s :: ss, e))
      end
  end.

Definition Compact (keepSegments : Z) : LogM unit := fun '(l, e) =>
  let keepSegments := if keepSegments <? 1 then 1 else keepSegments in
  let toRemove := zlen (segments l) - keepSegments in
  if toRemove <=? 0 then (Ok tt, (l, e))
  else
    let n := Z.to_nat toRemove in
    match removeAll (take n (closed l)) e with
    | (Err msg, (ss, e)) => (Err msg, (set_closed (ss ++ drop n (closed l)) l, e))
    | (Ok _, (_, e)) => (Ok tt, (set_closed (drop n (closed l)) l, e))
    end.

Definition SegmentCount (l : Log) : Z := zlen (segments l).

Definition EnableTiering : LogM unit := modify (fun '(l, e) =>
  (mkLog (maxSegmentBytes l) (closed l) (active l) true, e)).

(** The loop of [TierSegments] over the closed segments: how many were tiered
    and the error that stopped it, if any. *)
Fixpoint tierAll (ss : list segment) (tiered_ : Z) (e : Env C)
  : Z * res unit * (list segment * Env C) :=
  match ss with
  | [] => (tiered_, Ok tt, ([], e))
  | s :: ss =>
      if tiered s then
        let '(n, r, (ss, e)) := tierAll ss tiered_ e in (n, r, (s :: ss, e))
      else
        match tierOut (Sprintf020d (baseOffset s)) (s, e) with
        | (Err _, (s, e)) => (tiered_, Err "tier segment", (s :: ss, e))
        | (Ok _, (s, e)) =>
            let '(n, r, (ss, e)) := tierAll ss (tiered_ + 1) e in (n, r, (s :: ss, e))
        end
  end.

(** [TierSegments]: the count and the error. *)
Definition TierSegments (st : Log * Env C) : Z * res unit * (Log * Env C) :=
  let '(l, e) := st in
  if negb (tiering l) then (0, Err "tiering not enabled", (l, e))
  else let '(n, r, (ss, e)) := tierAll (closed l) 0 e in (n, r, (set_closed ss l, e)).

(** The loop of [Close]. *)
Fixpoint closeAll (ss : list segment) (e : Env C) : res unit * (list segment * Env C) :=
  match ss with
  | [] => (Ok tt, ([], e))
  | s :: ss =>
      match close (s, e) with
      | (Err msg, (s, e)) => (Err msg, (s :: ss, e))
      | (Ok _, (s, e)) => let '(r, (ss, e)) := closeAll ss e in (r, (s :: ss, e))
      end
  end.

Definition CloseLog : LogM unit := fun '(l, e) =>
  match closeAll (closed l) e with
  | (Err msg, (ss, e)) => (Err msg, (set_closed ss l, e))
  | (Ok _, (ss, e)) =>
      let '(r, (s, e)) := close (active l, e) in (r, (set_active s (set_closed ss l), e))
  end.

End log.
