(* ===== verification/LogProof.v ===== *)
(** The log against its abstract specification: a base offset and the list of
    records from it on.  Every operation is shown to act on that list, also
    when the operating system or the cold store fails. *)
From S2P Require Import Prelude GoLib Files Cold Segment SegmentFormat SegmentProof SegmentRecover SegmentLog.
#[local] Open Scope Z_scope.

(** The abstract log. *)
Record alog := mkAlog { oldest : Z; records : list bytes }.

Section rep.
Context {C : Type} `{CS : ColdStore C} `{CSO : !ColdStoreOk C}.
Implicit Types (e : Env C) (l : Log).

(** Tiered segments are under the key made of their base offset. *)
Definition keyed (s : segment) : Prop := tiered s = true -> coldKey s = Sprintf020d (baseOffset s).

(** Closed segments from offset [b] on, holding [rs]. *)
Fixpoint chain e (b : Z) (ss : list segment) (rs : list (list bytes)) : Prop :=
  match ss, rs with
  | [], [] => True
  | s :: ss, r :: rs =>
      baseOffset s = b /\ r <> [] /\ stored e s r /\ keyed s /\ chain e (b + zlen r) ss rs
  | _, _ => False
  end.

(** No file of a later segment than the active one has any content. *)
Definition fresh (d : Dir) (s : segment) : Prop :=
  forall n, nextOffset s <= n < 2 ^ 63 -> n <> baseOffset s ->
    files d !! logName (Sprintf020d n) = None \/ files d !! logName (Sprintf020d n) = Some [].

(** The log represents [a]; [g] and [gi] are what failed appends left in the
    active segment. *)
Record log_rep e l (a : alog) (g gi : bytes) : Prop := {
  lr_old : 0 <= oldest a;
  lr_bound : oldest a + zlen (records a) < 2 ^ 63;
  lr_max : 0 < maxSegmentBytes l <= 2 ^ 32;
  lr_segs : exists rs ra, chain e (oldest a) (closed l) rs /\
    baseOffset (active l) = oldest a + zlen (concat rs) /\
    local (dir e) (active l) ra g gi /\ records a = concat rs ++ ra;
  lr_fresh : fresh (dir e) (active l)
}.

(** ** Frames *)

Lemma names_differ b b' :
  0 <= b < 2 ^ 63 -> 0 <= b' < 2 ^ 63 -> b <> b' ->
  logName (Sprintf020d b) <> logName (Sprintf020d b') /\
  indexName (Sprintf020d b) <> indexName (Sprintf020d b') /\ Sprintf020d b <> Sprintf020d b'.
Proof.
  intros Hb Hb' Hne. assert (Sprintf020d b <> Sprintf020d b') by (by intros ?%Sprintf020d_inj).
  split_and!; [by intros ?%logName_inj|by intros ?%indexName_inj|done].
Qed.

Lemma local_frame d d' s recs g gi b :
  local d s recs g gi -> frame b d d' -> 0 <= baseOffset s < 2 ^ 63 -> 0 <= b < 2 ^ 63 -> b <> baseOffset s ->
  local d' s recs g gi.
Proof.
  intros [] [F _] Hs Hb Hne. destruct (names_differ (baseOffset s) b Hs Hb ltac:(done)) as (N1 & N2 & _).
  split; try done; rewrite F; try done; [apply logName_indexName|apply not_eq_sym, logName_indexName].
Qed.

Lemma stored_own e e' s recs b :
  stored e s recs -> keyed s -> own b (Sprintf020d b) e e' ->
  0 <= baseOffset s < 2 ^ 63 -> 0 <= b < 2 ^ 63 -> b <> baseOffset s -> stored e' s recs.
Proof.
  intros [(g & gi & L)|(g & gi & [])] Hk [F Hh] Hs Hb Hne; [left|right]; exists g, gi.
  - by eapply local_frame.
  - split; try done. apply Hh; [|done]. rewrite Hk by done.
    by destruct (names_differ (baseOffset s) b Hs Hb ltac:(done)) as (_ & _ & ?).
Qed.

Lemma chain_own e e' b' : forall ss rs b,
  chain e b ss rs -> own b' (Sprintf020d b') e e' -> 0 <= b -> 0 <= b' < 2 ^ 63 ->
  b + zlen (concat rs) <= b' \/ b' < b -> b + zlen (concat rs) < 2 ^ 63 -> chain e' b ss rs.
Proof.
  induction ss as [|s ss IH]; intros [|r rs] b; cbn; try done.
  intros (Hb & Hr & Hst & Hk & Hc) Ho Hb0 Hb' Hor Hlt. rewrite zlen_app in *.
  assert (0 < zlen r) by (destruct r; [done|rewrite zlen_cons; pose proof (zlen_nonneg r); lia]).
  pose proof (zlen_nonneg (concat rs)). split_and!; try done.
  - eapply stored_own; [done|done|done|lia|lia|lia].
  - apply IH; [done|done|lia|lia|lia|lia].
Qed.

Lemma chain_same e e' : same_env e e' -> forall ss rs b, chain e b ss rs -> chain e' b ss rs.
Proof.
  intros Hs. induction ss as [|s ss IH]; intros [|r rs] b; cbn; try done.
  intros (? & ? & ? & ? & ?). split_and!; try done; [by eapply stored_same|auto].
Qed.

Lemma chain_snoc e s r : forall ss rs b,
  chain e b ss rs -> baseOffset s = b + zlen (concat rs) -> r <> [] -> stored e s r -> keyed s ->
  chain e b (ss ++ [s]) (rs ++ [r]).
Proof.
  induction ss as [|s0 ss IH]; intros [|r0 rs] b; cbn; try done.
  - intros _ Hb Hr Hst Hk. rewrite zlen_nil, Z.add_0_r in Hb. by split_and!.
  - intros (? & ? & ? & ? & Hc) Hb Hr Hst Hk. split_and!; try done.
    apply IH; try done. rewrite Hb, zlen_app. lia.
Qed.

(** Looking up a closed segment. *)
Lemma chain_lookup e : forall ss rs b k s,
  chain e b ss rs -> ss !! k = Some s ->
  exists r, rs !! k = Some r /\ baseOffset s = b + zlen (concat (take k rs)) /\ stored e s r.
Proof.
  induction ss as [|s0 ss IH]; intros [|r0 rs] b [|k] s; cbn; try done.
  - intros (? & ? & ? & ? & ?) [= ->]. exists r0. rewrite zlen_nil, Z.add_0_r. done.
  - intros (? & ? & ? & ? & Hc) Hk. destruct (IH rs _ k s Hc Hk) as (r & ? & Hb & ?). exists r.
    split_and!; try done. rewrite Hb, zlen_app. lia.
Qed.

Lemma chain_len e : forall ss rs b, chain e b ss rs -> length ss = length rs.
Proof. induction ss as [|s ss IH]; intros [|r rs] b; cbn; try done. intros (_ & _ & _ & _ & H). f_equal. eauto. Qed.

(** All segments at once: [rs] are the records of [segments l] in order. *)
Record layout e l (b : Z) (rs : list (list bytes)) : Prop := {
  ly_len : length rs = length (segments l);
  ly_at : forall k s, (segments l) !! k = Some s ->
    exists r, rs !! k = Some r /\ baseOffset s = b + zlen (concat (take k rs)) /\ stored e s r
}.

Lemma log_rep_layout e l a g gi :
  log_rep e l a g gi -> exists rs, layout e l (oldest a) rs /\ records a = concat rs.
Proof.
  intros [Ho Hlt Hm (rs & ra & Hc & Hb & L & Hr) Hf]. exists (rs ++ [ra]).
  rewrite concat_app. cbn. rewrite app_nil_r. split; [|done]. pose proof (chain_len _ _ _ _ Hc) as Hlen.
  split; unfold segments.
  - rewrite !length_app. cbn. lia.
  - intros k s Hk. apply lookup_snoc_Some in Hk as [[Hk Hs]|[-> <-]].
    + destruct (chain_lookup _ _ _ _ _ _ Hc Hs) as (r & Hr' & Hbs & Hst). exists r.
      rewrite lookup_app_l, take_app_le by lia. done.
    + exists ra. rewrite Hlen, take_app_length, lookup_app_r, Nat.sub_diag by lia.
      split_and!; [done|done|]. left. eauto.
Qed.

Lemma concat_take_le {A} (rs : list (list A)) j k :
  (j <= k)%nat -> zlen (concat (take j rs)) <= zlen (concat (take k rs)).
Proof.
  intros H. replace k with (j + (k - j))%nat by lia. rewrite <- take_take_drop, concat_app, zlen_app.
  pose proof (zlen_nonneg (concat (take (k - j) (drop j rs)))). lia.
Qed.

Lemma concat_take_S {A} (rs : list (list A)) k r :
  rs !! k = Some r -> zlen (concat (take (S k) rs)) = zlen (concat (take k rs)) + zlen r.
Proof. intros H. rewrite (take_S_r _ _ _ H), concat_app, zlen_app. cbn. by rewrite app_nil_r. Qed.

Lemma concat_at {A} (rs : list (list A)) k r j :
  rs !! k = Some r -> 0 <= j < zlen r -> (concat rs) @[zlen (concat (take k rs)) + j] = r @[j].
Proof.
  intros H Hj. rewrite <- (take_drop_middle rs k r H) at 1. rewrite concat_app. cbn.
  rewrite zget_app_r by lia. replace (_ + j - _) with j by lia. by rewrite zget_app_l by lia.
Qed.

Lemma set_segment_same l i s : (segments l) @[i] = Some s -> set_segment i s l = l.
Proof.
  intros E. pose proof (zget_bounds _ _ _ E) as Hb. unfold set_segment, segments in *.
  rewrite zlen_app in Hb. change (zlen [active l]) with 1 in Hb. unfold zget in E.
  rewrite (proj2 (Z.ltb_ge i 0)) in E by lia. destruct (Z.ltb_spec i (zlen (closed l))).
  - rewrite lookup_app_l in E by (unfold zlen in *; lia). rewrite list_insert_id by done. by destruct l.
  - rewrite lookup_app_r in E by (unfold zlen in *; lia).
    replace (Z.to_nat i - length (closed l))%nat with 0%nat in E by (unfold zlen in *; lia).
    injection E as <-. by destruct l.
Qed.

(** [findSegment] finds the segment that covers an offset of the log and nothing
    else; its binary search never leaves the slice. *)
Lemma findSegment_spec e l b rs off :
  layout e l b rs ->
  match findSegment l off with
  | None => False
  | Some None => off < b \/ b + zlen (concat rs) <= off
  | Some (Some i) => exists s r, (segments l) @[i] = Some s /\ stored e s r /\ 0 <= off - baseOffset s < zlen r /\
      (concat rs) @[off - b] = r @[off - baseOffset s]
  end.
Proof.
  intros [Hlen Hat]. unfold findSegment. set (n := zlen (segments l)).
  assert (Hn : n = zlen rs) by (unfold n, zlen; lia).
  set (base := fun k => b + zlen (concat (take (Z.to_nat k) rs))).
  assert (Hseg : forall k, 0 <= k < n -> exists s r, (segments l) @[k] = Some s /\ baseOffset s = base k /\
            rs !! Z.to_nat k = Some r /\ stored e s r).
  { intros k Hk. destruct (zget_Some (segments l) k) as [s Hs]; [done|].
    assert (Hs' := Hs). unfold zget in Hs'. rewrite (proj2 (Z.ltb_ge _ _)) in Hs' by lia.
    destruct (Hat _ _ Hs') as (r & ? & ? & ?). by exists s, r. }
  destruct (Search_spec (fun i => s ← (segments l) @[i]; Some (off <? baseOffset s)) (fun k => off <? base k) n)
    as (r & -> & Hr & Hlo & Hhi).
  { apply zlen_nonneg. }
  { intros k Hk. destruct (Hseg k Hk) as (s & r & -> & <- & _). done. }
  { intros k k' Hk Hk' Hp. apply Z.ltb_lt in Hp. apply Z.ltb_lt. unfold base in *.
    pose proof (concat_take_le rs (Z.to_nat k) (Z.to_nat k') ltac:(lia)). lia. }
  cbn [mbind option_bind].
  assert (1 <= n) by (unfold n, segments; rewrite zlen_app; pose proof (zlen_nonneg (closed l)); change (zlen [active l]) with 1; lia).
  destruct (decide (r = 0)) as [->|Hr0].
  { cbn. left. specialize (Hhi 0 ltac:(lia)). apply Z.ltb_lt in Hhi. unfold base in Hhi.
    change (zlen (concat (take (Z.to_nat 0) rs))) with 0 in Hhi. lia. }
  rewrite (proj2 (Z.ltb_ge _ _)), (proj2 (Z.leb_gt _ _)) by lia. cbn [orb].
  destruct (Hseg (r - 1) ltac:(lia)) as (s & rr & Es & Hb & Hrr & Hst). rewrite Es. cbn [mbind option_bind].
  specialize (Hlo (r - 1) ltac:(lia)). apply Z.ltb_ge in Hlo. destruct (stored_next _ _ _ Hst) as [Hnx _].
  rewrite (proj2 (Z.ltb_ge off (baseOffset s))) by lia. cbn [orb].
  assert (Hbr : base r = nextOffset s).
  { unfold base in *. replace (Z.to_nat r) with (S (Z.to_nat (r - 1))) by lia.
    rewrite (concat_take_S _ _ _ Hrr). lia. }
  case_test.
  - right. destruct (decide (r < n)) as [Hrn|].
    { specialize (Hhi r ltac:(lia)). apply Z.ltb_lt in Hhi. lia. }
    unfold base in Hbr. rewrite take_ge in Hbr by (unfold zlen in *; lia). lia.
  - exists s, rr. split_and!; [done|done|lia|lia|].
    rewrite <- (concat_at rs (Z.to_nat (r - 1)) rr (off - baseOffset s) Hrr) by lia.
    f_equal. unfold base in Hb. lia.
Qed.

(** ** Reading *)

(** [Read] returns exactly the record at an offset of the log; elsewhere it
    reports an error.  It changes nothing. *)
Lemma Read_spec e l a g gi off r l' e' :
  log_rep e l a g gi -> Read off (l, e) = (r, (l', e')) ->
  same_env e e' /\ l' = l /\
  match (records a) @[off - oldest a] with
  | Some p => (r = Ok p \/ exists err, r = Err err) /\ (quiet_env e -> r = Ok p)
  | None => r = Err "offset not found"
  end.
Proof.
  intros HR H. destruct (log_rep_layout _ _ _ _ _ HR) as (rs & HL & Hrec).
  unfold Read, mbind, M_bind in H. cbn [get] in H.
  pose proof (findSegment_spec _ _ _ _ off HL) as Hfind. rewrite Hrec.
  destruct (findSegment l off) as [[i|]|]; [| |done].
  2:{ injection H as <- <- <-. split; [apply same_env_refl|]. split; [done|].
      destruct ((concat rs) @[off - oldest a]) as [p|] eqn:E; [|done]. apply zget_bounds in E. lia. }
  destruct Hfind as (s & rr & Es & Hst & Hin & Hat). unfold on_segment in H. rewrite Es in H.
  destruct (read off (s, e)) as [r1 [s1 e1]] eqn:Er.
  destruct (read_spec _ _ _ _ _ _ _ Hst Er) as (-> & Hse & Hres). injection H as <- <- <-.
  split; [done|]. split; [by apply set_segment_same|]. rewrite Hat.
  destruct (zget_Some rr (off - baseOffset s) Hin) as [p Ep]. by rewrite Ep in *.
Qed.

(** ** Appending *)

Lemma fresh_frame d d' s b :
  fresh d s -> frame b d d' -> 0 <= b < nextOffset s \/ b = baseOffset s -> 0 <= b < 2 ^ 63 -> 0 <= nextOffset s ->
  fresh d' s.
Proof.
  intros Hf [F _] Hb Hb63 H0 n Hn Hne.
  destruct (names_differ n b) as (N & _); [lia|done| |].
  - destruct Hb; lia.
  - rewrite F; [by apply Hf|done|apply logName_indexName].
Qed.

(** An append to the active segment. *)
Lemma append_active e l a g gi p r s' e' :
  log_rep e l a g gi -> append p (active l, e) = (r, (s', e')) ->
  (calm (dir e) -> is_ok r = true /\ calm (dir e')) /\ cold e' = cold e /\
  match r with
  | Err _ => exists g' gi', log_rep e' (set_active s' l) a g' gi'
  | Ok off => off = oldest a + zlen (records a) /\
      (g = [] -> gi = [] -> zlen p < 2 ^ 32 -> size (active l) < 2 ^ 32 ->
       oldest a + zlen (records a) + 1 < 2 ^ 63 ->
       log_rep e' (set_active s' l) (mkAlog (oldest a) (records a ++ [p])) [] [])
  end.
Proof.
  intros [Ho Hlt Hm (rs & ra & Hc & Hb & L & Hr) Hf] H.
  destruct (append_spec _ _ _ _ _ _ _ _ _ L H) as (F & Ec & Eb & Hcm & Hres).
  split; [intros Hd; split; [auto|by apply F]|]. split; [done|].
  pose proof (zlen_nonneg (concat rs)). pose proof (zlen_nonneg ra).
  assert (Hlen : zlen (records a) = zlen (concat rs) + zlen ra) by (by rewrite Hr, zlen_app).
  assert (Hc' : chain e' (oldest a) (closed l) rs).
  { eapply chain_own; [exact Hc| |done| |left; rewrite <- Hb; reflexivity|lia]; [|lia].
    split; [exact F|]. by rewrite Ec. }
  assert (Hnx : nextOffset (active l) = oldest a + zlen (records a)) by (rewrite (lc_next _ _ _ _ _ L); lia).
  destruct r as [off|msg].
  - destruct Hres as [-> Hok]. split; [done|]. intros -> -> Hp Hsz Hb63.
    assert (L' : local (dir e') s' (ra ++ [p]) [] []).
    { apply Hok; [done|done|]. apply fits_snoc; [apply (lc_fits _ _ _ _ _ L)|done|].
      by rewrite <- (lc_size _ _ _ _ _ L). }
    split; cbn; try done; [rewrite zlen_snoc; lia| |].
    + exists rs, (ra ++ [p]). split_and!; [done|congruence|done|]. by rewrite Hr, app_assoc.
    + intros n Hn Hne. rewrite (lc_next _ _ _ _ _ L'), zlen_snoc in Hn.
      apply (fresh_frame _ _ _ _ Hf F); [by right|lia|lia|lia|congruence].
  - destruct Hres as (g' & gi' & L'). exists g', gi'. split; cbn; try done.
    + exists rs, ra. split_and!; [done|congruence|done|done].
    + intros n Hn Hne. apply (fresh_frame _ _ _ _ Hf F); [by right|lia|lia| |congruence].
      rewrite (lc_next _ _ _ _ _ L') in Hn. rewrite (lc_next _ _ _ _ _ L). congruence.
Qed.

(** [roll] starts an empty segment at the next offset; when it fails the log is
    unchanged. *)
Lemma roll_spec e l a g gi r l' e' :
  log_rep e l a g gi -> 0 < size (active l) -> roll (l, e) = (r, (l', e')) ->
  cold e' = cold e /\ (calm (dir e) -> r = Ok tt /\ calm (dir e')) /\
  match r with
  | Ok _ => log_rep e' l' a [] [] /\ size (active l') = 0
  | Err _ => log_rep e' l' a g gi
  end.
Proof.
  intros [Ho Hlt Hm (rs & ra & Hc & Hb & L & Hr) Hf] Hsz H. unfold roll in H.
  destruct (openSegment (nextOffset (active l)) e) as [r1 e1] eqn:E.
  pose proof (zlen_nonneg (concat rs)). pose proof (zlen_nonneg ra).
  assert (Hlen : zlen (records a) = zlen (concat rs) + zlen ra) by (by rewrite Hr, zlen_app).
  pose proof (lc_next _ _ _ _ _ L) as Hnx. pose proof (lc_size _ _ _ _ _ L) as Hsize.
  assert (Hra : ra <> []) by (intros ->; rewrite Hsize in Hsz; exact (Z.lt_irrefl 0 Hsz)).
  assert (0 < zlen ra) by (destruct ra; [done|rewrite zlen_cons; pose proof (zlen_nonneg ra); lia]).
  destruct (openSegment_empty (nextOffset (active l)) e r1 e1) as (F & Ec & Hl1 & Hcm & Hres); [|done|].
  { apply Hf; lia. }
  assert (Hc1 : chain e1 (oldest a) (closed l) rs).
  { apply (chain_own e e1 (nextOffset (active l))); [exact Hc| |done|lia|left; lia|lia].
    split; [exact F|]. by rewrite Ec. }
  assert (L1 : local (dir e1) (active l) ra g gi) by (eapply local_frame; [done|done|lia|lia|lia]).
  assert (Hfr : forall n, nextOffset (active l) < n < 2 ^ 63 ->
    files (dir e1) !! logName (Sprintf020d n) = None \/ files (dir e1) !! logName (Sprintf020d n) = Some []).
  { intros n Hn. destruct (names_differ n (nextOffset (active l))) as (N & _); [lia..|].
    rewrite (proj1 F); [apply Hf; lia|done|apply logName_indexName]. }
  destruct r1 as [s|msg]; injection H as <- <- <-.
  - destruct Hres as [Hbs Ls]. split_and!; [done|intros Hd; split; [done|by apply F]| |exact (lc_size _ _ _ _ _ Ls)].
    split; cbn; try done.
    + exists (rs ++ [ra]), []. rewrite concat_app, app_nil_r. cbn. rewrite app_nil_r.
      split_and!; [|rewrite zlen_app; lia|done|done].
      apply chain_snoc; [done|done|done|left; eauto|]. intros E1. by rewrite (lc_tiered _ _ _ _ _ L) in E1.
    + intros n Hn Hne. rewrite (lc_next _ _ _ _ _ Ls), Hbs in Hn. apply Hfr. rewrite Hbs in Hne. rewrite zlen_nil in Hn. lia.
  - split_and!; [done|intros Hd; by specialize (Hcm Hd)|].
    split; try done; [by exists rs, ra|]. intros n Hn Hne.
    destruct (decide (n = nextOffset (active l))) as [->|]; [done|]. apply Hfr. lia.
Qed.

(** [Append] whatever fails: an error loses nothing, and a success on a log
    without garbage adds the record at the next offset. *)
Lemma Append_spec e l a g gi p r l' e' :
  log_rep e l a g gi -> Append p (l, e) = (r, (l', e')) ->
  cold e' = cold e /\ (calm (dir e) -> is_ok r = true /\ calm (dir e')) /\
  match r with
  | Err _ => exists g' gi', log_rep e' l' a g' gi'
  | Ok off => off = oldest a + zlen (records a) /\
      (g = [] -> gi = [] -> zlen p < 2 ^ 32 -> oldest a + zlen (records a) + 1 < 2 ^ 63 ->
       log_rep e' l' (mkAlog (oldest a) (records a ++ [p])) [] [])
  end.
Proof.
  intros HR H. unfold Append, mbind, M_bind in H. cbn [get] in H.
  pose proof (lr_max _ _ _ _ _ HR) as Hmax.
  destruct ((maxSegmentBytes l <? _) && _) eqn:Eroll.
  - apply andb_true_iff in Eroll as [_ Hsz%Z.ltb_lt].
    destruct (roll (l, e)) as [r1 [l1 e1]] eqn:E1.
    destruct (roll_spec _ _ _ _ _ _ _ _ HR Hsz E1) as (C1 & Q1 & HR1).
    destruct r1 as [[]|msg].
    2:{ injection H as <- <- <-. split_and!; [done|by intros [? ?]%Q1|eauto]. }
    destruct HR1 as [HR1 Hs1]. unfold on_active in H.
    destruct (append p (active l1, e1)) as [r2 [s2 e2]] eqn:E2. injection H as <- <- <-.
    destruct (append_active _ _ _ _ _ _ _ _ _ HR1 E2) as (Q2 & C2 & Hres).
    split_and!; [congruence|intros [_ ?]%Q1; auto|]. destruct r2; [|done].
    destruct Hres as [Hoff Hok]. split; [done|]. intros _ _ Hp Hb. apply Hok; try done. by rewrite Hs1.
  - cbn in H. unfold on_active in H.
    destruct (append p (active l, e)) as [r2 [s2 e2]] eqn:E2. injection H as <- <- <-.
    destruct (append_active _ _ _ _ _ _ _ _ _ HR E2) as (Q2 & C2 & Hres).
    split_and!; [done|done|]. destruct r2; [|done]. destruct Hres as [Hoff Hok]. split; [done|].
    intros Hg Hgi Hp Hb. apply Hok; try done. apply andb_false_iff in Eroll.
    pose proof (zlen_nonneg p). unfold lenPrefixSize in Eroll. lia.
Qed.

End rep.
