(* ===== verification/LogLifecycle.v ===== *)
(** The life cycle of a log: tiering out closed segments, dropping old ones, and
    reopening the directory after the process is gone. *)
From S2P Require Import Prelude GoLib Files Cold Segment SegmentFormat SegmentProof SegmentRecover SegmentLog LogProof.
#[local] Open Scope Z_scope.

Section lifecycle.
Context {C : Type} `{CS : ColdStore C} `{CSO : !ColdStoreOk C}.
Implicit Types (e : Env C) (l : Log).

(** Nothing that belongs to a segment outside [lo, hi) changed. *)
Record outside (lo hi : Z) e e' : Prop := {
  ou_log : forall n, 0 <= n < 2 ^ 63 -> n < lo \/ hi <= n ->
    files (dir e') !! logName (Sprintf020d n) = files (dir e) !! logName (Sprintf020d n);
  ou_index : forall n, 0 <= n < 2 ^ 63 -> n < lo \/ hi <= n ->
    files (dir e') !! indexName (Sprintf020d n) = files (dir e) !! indexName (Sprintf020d n);
  ou_holds : forall n k i, 0 <= n < 2 ^ 63 -> n < lo \/ hi <= n ->
    holds (cold e) (Sprintf020d n) k i -> holds (cold e') (Sprintf020d n) k i
}.

Lemma outside_refl lo hi e : outside lo hi e e.
Proof. by split. Qed.

Lemma outside_trans lo hi e1 e2 e3 : outside lo hi e1 e2 -> outside lo hi e2 e3 -> outside lo hi e1 e3.
Proof.
  intros [L1 I1 H1] [L2 I2 H2]. split; intros.
  - by rewrite L2, L1.
  - by rewrite I2, I1.
  - auto.
Qed.

Lemma outside_mono lo hi lo' hi' e e' :
  outside lo hi e e' -> lo' <= lo -> hi <= hi' -> outside lo' hi' e e'.
Proof. intros [L I H] ? ?. split; intros; (apply L || apply I || (eapply H; [done| |done])); (done || lia). Qed.

Lemma outside_frame b e e' :
  0 <= b < 2 ^ 63 -> frame b (dir e) (dir e') ->
  (forall k c i, k <> Sprintf020d b -> holds (cold e) k c i -> holds (cold e') k c i) ->
  outside b (b + 1) e e'.
Proof.
  intros Hb [F _] Hh. split; intros n; [| |intros k i]; intros Hn Hor;
    destruct (names_differ n b Hn Hb ltac:(lia)) as (N1 & N2 & N3).
  - apply F; [done|apply logName_indexName].
  - apply F; [apply not_eq_sym, logName_indexName|done].
  - by apply Hh.
Qed.

Lemma local_outside lo hi e e' s recs g gi :
  local (dir e) s recs g gi -> outside lo hi e e' -> 0 <= baseOffset s < 2 ^ 63 ->
  baseOffset s < lo \/ hi <= baseOffset s -> local (dir e') s recs g gi.
Proof. intros [] [Lo Li _] Hb Hor. split; try done; [by rewrite Lo|by rewrite Li]. Qed.

Lemma stored_outside lo hi e e' s recs :
  stored e s recs -> keyed s -> outside lo hi e e' -> 0 <= baseOffset s < 2 ^ 63 ->
  baseOffset s < lo \/ hi <= baseOffset s -> stored e' s recs.
Proof.
  intros [(g & gi & L)|(g & gi & [])] Hk Ho Hb Hor; [left|right]; exists g, gi.
  - by eapply local_outside.
  - split; try done. rewrite Hk in * by done. by eapply ou_holds.
Qed.

Lemma zlen_drop_nat {A} n (l : list A) : zlen (drop n l) = Z.of_nat (length l - n).
Proof. unfold zlen. by rewrite length_drop. Qed.

Lemma nonempty_pos {A} (r : list A) : r <> [] -> 0 < zlen r.
Proof. destruct r; [done|]. rewrite zlen_cons. pose proof (zlen_nonneg r). lia. Qed.

Lemma chain_outside lo hi e e' : outside lo hi e e' -> forall ss rs b,
  chain e b ss rs -> 0 <= b -> b + zlen (concat rs) < 2 ^ 63 ->
  b + zlen (concat rs) <= lo \/ hi <= b -> chain e' b ss rs.
Proof.
  intros Ho. induction ss as [|s ss IH]; intros [|r rs] b; cbn; try done.
  intros (Hb & Hr & Hst & Hk & Hc) Hb0 Hlt Hor. rewrite zlen_app in *.
  pose proof (nonempty_pos r Hr). pose proof (zlen_nonneg (concat rs)). split_and!; try done.
  - eapply stored_outside; [done..|lia|lia].
  - apply IH; [done|lia..].
Qed.

(** The records of a segment are where the segment says, or at least whole in
    the store under the segment's key. *)
Definition kept e (s : segment) (r : list bytes) : Prop :=
  stored e s r \/ exists g gi, holds (cold e) (Sprintf020d (baseOffset s)) (enc r ++ g) (index r ++ gi).

Fixpoint kept_chain e (b : Z) (ss : list segment) (rs : list (list bytes)) : Prop :=
  match ss, rs with
  | [], [] => True
  | s :: ss, r :: rs => baseOffset s = b /\ kept e s r /\ kept_chain e (b + zlen r) ss rs
  | _, _ => False
  end.

Lemma chain_kept e : forall ss rs b, chain e b ss rs -> kept_chain e b ss rs.
Proof.
  induction ss as [|s ss IH]; intros [|r rs] b; cbn; try done.
  intros (? & ? & ? & ? & ?). split_and!; [done|by left|auto].
Qed.

(** ** Tiering *)

Lemma tierAll_spec : forall ss rs b n0 e n r ss' e',
  chain e b ss rs -> 0 <= b -> b + zlen (concat rs) < 2 ^ 63 -> tierAll ss n0 e = (n, r, (ss', e')) ->
  outside b (b + zlen (concat rs)) e e' /\ kept_chain e' b ss' rs /\
  (r = Ok tt -> chain e' b ss' rs /\ forall s, s ∈ ss' -> tiered s = true) /\
  (quiet_env e -> r = Ok tt /\ quiet_env e').
Proof.
  induction ss as [|s ss IH]; intros [|rr rs] b n0 e n r ss' e'; cbn; try done.
  { intros _ _ _ [= <- <- <- <-]. split_and!; [apply outside_refl|done| |done].
    intros _. split; [done|]. by intros s ?%not_elem_of_nil. }
  intros (Hb & Hr & Hst & Hk & Hc) Hb0 Hlt H. rewrite zlen_app in *.
  pose proof (nonempty_pos rr Hr) as Hpos. pose proof (zlen_nonneg (concat rs)) as Hrs.
  destruct (tiered s) eqn:Et.
  - destruct (tierAll ss n0 e) as [[n1 r1] [ss1 e1]] eqn:E. injection H as <- <- <- <-.
    destruct (IH rs _ _ _ _ _ _ _ Hc ltac:(lia) ltac:(lia) E) as (O & K & R & Q).
    assert (Hst' : stored e1 s rr) by (eapply stored_outside; [done|done|exact O|lia|lia]).
    split_and!; [eapply outside_mono; [exact O|lia|lia]|split_and!; [done|by left|done]| |done].
    intros HR. destruct (R HR) as [Hc1 Ht]. split; [by split_and!|].
    intros x [->|?]%elem_of_cons; auto.
  - destruct Hst as [(g & gi & L)|(g & gi & [])]; [|congruence].
    destruct (tierOut (Sprintf020d (baseOffset s)) (s, e)) as [r0 [s0 e0]] eqn:E0.
    destruct (tierOut_spec _ _ _ _ _ _ _ _ _ L E0) as ([F Hh] & D & B & Rok & Q0).
    rewrite Hb in *. pose proof (outside_frame b _ _ ltac:(lia) F Hh) as O0.
    assert (Hc0 : chain e0 (b + zlen rr) ss rs) by (eapply chain_outside; [exact O0|done|lia|lia|lia]).
    destruct r0 as [[]|msg].
    + destruct (Rok eq_refl) as [Rm Hkey].
      destruct (tierAll ss (n0 + 1) e0) as [[n1 r1] [ss1 e1]] eqn:E. injection H as <- <- <- <-.
      destruct (IH rs _ _ _ _ _ _ _ Hc0 ltac:(lia) ltac:(lia) E) as (O & K & R & Q).
      assert (Hk0 : keyed s0) by (intros _; congruence).
      assert (Hst' : stored e1 s0 rr).
      { eapply stored_outside; [right; eauto|done|exact O|lia|lia]. }
      split_and!; [|split_and!; [congruence|by left|done]| |].
      * eapply outside_trans; [eapply outside_mono; [exact O0|lia|lia]|eapply outside_mono; [exact O|lia|lia]].
      * intros HR. destruct (R HR) as [Hc1 Ht]. split; [by split_and!|].
        intros x [->|?]%elem_of_cons; [apply (rm_tiered _ _ _ _ _ Rm)|auto].
      * intros [_ ?]%Q0. auto.
    + injection H as <- <- <- <-.
      split_and!; [eapply outside_mono; [exact O0|lia|lia]| |done|by intros [? _]%Q0].
      split_and!; [congruence| |by apply chain_kept].
      destruct D as [[-> Sf]|Hd]; [left; left; eauto using local_same|right]. rewrite B. eauto.
Qed.

(** [TierSegments]: success keeps the log's records readable; in every outcome
    every record is either where it was or whole in the store. *)
Lemma TierSegments_spec e l a g gi n r l' e' :
  log_rep e l a g gi -> TierSegments (l, e) = (n, r, (l', e')) ->
  (r = Ok tt -> log_rep e' l' a g gi /\ forall s, s ∈ closed l' -> tiered s = true) /\
  (exists rs ra, records a = concat rs ++ ra /\ kept_chain e' (oldest a) (closed l') rs /\
     local (dir e') (active l') ra g gi) /\
  (quiet_env e -> tiering l = true -> r = Ok tt /\ quiet_env e').
Proof.
  intros [Ho Hlt Hm (rs & ra & Hc & Hb & L & Hr) Hf] H. unfold TierSegments in H.
  destruct (tiering l); cbn in H.
  2:{ injection H as <- <- <- <-. split_and!; [done| |done]. exists rs, ra. split_and!; [done|by apply chain_kept|done]. }
  destruct (tierAll (closed l) 0 e) as [[n1 r1] [ss1 e1]] eqn:E. injection H as <- <- <- <-.
  pose proof (zlen_nonneg ra). assert (Hlen : zlen (records a) = zlen (concat rs) + zlen ra) by (by rewrite Hr, zlen_app).
  destruct (tierAll_spec _ _ _ _ _ _ _ _ _ Hc Ho ltac:(lia) E) as (O & K & R & Q).
  pose proof (zlen_nonneg (concat rs)).
  assert (L1 : local (dir e1) (active l) ra g gi) by (eapply local_outside; [done|exact O|lia|lia]).
  split_and!; [|by exists rs, ra|auto].
  intros HR. destruct (R HR) as [Hc1 Ht]. split; [|done]. split; cbn; try done; [by exists rs, ra|].
  intros m Hm' Hne. pose proof (lc_next _ _ _ _ _ L). rewrite (ou_log _ _ _ _ O) by lia. by apply Hf.
Qed.

(** ** Retention *)

Lemma chain_split e : forall ss1 ss2 rs b,
  chain e b (ss1 ++ ss2) rs ->
  exists rs1 rs2, rs = rs1 ++ rs2 /\ length rs1 = length ss1 /\ chain e b ss1 rs1 /\
    chain e (b + zlen (concat rs1)) ss2 rs2.
Proof.
  induction ss1 as [|s ss1 IH]; intros ss2 rs b; cbn.
  - intros Hc. exists [], rs. cbn. rewrite zlen_nil, Z.add_0_r. done.
  - destruct rs as [|r rs]; [done|]. intros (Hb & Hr & Hst & Hk & Hc).
    destruct (IH _ _ _ Hc) as (rs1 & rs2 & -> & Hl & Hc1 & Hc2).
    exists (r :: rs1), rs2. cbn. rewrite zlen_app, Z.add_assoc. split_and!; try done. by f_equal.
Qed.

Lemma removeAll_spec : forall ss rs b e,
  chain e b ss rs -> 0 <= b -> b + zlen (concat rs) < 2 ^ 63 -> quiet_env e ->
  exists ss' e', removeAll ss e = (Ok tt, (ss', e')) /\ outside b (b + zlen (concat rs)) e e' /\ quiet_env e' /\
    files (dir e') ⊆ files (dir e) /\
    (forall s, s ∈ ss -> tiered s = false -> files (dir e') !! logName (Sprintf020d (baseOffset s)) = None).
Proof.
  induction ss as [|s ss IH]; intros [|r rs] b e; cbn; try done.
  { intros _ _ _ Hq. exists [], e. split_and!; [done|apply outside_refl|done|done|]. by intros s ?%not_elem_of_nil. }
  intros (Hb & Hr & Hst & Hk & Hc) Hb0 Hlt Hq. rewrite zlen_app in *.
  pose proof (nonempty_pos r Hr) as Hpos. pose proof (zlen_nonneg (concat rs)) as Hrs.
  destruct (remove_spec _ _ _ Hst Hq) as (s1 & e1 & E1 & Q1 & F1 & H1 & Sub1 & N1). rewrite E1, Hb in *.
  assert (O1 : outside b (b + 1) e e1).
  { split; intros n; [| |intros k i]; intros Hn Hor; destruct (names_differ n b Hn ltac:(lia) ltac:(lia)) as (D1 & D2 & D3).
    - apply F1; [done|apply logName_indexName].
    - apply F1; [apply not_eq_sym, logName_indexName|done].
    - apply H1. intros Ht. rewrite (Hk Ht), Hb. done. }
  destruct (IH rs (b + zlen r) e1) as (ss2 & e2 & E2 & O2 & Q2 & Sub2 & N2);
    [eapply chain_outside; [exact O1|done|lia|lia|lia]|lia|lia|done|].
  rewrite E2. eexists _, _. split; [done|]. split_and!; [|done|by etransitivity|].
  - eapply outside_trans; [eapply outside_mono; [exact O1|lia|lia]|eapply outside_mono; [exact O2|lia|lia]].
  - intros x [->|Hx]%elem_of_cons Ht; [|auto]. rewrite Hb.
    rewrite (ou_log _ _ _ _ O2) by lia. auto.
Qed.

Lemma chain_take e m : forall ss rs b, chain e b ss rs ->
  chain e b (take m ss) (take m rs) /\ chain e (b + zlen (concat (take m rs))) (drop m ss) (drop m rs).
Proof.
  induction m as [|m IH]; intros ss rs b Hc.
  - rewrite !take_0, !drop_0. cbn. by rewrite zlen_nil, Z.add_0_r.
  - destruct ss as [|s ss], rs as [|r rs]; cbn in *; try done.
    destruct Hc as (? & ? & ? & ? & Hc). destruct (IH _ _ _ Hc). rewrite zlen_app, Z.add_assoc. by split_and!.
Qed.

(** [Compact] removes the first [m] closed segments. *)
Lemma Compact_parts e l b rs keep :
  chain e b (closed l) rs -> 0 <= b -> b + zlen (concat rs) < 2 ^ 63 -> quiet_env e ->
  exists e' m, Compact keep (l, e) = (Ok tt, (set_closed (drop m (closed l)) l, e')) /\ quiet_env e' /\
    (m <= length (closed l))%nat /\ SegmentCount l - Z.of_nat m = SegmentCount l `min` (keep `max` 1) /\
    outside b (b + zlen (concat (take m rs))) e e' /\ files (dir e') ⊆ files (dir e) /\
    (forall s, s ∈ take m (closed l) -> tiered s = false -> files (dir e') !! logName (Sprintf020d (baseOffset s)) = None).
Proof.
  intros Hc Hb Hlt Hq. unfold Compact.
  set (keep' := if keep <? 1 then 1 else keep). assert (Hkeep : keep' = keep `max` 1) by (unfold keep'; case_test; lia).
  assert (Hsc : SegmentCount l = zlen (closed l) + 1) by (unfold SegmentCount, segments; by rewrite zlen_snoc).
  fold (SegmentCount l). destruct (Z.leb_spec (SegmentCount l - keep') 0).
  { exists e, 0%nat. assert (set_closed (drop 0 (closed l)) l = l) as -> by (by destruct l).
    split_and!; [done|done|lia|lia|apply outside_refl|done|]. rewrite take_0. by intros s ?%not_elem_of_nil. }
  set (n := Z.to_nat (SegmentCount l - keep')).
  destruct (chain_take e n _ _ _ Hc) as [Hc1 Hc2].
  pose proof (concat_take_le rs n (length rs)) as Hle. rewrite firstn_all in Hle.
  assert (Hn : (n <= length (closed l))%nat) by (unfold n, zlen in *; lia).
  rewrite (chain_len _ _ _ _ Hc) in Hn. specialize (Hle Hn).
  destruct (removeAll_spec _ _ _ _ Hc1 Hb ltac:(lia) Hq) as (ss' & e' & -> & O & Q & Sub & N).
  exists e', n. rewrite (chain_len _ _ _ _ Hc). split_and!; try done. unfold n. lia.
Qed.

(** [Compact] drops whole segments from the old end, never the active one, and
    keeps every other record. *)
Lemma Compact_spec e l a g gi keep :
  log_rep e l a g gi -> quiet_env e ->
  exists l' e' k, Compact keep (l, e) = (Ok tt, (l', e')) /\ quiet_env e' /\
    0 <= k <= baseOffset (active l) - oldest a /\
    log_rep e' l' (mkAlog (oldest a + k) (drop (Z.to_nat k) (records a))) g gi /\
    SegmentCount l' = SegmentCount l `min` (keep `max` 1) /\ active l' = active l.
Proof.
  intros [Ho Hlt Hm (rs & ra & Hc & Hb & L & Hr) Hf] Hq.
  pose proof (zlen_nonneg (concat rs)). pose proof (zlen_nonneg ra).
  assert (Hlen : zlen (records a) = zlen (concat rs) + zlen ra) by (by rewrite Hr, zlen_app).
  destruct (Compact_parts e l (oldest a) rs keep Hc Ho ltac:(lia) Hq) as (e' & m & -> & Q & Hml & Hcount & O & Sub & N).
  destruct (chain_take e m _ _ _ Hc) as [_ Hc2].
  assert (Hsplit : concat rs = concat (take m rs) ++ concat (drop m rs)) by (by rewrite <- concat_app, take_drop).
  rewrite Hsplit, zlen_app in *. pose proof (zlen_nonneg (concat (take m rs))). pose proof (zlen_nonneg (concat (drop m rs))).
  exists (set_closed (drop m (closed l)) l), e', (zlen (concat (take m rs))).
  split_and!; [done|done|lia|lia| | |done].
  - split; cbn; try done; [lia| | |].
    + rewrite zlen_drop_nat. unfold zlen in *. lia.
    + exists (drop m rs), ra. split_and!.
      * eapply chain_outside; [exact O|done|lia|lia|lia].
      * lia.
      * eapply local_outside; [done|exact O|lia|lia].
      * rewrite Hr, <- app_assoc. unfold zlen. rewrite Nat2Z.id. by rewrite drop_app_length.
    + intros n Hn Hne. pose proof (lc_next _ _ _ _ _ L). rewrite (ou_log _ _ _ _ O) by lia. by apply Hf.
  - rewrite <- Hcount. unfold SegmentCount, segments. cbn. rewrite !zlen_snoc, zlen_drop_nat. unfold zlen. lia.
Qed.

End lifecycle.
