(* ===== verification/LogRecover.v ===== *)
(** Reopening a log: [Open] on the directory a process left behind finds every
    segment, in order, and recovers every record. *)
From S2P Require Import Prelude GoLib Files Cold Segment SegmentFormat SegmentProof SegmentRecover SegmentLog LogProof LogLifecycle.
#[local] Open Scope Z_scope.

(** The base offsets of consecutive segments. *)
Fixpoint bases (b : Z) (rs : list (list bytes)) : list Z :=
  match rs with
  | [] => []
  | r :: rs => b :: bases (b + zlen r) rs
  end.

(** Every segment but the last has a record. *)
Fixpoint filled (rs : list (list bytes)) : Prop :=
  match rs with
  | [] => True
  | r :: rs => (rs <> [] -> r <> []) /\ filled rs
  end.

Lemma bases_range rs : forall b n, n ∈ bases b rs -> b <= n <= b + zlen (concat rs).
Proof.
  induction rs as [|r rs IH]; cbn; intros b n; [by intros ?%not_elem_of_nil|].
  rewrite zlen_app. pose proof (zlen_nonneg r). pose proof (zlen_nonneg (concat rs)).
  intros [->|Hn%IH]%elem_of_cons; lia.
Qed.

Lemma bases_above rs b n (r : list bytes) : r <> [] -> n ∈ bases (b + zlen r) rs -> b < n.
Proof. intros Hr Hn%bases_range. pose proof (nonempty_pos r Hr). lia. Qed.

Lemma bases_app rs ra : forall b n,
  n ∈ bases b (rs ++ [ra]) -> n ∈ bases b rs \/ n = b + zlen (concat rs).
Proof.
  induction rs as [|r rs IH]; cbn; intros b n.
  - intros Hn%list_elem_of_singleton. right. rewrite zlen_nil. lia.
  - intros [->|[Hn| -> ]%IH]%elem_of_cons; [left; by left|left; by right|right].
    rewrite zlen_app. lia.
Qed.

Lemma bases_NoDup rs : forall b, filled rs -> NoDup (bases b rs).
Proof.
  induction rs as [|r rs IH]; cbn; intros b; [constructor|]. intros [Hr Hf]. constructor; [|auto].
  intros Hin. destruct rs as [|r' rs]; [by apply not_elem_of_nil in Hin|].
  pose proof (bases_above _ _ _ r (Hr ltac:(done)) Hin). lia.
Qed.

Lemma bases_Sorted rs : forall b, Sorted Z.le (bases b rs).
Proof.
  intros b. apply StronglySorted_Sorted. revert b.
  induction rs as [|r rs IH]; cbn; intros b; [constructor|]. constructor; [auto|].
  apply list.Forall_forall. intros n Hn%bases_range. pose proof (zlen_nonneg r). lia.
Qed.

(** [discoverSegments] returns the sorted base offsets of the log files found. *)
Lemma discover_spec d rs b :
  calm d -> filled rs ->
  (forall n, n ∈ bases b rs -> exists name c, files d !! name = Some c /\ baseOfName name = Some n) ->
  (forall name c n, files d !! name = Some c -> baseOfName name = Some n -> n ∈ bases b rs) ->
  discoverSegments d = (Ok (bases b rs), d).
Proof.
  intros Hc Hf H1 H2. unfold discoverSegments, mbind, M_bind, ReadDir. rewrite next_fault_calm by done.
  cbn. unfold mret, M_ret. do 2 f_equal.
  apply (Sorted_unique Z.le); [apply Sorted_merge_sort; apply _|apply bases_Sorted|].
  unfold Ints. rewrite merge_sort_Permutation.
  apply NoDup_Permutation; [apply NoDup_remove_dups|by apply bases_NoDup|].
  intros n. rewrite elem_of_remove_dups, list_elem_of_omap. split.
  - intros (name & (p & -> & Hp)%list_elem_of_fmap & Hn). destruct p as [name c].
    apply elem_of_map_to_list in Hp. eauto.
  - intros (name & c & Hname & Hn)%H1. exists name. split; [|done].
    apply list_elem_of_fmap. exists (name, c). split; [done|]. by apply elem_of_map_to_list.
Qed.

Lemma baseOfName_logName n : 0 <= n < 2 ^ 63 -> baseOfName (logName (Sprintf020d n)) = Some n.
Proof.
  intros Hn. unfold baseOfName, logName. rewrite HasSuffix_app, TrimSuffix_app. cbn. by apply Atoi_Sprintf020d.
Qed.

Lemma HasSuffix_inv s suf : HasSuffix s suf = true -> exists pre, chars s = pre ++ chars suf.
Proof.
  unfold HasSuffix. intros [_ H%bool_decide_eq_true]%andb_true_iff.
  eexists. rewrite <- H. symmetry. apply take_drop.
Qed.

Lemma baseOfName_indexName k : baseOfName (indexName k) = None.
Proof.
  unfold baseOfName. destruct (HasSuffix (indexName k) ".log") eqn:E; [|done].
  apply HasSuffix_inv in E as [pre E]. unfold indexName in E. rewrite chars_app in E.
  apply (f_equal last) in E. rewrite !last_app in E. done.
Qed.

Section recover.
Context {C : Type} `{CS : ColdStore C} `{CSO : !ColdStoreOk C}.
Implicit Types (e : Env C) (l : Log).

(** Local segments from offset [b] on, holding [rs]. *)
Fixpoint lchain (d : Dir) (b : Z) (ss : list segment) (rs : list (list bytes)) : Prop :=
  match ss, rs with
  | [], [] => True
  | s :: ss, r :: rs => baseOffset s = b /\ local d s r [] [] /\ lchain d (b + zlen r) ss rs
  | _, _ => False
  end.

(** The log files of the segments, on disk. *)
Fixpoint on_disk (d : Dir) (b : Z) (rs : list (list bytes)) : Prop :=
  match rs with
  | [] => True
  | r :: rs => (files d !! logName (Sprintf020d b) = Some (enc r) \/
                files d !! logName (Sprintf020d b) = None /\ r = []) /\ fits r /\ on_disk d (b + zlen r) rs
  end.

Lemma on_disk_frame d d' b' : frame b' d d' -> 0 <= b' -> forall rs b,
  on_disk d b rs -> b' < b -> b + zlen (concat rs) < 2 ^ 63 -> on_disk d' b rs.
Proof.
  intros [F _] Hb' rs. induction rs as [|r rs IH]; cbn; intros b; [done|].
  intros (Hd & Hf & Ho) Hlt Hmax. rewrite zlen_app in *. pose proof (zlen_nonneg r). pose proof (zlen_nonneg (concat rs)).
  destruct (names_differ b b') as (N & _); [lia|lia|lia|].
  split_and!; [|done|apply IH; [done|lia|lia]]. rewrite F; [done|done|apply logName_indexName].
Qed.

(** Files of no segment in [bs] are unchanged. *)
Definition only (bs : list Z) (d d' : Dir) : Prop :=
  forall name, (forall n, n ∈ bs -> name <> logName (Sprintf020d n) /\ name <> indexName (Sprintf020d n)) ->
    files d' !! name = files d !! name.

Lemma openAll_spec : forall rs b e,
  calm (dir e) -> filled rs -> 0 <= b -> b + zlen (concat rs) < 2 ^ 63 -> on_disk (dir e) b rs ->
  exists ss e', openAll (bases b rs) e = (Ok ss, e') /\ calm (dir e') /\ cold e' = cold e /\
    lchain (dir e') b ss rs /\ only (bases b rs) (dir e) (dir e').
Proof.
  induction rs as [|r rs IH]; cbn [bases openAll on_disk filled concat]; intros b e Hc Hf Hb Hlt Hd.
  { by exists [], e. }
  destruct Hf as [Hr Hf], Hd as (Hd & Hfit & Hds). rewrite zlen_app in Hlt.
  pose proof (zlen_nonneg r). pose proof (zlen_nonneg (concat rs)).
  destruct (openSegment_spec b r e Hc Hfit Hd) as (s & e1 & E1 & Hbs & F1 & C1 & L1).
  assert (Hgt : rs <> [] -> b < b + zlen r) by (intros Hne; pose proof (nonempty_pos r (Hr Hne)); lia).
  assert (Hds1 : on_disk (dir e1) (b + zlen r) rs).
  { destruct rs as [|r' rs]; [done|]. eapply on_disk_frame; [exact F1|lia|done|by apply Hgt|lia]. }
  destruct (IH (b + zlen r) e1) as (ss & e2 & E2 & Hc2 & C2 & L2 & O2); [by apply F1|done|lia|lia|done|].
  exists (s :: ss), e2. unfold mbind, M_bind. rewrite E1, E2. split; [done|]. split; [done|].
  split; [congruence|]. split.
  - cbn. split_and!; [done| |done].
    destruct L1 as [? ? ? ? ? Hl1 Hi1]. rewrite Hbs in *.
    assert (Hsame : files (dir e2) !! logName (Sprintf020d b) = files (dir e1) !! logName (Sprintf020d b) /\
                    files (dir e2) !! indexName (Sprintf020d b) = files (dir e1) !! indexName (Sprintf020d b)).
    { split; apply O2; intros n Hn; (destruct rs as [|r' rs]; [by apply not_elem_of_nil in Hn|]);
        pose proof (bases_range _ _ _ Hn); specialize (Hgt ltac:(done));
        destruct (names_differ b n) as (N1 & N2 & _); try lia; split; auto using logName_indexName, not_eq_sym. }
    destruct Hsame as [S1 S2]. split; rewrite ?Hbs, ?S1, ?S2; done.
  - intros name Hn. rewrite O2; [|intros n Hin; apply Hn; by right].
    apply F1; by apply (Hn b); left.
Qed.

(** A log without garbage or tiered segments, in a directory with no other log
    file. *)
Record pristine e l (a : alog) : Prop := {
  pr_old : 0 <= oldest a;
  pr_bound : oldest a + zlen (records a) < 2 ^ 63;
  pr_max : 0 < maxSegmentBytes l <= 2 ^ 32;
  pr_chain : exists rs, lchain (dir e) (oldest a) (segments l) rs /\ filled rs /\ records a = concat rs;
  pr_names : forall name c n, files (dir e) !! name = Some c -> baseOfName name = Some n ->
    name = logName (Sprintf020d n) /\ exists s, s ∈ segments l /\ baseOffset s = n
}.

Lemma lchain_snoc d : forall ss rs b,
  lchain d b ss rs -> rs <> [] -> filled rs ->
  exists ss' s rs' ra, ss = ss' ++ [s] /\ rs = rs' ++ [ra] /\ (forall c, @chain C CS CSO (mkEnv d c) b ss' rs') /\
    baseOffset s = b + zlen (concat rs') /\ local d s ra [] [].
Proof.
  induction ss as [|s ss IH]; intros [|r rs] b; cbn; try done. intros (Hb & L & Hc) _ [Hr Hf].
  destruct rs as [|r' rs].
  - destruct ss; [|done]. exists [], s, [], r. cbn. rewrite zlen_nil, Z.add_0_r. done.
  - destruct (IH _ _ Hc) as (ss' & s0 & rs' & ra & -> & E & Hch & Hb0 & L0); [done|done|].
    exists (s :: ss'), s0, (r :: rs'), ra. rewrite E. cbn. rewrite zlen_app, Z.add_assoc.
    split_and!; try done. intros c. split_and!; [done|by apply Hr|left; eauto| |apply Hch].
    intros Ht. by rewrite (lc_tiered _ _ _ _ _ L) in Ht.
Qed.

Lemma lchain_bases d : forall ss rs b n, lchain d b ss rs -> n ∈ bases b rs -> exists s, s ∈ ss /\ baseOffset s = n.
Proof.
  induction ss as [|s ss IH]; intros [|r rs] b n; cbn; try done; [by intros _ ?%not_elem_of_nil|].
  intros (Hb & _ & Hc) [->|Hn]%elem_of_cons; [exists s; split; [by left|done]|].
  destruct (IH _ _ _ Hc Hn) as (x & ? & ?). exists x. split; [by right|done].
Qed.

Lemma lchain_base d : forall ss rs b s, lchain d b ss rs -> s ∈ ss -> baseOffset s ∈ bases b rs.
Proof.
  induction ss as [|s0 ss IH]; intros [|r rs] b s; cbn; try done; [by intros _ ?%not_elem_of_nil|].
  intros (<- & _ & Hc) [->|Hs]%elem_of_cons; [by left|right; eauto].
Qed.

Lemma lchain_lookup d : forall ss rs b s, lchain d b ss rs -> s ∈ ss -> exists r, local d s r [] [].
Proof.
  induction ss as [|s0 ss IH]; intros [|r rs] b s; cbn; try done; [by intros _ ?%not_elem_of_nil|].
  intros (_ & L & Hc) [->|Hs]%elem_of_cons; eauto.
Qed.

(** The parts of a pristine log. *)
Lemma pristine_parts e l a : pristine e l a ->
  exists rs ra, records a = concat rs ++ ra /\ chain e (oldest a) (closed l) rs /\
    lchain (dir e) (oldest a) (segments l) (rs ++ [ra]) /\ filled (rs ++ [ra]) /\
    baseOffset (active l) = oldest a + zlen (concat rs) /\ local (dir e) (active l) ra [] [].
Proof.
  intros [Ho Hlt Hm (rs & L & Hf & Hr) Hn].
  destruct (lchain_snoc _ _ _ _ L) as (ss' & s & rs' & ra & E & -> & Hch & Hb & La); [|done|].
  { intros ->. unfold segments in L. by destruct (closed l). }
  unfold segments in E. apply app_inj_tail in E as [<- <-]. exists rs', ra.
  rewrite Hr, concat_app. cbn. rewrite app_nil_r. split_and!; try done.
  specialize (Hch (cold e)). by destruct e.
Qed.

Lemma pristine_rep e l a : pristine e l a -> log_rep e l a [] [].
Proof.
  intros P. destruct (pristine_parts _ _ _ P) as (rs & ra & Hr & Hc & L & Hf & Hb & La).
  destruct P as [Ho Hlt Hm _ Hn]. split; try done; [by exists rs, ra|].
  intros n Hn' Hne. left. destruct (files (dir e) !! logName (Sprintf020d n)) as [c|] eqn:Ef; [|done].
  pose proof (zlen_nonneg (concat rs)). pose proof (zlen_nonneg ra). rewrite (lc_next _ _ _ _ _ La) in Hn'.
  destruct (Hn _ _ _ Ef (baseOfName_logName n ltac:(lia))) as (_ & s & Hs & <-).
  pose proof (lchain_base _ _ _ _ _ L Hs) as Hin. apply bases_app in Hin as [Hin%bases_range| Hin]; lia.
Qed.

(** [Open] on a directory with the segments [rs] from offset [b] on, or on an
    empty one. *)
Lemma Open_spec b rs maxBytes bs e :
  calm (dir e) -> rs <> [] -> filled rs -> 0 <= b -> b + zlen (concat rs) < 2 ^ 63 ->
  maxBytes <= 2 ^ 32 -> on_disk (dir e) b rs ->
  discoverSegments (dir e) = (Ok bs, dir e) -> (bs = bases b rs \/ bs = [] /\ b = 0 /\ rs = [[]]) ->
  (forall name c n, files (dir e) !! name = Some c -> baseOfName name = Some n ->
     name = logName (Sprintf020d n) /\ n ∈ bases b rs) ->
  exists l e', Open maxBytes e = (Ok l, e') /\ calm (dir e') /\ cold e' = cold e /\
    pristine e' l (mkAlog b (concat rs)).
Proof.
  intros Hc Hne Hf Hb Hlt Hmax Hd Hdisc Hbs Hnames. unfold Open, mbind, M_bind, in_dir, MkdirAll.
  rewrite next_fault_calm by done. cbn [dir cold]. rewrite Hdisc.
  replace (match bs with [] => [0] | _ => bs end) with (bases b rs).
  2:{ destruct Hbs as [->|(-> & -> & ->)]; [|done]. by destruct rs. }
  set (e0 := mkEnv (dir e) (cold e)).
  destruct (openAll_spec rs b e0 Hc Hf Hb Hlt Hd) as (ss & e1 & E & Hc1 & C1 & L1 & O1). rewrite E.
  destruct (lchain_snoc _ _ _ _ L1 Hne Hf) as (ss' & s & rs' & ra & -> & Ers & Hch & Hbs' & L).
  rewrite last_snoc, removelast_last. eexists _, e1. split; [done|]. split; [done|]. split; [done|].
  pose proof (zlen_nonneg ra). pose proof (zlen_nonneg (concat rs')).
  assert (Hlen : zlen (concat rs) = zlen (concat rs') + zlen ra) by (rewrite Ers, concat_app, zlen_app; cbn; by rewrite app_nil_r).
  split; cbn; try done.
  - case_test; [done|lia].
  - by exists rs.
  - intros name c n Hname Hn. unfold segments. cbn [closed active].
    destruct (decide (name = logName (Sprintf020d n) /\ n ∈ bases b rs)) as [[-> Hin]|Hnot].
    { split; [done|by eapply lchain_bases]. }
    exfalso. rewrite O1 in Hname; [by apply Hnot, (Hnames _ _ _ Hname Hn)|]. intros m Hm.
    split; intros ->; [|by rewrite baseOfName_indexName in Hn].
    pose proof (bases_range _ _ _ Hm). rewrite baseOfName_logName in Hn by lia. injection Hn as ->. by apply Hnot.
Qed.

(** The same log files; index files may be anything. *)
Definition same_logs (d d' : Dir) : Prop :=
  forall name n, baseOfName name = Some n -> files d' !! name = files d !! name.

Lemma lchain_disk d d' : same_logs d d' -> forall ss rs b,
  lchain d b ss rs -> 0 <= b -> b + zlen (concat rs) < 2 ^ 63 -> on_disk d' b rs.
Proof.
  intros E. induction ss as [|s ss IH]; intros [|r rs] b; cbn; try done.
  intros (<- & L & Hc) Hb Hlt. rewrite zlen_app in Hlt. pose proof (zlen_nonneg r). pose proof (zlen_nonneg (concat rs)).
  split_and!; [left|apply (lc_fits _ _ _ _ _ L)|apply IH; [done|lia|lia]].
  rewrite (E _ (baseOffset s)), (lc_log _ _ _ _ _ L) by (apply baseOfName_logName; lia). by rewrite app_nil_r.
Qed.

(** Opening a directory with the log files of a pristine log gives the same
    records back, whatever the index files hold. *)
Lemma recover_spec e l a maxBytes e0 :
  pristine e l a -> maxBytes <= 2 ^ 32 -> calm (dir e0) -> same_logs (dir e) (dir e0) ->
  exists l' e', Open maxBytes e0 = (Ok l', e') /\ calm (dir e') /\ cold e' = cold e0 /\ pristine e' l' a.
Proof.
  intros P Hmax Hc0 Hsame. pose proof P as [Ho Hlt _ (rs & L & Hf & Hr) Hn]. rewrite Hr in Hlt.
  assert (Hne : rs <> []) by (intros ->; unfold segments in L; by destruct (closed l)).
  assert (Hin : forall name c n, files (dir e0) !! name = Some c -> baseOfName name = Some n ->
    name = logName (Sprintf020d n) /\ n ∈ bases (oldest a) rs).
  { intros name c n Hc Hb. rewrite (Hsame _ _ Hb) in Hc.
    destruct (Hn _ _ _ Hc Hb) as (-> & s & Hs & <-). split; [done|]. by eapply lchain_base. }
  destruct (Open_spec (oldest a) rs maxBytes (bases (oldest a) rs) e0) as (l' & e' & E & Hc & C1 & P'); try done.
  - by eapply lchain_disk.
  - apply discover_spec; [done|done| |by intros; apply (Hin name c)].
    intros n Hn'. destruct (lchain_bases _ _ _ _ _ L Hn') as (s & Hs & <-).
    pose proof (bases_range _ _ _ Hn'). destruct (lchain_lookup _ _ _ _ _ L Hs) as (r & Lr).
    exists (logName (Sprintf020d (baseOffset s))), (enc r ++ []).
    rewrite (Hsame _ (baseOffset s)) by (apply baseOfName_logName; lia).
    split; [apply (lc_log _ _ _ _ _ Lr)|apply baseOfName_logName; lia].
  - by left.
  - exists l', e'. split_and!; try done. destruct a; cbn in *. by subst.
Qed.

(** The environment a new process finds: the same files, no open file. *)
Definition restart e : Env C := mkEnv (mkDir (files (dir e)) []) (cold e).

(** Reopening a pristine log gives the same records back. *)
Lemma reopen_spec e l a maxBytes :
  pristine e l a -> maxBytes <= 2 ^ 32 ->
  exists l' e', Open maxBytes (restart e) = (Ok l', e') /\ calm (dir e') /\ cold e' = cold e /\ pristine e' l' a.
Proof. intros P Hmax. by apply (recover_spec e l a maxBytes (restart e) P Hmax). Qed.

(** Opening a directory without log files starts an empty log at offset 0. *)
Lemma open_empty_spec e maxBytes :
  calm (dir e) -> maxBytes <= 2 ^ 32 -> (forall name c, files (dir e) !! name = Some c -> baseOfName name = None) ->
  exists l' e', Open maxBytes e = (Ok l', e') /\ calm (dir e') /\ cold e' = cold e /\ pristine e' l' (mkAlog 0 []).
Proof.
  intros Hc Hmax Hn.
  destruct (Open_spec 0 [[]] maxBytes [] e) as (l' & e' & ?); try done.
  - cbn [on_disk]. split_and!; [right|apply fits_nil|done]. split; [|done].
    destruct (files (dir e) !! logName (Sprintf020d 0)) as [c|] eqn:E; [|done].
    apply Hn in E. by rewrite baseOfName_logName in E.
  - apply (discover_spec (dir e) [] 0); [done|done|by intros n ?%not_elem_of_nil|].
    intros name c n Hf Hb. by rewrite (Hn _ _ Hf) in Hb.
  - by right.
  - intros name c n Hf Hb. by rewrite (Hn _ _ Hf) in Hb.
  - by exists l', e'.
Qed.

End recover.
