(* ===== verification/LogRefine.v ===== *)
(** Programs on a log refine the same programs on an append-only sequence of
    records: appends, retention, tiering and restarts. *)
From S2P Require Import Prelude GoLib Files Cold Segment SegmentFormat SegmentProof SegmentRecover SegmentLog LogProof LogLifecycle LogRecover.
#[local] Open Scope Z_scope.

Section refinement.
Context {C : Type} `{CS : ColdStore C} `{CSO : !ColdStoreOk C}.
Implicit Types (e : Env C) (l : Log).

Lemma lchain_app d : forall ss1 ss2 rs1 rs2 b, length ss1 = length rs1 ->
  (lchain d b (ss1 ++ ss2) (rs1 ++ rs2) <-> lchain d b ss1 rs1 /\ lchain d (b + zlen (concat rs1)) ss2 rs2).
Proof.
  induction ss1 as [|s ss1 IH]; intros ss2 [|r rs1] rs2 b; cbn; try done; intros Hl.
  - rewrite zlen_nil, Z.add_0_r. tauto.
  - injection Hl as Hl. rewrite (IH ss2 rs1 rs2 _ Hl), zlen_app, Z.add_assoc. tauto.
Qed.

Lemma lchain_frame d d' b' : frame b' d d' -> 0 <= b' < 2 ^ 63 -> forall ss rs b,
  lchain d b ss rs -> filled rs -> 0 <= b -> b + zlen (concat rs) < 2 ^ 63 ->
  b + zlen (concat rs) < b' \/ (b + zlen (concat rs) = b' /\ forall r, last rs = Some r -> r <> []) ->
  lchain d' b ss rs.
Proof.
  intros F Hb'. induction ss as [|s ss IH]; intros [|r rs] b; cbn -[last]; try done.
  intros (<- & L & Hc) [Hr Hf] Hb Hlt Hor. rewrite zlen_app in *. pose proof (zlen_nonneg r). pose proof (zlen_nonneg (concat rs)).
  assert (Hne : b' <> baseOffset s).
  { destruct Hor as [?|[Heq Hlast]]; [lia|]. intros Ebs. destruct rs as [|r' rs].
    - specialize (Hlast r eq_refl). apply nonempty_pos in Hlast. lia.
    - specialize (Hr ltac:(done)). apply nonempty_pos in Hr. lia. }
  split_and!; [done|eapply local_frame; [done|exact F|lia|lia|done]|].
  apply IH; [done|done|lia|lia|]. rewrite Z.add_assoc in Hor. destruct Hor as [?|[Heq Hlast]]; [by left|right].
  split; [done|]. intros x Hx. apply Hlast. destruct rs; [done|]. exact Hx.
Qed.

Lemma filled_app rs ra : filled (rs ++ [ra]) <-> Forall (fun r => r <> []) rs.
Proof.
  induction rs as [|r rs IH]; cbn.
  - split; [constructor|done].
  - rewrite IH, Forall_cons. split; intros [H1 H2]; split; auto. apply H1. by destruct rs.
Qed.

Lemma filled_closed rs : Forall (fun r : list bytes => r <> []) rs -> filled rs /\ forall r, last rs = Some r -> r <> [].
Proof.
  intros H. split.
  - induction H as [|r rs Hr H IH]; cbn; [done|]. by split.
  - intros r Hr. apply last_Some in Hr as [rs' ->]. apply Forall_app in H as [_ H]. by apply Forall_cons in H as [? _].
Qed.

(** The offset after the records [rs]. *)
Definition b_end (a : alog) (rs : list (list bytes)) : Z := oldest a + zlen (concat rs).

(** Appending to the active segment of a pristine log. *)
Lemma append_pristine e l a p :
  pristine e l a -> calm (dir e) -> zlen p < 2 ^ 32 -> oldest a + zlen (records a) + 1 < 2 ^ 63 ->
  size (active l) < 2 ^ 32 ->
  exists l' e', on_active (append p) (l, e) = (Ok (oldest a + zlen (records a)), (l', e')) /\
    calm (dir e') /\ cold e' = cold e /\ pristine e' l' (mkAlog (oldest a) (records a ++ [p])).
Proof.
  intros P Hc Hp Hb Hsz. destruct (pristine_parts _ _ _ P) as (rs & ra & Hr & Hch & L & Hf & Hba & La).
  destruct P as [Ho Hlt Hm _ Hn]. unfold on_active.
  destruct (append p (active l, e)) as [r [s' e']] eqn:E.
  destruct (append_spec _ _ _ _ _ _ _ _ _ La E) as (F & Ec & Eb & Hok & Hres).
  destruct r as [off|]; [|by specialize (Hok Hc)]. destruct Hres as [-> Hl].
  assert (L' : local (dir e') s' (ra ++ [p]) [] []).
  { apply Hl; [done|done|]. apply fits_snoc; [apply (lc_fits _ _ _ _ _ La)|done|]. by rewrite <- (lc_size _ _ _ _ _ La). }
  pose proof (zlen_nonneg (concat rs)). pose proof (zlen_nonneg ra).
  assert (Hlen : zlen (records a) = zlen (concat rs) + zlen ra) by (by rewrite Hr, zlen_app).
  rewrite (lc_next _ _ _ _ _ La). replace (baseOffset (active l) + zlen ra) with (oldest a + zlen (records a)) by lia.
  eexists _, _. split; [done|]. split; [by apply F|]. split; [done|].
  apply filled_app in Hf. destruct (filled_closed rs Hf) as [Hf1 Hf2]. pose proof (chain_len _ _ _ _ Hch) as Hcl.
  split; cbn; try done; [rewrite zlen_snoc; lia| |].
  - exists (rs ++ [ra ++ [p]]). unfold segments. cbn. split_and!.
    + apply lchain_app; [done|]. split; [|cbn; split_and!; [congruence|done|done]].
      apply lchain_app in L as [L _]; [|done]. eapply lchain_frame; [exact F|lia|done|done|lia|lia|right; split; [lia|done]].
    + by apply filled_app.
    + rewrite concat_app, Hr. cbn. by rewrite app_nil_r, app_assoc.
  - intros name c n Hname Hbn. unfold segments. cbn.
    destruct (decide (name = logName (Sprintf020d (baseOffset (active l))))) as [->|Hne].
    { rewrite baseOfName_logName in Hbn by lia. injection Hbn as <-. split; [done|].
      exists s'. split; [apply elem_of_app; right; by left|done]. }
    rewrite (proj1 F) in Hname; [|done|by intros ->; rewrite baseOfName_indexName in Hbn].
    destruct (Hn _ _ _ Hname Hbn) as (-> & s & Hs & <-). split; [done|].
    apply elem_of_app in Hs as [Hs|Hs%list_elem_of_singleton]; [exists s|exists s'; rewrite Eb, Hs];
      (split; [apply elem_of_app|done]); [by left|right; by left].
Qed.

(** Rolling a pristine log. *)
Lemma roll_pristine e l a :
  pristine e l a -> calm (dir e) -> 0 < size (active l) ->
  exists l' e', roll (l, e) = (Ok tt, (l', e')) /\ calm (dir e') /\ cold e' = cold e /\
    pristine e' l' a /\ size (active l') = 0 /\ maxSegmentBytes l' = maxSegmentBytes l.
Proof.
  intros P Hc Hsz. pose proof (pristine_rep _ _ _ P) as HR.
  destruct (pristine_parts _ _ _ P) as (rs & ra & Hr & Hch & L & Hf & Hba & La).
  destruct P as [Ho Hlt Hm _ Hn]. unfold roll.
  pose proof (zlen_nonneg (concat rs)). pose proof (zlen_nonneg ra).
  assert (Hlen : zlen (records a) = zlen (concat rs) + zlen ra) by (by rewrite Hr, zlen_app).
  pose proof (lc_next _ _ _ _ _ La) as Hnx. pose proof (lc_size _ _ _ _ _ La) as Hsize.
  assert (Hra : ra <> []) by (intros ->; rewrite Hsize in Hsz; exact (Z.lt_irrefl 0 Hsz)).
  pose proof (nonempty_pos ra Hra) as Hpos.
  destruct (openSegment_spec (nextOffset (active l)) [] e Hc fits_nil) as (s & e' & E & Hbs & F & Ec & Ls).
  { destruct (lr_fresh _ _ _ _ _ HR (nextOffset (active l))) as [?|?]; [lia|lia|by right|by left]. }
  rewrite E. eexists _, _. split; [done|]. split; [by apply F|]. split; [done|].
  split; [|split; [exact (lc_size _ _ _ _ _ Ls)|done]].
  apply filled_app in Hf. assert (Hf' : Forall (fun r => r <> []) (rs ++ [ra])) by (apply Forall_app; auto).
  destruct (filled_closed _ Hf') as [Hf1 Hf2].
  assert (Hl' : b_end a (rs ++ [ra]) = nextOffset (active l)).
  { unfold b_end. rewrite concat_app. cbn. rewrite app_nil_r, zlen_app. lia. }
  split; cbn; try done.
  - exists ((rs ++ [ra]) ++ [[]]). unfold segments. cbn. split_and!.
    + apply lchain_app; [rewrite !length_app; cbn; by rewrite (chain_len _ _ _ _ Hch)|].
      unfold b_end in Hl'. split.
      * eapply lchain_frame; [exact F|lia|exact L|done|lia|lia|right; split; [done|done]].
      * cbn. split_and!; [congruence|done|done].
    + by apply filled_app.
    + rewrite !concat_app, Hr. cbn. by rewrite !app_nil_r.
  - intros name c n Hname Hbn. unfold segments. cbn.
    destruct (decide (name = logName (Sprintf020d (nextOffset (active l))))) as [->|Hne].
    { rewrite baseOfName_logName in Hbn by lia. injection Hbn as <-. split; [done|].
      exists s. split; [apply elem_of_app; right; by left|done]. }
    rewrite (proj1 F) in Hname; [|done|by intros ->; rewrite baseOfName_indexName in Hbn].
    destruct (Hn _ _ _ Hname Hbn) as (-> & x & Hx & <-). split; [done|].
    exists x. split; [|done]. apply elem_of_app. by left.
Qed.

(** Appending without faults. *)
Lemma Append_pristine e l a p :
  pristine e l a -> calm (dir e) -> zlen p < 2 ^ 32 -> oldest a + zlen (records a) + 1 < 2 ^ 63 ->
  exists l' e', Append p (l, e) = (Ok (oldest a + zlen (records a)), (l', e')) /\
    calm (dir e') /\ cold e' = cold e /\ pristine e' l' (mkAlog (oldest a) (records a ++ [p])).
Proof.
  intros P Hc Hp Hb. pose proof (pr_max _ _ _ P) as Hmax. unfold Append, mbind, M_bind. cbn [get].
  destruct ((maxSegmentBytes l <? _) && _) eqn:Eroll.
  - apply andb_true_iff in Eroll as [_ Hsz%Z.ltb_lt].
    destruct (roll_pristine _ _ _ P Hc Hsz) as (l1 & e1 & -> & Hc1 & C1 & P1 & Hs1 & Hm1).
    destruct (append_pristine _ _ _ p P1 Hc1 Hp Hb) as (l2 & e2 & -> & Hc2 & C2 & P2); [by rewrite Hs1|].
    exists l2, e2. split_and!; try done. congruence.
  - cbn. apply append_pristine; try done. apply andb_false_iff in Eroll.
    pose proof (zlen_nonneg p). unfold lenPrefixSize in Eroll. lia.
Qed.

Lemma lchain_outside lo hi e e' : outside lo hi e e' -> forall ss rs b,
  lchain (dir e) b ss rs -> filled rs -> 0 <= b -> b + zlen (concat rs) < 2 ^ 63 -> hi <= b -> lchain (dir e') b ss rs.
Proof.
  intros O. induction ss as [|s ss IH]; intros [|r rs] b; cbn; try done.
  intros (<- & L & Hc) [Hr Hf] Hb Hlt Hhi. rewrite zlen_app in *. pose proof (zlen_nonneg r). pose proof (zlen_nonneg (concat rs)).
  split_and!; [done|eapply local_outside; [done|exact O|lia|lia]|]. apply IH; [done|done|lia|lia|lia].
Qed.

(** Retention on a pristine log. *)
Lemma Compact_pristine e l a keep :
  pristine e l a -> quiet_env e ->
  exists l' e' k, Compact keep (l, e) = (Ok tt, (l', e')) /\ quiet_env e' /\
    0 <= k <= zlen (records a) /\ pristine e' l' (mkAlog (oldest a + k) (drop (Z.to_nat k) (records a))).
Proof.
  intros P Hq. destruct (pristine_parts _ _ _ P) as (rs & ra & Hr & Hch & L & Hf & Hba & La).
  destruct P as [Ho Hlt Hm _ Hn].
  pose proof (zlen_nonneg (concat rs)). pose proof (zlen_nonneg ra).
  assert (Hlen : zlen (records a) = zlen (concat rs) + zlen ra) by (by rewrite Hr, zlen_app).
  destruct (Compact_parts e l (oldest a) rs keep Hch Ho ltac:(lia) Hq) as (e' & m & -> & Q & Hml & _ & O & Sub & N).
  pose proof (chain_len _ _ _ _ Hch) as Hcl.
  assert (Hsplit : concat rs = concat (take m rs) ++ concat (drop m rs)) by (by rewrite <- concat_app, take_drop).
  rewrite Hsplit, zlen_app in *. pose proof (zlen_nonneg (concat (take m rs))). pose proof (zlen_nonneg (concat (drop m rs))).
  exists (set_closed (drop m (closed l)) l), e', (zlen (concat (take m rs))).
  split_and!; [done|done|lia|lia|].
  assert (Hsegs : segments l = take m (closed l) ++ segments (set_closed (drop m (closed l)) l)).
  { unfold segments. cbn. by rewrite app_assoc, take_drop. }
  assert (Hrs : rs ++ [ra] = take m rs ++ (drop m rs ++ [ra])) by (by rewrite app_assoc, take_drop).
  assert (Hf' : filled (drop m rs ++ [ra])).
  { apply filled_app. apply filled_app in Hf. by apply Forall_drop. }
  rewrite Hsegs, Hrs in L. apply lchain_app in L as [L1 L2]; [|rewrite !length_take; lia].
  assert (Hc2 : zlen (concat (drop m rs ++ [ra])) = zlen (concat (drop m rs)) + zlen ra).
  { rewrite concat_app, zlen_app. cbn. by rewrite app_nil_r. }
  split; cbn [oldest records maxSegmentBytes set_closed]; try done; [lia| | |].
  - rewrite zlen_drop_nat. unfold zlen in *. lia.
  - exists (drop m rs ++ [ra]). split_and!; [|done|].
    + eapply lchain_outside; [exact O|exact L2|done|lia|lia|lia].
    + rewrite Hr, <- app_assoc, concat_app. cbn. rewrite app_nil_r.
      unfold zlen. rewrite Nat2Z.id. by rewrite drop_app_length.
  - intros name c n Hname Hbn. assert (Hname0 := lookup_weaken _ _ _ _ Hname Sub).
    destruct (Hn _ _ _ Hname0 Hbn) as (-> & s & Hs & <-). split; [done|]. exists s. split; [|done].
    rewrite Hsegs in Hs. apply elem_of_app in Hs as [Hs|Hs]; [|done].
    destruct (lchain_lookup _ _ _ _ _ L1 Hs) as (r & Lr).
    rewrite (N s Hs (lc_tiered _ _ _ _ _ Lr)) in Hname. done.
Qed.

(** ** Programs on a log *)

(** What a client and its operator do to a log: append a record, drop old
    segments, move the closed segments to cold storage, or restart the process
    and open the directory again. *)
Inductive op := OpAppend (p : bytes) | OpCompact (keep : Z) | OpTier | OpRestart (maxBytes : Z).

(** One operation on the log and its environment, with the offset it returns. *)
Definition do_op (o : op) (st : Log * Env C) : res Z * (Log * Env C) :=
  match o with
  | OpAppend p => Append p st
  | OpCompact keep => let '(r, st) := Compact keep st in (_ ← r; Ok 0, st)
  | OpTier => let '(_, st) := EnableTiering st in
      let '(_, r, st) := TierSegments st in (_ ← r; Ok 0, st)
  | OpRestart maxBytes =>
      match Open maxBytes (restart (snd st)) with
      | (Ok l, e) => (Ok 0, (l, e))
      | (Err msg, e) => (Err msg, (fst st, e))
      end
  end.

Fixpoint do_ops (os : list op) (st : Log * Env C) : res (list Z) * (Log * Env C) :=
  match os with
  | [] => (Ok [], st)
  | o :: os =>
      match do_op o st with
      | (Ok x, st) => let '(r, st) := do_ops os st in (xs ← r; Ok (x :: xs), st)
      | (Err msg, st) => (Err msg, st)
      end
  end.

(** A log opened in [e] and the operations [os] on it. *)
Definition session (maxBytes : Z) (os : list op) e : res (list Z) * option (Log * Env C) :=
  match Open maxBytes e with
  | (Ok l, e) => let '(r, st) := do_ops os (l, e) in (r, Some st)
  | (Err msg, _) => (Err msg, None)
  end.

(** The specification: the same operations on the abstract log. *)
Inductive astep : op -> alog -> Z -> alog -> Prop :=
| astep_append p a : astep (OpAppend p) a (oldest a + zlen (records a)) (mkAlog (oldest a) (records a ++ [p]))
| astep_compact keep a k : 0 <= k <= zlen (records a) ->
    astep (OpCompact keep) a 0 (mkAlog (oldest a + k) (drop (Z.to_nat k) (records a)))
| astep_tier a : astep OpTier a 0 a
| astep_restart maxBytes a : astep (OpRestart maxBytes) a 0 a.

Inductive asteps : list op -> alog -> list Z -> alog -> Prop :=
| asteps_nil a : asteps [] a [] a
| asteps_cons o os a x a' xs a'' : astep o a x a' -> asteps os a' xs a'' -> asteps (o :: os) a (x :: xs) a''.

(** Sizes the format can represent, and no restart once segments were tiered:
    [t] says whether they were. *)
Fixpoint ops_ok (t : bool) (os : list op) : Prop :=
  match os with
  | [] => True
  | OpAppend p :: os => zlen p < 2 ^ 32 /\ ops_ok t os
  | OpCompact _ :: os => ops_ok t os
  | OpTier :: os => ops_ok true os
  | OpRestart maxBytes :: os => t = false /\ maxBytes <= 2 ^ 32 /\ ops_ok t os
  end.

Definition is_tier (o : op) : bool := match o with OpTier => true | _ => false end.

(** What holds of the log before and after tiering. *)
Definition sound (t : bool) e l (a : alog) : Prop :=
  quiet_env e /\ if t then log_rep e l a [] [] else pristine e l a.

Lemma sound_rep t e l a : sound t e l a -> log_rep e l a [] [].
Proof. destruct t; intros [_ HR]; [done|by apply pristine_rep]. Qed.

Lemma sound_append t e l a p :
  sound t e l a -> zlen p < 2 ^ 32 -> oldest a + zlen (records a) + 1 < 2 ^ 63 ->
  exists l' e', Append p (l, e) = (Ok (oldest a + zlen (records a)), (l', e')) /\
    sound t e' l' (mkAlog (oldest a) (records a ++ [p])).
Proof.
  intros [[Hc Hs] HR] Hp Hb. destruct t.
  - destruct (Append p (l, e)) as [r [l' e']] eqn:E.
    destruct (Append_spec _ _ _ _ _ _ _ _ _ HR E) as (C' & Q & Hres).
    destruct (Q Hc) as [Hok Hc']. destruct r as [off|]; [|done]. destruct Hres as [-> Hres].
    exists l', e'. split; [done|]. split; [split; [done|by rewrite C']|auto].
  - destruct (Append_pristine _ _ _ p HR Hc Hp Hb) as (l' & e' & E & Hc' & C' & P').
    exists l', e'. split; [done|]. split; [split; [done|by rewrite C']|done].
Qed.

Lemma sound_compact t e l a keep :
  sound t e l a ->
  exists l' e' k, Compact keep (l, e) = (Ok tt, (l', e')) /\ 0 <= k <= zlen (records a) /\
    sound t e' l' (mkAlog (oldest a + k) (drop (Z.to_nat k) (records a))).
Proof.
  intros [Hq HR]. destruct t.
  - destruct (Compact_spec _ _ _ _ _ keep HR Hq) as (l' & e' & k & E & Q & Hk & HR' & _).
    exists l', e', k. split; [done|]. split; [|by split].
    destruct HR as [_ _ _ (rs & ra & _ & Hb & _ & Hr) _]. rewrite Hr, zlen_app. pose proof (zlen_nonneg ra). lia.
  - destruct (Compact_pristine _ _ _ keep HR Hq) as (l' & e' & k & E & Q & Hk & P'). exists l', e', k. split; [done|]. split; [done|by split].
Qed.

Lemma log_rep_enable e l a g gi : log_rep e l a g gi -> log_rep e (fst (snd (EnableTiering (l, e)))) a g gi.
Proof. intros []. by split. Qed.

Lemma sound_tier t e l a :
  sound t e l a ->
  exists n l1 l' e', EnableTiering (l, e) = (Ok tt, (l1, e)) /\ TierSegments (l1, e) = (n, Ok tt, (l', e')) /\
    sound true e' l' a.
Proof.
  intros HS. pose proof (sound_rep _ _ _ _ HS) as HR. destruct HS as [Hq _].
  set (l1 := mkLog (maxSegmentBytes l) (closed l) (active l) true).
  pose proof (log_rep_enable _ _ _ _ _ HR : log_rep e l1 a [] []) as HR1.
  destruct (TierSegments (l1, e)) as [[n r] [l' e']] eqn:E.
  destruct (TierSegments_spec _ _ _ _ _ _ _ _ _ HR1 E) as (Hok & _ & Q).
  destruct (Q Hq eq_refl) as [-> Hq']. exists n, l1, l', e'. split_and!; [done|done|].
  split; [done|by apply Hok].
Qed.

Lemma do_ops_refines os : forall t e l a,
  sound t e l a -> ops_ok t os -> oldest a + zlen (records a) + zlen os < 2 ^ 63 ->
  exists xs a' l' e', do_ops os (l, e) = (Ok xs, (l', e')) /\ asteps os a xs a' /\ sound (t || existsb is_tier os) e' l' a'.
Proof.
  induction os as [|o os IH]; intros t e l a HS Ho Hb; cbn [do_ops].
  { exists [], a, l, e. cbn. rewrite orb_false_r. split; [done|]. split; [constructor|done]. }
  rewrite zlen_cons in Hb. pose proof (zlen_nonneg os).
  assert (exists x a1 t1 l1 e1, do_op o (l, e) = (Ok x, (l1, e1)) /\ astep o a x a1 /\ sound t1 e1 l1 a1 /\ ops_ok t1 os /\ t1 = t || is_tier o /\
    oldest a1 + zlen (records a1) <= oldest a + zlen (records a) + 1) as (x & a1 & t1 & l1 & e1 & -> & S1 & H1 & O1 & Ht & B1).
  { destruct o as [p|keep| |maxBytes]; cbn [do_op ops_ok fst snd] in *.
    - destruct Ho as [Hp Ho]. destruct (sound_append _ _ _ _ p HS Hp ltac:(lia)) as (l' & e' & -> & HS').
      eexists _, _, t, l', e'. split_and!; [done|constructor|done|done|by rewrite orb_false_r|]. cbn. rewrite zlen_snoc. lia.
    - destruct (sound_compact _ _ _ _ keep HS) as (l' & e' & k & -> & Hk & HS').
      eexists _, _, t, l', e'. split_and!; [done|by constructor|done|done|by rewrite orb_false_r|]. cbn. rewrite zlen_drop_nat. unfold zlen in *. lia.
    - destruct (sound_tier _ _ _ _ HS) as (n & l0 & l' & e' & -> & -> & HS').
      eexists _, _, true, l', e'. split_and!; [done|constructor|done|done|by rewrite orb_true_r|lia].
    - destruct Ho as (-> & Hm & Ho), HS as [Hq P].
      destruct (reopen_spec _ _ _ maxBytes P Hm) as (l' & e' & -> & Hc' & C' & P').
      eexists _, _, false, l', e'. split_and!; [done|constructor| |done|done|lia]. split; [split; [done|rewrite C'; apply Hq]|done]. }
  destruct (IH t1 e1 l1 a1 H1 O1 ltac:(lia)) as (xs & a2 & l2 & e2 & -> & S2 & H2).
  rewrite Ht, <- orb_assoc in H2. exists (x :: xs), a2, l2, e2. split; [done|]. split; [by econstructor|exact H2].
Qed.

(** What a client can observe of a log that represents [a]. *)
Definition observes e l (a : alog) : Prop :=
  (forall off, fst (Read off (l, e)) =
     match (records a) @[off - oldest a] with Some p => Ok p | None => Err "offset not found" end) /\
  NextOffset l = oldest a + zlen (records a) /\ OldestOffset l = oldest a.

Lemma log_rep_observes e l a g gi : log_rep e l a g gi -> quiet_env e -> observes e l a.
Proof.
  intros HR Hq. split_and!.
  - intros off. destruct (Read off (l, e)) as [r [l' e']] eqn:E.
    destruct (Read_spec _ _ _ _ _ _ _ _ _ HR E) as (_ & _ & Hres). cbn.
    destruct ((records a) @[off - oldest a]); [by apply Hres|done].
  - destruct HR as [_ _ _ (rs & ra & _ & Hb & L & ->) _]. unfold NextOffset.
    rewrite (lc_next _ _ _ _ _ L), zlen_app. lia.
  - destruct HR as [_ _ _ (rs & ra & Hc & Hb & _ & _) _]. unfold OldestOffset, segments.
    destruct (closed l) as [|s ss], rs as [|r rs]; cbn in *; try done; [|by destruct Hc].
    rewrite Hb. by rewrite Z.add_0_r.
Qed.

(** A directory without log files, and nothing failing. *)
Definition blank e : Prop :=
  quiet_env e /\ forall name c, files (dir e) !! name = Some c -> baseOfName name = None.

Lemma session_spec maxBytes os e :
  blank e -> maxBytes <= 2 ^ 32 -> ops_ok false os -> zlen os < 2 ^ 63 ->
  exists xs a l' e', session maxBytes os e = (Ok xs, Some (l', e')) /\ asteps os (mkAlog 0 []) xs a /\
    sound (existsb is_tier os) e' l' a.
Proof.
  intros [[Hc Hs] Hn] Hm Ho Hb. unfold session.
  destruct (open_empty_spec e maxBytes Hc Hm Hn) as (l0 & e0 & -> & Hc0 & C0 & P0).
  destruct (do_ops_refines os false e0 l0 (mkAlog 0 [])) as (xs & a & l' & e' & -> & S & HS); [|done|by cbn|].
  - split; [split; [done|by rewrite C0]|done].
  - by exists xs, a, l', e'.
Qed.

(** The representation does not depend on faults, and survives any change of
    the store that keeps what it holds. *)
Definition with_faults (fs : list fault) (c : C) e : Env C := mkEnv (mkDir (files (dir e)) fs) c.

Lemma log_rep_faults e l a g gi fs c :
  (forall k x y, holds (cold e) k x y -> holds c k x y) -> log_rep e l a g gi -> log_rep (with_faults fs c e) l a g gi.
Proof.
  intros Hh [Ho Hlt Hm (rs & ra & Hc & Hb & L & Hr) Hf]. split; try done.
  exists rs, ra. split_and!; try done; [|destruct L; by split].
  clear -Hc Hh. revert rs Hc. generalize (oldest a). induction (closed l) as [|s ss IH]; intros b [|r rs]; cbn; try done.
  intros (? & ? & Hst & ? & ?). split_and!; auto. destruct Hst as [(x & y & [])|(x & y & [])]; [left|right]; exists x, y; split; auto.
Qed.

End refinement.
