(* ===== verification/Batch.v ===== *)
(** Producer-side batching ([batch/batch.go]): the batch format, and the batcher
    whose callers and linger goroutine share one pending batch.

    Compression is the class [Gzip]: what [gzip.NewWriter] makes of a body and
    what [gzip.NewReader] with [io.ReadAll] makes of a blob, with the round trip
    the package documents as its law. *)
From S2P Require Import Prelude GoLib Files Cold Segment SegmentFormat.
#[local] Open Scope Z_scope.

Class Gzip := {
  compress : bytes -> bytes;
  decompress : bytes -> res bytes
}.

Class GzipOk `{Gzip} := {
  decompress_compress b : decompress (compress b) = Ok b
}.

Definition magic : bytes := [Byte.x4c; Byte.x44; Byte.x42; Byte.x42].

(** The body of a batch: the count, then each message with its length. *)
Definition batch_body (msgs : list bytes) : bytes := PutUint32 (u32 (zlen msgs)) ++ enc msgs.

(** What [TryDecode] returns: [Plain] is [(nil, false, nil)], [Batch msgs] is
    [(msgs, true, nil)], [Corrupt err] is [(nil, true, err)]. *)
Inductive decoded := Plain | Batch (msgs : list bytes) | Corrupt (err : string).

(** The loop over the messages of a body.  Each round takes at least four bytes,
    so the length of the body bounds the rounds; [None] is a panic, or the
    bound exceeded. *)
Fixpoint decodeLoop (fuel : nat) (body : bytes) (count i pos : Z) (result : list bytes) : option decoded :=
  match fuel with
  | O => None
  | S fuel =>
      if negb (i <? count) then Some (Batch result)
      else if zlen body <? pos + 4 then Some (Corrupt "batch: truncated length prefix")
      else
        lenBuf ← zslice body pos (pos + 4);
        let msgLen := Uint32 lenBuf in
        let pos := pos + 4 in
        if zlen body <? pos + msgLen then Some (Corrupt "batch: truncated payload")
        else
          m ← zslice body pos (pos + msgLen);
          decodeLoop fuel body count (i + 1) (pos + msgLen) (result ++ [m])
  end.

Section codec.
Context `{GZ : Gzip}.

Definition Encode (msgs : list bytes) : bytes := magic ++ compress (batch_body msgs).

Definition TryDecode (blob : bytes) : option decoded :=
  if (zlen blob <? zlen magic) || negb (bool_decide (take (length magic) blob = magic)) then Some Plain
  else
    z ← zsuffix blob (zlen magic);
    match decompress z with
    | Err e => Some (Corrupt e)
    | Ok body =>
        if zlen body <? 4 then Some (Corrupt "batch: truncated body")
        else
          c ← zslice body 0 4;
          decodeLoop (S (length body)) body (Uint32 c) 0 4 []
    end.

End codec.

(** * The codec *)

Definition small (msgs : list bytes) : Prop := Forall (fun m => zlen m < 2 ^ 32) msgs.

Lemma decodeLoop_enc msgs : forall fuel pre tail count i pos result,
  small msgs -> pos = zlen pre -> count = i + zlen msgs -> (length msgs < fuel)%nat ->
  decodeLoop fuel (pre ++ enc msgs ++ tail) count i pos result = Some (Batch (result ++ msgs)).
Proof.
  induction msgs as [|m msgs IH]; intros [|fuel] pre tail count i pos result Hs -> -> Hf; cbn [length] in Hf;
    try lia; cbn [decodeLoop].
  { rewrite zlen_nil, (proj2 (Z.ltb_ge _ _)) by lia. cbn. by rewrite app_nil_r. }
  apply Forall_cons in Hs as [Hm Hs]. rewrite zlen_cons. pose proof (zlen_nonneg msgs). pose proof (zlen_nonneg m).
  rewrite (proj2 (Z.ltb_lt i _)) by lia. cbn [negb enc].
  set (body := pre ++ _). pose proof (zlen_nonneg tail). pose proof (zlen_nonneg (enc msgs)).
  assert (Hbody : zlen body = zlen pre + 4 + zlen m + zlen (enc msgs) + zlen tail).
  { unfold body. rewrite !zlen_app, zlen_enc_rec. lia. }
  assert (Hb : body = pre ++ PutUint32 (u32 (zlen m)) ++ m ++ enc msgs ++ tail).
  { unfold body, enc_rec. by rewrite <- !app_assoc. }
  rewrite (proj2 (Z.ltb_ge _ _)) by lia. rewrite Hb at 1. rewrite zslice_app by done. cbn [mbind option_bind].
  rewrite Uint32_Put, !u32_small by (rewrite ?u32_small; lia). rewrite (proj2 (Z.ltb_ge _ _)) by lia.
  rewrite Hb at 1. rewrite app_assoc. rewrite zslice_app by (rewrite ?zlen_app; done). cbn [mbind option_bind].
  replace body with ((pre ++ enc_rec m) ++ enc msgs ++ tail) by (unfold body; by rewrite <- !app_assoc).
  rewrite IH; [by rewrite <- app_assoc|done|rewrite zlen_app, zlen_enc_rec; lia|lia|lia].
Qed.

(** The loop neither panics nor runs out of rounds, and what it returns is what
    the body starts with. *)
Lemma decodeLoop_sound fuel : forall body count i pos result,
  i <= count -> 0 <= pos <= zlen body -> zlen body < pos + 4 * Z.of_nat fuel ->
  match decodeLoop fuel body count i pos result with
  | None | Some Plain => False
  | Some (Corrupt _) => True
  | Some (Batch r) => exists msgs tail, r = result ++ msgs /\ small msgs /\ zlen msgs = count - i /\
      drop (Z.to_nat pos) body = enc msgs ++ tail
  end.
Proof.
  induction fuel as [|fuel IH]; intros body count i pos result Hi Hpos Hf; [lia|]. cbn [decodeLoop].
  destruct (i <? count) eqn:E; bool_to_prop; cbn [negb].
  2:{ exists [], (drop (Z.to_nat pos) body). rewrite app_nil_r. split_and!; [done|constructor|rewrite zlen_nil; lia|done]. }
  case_test; [done|]. rewrite zslice_Some by lia. cbn [mbind option_bind].
  replace (pos + 4 - pos) with 4 by lia. set (b4 := take _ _). pose proof (Uint32_range b4) as Hr.
  assert (Hdrop : drop (Z.to_nat pos) body = b4 ++ drop (Z.to_nat (pos + 4)) body).
  { unfold b4. rewrite <- (take_drop (Z.to_nat 4) (drop (Z.to_nat pos) body)) at 1. rewrite drop_drop.
    do 3 f_equal. lia. }
  case_test; [done|]. rewrite zslice_Some by lia. cbn [mbind option_bind].
  replace (pos + 4 + Uint32 b4 - (pos + 4)) with (Uint32 b4) by lia. set (m := take _ _).
  assert (Hm : zlen m = Uint32 b4) by (unfold m; rewrite zlen_take; rewrite ?zlen_drop; lia).
  assert (Hdrop2 : drop (Z.to_nat (pos + 4)) body = m ++ drop (Z.to_nat (pos + 4 + Uint32 b4)) body).
  { unfold m. rewrite <- (take_drop (Z.to_nat (Uint32 b4)) (drop (Z.to_nat (pos + 4)) body)) at 1. rewrite drop_drop.
    do 3 f_equal. lia. }
  specialize (IH body count (i + 1) (pos + 4 + Uint32 b4) (result ++ [m]) ltac:(lia) ltac:(lia) ltac:(lia)).
  destruct (decodeLoop _ _ _ _ _ _) as [[|r|]|]; try done.
  destruct IH as (msgs & tail & -> & Hs & Hl & Hd). exists (m :: msgs), tail.
  split_and!; [by rewrite <- app_assoc|constructor; [lia|done]|rewrite zlen_cons; lia|].
  rewrite Hdrop, Hdrop2, Hd. cbn [enc]. unfold enc_rec. rewrite <- !app_assoc. f_equal.
  rewrite Hm, u32_small by lia. symmetry. apply Put_Uint32. unfold b4. rewrite length_take, length_drop. unfold zlen in *. lia.
Qed.

Section codec_proofs.
Context `{GZ : Gzip} `{GZO : !GzipOk}.

Lemma decode_body msgs tail :
  small msgs -> zlen msgs < 2 ^ 32 ->
  zslice (batch_body msgs ++ tail) 0 4 = Some (PutUint32 (u32 (zlen msgs))) /\
  decodeLoop (S (length (batch_body msgs ++ tail))) (batch_body msgs ++ tail) (zlen msgs) 0 4 [] = Some (Batch msgs).
Proof.
  intros Hs Hl. unfold batch_body. rewrite <- app_assoc. split.
  - apply (zslice_app [] (PutUint32 _)); done.
  - rewrite decodeLoop_enc; [done|done|done|lia|].
    pose proof (zlen_enc_ge msgs). rewrite !length_app, PutUint32_len. unfold zlen in *. lia.
Qed.

(** A blob with the magic marker. *)
Lemma TryDecode_magic z :
  TryDecode (magic ++ z) =
  match decompress z with
  | Err e => Some (Corrupt e)
  | Ok body =>
      if zlen body <? 4 then Some (Corrupt "batch: truncated body")
      else c ← zslice body 0 4; decodeLoop (S (length body)) body (Uint32 c) 0 4 []
  end.
Proof.
  unfold TryDecode. pose proof (zlen_nonneg z). rewrite (proj2 (Z.ltb_ge _ _)) by (rewrite zlen_app; lia).
  rewrite take_app_length, bool_decide_true by done. cbn [negb orb].
  rewrite zsuffix_Some by (rewrite zlen_app; split; [done|lia]).
  replace (Z.to_nat (zlen magic)) with (length magic) by done. by rewrite drop_app_length.
Qed.

Lemma TryDecode_body z msgs tail :
  small msgs -> zlen msgs < 2 ^ 32 -> decompress z = Ok (batch_body msgs ++ tail) ->
  TryDecode (magic ++ z) = Some (Batch msgs).
Proof.
  intros Hs Hl Hz. rewrite TryDecode_magic, Hz. destruct (decode_body msgs tail Hs Hl) as [-> E].
  rewrite (proj2 (Z.ltb_ge _ _)).
  2:{ unfold batch_body. rewrite !zlen_app. change (zlen (PutUint32 _)) with 4.
      pose proof (zlen_nonneg (enc msgs)). pose proof (zlen_nonneg tail). lia. }
  cbn [mbind option_bind]. rewrite Uint32_Put. pose proof (zlen_nonneg msgs). rewrite !u32_small; [done|lia|rewrite u32_small; lia].
Qed.

(** A body is decoded or refused, without a panic. *)
Lemma decode_any body :
  match (if zlen body <? 4 then Some (Corrupt "batch: truncated body")
         else c ← zslice body 0 4; decodeLoop (S (length body)) body (Uint32 c) 0 4 []) with
  | None | Some Plain => False
  | Some (Batch msgs) => small msgs /\ zlen msgs < 2 ^ 32 /\ exists tail, body = batch_body msgs ++ tail
  | Some (Corrupt _) => True
  end.
Proof.
  case_test; [done|]. rewrite zslice_Some by lia. cbn [mbind option_bind]. set (b4 := take _ _).
  pose proof (Uint32_range b4).
  pose proof (decodeLoop_sound (S (length body)) body (Uint32 b4) 0 4 [] ltac:(lia) ltac:(lia) ltac:(unfold zlen; lia)) as Hs.
  destruct (decodeLoop _ _ _ _ _ _) as [[|r|e]|]; try done.
  destruct Hs as (msgs & tail & -> & Hs & Hl & Hd). cbn [app]. split_and!; [done|lia|]. exists tail.
  unfold batch_body. rewrite Hl, Z.sub_0_r, u32_small, Put_Uint32; [|unfold b4; rewrite length_take, length_drop; unfold zlen in *; lia|done].
  rewrite <- app_assoc, <- Hd. unfold b4. change (Z.to_nat 0) with 0%nat. rewrite drop_0. symmetry. apply (take_drop 4).
Qed.

(** [TryDecode] never panics, and says what the blob is. *)
Lemma TryDecode_spec blob :
  match TryDecode blob with
  | None => False
  | Some Plain => ~ magic `prefix_of` blob
  | Some (Batch msgs) => small msgs /\ zlen msgs < 2 ^ 32 /\
      exists z tail, blob = magic ++ z /\ decompress z = Ok (batch_body msgs ++ tail)
  | Some (Corrupt _) => exists z, blob = magic ++ z /\
      forall msgs tail, small msgs -> zlen msgs < 2 ^ 32 -> decompress z <> Ok (batch_body msgs ++ tail)
  end.
Proof.
  destruct (decide (magic `prefix_of` blob)) as [[z ->]|Hno].
  2:{ unfold TryDecode. rewrite (bool_decide_false (take _ blob = magic)).
      - by rewrite orb_true_r.
      - intros E. apply Hno. exists (drop (length magic) blob). rewrite <- (take_drop (length magic) blob) at 1. by rewrite E. }
  destruct (TryDecode (magic ++ z)) as [[|msgs|err]|] eqn:E; pose proof E as E'; rewrite TryDecode_magic in E.
  - destruct (decompress z) as [body|]; [|done]. pose proof (decode_any body) as H. by rewrite E in H.
  - destruct (decompress z) as [body|] eqn:Ez; [|done]. pose proof (decode_any body) as H. rewrite E in H.
    destruct H as (Hs & Hl & tail & ->). split_and!; [done|done|]. by exists z, tail.
  - exists z. split; [done|]. intros msgs tail Hs Hl Hz. rewrite (TryDecode_body z msgs tail Hs Hl Hz) in E'. done.
  - destruct (decompress z) as [body|]; [|done]. pose proof (decode_any body) as H. by rewrite E in H.
Qed.

End codec_proofs.

(** * The batcher *)

(** [firstAdded] is a time in nanoseconds; a nil [pending] is the empty list. *)
Record Batcher := mkBatcher {
  maxBatchSize : Z;
  maxLinger : Z;
  pending : list bytes;
  firstAdded : Z
}.

Definition NewBatcher (maxBatchSize maxLinger : Z) : Batcher := mkBatcher maxBatchSize maxLinger [] 0.

(** The critical section of [Add] at time [now], and the batch it took for
    flushing, if any. *)
Definition Add (msg : bytes) (now : Z) (b : Batcher) : Batcher * option (list bytes) :=
  let first := if bool_decide (pending b = []) then now else firstAdded b in
  let pend := pending b ++ [msg] in
  if maxBatchSize b <=? zlen pend
  then (mkBatcher (maxBatchSize b) (maxLinger b) [] first, Some pend)
  else (mkBatcher (maxBatchSize b) (maxLinger b) pend first, None).

(** One tick of [lingerLoop]. *)
Definition lingerTick (now : Z) (b : Batcher) : Batcher * option (list bytes) :=
  if (0 <? zlen (pending b)) && (maxLinger b <=? now - firstAdded b)
  then (mkBatcher (maxBatchSize b) (maxLinger b) [] (firstAdded b), Some (pending b))
  else (b, None).

(** The critical section of [Flush]. *)
Definition FlushPending (b : Batcher) : Batcher * option (list bytes) :=
  (mkBatcher (maxBatchSize b) (maxLinger b) [] (firstAdded b),
   if bool_decide (pending b = []) then None else Some (pending b)).

(** The batcher with its goroutines: a critical section hands its batch to
    [flush], which runs after the mutex is released, so that several batches
    may be on their way to [writeFn] at once.  [flushing] holds those, [written]
    the blobs [writeFn] was called with and whether it accepted them, [added]
    the messages given to [Add] so far; [stopped] is that [stopCh] is closed and
    [lingerLoop] has returned. *)
Record Batching := mkBatching {
  batcher : Batcher;
  flushing : list (list bytes);
  written : list (bytes * bool);
  added : list bytes;
  stopped : bool
}.

Inductive BatchStep := BAdd (msg : bytes) (now : Z) | BLinger (now : Z) | BFlush | BWrite (k : nat) (accepted : bool) | BClose.

Section batching.
Context `{GZ : Gzip}.

Definition handed (r : Batcher * option (list bytes)) (s : Batching) : Batching :=
  mkBatching (fst r) (flushing s ++ option_list (snd r)) (written s) (added s) (stopped s).

(** [Close] flushes nothing; closing [stopCh] again panics. *)
Definition Close (s : Batching) : option Batching :=
  if stopped s then None else Some (mkBatching (batcher s) (flushing s) (written s) (added s) true).

(** [BWrite k] is the [k]-th pending call of [flush]; [None] is a step that cannot be
    taken, or a panic. *)
Definition batch_step (a : BatchStep) (s : Batching) : option Batching :=
  match a with
  | BAdd msg now =>
      let s' := handed (Add msg now (batcher s)) s in
      Some (mkBatching (batcher s') (flushing s') (written s') (added s ++ [msg]) (stopped s))
  | BLinger now => if stopped s then None else Some (handed (lingerTick now (batcher s)) s)
  | BFlush => Some (handed (FlushPending (batcher s)) s)
  | BWrite k accepted =>
      msgs ← flushing s !! k;
      Some (mkBatching (batcher s) (delete k (flushing s)) (written s ++ [(Encode msgs, accepted)]) (added s) (stopped s))
  | BClose => Close s
  end.

Fixpoint batch_run (acts : list BatchStep) (s : Batching) : option Batching :=
  match acts with
  | [] => Some s
  | a :: acts => s' ← batch_step a s; batch_run acts s'
  end.

End batching.

Section batching_proofs.
Context `{GZ : Gzip} `{GZO : !GzipOk}.

(** A flush that does not overtake another. *)
Definition in_turn (a : BatchStep) : bool := match a with BWrite (S _) _ => false | _ => true end.

(** A batch has between one and [maxBatchSize] messages. *)
Definition sized (n : Z) (b : list bytes) : Prop := 1 <= zlen b <= Z.max 1 n.

(** The batches written so far, those on their way and the pending messages
    make up what was added. *)
Record conserved (fifo : bool) (n : Z) (s : Batching) (batches : list (list bytes)) : Prop := {
  cv_max : maxBatchSize (batcher s) = n;
  cv_written : map fst (written s) = map Encode batches;
  cv_pending : zlen (pending (batcher s)) < Z.max 1 n;
  cv_sized : Forall (sized n) (batches ++ flushing s);
  cv_perm : concat (batches ++ flushing s) ++ pending (batcher s) ≡ₚ added s;
  cv_order : fifo = true -> concat (batches ++ flushing s) ++ pending (batcher s) = added s
}.

Lemma concat_handed (bs fl : list (list bytes)) (o : option (list bytes)) pend :
  concat (bs ++ fl ++ option_list o) ++ pend = concat (bs ++ fl) ++ default [] o ++ pend.
Proof. destruct o; cbn; rewrite app_assoc, concat_app; cbn; by rewrite ?app_nil_r, <- ?app_assoc. Qed.

(** A critical section that takes the pending messages, or leaves them. *)
Lemma handed_conserved fifo n s batches r extra :
  conserved fifo n s batches ->
  maxBatchSize (fst r) = n -> zlen (pending (fst r)) < Z.max 1 n ->
  (forall b, snd r = Some b -> sized n b) -> default [] (snd r) ++ pending (fst r) = pending (batcher s) ++ extra ->
  conserved fifo n (mkBatching (fst r) (flushing s ++ option_list (snd r)) (written s) (added s ++ extra) (stopped s)) batches.
Proof.
  intros [Hn Hw Hp Hs Hperm Hord] Hn' Hp' Hb Heq. split; cbn; try done.
  - rewrite app_assoc. apply Forall_app. split; [done|]. destruct (snd r); constructor; auto.
  - rewrite concat_handed, Heq, app_assoc. by rewrite Hperm.
  - intros Hf. rewrite concat_handed, Heq, app_assoc. by rewrite Hord.
Qed.

Lemma batch_step_conserved (fifo : bool) n s batches a s' :
  conserved fifo n s batches -> batch_step a s = Some s' ->
  (fifo = true -> in_turn a = true) ->
  exists batches', conserved fifo n s' batches'.
Proof.
  intros HC H Hf. pose proof (cv_max _ _ _ _ HC) as Hn. pose proof (cv_pending _ _ _ _ HC) as Hp.
  destruct a as [msg now|now| |k acc|]; cbn in H; unfold Close in H; try (destruct (stopped s) eqn:Est; [done|]);
    try injection H as <-.
  - exists batches. apply (handed_conserved _ _ _ _ (Add msg now (batcher s)) [msg] HC); unfold Add; case_test; cbn;
      rewrite ?zlen_snoc, ?zlen_nil in *; try done; try lia; rewrite ?app_nil_r; try done.
    all: intros b [= <-]; unfold sized; rewrite zlen_snoc; pose proof (zlen_nonneg (pending (batcher s))); lia.
  - exists batches. pose proof (handed_conserved _ _ _ _ (lingerTick now (batcher s)) [] HC) as HH. rewrite !app_nil_r in HH.
    apply HH; unfold lingerTick; case_test; cbn; rewrite ?app_nil_r, ?zlen_nil; try done; try lia.
    all: try (intros b [= <-]; unfold sized; lia).
  - exists batches. pose proof (handed_conserved _ _ _ _ (FlushPending (batcher s)) [] HC) as HH. rewrite !app_nil_r in HH.
    apply HH; cbn; try done; [rewrite zlen_nil; lia| |]; case_bool_decide as E; try done; rewrite ?E, ?app_nil_r; try done.
    intros b [= <-]. unfold sized. destruct (pending (batcher s)) as [|x l]; [done|]. rewrite zlen_cons in *. pose proof (zlen_nonneg l). lia.
  - destruct (flushing s !! k) as [msgs|] eqn:Ek; cbn in H; [|done]. injection H as <-. exists (batches ++ [msgs]).
    destruct HC as [_ Hw _ Hs Hperm Hord].
    assert (Hpm : flushing s ≡ₚ msgs :: delete k (flushing s)) by (by apply delete_Permutation).
    assert (Hpm' : batches ++ flushing s ≡ₚ (batches ++ [msgs]) ++ delete k (flushing s))
      by (rewrite <- app_assoc; by apply Permutation_app_head).
    split; cbn; try done.
    + rewrite !map_app, Hw. done.
    + by rewrite <- Hpm'.
    + rewrite <- Hperm. by rewrite Hpm'.
    + intros Hff. rewrite <- (Hord Hff). specialize (Hf Hff). destruct k; [|done].
      destruct (flushing s); [done|]. injection Ek as ->. cbn. by rewrite <- app_assoc.
  - exists batches. by destruct HC.
Qed.

Lemma batch_run_conserved (fifo : bool) n acts : forall s batches s',
  conserved fifo n s batches -> batch_run acts s = Some s' ->
  (fifo = true -> forallb in_turn acts = true) ->
  exists batches', conserved fifo n s' batches'.
Proof.
  induction acts as [|a acts IH]; intros s batches s' HC H Hf; cbn in H.
  { injection H as <-. by exists batches. }
  bind_inv H. destruct (batch_step_conserved fifo n s batches a x HC Ebind) as (batches1 & H1).
  { intros Hff. specialize (Hf Hff). by apply andb_true_iff in Hf as [? _]. }
  apply (IH x batches1 s' H1 H). intros Hff. specialize (Hf Hff). by apply andb_true_iff in Hf as [_ ?].
Qed.

(** Round trip of the batch format: decoding an encoded batch gives back its
    messages, for fewer than 2^32 messages of less than 4 GiB each. *)
Lemma batch_roundtrip msgs :
  small msgs -> zlen msgs < 2 ^ 32 -> TryDecode (Encode msgs) = Some (Batch msgs).
Proof.
  intros Hs Hl. apply (TryDecode_body _ msgs []); [done|done|]. rewrite app_nil_r. apply decompress_compress.
Qed.

Lemma batches_conserved n linger acts s :
  batch_run acts (mkBatching (NewBatcher n linger) [] [] [] false) = Some s ->
  small (added s) -> zlen (added s) < 2 ^ 32 ->
  exists batches, map (fun '(blob, _) => TryDecode blob) (written s) = map (fun b => Some (Batch b)) batches /\
    Forall (fun b => 1 <= zlen b <= Z.max 1 n) batches /\
    concat (batches ++ flushing s) ++ pending (batcher s) ≡ₚ added s /\
    (forallb in_turn acts = true ->
     concat (batches ++ flushing s) ++ pending (batcher s) = added s).
Proof.
  intros H Hs Hl. set (fifo := forallb in_turn acts).
  assert (H0 : conserved fifo n (mkBatching (NewBatcher n linger) [] [] [] false) []) by (split; cbn; try done; rewrite ?zlen_nil; lia).
  destruct (batch_run_conserved fifo n acts _ [] s H0 H ltac:(done)) as (batches & [_ Hw _ Hsz Hp Ho]).
  apply Forall_app in Hsz as [Hsz _]. exists batches. split_and!; [|done|done|exact Ho].
  replace (map _ (written s)) with (map TryDecode (map fst (written s))) by (rewrite map_map; by apply map_ext; intros []).
  rewrite Hw, map_map. apply map_ext_in. intros b Hb%list_elem_of_In.
  assert (Hsub : forall m, m ∈ b -> m ∈ added s).
  { intros m Hm. rewrite <- Hp, concat_app, !elem_of_app. left; left. apply list_elem_of_In, in_concat. exists b.
    by rewrite <- !list_elem_of_In. }
  apply (TryDecode_body _ b []); [|apply (Z.le_lt_trans _ (zlen (added s))); [|done]|rewrite app_nil_r; apply decompress_compress].
  - apply list.Forall_forall. intros m Hm. apply (proj1 (list.Forall_forall _ _) Hs m), Hsub, Hm.
  - unfold zlen. rewrite <- (Permutation_length Hp), !length_app, concat_app, length_app.
    apply list_elem_of_split in Hb as (l1 & l2 & ->). rewrite concat_app. cbn. rewrite !length_app. lia.
Qed.

(** C24: Batches.  [TryDecode] is total and exact on any bytes: it never slices out
    of range, calls a blob plain exactly when the marker is missing, returns
    messages only when they are what the decompressed body starts with, and
    reports an error only when the body is not a batch.  The batcher loses and
    duplicates nothing on its way to [writeFn], however callers, the linger
    goroutine, concurrent flushes and [Close] interleave: every blob written is a
    batch of one to [maxBatchSize] messages, and the messages written, on their way
    and pending are those added; in the order they were added when flushes do not
    overtake each other. *)
Theorem batcher_conserves n linger :
  (forall blob, match TryDecode blob with
   | None => False
   | Some Plain => ~ magic `prefix_of` blob
   | Some (Batch msgs) => small msgs /\ zlen msgs < 2 ^ 32 /\
       exists z tail, blob = magic ++ z /\ decompress z = Ok (batch_body msgs ++ tail)
   | Some (Corrupt _) => exists z, blob = magic ++ z /\
       forall msgs tail, small msgs -> zlen msgs < 2 ^ 32 -> decompress z <> Ok (batch_body msgs ++ tail)
   end) /\
  (forall acts s, batch_run acts (mkBatching (NewBatcher n linger) [] [] [] false) = Some s ->
   small (added s) -> zlen (added s) < 2 ^ 32 ->
   exists batches, map (fun '(blob, _) => TryDecode blob) (written s) = map (fun b => Some (Batch b)) batches /\
     Forall (fun b => 1 <= zlen b <= Z.max 1 n) batches /\
     concat (batches ++ flushing s) ++ pending (batcher s) ≡ₚ added s /\
     (forallb in_turn acts = true ->
      concat (batches ++ flushing s) ++ pending (batcher s) = added s)).
Proof. split; [exact TryDecode_spec|intros; by eapply batches_conserved]. Qed.

End batching_proofs.

(** * Witnesses *)

(** A compression to try the theorems on: the identity behind a two-byte header. *)
#[local] Instance framed : Gzip := {|
  compress b := Byte.x1f :: Byte.x8b :: b;
  decompress z := match z with Byte.x1f :: Byte.x8b :: b => Ok b | _ => Err "gzip: invalid header" end
|}.
#[local] Instance framed_ok : GzipOk := {| decompress_compress b := eq_refl |}.

Definition ab : bytes := bytes_of_string "ab".
Definition cd : bytes := bytes_of_string "cd".

Definition batch_acts : list BatchStep :=
  [BAdd ab 0; BAdd cd 1; BAdd cd 2; BLinger 20; BWrite 1 true; BWrite 0 false; BAdd ab 30; BClose].
Definition batch_result : Batching :=
  default (mkBatching (NewBatcher 2 10) [] [] [] false) (batch_run batch_acts (mkBatching (NewBatcher 2 10) [] [] [] false)).

Lemma batcher_conserves_witness :
  exists batches, map (fun '(blob, _) => TryDecode blob) (written batch_result) = map (fun b => Some (Batch b)) batches /\
    concat (batches ++ flushing batch_result) ++ pending (batcher batch_result) ≡ₚ [ab; cd; cd; ab].
Proof.
  destruct (proj2 (batcher_conserves (GZ := framed) 2 10) batch_acts batch_result) as (batches & H1 & _ & H2 & _);
    [vm_compute; reflexivity|by repeat constructor|reflexivity|].
  exists batches. split; [exact H1|exact H2].
Defined.
