(* ===== verification/Partition.v ===== *)
(** The partitioned log ([storage/partition.go]): independent logs, one
    directory each, and a hash of the key that picks the one to append to.

    Partition [i] lives in the subdirectory [partition-i]; [envs i] is that
    directory with the partition's cold store.  The outer [option] of an
    operation is a run-time panic. *)
From S2P Require Import Prelude GoLib Files Cold Segment SegmentProof SegmentLog LogProof LogLifecycle LogRecover LogRefine.
#[local] Open Scope Z_scope.

Record PartitionedLog := mkPartitioned {
  numPartitions : Z;
  partitions : list Log
}.

Section partitioned.
Context {C : Type} `{CS : ColdStore C}.

Definition Parts := (Z -> Env C).

(** The loop of [OpenPartitioned] from partition [i] on. *)
Fixpoint openParts (n : nat) (i : Z) (maxSegmentBytes : Z) (acc : list Log) : M Parts (list Log) := fun envs =>
  match n with
  | O => (Ok acc, envs)
  | S n =>
      match Open maxSegmentBytes (envs i) with
      | (Err _, e) => (Err "open partition", upd envs i e)
      | (Ok l, e) => openParts n (i + 1) maxSegmentBytes (acc ++ [l]) (upd envs i e)
      end
  end.

Definition OpenPartitioned (num maxSegmentBytes : Z) : M Parts PartitionedLog :=
  if num <? 1 then fail "numPartitions must be >= 1"
  else ls ← openParts (Z.to_nat num) 0 maxSegmentBytes []; mret (mkPartitioned num ls).

(** [int(h.Sum32()) % pl.numPartitions], with Go's truncated remainder. *)
Definition PartitionFor (pl : PartitionedLog) (key : string) : option Z :=
  if numPartitions pl =? 0 then None
  else Some (Z.rem (fnv32a (bytes_of_string key)) (numPartitions pl)).

Definition set_partition (i : Z) (l : Log) (pl : PartitionedLog) : PartitionedLog :=
  mkPartitioned (numPartitions pl) (<[Z.to_nat i := l]> (partitions pl)).

Definition Append (key : string) (payload : bytes) (pl : PartitionedLog) (envs : Parts)
  : option (Z * res Z * (PartitionedLog * Parts)) :=
  partition ← PartitionFor pl key;
  l ← (partitions pl) @[partition];
  let '(r, (l, e)) := SegmentLog.Append payload (l, envs partition) in
  Some (partition, r, (set_partition partition l pl, upd envs partition e)).

Definition Read (partition offset : Z) (pl : PartitionedLog) (envs : Parts)
  : option (res bytes * (PartitionedLog * Parts)) :=
  if (partition <? 0) || (numPartitions pl <=? partition) then Some (Err "partition out of range", (pl, envs))
  else
    l ← (partitions pl) @[partition];
    let '(r, (l, e)) := SegmentLog.Read offset (l, envs partition) in
    Some (r, (set_partition partition l pl, upd envs partition e)).

Definition NumPartitions (pl : PartitionedLog) : Z := numPartitions pl.

Definition NextOffset (partition : Z) (pl : PartitionedLog) : option Z :=
  SegmentLog.NextOffset <$> (partitions pl) @[partition].

(** The loop of [Close] from partition [i] on. *)
Fixpoint closeParts (ls : list Log) (i : Z) (envs : Parts) : res unit * (list Log * Parts) :=
  match ls with
  | [] => (Ok tt, ([], envs))
  | l :: ls =>
      match CloseLog (l, envs i) with
      | (Err _, (l, e)) => (Err "close partition", (l :: ls, upd envs i e))
      | (Ok _, (l, e)) => let '(r, (ls, envs)) := closeParts ls (i + 1) (upd envs i e) in (r, (l :: ls, envs))
      end
  end.

Definition Close (pl : PartitionedLog) (envs : Parts) : res unit * (PartitionedLog * Parts) :=
  let '(r, (ls, envs)) := closeParts (partitions pl) 0 envs in (r, (mkPartitioned (numPartitions pl) ls, envs)).

(** A sequence of appends and what they returned. *)
Fixpoint appends (kps : list (string * bytes)) (pl : PartitionedLog) (envs : Parts)
  : option (list (Z * res Z) * (PartitionedLog * Parts)) :=
  match kps with
  | [] => Some ([], (pl, envs))
  | (key, p) :: kps =>
      '(i, r, (pl, envs)) ← Append key p pl envs;
      '(rs, st) ← appends kps pl envs;
      Some ((i, r) :: rs, st)
  end.

(** * Routing *)

Context `{CSO : !ColdStoreOk C}.

(** The payloads whose keys hash to partition [i]. *)
Definition routed (num i : Z) (kps : list (string * bytes)) : list bytes :=
  map snd (filter (fun '(key, _) => fnv32a (bytes_of_string key) mod num = i) kps).

(** Every partition [i] is sound and holds [recs i]. *)
Record parts_rep (num : Z) (recs : Z -> list bytes) (pl : PartitionedLog) (envs : Parts) : Prop := {
  pt_num : numPartitions pl = num;
  pt_len : zlen (partitions pl) = num;
  pt_sound : forall i, 0 <= i < num ->
    exists l, (partitions pl) @[i] = Some l /\ sound false (envs i) l (mkAlog 0 (recs i))
}.

Lemma PartitionFor_spec pl key : 0 < numPartitions pl ->
  PartitionFor pl key = Some (fnv32a (bytes_of_string key) mod numPartitions pl) /\
  0 <= fnv32a (bytes_of_string key) mod numPartitions pl < numPartitions pl.
Proof.
  intros H. unfold PartitionFor. rewrite (proj2 (Z.eqb_neq _ _)) by lia.
  pose proof (fnv32a_range (bytes_of_string key)). rewrite Z.rem_mod_nonneg by lia.
  split; [done|]. apply Z.mod_pos_bound; lia.
Qed.

Lemma openParts_spec maxBytes n : forall i acc envs,
  maxBytes <= 2 ^ 32 -> (forall j, i <= j < i + Z.of_nat n -> blank (envs j)) ->
  exists ls envs', openParts n i maxBytes acc envs = (Ok (acc ++ ls), envs') /\ length ls = n /\
    (forall j, j < i -> envs' j = envs j) /\
    forall k l, ls !! k = Some l -> sound false (envs' (i + Z.of_nat k)) l (mkAlog 0 []).
Proof.
  induction n as [|n IH]; intros i acc envs Hm Hb; cbn [openParts].
  { exists [], envs. rewrite app_nil_r. by split_and!. }
  destruct (Hb i ltac:(lia)) as [[Hc Hs] Hn].
  destruct (open_empty_spec (envs i) maxBytes Hc Hm Hn) as (l0 & e0 & -> & Hc0 & C0 & P0).
  destruct (IH (i + 1) (acc ++ [l0]) (upd envs i e0) Hm) as (ls & envs' & -> & Hl & Hlow & Hall).
  { intros j Hj. rewrite upd_ne by lia. apply Hb. lia. }
  exists (l0 :: ls), envs'. rewrite <- app_assoc. split_and!; [done|cbn; lia| |].
  - intros j Hj. rewrite Hlow, upd_ne by lia. done.
  - intros [|k] l Hk; cbn in Hk.
    + injection Hk as <-. rewrite Z.add_0_r, Hlow, upd_eq by lia. split; [split; [done|by rewrite C0]|done].
    + replace (i + Z.of_nat (S k)) with (i + 1 + Z.of_nat k) by lia. by apply Hall.
Qed.

Lemma OpenPartitioned_spec num maxBytes envs :
  1 <= num -> maxBytes <= 2 ^ 32 -> (forall j, 0 <= j < num -> blank (envs j)) ->
  exists pl envs', OpenPartitioned num maxBytes envs = (Ok pl, envs') /\ parts_rep num (fun _ => []) pl envs'.
Proof.
  intros Hn Hm Hb. unfold OpenPartitioned. rewrite (proj2 (Z.ltb_ge _ _)) by lia.
  destruct (openParts_spec maxBytes (Z.to_nat num) 0 [] envs Hm) as (ls & envs' & E & Hl & _ & Hall).
  { intros j Hj. apply Hb. lia. }
  unfold mbind, M_bind. rewrite E. eexists _, envs'. split; [done|]. split; cbn; [done|unfold zlen; lia|].
  intros i Hi. destruct (zget_Some ls i) as [l Hget]; [unfold zlen; lia|]. exists l. split; [done|].
  destruct (zget_nat _ _ _ Hget) as (k & -> & Hk). apply (Hall k l Hk).
Qed.

(** One append goes to the end of the partition of its key. *)
Lemma append_parts num recs pl envs key p :
  parts_rep num recs pl envs -> 1 <= num -> zlen p < 2 ^ 32 -> (forall i, zlen (recs i) + 1 < 2 ^ 63) ->
  let i := fnv32a (bytes_of_string key) mod num in
  exists pl' envs', Append key p pl envs = Some (i, Ok (zlen (recs i)), (pl', envs')) /\
    parts_rep num (upd recs i (recs i ++ [p])) pl' envs'.
Proof.
  intros [Hn Hl Hs] H1 Hp Hb i. destruct (PartitionFor_spec pl key) as [E Hi]; [lia|]. rewrite Hn in *. fold i in E, Hi.
  destruct (Hs i Hi) as (l & Hget & HS). unfold Append. rewrite E. cbn [mbind option_bind]. rewrite Hget. cbn [mbind option_bind].
  destruct (sound_append _ _ _ _ p HS Hp) as (l' & e' & -> & HS'); [cbn; specialize (Hb i); lia|]. cbn [oldest records] in *.
  eexists _, _. split; [done|]. destruct (zget_nat _ _ _ Hget) as (k & Hk & Hlk).
  split; cbn; [done|unfold zlen in *; by rewrite length_insert|].
  intros j Hj. destruct (decide (j = i)) as [->|Hne].
  - rewrite !upd_eq. exists l'. split; [|done]. rewrite Hk. unfold zget. rewrite (proj2 (Z.ltb_ge _ _)) by lia. rewrite !Nat2Z.id.
    apply list_lookup_insert_eq. by eapply lookup_lt_Some.
  - rewrite !upd_ne by done. destruct (Hs j Hj) as (lj & Hgj & HSj). exists lj. split; [|done].
    rewrite <- Hgj. unfold zget. case_test; [done|]. apply list_lookup_insert_ne. lia.
Qed.

Lemma routed_cons num i key p kps :
  routed num i ((key, p) :: kps) =
  (if decide (fnv32a (bytes_of_string key) mod num = i) then [p] else []) ++ routed num i kps.
Proof. unfold routed. rewrite filter_cons. by destruct (decide _). Qed.

Lemma zlen_routed num i kps : zlen (routed num i kps) <= zlen kps.
Proof. unfold routed, zlen. rewrite length_map. pose proof (length_filter (fun '(key, _) => fnv32a (bytes_of_string key) mod num = i) kps). lia. Qed.

Lemma parts_rep_ext num recs recs' pl envs :
  (forall i, recs i = recs' i) -> parts_rep num recs pl envs -> parts_rep num recs' pl envs.
Proof. intros E [? ? Hs]. split; try done. intros i Hi. destruct (Hs i Hi) as (l & ? & ?). exists l. by rewrite <- E. Qed.

Lemma appends_spec num kps : forall recs pl envs,
  parts_rep num recs pl envs -> 1 <= num -> Forall (fun '(_, p) => zlen p < 2 ^ 32) kps ->
  (forall i, zlen (recs i) + zlen kps < 2 ^ 63) ->
  exists rs pl' envs', appends kps pl envs = Some (rs, (pl', envs')) /\
    parts_rep num (fun i => recs i ++ routed num i kps) pl' envs' /\
    forall k key p, kps !! k = Some (key, p) ->
      let i := fnv32a (bytes_of_string key) mod num in
      rs !! k = Some (i, Ok (zlen (recs i ++ routed num i (take k kps)))).
Proof.
  induction kps as [|[key p] kps IH]; intros recs pl envs HP H1 Hp Hb; cbn [appends].
  { exists [], pl, envs. split; [done|]. split; [|done]. eapply parts_rep_ext, HP. intros i. by rewrite app_nil_r. }
  apply Forall_cons in Hp as [Hp Hps]. pose proof (zlen_nonneg kps).
  assert (Hb' : forall i, zlen (recs i) + 1 + zlen kps < 2 ^ 63) by (intros i; specialize (Hb i); rewrite zlen_cons in Hb; lia).
  destruct (append_parts num recs pl envs key p HP H1 Hp) as (pl1 & envs1 & -> & HP1); [intros i; specialize (Hb' i); lia|].
  cbn [mbind option_bind]. set (i0 := fnv32a (bytes_of_string key) mod num) in *.
  assert (Happ : forall i l, upd recs i0 (recs i0 ++ [p]) i ++ l = recs i ++ (if decide (i0 = i) then [p] else []) ++ l).
  { intros i l. unfold upd. destruct (decide (i = i0)) as [->|Hne].
    - rewrite decide_True by done. by rewrite <- app_assoc.
    - by rewrite decide_False. }
  destruct (IH _ pl1 envs1 HP1 H1 Hps) as (rs & pl2 & envs2 & -> & HP2 & Hrs).
  { intros i. specialize (Hb' i). unfold upd. destruct (decide (i = i0)) as [->|]; rewrite ?zlen_snoc; lia. }
  exists ((i0, Ok (zlen (recs i0))) :: rs), pl2, envs2. split; [done|]. split.
  - eapply parts_rep_ext, HP2. intros i. cbv beta. by rewrite Happ, routed_cons.
  - intros [|k] key' p' Hk; cbn in Hk.
    + injection Hk as <- <-. fold i0. cbn. by rewrite app_nil_r.
    + specialize (Hrs k key' p' Hk). cbv zeta in *. rewrite Happ in Hrs. cbn [take]. by rewrite routed_cons.
Qed.

(** C33: The partitioned log keeps every key's records together and in order.
    Opened over empty directories, after any sequence of appends partition [i]
    reads exactly as the sequence of the payloads whose keys hash to [i]; each
    append returned the partition of its key, always in range, and the number of
    records that partition had.  No index is out of range. *)
Theorem partitioned_routing num maxBytes kps envs :
  1 <= num -> maxBytes <= 2 ^ 32 -> (forall i, 0 <= i < num -> blank (envs i)) ->
  Forall (fun '(_, p) => zlen p < 2 ^ 32) kps -> zlen kps < 2 ^ 63 ->
  exists pl0 envs0 rs pl envs', OpenPartitioned num maxBytes envs = (Ok pl0, envs0) /\
    appends kps pl0 envs0 = Some (rs, (pl, envs')) /\
    (forall k key p, kps !! k = Some (key, p) -> exists i,
       PartitionFor pl0 key = Some i /\ 0 <= i < num /\ rs !! k = Some (i, Ok (zlen (routed num i (take k kps))))) /\
    (forall i off, 0 <= i < num -> exists st, Read i off pl envs' =
       Some (match (routed num i kps) @[off] with Some p => Ok p | None => Err "offset not found" end, st)) /\
    (forall i, 0 <= i < num -> NextOffset i pl = Some (zlen (routed num i kps))).
Proof.
  intros H1 Hm Hb Hp Hl. destruct (OpenPartitioned_spec num maxBytes envs H1 Hm Hb) as (pl0 & envs0 & -> & HP0).
  destruct (appends_spec num kps _ pl0 envs0 HP0 H1 Hp) as (rs & pl & envs' & E & HP & Hrs).
  { intros i. cbv beta. rewrite zlen_nil. lia. }
  exists pl0, envs0, rs, pl, envs'. split; [done|]. split; [done|]. split_and!.
  - intros k key p Hk. destruct (PartitionFor_spec pl0 key) as [EP Hi]; [destruct HP0; lia|].
    rewrite (pt_num _ _ _ _ HP0) in *. eexists. split; [exact EP|]. split; [done|]. exact (Hrs k key p Hk).
  - intros i off Hi. destruct (pt_sound _ _ _ _ HP i Hi) as (l & Hget & HS). unfold Read.
    rewrite (pt_num _ _ _ _ HP), (proj2 (Z.ltb_ge _ _)), (proj2 (Z.leb_gt _ _)), Hget by lia. cbn [orb mbind option_bind].
    destruct (SegmentLog.Read off (l, envs' i)) as [r [l' e']] eqn:ER.
    destruct (log_rep_observes _ _ _ _ _ (sound_rep _ _ _ _ HS) (proj1 HS)) as (HO & _). specialize (HO off).
    rewrite ER in HO. cbn in HO. rewrite Z.sub_0_r in HO. rewrite HO. by eexists.
  - intros i Hi. destruct (pt_sound _ _ _ _ HP i Hi) as (l & Hget & HS). unfold NextOffset. rewrite Hget. cbn. f_equal.
    destruct (log_rep_observes _ _ _ _ _ (sound_rep _ _ _ _ HS) (proj1 HS)) as (_ & HN & _). exact HN.
Qed.

End partitioned.

Definition blank_env : Env LocalDirColdStore := mkEnv (mkDir ∅ []) (mkDir ∅ []).

Lemma blank_env_blank : blank blank_env.
Proof. split; [done|]. intros name c. cbn. by rewrite lookup_empty. Qed.

Definition keyed_appends : list (string * bytes) :=
  [("alice", bytes_of_string "a1"); ("bob", bytes_of_string "b1"); ("alice", bytes_of_string "a2")]%string.

Lemma partitioned_routing_witness :
  exists pl0 envs0 rs pl envs', OpenPartitioned 3 64 (fun _ => blank_env) = (Ok pl0, envs0) /\
    appends keyed_appends pl0 envs0 = Some (rs, (pl, envs')) /\ exists i, PartitionFor pl0 "alice" = Some i /\
    rs !! 2%nat = Some (i, Ok (zlen (routed 3 i (take 2 keyed_appends)))).
Proof.
  destruct (partitioned_routing 3 64 keyed_appends (fun _ => blank_env)) as (pl0 & envs0 & rs & pl & envs' & H1 & H2 & H3 & _);
    [lia|lia|intros; apply blank_env_blank|by repeat constructor|reflexivity|].
  exists pl0, envs0, rs, pl, envs'. split; [exact H1|]. split; [exact H2|].
  destruct (H3 2%nat "alice"%string (bytes_of_string "a2") eq_refl) as (i & H4 & _ & H5). exists i. split; [exact H4|exact H5].
Defined.
