(* ===== verification/Replica.v ===== *)
(** A replicated state machine: the Raft group together with, at every peer, the
    application that drains its apply channel.

    [replication/partition.go], [docstore/replicated.go] and
    [docstore/replicated_locked.go] have the same shape: a goroutine takes one
    message at a time from the channel and applies it to a local state.  [apply]
    is the body of that loop ([None] is a panic).  One action of the group that
    consumes a message runs the body. *)
From S2P Require Import Prelude Raft RaftCluster RaftLog RaftInv RaftSteps RaftHandlers RaftSafety RaftTheorems.

Section replica.
Context {S : Type} (apply : ApplyMsg -> S -> option S) (lastAppliedRaftIndex : S -> Z).
Context (ps : list Z) (chanCap : nat) (start : Z -> S).

Record RepWorld := mkRep { group : World; replica : Z -> S }.

Inductive rep_outcome := RNext (w : RepWorld) | RDisabled | RPanic.

Definition rexec (a : Action) (w : RepWorld) : rep_outcome :=
  match exec ps chanCap a (group w) with
  | Disabled => RDisabled
  | Panic => RPanic
  | Next g =>
      match a with
      | AConsume i =>
          match applyCh (nodes (group w) i) with
          | [] => RDisabled
          | m :: _ =>
              match apply m (replica w i) with
              | Some s => RNext (mkRep g (upd (replica w) i s))
              | None => RPanic
              end
          end
      | _ => RNext (mkRep g (replica w))
      end
  end.

Inductive rreachable : RepWorld -> Prop :=
| rreach_init draw : rreachable (mkRep (init ps draw) start)
| rreach_step w a w' : rreachable w -> rexec a w = RNext w' -> rreachable w'.

Fixpoint rrun (acts : list Action) (w : RepWorld) : rep_outcome :=
  match acts with
  | [] => RNext w
  | a :: acts => match rexec a w with RNext w' => rrun acts w' | o => o end
  end.

Lemma rrun_reachable acts w w' : rreachable w -> rrun acts w = RNext w' -> rreachable w'.
Proof.
  revert w; induction acts as [|a acts IH]; cbn; intros w Hw H; [congruence|].
  destruct (rexec a w) eqn:E; try done. eapply IH; [|done]. by eapply rreach_step.
Qed.

(** The calls of the application into the peer beside it.  [Submit] is [Start]
    ([None] is a panic); [Shutdown] kills the peer and closes the local state. *)
Definition Submit (command : option Cmd) (i : Z) (w : RepWorld) : option (Z * Z * bool * RepWorld) :=
  '(_, r) ← Start command (peer_state (group w) i);
  match rexec (AStart i command) w with RNext w => Some (r, w) | _ => None end.

Definition PeerState (i : Z) (w : RepWorld) : Z * bool := GetState (peer_state (group w) i).

Definition Shutdown {R} (close : S -> R * S) (i : Z) (w : RepWorld) : option (R * RepWorld) :=
  match rexec (AKill i) w with
  | RNext w => let '(r, s) := close (replica w i) in Some (r, mkRep (group w) (upd (replica w) i s))
  | _ => None
  end.

(** Applying a sequence of messages. *)
Fixpoint applies (ms : list ApplyMsg) (s : S) : option S :=
  match ms with
  | [] => Some s
  | m :: ms => s' ← apply m s; applies ms s'
  end.

Lemma applies_app ms1 ms2 s : applies (ms1 ++ ms2) s = (s' ← applies ms1 s; applies ms2 s').
Proof. revert s; induction ms1 as [|m ms1 IH]; intros s; cbn; [done|]. destruct (apply m s); cbn; auto. Qed.

Lemma rexec_group a w w' : rexec a w = RNext w' -> exec ps chanCap a (group w) = Next (group w').
Proof.
  unfold rexec. destruct (exec ps chanCap a (group w)) as [g| |]; [|done..].
  destruct a; try (by intros [= <-]). destruct (applyCh _); [done|]. destruct (apply _ _); [|done]. by intros [= <-].
Qed.

Lemma rrun_group acts w w' : rrun acts w = RNext w' -> run ps chanCap acts (group w) = Next (group w').
Proof.
  revert w; induction acts as [|a acts IH]; cbn; intros w H; [by injection H as <-|].
  destruct (rexec a w) as [w1| |] eqn:E; [|done..]. rewrite (rexec_group _ _ _ E). by apply IH.
Qed.

Lemma rrun_app a b w : rrun (a ++ b) w = match rrun a w with RNext w => rrun b w | o => o end.
Proof. revert w; induction a as [|x a IH]; intros w; cbn [rrun app]; [done|]. by destruct (rexec x w). Qed.

(** Time does not go back, and can always pass. *)
Lemma exec_clock a w w' : exec ps chanCap a w = Next w' -> clock w <= clock w'.
Proof.
  intros H. destruct a as [d|j|j r|k r|k|j c|j|j|j|j]; cbn in H.
  - case_test_in H; [|done]. injection H as <-. cbn. lia.
  - case_test_in H; [done|]. by injection H as <-.
  - case_test_in H; [done|]. destruct (startElection _ _) as [[r' args]|]; [|done]. by injection H as <-.
  - destruct (pool w !! k) as [m|]; [|done]. destruct m; cbn in H.
    + destruct (RequestVote _ _ _) as [[??]|]; [|done]. by injection H as <-.
    + destruct (onVoteReply _ _ _ _ _) as [[[??][]]|]; [| |done]; by injection H as <-.
    + repeat case_test_in H; by injection H as <-.
    + destruct (prepareAppendEntries _ _ _) as [[?|]|]; [| |done]; by injection H as <-.
    + destruct (AppendEntries _ _ _) as [[??]|]; [|done]. by injection H as <-.
    + destruct (onAppendReply _ _ _ _ _ _) as [?|]; [|done]. by injection H as <-.
  - destruct (pool w !! k); [|done]. destruct (losable _); [|done]. by injection H as <-.
  - case_test_in H; [done|]. destruct (Start _ _) as [[? [[??][]]]|]; [| |done]; by injection H as <-.
  - case_test_in H; [done|]. destruct (applyTick _) as [[??]|]; [|done]. by injection H as <-.
  - destruct (sending _); [done|]. case_test_in H; [|done]. by injection H as <-.
  - destruct (applyCh (nodes w j)); [done|]. by injection H as <-.
  - case_test_in H; [done|]. by injection H as <-.
Qed.

Lemma rrun_clock acts : forall w w', rrun acts w = RNext w' -> clock (group w) <= clock (group w').
Proof.
  induction acts as [|a acts IH]; intros w w' H; cbn [rrun] in H; [by injection H as <-|].
  destruct (rexec a w) as [w1| |] eqn:E; [|done..]. apply rexec_group, exec_clock in E. specialize (IH _ _ H). lia.
Qed.

Lemma rexec_time d w : 0 <= d ->
  rexec (ATime d) w =
  RNext (mkRep (mkWorld (nodes (group w)) (pool (group w)) (votes (group w)) (clock (group w) + d)) (replica w)).
Proof. intros Hd. unfold rexec. cbn [exec]. by rewrite (proj2 (Z.leb_le _ _) Hd). Qed.

(** Only consuming changes what was consumed. *)
Lemma exec_consumed a w w' i :
  exec ps chanCap a w = Next w' ->
  match a with
  | AConsume j => exists m ms, applyCh (nodes w j) = m :: ms /\
      consumed (nodes w' i) = if decide (i = j) then consumed (nodes w j) ++ [m] else consumed (nodes w i)
  | _ => consumed (nodes w' i) = consumed (nodes w i)
  end.
Proof.
  intros H. destruct a as [d|j|j r|k r|k|j c|j|j|j|j]; cbn in H.
  - case_test_in H; [by injection H as <-|done].
  - case_test_in H; [done|]. injection H as <-. cbn. by upd_cases.
  - case_test_in H; [done|]. destruct (startElection _ _) as [[r' args]|]; [|done]. injection H as <-. cbn. by upd_cases.
  - destruct (pool w !! k) as [m|]; [|done]. destruct m; cbn in H.
    + destruct (RequestVote _ _ _) as [[??]|]; [|done]. injection H as <-. cbn. by upd_cases.
    + destruct (onVoteReply _ _ _ _ _) as [[[??][]]|]; [| |done]; injection H as <-; cbn; by upd_cases.
    + repeat case_test_in H; by injection H as <-.
    + destruct (prepareAppendEntries _ _ _) as [[?|]|]; [| |done]; by injection H as <-.
    + destruct (AppendEntries _ _ _) as [[??]|]; [|done]. injection H as <-. cbn. by upd_cases.
    + destruct (onAppendReply _ _ _ _ _ _) as [?|]; [|done]. injection H as <-. cbn. by upd_cases.
  - destruct (pool w !! k); [|done]. destruct (losable _); [|done]. by injection H as <-.
  - case_test_in H; [done|]. destruct (Start _ _) as [[? [[??][]]]|]; [| |done]; injection H as <-; cbn; by upd_cases.
  - case_test_in H; [done|]. destruct (applyTick _) as [[??]|]; [|done]. injection H as <-. cbn. by upd_cases.
  - destruct (sending _); [done|]. case_test_in H; [|done]. injection H as <-. cbn. by upd_cases.
  - destruct (applyCh (nodes w j)) as [|m ms]; [done|]. injection H as <-. exists m, ms. split; [done|]. cbn.
    unfold upd. by destruct (decide (i = j)).
  - case_test_in H; [done|]. injection H as <-. cbn. by upd_cases.
Qed.

(** What an application has taken only grows. *)
Lemma rrun_taken acts i : forall w w', rrun acts w = RNext w' -> consumed (nodes (group w) i) `prefix_of` consumed (nodes (group w') i).
Proof.
  induction acts as [|a acts IH]; intros w w' H; cbn [rrun] in H; [by injection H as <-|].
  destruct (rexec a w) as [w1| |] eqn:E; [|done..]. etransitivity; [|by eapply IH]. apply rexec_group in E.
  pose proof (exec_consumed a _ _ i E) as Hc. destruct a as [d|j|j r|k r|k|j c|j|j|j|j]; try (by rewrite Hc).
  destruct Hc as (m & ms & _ & ->). case_decide as Ei; [subst; by eexists|done].
Qed.

(** The state of a replica is its start state after the messages it consumed. *)
Lemma replica_applies w : rreachable w ->
  reachable ps chanCap (group w) /\ forall i, applies (consumed (nodes (group w) i)) (start i) = Some (replica w i).
Proof.
  induction 1 as [draw|w a w' _ [Hr IH] H].
  { split; [constructor|done]. }
  pose proof (rexec_group _ _ _ H) as E. split; [by eapply reach_step|]. intros i.
  pose proof (exec_consumed _ _ _ i E) as Hc. unfold rexec in H. rewrite E in H.
  destruct a as [d|j|j r|k r|k|j c|j|j|j|j];
    try (rewrite Hc; assert (replica w' = replica w) as -> by (by injection H as <-); by apply IH).
  destruct Hc as (m & ms & Hm & ->). rewrite Hm in H. destruct (apply m (replica w j)) as [s|] eqn:Es; [|done].
  injection H as <-. cbn. unfold upd. destruct (decide (i = j)) as [->|]; [|apply IH].
  rewrite applies_app, IH. cbn. by rewrite Es.
Qed.

(** The messages come with increasing indexes. *)
Fixpoint rising (top : Z) (ms : list ApplyMsg) : Prop :=
  match ms with [] => True | m :: ms => top < CommandIndex m /\ rising (CommandIndex m) ms end.

Lemma rising_app top ms1 ms2 : rising top (ms1 ++ ms2) -> rising top ms1.
Proof. revert top; induction ms1 as [|m ms1 IH]; cbn; intros top; [done|]. intros [??]. by eauto. Qed.

Lemma rising_entries l : forall top n,
  top < n -> (forall k e, l !! k = Some e -> Index e = n + Z.of_nat k) -> rising top (omap entry_msg l).
Proof.
  induction l as [|e l IH]; intros top n Ht Hi; cbn; [done|].
  assert (Hl : forall k e', l !! k = Some e' -> Index e' = n + 1 + Z.of_nat k) by (intros k e' H; rewrite (Hi (Datatypes.S k) e' H); lia).
  pose proof (Hi 0%nat e eq_refl) as He. unfold entry_msg at 1. destruct (Command e); cbn; [split; [lia|]|]; apply (IH _ (n + 1)); done || lia.
Qed.

Lemma rising_above ms : forall top m, rising top ms -> m ∈ ms -> top < CommandIndex m.
Proof.
  induction ms as [|y ms IH]; intros t x; cbn; [by intros _ ?%not_elem_of_nil|].
  intros [Ht Hr] [->|Hx]%elem_of_cons; [done|]. specialize (IH _ _ Hr Hx). lia.
Qed.

Lemma rising_lt top ms1 ms2 m m' : rising top (ms1 ++ ms2) -> m ∈ ms1 -> m' ∈ ms2 -> CommandIndex m < CommandIndex m'.
Proof.
  revert top; induction ms1 as [|y ms1 IH]; intros top; cbn; [by intros _ ?%not_elem_of_nil|].
  intros [Ht Hr] [->|Hx]%elem_of_cons Hm'; [|by eapply IH]. apply (rising_above _ _ _ Hr). apply elem_of_app. by right.
Qed.

(** What is committed at a peer, as messages: one for each command, with its
    index. *)
Lemma committed_rising w i : valid_config ps -> reachable ps chanCap w ->
  rising 0 (apply_msgs (log (peer_state w i)) (commitIndex (peer_state w i))).
Proof.
  intros Hv Hr. destruct (reachable_inv ps chanCap _ Hv Hr) as [g Hg]. pose proof (no_log _ _ _ _ _ (inv_node _ _ _ _ _ Hg i)) as Hl.
  unfold apply_msgs. pose proof (lo_sent _ _ Hl) as Hs. pose proof (lo_idx _ _ Hl) as Hx.
  destruct (log (peer_state w i)) as [|e l]; [done|].
  injection Hs as ->. destruct (Z.to_nat (commitIndex (peer_state w i) + 1)); cbn; [done|].
  apply (rising_entries _ 0 1); [lia|]. intros k e [Hk _]%lookup_take_Some. rewrite (Hx (1 + Z.of_nat k)); [lia|].
  unfold zget. rewrite (proj2 (Z.ltb_ge _ _)) by lia. by replace (Z.to_nat (1 + Z.of_nat k)) with (Datatypes.S k) by lia.
Qed.

Lemma committed_index w i m : valid_config ps -> reachable ps chanCap w ->
  m ∈ apply_msgs (log (peer_state w i)) (commitIndex (peer_state w i)) -> CommandIndex m <= commitIndex (peer_state w i).
Proof.
  intros Hv Hr Hin. destruct (reachable_inv ps chanCap _ Hv Hr) as [g Hg].
  unfold apply_msgs in Hin. apply list_elem_of_omap in Hin as (e & He & Hme).
  apply list_elem_of_lookup in He as [k Hk]. apply lookup_take_Some in Hk as [Hk Hlt].
  unfold entry_msg in Hme. destruct (Command e); [|done]. injection Hme as <-. cbn.
  assert (Hget : (log (peer_state w i)) @[Z.of_nat k] = Some e).
  { unfold zget. rewrite (proj2 (Z.ltb_ge _ _)) by lia. by rewrite Nat2Z.id. }
  rewrite (lo_idx _ _ (no_log _ _ _ _ _ (inv_node _ _ _ _ _ Hg i)) _ _ Hget). lia.
Qed.

Lemma consumed_committed w i : valid_config ps -> reachable ps chanCap w ->
  consumed (nodes w i) `prefix_of` apply_msgs (log (peer_state w i)) (commitIndex (peer_state w i)).
Proof. intros Hv Hr. transitivity (delivered (nodes w i)); [by eexists|by eapply delivered_committed]. Qed.

Lemma consumed_rising w i : valid_config ps -> reachable ps chanCap w -> rising 0 (consumed (nodes w i)).
Proof.
  intros Hv Hr. destruct (consumed_committed w i Hv Hr) as [rest E]. eapply rising_app. rewrite <- E. by apply committed_rising.
Qed.

(** A message that was consumed is of a committed entry. *)
Lemma consumed_entry w i m : valid_config ps -> reachable ps chanCap w -> m ∈ consumed (nodes w i) ->
  0 < CommandIndex m <= commitIndex (peer_state w i) /\ exists e, (log (peer_state w i)) @[CommandIndex m] = Some e.
Proof.
  intros Hv Hr Hm. pose proof (rising_above _ _ _ (consumed_rising w i Hv Hr) Hm) as H0.
  assert (Hc : CommandIndex m <= commitIndex (peer_state w i)).
  { apply committed_index; [done|done|]. destruct (consumed_committed w i Hv Hr) as [rest ->]. apply elem_of_app. by left. }
  split; [lia|]. destruct (committed_agree_world ps chanCap w i i Hv Hr (CommandIndex m)) as (e & He & _); [lia|by exists e].
Qed.

(** A peer that consumed a message has consumed the earlier commands too. *)
Lemma consumed_earlier w i m idx e c : valid_config ps -> reachable ps chanCap w ->
  m ∈ consumed (nodes w i) -> idx <= CommandIndex m ->
  (log (peer_state w i)) @[idx] = Some e -> Command e = Some c -> mkApplyMsg true (Some c) idx ∈ consumed (nodes w i).
Proof.
  intros Hv Hr Hm Hle He Hc. destruct (consumed_committed w i Hv Hr) as [rest E].
  pose proof (committed_rising w i Hv Hr) as Hri. pose proof (committed_index w i m Hv Hr) as Hci.
  destruct (reachable_inv ps chanCap _ Hv Hr) as [g Hg].
  assert (Hin : mkApplyMsg true (Some c) idx ∈ apply_msgs (log (peer_state w i)) (commitIndex (peer_state w i))).
  { unfold apply_msgs. apply list_elem_of_omap. exists e. split.
    - pose proof (zget_bounds _ _ _ He). rewrite E in Hci. specialize (Hci ltac:(apply elem_of_app; by left)).
      unfold zget in He. rewrite (proj2 (Z.ltb_ge _ _)) in He by lia.
      apply (list_elem_of_lookup_2 _ (Z.to_nat idx)). apply lookup_take_Some. split; [done|lia].
    - unfold entry_msg. rewrite Hc. by rewrite (lo_idx _ _ (no_log _ _ _ _ _ (inv_node _ _ _ _ _ Hg i)) _ _ He). }
  rewrite E in Hin, Hri. apply elem_of_app in Hin as [?|Hin]; [done|].
  pose proof (rising_lt _ _ _ _ _ Hri Hm Hin) as Hlt. cbn in Hlt. lia.
Qed.

(** A command can always be submitted to a peer of the group. *)
Lemma Submit_total c i w : valid_config ps -> rreachable w -> i ∈ ps ->
  exists idx t b w', Submit c i w = Some (idx, t, b, w').
Proof.
  intros Hv Hr Hi. destruct (replica_applies w Hr) as [Hg _]. destruct (reachable_inv ps chanCap _ Hv Hg) as [g Hinv].
  destruct (log_ok_last _ _ (no_log _ _ _ _ _ (inv_node _ _ _ _ _ Hinv i))) as (l & Hl & _).
  assert (HS : exists x, Start c (peer_state (group w) i) = Some x) by (unfold Start; case_test; rewrite ?Hl; by eexists).
  destruct HS as [[r' [[k t] b]] ES]. unfold Submit, rexec. cbn [exec]. rewrite ES. cbn [mbind option_bind from_option_panic].
  rewrite bool_decide_eq_true_2 by done. by do 4 eexists.
Qed.

(** Two replicas that started alike differ only in how far they are. *)
Lemma replicas_comparable w i j :
  valid_config ps -> rreachable w -> start i = start j ->
  (exists ms, applies ms (replica w i) = Some (replica w j)) \/ (exists ms, applies ms (replica w j) = Some (replica w i)).
Proof.
  intros Hv Hr Hs. destruct (replica_applies w Hr) as [Hr' Ha].
  pose proof (Ha i) as Hi. pose proof (Ha j) as Hj. rewrite Hs in Hi.
  destruct (consumed_agree ps chanCap (group w) i j Hv Hr') as [[ms E]|[ms E]]; [left|right]; exists ms.
  - by rewrite E, applies_app, Hi in Hj.
  - by rewrite E, applies_app, Hj in Hi.
Qed.

(** [WaitApplied]: polls the replica until the index is applied or the deadline
    is over.  [polls] are the actions of the group between the polls; [None] is a
    schedule that ends while the call still waits. *)
Fixpoint WaitApplied (polls : list (list Action)) (i raftIndex deadline : Z) (w : RepWorld) : option (bool * RepWorld) :=
  if clock (group w) <? deadline then
    if raftIndex <=? lastAppliedRaftIndex (replica w i) then Some (true, w)
    else
      match polls with
      | [] => None
      | acts :: polls =>
          match rrun acts w with
          | RNext w' => WaitApplied polls i raftIndex deadline w'
          | _ => None
          end
      end
  else Some (false, w).

(** A wait that has not returned: nothing of its schedule is left that can run, its
    deadline is ahead and the message is not applied. *)
Lemma WaitApplied_none polls i raftIndex deadline : forall w, WaitApplied polls i raftIndex deadline w = None ->
  exists acts w', rrun acts w = RNext w' /\ clock (group w') < deadline /\ lastAppliedRaftIndex (replica w' i) < raftIndex /\
    (acts = concat polls \/ exists part, part ∈ polls /\ forall w2, rrun part w' <> RNext w2).
Proof.
  induction polls as [|part polls IH]; intros w H; cbn [WaitApplied] in H; repeat case_test_in H; try done.
  - exists [], w. split_and!; [done|lia|lia|by left].
  - destruct (rrun part w) as [w1| |] eqn:E.
    + destruct (IH _ H) as (acts & w2 & E2 & Hd & Hl & Hp). exists (part ++ acts), w2. split_and!; [by rewrite rrun_app, E|done|done|].
      destruct Hp as [->|(p & Hp & Hs)]; [by left|right; exists p; split; [by right|done]].
    + exists [], w. split_and!; [done|lia|lia|right]. exists part. split; [by left|]. intros w2. by rewrite E.
    + exists [], w. split_and!; [done|lia|lia|right]. exists part. split; [by left|]. intros w2. by rewrite E.
Qed.

Lemma WaitApplied_spec polls i raftIndex deadline : forall w w' b,
  WaitApplied polls i raftIndex deadline w = Some (b, w') ->
  (exists acts, rrun acts w = RNext w') /\ (b = true -> raftIndex <= lastAppliedRaftIndex (replica w' i)).
Proof.
  induction polls as [|acts polls IH]; intros w w' b H; cbn in H.
  - repeat case_test_in H; simplify_eq; (split; [by exists []|]); [lia|done].
  - repeat case_test_in H; simplify_eq; try (split; [by exists []|]; lia || done).
    destruct (rrun acts w) as [w1| |] eqn:E; try done. destruct (IH _ _ _ H) as [[acts' E'] Hb].
    split; [|done]. exists (acts ++ acts'). by rewrite rrun_app, E.
Qed.

(** What the parts of its schedule keep, a wait keeps. *)
Lemma WaitApplied_keeps (Q : RepWorld -> Prop) polls i raftIndex deadline :
  (forall part w w', part ∈ polls -> rrun part w = RNext w' -> Q w -> Q w') ->
  forall w w' b, WaitApplied polls i raftIndex deadline w = Some (b, w') -> Q w -> Q w'.
Proof.
  induction polls as [|acts polls IH]; intros HQ w w' b H Hw; cbn in H; repeat case_test_in H; simplify_eq; try done.
  destruct (rrun acts w) as [w1| |] eqn:E; try done. eapply IH; [|exact H|].
  - intros part v v' Hp. apply HQ. by right.
  - eapply HQ; [by left|exact E|done].
Qed.

(** The index that a leader gives a command. *)
Lemma Submit_index c i w idx t w' : valid_config ps -> rreachable w -> Submit c i w = Some (idx, t, true, w') -> 1 <= idx.
Proof.
  intros Hv Hr H. destruct (replica_applies w Hr) as [Hg _]. destruct (reachable_inv ps chanCap _ Hv Hg) as [g Hinv].
  pose proof (no_log _ _ _ _ _ (inv_node _ _ _ _ _ Hinv i)) as Hlog.
  destruct (log_ok_last _ _ Hlog) as (l & Hl & _ & Hli). pose proof (log_ok_pos _ _ Hlog). unfold Submit, Start in H.
  case_test_in H; [cbn in H; destruct (rexec _ _); by simplify_eq|]. rewrite Hl in H. cbn [mbind option_bind] in H. destruct (rexec _ _); simplify_eq. lia.
Qed.

(** The index a replica reports is that of a message it applied. *)
Context (apply_last : forall m s s', apply m s = Some s' ->
  lastAppliedRaftIndex s' = lastAppliedRaftIndex s \/ lastAppliedRaftIndex s' = CommandIndex m).
Context (start_last : forall i, lastAppliedRaftIndex (start i) = 0).

Lemma applies_last ms : forall s s', applies ms s = Some s' ->
  lastAppliedRaftIndex s' = lastAppliedRaftIndex s \/ exists m, m ∈ ms /\ lastAppliedRaftIndex s' = CommandIndex m.
Proof.
  induction ms as [|m ms IH]; intros s s' H; cbn in H; [injection H as <-; by left|].
  destruct (apply m s) as [s1|] eqn:E; [|done]. cbn in H.
  destruct (IH _ _ H) as [E'|(m' & Hm & E')]; [|right; exists m'; split; [by right|done]].
  destruct (apply_last _ _ _ E) as [El|El]; [left; congruence|right]. exists m. split; [left|congruence].
Qed.

(** Whatever a replica applied is committed at its peer. *)
Lemma applied_committed w i :
  valid_config ps -> rreachable w -> lastAppliedRaftIndex (replica w i) <= commitIndex (peer_state (group w) i).
Proof.
  intros Hv Hr. destruct (replica_applies w Hr) as [Hr' Ha].
  destruct (applies_last _ _ _ (Ha i)) as [->|(m & Hm & ->)].
  - rewrite start_last. destruct (reachable_inv ps chanCap _ Hv Hr') as [g Hg].
    destruct (winv_node ps (group w) i g Hg) as [_ Hc]. lia.
  - apply committed_index; [done|done|]. destruct (consumed_committed (group w) i Hv Hr') as [rest ->].
    apply elem_of_app. by left.
Qed.

End replica.

(** The entry a leader appends for a command is, over every further run, the only
    entry of its term at its index, at any peer. *)
Lemma proposal_unique ps chanCap w i c r' idx t w1 acts w2 :
  valid_config ps -> reachable ps chanCap w -> Start c (peer_state w i) = Some (r', (idx, t, true)) ->
  exec ps chanCap (AStart i c) w = Next w1 -> run ps chanCap acts w1 = Next w2 ->
  forall j e, (log (peer_state w2 j)) @[idx] = Some e -> Term e = t -> e = mkEntry t idx c.
Proof.
  intros Hv Hr HS H1 H2 j e He Ht. destruct (reachable_winv ps chanCap Hv w Hr) as [g Hg].
  assert (Hp : peer_state w1 i = r').
  { cbn in H1. case_test_in H1; [done|]. rewrite HS in H1. cbn in H1. injection H1 as <-.
    unfold peer_state. cbn. by rewrite upd_eq. }
  pose proof (exec_ok ps chanCap Hv g (AStart i c) w Hg) as Hok. rewrite H1 in Hok.
  destruct Hok as [(g1 & Hg1 & _) _]. destruct (run_winv ps chanCap Hv _ _ _ _ Hg1 H2) as (g2 & Hg2 & G).
  unfold Start in HS. case_test_in HS; [done|].
  destruct (log_ok_last _ _ (no_log _ _ _ _ _ (inv_node _ _ _ _ _ (wi_inv _ _ _ Hg) i))) as (last & Hl & _ & Hli).
  rewrite Hl in HS. cbn in HS. injection HS as Hr' Hidx <-.
  pose proof (inv_node _ _ _ _ _ (wi_inv _ _ _ Hg1) i) as Hn1. rewrite Hp in Hn1.
  assert (Hst : st r' = leader) by (rewrite <- Hr'; cbn; assumption).
  destruct (no_lead _ _ _ _ _ Hn1 Hst) as [HL _]. destruct (G _ _ HL) as [[x HL2] _].
  assert (Hcur : currentTerm r' = currentTerm (peer_state w i)) by (rewrite <- Hr'; done). rewrite Hcur in *.
  pose proof (log_ok_pos _ _ (no_log _ _ _ _ _ (inv_node _ _ _ _ _ (wi_inv _ _ _ Hg) i))) as Hpos.
  destruct (lo_src _ _ (no_log _ _ _ _ _ (inv_node _ _ _ _ _ (wi_inv _ _ _ Hg2) j)) idx e ltac:(lia) He)
    as (_ & lt & HLt & Ha). rewrite Ht, HL2 in HLt. injection HLt as <-.
  destruct (Ha idx ltac:(lia)) as (e' & He1 & He2). rewrite He in He1. injection He1 as <-.
  rewrite <- Hr' in He2. cbn in He2. rewrite <- app_assoc, zget_app_r in He2 by lia.
  replace (idx - zlen (log (peer_state w i))) with 0 in He2 by lia. cbn in He2. injection He2 as <-. f_equal. lia.
Qed.

(** The same of a command that the application gave to a leader. *)
Lemma Submit_entry {S} (apply : ApplyMsg -> S -> option S) ps chanCap start c i v1 idx t v2 acts w j e :
  valid_config ps -> rreachable apply ps chanCap start v1 -> Submit apply ps chanCap c i v1 = Some (idx, t, true, v2) ->
  rrun apply ps chanCap acts v2 = RNext w -> (log (peer_state (group w) j)) @[idx] = Some e -> Term e = t -> e = mkEntry t idx c.
Proof.
  intros Hv Hr HS Ha He Ht. destruct (replica_applies _ _ _ _ _ Hr) as [Hg _]. unfold Submit in HS.
  destruct (Start c _) as [[r' r]|] eqn:ES; [|done]. cbn in HS. destruct (rexec _ _ _ _ v1) as [v| |] eqn:E1; [|done..]. injection HS as -> ->.
  eapply (proposal_unique ps chanCap (group v1) i); [done|done|exact ES|by eapply rexec_group|by eapply rrun_group|exact He|exact Ht].
Qed.

(** A command that was taken is a step of the group. *)
Lemma Submit_runs {S} (apply : ApplyMsg -> S -> option S) ps chanCap c i w r w' : Submit apply ps chanCap c i w = Some (r, w') ->
  rrun apply ps chanCap [AStart i c] w = RNext w'.
Proof.
  unfold Submit. destruct (Start c _) as [[r' x]|]; [|done]. cbn [mbind option_bind rrun]. destruct (rexec _ _ _ _ w); [|done..]. by intros [= _ ->].
Qed.
