(* ===== verification/RaftIntegrity.v ===== *)
(** Where commands come from: every command in a log, in a request or delivered to
    an application was given to [Start] of a leader, and is delivered at the index
    that this call returned. *)
From S2P Require Import Prelude Raft RaftCluster RaftLog RaftInv RaftSteps RaftHandlers RaftSafety RaftTheorems Replica.
#[local] Open Scope Z_scope.

Section integrity.
Context (ps : list Z) (chanCap : nat).

(** The entries that carry a command satisfy [P]. *)
Definition from_clients (P : LogEntry -> Prop) (l : list LogEntry) : Prop := Forall (fun e => Command e <> None -> P e) l.

Definition asks_from (P : LogEntry -> Prop) (g : Goroutine) : Prop :=
  match g with GAppCall _ _ args => from_clients P (Entries args) | _ => True end.

Definition all_from (P : LogEntry -> Prop) (w : World) : Prop :=
  (forall i, from_clients P (log (peer_state w i))) /\ Forall (asks_from P) (pool w).

Lemma all_from_mono (P Q : LogEntry -> Prop) w : (forall e, P e -> Q e) -> all_from P w -> all_from Q w.
Proof.
  intros HPQ. assert (Hc : forall l, from_clients P l -> from_clients Q l) by (intros l; apply Forall_impl; auto).
  intros [Hl Hp]. split; [auto|]. revert Hp. apply Forall_impl. intros []; cbn; auto.
Qed.

(** ** Logs *)

Section logs.
Context (P : LogEntry -> Prop).

Lemma truncateConflict_from es : forall l idx l', truncateConflict l idx es = Some l' -> from_clients P l -> from_clients P l'.
Proof.
  induction es as [|e es IH]; intros l idx l' H Hl; cbn in H; [by injection H as <-|].
  destruct (lastEntry l); [|done]. cbn in H. case_test_in H; [|by eapply IH]. destruct (l @[idx]); [|done]. cbn in H.
  case_test_in H; [|by eapply IH]. apply zprefix_inv in H as [_ ->]. by apply Forall_take.
Qed.

Lemma appendMissing_from es : forall l idx l', appendMissing l idx es = Some l' -> from_clients P l -> from_clients P es -> from_clients P l'.
Proof.
  induction es as [|e es IH]; intros l idx l' H Hl Hes; cbn in H; [by injection H as <-|].
  apply Forall_cons_1 in Hes as [He Hes]. destruct (lastEntry l); [|done]. cbn in H.
  case_test_in H; [|by eapply IH]. eapply IH; [exact H| |done]. apply Forall_app. split; [done|by constructor].
Qed.

Lemma AppendEntries_from args dl r r' reply : AppendEntries args dl r = Some (r', reply) ->
  from_clients P (log r) -> from_clients P (Entries args) -> from_clients P (log r').
Proof.
  unfold AppendEntries. fold (adopt (ATerm args) dl r). set (rf1 := adopt _ _ _). intros H Hl He.
  assert (Hl1 : from_clients P (log rf1)) by (unfold rf1, adopt; by case_test). clearbody rf1.
  case_test_in H; [by injection H as <- _|]. cbn [log resetElectionTimer set_electionDeadline set_st] in H.
  destruct (lastEntry (log rf1)); [|done]. cbn in H. case_test_in H; [by injection H as <- _|].
  destruct (_ @[PrevLogIndex args]); [|done]. cbn in H. case_test_in H.
  - destruct (conflictStart _ _ _); [|done]. by injection H as <- _.
  - destruct (truncateConflict _ _ _) as [l1|] eqn:E1; [|done]. cbn in H. destruct (appendMissing l1 _ _) as [l2|] eqn:E2; [|done]. cbn in H.
    destruct (lastEntry l2); [|done]. cbn in H. injection H as <- _.
    assert (from_clients P l2) by (by eapply appendMissing_from, He; [|eapply truncateConflict_from]). by repeat case_test.
Qed.

Lemma prepare_from peer term r args : prepareAppendEntries peer term r = Some (Some args) -> from_clients P (log r) -> from_clients P (Entries args).
Proof.
  unfold prepareAppendEntries. intros H Hl. case_test_in H; [done|]. do 3 bind_inv H. injection H as <-. cbn [Entries].
  case_test_in Ebind1; [apply zsuffix_inv in Ebind1 as [_ ->]; by apply Forall_drop|]. injection Ebind1 as <-. by constructor.
Qed.

Lemma onVoteReply_from term reply v dl r r' v' b : onVoteReply term reply v dl r = Some (r', v', b) -> from_clients P (log r) -> from_clients P (log r').
Proof.
  unfold onVoteReply, becomeLeader. intros H Hl. repeat (case_test_in H; [try by injection H as <- _ _| try by injection H as <- _ _]).
  destruct (lastEntry (log r)); [|done]. cbn in H. destruct (initIndexes _ _ _ _). injection H as <- _ _. cbn.
  apply Forall_app. split; [done|by repeat constructor].
Qed.

Lemma advanceLoop_log k : forall r r', advanceLoop k r = Some r' -> log r' = log r.
Proof.
  induction k as [|k IH]; intros r r' H; cbn [advanceLoop] in H; [by injection H as <-|]. destruct (_ @[_]); [|done]. cbn [mbind option_bind] in H.
  case_test_in H; [by apply IH|]. case_test_in H; [by injection H as <-|by apply IH].
Qed.

Lemma onAppendReply_log peer term args reply dl r r' : onAppendReply peer term args reply dl r = Some r' -> log r' = log r.
Proof.
  unfold onAppendReply. intros H. do 2 (case_test_in H; [by injection H as <-|]). case_test_in H.
  - unfold advanceCommitIndex in H. destruct (lastEntry _); [|done]. apply advanceLoop_log in H. rewrite H. by case_test.
  - case_test_in H; [by injection H as <-|]. destruct (lastIndexOfTerm _ _ _); [|done]. by injection H as <-.
Qed.

Lemma RequestVote_log args dl r r' reply : RequestVote args dl r = Some (r', reply) -> log r' = log r.
Proof.
  unfold RequestVote. fold (adopt (VTerm args) dl r). set (rf1 := adopt _ _ _). intros H.
  assert (Hl : log rf1 = log r) by (unfold rf1, adopt; by case_test).
  case_test_in H; [by injection H as <- _|]. destruct (lastLogInfo rf1) as [[]|]; [|done]. cbn in H. by case_test_in H; injection H as <- _.
Qed.

Lemma applyLoop_log k : forall r ms r' ms', applyLoop k r ms = Some (r', ms') -> log r' = log r.
Proof.
  induction k as [|k IH]; intros r ms r' ms' H; cbn in H; [by injection H as <- _|]. destruct (_ @[_]) as [e|]; [|done]. cbn in H.
  by destruct (Command e); apply IH in H.
Qed.

(** ** The group *)

Lemma all_from_set i r' pl v cl w :
  all_from P w -> from_clients P (log r') -> Forall (asks_from P) pl ->
  all_from P (mkWorld (upd (nodes w) i (with_rf r' (nodes w i))) pl v cl).
Proof. intros [Hl _] Hr Hp. split; [|done]. intros j. unfold peer_state. cbn. upd_cases; [exact Hr|apply Hl]. Qed.

Lemma all_from_node i n' w : all_from P w -> log (rf n') = log (rf (nodes w i)) -> all_from P (set_node i n' w).
Proof. intros [Hl Hp] Hn. split; [|done]. intros j. unfold peer_state. cbn. upd_cases; [rewrite Hn|]; apply Hl. Qed.

Lemma asks_from_broadcast term r pl : Forall (asks_from P) pl -> Forall (asks_from P) (broadcastAppendEntries term r ++ pl).
Proof. intros H. apply Forall_app. split; [|done]. apply Forall_map, list.Forall_forall. done. Qed.

(** What a goroutine of the pool adds. *)
Lemma goroutine_from g r w w' : run_goroutine g r w = Next w' -> asks_from P g -> all_from P w -> all_from P w'.
Proof.
  intros H Hg Hw. pose proof Hw as [Hl Hp]. destruct g; cbn in H, Hg.
  - destruct (RequestVote _ _ _) as [[r' reply]|] eqn:E; [|done]. injection H as <-.
    apply all_from_set; [done| |by constructor]. by rewrite (RequestVote_log _ _ _ _ _ E).
  - destruct (onVoteReply _ _ _ _ _) as [[[r' v] b]|] eqn:E; [|done]. injection H as <-. apply onVoteReply_from in E; [|done].
    destruct b; apply all_from_set; try done. by constructor.
  - do 2 (case_test_in H; [by injection H as <-|]). injection H as <-. split; [done|]. constructor; [done|by apply asks_from_broadcast].
  - destruct (prepareAppendEntries _ _ _) as [[args|]|] eqn:E; [| |done]; injection H as <-; [|done].
    split; [done|]. constructor; [|done]. by eapply prepare_from.
  - destruct (AppendEntries _ _ _) as [[r' reply]|] eqn:E; [|done]. injection H as <-.
    apply all_from_set; [done| |by constructor]. by eapply AppendEntries_from.
  - destruct (onAppendReply _ _ _ _ _ _) as [r'|] eqn:E; [|done]. injection H as <-.
    apply all_from_set; [done| |done]. by rewrite (onAppendReply_log _ _ _ _ _ _ _ E).
Qed.

(** Only [Start] brings in entries. *)
Lemma exec_from a w w' : exec ps chanCap a w = Next w' -> all_from P w ->
  (forall i c r' idx t, a = AStart i (Some c) -> Start (Some c) (peer_state w i) = Some (r', (idx, t, true)) -> P (mkEntry t idx (Some c))) ->
  all_from P w'.
Proof.
  intros H Hw Ha. pose proof Hw as [Hl Hp]. destruct a as [d|j|j r|k r|k|j c|j|j|j|j]; cbn in H.
  - case_test_in H; [|done]. by injection H as <-.
  - case_test_in H; [done|]. injection H as <-. by apply all_from_node.
  - case_test_in H; [done|]. unfold startElection in H. destruct (lastLogInfo _) as [[]|]; [|done]. cbn in H. injection H as <-.
    split; [|apply Forall_app; split; [apply Forall_map, list.Forall_forall; done|done]].
    intros i. unfold peer_state. cbn. upd_cases; [cbn|]; apply Hl.
  - destruct (pool w !! k) as [g|] eqn:Ek; [|done]. eapply goroutine_from; [exact H|by eapply Forall_lookup_1|].
    split; [done|]. by apply Forall_delete.
  - destruct (pool w !! k); [|done]. destruct (losable _); [|done]. injection H as <-. split; [done|]. by apply Forall_delete.
  - case_test_in H; [done|]. destruct (Start c (peer_state w j)) as [[r' [[idx t] b]]|] eqn:ES; [|done]. cbn in H. injection H as <-.
    assert (Hr : from_clients P (log r')).
    { pose proof ES as ES'. unfold Start in ES'. case_test_in ES'; [by injection ES' as <- _ _ _|]. destruct (lastEntry _) as [e|]; [|done].
      cbn in ES'. injection ES' as Er Ei Et Eb. rewrite <- Er. cbn. apply Forall_app. split; [apply Hl|]. constructor; [|constructor].
      destruct c as [c|]; [|done]. intros _. rewrite Ei, Et. subst b. by eapply Ha. }
    destruct b; apply all_from_set; try done. by apply asks_from_broadcast.
  - case_test_in H; [done|]. destruct (applyTick _) as [[r' ms]|] eqn:E; [|done]. injection H as <-. apply all_from_node; [done|]. by apply applyLoop_log in E.
  - destruct (sending _); [done|]. case_test_in H; [|done]. injection H as <-. by apply all_from_node.
  - destruct (applyCh (nodes w j)); [done|]. injection H as <-. by apply all_from_node.
  - case_test_in H; [done|]. injection H as <-. apply all_from_set; [done|apply Hl|done].
Qed.

Lemma init_from draw : all_from P (init ps draw).
Proof. split; [|constructor]. intros i. by repeat constructor. Qed.

(** What is delivered is in the log. *)
Lemma delivered_from w i m : valid_config ps -> reachable ps chanCap w -> all_from P w -> m ∈ delivered (nodes w i) ->
  exists e c, P e /\ Command e = Some c /\ m = mkApplyMsg true (Some c) (Index e).
Proof.
  intros Hv Hr [Hl _] Hm. destruct (delivered_committed ps chanCap w i Hv Hr) as [rest E].
  assert (Hin : m ∈ apply_msgs (log (peer_state w i)) (commitIndex (peer_state w i))) by (rewrite E; apply elem_of_app; by left).
  apply list_elem_of_omap in Hin as (e & He & Hme). unfold entry_msg in Hme. destruct (Command e) as [c|] eqn:Ec; [|done]. injection Hme as <-.
  exists e, c. split; [|done]. specialize (Hl i). unfold from_clients in Hl. rewrite list.Forall_forall in Hl. apply Hl; [|congruence].
  by apply elem_of_take in He as (k & Hk%list_elem_of_lookup_2 & _).
Qed.

End logs.
(** ** Runs *)

(** The [k]-th action of a run gave a leader the command of [m], and the index of [m] is
    the one [Start] returned. *)
Definition proposed_at (draw : Z -> Z) (acts : list Action) (k : nat) (m : ApplyMsg) : Prop :=
  exists i c w r t, acts !! k = Some (AStart i (Some c)) /\ run ps chanCap (take k acts) (init ps draw) = Next w /\
    Start (Some c) (peer_state w i) = Some (r, (CommandIndex m, t, true)) /\ m = mkApplyMsg true (Some c) (CommandIndex m).

Lemma proposed_more draw acts a k m : proposed_at draw acts k m -> proposed_at draw (acts ++ [a]) k m.
Proof.
  intros (i & c & w & r & t & Hk & Hw & H). exists i, c, w, r, t. pose proof (lookup_lt_Some _ _ _ Hk).
  rewrite lookup_app_l, take_app_le by lia. done.
Qed.

Lemma proposed_same draw acts k m m' : proposed_at draw acts k m -> proposed_at draw acts k m' -> m = m'.
Proof. intros (i & c & w & r & t & Hk & Hw & HS & ->) (i' & c' & w' & r' & t' & Hk' & Hw' & HS' & ->). cbn in *. congruence. Qed.

(** Every entry of a run was proposed. *)
Lemma run_from draw acts : forall w, run ps chanCap acts (init ps draw) = Next w ->
  all_from (fun e => exists k, proposed_at draw acts k (mkApplyMsg true (Command e) (Index e))) w.
Proof.
  induction acts as [|a acts IH] using rev_ind; intros w H; [injection H as <-; apply init_from|].
  rewrite run_app in H. destruct (run ps chanCap acts (init ps draw)) as [w0| |] eqn:E0; [|done..]. apply run_one in H.
  eapply exec_from; [exact H| |].
  - eapply all_from_mono, IH; [|done]. intros e [k Hk]. exists k. by apply proposed_more.
  - intros i c r idx t -> HS. exists (length acts), i, c, w0, r, t. split_and!; [by apply list_lookup_middle| |done|done].
    by rewrite take_app_length.
Qed.

(** Different messages, different calls. *)
Lemma proposals_distinct draw acts ms : forall top, rising top ms -> (forall m, m ∈ ms -> exists k, proposed_at draw acts k m) ->
  exists ks, NoDup ks /\ Forall2 (proposed_at draw acts) ks ms.
Proof.
  induction ms as [|m ms IH]; intros top Hr Hm; [exists []; by split; constructor|]. destruct Hr as [Ht Hr].
  destruct (IH _ Hr) as (ks & Hn & HF); [intros m' Hm'; apply Hm; by right|]. destruct (Hm m) as [k Hk]; [by left|].
  exists (k :: ks). split; [|by constructor]. constructor; [|done]. intros [j Hj]%list_elem_of_lookup.
  destruct (Forall2_lookup_l _ _ _ _ _ HF Hj) as (m' & Hm' & Hk'). pose proof (proposed_same _ _ _ _ _ Hk Hk') as <-.
  pose proof (rising_lt top [m] ms m m (conj Ht Hr) ltac:(by left) (list_elem_of_lookup_2 _ _ _ Hm')). lia.
Qed.

End integrity.

(** C6: Integrity.  In every run of a group, the messages that a peer has delivered to
    its application stand for different calls of [Start]: each carries the command
    that the call gave to a leader of its time, at the index that the call
    returned.  So nothing is applied that no client proposed, nothing is applied
    more often than it was proposed, and a client that remembers an index knows
    where its command is if it is anywhere. *)
Theorem delivered_proposed (ps : list Z) (chanCap : nat) (draw : Z -> Z) (acts : list Action) (w : World) (i : Z) :
  valid_config ps -> run ps chanCap acts (init ps draw) = Next w ->
  exists ks, NoDup ks /\ Forall2 (proposed_at ps chanCap draw acts) ks (delivered (nodes w i)).
Proof.
  intros Hv H. assert (Hr : reachable ps chanCap w) by (eapply run_reachable; [apply reach_init|exact H]).
  apply (proposals_distinct _ _ _ _ _ 0).
  - destruct (delivered_committed ps chanCap w i Hv Hr) as [rest E]. eapply rising_app. rewrite <- E. by apply (committed_rising ps chanCap).
  - intros m Hm. destruct (delivered_from ps chanCap _ w i m Hv Hr (run_from _ _ _ _ _ H) Hm) as (e & c & [k Hk] & Hc & ->).
    exists k. by rewrite Hc in Hk.
Qed.

Lemma delivered_proposed_witness :
  exists k, delivered (nodes (after commit_one) 0) = [mkApplyMsg true (Some (CInt 7)) 2] /\
    proposed_at trio 100 (fun _ => 0) commit_one k (mkApplyMsg true (Some (CInt 7)) 2).
Proof.
  destruct (delivered_proposed trio 100 (fun _ => 0) commit_one (after commit_one) 0 trio_valid) as (ks & _ & H); [vm_compute; reflexivity|].
  change (delivered (nodes (after commit_one) 0)) with [mkApplyMsg true (Some (CInt 7)) 2] in *.
  destruct ks as [|k ks]; [inversion H|]. exists k. split; [reflexivity|]. inversion H; assumption.
Defined.
