(* ===== verification/Replication.v ===== *)
(** Replicated partitions ([replication/partition.go]): every replica appends the
    commands its Raft peer delivers to a local storage log.

    [ReplicatedPartition] is the local part of a replica; its Raft peer is the
    peer of the same number of the group ([Replica]).  [env] is the directory of
    the local log with its cold store. *)
From S2P Require Import Prelude GoLib Files Cold Segment SegmentFormat SegmentProof SegmentLog LogProof LogLifecycle LogRecover LogRefine Batch.
From S2P Require Import Raft RaftCluster RaftLog RaftInv RaftSteps RaftHandlers RaftSafety RaftTheorems Replica.
#[local] Open Scope Z_scope.

Record ReplicatedPartition (C : Type) := mkReplicated {
  rlog : Log;
  env : Env C;
  lastAppliedRaftIndex : Z
}.
Arguments mkReplicated {C} rlog env lastAppliedRaftIndex.
Arguments rlog {C} r.
Arguments env {C} r.
Arguments lastAppliedRaftIndex {C} r.

Section replicated.
Context {C : Type} `{CS : ColdStore C} `{GZ : Gzip}.

(** The local part; the peer is one of [init]. *)
Definition NewReplicatedPartition (e : Env C) : res (ReplicatedPartition C) :=
  match Open 0 e with
  | (Err _, _) => Err "open storage log"
  | (Ok l, e) => Ok (mkReplicated l e 0)
  end.

(** The loop over the messages of one command: an error stops it. *)
Fixpoint appendAll (messages : list bytes) (st : Log * Env C) : Log * Env C :=
  match messages with
  | [] => st
  | m :: messages =>
      match Append m st with
      | (Ok _, st) => appendAll messages st
      | (Err _, st) => st
      end
  end.

(** The body of [applyLoop]. *)
Definition applyMsg (msg : ApplyMsg) (rp : ReplicatedPartition C) : option (ReplicatedPartition C) :=
  if negb (CommandValid msg) then Some rp
  else
    match MsgCommand msg with
    | Some (CBytes payload) =>
        d ← TryDecode payload;
        let messages := match d with Batch decoded => decoded | Plain | Corrupt _ => [payload] end in
        let '(l, e) := appendAll messages (rlog rp, env rp) in
        Some (mkReplicated l e (CommandIndex msg))
    | _ => Some rp
    end.

Definition ReadLocal (offset : Z) (rp : ReplicatedPartition C) : res bytes * ReplicatedPartition C :=
  let '(r, (l, e)) := Read offset (rlog rp, env rp) in (r, mkReplicated l e (lastAppliedRaftIndex rp)).

Definition NextLocalOffset (rp : ReplicatedPartition C) : Z := NextOffset (rlog rp).

Definition CloseReplica (rp : ReplicatedPartition C) : res unit * ReplicatedPartition C :=
  let '(r, (l, e)) := CloseLog (rlog rp, env rp) in (r, mkReplicated l e (lastAppliedRaftIndex rp)).

(** The operations that go to the peer: [Propose], [GetState] and [Close] at replica [i]. *)
Definition Propose (ps : list Z) (chanCap : nat) (i : Z) (payload : bytes) : @RepWorld (ReplicatedPartition C) -> _ :=
  Submit applyMsg ps chanCap (Some (CBytes payload)) i.
Definition PartitionState : Z -> @RepWorld (ReplicatedPartition C) -> Z * bool := PeerState.
Definition ClosePartition (ps : list Z) (chanCap : nat) : Z -> @RepWorld (ReplicatedPartition C) -> _ :=
  Shutdown applyMsg ps chanCap CloseReplica.

(** * The local log is the sequence of the delivered messages *)

Context `{CSO : !ColdStoreOk C}.

(** The records a delivered command stands for. *)
Definition unpack (msg : ApplyMsg) : list bytes :=
  if negb (CommandValid msg) then []
  else
    match MsgCommand msg with
    | Some (CBytes payload) => match TryDecode payload with Some (Batch decoded) => decoded | _ => [payload] end
    | _ => []
    end.

(** A command that fits into a record. *)
Definition fits_record (msg : ApplyMsg) : Prop :=
  match MsgCommand msg with Some (CBytes payload) => zlen payload < 2 ^ 32 | _ => True end.

Lemma unpack_small msg : fits_record msg -> small (unpack msg).
Proof.
  unfold fits_record, unpack, small. intros H. case_test; [constructor|].
  destruct (MsgCommand msg) as [[p|]|]; try constructor. pose proof (TryDecode_spec p) as Hd.
  destruct (TryDecode p) as [[|ms|]|]; try (by repeat constructor). apply Hd.
Qed.

Lemma appendAll_spec ms : forall e l a,
  sound false e l a -> small ms -> oldest a + zlen (records a) + zlen ms < 2 ^ 63 ->
  exists l' e', appendAll ms (l, e) = (l', e') /\ sound false e' l' (mkAlog (oldest a) (records a ++ ms)).
Proof.
  induction ms as [|m ms IH]; intros e l a HS Hm Hb; cbn [appendAll].
  { exists l, e. rewrite app_nil_r. by destruct a. }
  apply Forall_cons in Hm as [Hm Hms]. rewrite zlen_cons in Hb. pose proof (zlen_nonneg ms).
  destruct (sound_append _ _ _ _ m HS Hm ltac:(lia)) as (l1 & e1 & -> & HS1).
  destruct (IH _ _ _ HS1 Hms) as (l2 & e2 & E & HS2); [cbn; rewrite zlen_snoc; lia|].
  exists l2, e2. split; [done|]. cbn in HS2. by rewrite <- app_assoc in HS2.
Qed.

Lemma applyMsg_spec msg rp a :
  sound false (env rp) (rlog rp) a -> fits_record msg -> oldest a + zlen (records a) + zlen (unpack msg) < 2 ^ 63 ->
  exists rp', applyMsg msg rp = Some rp' /\ sound false (env rp') (rlog rp') (mkAlog (oldest a) (records a ++ unpack msg)).
Proof.
  intros HS Hf Hb. pose proof (unpack_small msg Hf) as Hs. unfold applyMsg, unpack in *.
  assert (Hnil : mkAlog (oldest a) (records a ++ []) = a) by (rewrite app_nil_r; by destruct a).
  case_test; [exists rp; by rewrite Hnil|]. destruct (MsgCommand msg) as [[p|]|]; [|exists rp; by rewrite Hnil..].
  pose proof (TryDecode_spec p) as Hd. destruct (TryDecode p) as [d|]; [|done]. cbn [mbind option_bind].
  set (ms := match d with Batch decoded => decoded | _ => [p] end) in *.
  replace (match d with Plain | Corrupt _ => [p] | Batch decoded => decoded end) with ms by done.
  destruct (appendAll_spec ms _ _ _ HS Hs Hb) as (l' & e' & E & HS'). rewrite E. eexists. split; [done|]. exact HS'.
Qed.

Lemma replica_applies_spec ms : forall rp a,
  sound false (env rp) (rlog rp) a -> Forall fits_record ms ->
  oldest a + zlen (records a) + zlen (concat (map unpack ms)) < 2 ^ 63 ->
  exists rp', applies applyMsg ms rp = Some rp' /\
    sound false (env rp') (rlog rp') (mkAlog (oldest a) (records a ++ concat (map unpack ms))).
Proof.
  induction ms as [|m ms IH]; intros rp a HS Hf Hb; cbn [applies map concat].
  { exists rp. rewrite app_nil_r. by destruct a. }
  apply Forall_cons in Hf as [Hm Hf]. cbn in Hb. rewrite zlen_app in Hb. pose proof (zlen_nonneg (concat (map unpack ms))).
  destruct (applyMsg_spec m rp a HS Hm ltac:(lia)) as (rp1 & -> & HS1). cbn [mbind option_bind].
  destruct (IH rp1 _ HS1 Hf) as (rp2 & E & HS2); [cbn; rewrite zlen_app; lia|].
  exists rp2. split; [done|]. cbn in HS2. by rewrite <- app_assoc in HS2.
Qed.

(** A replica just made over an empty directory. *)
Definition new_replica (rp : ReplicatedPartition C) : Prop := exists e, blank e /\ NewReplicatedPartition e = Ok rp.

Lemma new_replica_sound rp : new_replica rp -> sound false (env rp) (rlog rp) (mkAlog 0 []) /\ lastAppliedRaftIndex rp = 0.
Proof.
  intros (e & [[Hc Hs] Hn] & H). unfold NewReplicatedPartition in H.
  destruct (open_empty_spec e 0 Hc ltac:(lia) Hn) as (l & e' & E & Hc' & C' & P). rewrite E in H. injection H as <-.
  split; [|done]. split; [split; [done|cbn; by rewrite C']|done].
Qed.

Lemma applyMsg_never_panics msg rp : applyMsg msg rp <> None.
Proof.
  unfold applyMsg. case_test; [done|]. destruct (MsgCommand msg) as [[p|]|]; try done.
  pose proof (TryDecode_spec p) as Hd. destruct (TryDecode p) as [d|]; [|done]. cbn. by destruct (appendAll _ _).
Qed.

Lemma applyMsg_last m rp rp' : applyMsg m rp = Some rp' ->
  lastAppliedRaftIndex rp' = lastAppliedRaftIndex rp \/ lastAppliedRaftIndex rp' = CommandIndex m.
Proof.
  unfold applyMsg. case_test; [intros [= <-]; by left|].
  destruct (MsgCommand m) as [[p|]|]; [|intros [= <-]; by left..].
  destruct (TryDecode p); cbn; [|done]. destruct (appendAll _ _). intros [= <-]. by right.
Qed.

Context (ps : list Z) (chanCap : nat) (start : Z -> ReplicatedPartition C).

#[local] Abbreviation rreachable := (rreachable applyMsg ps chanCap start).

Lemma replica_sound w i :
  rreachable w -> (forall k, new_replica (start k)) ->
  Forall fits_record (consumed (nodes (group w) i)) -> zlen (concat (map unpack (consumed (nodes (group w) i)))) < 2 ^ 63 ->
  sound false (env (replica w i)) (rlog (replica w i)) (mkAlog 0 (concat (map unpack (consumed (nodes (group w) i))))).
Proof.
  intros Hr Hs Hf Hb. destruct (replica_applies applyMsg ps chanCap start w Hr) as [_ Ha].
  destruct (new_replica_sound _ (Hs i)) as [HS _].
  destruct (replica_applies_spec (consumed (nodes (group w) i)) _ _ HS Hf) as (rp & E & HR); [by cbn|].
  rewrite Ha in E. by injection E as <-.
Qed.

(** C8: Replicated logs agree.  In every reachable state of a replicated
    partition, each replica's storage log reads as exactly the messages of the
    commands its peer delivered, batches unpacked, in order, each once; the logs
    of any two replicas are prefixes of one another, so an offset that both have
    holds the same record; and no action of the system panics. *)
Theorem replicated_logs_agree w i j :
  valid_config ps -> rreachable w -> (forall k, new_replica (start k)) ->
  (forall k, k = i \/ k = j -> Forall fits_record (consumed (nodes (group w) k)) /\
     zlen (concat (map unpack (consumed (nodes (group w) k)))) < 2 ^ 63) ->
  let recs k := concat (map unpack (consumed (nodes (group w) k))) in
  observes (env (replica w i)) (rlog (replica w i)) (mkAlog 0 (recs i)) /\
  observes (env (replica w j)) (rlog (replica w j)) (mkAlog 0 (recs j)) /\
  (recs i `prefix_of` recs j \/ recs j `prefix_of` recs i) /\
  forall a, rexec applyMsg ps chanCap a w <> RPanic.
Proof.
  intros Hv Hr Hs Hf recs.
  assert (HO : forall k, k = i \/ k = j -> observes (env (replica w k)) (rlog (replica w k)) (mkAlog 0 (recs k))).
  { intros k Hk. destruct (Hf k Hk) as [Hfk Hb]. pose proof (replica_sound w k Hr Hs Hfk Hb) as HS.
    eapply log_rep_observes; [by eapply sound_rep|apply HS]. }
  destruct (replica_applies applyMsg ps chanCap start w Hr) as [Hr' _].
  split; [apply HO; by left|]. split; [apply HO; by right|]. split.
  - destruct (consumed_agree ps chanCap (group w) i j Hv Hr') as [[ms E]|[ms E]]; [left|right]; unfold recs;
      rewrite E, map_app, concat_app; by eexists.
  - intros a. unfold rexec. destruct (reachable_winv ps chanCap Hv _ Hr') as [g Hg].
    pose proof (exec_ok ps chanCap Hv g a _ Hg) as Hok. destruct (exec ps chanCap a (group w)); [|done..].
    destruct a; try done. destruct (applyCh _); [done|].
    destruct (applyMsg _ _) eqn:E; [done|]. by apply applyMsg_never_panics in E.
Qed.

End replicated.

(** * A concrete group of replicas *)

(** A compression to run the definitions with: the identity behind a header. *)
Definition stored_gzip : Gzip := {|
  compress b := Byte.x1f :: Byte.x8b :: b;
  decompress z := match z with Byte.x1f :: Byte.x8b :: b => Ok b | _ => Err "gzip: invalid header" end
|}.
#[local] Existing Instance stored_gzip.

Definition empty_env : Env LocalDirColdStore := mkEnv (mkDir ∅ []) (mkDir ∅ []).

Lemma empty_env_blank : blank empty_env.
Proof. split; [done|]. intros name c. cbn. by rewrite lookup_empty. Qed.

(** A replica over an empty directory. *)
Definition replica0 : ReplicatedPartition LocalDirColdStore :=
  match NewReplicatedPartition empty_env with
  | Ok rp => rp
  | Err _ => mkReplicated (mkLog 0 [] (mkSegment 0 0 0 (mkFile EmptyString false 0 false) (mkFile EmptyString false 0 false) false EmptyString) false) empty_env 0
  end.

Lemma replica0_new : new_replica replica0.
Proof.
  exists empty_env. split; [apply empty_env_blank|]. unfold replica0.
  destruct (NewReplicatedPartition empty_env) eqn:E; [done|].
  exfalso. assert (H : is_ok (NewReplicatedPartition empty_env) = true) by (vm_compute; reflexivity). by rewrite E in H.
Qed.

Definition rworld0 : @RepWorld (ReplicatedPartition LocalDirColdStore) := mkRep (init trio (fun _ => 0)) (fun _ => replica0).

(** The world after a run, or the initial one when it gets stuck. *)
Definition rafter (acts : list Action) : RepWorld :=
  match rrun applyMsg trio 256 acts rworld0 with RNext w => w | _ => rworld0 end.

Lemma rafter_reachable acts : rreachable applyMsg trio 256 (fun _ => replica0) (rafter acts).
Proof.
  unfold rafter. destruct (rrun _ _ _ acts _) eqn:E; [|constructor..]. eapply rrun_reachable; [|exact E]. constructor.
Qed.

Definition two : bytes := bytes_of_string "two".
Definition three : bytes := bytes_of_string "three".

(** A batch of two messages, committed, applied at the leader and at a follower. *)
Definition batch_commit : list Action :=
  election ++ [AStart 0 (Some (CBytes (Encode [two; three]))); ARun 0 0; ARun 0 0; ARun 0 0;
               AApply 0; ASendMsg 0; AConsume 0; ARun 1 0; ARun 1 0; ARun 0 0; AApply 1; ASendMsg 1; AConsume 1].

Lemma replicated_logs_agree_witness :
  let w := rafter batch_commit in
  concat (map unpack (consumed (nodes (group w) 0))) = [two; three] /\
  observes (env (replica w 1)) (rlog (replica w 1)) (mkAlog 0 (concat (map unpack (consumed (nodes (group w) 1))))).
Proof.
  assert (Hc : forall k, k = 0 \/ k = 1 -> consumed (nodes (group (rafter batch_commit)) k) =
    [mkApplyMsg true (Some (CBytes (Encode [two; three]))) 2]).
  { intros k [->| ->]; vm_compute; reflexivity. }
  split; [rewrite Hc by (by left); vm_compute; reflexivity|].
  apply (replicated_logs_agree trio 256 (fun _ => replica0) (rafter batch_commit) 0 1 trio_valid (rafter_reachable _) (fun _ => replica0_new)).
  intros k Hk. rewrite (Hc k Hk). split; [repeat constructor|reflexivity].
Defined.
