(* ===== verification/Producer.v ===== *)
(** Producer writes and their acknowledgement levels ([producer/producer.go]). *)
From S2P Require Import Prelude GoLib Files Cold Segment SegmentProof SegmentLog LogProof LogLifecycle LogRecover LogRefine Batch.
From S2P Require Import Raft RaftCluster RaftLog RaftInv RaftSteps RaftHandlers RaftSafety RaftTheorems Replica Replication.
#[local] Open Scope Z_scope.

Definition AckLevel := Z.
Definition AckNone : AckLevel := 0.
Definition AckLeader : AckLevel := 1.
Definition AckAll : AckLevel := 2.

Definition ErrNotLeader : string := "producer: target replica is not the leader".
Definition ErrCommitTimeout : string := "producer: entry did not commit within timeout".

(** Two seconds, in nanoseconds. *)
Definition defaultCommitTimeout : Z := 2 * 10 ^ 9.

Section producer.
Context {C : Type} `{CS : ColdStore C} `{GZ : Gzip}.
Context (ps : list Z) (chanCap : nat).

(** [Write] to replica [i].  [polls] are the actions of the group between the
    polls of [WaitApplied]; [None] is a call that has not returned yet, or a
    schedule the group cannot run. *)
Definition Write (polls : list (list Action)) (i : Z) (payload : bytes) (ack : AckLevel)
    (w : @RepWorld (ReplicatedPartition C)) : option (res Z * @RepWorld (ReplicatedPartition C)) :=
  '(idx, _, isLeader, w) ← Propose ps chanCap i payload w;
  if ack =? AckNone then Some (Ok idx, w)
  else if ack =? AckLeader then
    if negb isLeader then Some (Err ErrNotLeader, w) else Some (Ok idx, w)
  else if ack =? AckAll then
    if negb isLeader then Some (Err ErrNotLeader, w)
    else
      '(applied, w) ← WaitApplied applyMsg lastAppliedRaftIndex ps chanCap polls i idx (clock (group w) + defaultCommitTimeout) w;
      if (applied : bool) then Some (Ok idx, w) else Some (Err ErrCommitTimeout, w)
  else Some (Err "producer: unknown ack level", w).

(** * What an acknowledgement means *)

Context `{CSO : !ColdStoreOk C} (start : Z -> ReplicatedPartition C).

(** The two parts of a [Write] that returned an index at level [AckAll]. *)
Lemma Write_all_inv polls i payload w idx w2 :
  Write polls i payload AckAll w = Some (Ok idx, w2) ->
  exists r' w1, Start (Some (CBytes payload)) (peer_state (group w) i) =
      Some (r', (idx, currentTerm (peer_state (group w) i), true)) /\
    rexec applyMsg ps chanCap (AStart i (Some (CBytes payload))) w = RNext w1 /\
    WaitApplied applyMsg lastAppliedRaftIndex ps chanCap polls i idx (clock (group w1) + defaultCommitTimeout) w1 = Some (true, w2).
Proof.
  intros H. unfold Write, Propose, Submit in H. destruct (Start _ _) as [[r' [[k t] b]]|] eqn:ES; [|done]. cbn [mbind option_bind] in H.
  destruct (rexec _ _ _ _ w) as [w1| |]; try done. cbn [mbind option_bind] in H.
  change (AckAll =? AckNone) with false in H. change (AckAll =? AckLeader) with false in H.
  change (AckAll =? AckAll) with true in H. cbn [negb] in H. destruct b; [|done].
  destruct (WaitApplied _ _ _ _ _ _ _ _ _) as [[[] w']|] eqn:EW; [|done..]. cbn in H. injection H as <- <-.
  exists r', w1. split_and!; [|done|done].
  unfold Start in ES. case_test_in ES; [done|]. destruct (lastEntry _); [|done]. cbn in ES. by injection ES as <- <- <-.
Qed.

(** Whatever [Write] returns, the group ran meanwhile. *)
Lemma Write_runs polls i payload ack w r w2 :
  Write polls i payload ack w = Some (r, w2) -> exists acts, rrun applyMsg ps chanCap acts w = RNext w2.
Proof.
  intros H. unfold Write, Propose, Submit in H. destruct (Start _ _) as [[r' [[k t] b]]|]; [|done]. cbn [mbind option_bind] in H.
  destruct (rexec _ _ _ _ w) as [w1| |] eqn:E1; try done. cbn [mbind option_bind] in H.
  assert (H1 : exists acts, rrun applyMsg ps chanCap acts w = RNext w1) by (eexists [_]; cbn [rrun]; by rewrite E1).
  repeat (case_test_in H; [by destruct b; injection H as _ <-|]). case_test_in H; [|by injection H as _ <-].
  destruct b; [|by injection H as _ <-]. cbn [negb] in H.
  destruct (WaitApplied _ _ _ _ _ _ _ _ _) as [[ok w']|] eqn:EW; [|done]. cbn in H. assert (w' = w2) as -> by (destruct ok; congruence).
  destruct (WaitApplied_spec _ _ _ _ _ _ _ _ _ _ _ EW) as [[acts E2] _]. eexists (_ :: acts). cbn [rrun]. by rewrite E1.
Qed.

(** A [Write] to a peer of the group that has not returned waits for its message. *)
Lemma Write_waits polls i payload ack w :
  valid_config ps -> rreachable applyMsg ps chanCap start w -> i ∈ ps -> Write polls i payload ack w = None ->
  ack = AckAll /\ exists idx term w1, Propose ps chanCap i payload w = Some (idx, term, true, w1) /\
    WaitApplied applyMsg lastAppliedRaftIndex ps chanCap polls i idx (clock (group w1) + defaultCommitTimeout) w1 = None.
Proof.
  intros Hv Hr Hi H. destruct (Submit_total applyMsg _ _ start (Some (CBytes payload)) _ _ Hv Hr Hi) as (k & t & b & w1 & HP).
  fold (Propose ps chanCap i payload w) in HP. unfold Write in H.
  rewrite HP in H. cbn [mbind option_bind] in H. repeat case_test_in H; try done.
  destruct b; [|done]. split; [lia|]. exists k, t, w1. split; [done|]. destruct (WaitApplied _ _ _ _ _ _ _ _ _) as [[[] ?]|]; done.
Qed.

(** The entry at an index that [Write] returned at level [AckAll]. *)
Lemma Write_submits polls i payload w idx w2 : Write polls i payload AckAll w = Some (Ok idx, w2) ->
  exists term w1, Submit applyMsg ps chanCap (Some (CBytes payload)) i w = Some (idx, term, true, w1) /\
    exists acts, rrun applyMsg ps chanCap acts w1 = RNext w2.
Proof.
  intros (r' & w1 & ES & E1 & EW)%Write_all_inv. eexists _, w1. split; [unfold Submit; rewrite ES; cbn [mbind option_bind]; by rewrite E1|].
  apply (WaitApplied_spec _ _ _ _ _ _ _ _ _ _ _ EW).
Qed.

Lemma Write_committed polls i payload w idx w2 :
  valid_config ps -> rreachable applyMsg ps chanCap start w -> (forall k, new_replica (start k)) ->
  Write polls i payload AckAll w = Some (Ok idx, w2) ->
  let term := currentTerm (peer_state (group w) i) in
  exists e, (log (peer_state (group w2) i)) @[idx] = Some e /\
    idx <= commitIndex (peer_state (group w2) i) /\ idx <= lastAppliedRaftIndex (replica w2 i) /\
    (Term e = term -> e = mkEntry term idx (Some (CBytes payload))).
Proof.
  intros Hv Hr Hs H term. destruct (Write_all_inv _ _ _ _ _ _ H) as (r' & w1 & ES & E1 & EW).
  destruct (WaitApplied_spec _ _ _ _ _ _ _ _ _ _ _ EW) as [[acts E2] Hap]. specialize (Hap eq_refl).
  assert (Hr1 : rreachable applyMsg ps chanCap start w1) by (by eapply rreach_step).
  pose proof (rrun_reachable _ _ _ _ _ _ _ Hr1 E2) as Hr2.
  destruct (replica_applies _ _ _ _ w Hr) as [Hg _], (replica_applies _ _ _ _ w2 Hr2) as [Hg2 _].
  assert (Hc : idx <= commitIndex (peer_state (group w2) i)).
  { etransitivity; [exact Hap|]. eapply (applied_committed applyMsg lastAppliedRaftIndex); [apply applyMsg_last| |done|done].
    intros k. by apply new_replica_sound. }
  assert (Hpos : 0 <= idx).
  { destruct (reachable_inv ps chanCap _ Hv Hg) as [g Hi]. unfold Start in ES. case_test_in ES; [done|].
    destruct (log_ok_last _ _ (no_log _ _ _ _ _ (inv_node _ _ _ _ _ Hi i))) as (l & Hl & _ & Hli).
    pose proof (log_ok_pos _ _ (no_log _ _ _ _ _ (inv_node _ _ _ _ _ Hi i))). rewrite Hl in ES. cbn in ES. injection ES as _ <-. lia. }
  destruct (committed_agree_world ps chanCap (group w2) i i Hv Hg2 idx) as (e & He & _); [lia|].
  exists e. split_and!; [done|done|done|].
  intros Ht. eapply (proposal_unique ps chanCap (group w) i _ _ idx term); [done|done|exact ES| | |exact He|exact Ht].
  - by eapply rexec_group.
  - by eapply rrun_group.
Qed.

(** C16: What [AckAll] guarantees.  When [Write] returns an index at level
    [AckAll], the replica has an entry there that is committed and applied; every
    peer that ever commits that index has the same entry; and the entry is the
    payload if it carries the term in which the payload was proposed. *)
Theorem ack_all_commits polls i payload w idx w2 :
  valid_config ps -> rreachable applyMsg ps chanCap start w -> (forall k, new_replica (start k)) ->
  Write polls i payload AckAll w = Some (Ok idx, w2) ->
  let term := currentTerm (peer_state (group w) i) in
  exists e, (log (peer_state (group w2) i)) @[idx] = Some e /\
    idx <= commitIndex (peer_state (group w2) i) /\ idx <= lastAppliedRaftIndex (replica w2 i) /\
    (Term e = term -> e = mkEntry term idx (Some (CBytes payload))) /\
    forall acts w3 j, rrun applyMsg ps chanCap acts w2 = RNext w3 -> idx <= commitIndex (peer_state (group w3) j) ->
      (log (peer_state (group w3) j)) @[idx] = Some e.
Proof.
  intros Hv Hr Hs H term. destruct (Write_committed _ _ _ _ _ _ Hv Hr Hs H) as (e & He & Hc & Hap & Ht).
  exists e. split_and!; [done..|]. intros acts3 w3 j E3 Hj. destruct (Write_runs _ _ _ _ _ _ _ H) as [acts2 E2].
  pose proof (rrun_reachable _ _ _ _ _ _ _ Hr E2) as Hr2. pose proof (rrun_reachable _ _ _ _ _ _ _ Hr2 E3) as Hr3.
  destruct (replica_applies _ _ _ _ w2 Hr2) as [Hg2 _], (replica_applies _ _ _ _ w3 Hr3) as [Hg3 _].
  pose proof (zget_bounds _ _ _ He) as Hpos.
  destruct (run_node_step ps chanCap _ _ _ i Hv Hg2 (rrun_group _ _ _ _ _ _ E3)) as (Ha & Hle & _).
  destruct (Ha idx ltac:(unfold peer_state in *; lia)) as (e1 & He1 & He1').
  destruct (committed_agree_world ps chanCap (group w3) i j Hv Hg3 idx) as (e2 & He2 & He2'); [unfold peer_state in *; lia|].
  unfold peer_state in *. congruence.
Qed.

End producer.

(** * Concrete writes *)

#[local] Existing Instance stored_gzip.

Definition lost : bytes := bytes_of_string "lost".
Definition kept_ : bytes := bytes_of_string "kept".

(** The leader replicates the entry to one follower and applies it. *)
Definition commits : list Action := [ARun 0 0; ARun 0 0; ARun 0 0; AApply 0; ASendMsg 0; AConsume 0].

(** Another peer is elected before anything was replicated, commits an entry of
    its own at the same index and replicates it to the old leader. *)
Definition deposed : list Action :=
  [ATime 700000000; ATickCheck 1; ATickFire 1 5; ARun 1 0; ARun 0 0; AStart 1 (Some (CBytes kept_)); ARun 1 0; ARun 0 0; ARun 0 0;
   ARun 0 0; ARun 0 0; ARun 0 0; AApply 0; ASendMsg 0; AConsume 0].

Lemma ack_all_commits_witness :
  exists w2 e, Write trio 256 [commits] 0 lost AckAll (rafter election) = Some (Ok 2, w2) /\
    (log (peer_state (group w2) 0)) @[2] = Some e /\ 2 <= commitIndex (peer_state (group w2) 0).
Proof.
  assert (H : fst <$> Write trio 256 [commits] 0 lost AckAll (rafter election) = Some (Ok 2)) by (vm_compute; reflexivity).
  destruct (Write trio 256 [commits] 0 lost AckAll (rafter election)) as [[r w2]|] eqn:E; [|discriminate H].
  injection H as ->.
  destruct (ack_all_commits trio 256 (fun _ => replica0) [commits] 0 lost (rafter election) 2 w2 trio_valid
    (rafter_reachable _) (fun _ => replica0_new) E) as (e & H1 & H2 & _).
  exists w2, e. split; [reflexivity|]. split; [exact H1|exact H2].
Defined.

