(* ===== verification/BenchCluster.v ===== *)
(** Clusters under a benchmark: how the functions of package [benchmarks] set up a
    group, wait, look at the clock and look for a leader.  They do so in the same way
    over each kind of replica and of network, so these operations are written once.

    A benchmark runs beside the other goroutines of the process: [sched] has what
    they do at each point where it looks at the clock or at the cluster.  Times are
    nanoseconds of the cluster's clock. *)
From S2P Require Import Prelude GoLib Raft RaftCluster RaftLog RaftInv RaftSteps RaftHandlers RaftSafety RaftTheorems NetLib Tls Transport Replica.
#[local] Open Scope Z_scope.

Definition Millisecond : Z := 1000000.
Definition Second : Z := 1000 * Millisecond.

(** How a benchmark ends; one that waits at the end of its schedule, or runs
    out of its fuel, is unfinished. *)
Inductive finish (A : Type) := Returns (a : A) | Panics (msg : string) | Unfinished.
Arguments Returns {A} a.
Arguments Panics {A} msg.
Arguments Unfinished {A}.

#[export] Instance finish_ret : MRet finish := fun A a => Returns a.
#[export] Instance finish_bind : MBind finish := fun A B k m =>
  match m with Returns a => k a | Panics msg => Panics msg | Unfinished => Unfinished end.

(** A cluster of [n] replicas on a new network, each made by [new]: [dirs] are the
    fresh directories, [None] where none could be made; [draw] the random numbers of
    the peers. *)
Section cluster.
Context {E S : Type} (new : E -> res S).

Fixpoint openNodes (dirs : Z -> option E) (ids : list Z) : finish (list S) :=
  match ids with
  | [] => mret []
  | i :: ids =>
      match dirs i with
      | None => Panics "mkdir"
      | Some e =>
          match new e with
          | Err msg => Panics msg
          | Ok rp => rps ← openNodes dirs ids; mret (rp :: rps)
          end
      end
  end.

Definition clusterOf (n : Z) (dirs : Z -> option E) (draw : Z -> Z) : finish (Network * @RepWorld S) :=
  let peers := seqZ 0 n in
  rps ← openNodes dirs peers;
  match rps with
  | [] => Panics "index out of range"
  | rp :: _ =>
      mret (foldl (fun net i => snd (Make net i peers (randElectionTimeout (draw i)))) MakeNetwork peers,
            mkRep (init peers draw) (fun i => nth (Z.to_nat i) rps rp))
  end.

(** The errors of [new] are panics; the replicas are made by it. *)
Lemma openNodes_spec dirs ids :
  match openNodes dirs ids with
  | Returns rps => Forall2 (fun i rp => exists e, dirs i = Some e /\ new e = Ok rp) ids rps
  | Panics msg => msg = "mkdir"%string \/ exists e, new e = Err msg
  | Unfinished => False
  end.
Proof.
  induction ids as [|i ids IH]; cbn [openNodes]; [constructor|]. destruct (dirs i) as [e|] eqn:Ei; [|by left].
  destruct (new e) as [rp|msg] eqn:En; [|by right; exists e].
  unfold mbind, finish_bind. destruct (openNodes dirs ids); [|done..]. constructor; [by exists e|done].
Qed.

Lemma clusterOf_spec n dirs draw : 0 < n ->
  match clusterOf n dirs draw with
  | Returns (_, w) => exists start, w = mkRep (init (seqZ 0 n) draw) start /\ forall k, exists i e, dirs i = Some e /\ new e = Ok (start k)
  | Panics msg => msg = "mkdir"%string \/ exists e, new e = Err msg
  | Unfinished => False
  end.
Proof.
  intros Hn. unfold clusterOf, mbind, finish_bind. pose proof (openNodes_spec dirs (seqZ 0 n)) as H.
  destruct (openNodes dirs (seqZ 0 n)) as [rps| |]; [|done..].
  destruct rps as [|rp rps]; [apply Forall2_length in H; rewrite length_seqZ in H; cbn in H; lia|].
  eexists. split; [reflexivity|]. intros k.
  assert (Hin : nth (Z.to_nat k) (rp :: rps) rp ∈ rp :: rps).
  { destruct (nth_in_or_default (Z.to_nat k) (rp :: rps) rp) as [Hi| ->]; [by apply list_elem_of_In|by left]. }
  apply list_elem_of_lookup in Hin as [j Hj]. destruct (Forall2_lookup_r _ _ _ _ _ H Hj) as (i & _ & Hi). by exists i.
Qed.

End cluster.

(** A running benchmark: the network, the replicas, and how many parts of the
    schedule are over. *)
Record cluster (N S : Type) := mkCluster { net : N; nodes_ : @RepWorld S; part : nat }.
Arguments mkCluster {N S} net nodes_ part.
Arguments net {N S} c.
Arguments nodes_ {N S} c.
Arguments part {N S} c.

Definition clock_of {N S} (b : cluster N S) : Z := clock (group (nodes_ b)).

(** Enough rounds for [timeout], each at least [every] long. *)
Definition rounds (timeout every : Z) : nat := S (S (Z.to_nat (timeout / every))).

Section bench.
Context {N S : Type} (apply : ApplyMsg -> S -> option S) (sched : nat -> list Action) (peers : list Z) (chanCap : nat).

(** The others run; a part of the schedule that cannot run is skipped. *)
Definition runs (acts : list Action) (w : @RepWorld S) : @RepWorld S :=
  match rrun apply peers chanCap acts w with RNext w => w | _ => w end.
Definition pause (b : cluster N S) : cluster N S := mkCluster (net b) (runs (sched (part b)) (nodes_ b)) (Datatypes.S (part b)).

(** [time.Now] and [time.Sleep]. *)
Definition Now (b : cluster N S) : Z * cluster N S := let b := pause b in (clock_of b, b).
Definition Sleep (d : Z) (b : cluster N S) : cluster N S :=
  let b' := pause b in mkCluster (net b') (runs [ATime (Z.max 0 (clock_of b + d - clock_of b'))] (nodes_ b')) (part b').

(** A loop over the nodes: the first one that is not to be skipped and says it
    leads. *)
Fixpoint scanNodes (skip : N -> Z -> bool) (ids : list Z) (b : cluster N S) : option Z * cluster N S :=
  match ids with
  | [] => (None, b)
  | i :: ids =>
      if skip (net b) i then scanNodes skip ids b
      else
        let b := pause b in
        if snd (PeerState i (nodes_ b)) then (Some i, b) else scanNodes skip ids b
  end.

(** A loop that looks for a leader until [deadline] and sleeps for [every] between its
    rounds: the leader or -1. *)
Fixpoint searchLoop (fuel : nat) (skip : N -> Z -> bool) (every deadline : Z) (b : cluster N S) : finish (Z * cluster N S) :=
  match fuel with
  | O => Unfinished
  | Datatypes.S fuel =>
      let '(t, b) := Now b in
      if t <? deadline then
        match scanNodes skip peers b with
        | (Some i, b) => Returns (i, b)
        | (None, b) => searchLoop fuel skip every deadline (Sleep every b)
        end
      else Returns (-1, b)
  end.

(** A search that starts now. *)
Definition search (skip : N -> Z -> bool) (every timeout : Z) (b : cluster N S) : finish (Z * cluster N S) :=
  let '(t, b) := Now b in searchLoop (rounds timeout every) skip every (t + timeout) b.

(** * What a benchmark does to the cluster *)

Implicit Types b : cluster N S.

(** The group ran from one state to the other, on the same network. *)
Definition runs_to b b' : Prop :=
  net b' = net b /\ (part b <= part b')%nat /\ exists acts, rrun apply peers chanCap acts (nodes_ b) = RNext (nodes_ b').

#[export] Instance runs_to_preorder : PreOrder runs_to.
Proof.
  split; [intros b; split_and!; [done|done|by exists []]|]. intros b1 b2 b3 (N1 & P1 & a1 & E1) (N2 & P2 & a2 & E2). split_and!; [congruence|lia|].
  exists (a1 ++ a2). by rewrite rrun_app, E1.
Qed.

Lemma runs_to_clock b b' : runs_to b b' -> clock_of b <= clock_of b'.
Proof. intros (_ & _ & acts & E). by eapply rrun_clock. Qed.

Lemma runs_to_set acts b k : (part b <= k)%nat -> runs_to b (mkCluster (net b) (runs acts (nodes_ b)) k).
Proof.
  intros Hk. unfold runs. destruct (rrun _ _ _ acts _) eqn:E; (split_and!; [done|done|]); [by exists acts|by exists []..].
Qed.

Lemma pause_to b : runs_to b (pause b).
Proof. apply runs_to_set. lia. Qed.

Lemma Now_to b t b' : Now b = (t, b') -> runs_to b b' /\ t = clock_of b'.
Proof. intros [= <- <-]. split; [apply pause_to|done]. Qed.

Lemma Now_part b t b' : Now b = (t, b') -> part b' = Datatypes.S (part b).
Proof. by intros [= _ <-]. Qed.

Lemma Sleep_to d b : runs_to b (Sleep d b).
Proof. transitivity (pause b); [apply pause_to|]. unfold Sleep. by apply runs_to_set. Qed.

Lemma Sleep_clock d b : clock_of b + d <= clock_of (Sleep d b).
Proof.
  unfold Sleep. set (b' := pause b). set (x := Z.max 0 _). unfold runs. cbn [rrun]. rewrite rexec_time by lia.
  change (clock_of b + d <= clock_of b' + x). lia.
Qed.

(** The leader that was found says so at the end. *)
Lemma scanNodes_spec skip ids : forall b o b', scanNodes skip ids b = (o, b') ->
  runs_to b b' /\ forall i, o = Some i -> i ∈ ids /\ skip (net b) i = false /\ snd (PeerState i (nodes_ b')) = true.
Proof.
  induction ids as [|i ids IH]; intros b o b' H; cbn [scanNodes] in H; [injection H as <- <-; done|].
  destruct (skip (net b) i) eqn:Es.
  - destruct (IH _ _ _ H) as [Hr Hi]. split; [done|]. intros k Hk. destruct (Hi k Hk) as (? & ? & ?). split_and!; [by right|done..].
  - destruct (snd (PeerState i (nodes_ (pause b)))) eqn:El.
    + injection H as <- <-. split; [apply pause_to|]. intros k [= <-]. split_and!; [by left|done..].
    + destruct (IH _ _ _ H) as [Hr Hi]. split; [transitivity (pause b); [apply pause_to|done]|].
      intros k Hk. destruct (Hi k Hk) as (? & ? & ?). split_and!; [by right|done..].
Qed.

(** A search returns, in the state in which its leader leads. *)
Lemma searchLoop_spec skip every deadline fuel : forall b, 0 < every -> deadline - clock_of b <= (Z.of_nat fuel - 1) * every -> (0 < fuel)%nat ->
  exists i b', searchLoop fuel skip every deadline b = Returns (i, b') /\ runs_to b b' /\
    (i = -1 /\ deadline <= clock_of b' \/ i ∈ peers /\ skip (net b) i = false /\ snd (PeerState i (nodes_ b')) = true).
Proof.
  induction fuel as [|fuel IH]; intros b He Hf H0; [lia|]. cbn [searchLoop].
  destruct (Now b) as [t b1] eqn:En. apply Now_to in En as [Hb1 ->].
  pose proof (runs_to_clock _ _ Hb1) as Hc1. case_test; [|exists (-1), b1; auto].
  destruct (scanNodes skip peers b1) as [o b2] eqn:Es. destruct (scanNodes_spec _ _ _ _ _ Es) as [Hb2 Hi].
  destruct o as [i|].
  - exists i, b2. split; [done|]. split; [by transitivity b1|]. right. destruct Hb1 as [<- _]. by apply Hi.
  - pose proof (runs_to_clock _ _ Hb2). pose proof (Sleep_clock every b2) as Hs.
    assert (Hfuel : (0 < fuel)%nat). { destruct fuel; nia. }
    assert (Hleft : deadline - clock_of (Sleep every b2) <= (Z.of_nat fuel - 1) * every).
    { replace (Z.of_nat (Datatypes.S fuel) - 1) with (Z.of_nat fuel - 1 + 1) in Hf by lia. rewrite Z.mul_add_distr_r, Z.mul_1_l in Hf. lia. }
    destruct (IH (Sleep every b2) He Hleft Hfuel) as (i & b3 & E & Hb3 & Hr).
    exists i, b3. split; [done|]. split; [transitivity b1; [done|]; transitivity b2; [done|]; etransitivity; [apply Sleep_to|done]|].
    destruct Hr as [Hr|Hr]; [by left|right]. destruct Hb1 as [<- _], Hb2 as [<- _], (Sleep_to every b2) as [<- _]. done.
Qed.

Lemma rounds_enough timeout every b : 0 < every -> 0 <= timeout -> forall t, t <= clock_of b -> t + timeout - clock_of b <= (Z.of_nat (rounds timeout every) - 1) * every.
Proof.
  intros He Ht t Hc. unfold rounds. pose proof (Z.div_mod timeout every ltac:(lia)). pose proof (Z.mod_pos_bound timeout every He).
  assert (0 <= timeout / every) by (apply Z.div_pos; lia). nia.
Qed.

(** The same from now on: it gives up only when the time is over. *)
Lemma search_spec skip every timeout b : 0 < every -> 0 <= timeout -> exists i b', search skip every timeout b = Returns (i, b') /\ runs_to b b' /\
  (i = -1 /\ clock_of b + timeout <= clock_of b' \/ i ∈ peers /\ skip (net b) i = false /\ snd (PeerState i (nodes_ b')) = true).
Proof.
  intros He Ht. unfold search. destruct (Now b) as [t b1] eqn:En. apply Now_to in En as [Hb1 ->]. apply runs_to_clock in Hb1 as Hc.
  destruct (searchLoop_spec skip every (clock_of b1 + timeout) (rounds timeout every) b1) as (i & b2 & E & Hb2 & Hi);
    [done|by apply rounds_enough|unfold rounds; lia|].
  exists i, b2. split; [done|]. split; [by transitivity b1|]. destruct Hi as [[-> Hi]|Hi]; [left; split; [done|lia]|right]. destruct Hb1 as [<- _]. done.
Qed.

(** What the others keep, a search keeps. *)
Section keeps.
Context (Q : @RepWorld S -> Prop) (sched_keeps : forall k w, Q w -> Q (runs (sched k) w)) (time_keeps : forall d w, Q w -> Q (runs [ATime d] w)).

Lemma scanNodes_keeps skip ids : forall b o b', scanNodes skip ids b = (o, b') -> Q (nodes_ b) -> Q (nodes_ b').
Proof.
  induction ids as [|i ids IH]; intros b o b' H HQ; cbn [scanNodes] in H; [by injection H as _ <-|].
  case_test_in H; [by eapply IH|]. case_test_in H; [injection H as _ <-|eapply IH; [exact H|]]; by apply sched_keeps.
Qed.

Lemma searchLoop_keeps skip every deadline fuel : forall b i b',
  searchLoop fuel skip every deadline b = Returns (i, b') -> Q (nodes_ b) -> Q (nodes_ b').
Proof.
  induction fuel as [|fuel IH]; intros b i b' H HQ; cbn [searchLoop] in H; [done|]. assert (HQ1 : Q (nodes_ (pause b))) by (by apply sched_keeps).
  unfold Now in H. case_test_in H; [|by injection H as _ <-].
  destruct (scanNodes skip peers (pause b)) as [[j|] b2] eqn:E; apply scanNodes_keeps in E; [by injection H as _ <-|done| |done].
  eapply IH; [exact H|]. by apply time_keeps, sched_keeps.
Qed.

Lemma search_keeps skip every timeout b i b' : search skip every timeout b = Returns (i, b') -> Q (nodes_ b) -> Q (nodes_ b').
Proof. intros H HQ. eapply searchLoop_keeps; [exact H|]. by apply sched_keeps. Qed.

End keeps.

(** The peer says that it leads. *)
Definition leads (i : Z) b : Prop := st (peer_state (group (nodes_ b)) i) = leader.

Lemma State_leads i b : snd (PeerState i (nodes_ b)) = true -> leads i b.
Proof. unfold PeerState, GetState. cbn. by intros H%bool_decide_eq_true. Qed.

(** Between [w1] and [w2] the peer [i], leading, took a command at [idx], and in [w2]
    an entry is committed there: the command, unless the entry is of another term. *)
Definition written (i idx : Z) (w1 w2 : @RepWorld S) : Prop :=
  exists v1 v2 payload term e,
    (exists acts, rrun apply peers chanCap acts w1 = RNext v1) /\ Submit apply peers chanCap (Some (CBytes payload)) i v1 = Some (idx, term, true, v2) /\
    (exists acts, rrun apply peers chanCap acts v2 = RNext w2) /\
    (log (peer_state (group w2) i)) @[idx] = Some e /\ idx <= commitIndex (peer_state (group w2) i) /\
    (Term e = term -> e = mkEntry term idx (Some (CBytes payload))).

Lemma written_intro start i idx w1 v1 payload term v2 w2 e : valid_config peers -> rreachable apply peers chanCap start w1 ->
  (exists acts, rrun apply peers chanCap acts w1 = RNext v1) -> Submit apply peers chanCap (Some (CBytes payload)) i v1 = Some (idx, term, true, v2) ->
  (exists acts, rrun apply peers chanCap acts v2 = RNext w2) -> (log (peer_state (group w2) i)) @[idx] = Some e ->
  idx <= commitIndex (peer_state (group w2) i) -> written i idx w1 w2.
Proof.
  intros Hv Hr [a1 A1] HS [a2 A2] He Hc. exists v1, v2, payload, term, e. split_and!; [by exists a1|done|by exists a2|done|done|].
  eapply Submit_entry; [done| |exact HS|exact A2|exact He]. by eapply rrun_reachable.
Qed.

(** A recovery after [lead] was cut off: it was seen leading in some state, later
    another peer was seen leading, in a different term, and later an entry was
    committed where this peer took a command; the two times after [killedAt] are
    those of the two events, in this order. *)
Definition recovered (lead newLead killedAt detectedAt recoveredAt idx : Z) : Prop :=
  exists (w0 w1 w2 : @RepWorld S),
    clock (group w0) <= killedAt <= clock (group w1) /\ clock (group w1) <= detectedAt <= recoveredAt /\ clock (group w2) <= recoveredAt /\
    lead ∈ peers /\ newLead ∈ peers /\ newLead <> lead /\
    st (peer_state (group w0) lead) = leader /\ st (peer_state (group w1) newLead) = leader /\
    currentTerm (peer_state (group w1) newLead) <> currentTerm (peer_state (group w0) lead) /\
    (exists acts, rrun apply peers chanCap acts w0 = RNext w1) /\ written newLead idx w1 w2.

(** Two peers that lead one after the other do so in different terms. *)
Lemma leaders_differ start w0 w1 i j : valid_config peers -> rreachable apply peers chanCap start w0 ->
  (exists acts, rrun apply peers chanCap acts w0 = RNext w1) ->
  st (peer_state (group w0) i) = leader -> st (peer_state (group w1) j) = leader -> j <> i ->
  currentTerm (peer_state (group w1) j) <> currentTerm (peer_state (group w0) i).
Proof.
  intros Hv Hr [acts Ha] Hi Hj Hne Ht. apply Hne. symmetry. destruct (replica_applies _ _ _ _ _ Hr) as [Hg _].
  apply (leads_alone peers chanCap (group w0) acts (group w1) i j Hv Hg); [by eapply rrun_group|done..].
Qed.

End bench.
