(* ===== verification/Bench.v ===== *)
(** The benchmarks ([benchmarks/harness.go], [benchmarks/compression.go]): the load
    generator and the measurement of a recovery, on a cluster of three replicated
    partitions.

    [polls] has what the other goroutines do while a write waits. *)
From S2P Require Import Prelude GoLib Value GoFloat Files Cold Segment SegmentLog LogProof LogLifecycle LogRecover LogRefine Batch.
From S2P Require Import Raft RaftCluster RaftLog RaftInv RaftSteps RaftHandlers RaftSafety RaftTheorems NetLib Tls Transport Replica Replication Producer BenchCluster.
From stdpp Require Import sorting.
#[local] Open Scope Z_scope.

(** [Duration.Seconds] and [Duration.Microseconds]. *)
Definition Seconds (d : Z) : spec_float := fadd (float64 (Z.quot d Second)) (fdiv (float64 (Z.rem d Second)) (float64 Second)).
Definition Microseconds (d : Z) : Z := Z.quot d 1000.

(** [float64(d.Microseconds()) / 1000.0] *)
Definition inMs (d : Z) : spec_float := fdiv (float64 (Microseconds d)) (float64 1000).

(** The constants [0.50], [0.95] and [0.99]. *)
Definition percent (k : Z) : spec_float := fdiv (float64 k) (float64 100).

(** [None] is an index out of range. *)
Definition percentileMs (sorted : list Z) (p : spec_float) : option spec_float :=
  if zlen sorted =? 0 then Some (S754_zero false)
  else
    let idx := int_of_float (fmul p (float64 (zlen sorted))) in
    let idx := if zlen sorted <=? idx then zlen sorted - 1 else idx in
    d ← sorted @[idx]; Some (inMs d).

Record ThroughputResult := mkThroughput {
  AckLevelName : string;
  Writes : Z;
  DurationSec : spec_float;
  OpsPerSec : spec_float;
  P50Ms : spec_float;
  P95Ms : spec_float;
  P99Ms : spec_float
}.

Record ChaosResult := mkChaos { DetectionMs : spec_float; RecoveryMs : spec_float }.

(** The channels of [NewReplicatedPartition]. *)
Definition partition_cap : nat := 256.

(** The operations of a benchmark, over replicated partitions on the simulated
    network. *)
#[local] Abbreviation Now sched peers := (BenchCluster.Now applyMsg sched peers partition_cap).
#[local] Abbreviation Sleep sched peers := (BenchCluster.Sleep applyMsg sched peers partition_cap).
#[local] Abbreviation search sched peers := (BenchCluster.search applyMsg sched peers partition_cap).
#[local] Abbreviation runs_to peers := (BenchCluster.runs_to applyMsg peers partition_cap).

Section bench.
Context {C : Type} `{CS : ColdStore C} `{GZ : Gzip}.
Context (sched : nat -> list Action) (polls : nat -> list (list Action)).

Abbreviation cluster := (BenchCluster.cluster Network (ReplicatedPartition C)).

Definition setupCluster (n : Z) (dirs : Z -> option (Env C)) (draw : Z -> Z) : finish cluster :=
  '(net, w) ← clusterOf NewReplicatedPartition n dirs draw; mret (mkCluster net w 0).

Context (peers : list Z).

Definition findLeader (timeout : Z) (b : cluster) : finish (Z * cluster) :=
  search sched peers (fun net i => negb (IsConnected i net)) (20 * Millisecond) timeout b.

(** [producer.Write]; one that does not return leaves the benchmark unfinished. *)
Definition write (i : Z) (payload : bytes) (ack : AckLevel) (b : cluster) : finish (res Z * cluster) :=
  match Write peers partition_cap (polls (part b)) i payload ack (nodes_ b) with
  | Some (r, w) => Returns (r, mkCluster (net b) w (S (part b)))
  | None => Unfinished
  end.

(** [cleanup]: the results of [Close] are dropped. *)
Definition cleanup (b : cluster) : cluster :=
  mkCluster (net b) (foldl (fun w i => match ClosePartition peers partition_cap i w with Some (_, w) => w | None => w end) (nodes_ b) peers) (part b).

Definition benchmark_payload : bytes := bytes_of_string "benchmark-payload".

(** The loop of [RunThroughput]: the latencies of the writes that succeeded, as long as
    [fuel] writes are not made. *)
Fixpoint writeLoop (fuel : nat) (ack : AckLevel) (duration start lead : Z) (latencies : list Z) (b : cluster) : finish (list Z * cluster) :=
  match fuel with
  | O => Unfinished
  | S fuel =>
      let '(t, b) := Now sched peers b in
      if t - start <? duration then
        let '(writeStart, b) := Now sched peers b in
        '(r, b) ← write lead benchmark_payload ack b;
        match r with
        | Err _ =>
            '(lead, b) ← findLeader Second b;
            if lead =? -1 then mret (latencies, b) else writeLoop fuel ack duration start lead latencies b
        | Ok _ =>
            let '(t, b) := Now sched peers b in
            writeLoop fuel ack duration start lead (latencies ++ [t - writeStart]) b
        end
      else mret (latencies, b)
  end.

(** [RunThroughput] once the cluster is set up, and the cluster after [cleanup]. *)
Definition measureThroughput (fuel : nat) (ack : AckLevel) (ackName : string) (duration : Z) (b : cluster) : finish (ThroughputResult * cluster) :=
  '(lead, b) ← findLeader (3 * Second) b;
  if lead =? -1 then Panics "no leader elected during throughput benchmark setup"
  else
    let '(start, b) := Now sched peers b in
    '(latencies, b) ← writeLoop fuel ack duration start lead [] b;
    let '(t, b) := Now sched peers b in
    let elapsed := t - start in
    let latencies := merge_sort Z.le latencies in
    match percentileMs latencies (percent 50), percentileMs latencies (percent 95), percentileMs latencies (percent 99) with
    | Some p50, Some p95, Some p99 =>
        mret (mkThroughput ackName (zlen latencies) (Seconds elapsed) (fdiv (float64 (zlen latencies)) (Seconds elapsed)) p50 p95 p99, cleanup b)
    | _, _, _ => Panics "index out of range"
    end.

Fixpoint warmUp (k : nat) (lead : Z) (b : cluster) : finish cluster :=
  match k with
  | O => mret b
  | S k => '(_, b) ← write lead (bytes_of_string "warmup") AckAll b; warmUp k lead b
  end.

(** The loop of [RunChaos] that writes until one succeeds: when it did, if it did. *)
Fixpoint recoverLoop (fuel : nat) (newLeader deadline : Z) (b : cluster) : finish (option Z * cluster) :=
  match fuel with
  | O => Unfinished
  | S fuel =>
      let '(t, b) := Now sched peers b in
      if t <? deadline then
        '(r, b) ← write newLeader (bytes_of_string "post-kill") AckAll b;
        match r with
        | Ok _ => let '(t, b) := Now sched peers b in mret (Some t, b)
        | Err _ => recoverLoop fuel newLeader deadline (Sleep sched peers (10 * Millisecond) b)
        end
      else mret (None, b)
  end.

Definition measureChaos (b : cluster) : finish (ChaosResult * cluster) :=
  '(lead, b) ← findLeader (3 * Second) b;
  if lead =? -1 then Panics "no leader elected during chaos benchmark setup"
  else
    b ← warmUp 5 lead b;
    let '(killedAt, b) := Now sched peers b in
    let b := mkCluster (Disconnect lead (net b)) (nodes_ b) (part b) in
    '(newLeader, b) ← search sched peers (fun net i => (i =? lead) || negb (IsConnected i net)) (10 * Millisecond) (5 * Second) b;
    let '(detectedAt, b) := Now sched peers b in
    if newLeader =? -1 then Panics "no new leader elected within chaos benchmark deadline"
    else
      let '(t, b) := Now sched peers b in
      '(recoveredAt, b) ← recoverLoop (rounds (5 * Second) (10 * Millisecond)) newLeader (t + 5 * Second) b;
      match recoveredAt with
      | None => Panics "no successful write completed within chaos benchmark deadline"
      | Some recoveredAt => mret (mkChaos (inMs (detectedAt - killedAt)) (inMs (recoveredAt - killedAt)), cleanup b)
      end.

End bench.

Section programs.
Context {C : Type} `{CS : ColdStore C} `{GZ : Gzip} (sched : nat -> list Action) (polls : nat -> list (list Action)).

Definition RunThroughput (fuel : nat) (dirs : Z -> option (Env C)) (draw : Z -> Z) (ack : AckLevel) (ackName : string) (duration : Z)
    : finish (ThroughputResult * BenchCluster.cluster Network (ReplicatedPartition C)) :=
  b ← setupCluster 3 dirs draw; measureThroughput sched polls (seqZ 0 3) fuel ack ackName duration b.

Definition RunChaos (dirs : Z -> option (Env C)) (draw : Z -> Z) : finish (ChaosResult * BenchCluster.cluster Network (ReplicatedPartition C)) :=
  b ← setupCluster 3 dirs draw; measureChaos sched polls (seqZ 0 3) b.

End programs.

Record CompressionResult := mkCompression {
  MessageCount : Z;
  UncompressedBytes : Z;
  CompressedBytes : Z;
  CompressionRatio : spec_float
}.

Definition RunCompressionComparison `{GZ : Gzip} (messages : list bytes) : CompressionResult :=
  let uncompressed := foldl (fun n m => n + zlen m) 0 messages in
  let blob := Encode messages in
  let ratio := if 0 <? zlen blob then fdiv (float64 uncompressed) (float64 (zlen blob)) else S754_zero false in
  mkCompression (zlen messages) uncompressed (zlen blob) ratio.

(** * Percentiles *)

(** The index for [k] percent of [n] values: the one below or at that share. *)
Lemma percent_index n : 0 < n < 2 ^ 45 -> exists i50 i95 i99,
  (i50 = int_of_float (fmul (percent 50) (float64 n)) /\ i95 = int_of_float (fmul (percent 95) (float64 n)) /\
   i99 = int_of_float (fmul (percent 99) (float64 n))) /\
  0 <= i50 <= i95 /\ i95 <= i99 < n /\
  100 * i50 <= 50 * n <= 100 * (i50 + 1) /\ 100 * i95 <= 95 * n <= 100 * (i95 + 1) /\ 100 * i99 <= 99 * n <= 100 * (i99 + 1).
Proof.
  intros Hn. destruct (int_of_fraction n ltac:(lia)) as (j & Hj & H).
  assert (E50 : percent 50 = S754_finite false 4503599627370496 (-53)) by (vm_compute; reflexivity).
  assert (E95 : percent 95 = S754_finite false 8556839292003942 (-53)) by (vm_compute; reflexivity).
  assert (E99 : percent 99 = S754_finite false 8917127262193582 (-53)) by (vm_compute; reflexivity).
  rewrite E50, E95, E99.
  destruct (H 4503599627370496%positive ltac:(lia)) as (r50 & -> & B50), (H 8556839292003942%positive ltac:(lia)) as (r95 & -> & B95),
    (H 8917127262193582%positive ltac:(lia)) as (r99 & -> & B99). clear H E50 E95 E99.
  do 3 eexists. split; [done|]. rewrite Z.pow_add_r by lia. set (J := 2 ^ j) in *. assert (HJ : 0 < J) by lia. clearbody J.
  change (2 ^ 53) with 9007199254740992. change (2 ^ 45) with 35184372088832 in Hn. change (2 ^ 52) with 4503599627370496 in *.
  assert (HN : 0 < n * J <= 35184372088832 * J) by nia. replace (9007199254740992 * J) with (J * 9007199254740992) by lia.
  assert (D : forall r k, 0 <= r -> Z.abs (100 * r - k * (n * J * 9007199254740992)) < J * 9007199254740992 ->
    100 * (r / (J * 9007199254740992)) <= k * n <= 100 * (r / (J * 9007199254740992) + 1)).
  { intros r k Hr Hb. pose proof (Z.div_mod r (J * 9007199254740992) ltac:(lia)). pose proof (Z.mod_pos_bound r (J * 9007199254740992) ltac:(lia)). nia. }
  assert (P : forall r r', 0 <= r -> r <= r' -> 0 <= r / (J * 9007199254740992) <= r' / (J * 9007199254740992)).
  { intros r r' H0 H1. split; [apply Z.div_pos; lia|apply Z.div_le_mono; lia]. }
  pose proof (D r50 50 ltac:(lia) ltac:(lia)). pose proof (D r95 95 ltac:(lia) ltac:(lia)). pose proof (D r99 99 ltac:(lia) ltac:(lia)).
  pose proof (P r50 r95 ltac:(lia) ltac:(lia)). pose proof (P r95 r99 ltac:(lia) ltac:(lia)). lia.
Qed.

(** The value that [percentileMs] reports for [k] percent: one of the sorted values,
    at the place where [k] percent of them are at or before it. *)
Definition ranked (sorted : list Z) (k i : Z) (ms : spec_float) : Prop :=
  100 * i <= k * zlen sorted <= 100 * (i + 1) /\ exists d, sorted @[i] = Some d /\ ms = inMs d.

Lemma percentiles_ranked sorted : 0 < zlen sorted < 2 ^ 45 -> exists i50 i95 i99 p50 p95 p99,
  (percentileMs sorted (percent 50) = Some p50 /\ percentileMs sorted (percent 95) = Some p95 /\ percentileMs sorted (percent 99) = Some p99) /\
  0 <= i50 <= i95 /\ i95 <= i99 < zlen sorted /\
  ranked sorted 50 i50 p50 /\ ranked sorted 95 i95 p95 /\ ranked sorted 99 i99 p99.
Proof.
  intros Hn. destruct (percent_index _ Hn) as (i50 & i95 & i99 & (E50 & E95 & E99) & H1 & H2 & R50 & R95 & R99).
  unfold percentileMs. rewrite (proj2 (Z.eqb_neq _ _)) by lia. rewrite <- E50, <- E95, <- E99, !(proj2 (Z.leb_gt _ _)) by lia.
  destruct (zget_Some sorted i50 ltac:(lia)) as [d50 G50], (zget_Some sorted i95 ltac:(lia)) as [d95 G95], (zget_Some sorted i99 ltac:(lia)) as [d99 G99].
  rewrite G50, G95, G99. cbn [mbind option_bind]. exists i50, i95, i99, (inMs d50), (inMs d95), (inMs d99). unfold ranked.
  split; [repeat split; reflexivity|]. split; [exact H1|]. split; [exact H2|].
  split; [split; [exact R50|exists d50; split; [exact G50|reflexivity]]|]. split; [split; [exact R95|exists d95; split; [exact G95|reflexivity]]|split; [exact R99|exists d99; split; [exact G99|reflexivity]]].
Qed.

(** * What a benchmark does to the cluster *)

Section steps.
Context {C : Type} `{CS : ColdStore C} `{GZ : Gzip} (sched : nat -> list Action) (polls : nat -> list (list Action)) (peers : list Z).
Abbreviation cluster := (BenchCluster.cluster Network (ReplicatedPartition C)).
Abbreviation runs_to := (BenchCluster.runs_to applyMsg peers partition_cap).
Implicit Types b : cluster.

Lemma write_to i payload ack b r b' : write polls peers i payload ack b = Returns (r, b') -> runs_to b b'.
Proof.
  unfold write. destruct (Write _ _ _ _ _ _ _) as [[r' w]|] eqn:E; [|done]. intros [= <- <-]. split_and!; [done|cbn; lia|].
  by eapply Write_runs.
Qed.

Lemma write_panics i payload ack b msg : write polls peers i payload ack b <> Panics msg.
Proof. unfold write. by destruct (Write _ _ _ _ _ _ _) as [[]|]. Qed.

(** A write to a peer has not returned. *)
Definition hangs ack b : Prop := exists i payload, i ∈ peers /\ write polls peers i payload ack b = Unfinished.

Lemma findLeader_spec timeout b : 0 <= timeout -> exists i b', findLeader sched peers timeout b = Returns (i, b') /\ runs_to b b' /\
  (i = -1 \/ i ∈ peers /\ IsConnected i (net b) = true /\ snd (PartitionState i (nodes_ b')) = true).
Proof.
  intros Ht. destruct (search_spec applyMsg sched peers partition_cap (fun net i => negb (IsConnected i net)) (20 * Millisecond) timeout b) as (i & b' & E & Hr & Hi);
    [done|done|]. exists i, b'. split; [exact E|]. split; [done|]. destruct Hi as [[-> _]|(Hi & Hc%negb_false_iff & Hl)]; [by left|by right].
Qed.

(** [l] is the time of a write that was acknowledged, from the first state to the
    second. *)
Definition acked ack (l : Z) (c : cluster * cluster) : Prop := exists i idx b, i ∈ peers /\
  write polls peers i benchmark_payload ack (fst c) = Returns (Ok idx, b) /\ runs_to b (snd c) /\ l = clock_of (snd c) - clock_of (fst c).

(** The runs [ws] are one after the other, between two states. *)
Fixpoint in_order b (ws : list (cluster * cluster)) b' : Prop :=
  match ws with
  | [] => runs_to b b'
  | (c, c') :: ws => runs_to b c /\ runs_to c c' /\ in_order c' ws b'
  end.

Lemma in_order_runs ws : forall b b', in_order b ws b' -> runs_to b b'.
Proof.
  induction ws as [|[c c'] ws IH]; intros b b' H; [done|]. destruct H as (H1 & H2 & H3%IH). transitivity c; [done|]. by transitivity c'.
Qed.

Lemma in_order_from ws a b b' : runs_to a b -> in_order b ws b' -> in_order a ws b'.
Proof. destruct ws as [|[c c'] ws]; intros Ha H; [exact (transitivity Ha H)|]. destruct H as (H1 & H2). split; [by transitivity b|done]. Qed.

Lemma in_order_app ws1 ws2 b2 b3 : forall b1, in_order b1 ws1 b2 -> in_order b2 ws2 b3 -> in_order b1 (ws1 ++ ws2) b3.
Proof.
  induction ws1 as [|[c c'] ws IH]; intros b1 H1 H2; [by eapply in_order_from|]. destruct H1 as (Hc & Hc' & H1). split_and!; [done|done|by apply IH].
Qed.

Definition total (times : list Z) : Z := foldr Z.add 0 times.

(** The times of runs one after the other fit into the whole. *)
Lemma in_order_times ack times : forall ws b b', Forall2 (acked ack) times ws -> in_order b ws b' ->
  Forall (fun l => 0 <= l) times /\ total times <= clock_of b' - clock_of b.
Proof.
  induction times as [|l times IH]; intros ws b b' HF H; inversion HF as [|? [c c'] ? ? Ha HF']; subst.
  - apply runs_to_clock in H. split; [done|unfold total; cbn; lia].
  - destruct H as (H1%runs_to_clock & H2%runs_to_clock & H3). destruct (IH _ _ _ HF' H3) as [Hp Ht].
    destruct Ha as (_ & _ & _ & _ & _ & _ & ->). cbn [fst snd]. split; [constructor; [lia|done]|]. unfold total in *. cbn. lia.
Qed.

(** What the loop of writes does from [b] on: it returns the times of the writes
    that were acknowledged, one after the other, when the time is over or no leader is
    found; or a write has not returned, or
    the loop looked at the clock as often as it has fuel, in time. *)
Definition loads ack duration start fuel (lat : list Z) b (o : finish (list Z * cluster)) : Prop :=
  match o with
  | Returns (lat', b') => exists new ws, lat' = lat ++ new /\ zlen new <= Z.of_nat fuel /\ Forall2 (acked ack) new ws /\ in_order b ws b' /\
      (duration <= clock_of b' - start \/ exists c, runs_to b c /\ findLeader sched peers Second c = Returns (-1, b'))
  | Panics _ => False
  | Unfinished => exists c, runs_to b c /\
      (hangs ack c \/ (part b + fuel <= part c)%nat /\ (fuel = 0%nat \/ clock_of c - start < duration))
  end.

(** One more round: in time at [b1], and over at [b2]. *)
Lemma loads_more ack duration start fuel lat b b1 b2 new ws o :
  runs_to b b1 -> (part b < part b1)%nat -> clock_of b1 - start < duration ->
  zlen new <= 1 -> Forall2 (acked ack) new ws -> in_order b1 ws b2 ->
  loads ack duration start fuel (lat ++ new) b2 o -> loads ack duration start (S fuel) lat b o.
Proof.
  intros H1 Hp Hc Hn HF Ho H. destruct o as [[lat' b']| |]; cbn in *; [|done|].
  - destruct H as (new' & ws' & -> & Hn' & HF' & Ho' & He). exists (new ++ new'), (ws ++ ws').
    rewrite app_assoc, zlen_app. split_and!; [done|lia|by apply Forall2_app| |].
    + apply (in_order_from _ _ b1); [done|]. by eapply in_order_app.
    + destruct He as [He|(c & Hbc & He)]; [by left|right]. exists c. split; [|done]. apply in_order_runs in Ho. transitivity b1; [done|]. by transitivity b2.
  - apply in_order_runs in Ho. destruct H as (c & Hr & [Hh|[Hf [->|Ht]]]).
    + exists c. split; [|by left]. transitivity b1; [done|]. by transitivity b2.
    + exists b1. split; [done|right]. split; [lia|by right].
    + exists c. split; [transitivity b1; [done|]; by transitivity b2|right]. destruct Ho as (_ & ? & _). split; [lia|by right].
Qed.

Lemma writeLoop_spec ack duration start fuel : forall lead lat b, lead ∈ peers ->
  loads ack duration start fuel lat b (writeLoop sched polls peers fuel ack duration start lead lat b).
Proof.
  induction fuel as [|fuel IH]; intros lead lat b Hl; cbn [writeLoop].
  { exists b. split; [done|right]. split; [lia|by left]. }
  destruct (Now sched peers b) as [t b1] eqn:E1. apply Now_part in E1 as P1. apply Now_to in E1 as [Hb1 ->].
  assert (Hstop : forall b', runs_to b b' -> (duration <= clock_of b' - start \/ exists c, runs_to b c /\ findLeader sched peers Second c = Returns (-1, b')) ->
    loads ack duration start (S fuel) lat b (Returns (lat, b'))).
  { intros b' Hb' He. exists [], []. rewrite app_nil_r, zlen_nil. split_and!; [done|lia|done|done|done]. }
  case_test; [|apply Hstop; [done|left; lia]]. destruct (Now sched peers b1) as [t2 b2] eqn:E2. apply Now_to in E2 as [Hb2 ->]. unfold mbind, finish_bind.
  destruct (write _ _ _ _ _ b2) as [[r b3]| |] eqn:E3; [|by apply write_panics in E3|].
  2:{ exists b2. split; [by transitivity b1|left]. by exists lead, benchmark_payload. }
  apply write_to in E3 as Hb3. destruct r as [idx|e].
  - destruct (Now sched peers b3) as [t4 b4] eqn:E4. apply Now_to in E4 as [Hb4 ->].
    apply (loads_more _ _ _ _ _ b b1 b4 [clock_of b4 - clock_of b2] [(b2, b4)]); [done|lia|lia|unfold zlen; cbn; lia| |split; [exact Hb2|split; [exact (transitivity Hb3 Hb4)|exact (reflexivity b4)]]|by apply IH].
    constructor; [|constructor]. by exists lead, idx, b3.
  - destruct (findLeader_spec Second b3 ltac:(done)) as (i & b4 & EL & Hb4 & Hi). rewrite EL.
    pose proof (transitivity Hb1 (transitivity Hb2 Hb3)) as H3. case_test.
    + apply Hstop; [by transitivity b3|right]. exists b3. split; [done|]. rewrite EL. repeat f_equal. lia.
    + destruct Hi as [->|[Hi _]]; [done|]. apply (loads_more _ _ _ _ _ b b1 b4 [] []); [done|lia|lia|rewrite zlen_nil; lia|done| |rewrite app_nil_r; by apply IH].
      exact (transitivity Hb2 (transitivity Hb3 Hb4)).
Qed.

Lemma warmUp_to k lead : forall b, lead ∈ peers ->
  match warmUp polls peers k lead b with
  | Returns b' => runs_to b b'
  | Panics _ => False
  | Unfinished => exists c, runs_to b c /\ hangs AckAll c
  end.
Proof.
  induction k as [|k IH]; intros b Hl; cbn [warmUp]; [exact (reflexivity b)|]. unfold mbind, finish_bind.
  destruct (write _ _ _ _ _ b) as [[r b1]| |] eqn:E; [|by apply write_panics in E|by exists b; split; [|exists lead, (bytes_of_string "warmup")]].
  apply write_to in E. specialize (IH b1 Hl). destruct (warmUp _ _ k lead b1) as [b2| |]; [by transitivity b1|done|].
  destruct IH as (c & Hc & Hh). exists c. split; [by transitivity b1|done].
Qed.

(** The loop of the recovery ends, unless a write does not return; the write that
    ends it, in the state it was made in and the one it returned in. *)
Lemma recoverLoop_spec lead deadline fuel : forall b, lead ∈ peers -> deadline - clock_of b <= (Z.of_nat fuel - 1) * (10 * Millisecond) -> (0 < fuel)%nat ->
  match recoverLoop sched polls peers fuel lead deadline b with
  | Returns (Some t, b') => exists b1 b2 idx, runs_to b b1 /\ write polls peers lead (bytes_of_string "post-kill") AckAll b1 = Returns (Ok idx, b2) /\
      runs_to b2 b' /\ t = clock_of b'
  | Returns (None, b') => deadline <= clock_of b'
  | Panics _ => False
  | Unfinished => exists c, runs_to b c /\ hangs AckAll c
  end.
Proof.
  induction fuel as [|fuel IH]; intros b Hl Hf H0; [lia|]. cbn [recoverLoop].
  destruct (Now sched peers b) as [t0 b0] eqn:E0. apply Now_to in E0 as [Hb0 ->]. case_test; [|change (deadline <= clock_of b0); lia]. unfold mbind, finish_bind.
  destruct (write _ _ _ _ _ b0) as [[r b1]| |] eqn:E1; [|by apply write_panics in E1|by exists b0; split; [|exists lead, (bytes_of_string "post-kill")]].
  destruct r as [idx|e].
  - destruct (Now sched peers b1) as [t2 b2] eqn:E2. apply Now_to in E2 as [Hb2 ->]. by exists b0, b1, idx.
  - apply write_to in E1. set (b2 := Sleep sched peers (10 * Millisecond) b1).
    assert (Hb2 : runs_to b b2). { transitivity b0; [done|]. transitivity b1; [done|]. apply Sleep_to. }
    apply runs_to_clock in Hb0 as C0, E1 as C1. pose proof (Sleep_clock applyMsg sched peers partition_cap (10 * Millisecond) b1) as C2. fold b2 in C2. unfold Millisecond in *.
    specialize (IH b2 Hl ltac:(lia) ltac:(destruct fuel; lia)). destruct (recoverLoop _ _ _ fuel lead deadline b2) as [[[t|] b']| |]; [|done|done|].
    + destruct IH as (b3 & b4 & idx & Hb3 & Hw & Hb4 & ->). exists b3, b4, idx. split_and!; [by transitivity b2|done..].
    + destruct IH as (c & Hc & Hh). exists c. split; [by transitivity b2|done].
Qed.

End steps.

(** * The measurements *)

Section results.
Context {C : Type} `{CS : ColdStore C} `{CSO : !ColdStoreOk C} `{GZ : Gzip} (sched : nat -> list Action) (polls : nat -> list (list Action)).

Abbreviation trio_ids := (seqZ 0 3).
Abbreviation cluster := (BenchCluster.cluster Network (ReplicatedPartition C)).

(** A write at level [AckAll] is waiting in a run from the setup on: it was proposed
    to a leader, its deadline is ahead, its index is not applied, and the schedule of
    the others is over or cannot go on. *)
Definition waiting (b0 : cluster) : Prop :=
  exists (c : cluster) i payload idx term w1 acts w2,
    (exists acts, rrun applyMsg trio_ids partition_cap acts (nodes_ b0) = RNext (nodes_ c)) /\
    Propose trio_ids partition_cap i payload (nodes_ c) = Some (idx, term, true, w1) /\ rrun applyMsg trio_ids partition_cap acts w1 = RNext w2 /\
    clock (group w2) < clock (group w1) + defaultCommitTimeout /\ lastAppliedRaftIndex (replica w2 i) < idx /\
    (acts = concat (polls (part c)) \/ exists p, p ∈ polls (part c) /\ forall w, rrun applyMsg trio_ids partition_cap p w2 <> RNext w).

Lemma trio_ids_valid : valid_config trio_ids.
Proof. split; [apply NoDup_seqZ|by repeat constructor]. Qed.

(** A cluster that was set up has new replicas. *)
Lemma setupCluster_spec dirs draw :
  match setupCluster (C := C) 3 dirs draw with
  | Returns b => exists start, nodes_ b = mkRep (init trio_ids draw) start /\
      ((forall i e, dirs i = Some e -> blank e) -> forall k, new_replica (start k))
  | Panics msg => msg = "mkdir"%string \/ msg = "open storage log"%string
  | Unfinished => False
  end.
Proof.
  unfold setupCluster, mbind, finish_bind. pose proof (clusterOf_spec NewReplicatedPartition 3 dirs draw ltac:(lia)) as H.
  destruct (clusterOf NewReplicatedPartition 3 dirs draw) as [[nt w]|msg|]; [| |done].
  - destruct H as (start & -> & Hs). exists start. split; [done|]. intros Hb k. destruct (Hs k) as (i & e & He & Hn).
    exists e. split; [by eapply Hb|done].
  - destruct H as [->|[e He]]; [by left|right]. unfold NewReplicatedPartition in He. destruct (Open 0 e) as [[]]; [done|]. by injection He as <-.
Qed.

(** Only a write at level [AckAll] hangs, and it waits. *)
Lemma hangs_waiting start draw b0 c acts ack :
  nodes_ b0 = mkRep (init trio_ids draw) start -> rrun applyMsg trio_ids partition_cap acts (nodes_ b0) = RNext (nodes_ c) ->
  hangs polls trio_ids ack c -> ack = AckAll /\ waiting b0.
Proof.
  intros H0 Hr (i & payload & Hi & Hw). unfold write in Hw. destruct (Write _ _ _ _ _ _ _) as [[]|] eqn:EW; [done|].
  assert (Hrc : rreachable applyMsg trio_ids partition_cap start (nodes_ c)).
  { eapply rrun_reachable; [|exact Hr]. rewrite H0. apply rreach_init. }
  destruct (Write_waits _ _ start _ _ _ _ _ trio_ids_valid Hrc Hi EW) as (-> & idx & term & w1 & HP & HW). split; [done|].
  destruct (WaitApplied_none _ _ _ _ _ _ _ _ _ HW) as (acts' & w2 & Hr2 & Hc & Hl & Hp).
  exists c, i, payload, idx, term, w1, acts', w2. split_and!; [by exists acts|done..].
Qed.

Lemma total_bound times l : Forall (fun l => 0 <= l) times -> l ∈ times -> l <= total times.
Proof.
  induction times as [|x times IH]; intros HF Hl; [by apply elem_of_nil in Hl|]. apply Forall_cons in HF as [Hx HF].
  assert (0 <= total times) by (clear -HF; unfold total; induction HF; cbn; lia).
  unfold total in *. cbn. apply elem_of_cons in Hl as [->|Hl]; [lia|]. specialize (IH HF Hl). lia.
Qed.

Lemma total_Permutation times times' : times ≡ₚ times' -> total times = total times'.
Proof. unfold total. induction 1; cbn; lia. Qed.


(** The cluster with one peer cut off. *)
Definition cut (i : Z) (b : cluster) : cluster := mkCluster (Disconnect i (net b)) (nodes_ b) (part b).

(** The states that a recovery goes through: [lead] leads at [b1] and is cut off at
    [b3], [new] leads at [b5] and that is noticed at [b6], a write to it at [c1] returned
    at [c2], and that is noticed at [b8]. *)
Lemma measureChaos_spec b0 :
  match measureChaos sched polls trio_ids b0 with
  | Returns (r, b) => exists lead new b1 b3 b5 b6 c1 c2 b8 idx,
      (lead ∈ trio_ids /\ runs_to trio_ids b0 b1 /\ leads lead b1 /\ runs_to trio_ids b1 b3) /\
      (new ∈ trio_ids /\ new <> lead /\ IsConnected new (net (cut lead b3)) = true /\ runs_to trio_ids (cut lead b3) b5 /\ leads new b5) /\
      (runs_to trio_ids b5 b6 /\ runs_to trio_ids b6 c1 /\ write polls trio_ids new (bytes_of_string "post-kill") AckAll c1 = Returns (Ok idx, c2) /\
       runs_to trio_ids c2 b8) /\
      r = mkChaos (inMs (clock_of b6 - clock_of b3)) (inMs (clock_of b8 - clock_of b3)) /\ b = cleanup trio_ids b8
  | Panics msg => msg ∈ ["no leader elected during chaos benchmark setup"; "no new leader elected within chaos benchmark deadline";
      "no successful write completed within chaos benchmark deadline"]%string
  | Unfinished => exists acts c, rrun applyMsg trio_ids partition_cap acts (nodes_ b0) = RNext (nodes_ c) /\ hangs polls trio_ids AckAll c
  end.
Proof.
  unfold measureChaos, mbind, finish_bind.
  destruct (findLeader_spec sched (seqZ 0 3) (3 * Second) b0 ltac:(done)) as (lead & b1 & -> & H01 & Hl).
  case_test; [rewrite !elem_of_cons; tauto|]. destruct Hl as [->|(Hlead & _ & Hled%State_leads)]; [done|].
  pose proof (warmUp_to polls trio_ids 5 lead b1 Hlead) as HW. destruct (warmUp _ _ 5 lead b1) as [b2| |]; [|done|].
  2:{ destruct HW as (c & Hc & Hh). destruct (transitivity H01 Hc) as (_ & _ & acts & Hr). by exists acts, c. }
  destruct (Now _ _ b2) as [killedAt b3] eqn:E3. apply Now_to in E3 as [H23 ->]. fold (cut lead b3).
  destruct (search_spec applyMsg sched (seqZ 0 3) partition_cap (fun net i => (i =? lead) || negb (IsConnected i net)) (10 * Millisecond) (5 * Second) (cut lead b3))
    as (new & b5 & -> & H35 & Hnl); [done|done|].
  destruct (Now _ _ b5) as [t6 b6] eqn:E6. apply Now_to in E6 as [H56 ->]. case_test; [rewrite !elem_of_cons; tauto|].
  destruct Hnl as [[-> _]|(Hin & [Hne%Z.eqb_neq Hcon%negb_false_iff]%orb_false_iff & Hnled%State_leads)]; [done|]. destruct (Now _ _ b6) as [t7 b7] eqn:E7. apply Now_to in E7 as [H67 ->].
  pose proof (recoverLoop_spec sched polls trio_ids new (clock_of b7 + 5 * Second) (rounds (5 * Second) (10 * Millisecond)) b7 Hin
    ltac:(apply rounds_enough; [done|done|lia]) ltac:(unfold rounds; lia)) as HR.
  destruct (recoverLoop _ _ _ _ new _ b7) as [[[t8|] b8]| |]; [|rewrite !elem_of_cons; tauto|done|].
  - destruct HR as (c1 & c2 & idx & H7 & Hw & H8 & ->). exists lead, new, b1, b3, b5, b6, c1, c2, b8, idx.
    split_and!; [done|done|done|by transitivity b2|done|done|done|done|done|done|by transitivity b7|done|done|reflexivity|reflexivity].
  - destruct HR as (c & Hc & Hh). destruct (transitivity H01 (transitivity HW H23)) as (_ & _ & a1 & A1).
    destruct (transitivity H35 (transitivity H56 (transitivity H67 Hc))) as (_ & _ & a2 & A2).
    exists (a1 ++ a2), c. split; [by rewrite rrun_app, A1|done].
Qed.

(** What the measurement of a recovery reports.  [RunChaos] fails only when the
    cluster cannot be set up, elects no leader in time, or acknowledges no write in
    time, and goes on only while a write waits to be applied.  When it returns, the
    two times are those of a recovery, and the peer it cut off is off the network. *)
Lemma RunChaos_spec dirs draw :
  (forall i e, dirs i = Some e -> blank e) ->
  match RunChaos (C := C) sched polls dirs draw with
  | Returns (r, b) => exists lead newLead killedAt detectedAt recoveredAt idx,
      r = mkChaos (inMs (detectedAt - killedAt)) (inMs (recoveredAt - killedAt)) /\
      recovered (S := ReplicatedPartition C) applyMsg trio_ids partition_cap lead newLead killedAt detectedAt recoveredAt idx /\
      IsConnected lead (net b) = false /\ IsConnected newLead (net b) = true
  | Panics msg => msg ∈ ["mkdir"; "open storage log"; "no leader elected during chaos benchmark setup";
      "no new leader elected within chaos benchmark deadline"; "no successful write completed within chaos benchmark deadline"]%string
  | Unfinished => exists b0, setupCluster 3 dirs draw = Returns b0 /\ waiting b0
  end.
Proof.
  intros Hd. unfold RunChaos, mbind, finish_bind. pose proof (setupCluster_spec dirs draw) as Hs.
  destruct (setupCluster 3 dirs draw) as [b0|msg|]; [|rewrite !elem_of_cons; tauto|done]. destruct Hs as (start & Hn0 & Hnew). specialize (Hnew Hd).
  pose proof (measureChaos_spec b0) as HM. destruct (measureChaos _ _ _ b0) as [[r b]|msg|].
  2:{ right. right. exact HM. }
  2:{ destruct HM as (acts & c & Hr & Hh). exists b0. split; [done|]. by eapply (hangs_waiting start draw b0 c acts). }
  destruct HM as (lead & new & b1 & b3 & b5 & b6 & c1 & c2 & b8 & idx & (Hlead & H01 & Hled & H13) & (Hin & Hne & Hcon & H35 & Hnled) & (H56 & H6c & Hw & H8) & -> & ->).
  apply write_to in Hw as Hw'.
  assert (R1 : exists acts, rrun applyMsg trio_ids partition_cap acts (nodes_ b1) = RNext (nodes_ b5)).
  { destruct H13 as (_ & _ & a1 & A1), H35 as (_ & _ & a2 & A2). exists (a1 ++ a2). by rewrite rrun_app, A1. }
  pose proof (transitivity H56 H6c) as H5c. pose proof (transitivity H5c Hw') as (N2 & _ & R2).
  assert (Hr1 : rreachable applyMsg trio_ids partition_cap start (nodes_ b1)).
  { destruct H01 as (_ & _ & acts & E). eapply rrun_reachable; [|exact E]. rewrite Hn0. apply rreach_init. }
  assert (Hrc : rreachable applyMsg trio_ids partition_cap start (nodes_ c1)).
  { destruct R1 as [a1 A1], H5c as (_ & _ & a2 & A2). by eapply rrun_reachable, A2; eapply rrun_reachable, A1. }
  assert (Hnet : net b8 = net (cut lead b3)).
  { destruct H35 as [N35 _], H5c as [N5c _], Hw' as [Nw _], H8 as [N8 _]. congruence. }
  unfold write in Hw. destruct (Write _ _ _ _ _ _ (nodes_ c1)) as [[x w2]|] eqn:EW; [|done]. injection Hw as -> <-.
  destruct (Write_committed _ _ start _ _ _ _ _ _ trio_ids_valid Hrc Hnew EW) as (e & He & Hc & _).
  apply runs_to_clock in H13, H35 as C35, H56, H6c, Hw', H8. change (clock_of (cut lead b3)) with (clock_of b3) in C35.
  pose proof (leaders_differ applyMsg trio_ids partition_cap start _ _ lead new trio_ids_valid Hr1 R1 Hled Hnled Hne) as Hterms.
  exists lead, new, (clock_of b3), (clock_of b6), (clock_of b8), idx. split; [done|]. cbn [cleanup net]. rewrite Hnet.
  split_and!; [|unfold cut, IsConnected; cbn [net Disconnect connected]; apply mapget_insert|done].
  destruct (Write_submits _ _ _ _ _ _ _ _ EW) as (term & v2 & HS & Hv2). destruct H5c as (_ & _ & H5c).
  assert (Hwr : written applyMsg trio_ids partition_cap new idx (nodes_ b5) w2).
  { eapply (written_intro _ _ _ start); [apply trio_ids_valid| |exact H5c|exact HS|exact Hv2|exact He|exact Hc]. destruct R1 as [a1 A1]. eapply rrun_reachable; [exact Hr1|exact A1]. }
  exists (nodes_ b1), (nodes_ b5), w2. unfold clock_of in *. cbn [nodes_] in *. split_and!; try done; lia.
Qed.

End results.

(** * Two runs *)

#[local] Existing Instance stored_gzip.

Definition bench_dirs (i : Z) : option (Env LocalDirColdStore) := Some empty_env.

Lemma bench_dirs_blank i e : bench_dirs i = Some e -> blank e.
Proof. intros [= <-]. split; [done|]. intros name c. cbn. by rewrite lookup_empty. Qed.

(** A leader is elected, one write is committed within three milliseconds, and the
    time is over. *)
Definition load_sched (k : nat) : list Action :=
  match k with 0%nat => election | 7%nat => [ATime (3 * Millisecond)] | 8%nat => [ATime (4 * Second)] | _ => [] end.


(** The leader is elected, its five first writes time out, it is cut off, the next
    peer is elected and commits. *)
Definition chaos_sched (k : nat) : list Action :=
  match k with
  | 0%nat => election
  | 9%nat => [ATime 700000000; ATickCheck 1; ATickFire 1 5; ARun 1 0; ARun 0 0]
  | 12%nat => [ATime (2 * Millisecond)]
  | _ => []
  end.
Definition chaos_polls (k : nat) : list (list Action) :=
  match k with 15%nat => [[ARun 0 0; ARun 0 0; ARun 0 0; AApply 1; ASendMsg 1; AConsume 1]] | _ => [[ATime (3 * Second)]] end.
