(* ===== verification/BenchTcp.v ===== *)
(** The measurement of a recovery over TCP ([benchmarks/real_transport.go]): three
    peers on TCP transports, of which the leader is cut off by blocking it in both
    directions.

    The peers call each other while the benchmark runs.  What these calls do to the
    group is part of its schedule; what they do to the transports matters only
    where the benchmark uses a transport itself, and [calls] has it there. *)
From S2P Require Import Prelude GoLib Value GoFloat Files Cold Segment SegmentProof SegmentLog LogProof LogLifecycle LogRecover LogRefine Batch.
From S2P Require Import Raft RaftCluster RaftLog RaftInv RaftSteps RaftHandlers RaftSafety RaftTheorems NetLib Tls Transport Replica Replication Producer.
From S2P Require Import BenchCluster Bench.
From stdpp Require Import pretty.
#[local] Open Scope Z_scope.

(** The channels of the peers. *)
Definition tcp_cap : nat := 256.

(** Nobody but the benchmark takes messages from the channels, and it keeps
    nothing. *)
Definition drop_message (m : ApplyMsg) (s : unit) : option unit := Some tt.

(** The state of the benchmark: the transports of the peers, and the group. *)
Abbreviation tcp_cluster := (cluster (list TCPTransport) unit).

(** A call on the transport of peer [i]; [None] is a panic. *)
Definition on_transport (i : Z) (f : TCPTransport -> option TCPTransport) (ts : list TCPTransport) : option (list TCPTransport) :=
  t ← ts @[i]; t' ← f t; Some (<[Z.to_nat i := t']> ts).

Fixpoint calls_run (cs : list (Z * TcpStep)) (ts : list TCPTransport) : option (list TCPTransport) :=
  match cs with
  | [] => Some ts
  | (i, s) :: cs => ts ← on_transport i (tcp_step s) ts; calls_run cs ts
  end.

(** ** Setting up *)

(** The ports that the system gives out; [None] is an error. *)
Fixpoint freeTCPPorts (n : nat) (i : nat) (port : nat -> option Z) : finish (list Z) :=
  match n with
  | O => mret []
  | S n =>
      match port i with
      | None => Panics "listen"
      | Some p => ps ← freeTCPPorts n (S i) port; mret (p :: ps)
      end
  end.

Definition tcp_addrs (ports : list Z) : gmap Z string :=
  list_to_map (zip (seqZ 0 (zlen ports)) (map (fun p => ("127.0.0.1:" +:+ pretty p)%string) ports)).

(** The transports and the services that are bound to the new peers. *)
Fixpoint openTransports (bind : Z -> string -> option string) (addrs : gmap Z string) (peers : list Z) (draw : Z -> Z) (ids : list Z)
    : finish (list (TCPTransport * rpcService)) :=
  match ids with
  | [] => mret []
  | i :: ids =>
      match NewTCPTransport (bind i) i addrs with
      | Err msg => Panics msg
      | Ok (transport, svc, _) =>
          let rf := MakeWithTransport i peers (randElectionTimeout (draw i)) in
          ts ← openTransports bind addrs peers draw ids;
          mret ((transport, Bind rf svc) :: ts)
      end
  end.

Definition setupTCPCluster (n : Z) (port : nat -> option Z) (bind : Z -> string -> option string) (draw : Z -> Z) : finish tcp_cluster :=
  ports ← freeTCPPorts (Z.to_nat n) 0 port;
  let peers := seqZ 0 n in
  ts ← openTransports bind (tcp_addrs ports) peers draw peers;
  mret (mkCluster (map fst ts) (mkRep (init peers draw) (fun _ => tt)) 0).

Section tcp.
Context (sched : nat -> list Action) (calls : nat -> list (Z * TcpStep)) (timer : nat -> bool) (peers : list Z).

#[local] Abbreviation Now := (BenchCluster.Now (N := list TCPTransport) drop_message sched peers tcp_cap).
#[local] Abbreviation Sleep := (BenchCluster.Sleep (N := list TCPTransport) drop_message sched peers tcp_cap).
#[local] Abbreviation pause := (BenchCluster.pause (N := list TCPTransport) drop_message sched peers tcp_cap).
#[local] Abbreviation search := (BenchCluster.search (N := list TCPTransport) drop_message sched peers tcp_cap).

(** The calls of the peers, and then one of the benchmark. *)
Definition use_transport (i : Z) (f : TCPTransport -> option TCPTransport) (b : tcp_cluster) : finish tcp_cluster :=
  match calls_run (calls (part b)) (net b) ≫= on_transport i f with
  | None => Panics "invalid memory address or index out of range"
  | Some ts => mret (mkCluster ts (nodes_ b) (S (part b)))
  end.

(** [cleanup]. *)
Fixpoint closePeers (ids : list Z) (b : tcp_cluster) : finish tcp_cluster :=
  match ids with
  | [] => mret b
  | i :: ids =>
      b ← use_transport i (fun t => Some (CloseTCP t)) (mkCluster (net b) (runs drop_message peers tcp_cap [AKill i] (nodes_ b)) (part b));
      closePeers ids b
  end.

Definition findRaftLeader (timeout : Z) (b : tcp_cluster) : finish (Z * tcp_cluster) :=
  search (fun _ _ => false) (10 * Millisecond) timeout b.

(** [rafts[i].Start(payload)]. *)
Definition startAt (i : Z) (payload : string) (b : tcp_cluster) : finish (Z * bool * tcp_cluster) :=
  match Submit drop_message peers tcp_cap (Some (CBytes (bytes_of_string payload))) i (nodes_ b) with
  | None => Panics "index out of range"
  | Some (idx, _, isLeader, w) => mret (idx, isLeader, mkCluster (net b) w (part b))
  end.

Fixpoint tcpWarmUp (k : nat) (lead : Z) (b : tcp_cluster) : finish tcp_cluster :=
  match k with
  | O => mret b
  | S k => '(_, _, b) ← startAt lead "warmup" b; tcpWarmUp k lead (Sleep (5 * Millisecond) b)
  end.

(** The loop that blocks the leader in both directions. *)
Fixpoint blockLeader (lead : Z) (ids : list Z) (b : tcp_cluster) : finish tcp_cluster :=
  match ids with
  | [] => mret b
  | i :: ids =>
      if i =? lead then blockLeader lead ids b
      else
        b ← use_transport lead (BlockPeer i) b;
        b ← use_transport i (BlockPeer lead) b;
        blockLeader lead ids b
  end.

(** The loop until a write is accepted: its index, if one is. *)
Fixpoint writeAccepted (fuel : nat) (newLeader deadline : Z) (b : tcp_cluster) : finish (option Z * tcp_cluster) :=
  match fuel with
  | O => Unfinished
  | S fuel =>
      let '(t, b) := Now b in
      if t <? deadline then
        '(idx, isLeader, b) ← startAt newLeader "post-kill" b;
        if (isLeader : bool) then mret (Some idx, b) else writeAccepted fuel newLeader deadline (Sleep (5 * Millisecond) b)
      else mret (None, b)
  end.

(** The loop until the write is applied: when that was, if it was.  The [select] takes
    a message if there is one, unless the timer fires at the same time ([timer]). *)
Fixpoint appliedLoop (fuel : nat) (newLeader idx deadline : Z) (b : tcp_cluster) : finish (option Z * tcp_cluster) :=
  match fuel with
  | O => Unfinished
  | S fuel =>
      let '(t, b) := Now b in
      if t <? deadline then
        let b := pause b in
        match applyCh (nodes (group (nodes_ b)) newLeader) with
        | msg :: _ =>
            if timer (part b) then appliedLoop fuel newLeader idx deadline (Sleep (50 * Millisecond) b)
            else
              let b := mkCluster (net b) (runs drop_message peers tcp_cap [AConsume newLeader] (nodes_ b)) (part b) in
              if CommandIndex msg =? idx then let '(t, b) := Now b in mret (Some t, b)
              else appliedLoop fuel newLeader idx deadline b
        | [] => appliedLoop fuel newLeader idx deadline (Sleep (50 * Millisecond) b)
        end
      else mret (None, b)
  end.

Definition measureTcpChaos (fuel : nat) (b : tcp_cluster) : finish (ChaosResult * tcp_cluster) :=
  '(lead, b) ← findRaftLeader (3 * Second) b;
  if lead =? -1 then Panics "no leader elected during real-transport chaos benchmark setup"
  else
    b ← tcpWarmUp 5 lead b;
    let '(killedAt, b) := Now b in
    b ← blockLeader lead peers b;
    '(newLeader, b) ← search (fun _ i => i =? lead) (5 * Millisecond) (5 * Second) b;
    let '(detectedAt, b) := Now b in
    if newLeader =? -1 then Panics "no new leader elected within real-transport chaos benchmark deadline"
    else
      let '(t, b) := Now b in
      '(accepted, b) ← writeAccepted (rounds (5 * Second) (5 * Millisecond)) newLeader (t + 5 * Second) b;
      match accepted with
      | None => Panics "no successful write accepted within real-transport chaos benchmark deadline"
      | Some idx =>
          let '(t, b) := Now b in
          '(recoveredAt, b) ← appliedLoop fuel newLeader idx (t + 5 * Second) b;
          match recoveredAt with
          | None => Panics "post-kill write never committed within real-transport chaos benchmark deadline"
          | Some recoveredAt =>
              b ← closePeers peers b;
              mret (mkChaos (inMs (detectedAt - killedAt)) (inMs (recoveredAt - killedAt)), b)
          end
      end.

End tcp.

Definition RunRealTransportChaos (sched : nat -> list Action) (calls : nat -> list (Z * TcpStep)) (timer : nat -> bool) (fuel : nat)
    (port : nat -> option Z) (bind : Z -> string -> option string) (draw : Z -> Z) : finish (ChaosResult * tcp_cluster) :=
  b ← setupTCPCluster 3 port bind draw; measureTcpChaos sched calls timer (seqZ 0 3) fuel b.

(** * Transports *)

(** A step of a call of the peers. *)
Definition is_call (s : TcpStep) : bool := match s with TStart _ _ _ | TDone _ _ => true | _ => false end.

(** A transport only gets more blocked, and does not listen again. *)
Definition later_t (t t' : TCPTransport) : Prop := blocked t ⊆ blocked t' /\ (listening t = false -> listening t' = false).
Definition later_ts (ts ts' : list TCPTransport) : Prop := Forall2 later_t ts ts'.

#[export] Instance later_t_preorder : PreOrder later_t.
Proof. split; [done|]. intros t1 t2 t3 [H1 H2] [H3 H4]. split; [set_solver|auto]. Qed.
#[export] Instance later_ts_preorder : PreOrder later_ts.
Proof.
  split; [intros ts; unfold later_ts; induction ts; constructor; [reflexivity|done]|].
  unfold later_ts. intros ts1 ts2 ts3 H. revert ts3. induction H as [|t1 t2 ts1 ts2 H1 _ IH]; intros ts3 H2; inversion H2; subst; constructor; [by transitivity t2|by apply IH].
Qed.

Lemma later_ts_get ts ts' i t : later_ts ts ts' -> ts @[i] = Some t -> exists t', ts' @[i] = Some t' /\ later_t t t'.
Proof.
  intros H Hi. pose proof (zget_bounds _ _ _ Hi) as Hb. rewrite zget_lookup in Hi by lia.
  destruct (Forall2_lookup_l _ _ _ _ _ H Hi) as (t' & Ht' & Hl). exists t'. by rewrite zget_lookup by lia.
Qed.

Lemma BlockPeer_blocks p t t' : BlockPeer p t = Some t' -> p ∈ blocked t' /\ later_t t t'.
Proof.
  unfold BlockPeer, dropClient. destruct (peerConns _ !! p) as [[c|]|]; [| |done]; intros [= <-]; cbn; (split; [set_solver|split; [cbn; set_solver|done]]).
Qed.

(** The transports of a group: each one knows the addresses of all. *)
Section transports.
Context (a : gmap Z string) (peers : list Z) (known : forall i, i ∈ peers -> i ∈ dom a).

Definition ts_ok (ts : list TCPTransport) : Prop := Forall (tcp_ok a None) ts /\ forall i, i ∈ peers -> 0 <= i < zlen ts.

Lemma on_transport_ok i f ts : ts_ok ts -> i ∈ peers -> (forall t, tcp_ok a None t -> exists t', f t = Some t' /\ tcp_ok a None t' /\ later_t t t') ->
  exists ts' t t', on_transport i f ts = Some ts' /\ ts_ok ts' /\ later_ts ts ts' /\ f t = Some t' /\ ts' @[i] = Some t'.
Proof.
  intros [Hok Hb] Hi Hf. specialize (Hb i Hi) as Hbi. destruct (zget_Some ts i Hbi) as [t Ht]. pose proof Ht as Ht'. rewrite zget_lookup in Ht' by lia.
  destruct (Hf t) as (t' & E & Hok' & Hl); [by eapply Forall_lookup_1|]. unfold on_transport. rewrite Ht. cbn. rewrite E. cbn.
  eexists _, t, t'. split; [done|]. split_and!.
  - split; [by apply Forall_insert|]. intros j Hj. unfold zlen. rewrite length_insert. by apply Hb.
  - rewrite <- (list_insert_id ts (Z.to_nat i) t Ht') at 1. apply Forall2_insert; [reflexivity|done].
  - done.
  - rewrite zget_lookup by (unfold zlen in *; rewrite ?length_insert; lia). apply list_lookup_insert_eq. by eapply lookup_lt_Some.
Qed.

Lemma call_step_later s t t' : is_call s = true -> tcp_step s t = Some t' -> later_t t t'.
Proof.
  intros Hs H. assert (Hdrop : forall p t t', dropClient p t = Some t' -> later_t t t').
  { intros p u u' Hd. unfold dropClient in Hd. destruct (peerConns u !! p) as [[c|]|]; [| |done]; by injection Hd as <-. }
  destruct s as [net now p|e p| | |]; try done; cbn in H.
  - unfold callStart in H. case_test_in H; [by injection H as <-|]. unfold getClient in H. destruct (peerConns t !! p) as [[c|]|]; [| |done]; [by injection H as <-|].
    cbn in H. destruct (dial net now p t); by injection H as <-.
  - destruct e; cbn in H; [by injection H as <-|..]; destruct (dropClient p t) as [u|] eqn:Ed; try done; cbn in H; injection H as <-; by eapply Hdrop.
Qed.

(** The calls of the peers. *)
Definition calls_ok (cs : list (Z * TcpStep)) : Prop :=
  Forall (fun '(i, s) => i ∈ peers /\ is_call s = true /\ forall p, step_peer s = Some p -> p ∈ peers) cs.

Lemma calls_run_ok cs : forall ts, calls_ok cs -> ts_ok ts -> exists ts', calls_run cs ts = Some ts' /\ ts_ok ts' /\ later_ts ts ts'.
Proof.
  induction cs as [|[i s] cs IH]; intros ts Hc Hts; cbn [calls_run]; [by exists ts|]. apply Forall_cons in Hc as [(Hi & Hs & Hp) Hc].
  destruct (on_transport_ok i (tcp_step s) ts Hts Hi) as (ts1 & t & t' & -> & Hts1 & Hl1 & _).
  { intros t Ht. destruct (tcp_ok_step a None t s Ht) as (t' & E & Ht'); [intros p Hsp; by apply known, Hp|]. exists t'. split_and!; [done|done|by eapply call_step_later]. }
  cbn. destruct (IH ts1 Hc Hts1) as (ts2 & E2 & Hts2 & Hl2). exists ts2. split_and!; [done|done|by transitivity ts1].
Qed.

Lemma BlockPeer_ok p t : p ∈ peers -> tcp_ok a None t -> exists t', BlockPeer p t = Some t' /\ tcp_ok a None t' /\ later_t t t'.
Proof.
  intros Hp Ht. destruct (tcp_ok_step a None t (TBlock p) Ht) as (t' & E & Ht'); [intros q [= <-]; by apply known|]. cbn in E. exists t'. split; [done|]. split; [done|].
  by apply BlockPeer_blocks in E as [? ?].
Qed.

Lemma CloseTCP_ok t : tcp_ok a None t -> tcp_ok a None (CloseTCP t) /\ later_t t (CloseTCP t).
Proof.
  intros Ht. destruct (tcp_ok_step a None t TClose Ht ltac:(done)) as (t' & [= <-] & Ht'). done.
Qed.

End transports.

(** * The steps of the benchmark *)

Section steps.
Context (sched : nat -> list Action) (calls : nat -> list (Z * TcpStep)) (timer : nat -> bool) (peers : list Z) (valid : valid_config peers).
Context (a : gmap Z string) (known : forall i, i ∈ peers -> i ∈ dom a) (calls_known : forall k, calls_ok peers (calls k)).
Implicit Types b : tcp_cluster.

Abbreviation runs_to := (BenchCluster.runs_to (N := list TCPTransport) drop_message peers tcp_cap).

(** The group ran from one state to the other. *)
Definition moves b b' : Prop := exists acts, rrun drop_message peers tcp_cap acts (nodes_ b) = RNext (nodes_ b').

#[export] Instance moves_preorder : PreOrder moves.
Proof. split; [by exists []|]. intros b1 b2 b3 [a1 E1] [a2 E2]. exists (a1 ++ a2). by rewrite rrun_app, E1. Qed.

Lemma runs_moves b b' : runs_to b b' -> moves b b' /\ net b' = net b.
Proof. intros (Hn & _ & H). done. Qed.

Lemma moves_clock b b' : moves b b' -> clock_of b <= clock_of b'.
Proof. intros [acts E]. by eapply rrun_clock. Qed.

Lemma moves_same b b' : nodes_ b' = nodes_ b -> moves b b'.
Proof. intros E. exists []. cbn. by rewrite E. Qed.

Lemma moves_runs acts nt k b : moves b (mkCluster nt (runs drop_message peers tcp_cap acts (nodes_ b)) k).
Proof. unfold runs. destruct (rrun _ _ _ acts (nodes_ b)) as [w| |] eqn:E; [by exists acts|by exists []..]. Qed.

Definition reach b : Prop := rreachable drop_message peers tcp_cap (fun _ => tt) (nodes_ b).

Lemma moves_reach b b' : reach b -> moves b b' -> reach b'.
Proof. intros Hr [acts E]. by eapply rrun_reachable. Qed.

(** A transport is used after the calls before. *)
Lemma use_transport_ok i f b : ts_ok a peers (net b) -> i ∈ peers ->
  (forall t, tcp_ok a None t -> exists t', f t = Some t' /\ tcp_ok a None t' /\ later_t t t') ->
  exists b' t t', use_transport calls i f b = Returns b' /\ nodes_ b' = nodes_ b /\ ts_ok a peers (net b') /\ later_ts (net b) (net b') /\
    f t = Some t' /\ (net b') @[i] = Some t'.
Proof.
  intros Hts Hi Hf. unfold use_transport. destruct (calls_run_ok a peers known _ (net b) (calls_known (part b)) Hts) as (ts1 & -> & Hts1 & Hl1). cbn [mbind option_bind].
  destruct (on_transport_ok a peers i f ts1 Hts1 Hi Hf) as (ts2 & t & t' & -> & Hts2 & Hl2 & E & Hg). eexists _, t, t'. split; [done|].
  split_and!; [done|done|by transitivity ts1|done|done].
Qed.

(** The two peers are blocked from each other. *)
Definition cut_off (lead i : Z) (ts : list TCPTransport) : Prop :=
  exists tl ti, ts @[lead] = Some tl /\ i ∈ blocked tl /\ ts @[i] = Some ti /\ lead ∈ blocked ti.

Lemma later_blocked ts ts' i p t : later_ts ts ts' -> ts @[i] = Some t -> p ∈ blocked t -> exists t', ts' @[i] = Some t' /\ p ∈ blocked t'.
Proof. intros Hl Hi Hp. destruct (later_ts_get _ _ _ _ Hl Hi) as (t' & Ht' & Hb & _). exists t'. split; [done|]. by apply Hb. Qed.

Lemma cut_off_later lead i ts ts' : later_ts ts ts' -> cut_off lead i ts -> cut_off lead i ts'.
Proof.
  intros Hl (tl & ti & H1 & H2 & H3 & H4). destruct (later_blocked _ _ _ _ _ Hl H1 H2) as (tl' & ? & ?), (later_blocked _ _ _ _ _ Hl H3 H4) as (ti' & ? & ?).
  by exists tl', ti'.
Qed.

Lemma blockLeader_ok lead ids : forall b, lead ∈ peers -> (forall i, i ∈ ids -> i ∈ peers) -> ts_ok a peers (net b) ->
  exists b', blockLeader calls lead ids b = Returns b' /\ nodes_ b' = nodes_ b /\ ts_ok a peers (net b') /\ later_ts (net b) (net b') /\
    forall i, i ∈ ids -> i <> lead -> cut_off lead i (net b').
Proof.
  induction ids as [|i ids IH]; intros b Hlead Hids Hts; cbn [blockLeader].
  { exists b. split_and!; try done. by intros i ?%not_elem_of_nil. }
  assert (Hi : i ∈ peers) by (apply Hids; by left). assert (Hids' : forall j, j ∈ ids -> j ∈ peers) by (intros j Hj; apply Hids; by right).
  destruct (i =? lead) eqn:Ei.
  - destruct (IH b Hlead Hids' Hts) as (b' & E & Hn & Ht & Hl & Hc). exists b'. split_and!; try done.
    intros j [->|Hj]%elem_of_cons; [apply Z.eqb_eq in Ei; done|by apply Hc].
  - destruct (use_transport_ok lead (BlockPeer i) b Hts Hlead) as (b1 & t1 & t1' & -> & Hn1 & Hts1 & Hl1 & E1 & G1).
    { intros t. by apply (BlockPeer_ok a peers known). }
    apply BlockPeer_blocks in E1 as [B1 _].
    unfold mbind, finish_bind. destruct (use_transport_ok i (BlockPeer lead) b1 Hts1 Hi) as (b2 & t2 & t2' & -> & Hn2 & Hts2 & Hl2 & E2 & G2).
    { intros t. by apply (BlockPeer_ok a peers known). }
    apply BlockPeer_blocks in E2 as [B2 _].
    destruct (IH b2 Hlead Hids' Hts2) as (b' & E & Hn & Ht & Hl & Hc). exists b'. split_and!; [done|congruence|done|transitivity (net b1); [done|]; by transitivity (net b2)|].
    intros j [->|Hj]%elem_of_cons Hne; [|by apply Hc]. apply (cut_off_later _ _ (net b2)); [done|].
    destruct (later_blocked _ _ _ _ _ Hl2 G1 B1) as (tl & ? & ?). by exists tl, t2'.
Qed.

Lemma closePeers_ok ids : forall b, (forall i, i ∈ ids -> i ∈ peers) -> ts_ok a peers (net b) ->
  exists b', closePeers calls peers ids b = Returns b' /\ moves b b' /\ later_ts (net b) (net b') /\
    forall i, i ∈ ids -> exists t, (net b') @[i] = Some t /\ listening t = false.
Proof.
  induction ids as [|i ids IH]; intros b Hids Hts; cbn [closePeers].
  { exists b. split_and!; try done. by intros i ?%not_elem_of_nil. }
  set (b0 := mkCluster _ (runs _ _ _ _ _) _).
  destruct (use_transport_ok i (fun t => Some (CloseTCP t)) b0 Hts ltac:(apply Hids; by left)) as (b1 & t1 & t1' & -> & Hn1 & Hts1 & Hl1 & E1 & G1).
  { intros t Ht. exists (CloseTCP t). split; [done|]. by apply CloseTCP_ok. }
  unfold mbind, finish_bind. destruct (IH b1 ltac:(intros j Hj; apply Hids; by right) Hts1) as (b' & E & Hm & Hl & Hc).
  exists b'. split_and!; [done| |by transitivity (net b1)|].
  - transitivity b0; [apply moves_runs|]. transitivity b1; [by apply moves_same|done].
  - intros j [->|Hj]%elem_of_cons; [|by apply Hc]. injection E1 as <-.
    destruct (later_ts_get _ _ _ _ Hl G1) as (t' & Ht' & _ & Hlis). exists t'. split; [done|]. by apply Hlis.
Qed.

(** ** The group *)

Lemma startAt_ok i payload b : i ∈ peers -> reach b ->
  exists idx term isLeader b', startAt peers i payload b = Returns (idx, isLeader, b') /\ moves b b' /\ net b' = net b /\
    Submit drop_message peers tcp_cap (Some (CBytes (bytes_of_string payload))) i (nodes_ b) = Some (idx, term, isLeader, nodes_ b').
Proof.
  intros Hi Hr. destruct (Submit_total drop_message peers tcp_cap (fun _ => tt) (Some (CBytes (bytes_of_string payload))) i (nodes_ b) valid Hr Hi) as (idx & t & il & w & E).
  unfold startAt. rewrite E. eexists idx, t, il, _. split; [done|]. split_and!; [|done|done]. eexists. by eapply Submit_runs.
Qed.

Lemma Sleep_moves d b : moves b (BenchCluster.Sleep drop_message sched peers tcp_cap d b) /\ net (BenchCluster.Sleep drop_message sched peers tcp_cap d b) = net b.
Proof. apply runs_moves, Sleep_to. Qed.

Lemma Now_moves b t b' : BenchCluster.Now drop_message sched peers tcp_cap b = (t, b') -> moves b b' /\ net b' = net b /\ t = clock_of b'.
Proof. intros [H ->]%Now_to. apply runs_moves in H as [? ?]. done. Qed.

Lemma tcpWarmUp_ok k lead : forall b, lead ∈ peers -> reach b ->
  exists b', tcpWarmUp sched peers k lead b = Returns b' /\ moves b b' /\ net b' = net b.
Proof.
  induction k as [|k IH]; intros b Hl Hr; cbn [tcpWarmUp]; [by exists b|].
  destruct (startAt_ok lead "warmup" b Hl Hr) as (idx & t & il & b1 & -> & M1 & N1 & _). unfold mbind, finish_bind.
  set (b2 := BenchCluster.Sleep _ _ _ _ _ b1). destruct (Sleep_moves (5 * Millisecond) b1) as [M2 N2]. fold b2 in M2, N2.
  destruct (IH b2 Hl) as (b3 & E & M3 & N3); [by eapply moves_reach; [by eapply moves_reach|]|].
  exists b3. split_and!; [done|transitivity b1; [done|]; by transitivity b2|congruence].
Qed.

(** The loop of writes ends; one that was accepted has the index that a leader gave. *)
Lemma writeAccepted_ok lead deadline fuel : forall b, lead ∈ peers -> reach b ->
  deadline - clock_of b <= (Z.of_nat fuel - 1) * (5 * Millisecond) -> (0 < fuel)%nat ->
  exists o b', writeAccepted sched peers fuel lead deadline b = Returns (o, b') /\ moves b b' /\ net b' = net b /\
    forall idx, o = Some idx -> exists c payload term, moves b c /\
      Submit drop_message peers tcp_cap (Some (CBytes payload)) lead (nodes_ c) = Some (idx, term, true, nodes_ b').
Proof.
  induction fuel as [|fuel IH]; intros b Hl Hr Hf H0; [lia|]. cbn [writeAccepted].
  destruct (BenchCluster.Now _ _ _ _ b) as [t b1] eqn:E1. apply Now_moves in E1 as (M1 & N1 & ->). case_test; [|by exists None, b1; split_and!].
  destruct (startAt_ok lead "post-kill" b1 Hl ltac:(by eapply moves_reach)) as (idx & term & il & b2 & -> & M2 & N2 & HS). unfold mbind, finish_bind.
  pose proof (transitivity M1 M2) as M12. destruct il.
  { exists (Some idx), b2. split_and!; [done|done|congruence|]. intros ? [= <-]. by eexists b1, _, term. }
  set (b3 := BenchCluster.Sleep _ _ _ _ _ b2). destruct (Sleep_moves (5 * Millisecond) b2) as [M3 N3].
  pose proof (Sleep_clock drop_message sched peers tcp_cap (5 * Millisecond) b2) as C3. fold b3 in M3, N3, C3.
  apply moves_clock in M12 as C12, M1 as C1. unfold Millisecond in *.
  destruct (IH b3 Hl) as (o & b4 & E & M4 & N4 & Ho); [by eapply moves_reach; [by eapply moves_reach|]|lia|destruct fuel; lia|].
  pose proof (transitivity M12 M3) as M13. exists o, b4. split_and!; [done|by transitivity b3|congruence|].
  intros i Hi. destruct (Ho i Hi) as (c & payload & t & Mc & Hc). exists c, payload, t. split; [by transitivity b3|done].
Qed.

(** ** The message *)

Definition received (i : Z) b : list ApplyMsg := consumed (nodes (group (nodes_ b)) i).

Lemma moves_received i b b' : moves b b' -> received i b `prefix_of` received i b'.
Proof. intros [acts E]. by eapply rrun_taken. Qed.

(** Taking a message from the channel. *)
Lemma consume_spec i b m ms k : applyCh (nodes (group (nodes_ b)) i) = m :: ms ->
  let b' := mkCluster (net b) (runs drop_message peers tcp_cap [AConsume i] (nodes_ b)) k in
  moves b b' /\ received i b' = received i b ++ [m].
Proof.
  intros Hm b'. split; [apply moves_runs|]. unfold received, b', runs. cbn [rrun nodes_]. unfold rexec. cbn [exec]. rewrite Hm. cbn. by rewrite upd_eq.
Qed.

(** The rounds of the last loop that took no message slept. *)
Definition slept (lead deadline : Z) (fuel : nat) b c : Prop :=
  let n := Z.of_nat fuel - (zlen (received lead c) - zlen (received lead b)) in n <= 0 \/ (n - 1) * (50 * Millisecond) < deadline - clock_of b.

(** How the last loop ends from [b] on. *)
Definition applied_from (lead idx deadline : Z) (fuel : nat) b (o : finish (option Z * tcp_cluster)) : Prop :=
  match o with
  | Returns (Some t, b') => exists c m, moves b c /\ moves c b' /\ net b' = net b /\ t = clock_of b' /\ m ∈ received lead c /\ CommandIndex m = idx
  | Returns (None, b') => moves b b'
  | Panics _ => False
  | Unfinished => exists c, moves b c /\ slept lead deadline fuel b c
  end.

(** One more round, to [b2]. *)
Lemma applied_more lead idx deadline fuel b b2 o : moves b b2 -> net b2 = net b -> clock_of b < deadline ->
  (clock_of b + 50 * Millisecond <= clock_of b2 \/ exists ms m, received lead b2 = received lead b ++ ms ++ [m]) ->
  applied_from lead idx deadline fuel b2 o -> applied_from lead idx deadline (S fuel) b o.
Proof.
  intros M N Hc Hstep H. destruct o as [[[t|] b']| |]; cbn in *; [| | |].
  - destruct H as (c & m & H1 & H2 & H3 & H4). exists c, m. split_and!; [by transitivity b2|done|congruence|apply H4..].
  - by transitivity b2.
  - done.
  - destruct H as (c & H1 & H2). exists c. split; [by transitivity b2|]. apply moves_clock in M as C. apply (moves_received lead) in M as [ms Hms].
    unfold slept, Millisecond in *. assert (Hz : zlen (received lead b) <= zlen (received lead b2)) by (rewrite Hms, zlen_app; pose proof (zlen_nonneg ms); lia).
    destruct Hstep as [Hs|(ms' & m & E)]; [lia|].
    assert (zlen (received lead b) + 1 <= zlen (received lead b2)) by (rewrite E, !zlen_app; pose proof (zlen_nonneg ms'); change (zlen [m]) with 1; lia). lia.
Qed.

Lemma appliedLoop_spec lead idx deadline fuel : forall b, applied_from lead idx deadline fuel b (appliedLoop sched timer peers fuel lead idx deadline b).
Proof.
  induction fuel as [|fuel IH]; intros b; cbn [appliedLoop]; [exists b; split; [done|left; lia]|].
  destruct (BenchCluster.Now _ _ _ _ b) as [t b1] eqn:E1. apply Now_moves in E1 as (M1 & N1 & ->). apply moves_clock in M1 as C1. case_test; [|exact M1].
  set (b2 := BenchCluster.pause _ _ _ _ b1). destruct (runs_moves _ _ (pause_to drop_message sched peers tcp_cap b1)) as [M2 N2]. fold b2 in M2, N2.
  pose proof (transitivity M1 M2) as M12. assert (N12 : net b2 = net b) by congruence.
  assert (Hsleep : applied_from lead idx deadline (S fuel) b
    (appliedLoop sched timer peers fuel lead idx deadline (BenchCluster.Sleep drop_message sched peers tcp_cap (50 * Millisecond) b2))).
  { destruct (Sleep_moves (50 * Millisecond) b2) as [M3 N3]. pose proof (Sleep_clock drop_message sched peers tcp_cap (50 * Millisecond) b2) as C3.
    apply moves_clock in M12 as C12. eapply applied_more; [by transitivity b2|congruence|lia|left; lia|apply IH]. }
  destruct (applyCh (nodes (group (nodes_ b2)) lead)) as [|m ms] eqn:Ea; [exact Hsleep|]. case_test; [exact Hsleep|]. clear Hsleep.
  destruct (consume_spec lead b2 m ms (part b2) Ea) as [M3 R3]. set (b3 := mkCluster _ _ _) in *. pose proof (transitivity M12 M3) as M13.
  case_test.
  - destruct (BenchCluster.Now _ _ _ _ b3) as [t4 b4] eqn:E4. apply Now_moves in E4 as (M4 & N4 & ->). exists b3, m.
    split_and!; [done|done|rewrite N4; done|done|rewrite R3; apply elem_of_app; right; by left|done].
  - destruct (moves_received lead _ _ M12) as [ms' Hms]. eapply applied_more; [exact M13|done|lia| |apply IH]. right. exists ms', m.
    by rewrite R3, Hms, app_assoc.
Qed.

(** ** The measurement *)

Lemma measureTcpChaos_spec fuel b0 : reach b0 -> ts_ok a peers (net b0) ->
  match measureTcpChaos sched calls timer peers fuel b0 with
  | Returns (r, b) => exists lead newLead killedAt detectedAt recoveredAt idx,
      r = mkChaos (inMs (detectedAt - killedAt)) (inMs (recoveredAt - killedAt)) /\
      recovered (S := unit) drop_message peers tcp_cap lead newLead killedAt detectedAt recoveredAt idx /\
      (forall i, i ∈ peers -> i <> lead -> cut_off lead i (net b)) /\
      (forall i, i ∈ peers -> exists t, (net b) @[i] = Some t /\ listening t = false)
  | Panics msg => msg ∈ ["no leader elected during real-transport chaos benchmark setup";
      "no new leader elected within real-transport chaos benchmark deadline"; "no successful write accepted within real-transport chaos benchmark deadline";
      "post-kill write never committed within real-transport chaos benchmark deadline"]%string
  | Unfinished => exists c lead, moves b0 c /\ Z.of_nat fuel <= zlen (received lead c) + 100
  end.
Proof.
  intros Hr0 Hts. unfold measureTcpChaos, findRaftLeader, mbind, finish_bind.
  destruct (search_spec (N := list TCPTransport) drop_message sched peers tcp_cap (fun _ _ => false) (10 * Millisecond) (3 * Second) b0) as (lead & b1 & -> & H01 & Hl); [done|done|].
  apply runs_moves in H01 as [M1 N1]. case_test; [rewrite !elem_of_cons; tauto|]. destruct Hl as [[-> _]|(Hlead & _ & Hled%State_leads)]; [done|].
  pose proof (moves_reach _ _ Hr0 M1) as Hr1. destruct (tcpWarmUp_ok 5 lead b1 Hlead Hr1) as (b2 & -> & M2 & N2).
  destruct (BenchCluster.Now _ _ _ _ b2) as [killedAt b3] eqn:E3. apply Now_moves in E3 as (M3 & N3 & ->).
  destruct (blockLeader_ok lead peers b3 Hlead ltac:(done) ltac:(congruence)) as (b4 & -> & Hn4 & Hts4 & _ & Hcut). apply moves_same in Hn4 as M4.
  destruct (search_spec (N := list TCPTransport) drop_message sched peers tcp_cap (fun _ i => i =? lead) (5 * Millisecond) (5 * Second) b4) as (new & b5 & -> & H45 & Hnl); [done|done|].
  apply runs_moves in H45 as [M5 N5]. destruct (BenchCluster.Now _ _ _ _ b5) as [t6 b6] eqn:E6. apply Now_moves in E6 as (M6 & N6 & ->).
  case_test; [rewrite !elem_of_cons; tauto|]. destruct Hnl as [[-> _]|(Hin & Hne%Z.eqb_neq & Hnled%State_leads)]; [done|].
  destruct (BenchCluster.Now _ _ _ _ b6) as [t7 b7] eqn:E7. apply Now_moves in E7 as (M7 & N7 & ->).
  pose proof (transitivity M2 (transitivity M3 (transitivity M4 M5))) as M15. pose proof (transitivity M15 (transitivity M6 M7)) as M17.
  destruct (writeAccepted_ok new (clock_of b7 + 5 * Second) (rounds (5 * Second) (5 * Millisecond)) b7 Hin (moves_reach _ _ Hr1 M17)) as (o & b8 & -> & M8 & N8 & Ho);
    [apply rounds_enough; [done|done|lia]|unfold rounds; lia|].
  destruct o as [idx|]; [|rewrite !elem_of_cons; tauto]. destruct (BenchCluster.Now _ _ _ _ b8) as [t9 b9] eqn:E9. apply Now_moves in E9 as (M9 & N9 & ->).
  pose proof (appliedLoop_spec new idx (clock_of b9 + 5 * Second) fuel b9) as HA. pose proof (transitivity M6 (transitivity M7 (transitivity M8 M9))) as M59.
  destruct (appliedLoop _ _ _ _ _ _ _ b9) as [[[t10|] b10]| |]; [|rewrite !elem_of_cons; tauto|done|].
  2:{ destruct HA as (c & Mc & Hs). exists c, new. split; [exact (transitivity M1 (transitivity M15 (transitivity M59 Mc)))|].
      pose proof (zlen_nonneg (received new b9)). cbv delta [slept Second Millisecond] beta zeta in Hs. lia. }
  destruct HA as (c & m & Mc & M10 & N10 & -> & Hm & Hidx). pose proof (transitivity M59 Mc) as M5c.
  destruct (closePeers_ok peers b10 ltac:(done)) as (b11 & -> & _ & Hl11 & Hclosed); [congruence|].
  destruct (replica_applies _ _ _ _ _ (moves_reach _ _ Hr1 (transitivity M15 M5c))) as [Hg _].
  destruct (consumed_entry peers tcp_cap _ new m valid Hg Hm) as [Hc [e He]]. rewrite Hidx in *.
  pose proof (leaders_differ drop_message peers tcp_cap (fun _ => tt) _ _ lead new valid Hr1 M15 Hled Hnled Hne) as Hterms.
  destruct (Ho idx eq_refl) as (v & payload & term & Mv & HS).
  assert (Hwr : written (S := unit) drop_message peers tcp_cap new idx (nodes_ b5) (nodes_ c)).
  { eapply (written_intro _ _ _ (fun _ => tt)); [done|exact (moves_reach _ _ Hr1 M15)| |exact HS| |exact He|apply Hc];
      [exact (transitivity M6 (transitivity M7 Mv))|exact (transitivity M9 Mc)]. }
  exists lead, new, (clock_of b3), (clock_of b6), (clock_of b10), idx. split; [done|]. split; [|split; [|done]].
  - pose proof (moves_clock _ _ (transitivity M2 M3)). pose proof (moves_clock _ _ (transitivity M4 M5)). pose proof (moves_clock _ _ M6).
    pose proof (moves_clock _ _ M10). pose proof (moves_clock _ _ (transitivity M7 (transitivity M8 (transitivity M9 (transitivity Mc M10))))).
    exists (nodes_ b1), (nodes_ b5), (nodes_ c). unfold clock_of in *. split_and!; try done; lia.
  - intros i Hi Hil. eapply cut_off_later; [exact Hl11|]. rewrite N10, N9, N8, N7, N6, N5. by apply Hcut.
Qed.

End steps.

(** * Setting up *)

Lemma freeTCPPorts_spec n : forall i port,
  match freeTCPPorts n i port with Returns ports => zlen ports = Z.of_nat n | Panics msg => msg = "listen"%string | Unfinished => False end.
Proof.
  induction n as [|n IH]; intros i port; cbn [freeTCPPorts]; [done|]. destruct (port i) as [p|]; [|done].
  specialize (IH (S i) port). unfold mbind, finish_bind. destruct (freeTCPPorts n (S i) port); [|done..]. cbn. rewrite zlen_cons. lia.
Qed.

Lemma tcp_addrs_dom ports i : 0 <= i < zlen ports -> i ∈ dom (tcp_addrs ports).
Proof.
  intros Hi. unfold tcp_addrs. rewrite dom_list_to_map_L, fst_zip by (rewrite length_map, length_seqZ; unfold zlen; lia).
  apply elem_of_list_to_set, elem_of_seqZ. lia.
Qed.

Lemma openTransports_spec bind addrs peers draw ids :
  match openTransports bind addrs peers draw ids with
  | Returns ts => Forall (tcp_ok addrs None) (map fst ts) /\ length ts = length ids
  | Panics msg => msg = "listen"%string
  | Unfinished => False
  end.
Proof.
  induction ids as [|i ids IH]; cbn [openTransports]; [done|]. destruct (NewTCPTransport (bind i) i addrs) as [[[t svc] srv]|msg] eqn:E.
  - unfold mbind, finish_bind. destruct (openTransports bind addrs peers draw ids) as [ts| |]; [|done..]. destruct IH as [H1 H2]. cbn.
    split; [|by rewrite H2]. constructor; [|done]. by eapply tcp_ok_new.
  - unfold NewTCPTransport, newTCPTransport, Listen in E.
    rewrite register_raft in E. cbn in E. destruct (bind i _) in E; cbn in E; congruence.
Qed.

Lemma setupTCPCluster_spec port bind draw :
  match setupTCPCluster 3 port bind draw with
  | Returns b => nodes_ b = mkRep (init (seqZ 0 3) draw) (fun _ => tt) /\
      exists a, (forall i, i ∈ seqZ 0 3 -> i ∈ dom a) /\ ts_ok a (seqZ 0 3) (net b)
  | Panics msg => msg = "listen"%string
  | Unfinished => False
  end.
Proof.
  unfold setupTCPCluster, mbind, finish_bind. pose proof (freeTCPPorts_spec (Z.to_nat 3) 0 port) as Hp.
  destruct (freeTCPPorts _ _ port) as [ports| |]; [|done..]. pose proof (openTransports_spec bind (tcp_addrs ports) (seqZ 0 3) draw (seqZ 0 3)) as Ho.
  destruct (openTransports _ _ _ _ _) as [ts| |]; [|done..]. destruct Ho as [H1 H2]. cbn [nodes_ net mret finish_ret]. split; [done|].
  exists (tcp_addrs ports). split; [intros i Hi%elem_of_seqZ; apply tcp_addrs_dom; lia|]. split; [done|].
  intros i Hi%elem_of_seqZ. unfold zlen. rewrite length_map, H2, length_seqZ. lia.
Qed.

Lemma RunRealTransportChaos_spec sched calls timer fuel port bind draw :
  (forall k, calls_ok (seqZ 0 3) (calls k)) ->
  match RunRealTransportChaos sched calls timer fuel port bind draw with
  | Returns (r, b) => exists lead newLead killedAt detectedAt recoveredAt idx,
      r = mkChaos (inMs (detectedAt - killedAt)) (inMs (recoveredAt - killedAt)) /\
      recovered (S := unit) drop_message (seqZ 0 3) tcp_cap lead newLead killedAt detectedAt recoveredAt idx /\
      (forall i, i ∈ seqZ 0 3 -> i <> lead -> cut_off lead i (net b)) /\
      (forall i, i ∈ seqZ 0 3 -> exists t, (net b) @[i] = Some t /\ listening t = false)
  | Panics msg => msg ∈ ["listen"; "no leader elected during real-transport chaos benchmark setup";
      "no new leader elected within real-transport chaos benchmark deadline"; "no successful write accepted within real-transport chaos benchmark deadline";
      "post-kill write never committed within real-transport chaos benchmark deadline"]%string
  | Unfinished => exists b c lead, setupTCPCluster 3 port bind draw = Returns b /\ moves (seqZ 0 3) b c /\ Z.of_nat fuel <= zlen (received lead c) + 100
  end.
Proof.
  intros Hc. unfold RunRealTransportChaos, mbind, finish_bind. pose proof (setupTCPCluster_spec port bind draw) as Hs.
  destruct (setupTCPCluster 3 port bind draw) as [b| |]; [|subst; by left|done]. destruct Hs as (Hn & a & Ha & Hts).
  assert (Hr : reach (seqZ 0 3) b) by (unfold reach; rewrite Hn; apply rreach_init).
  pose proof (measureTcpChaos_spec sched calls timer (seqZ 0 3) trio_ids_valid a Ha Hc fuel b Hr Hts) as H.
  destruct (measureTcpChaos _ _ _ _ _ b) as [[r b']|msg|]; [exact H|by right|]. destruct H as (c & lead & H1 & H2). by exists b, c, lead.
Qed.

(** * The two measurements of a recovery *)


#[local] Existing Instance stored_gzip.

(** The leader is elected, warmed up and blocked, the next peer is elected and
    commits. *)
Definition tcp_sched (k : nat) : list Action :=
  match k with
  | 0%nat => election
  | 13%nat => [ATime 700000000; ATickCheck 1; ATickFire 1 5; ARun 1 0; ARun 0 0]
  | 20%nat => [ATime (2 * Millisecond); ARun 0 0; ARun 0 0; ARun 0 0; AApply 1; ASendMsg 1]
  | _ => []
  end.

(** A call of the leader times out before it is blocked. *)
Definition tcp_calls (k : nat) : list (Z * TcpStep) := match k with 9%nat => [(0, TDone (RpcTimeout false) 1)] | _ => [] end.

