(* ===== verification/Harness.v ===== *)
(** The cluster harness ([raft/config.go]): its observations of a group never
    find what it calls a failure of the protocol.

    A group of [n] peers is the one of [seqZ 0 n].  The harness looks at one peer
    after the other while the group runs, so an observation is a world; Go ranges
    over a map in an order it does not specify, [order]. *)
From S2P Require Import Prelude Raft RaftCluster RaftLog RaftInv RaftSteps RaftHandlers RaftSafety RaftTheorems Replica Transport.
#[local] Open Scope Z_scope.

(** The peers of [makeConfig], and its channels' capacity. *)
Definition config_peers (n : Z) : list Z := seqZ 0 n.
Definition config_cap : nat := 100.

(** The body of [applierLoop]: what a server committed at each index. *)
Definition applierMsg (msg : ApplyMsg) (log : gmap Z (option Cmd)) : option (gmap Z (option Cmd)) :=
  Some (if CommandValid msg then <[CommandIndex msg := MsgCommand msg]> log else log).

(** [cleanup]: every peer is killed. *)
Definition cleanup (n : Z) : list Action := map AKill (config_peers n).

(** The first loop of a round of [checkOneLeader]: [obs] are the connected servers
    with what [GetState] returned. *)
Definition leadersLoop (obs : list (Z * (Z * bool))) : gmap Z (list Z) :=
  foldl (fun m '(i, (term, isLeader)) => if (isLeader : bool) then <[term := mapget [] m term ++ [i]]> m else m) ∅ obs.

(** The second loop; [None] is a failed test. *)
Fixpoint scanTerms (order : list (Z * list Z)) (lastTermWithLeader : Z) : option Z :=
  match order with
  | [] => Some lastTermWithLeader
  | (term, ls) :: order =>
      if 1 <? zlen ls then None
      else scanTerms order (if lastTermWithLeader <? term then term else lastTermWithLeader)
  end.

(** A round: [None] is a failed test, [Some None] no leader yet.  The index into
    the leaders of the last term is in range. *)
Definition checkRound (obs : list (Z * (Z * bool))) (order : list (Z * list Z)) : option (option Z) :=
  last ← scanTerms order (-1);
  if negb (last =? -1) then l ← (mapget [] (leadersLoop obs) last) @[0]; Some (Some l) else Some None.

(** [checkTerms]; [None] is a failed test. *)
Fixpoint checkTerms (obs : list (Z * (Z * bool))) (term : Z) : option Z :=
  match obs with
  | [] => Some term
  | (_, (xterm, _)) :: obs =>
      if term =? -1 then checkTerms obs xterm else if negb (term =? xterm) then None else checkTerms obs term
  end.

(** The loop of [nCommitted]; [None] is a failed test. *)
Fixpoint countCommitted (logs : list (gmap Z (option Cmd))) (index count : Z) (cmd : option Cmd) : option Z :=
  match logs with
  | [] => Some count
  | log :: logs =>
      match log !! index with
      | None => countCommitted logs index count cmd
      | Some c =>
          if (0 <? count) && negb (bool_decide (c = cmd)) then None else countCommitted logs index (count + 1) c
      end
  end.
Definition nCommitted (n : Z) (logs : Z -> gmap Z (option Cmd)) (index : Z) : option Z :=
  countCommitted (map logs (config_peers n)) index 0 None.

(** * What the harness observes *)

(** Observations while the group runs: each world is reached from the one before. *)
Inductive observed (ps : list Z) (chanCap : nat) : list (Z * World) -> Prop :=
| obs_nil : observed ps chanCap []
| obs_one i w : reachable ps chanCap w -> observed ps chanCap [(i, w)]
| obs_more i w j w' acts rest : reachable ps chanCap w -> run ps chanCap acts w = Next w' ->
    observed ps chanCap ((j, w') :: rest) -> observed ps chanCap ((i, w) :: (j, w') :: rest).

Definition states (ows : list (Z * World)) : list (Z * (Z * bool)) :=
  map (fun '(i, w) => (i, GetState (peer_state w i))) ows.

Lemma observed_tail ps chanCap x rest : observed ps chanCap (x :: rest) -> observed ps chanCap rest.
Proof. inversion 1; [constructor|done]. Qed.

Lemma observed_later ps chanCap rest : forall i w, observed ps chanCap ((i, w) :: rest) ->
  reachable ps chanCap w /\ forall j w', (j, w') ∈ rest -> exists acts, run ps chanCap acts w = Next w'.
Proof.
  induction rest as [|[j w'] rest IH]; intros i w H.
  { inversion H; subst. split; [done|]. by intros ?? ?%not_elem_of_nil. }
  inversion H as [| |? ? ? ? acts ? Hr Hrun Ho]; subst. split; [done|]. destruct (IH _ _ Ho) as [_ Hl].
  intros k w2 [[= -> ->]|Hin]%elem_of_cons; [by exists acts|]. destruct (Hl _ _ Hin) as [acts2 H2].
  exists (acts ++ acts2). by rewrite run_app, Hrun.
Qed.

(** The leaders of a term among some observations, in order. *)
Definition leaders_of (term : Z) (obs : list (Z * (Z * bool))) : list Z :=
  omap (fun '(i, (t, b)) => if (b : bool) && (t =? term) then Some i else None) obs.

Lemma leadersLoop_spec obs term : mapget [] (leadersLoop obs) term = leaders_of term obs.
Proof.
  unfold leadersLoop. cut (forall m, mapget [] (foldl (fun m '(i, (term, isLeader)) =>
    if (isLeader : bool) then <[term := mapget [] m term ++ [i]]> m else m) m obs) term = mapget [] m term ++ leaders_of term obs).
  { intros H. rewrite H. unfold mapget. by rewrite lookup_empty. }
  induction obs as [|[i [t b]] obs IH]; intros m; cbn; [by rewrite app_nil_r|]. rewrite IH. destruct b; cbn; [|done].
  unfold mapget at 1. destruct (t =? term) eqn:E; bool_to_prop.
  - subst t. rewrite lookup_insert_eq. cbn. by rewrite <- app_assoc.
  - by rewrite lookup_insert_ne.
Qed.

Lemma leaders_of_elem term obs i : i ∈ leaders_of term obs <-> (i, (term, true)) ∈ obs.
Proof.
  unfold leaders_of. rewrite list_elem_of_omap. split.
  - intros ([j [t b]] & Hin & H). destruct b; [|done]. cbn in H. case_test_in H; [|done]. injection H as <-. by subst t.
  - intros Hin. exists (i, (term, true)). split; [done|]. cbn. by rewrite Z.eqb_refl.
Qed.

(** No term has two leaders, however the group runs between the observations. *)
Lemma one_leader ps chanCap ows term : valid_config ps -> observed ps chanCap ows -> NoDup (map fst ows) ->
  zlen (leaders_of term (states ows)) <= 1.
Proof.
  intros Hv. induction ows as [|[i w] ows IH]; intros Ho Hn; [done|]. cbn in Hn. apply list.NoDup_cons in Hn as [Hi Hn].
  specialize (IH (observed_tail _ _ _ _ Ho) Hn). cbn. destruct (bool_decide _ && _) eqn:E; [|done].
  apply andb_true_iff in E as [Hl%bool_decide_eq_true Ht%Z.eqb_eq]. rewrite zlen_cons.
  change (1 + zlen (leaders_of term (states ows)) <= 1).
  destruct (leaders_of term (states ows)) as [|j l] eqn:El; [rewrite zlen_nil; lia|]. exfalso.
  assert (Hj : j ∈ leaders_of term (states ows)) by (rewrite El; left). apply leaders_of_elem in Hj.
  apply list_elem_of_fmap in Hj as ([j' w'] & Ej & Hin). injection Ej as <- Ht' Hl'. symmetry in Hl'. apply bool_decide_eq_true in Hl'.
  destruct (observed_later _ _ _ _ _ Ho) as [Hr Hlater]. destruct (Hlater _ _ Hin) as [acts Hrun].
  assert (i = j) as -> by (eapply leads_alone; [done|done|exact Hrun|done|done|congruence]).
  apply Hi. apply list_elem_of_fmap. by exists (j, w').
Qed.

Lemma scanTerms_total order last : (forall t ls, (t, ls) ∈ order -> zlen ls <= 1) -> -1 <= last ->
  exists r, scanTerms order last = Some r /\ last <= r /\ (r = last \/ r ∈ map fst order) /\
    forall t ls, (t, ls) ∈ order -> t <= r.
Proof.
  revert last. induction order as [|[t ls] order IH]; intros last H Hlast; cbn [scanTerms].
  { exists last. split_and!; [done|lia|by left|]. by intros ?? ?%not_elem_of_nil. }
  rewrite (proj2 (Z.ltb_ge 1 (zlen ls))) by (apply (H t); left).
  destruct (IH (if last <? t then t else last)) as (r & E & Hle & Hr & Hall); [intros ?? ?; eapply H; by right|case_test; lia|].
  exists r. split_and!; [done|case_test_in Hle; lia| |].
  - destruct Hr as [->|Hr]; [|right; by right]. case_test; [right; left|by left].
  - intros t' ls' [[= -> ->]|Hin]%elem_of_cons; [case_test_in Hle; lia|by eapply Hall].
Qed.

(** What a server's applier stored is what its peer delivered. *)
Lemma applier_logged ms : forall l0 l idx c, applies applierMsg ms l0 = Some l -> l !! idx = Some c ->
  l0 !! idx = Some c \/ exists m, m ∈ ms /\ CommandIndex m = idx /\ MsgCommand m = c.
Proof.
  induction ms as [|m ms IH]; intros l0 l idx c H Hl; cbn in H; [injection H as <-; by left|].
  destruct (IH _ _ _ _ H Hl) as [H0|(m' & Hm & ?)]; [|right; exists m'; split; [by right|done]].
  destruct (CommandValid m); [|by left]. apply lookup_insert_Some in H0 as [[<- <-]|[_ ?]]; [right|by left].
  exists m. split; [left|done].
Qed.

Lemma rising_inj ms : forall top m m', rising top ms -> m ∈ ms -> m' ∈ ms -> CommandIndex m = CommandIndex m' -> m = m'.
Proof.
  induction ms as [|x ms IH]; intros top m m' Hr Hm Hm' E; [by apply not_elem_of_nil in Hm|].
  apply elem_of_cons in Hm as [->|Hm], Hm' as [->|Hm']; [done| | |destruct Hr; by eapply IH].
  - pose proof (rising_lt top [x] ms x m' Hr ltac:(left) Hm'). lia.
  - pose proof (rising_lt top [x] ms x m Hr ltac:(left) Hm). lia.
Qed.

(** Two servers never store different commands at an index. *)
Lemma logs_agree ps chanCap w i j idx c c' :
  valid_config ps -> rreachable applierMsg ps chanCap (fun _ => ∅) w ->
  replica w i !! idx = Some c -> replica w j !! idx = Some c' -> c = c'.
Proof.
  intros Hv Hr Hi Hj. destruct (replica_applies _ _ _ _ w Hr) as [Hg Ha].
  destruct (applier_logged _ _ _ _ _ (Ha i) Hi) as [He|(m & Hm & Em & Ec)]; [by rewrite lookup_empty in He|].
  destruct (applier_logged _ _ _ _ _ (Ha j) Hj) as [He|(m' & Hm' & Em' & Ec')]; [by rewrite lookup_empty in He|].
  assert (m = m') as ->; [|congruence].
  destruct (consumed_agree ps chanCap (group w) i j Hv Hg) as [[rest E]|[rest E]].
  - eapply (rising_inj _ _ _ _ (consumed_rising ps chanCap (group w) j Hv Hg)); [rewrite E; apply elem_of_app; by left|done|congruence].
  - eapply (rising_inj _ _ _ _ (consumed_rising ps chanCap (group w) i Hv Hg)); [done|rewrite E; apply elem_of_app; by left|congruence].
Qed.

Lemma countCommitted_total index logs : forall count cmd, 0 <= count ->
  (forall l l' c c', l ∈ logs -> l' ∈ logs -> l !! index = Some c -> l' !! index = Some c' -> c = c') ->
  (0 < count -> forall l c, l ∈ logs -> l !! index = Some c -> c = cmd) ->
  countCommitted logs index count cmd = Some (count + zlen (filter (fun l => is_Some (l !! index)) logs)).
Proof.
  induction logs as [|l logs IH]; intros count cmd Hc Hall Hcmd; cbn [countCommitted].
  { transitivity (Some (count + 0)); [f_equal; lia|done]. }
  rewrite filter_cons. destruct (l !! index) as [c|] eqn:E.
  - assert (Hok : (0 <? count) && negb (bool_decide (c = cmd)) = false).
    { destruct (0 <? count) eqn:Ec; [|done]. bool_to_prop. rewrite bool_decide_true; [done|]. eapply Hcmd; [done|left|done]. }
    rewrite Hok, decide_True by eauto. rewrite IH; [rewrite zlen_cons; f_equal; lia|lia| |].
    + intros l1 l2 c1 c2 H1 H2. apply Hall; by right.
    + intros _ l1 c1 H1 Hc1. eapply Hall; [by right|left|done|done].
  - rewrite decide_False by (by intros [? ?]). apply IH; [done| |].
    + intros l1 l2 c1 c2 H1 H2. apply Hall; by right.
    + intros Hp l1 c1 H1. apply Hcmd; [done|by right].
Qed.

Lemma config_valid n : valid_config (config_peers n).
Proof.
  split; [apply NoDup_seqZ|]. apply list.Forall_forall. intros i Hi%elem_of_seqZ. lia.
Qed.

Lemma leadersLoop_entry obs t ls : leadersLoop obs !! t = Some ls -> ls = leaders_of t obs.
Proof. intros H. rewrite <- leadersLoop_spec. unfold mapget. by rewrite H. Qed.

Lemma leaders_nonempty obs t ls : leadersLoop obs !! t = Some ls -> ls <> [].
Proof.
  unfold leadersLoop. cut (forall m : gmap Z (list Z), (forall ls', m !! t = Some ls' -> ls' <> []) -> forall ls',
    foldl (fun m '(i, (term, isLeader)) => if (isLeader : bool) then <[term := mapget [] m term ++ [i]]> m else m) m obs !! t = Some ls' ->
    ls' <> []).
  { intros H. apply H. intros ls'. by rewrite lookup_empty. }
  induction obs as [|[i [t' b]] obs IH]; intros m Hm ls' H; cbn in H; [by apply Hm|]. eapply IH, H. intros ls2.
  destruct b; [|apply Hm]. intros [[-> <-]|[_ ?]]%lookup_insert_Some; [|by eapply Hm]. by destruct (mapget [] m t).
Qed.

(** A round of [checkOneLeader] never finds two leaders of a term, however the
    group runs while the servers are looked at. *)
Lemma checkRound_sound n ows order :
  observed (config_peers n) config_cap ows -> NoDup (map fst ows) -> order ≡ₚ map_to_list (leadersLoop (states ows)) ->
  exists r, checkRound (states ows) order = Some r /\
     forall i, r = Some i -> exists t, (i, (t, true)) ∈ states ows /\ forall j t', (j, (t', true)) ∈ states ows -> t' <= t.
Proof.
  intros Ho Hn Hord. pose proof (config_valid n) as Hv.
  assert (Hin : forall t ls, (t, ls) ∈ order <-> leadersLoop (states ows) !! t = Some ls).
  { intros t ls. by rewrite Hord, elem_of_map_to_list. }
  destruct (scanTerms_total order (-1)) as (r & E & Hle & Hlast & Hall); [|lia|].
  { intros t ls ->%Hin%leadersLoop_entry. by eapply one_leader. }
  unfold checkRound. rewrite E. cbn [mbind option_bind].
  destruct (r =? -1) eqn:Er; cbn [negb]; [eexists; by split|]. bool_to_prop. destruct Hlast as [->|Hlast]; [lia|].
  apply list_elem_of_fmap in Hlast as ([t ls] & -> & Ht). apply Hin in Ht as Hls. cbn [fst] in *.
  rewrite leadersLoop_spec, <- (leadersLoop_entry _ _ _ Hls).
  assert (Hne : ls <> []) by (by apply (leaders_nonempty (states ows) t)).
  destruct ls as [|i ls]; [done|]. cbn. eexists. split; [done|]. intros i' [= <-]. exists t. split.
  - apply leaders_of_elem. rewrite <- (leadersLoop_entry _ _ _ Hls). left.
  - intros j t' Hj%leaders_of_elem. rewrite <- leadersLoop_spec in Hj. unfold mapget in Hj.
    destruct (leadersLoop (states ows) !! t') as [ls'|] eqn:El; [|by apply not_elem_of_nil in Hj]. apply Hin in El. by eapply Hall.
Qed.

(** The servers that committed something at an index. *)
Definition holders (n : Z) (logs : Z -> gmap Z (option Cmd)) (index : Z) : Z :=
  zlen (filter (fun l => is_Some (l !! index)) (map logs (config_peers n))).

Lemma nCommitted_sound n w index : rreachable applierMsg (config_peers n) config_cap (fun _ => ∅) w ->
  nCommitted n (replica w) index = Some (holders n (replica w) index).
Proof.
  intros Hr. unfold nCommitted. rewrite countCommitted_total; [done|lia| |lia].
  intros l l' c c' (i & -> & _)%list_elem_of_fmap (j & -> & _)%list_elem_of_fmap. eapply logs_agree; [apply config_valid|done].
Qed.

(** * The whole operations *)

Record config := mkConfig { cnet : Network; system : @RepWorld (gmap Z (option Cmd)) }.

(** [makeConfig]: [Make] adds each peer to the network; the peers are those of [init]. *)
Definition makeConfig (n : Z) (draw : Z -> Z) : config :=
  mkConfig (foldl (fun net i => snd (Make net i (config_peers n) (randElectionTimeout (draw i)))) MakeNetwork (config_peers n)) (mkRep (init (config_peers n) draw) (fun _ => ∅)).

Definition disconnect (i : Z) (cfg : config) : config := mkConfig (Disconnect i (cnet cfg)) (system cfg).
Definition connect (i : Z) (cfg : config) : config := mkConfig (Connect i (cnet cfg)) (system cfg).
Definition setReliable (r : bool) (cfg : config) : config := mkConfig (SetReliable r (cnet cfg)) (system cfg).

(** How an operation of the harness ends: with a value, or with a failed test. *)
Inductive verdict (A : Type) := Passed (a : A) | Failed (msg : string).
Arguments Passed {A} a.
Arguments Failed {A} msg.

Definition millisecond : Z := 1000000.
Definition seconds (k : Z) : Z := k * 1000 * millisecond.

Section operations.
Context (n : Z) (sched : nat -> list Action) (order : gmap Z (list Z) -> list (Z * list Z)).

(** A running test: how many parts of the schedule are over, and the cluster. *)
Definition harness : Type := nat * config.

Definition now (h : harness) : Z := clock (group (system (snd h))).

(** The group runs the next part of the schedule; a part that cannot run is
    skipped. *)
Definition runs (acts : list Action) (cfg : config) : config :=
  match rrun applierMsg (config_peers n) config_cap acts (system cfg) with
  | RNext w => mkConfig (cnet cfg) w
  | _ => cfg
  end.

Definition elapse (h : harness) : harness := (S (fst h), runs (sched (fst h)) (snd h)).

(** [time.Sleep]: the group runs, and at least [d] passes. *)
Definition sleep (d : Z) (h : harness) : harness :=
  let h' := elapse h in (fst h', runs [ATime (Z.max 0 (now h + d - now h'))] (snd h')).

(** The loop over the connected servers with [GetState] of each. *)
Fixpoint observe (servers : list Z) (h : harness) : list (Z * (Z * bool)) * harness :=
  match servers with
  | [] => ([], h)
  | i :: servers =>
      if negb (IsConnected i (cnet (snd h))) then observe servers h
      else
        let h := elapse h in
        let st := GetState (peer_state (group (system (snd h))) i) in
        let '(obs, h) := observe servers h in ((i, st) :: obs, h)
  end.

Fixpoint checkLoop (iters : nat) (h : harness) : verdict Z * harness :=
  match iters with
  | O => (Failed "no leader elected within timeout", h)
  | S iters =>
      let h := sleep (150 * millisecond) h in
      let '(obs, h) := observe (config_peers n) h in
      match checkRound obs (order (leadersLoop obs)) with
      | None => (Failed "term has several leaders", h)
      | Some None => checkLoop iters h
      | Some (Some i) => (Passed i, h)
      end
  end.

Definition checkOneLeader (h : harness) : verdict Z * harness := checkLoop 15 h.

Definition checkAllTerms (h : harness) : verdict Z * harness :=
  let '(obs, h) := observe (config_peers n) h in
  (match checkTerms obs (-1) with Some term => Passed term | None => Failed "servers disagree on term" end, h).

(** The inner loop of [one] over the servers: the index of the command at the first
    one that leads, or -1; [None] is a panic. *)
Fixpoint submit (servers : list Z) (cmd : Z) (h : harness) : option (Z * harness) :=
  match servers with
  | [] => Some (-1, h)
  | i :: servers =>
      if negb (IsConnected i (cnet (snd h))) then submit servers cmd h
      else
        let h := elapse h in
        '(_, (idx, _, isLeader)) ← Start (Some (CInt cmd)) (peer_state (group (system (snd h))) i);
        let h := (fst h, runs [AStart i (Some (CInt cmd))] (snd h)) in
        if (isLeader : bool) then Some (idx, h) else submit servers cmd h
  end.

(** The waiting loop of [one]: whether enough servers committed in time. *)
Fixpoint commitLoop (fuel : nat) (index expectedServers commitDeadline : Z) (h : harness) : verdict bool * harness :=
  match fuel with
  | O => (Failed "fuel", h)
  | S fuel =>
      if now h <? commitDeadline then
        let h := elapse h in
        match nCommitted n (replica (system (snd h))) index with
        | None => (Failed "committed values differ", h)
        | Some count =>
            if expectedServers <=? count then (Passed true, h)
            else commitLoop fuel index expectedServers commitDeadline (sleep (20 * millisecond) h)
        end
      else (Passed false, h)
  end.

Fixpoint oneLoop (fuel : nat) (cmd expectedServers deadline : Z) (h : harness) : verdict Z * harness :=
  match fuel with
  | O => (Failed "fuel", h)
  | S fuel =>
      if now h <? deadline then
        match submit (config_peers n) cmd h with
        | None => (Failed "panic", h)
        | Some (index, h) =>
            if index =? -1 then oneLoop fuel cmd expectedServers deadline (sleep (50 * millisecond) h)
            else
              match commitLoop 101 index expectedServers (now h + seconds 2) h with
              | (Passed true, h) => (Passed index, h)
              | (Passed false, h) => oneLoop fuel cmd expectedServers deadline h
              | (Failed msg, h) => (Failed msg, h)
              end
        end
      else (Failed "command never committed", h)
  end.

(** The fuel: a turn of the outer loop takes 50 milliseconds or more. *)
Definition one (cmd expectedServers : Z) (h : harness) : verdict Z * harness :=
  oneLoop 201 cmd expectedServers (now h + seconds 10) h.

(** ** What they guarantee *)

(** The group ran from one state of the test to the other. *)
Definition later (h h' : harness) : Prop :=
  cnet (snd h') = cnet (snd h) /\ exists acts, rrun applierMsg (config_peers n) config_cap acts (system (snd h)) = RNext (system (snd h')).

Lemma later_refl h : later h h.
Proof. split; [done|by exists []]. Qed.

Lemma later_trans h1 h2 h3 : later h1 h2 -> later h2 h3 -> later h1 h3.
Proof.
  intros [N1 [a1 E1]] [N2 [a2 E2]]. split; [congruence|]. exists (a1 ++ a2). by rewrite rrun_app, E1.
Qed.

#[local] Instance later_preorder : PreOrder later.
Proof. split; [exact later_refl|exact later_trans]. Qed.

Lemma runs_later k k' acts cfg : later (k, cfg) (k', runs acts cfg).
Proof.
  unfold runs. destruct (rrun _ _ _ acts _) as [w| |] eqn:E; (split; [done|]); [by exists acts|by exists []..].
Qed.

Lemma elapse_later h : later h (elapse h).
Proof. destruct h as [k cfg]. apply runs_later. Qed.

Lemma sleep_later d h : later h (sleep d h).
Proof. transitivity (elapse h); [apply elapse_later|]. unfold sleep. destruct (elapse h) as [k cfg]. apply runs_later. Qed.

Lemma later_clock h h' : later h h' -> now h <= now h'.
Proof. intros [_ [acts H]]. by eapply rrun_clock. Qed.

Lemma sleep_clock d h : now h + d <= now (sleep d h).
Proof.
  unfold sleep. set (h' := elapse h). set (x := Z.max 0 _). unfold runs. cbn [rrun]. rewrite rexec_time by lia.
  change (now h + d <= now h' + x). lia.
Qed.

Definition good (h : harness) : Prop := rreachable applierMsg (config_peers n) config_cap (fun _ => ∅) (system (snd h)).

Lemma good_reachable h : good h -> reachable (config_peers n) config_cap (group (system (snd h))).
Proof. intros H. apply (replica_applies _ _ _ _ _ H). Qed.

Lemma later_good h h' : good h -> later h h' -> good h'.
Proof. intros H [_ [acts E]]. by eapply rrun_reachable. Qed.

Lemma later_run h h' : later h h' -> exists acts, run (config_peers n) config_cap acts (group (system (snd h))) = Next (group (system (snd h'))).
Proof. intros [_ [acts E]]. exists acts. by eapply rrun_group. Qed.

(** A world between two states of the test. *)
Definition amid (h h' : harness) (w : World) : Prop :=
  exists acts acts', run (config_peers n) config_cap acts (group (system (snd h))) = Next w /\
    run (config_peers n) config_cap acts' w = Next (group (system (snd h'))).

Lemma amid_later h0 h h' w : later h0 h -> amid h h' w -> amid h0 h' w.
Proof.
  intros [acts0 E0]%later_run (acts & acts' & E & E'). exists (acts0 ++ acts), acts'. split; [|done]. by rewrite run_app, E0.
Qed.

(** What [observe] collects are observations of the running group. *)
Lemma observe_spec servers : forall h obs h', good h -> NoDup servers -> observe servers h = (obs, h') ->
  later h h' /\ exists ows, obs = states ows /\ observed (config_peers n) config_cap ows /\ NoDup (map fst ows) /\
    forall i w, (i, w) ∈ ows -> i ∈ servers /\ IsConnected i (cnet (snd h)) = true /\ amid h h' w.
Proof.
  induction servers as [|i servers IH]; intros h obs h' Hg Hn H; cbn in H.
  { injection H as <- <-. split; [done|]. exists []. split_and!; [done|constructor..|]. by intros ?? ?%not_elem_of_nil. }
  apply list.NoDup_cons in Hn as [Hi Hn]. destruct (IsConnected i (cnet (snd h))) eqn:Ec; cbn [negb] in H.
  2:{ destruct (IH h obs h' Hg Hn H) as (Hl & ows & -> & Ho & Hd & Hin). split; [done|]. exists ows. split_and!; try done.
      intros j w Hj. destruct (Hin j w Hj) as (? & ? & ?). split_and!; [by right|done..]. }
  pose proof (elapse_later h) as Hel. pose proof (later_good _ _ Hg Hel) as Hg1.
  destruct (observe servers (elapse h)) as [obs1 h1] eqn:E. injection H as <- <-.
  destruct (IH _ _ _ Hg1 Hn E) as (Hl & ows & -> & Ho & Hd & Hin). pose proof (good_reachable _ Hg1) as Hr1.
  split; [by transitivity (elapse h)|]. exists ((i, group (system (snd (elapse h)))) :: ows). split_and!; [done| | |].
  - destruct ows as [|[j w] ows]; [by constructor|]. destruct (Hin j w ltac:(by left)) as (_ & _ & acts & _ & Ea & _).
    by eapply obs_more.
  - cbn. apply list.NoDup_cons. split; [|done]. intros ([j w] & -> & Hj)%list_elem_of_fmap. by apply Hi, (Hin j w).
  - intros j w [[= -> ->]|Hj]%elem_of_cons.
    + split_and!; [by left|done|]. destruct (later_run _ _ Hel) as [a1 E1]. destruct (later_run _ _ Hl) as [a2 E2]. by exists a1, a2.
    + destruct (Hin j w Hj) as (Hs & Hc & Ha). split_and!; [by right| |by eapply amid_later]. destruct Hel as [Hnet _]. by rewrite Hnet in Hc.
Qed.

Context (Horder : forall m, order m ≡ₚ map_to_list m).

(** The leader that was seen. *)
Definition seen_leading (h h' : harness) (i : Z) : Prop :=
  i ∈ config_peers n /\ IsConnected i (cnet (snd h)) = true /\ exists w, amid h h' w /\ st (peer_state w i) = leader.

Lemma checkLoop_spec iters : forall h v h', good h -> checkLoop iters h = (v, h') ->
  later h h' /\ match v with
                | Passed i => seen_leading h h' i
                | Failed msg => msg = "no leader elected within timeout"%string
                end.
Proof.
  induction iters as [|iters IH]; intros h v h' Hg H; cbn [checkLoop] in H; [injection H as <- <-; by split|].
  pose proof (sleep_later (150 * millisecond) h) as Hs. pose proof (later_good _ _ Hg Hs) as Hg1.
  destruct (observe (config_peers n) (sleep (150 * millisecond) h)) as [obs h1] eqn:E.
  destruct (observe_spec _ _ _ _ Hg1 (NoDup_seqZ 0 n) E) as (Hl & ows & -> & Ho & Hd & Hin).
  destruct (checkRound_sound n ows _ Ho Hd (Horder _)) as (r & Er & Hr). rewrite Er in H. destruct r as [i|].
  - injection H as <- <-. split; [by transitivity (sleep (150 * millisecond) h)|].
    destruct (Hr i eq_refl) as (t & Hi & _). apply list_elem_of_fmap in Hi as ([j w] & Ej & Hj).
    injection Ej as -> _ Hlead. symmetry in Hlead. apply bool_decide_eq_true in Hlead. destruct (Hin j w Hj) as (Hp & Hc & Ha).
    split_and!; [done| |exists w; split; [by eapply amid_later|done]]. destruct Hs as [Hnet _]. by rewrite Hnet in Hc.
  - destruct (IH h1 v h' ltac:(by eapply later_good) H) as [Hl2 Hv].
    assert (Hh1 : later h h1) by (by transitivity (sleep (150 * millisecond) h)).
    split; [by transitivity h1|]. destruct v as [i|]; [|done]. destruct Hv as (Hp & Hc & w & Ha & Hst).
    split_and!; [done| |exists w; split; [by eapply amid_later|done]]. destruct Hh1 as [Hnet _]. by rewrite Hnet in Hc.
Qed.

Lemma submit_spec servers cmd : forall h, good h -> exists idx h', submit servers cmd h = Some (idx, h') /\ later h h'.
Proof.
  induction servers as [|i servers IH]; intros h Hg; cbn [submit]; [by exists (-1), h|].
  destruct (IsConnected i (cnet (snd h))); cbn [negb]; [|by apply IH]. pose proof (elapse_later h) as Hel.
  pose proof (later_good _ _ Hg Hel) as Hg1. destruct (elapse h) as [k cfg]. cbn [fst snd] in *.
  destruct (reachable_inv _ _ _ (config_valid n) (good_reachable _ Hg1)) as [g Hi].
  destruct (Start_ok _ _ _ _ _ i (Some (CInt cmd)) Hi) as (r' & idx & t & b & g' & Es & _). cbn [snd] in Es. rewrite Es. cbn [mbind option_bind].
  pose proof (runs_later k k [AStart i (Some (CInt cmd))] cfg) as Hrl.
  destruct b; [exists idx, (k, runs [AStart i (Some (CInt cmd))] cfg); split; [done|by transitivity (k, cfg)]|].
  destruct (IH (k, runs [AStart i (Some (CInt cmd))] cfg)) as (idx' & h' & E & Hl); [by eapply later_good|].
  exists idx', h'. split; [done|]. transitivity (k, cfg); [done|]. by etransitivity.
Qed.

Lemma commitLoop_spec index expected deadline fuel : forall h v h', good h ->
  deadline <= now h + 20 * millisecond * Z.of_nat (pred fuel) -> (0 < fuel)%nat -> commitLoop fuel index expected deadline h = (v, h') ->
  later h h' /\ match v with
                | Passed true => expected <= holders n (replica (system (snd h'))) index
                | Passed false => deadline <= now h'
                | Failed _ => False
                end.
Proof.
  induction fuel as [|fuel IH]; intros h v h' Hg Hd Hf H; [lia|]. cbn [commitLoop] in H. cbn [pred] in Hd.
  destruct (now h <? deadline) eqn:Et; bool_to_prop; [|injection H as <- <-; split; [done|lia]].
  pose proof (elapse_later h) as Hel. pose proof (later_good _ _ Hg Hel) as Hg1. rewrite (nCommitted_sound n _ index Hg1) in H.
  destruct (expected <=? _) eqn:Ee; bool_to_prop; [injection H as <- <-; by split|].
  pose proof (sleep_later (20 * millisecond) (elapse h)) as Hs. pose proof (sleep_clock (20 * millisecond) (elapse h)).
  pose proof (later_clock _ _ Hel). destruct fuel as [|fuel]; [lia|].
  destruct (IH (sleep (20 * millisecond) (elapse h)) v h') as [Hl Hv]; [by eapply later_good|cbn [pred]; lia|lia|done|].
  split; [|done]. transitivity (elapse h); [done|]. by etransitivity.
Qed.

Lemma oneLoop_spec cmd expected deadline fuel : forall h v h', good h ->
  deadline <= now h + 50 * millisecond * Z.of_nat (pred fuel) -> (0 < fuel)%nat -> oneLoop fuel cmd expected deadline h = (v, h') ->
  later h h' /\ match v with
                | Passed index => expected <= holders n (replica (system (snd h'))) index
                | Failed msg => msg = "command never committed"%string /\ deadline <= now h'
                end.
Proof.
  induction fuel as [|fuel IH]; intros h v h' Hg Hd Hf H; [lia|]. cbn [oneLoop] in H. cbn [pred] in Hd.
  destruct (now h <? deadline) eqn:Et; bool_to_prop; [|injection H as <- <-; split_and!; [done|done|lia]].
  destruct (submit_spec (config_peers n) cmd h Hg) as (index & h1 & E & Hl1). rewrite E in H.
  pose proof (later_clock _ _ Hl1). pose proof (later_good _ _ Hg Hl1) as Hg1. destruct fuel as [|fuel]; [lia|].
  destruct (index =? -1).
  - pose proof (sleep_later (50 * millisecond) h1) as Hs. pose proof (sleep_clock (50 * millisecond) h1).
    destruct (IH (sleep (50 * millisecond) h1) v h') as [Hl Hv]; [by eapply later_good|cbn [pred]; lia|lia|done|].
    split; [|done]. transitivity h1; [done|]. by etransitivity.
  - destruct (commitLoop 101 index expected (now h1 + seconds 2) h1) as [v2 h2] eqn:E2.
    apply commitLoop_spec in E2 as [Hl2 Hv2]; [|done|unfold seconds, millisecond; cbn; lia|lia].
    assert (Hl12 : later h h2) by by transitivity h1. destruct v2 as [[]|]; [injection H as <- <-; by split| |done].
    destruct (IH h2 v h') as [Hl Hv]; [by eapply later_good|unfold seconds, millisecond in *; cbn [pred]; lia|lia|done|].
    split; [by transitivity h2|done].
Qed.

End operations.

(** C39: The operations of the harness are sound and end.  On a group of any size,
    in whatever way it runs while the harness looks, sleeps and submits commands,
    and in whatever order Go ranges over its maps: [checkOneLeader] never finds
    two leaders of a term, and a server it returns is connected and was leading at
    some moment of the call; [one] returns an index only when enough servers have
    committed a value there, the same one, and otherwise fails only after its
    ten seconds are over, never because of a panic or because two servers
    committed different values. *)
Theorem harness_sound n sched order cmd expectedServers h :
  (forall m, order m ≡ₚ map_to_list m) -> good n h ->
  (let '(v, h') := checkOneLeader n sched order h in
   match v with
   | Passed i => seen_leading n h h' i
   | Failed msg => msg = "no leader elected within timeout"%string
   end) /\
  (let '(v, h') := one n sched cmd expectedServers h in
   match v with
   | Passed index => expectedServers <= holders n (replica (system (snd h'))) index /\
       forall i j c c', replica (system (snd h')) i !! index = Some c -> replica (system (snd h')) j !! index = Some c' -> c = c'
   | Failed msg => msg = "command never committed"%string /\ now h + seconds 10 <= now h'
   end).
Proof.
  intros Hord Hg. split.
  - unfold checkOneLeader. generalize 15%nat as iters. intros iters. destruct (checkLoop n sched order iters h) as [v h'] eqn:E.
    exact (proj2 (checkLoop_spec n sched order Hord iters h v h' Hg E)).
  - unfold one. assert (Hf : now h + seconds 10 <= now h + 50 * millisecond * Z.of_nat (pred 201)) by (unfold seconds, millisecond; lia).
    assert (Hp : (0 < 201)%nat) by lia. revert Hf Hp. generalize 201%nat as fuel. intros fuel Hf Hp.
    destruct (oneLoop n sched fuel cmd expectedServers (now h + seconds 10) h) as [v h'] eqn:E.
    destruct (oneLoop_spec n sched cmd expectedServers _ fuel h v h' Hg Hf Hp E) as [Hl Hv]. destruct v as [index|]; [|exact Hv].
    split; [exact Hv|]. intros i j c c'. eapply logs_agree; [apply config_valid|exact (later_good _ _ _ Hg Hl)].
Qed.

(** Two looks at a group of three: at its leader, and at another peer later. *)
Definition looks : list (Z * World) := [(0, after election); (1, after commit_one)].

Lemma looks_observed : observed (config_peers 3) config_cap looks.
Proof.
  change (config_peers 3) with trio. change config_cap with 100%nat. unfold looks.
  apply (obs_more trio 100 0 (after election) 1 (after commit_one)
    [AStart 0 (Some (CInt 7)); ARun 0 0; ARun 0 0; ARun 0 0; AApply 0; ASendMsg 0; AConsume 0] []).
  - apply after_reachable.
  - apply after_run. vm_compute. reflexivity.
  - apply obs_one, after_reachable.
Qed.

(** A test of three servers in which the group elects a leader during the first
    sleep, and replicates while [one] waits. *)
Definition test_sched (k : nat) : list Action :=
  match k with
  | 0%nat => election
  | 2%nat => [ARun 0 0; ARun 0 0; ARun 0 0; AApply 0; ASendMsg 0; AConsume 0]
  | _ => []
  end.

Definition test_start : harness := (0%nat, makeConfig 3 (fun _ => 0)).

Lemma harness_sound_witness :
  (exists h', checkOneLeader 3 test_sched map_to_list test_start = (Passed 0, h') /\ seen_leading 3 test_start h' 0) /\
  exists h', one 3 test_sched 7 1 test_start = (Passed 2, h') /\ 1 <= holders 3 (replica (system (snd h'))) 2.
Proof.
  destruct (harness_sound 3 test_sched map_to_list 7 1 test_start) as [H1 H2]; [reflexivity|constructor|].
  assert (E1 : fst (checkOneLeader 3 test_sched map_to_list test_start) = Passed 0) by (vm_compute; reflexivity).
  assert (E2 : fst (one 3 test_sched 7 1 test_start) = Passed 2) by (vm_compute; reflexivity).
  destruct (checkOneLeader 3 test_sched map_to_list test_start) as [v1 h1]. destruct (one 3 test_sched 7 1 test_start) as [v2 h2].
  cbn [fst] in E1, E2. subst v1 v2. split; [exists h1; split; [reflexivity|exact H1]|exists h2; split; [reflexivity|exact (proj1 H2)]].
Defined.
