(* ===== verification/Monitor.v ===== *)
(** What is shown of a running system: the metrics ([metrics/metrics.go],
    [metrics/instrumented.go]) and the dashboard ([dashboard/server.go]).

    What the code tells the metrics library is a list of events, in order; the
    dashboard asks one node after the other while the group runs. *)
From Stdlib Require Import Strings.Ascii.
From S2P Require Import Prelude GoLib NetLib Http Files Cold Segment SegmentLog LogRefine Batch.
From S2P Require Import Raft RaftCluster RaftTheorems Replica Replication Producer Harness Value.
From stdpp Require Import pretty.
#[local] Open Scope Z_scope.

(** A vector of the metrics library: its name and the names of its labels. *)
Record Vec := mkVec { VecName : string; Labels : list string }.
#[export] Instance Vec_eq_dec : EqDecision Vec.
Proof. solve_decision. Defined.

Definition WritesTotal : Vec := mkVec "ledgerdb_writes_total" ["ack_level"; "result"].
Definition WriteLatencySeconds : Vec := mkVec "ledgerdb_write_latency_seconds" ["ack_level"].
Definition RaftIsLeader : Vec := mkVec "ledgerdb_raft_is_leader" ["node"].
Definition ConsumerLag : Vec := mkVec "ledgerdb_consumer_lag" ["group"; "consumer"].

(** What [promauto] registers when the program starts; a name that is taken panics. *)
Definition registered : list Vec := [WritesTotal; WriteLatencySeconds; RaftIsLeader; ConsumerLag].

(** A call on a vector with label values; a latency is in nanoseconds. *)
Inductive metric :=
| Observe (v : Vec) (values : list string) (nanoseconds : Z)
| Inc (v : Vec) (values : list string)
| Set_ (v : Vec) (values : list string) (x : spec_float).

(** [WithLabelValues] panics unless there is a value for each label. *)
Definition labelled (m : metric) : bool :=
  let '(v, values) := match m with Observe v values _ | Inc v values | Set_ v values _ => (v, values) end in
  bool_decide (v ∈ registered) && (zlen values =? zlen (Labels v)).

(** [float64(z)]. *)
Definition float64 (z : Z) : spec_float := binary_normalize 53 1024 z 0 false.

Definition ackLevelName (ack : AckLevel) : string :=
  if ack =? AckNone then "ack=0" else if ack =? AckLeader then "ack=1" else if ack =? AckAll then "ack=all" else "unknown".

Definition SampleLeaderStatus (nodeName : string) (st : Z * bool) : list metric :=
  [Set_ RaftIsLeader [nodeName] (float64 (if snd st then 1 else 0))].

(** Go's [int] subtraction wraps around. *)
Definition RecordConsumerLag (group consumer : string) (latestOffset lastReadOffset : Z) : list metric :=
  let lag := (latestOffset - lastReadOffset + 2 ^ 63) mod 2 ^ 64 - 2 ^ 63 in
  let lag := if lag <? 0 then 0 else lag in
  [Set_ ConsumerLag [group; consumer] (float64 lag)].

Definition NodeName (i : Z) : string := "node-" +:+ pretty i.

(** How many elements pass a test. *)
Fixpoint tally {A} (f : A -> bool) (l : list A) : Z :=
  match l with
  | [] => 0
  | x :: l => (if f x then 1 else 0) + tally f l
  end.

(** * The dashboard *)

Record NodeStatus := mkNodeStatus { Index : Z; Status_Term : Z; IsLeader : bool }.
Abbreviation ClusterStatus := (list NodeStatus).

(** The loop of [handleStatus] over what [GetState] of each node returned. *)
Fixpoint statusLoop (i : Z) (states : list (Z * bool)) (nodes : ClusterStatus) : ClusterStatus :=
  match states with
  | [] => nodes
  | (term, isLeader) :: states => statusLoop (i + 1) states (nodes ++ [mkNodeStatus i term isLeader])
  end.
Definition handleStatus (states : list (Z * bool)) : ClusterStatus := statusLoop 0 states [].

(** What a request gets: a content type with a page or the status, or the answers
    of the routes. *)
Inductive dash_response := Html (contentType : string) (page : bytes) | JsonStatus (contentType : string) (s : ClusterStatus)
| DashMoved (path : string) | DashNotFound | DashBad.

(** [indexHTML] is the page embedded by the build. *)
Definition handleIndex (indexHTML : bytes) : dash_response := Html "text/html; charset=utf-8" indexHTML.
Definition serveStatus (states : list (Z * bool)) : dash_response := JsonStatus "application/json" (handleStatus states).

(** [New]: the routes; a handler gets what the nodes' [GetState] return. *)
Definition dash_New (indexHTML : bytes) : option (list (Pattern * (list (Z * bool) -> dash_response))) :=
  mux ← HandleFunc (chars "/status") serveStatus [];
  HandleFunc (chars "/") (fun _ => handleIndex indexHTML) mux.

Definition dash_ServeHTTP (mux : list (Pattern * (list (Z * bool) -> dash_response))) (method path rawPath : string) (states : list (Z * bool)) : dash_response :=
  if bool_decide (path = "*"%string) then DashBad
  else match findHandler mux method (chars path) (chars rawPath) with
  | Handle h => h states
  | Redirect p => DashMoved (string_of p)
  | NotFound => DashNotFound
  end.

Lemma dash_routes indexHTML : dash_New indexHTML = Some (page_mux (chars "status") serveStatus (fun _ => handleIndex indexHTML)).
Proof.
  unfold dash_New, HandleFunc. rewrite bool_decide_false by apply not_elem_of_nil. cbn [mbind option_bind].
  rewrite bool_decide_false; [reflexivity|]. by intros ?%list_elem_of_singleton.
Qed.

(** A clean path shows the status or the page. *)
Lemma dash_serves indexHTML mux method path rawPath states q :
  dash_New indexHTML = Some mux -> EscapedPath (chars path) (chars rawPath) = "/"%char :: q -> cleanPath ("/"%char :: q) = "/"%char :: q ->
  path <> "*"%string ->
  dash_ServeHTTP mux method path rawPath states =
    if bool_decide (path_segments ("/"%char :: q) = [chars "status"]) then serveStatus states else handleIndex indexHTML.
Proof.
  rewrite dash_routes. intros Hm He Hc Hs. assert (mux = page_mux (chars "status") serveStatus (fun _ => handleIndex indexHTML)) as -> by congruence.
  unfold dash_ServeHTTP. rewrite bool_decide_false by done.
  rewrite (route_page (chars "status") serveStatus (fun _ => handleIndex indexHTML) ltac:(repeat constructor; done) method _ _ q He Hc).
  by destruct (bool_decide _).
Qed.

Section monitor.
Context {C : Type} `{CS : ColdStore C} `{GZ : Gzip} (ps : list Z) (chanCap : nat).

(** [InstrumentedWrite]; the latency is what the group's clock shows. *)
Definition InstrumentedWrite (polls : list (list Action)) (i : Z) (payload : bytes) (ack : AckLevel)
    (w : @RepWorld (ReplicatedPartition C)) : option (res Z * @RepWorld (ReplicatedPartition C) * list metric) :=
  let ackName := ackLevelName ack in
  let start := clock (group w) in
  '(r, w) ← Write ps chanCap polls i payload ack w;
  let result := match r with Ok _ => "success"%string | Err _ => "failure"%string end in
  Some (r, w, [Observe WriteLatencySeconds [ackName] (clock (group w) - start); Inc WritesTotal [ackName; result]]).

(** A sequence of writes, with what is counted along the way. *)
Record write := mkWrite { w_polls : list (list Action); w_node : Z; w_payload : bytes; w_ack : AckLevel }.

Fixpoint instrumented (ws : list write) (w : @RepWorld (ReplicatedPartition C))
    : option (list (res Z) * @RepWorld (ReplicatedPartition C) * list metric) :=
  match ws with
  | [] => Some ([], w, [])
  | x :: ws =>
      '(r, w, ms) ← InstrumentedWrite (w_polls x) (w_node x) (w_payload x) (w_ack x) w;
      '(rs, w, ms') ← instrumented ws w;
      Some (r :: rs, w, ms ++ ms')
  end.

(** The same writes without instruments. *)
Fixpoint written (ws : list write) (w : @RepWorld (ReplicatedPartition C)) : option (list (res Z) * @RepWorld (ReplicatedPartition C)) :=
  match ws with
  | [] => Some ([], w)
  | x :: ws =>
      '(r, w) ← Write ps chanCap (w_polls x) (w_node x) (w_payload x) (w_ack x) w;
      '(rs, w) ← written ws w;
      Some (r :: rs, w)
  end.

(** The counter with two labels. *)
Definition counts (ackName result : string) (m : metric) : bool :=
  match m with Inc v values => bool_decide (v = WritesTotal) && bool_decide (values = [ackName; result]) | _ => false end.
Definition counter (ackName result : string) (ms : list metric) : Z := tally (counts ackName result) ms.

(** The writes at a level with an outcome. *)
Definition ended (ackName : string) (ok : bool) (x : write * res Z) : bool :=
  bool_decide (ackLevelName (w_ack (fst x)) = ackName) && bool_decide (is_ok (snd x) = ok).
Definition outcomes (ackName : string) (ok : bool) (ws : list write) (rs : list (res Z)) : Z :=
  tally (ended ackName ok) (zip ws rs).

Lemma instrumented_written ws : forall w,
  match instrumented ws w with
  | Some (rs, w', ms) => written ws w = Some (rs, w') /\ forallb labelled ms = true /\ forall ackName,
      counter ackName "success" ms = outcomes ackName true ws rs /\ counter ackName "failure" ms = outcomes ackName false ws rs
  | None => written ws w = None
  end.
Proof.
  induction ws as [|x ws IH]; intros w; [done|]. cbn [instrumented written]. unfold InstrumentedWrite.
  destruct (Write _ _ _ _ _ _ w) as [[r w1]|]; [|done]. cbn [mbind option_bind]. specialize (IH w1).
  destruct (instrumented ws w1) as [[[rs w2] ms]|]; cbn [mbind option_bind]; [|by rewrite IH].
  destruct IH as (-> & Hl & IH). split_and!; [done|by cbn; rewrite Hl|]. intros ackName. destruct (IH ackName) as [H1 H2].
  unfold counter, outcomes in *. cbn [app zip_with tally]. rewrite H1, H2. unfold counts, ended. cbn [fst snd].
  rewrite (bool_decide_true (WritesTotal = _)) by done.
  destruct r; cbn [is_ok]; repeat case_bool_decide; done || congruence.
Qed.

End monitor.

Lemma statusLoop_spec states : forall i nodes,
  statusLoop i states nodes = nodes ++ imap (fun k '(t, b) => mkNodeStatus (i + Z.of_nat k) t b) states.
Proof.
  induction states as [|[t b] states IH]; intros i nodes; cbn; [by rewrite app_nil_r|]. rewrite IH, <- app_assoc. cbn.
  rewrite Z.add_0_r. do 2 f_equal. apply imap_ext. intros k [t' b'] _. cbn. f_equal. lia.
Qed.

(** What the dashboard reads, one node after the other. *)
Definition node_states (ows : list (Z * World)) : list (Z * bool) := map (fun '(i, w) => GetState (peer_state w i)) ows.

Lemma status_lookup ows (k : nat) n : handleStatus (node_states ows) !! k = Some n <->
  exists i w, ows !! k = Some (i, w) /\ n = mkNodeStatus (Z.of_nat k) (fst (GetState (peer_state w i))) (snd (GetState (peer_state w i))).
Proof.
  unfold handleStatus, node_states. rewrite statusLoop_spec. cbn [app]. rewrite list_lookup_imap. split.
  - intros ([t b] & Hk & E0)%fmap_Some. subst n. change (map ?f ows) with (f <$> ows) in Hk. rewrite list_lookup_fmap in Hk.
    apply fmap_Some in Hk as ([i w] & Hi & E). exists i, w. split; [done|]. by rewrite <- E.
  - intros (i & w & Hi & ->). change (map ?f ows) with (f <$> ows). by rewrite list_lookup_fmap, Hi.
Qed.

(** Nodes shown leading the same term are one. *)
Lemma status_one_leader ps chanCap ows (k k' : nat) n n' :
  valid_config ps -> observed ps chanCap ows -> NoDup (map fst ows) ->
  handleStatus (node_states ows) !! k = Some n -> handleStatus (node_states ows) !! k' = Some n' ->
  IsLeader n = true -> IsLeader n' = true -> Status_Term n = Status_Term n' -> k = k'.
Proof.
  intros Hv Ho Hn (i & w & Hi & ->)%status_lookup (j & w' & Hj & ->)%status_lookup Hl Hl' Ht. cbn in *.
  pose proof (one_leader ps chanCap ows (currentTerm (peer_state w i)) Hv Ho Hn) as Hone.
  assert (Hin : forall a v, (a, v) ∈ ows -> snd (GetState (peer_state v a)) = true -> currentTerm (peer_state v a) = currentTerm (peer_state w i) ->
    a ∈ leaders_of (currentTerm (peer_state w i)) (states ows)).
  { intros a v Ha Hb Hc. apply leaders_of_elem. apply list_elem_of_fmap. exists (a, v). split; [|done]. unfold GetState in *. cbn in Hb. by rewrite Hb, Hc. }
  pose proof (Hin i w (list_elem_of_lookup_2 _ _ _ Hi) Hl eq_refl) as H1.
  pose proof (Hin j w' (list_elem_of_lookup_2 _ _ _ Hj) Hl' (eq_sym Ht)) as H2.
  destruct (leaders_of _ _) as [|a [|b l]]; [by apply not_elem_of_nil in H1| |].
  - apply list_elem_of_singleton in H1, H2. subst. eapply (NoDup_lookup (map fst ows)); [done| |];
      change (map fst ows) with (fst <$> ows); by rewrite list_lookup_fmap, ?Hi, ?Hj.
  - rewrite !zlen_cons in Hone. pose proof (zlen_nonneg l). lia.
Qed.

(** C38: What is shown is what is.  Instrumented writes return what the writes return
    and leave the group as they do, every call on a vector names a value for each of
    its labels, and the counters count exactly the writes of each level that
    succeeded and that failed; the status shows each node in its place with a
    state it was in, and never two leaders of one term, though the group runs
    while the nodes are asked; a request with a clean path gets the status at
    ["/status"] and the page anywhere else; and a consumer's lag is the
    difference of the offsets, but never negative. *)
Theorem monitor_faithful {C : Type} `{ColdStore C} `{Gzip} ps chanCap (ws : list write) (w : @RepWorld (ReplicatedPartition C)) ows :
  valid_config ps -> observed ps chanCap ows -> NoDup (map fst ows) ->
  (forall rs w' ms, instrumented ps chanCap ws w = Some (rs, w', ms) ->
     written ps chanCap ws w = Some (rs, w') /\ forallb labelled ms = true /\ forall ackName,
       counter ackName "success" ms = outcomes ackName true ws rs /\ counter ackName "failure" ms = outcomes ackName false ws rs) /\
  (forall (k : nat) n, handleStatus (node_states ows) !! k = Some n <->
     exists i v, ows !! k = Some (i, v) /\ n = mkNodeStatus (Z.of_nat k) (currentTerm (peer_state v i)) (bool_decide (st (peer_state v i) = leader))) /\
  (forall (k k' : nat) n n', handleStatus (node_states ows) !! k = Some n -> handleStatus (node_states ows) !! k' = Some n' ->
     IsLeader n = true -> IsLeader n' = true -> Status_Term n = Status_Term n' -> k = k') /\
  (forall indexHTML mux method path rawPath states q,
     dash_New indexHTML = Some mux -> EscapedPath (chars path) (chars rawPath) = "/"%char :: q -> cleanPath ("/"%char :: q) = "/"%char :: q ->
     path <> "*"%string ->
     dash_ServeHTTP mux method path rawPath states =
       if bool_decide (path_segments ("/"%char :: q) = [chars "status"]) then serveStatus states else handleIndex indexHTML) /\
  (forall g c latest last, 0 <= latest < 2 ^ 63 -> 0 <= last < 2 ^ 63 ->
     RecordConsumerLag g c latest last = [Set_ ConsumerLag [g; c] (float64 (Z.max 0 (latest - last)))]).
Proof.
  intros Hv Ho Hn. split_and!.
  - intros rs w' ms E. pose proof (instrumented_written ps chanCap ws w) as Hw. by rewrite E in Hw.
  - intros k n. apply status_lookup.
  - intros k k' n n'. by apply (status_one_leader ps chanCap).
  - intros indexHTML mux method path rawPath states q. apply dash_serves.
  - intros g c latest last Hl Hr. unfold RecordConsumerLag. rewrite Z.mod_small by lia. do 3 f_equal. case_test; lia.
Qed.

#[local] Existing Instance stored_gzip.

Lemma monitor_faithful_witness :
  exists rs w' ms, instrumented trio 100 [mkWrite [commits] 0 lost AckLeader; mkWrite [] 1 lost AckLeader] (rafter election) = Some (rs, w', ms) /\
    counter "ack=1" "success" ms = outcomes "ack=1" true [mkWrite [commits] 0 lost AckLeader; mkWrite [] 1 lost AckLeader] rs /\ length rs = 2%nat.
Proof.
  pose proof (monitor_faithful trio 100 [mkWrite [commits] 0 lost AckLeader; mkWrite [] 1 lost AckLeader] (rafter election) looks trio_valid
    looks_observed ltac:(change (NoDup [0; 1]); repeat constructor; rewrite ?elem_of_cons, elem_of_nil; lia)) as [Hi _].
  assert (Hl : (fun p => length (fst (fst p))) <$> instrumented trio 100 [mkWrite [commits] 0 lost AckLeader; mkWrite [] 1 lost AckLeader] (rafter election) = Some 2%nat)
    by (vm_compute; reflexivity).
  destruct (instrumented _ _ _ _) as [[[rs w'] ms]|] eqn:E; [|discriminate Hl]. exists rs, w', ms. split; [reflexivity|].
  injection Hl as Hl. split; [exact (proj1 (proj2 (proj2 (Hi rs w' ms eq_refl)) "ack=1"%string))|exact Hl].
Defined.
