(* ===== verification/WireProtocol.v ===== *)
(** The MongoDB wire protocol ([mongowire/protocol.go]).

    The class [Bson] is what the code uses of the BSON library.  A reader is the
    bytes still to come.  Parsing may end with a result or an error, may panic
    (an index out of range), or may still be running when [fuel] rounds of a loop
    are over. *)
From S2P Require Import Prelude GoLib Value.
#[local] Open Scope Z_scope.

Definition bsonM : Type := gmap string value.

Class Bson := {
  bson_unmarshal : bytes -> res bsonM;
  bson_marshal : bsonM -> res bytes
}.

Inductive out (A : Type) := Done (a : A) | Panicked | Running.
Arguments Done {A} a.
Arguments Panicked {A}.
Arguments Running {A}.

Definition parse (A : Type) : Type := out (res A).

#[export] Instance parse_ret : MRet parse := fun A a => Done (Ok a).
#[export] Instance parse_bind : MBind parse := fun A B k m =>
  match m with
  | Done (Ok a) => k a
  | Done (Err e) => Done (Err e)
  | Panicked => Panicked
  | Running => Running
  end.

Definition perr {A} (e : string) : parse A := Done (Err e).
(** An index or slice expression. *)
Definition idx {A} (o : option A) : parse A := match o with Some a => Done (Ok a) | None => Panicked end.

(** [binary.LittleEndian]; [Uint32] of fewer than four bytes panics. *)
Definition PutUint32LE (v : Z) : bytes :=
  [byte_of_Z v; byte_of_Z (Z.shiftr v 8); byte_of_Z (Z.shiftr v 16); byte_of_Z (Z.shiftr v 24)].
Definition Uint32LE (b : bytes) : option Z :=
  match b with b0 :: b1 :: b2 :: b3 :: _ => Some (Uint32 [b3; b2; b1; b0]) | _ => None end.

(** [int32(x)]. *)
Definition int32 (z : Z) : Z := let z := z mod 2 ^ 32 in if z <? 2 ^ 31 then z else z - 2 ^ 32.

Definition opReply : Z := 1.
Definition opQuery : Z := 2004.
Definition opMsg : Z := 2013.

Record header := mkHeader {
  MessageLength : Z;
  RequestID : Z;
  ResponseTo : Z;
  OpCode : Z
}.

(** [binary.Read] and [binary.Write] of a header. *)
Definition header_bytes (h : header) : bytes :=
  PutUint32LE (MessageLength h) ++ PutUint32LE (RequestID h) ++ PutUint32LE (ResponseTo h) ++ PutUint32LE (OpCode h).

Definition read_header (r : bytes) : parse (header * bytes) :=
  match Uint32LE r, Uint32LE (drop 4 r), Uint32LE (drop 8 r), Uint32LE (drop 12 r) with
  | Some a, Some b, Some c, Some d => mret (mkHeader (int32 a) (int32 b) (int32 c) (int32 d), drop 16 r)
  | _, _, _, _ => perr "EOF"
  end.

(** [make([]byte, n)] and [io.ReadFull]: a negative length panics. *)
Definition read_body (n : Z) (r : bytes) : parse (bytes * bytes) :=
  if n <? 0 then Panicked
  else if zlen r <? n then perr "unexpected EOF"
  else mret (take (Z.to_nat n) r, drop (Z.to_nat n) r).

Definition readRawDoc (body : bytes) (pos : Z) : parse (bytes * Z) :=
  if zlen body <? pos + 4 then perr "mongowire: truncated document length"
  else
    b ← idx (zsuffix body pos);
    docLen ← idx (Uint32LE b);
    let end_ := pos + int32 docLen in
    if zlen body <? end_ then perr "mongowire: truncated document body"
    else d ← idx (zslice body pos end_); mret (d, end_).

(** [for body[pos] != 0 { pos++ }]. *)
Fixpoint findNul (fuel : nat) (body : bytes) (pos : Z) : parse Z :=
  match fuel with
  | O => Running
  | S fuel => x ← idx body @[pos]; if bool_decide (x = Byte.x00) then mret pos else findNul fuel body (pos + 1)
  end.

Section protocol.
Context `{B : Bson}.

Definition unmarshal (what : string) (doc : bytes) : parse bsonM :=
  match bson_unmarshal doc with Ok m => mret m | Err _ => perr what end.

Definition readQuery (fuel : nat) (hdr : header) (r : bytes) : parse (bsonM * bytes) :=
  '(body, r) ← read_body (int32 (MessageLength hdr - 16)) r;
  pos ← findNul fuel body 4;
  '(doc, _) ← readRawDoc body (pos + 1 + 4 * 2);
  m ← unmarshal "mongowire: decode OP_QUERY doc" doc;
  mret (m, r).

(** The loop over the documents of a kind-1 section. *)
Fixpoint docsLoop (fuel : nat) (body : bytes) (p seqEnd : Z) (docs : list value) : parse (list value) :=
  match fuel with
  | O => Running
  | S fuel =>
      if p <? seqEnd then
        '(doc, p) ← readRawDoc body p;
        m ← unmarshal "mongowire: decode kind-1 doc" doc;
        docsLoop fuel body p seqEnd (docs ++ [VM m])
      else mret docs
  end.

Fixpoint sectionsLoop (fuel : nat) (body : bytes) (pos : Z) (cmd : bsonM) : parse bsonM :=
  match fuel with
  | O => Running
  | S fuel' =>
      if pos <? zlen body then
        kind ← idx body @[pos];
        let pos := pos + 1 in
        if bool_decide (kind = Byte.x00) then
          '(doc, pos) ← readRawDoc body pos;
          m ← unmarshal "mongowire: decode kind-0 section" doc;
          sectionsLoop fuel' body pos (m ∪ cmd)
        else if bool_decide (kind = Byte.x01) then
          b ← idx (zsuffix body pos);
          seqLen ← idx (Uint32LE b);
          let seqEnd := pos + int32 seqLen in
          let p := pos + 4 in
          nameEnd ← findNul fuel body p;
          name ← idx (zslice body p nameEnd);
          docs ← docsLoop fuel body (nameEnd + 1) seqEnd [];
          sectionsLoop fuel' body seqEnd (<[String.string_of_list_byte name := VSlice docs]> cmd)
        else perr "mongowire: unsupported OP_MSG section kind"
      else mret cmd
  end.

Definition readOpMsgBody (fuel : nat) (hdr : header) (r : bytes) : parse (bsonM * bytes) :=
  '(body, r) ← read_body (int32 (MessageLength hdr - 16)) r;
  cmd ← sectionsLoop fuel body 4 ∅;
  mret (cmd, r).

(** [readMessage]: the request, and what is left of the stream. *)
Definition readMessage (fuel : nat) (r : bytes) : parse (Z * bsonM * Z * bytes) :=
  '(hdr, r) ← read_header r;
  if OpCode hdr =? opQuery then '(cmd, r) ← readQuery fuel hdr r; mret (RequestID hdr, cmd, opQuery, r)
  else if OpCode hdr =? opMsg then '(cmd, r) ← readOpMsgBody fuel hdr r; mret (RequestID hdr, cmd, opMsg, r)
  else perr "mongowire: unsupported opcode".

(** What is written to the connection. *)
Definition writeOpMsg (responseTo : Z) (reply : bsonM) : res bytes :=
  match bson_marshal reply with
  | Err _ => Err "mongowire: marshal reply"
  | Ok docBytes =>
      let body := [Byte.x00; Byte.x00; Byte.x00; Byte.x00] ++ [Byte.x00] ++ docBytes in
      Ok (header_bytes (mkHeader (int32 (16 + zlen body)) 0 responseTo opMsg) ++ body)
  end.

Definition writeOpReply (responseTo : Z) (reply : bsonM) : res bytes :=
  match bson_marshal reply with
  | Err _ => Err "mongowire: marshal reply"
  | Ok docBytes =>
      let body := [Byte.x00; Byte.x00; Byte.x00; Byte.x00]
        ++ [Byte.x00; Byte.x00; Byte.x00; Byte.x00; Byte.x00; Byte.x00; Byte.x00; Byte.x00]
        ++ [Byte.x00; Byte.x00; Byte.x00; Byte.x00] ++ [Byte.x01; Byte.x00; Byte.x00; Byte.x00] ++ docBytes in
      Ok (header_bytes (mkHeader (int32 (16 + zlen body)) 0 responseTo opReply) ++ body)
  end.

Definition writeReply (requestOpCode responseTo : Z) (reply : bsonM) : res bytes :=
  if requestOpCode =? opQuery then writeOpReply responseTo reply else writeOpMsg responseTo reply.

End protocol.
