(* ===== verification/WireProof.v ===== *)
(** Parsing of well-formed messages, and what malformed ones do. *)
From S2P Require Import Prelude GoLib Value WireProtocol.
#[local] Open Scope Z_scope.

(** * The format *)

(** A document as the protocol frames it: its length, in its first four bytes. *)
Definition framed (d : bytes) : Prop := 5 <= zlen d < 2 ^ 31 /\ Uint32LE d = Some (zlen d).

Inductive section_ := SBody (doc : bytes) | SSeq (name : string) (docs : list bytes).

Definition seq_length (name : string) (docs : list bytes) : Z := 4 + zlen (bytes_of_string name) + 1 + zlen (concat docs).

Definition enc_section (s : section_) : bytes :=
  match s with
  | SBody doc => Byte.x00 :: doc
  | SSeq name docs => Byte.x01 :: PutUint32LE (seq_length name docs) ++ bytes_of_string name ++ [Byte.x00] ++ concat docs
  end.

Definition section_ok (s : section_) : Prop :=
  match s with
  | SBody doc => framed doc
  | SSeq name docs => Forall (fun x => x <> Byte.x00) (bytes_of_string name) /\ Forall framed docs /\ seq_length name docs < 2 ^ 31
  end.

(** An [OP_MSG] message, and an [OP_QUERY] message with what may follow its
    document. *)
Definition op_msg (reqID resp : Z) (flags : bytes) (ss : list section_) : bytes :=
  let body := flags ++ concat (map enc_section ss) in
  header_bytes (mkHeader (16 + zlen body) reqID resp opMsg) ++ body.

Definition op_query (reqID resp : Z) (flags : bytes) (name : string) (skip_return doc extra : bytes) : bytes :=
  let body := flags ++ bytes_of_string name ++ [Byte.x00] ++ skip_return ++ doc ++ extra in
  header_bytes (mkHeader (16 + zlen body) reqID resp opQuery) ++ body.

Section meaning.
Context `{B : Bson}.

(** What the sections say, in order: later fields replace earlier ones. *)
Fixpoint decode_docs (docs : list bytes) : option (list value) :=
  match docs with
  | [] => Some []
  | d :: docs => match bson_unmarshal d with Ok m => vs ← decode_docs docs; Some (VM m :: vs) | Err _ => None end
  end.

Fixpoint meaning (ss : list section_) (cmd : bsonM) : option bsonM :=
  match ss with
  | [] => Some cmd
  | SBody d :: ss => match bson_unmarshal d with Ok m => meaning ss (m ∪ cmd) | Err _ => None end
  | SSeq name docs :: ss => vs ← decode_docs docs; meaning ss (<[name := VSlice vs]> cmd)
  end.
End meaning.

(** * Integers and headers *)

Lemma Uint32LE_Put v r : Uint32LE (PutUint32LE v ++ r) = Some (u32 v).
Proof. exact (f_equal Some (Uint32_Put v)). Qed.

Lemma int32_u32 v : - 2 ^ 31 <= v < 2 ^ 31 -> int32 (u32 v) = v.
Proof.
  intros H. unfold int32, u32. rewrite Z.mod_mod by lia. case_test; Z.to_euclidean_division_equations; lia.
Qed.

Lemma int32_small v : - 2 ^ 31 <= v < 2 ^ 31 -> int32 v = v.
Proof. intros H. rewrite <- (int32_u32 v H) at 2. unfold int32, u32. by rewrite Z.mod_mod by lia. Qed.

Definition small_header (h : header) : Prop :=
  (- 2 ^ 31 <= MessageLength h < 2 ^ 31) /\ (- 2 ^ 31 <= RequestID h < 2 ^ 31) /\
  (- 2 ^ 31 <= ResponseTo h < 2 ^ 31) /\ (- 2 ^ 31 <= OpCode h < 2 ^ 31).

Lemma read_header_spec h r : small_header h -> read_header (header_bytes h ++ r) = mret (h, r).
Proof.
  intros (H1 & H2 & H3 & H4). unfold read_header, header_bytes. rewrite <- !app_assoc.
  change (drop 4 (PutUint32LE (MessageLength h) ++ ?x)) with x. rewrite !Uint32LE_Put.
  change (drop 8 (PutUint32LE (MessageLength h) ++ PutUint32LE (RequestID h) ++ ?x)) with x. rewrite !Uint32LE_Put.
  change (drop 12 (PutUint32LE (MessageLength h) ++ PutUint32LE (RequestID h) ++ PutUint32LE (ResponseTo h) ++ ?x)) with x.
  rewrite !Uint32LE_Put, !int32_u32 by done. by destruct h.
Qed.

Lemma read_body_spec b r : read_body (zlen b) (b ++ r) = mret (b, r).
Proof.
  unfold read_body. pose proof (zlen_nonneg b). pose proof (zlen_nonneg r). rewrite (proj2 (Z.ltb_ge _ _)) by lia.
  rewrite (proj2 (Z.ltb_ge _ _)) by (rewrite zlen_app; lia).
  unfold zlen. rewrite Nat2Z.id. by rewrite take_app_length, drop_app_length.
Qed.

(** * Documents and names *)

Lemma zsuffix_app {A} (l1 l2 : list A) : zsuffix (l1 ++ l2) (zlen l1) = Some l2.
Proof.
  rewrite zsuffix_Some by (rewrite zlen_app; pose proof (zlen_nonneg l1); pose proof (zlen_nonneg l2); lia).
  replace (Z.to_nat (zlen l1)) with (length l1) by (unfold zlen; lia). by rewrite drop_app_length.
Qed.

Lemma readRawDoc_spec pre d post : framed d -> readRawDoc (pre ++ d ++ post) (zlen pre) = mret (d, zlen pre + zlen d).
Proof.
  intros [Hl Hu]. unfold readRawDoc. pose proof (zlen_nonneg post). pose proof (zlen_nonneg pre).
  rewrite (proj2 (Z.ltb_ge _ _)) by (rewrite !zlen_app; lia).
  rewrite zsuffix_app. cbn [idx mbind parse_bind].
  assert (Hu' : Uint32LE (d ++ post) = Some (zlen d)) by (destruct d as [|? [|? [|? [|? ?]]]]; done).
  rewrite Hu'. cbn [idx mbind parse_bind]. rewrite int32_small by lia.
  rewrite (proj2 (Z.ltb_ge _ _)) by (rewrite !zlen_app; lia). by rewrite zslice_app.
Qed.

Lemma findNul_spec name post : forall fuel pre, Forall (fun x => x <> Byte.x00) name -> (length name < fuel)%nat ->
  findNul fuel (pre ++ name ++ [Byte.x00] ++ post) (zlen pre) = mret (zlen pre + zlen name).
Proof.
  induction name as [|x name IH]; intros fuel pre Hn Hf; (destruct fuel as [|fuel]; [cbn in Hf; lia|]); cbn [findNul].
  - rewrite zget_app_r by lia. rewrite Z.sub_diag. change (zlen (@nil byte)) with 0. by rewrite Z.add_0_r.
  - apply Forall_cons in Hn as [Hx Hn]. rewrite zget_app_r by lia. rewrite Z.sub_diag. cbn [app]. rewrite zget_cons_0.
    cbn [idx mbind parse_bind]. rewrite bool_decide_false by done.
    specialize (IH fuel (pre ++ [x]) Hn). rewrite zlen_snoc, <- app_assoc in IH. cbn [app] in IH. rewrite IH by (cbn in Hf; lia).
    rewrite zlen_cons. f_equal. lia.
Qed.

(** * Sections *)

Section proofs.
Context `{B : Bson}.

Lemma unmarshal_Ok what d m : bson_unmarshal d = Ok m -> unmarshal what d = mret m.
Proof. intros H. unfold unmarshal. by rewrite H. Qed.

Lemma docsLoop_spec docs : forall fuel pre post acc vs seqEnd,
  Forall framed docs -> decode_docs docs = Some vs -> (length docs < fuel)%nat -> seqEnd = zlen pre + zlen (concat docs) ->
  docsLoop fuel (pre ++ concat docs ++ post) (zlen pre) seqEnd acc = mret (acc ++ vs).
Proof.
  induction docs as [|d docs IH]; intros fuel pre post acc vs seqEnd Hd Hv Hf ->; (destruct fuel as [|fuel]; [cbn in Hf; lia|]); cbn [docsLoop].
  - injection Hv as <-. change (zlen (concat [])) with 0. rewrite (proj2 (Z.ltb_ge _ _)) by lia. by rewrite app_nil_r.
  - apply Forall_cons in Hd as [Hd Hds]. cbn in Hv. destruct (bson_unmarshal d) as [m|] eqn:Em; [|done].
    destruct (decode_docs docs) as [vs'|] eqn:Ev; [|done]. injection Hv as <-. cbn [concat].
    pose proof (zlen_nonneg (concat docs)). destruct Hd as [Hl Hu].
    rewrite (proj2 (Z.ltb_lt _ _)) by (rewrite zlen_app; lia). rewrite <- app_assoc, readRawDoc_spec by (by split).
    cbn [mbind parse_bind mret parse_ret]. rewrite (unmarshal_Ok _ _ _ Em). cbn [mbind parse_bind mret parse_ret].
    specialize (IH fuel (pre ++ d) post (acc ++ [VM m]) vs' (zlen pre + zlen (d ++ concat docs)) Hds eq_refl).
    rewrite zlen_app, <- !app_assoc in IH. cbn [app] in IH. rewrite zlen_app in IH |- *. apply IH; [cbn in Hf; lia|lia].
Qed.

Lemma string_of_bytes_of_name name : String.string_of_list_byte (bytes_of_string name) = name.
Proof. apply String.string_of_list_byte_of_string. Qed.

Lemma sections_long ss : (length ss <= length (concat (map enc_section ss)))%nat.
Proof. induction ss as [|[d|name docs] ss IH]; cbn; rewrite ?length_app; cbn; lia. Qed.

Lemma framed_long docs : Forall framed docs -> (length docs <= length (concat docs))%nat.
Proof.
  induction 1 as [|d docs [Hl _] _ IH]; cbn; [lia|]. rewrite length_app. unfold zlen in Hl. lia.
Qed.

Lemma sectionsLoop_spec ss : forall fuel pre cmd cmd',
  Forall section_ok ss -> meaning ss cmd = Some cmd' -> (length (concat (map enc_section ss)) < fuel)%nat ->
  sectionsLoop fuel (pre ++ concat (map enc_section ss)) (zlen pre) cmd = mret cmd'.
Proof.
  induction ss as [|s ss IH]; intros fuel pre cmd cmd' Hs Hm Hf; (destruct fuel as [|fuel]; [cbn in Hf; lia|]); cbn [sectionsLoop].
  { injection Hm as <-. cbn. rewrite app_nil_r, (proj2 (Z.ltb_ge _ _)) by lia. done. }
  apply Forall_cons in Hs as [Hs Hss]. destruct s as [d|name docs]; cbn [map concat enc_section] in *.
  - cbn in Hm. destruct (bson_unmarshal d) as [m|] eqn:Em; [|done]. rewrite <- app_comm_cons.
    rewrite (proj2 (Z.ltb_lt _ _)) by (rewrite zlen_app, zlen_cons, zlen_app; pose proof (zlen_nonneg d); pose proof (zlen_nonneg (concat (map enc_section ss))); lia).
    rewrite zget_app_r, Z.sub_diag, zget_cons_0 by lia. cbn [idx mbind parse_bind]. rewrite bool_decide_true by done.
    rewrite cons_middle, app_assoc. rewrite <- (zlen_snoc pre Byte.x00), readRawDoc_spec by done.
    cbn [mbind parse_bind mret parse_ret]. rewrite (unmarshal_Ok _ _ _ Em). cbn [mbind parse_bind mret parse_ret].
    rewrite <- zlen_app, app_assoc. apply IH; [done|done|]. cbn in Hf. rewrite length_app in Hf. lia.
  - cbn in Hm. destruct (decode_docs docs) as [vs|] eqn:Ev; [|done]. cbn in Hm. destruct Hs as (Hn & Hd & Hl).
    set (tail := concat (map enc_section ss)) in *. set (nm := bytes_of_string name) in *.
    assert (Hshape : pre ++ (Byte.x01 :: PutUint32LE (seq_length name docs) ++ nm ++ [Byte.x00] ++ concat docs) ++ tail =
      (pre ++ [Byte.x01]) ++ PutUint32LE (seq_length name docs) ++ nm ++ [Byte.x00] ++ concat docs ++ tail)
      by (rewrite <- (app_assoc pre [Byte.x01]); f_equal; cbn [app]; f_equal; by rewrite <- !app_assoc).
    rewrite Hshape. pose proof (zlen_nonneg (nm ++ [Byte.x00] ++ concat docs ++ tail)). pose proof (zlen_nonneg nm).
    pose proof (zlen_nonneg (concat docs)). pose proof (zlen_nonneg tail).
    rewrite (proj2 (Z.ltb_lt _ _)) by (rewrite zlen_app, zlen_snoc, zlen_app; change (zlen (PutUint32LE _)) with 4; lia).
    rewrite <- (app_assoc pre), zget_app_r, Z.sub_diag by lia. cbn [app]. rewrite zget_cons_0. cbn [idx mbind parse_bind].
    rewrite bool_decide_false, bool_decide_true by done. rewrite cons_middle, app_assoc, <- (zlen_snoc pre Byte.x01).
    rewrite zsuffix_app. cbn [idx mbind parse_bind].
    rewrite Uint32LE_Put. cbn [idx mbind parse_bind].
    rewrite int32_u32 by (unfold seq_length in *; fold nm in Hl |- *; lia).
    set (pre1 := (pre ++ [Byte.x01]) ++ PutUint32LE (seq_length name docs)).
    assert (Hp1 : zlen (pre ++ [Byte.x01]) + 4 = zlen pre1) by (unfold pre1; rewrite (zlen_app (pre ++ [Byte.x01])); done). rewrite Hp1.
    rewrite app_assoc. fold pre1. rewrite length_app in Hf. cbn [length] in Hf. rewrite !length_app in Hf. cbn [length] in Hf.
    rewrite (findNul_spec nm (concat docs ++ tail)); [|done|lia]. cbn [mbind parse_bind mret parse_ret].
    rewrite zslice_app by done. cbn [idx mbind parse_bind].
    set (pre2 := pre1 ++ nm ++ [Byte.x00]).
    assert (Hp2 : zlen pre1 + zlen nm + 1 = zlen pre2) by (unfold pre2; rewrite !zlen_app; change (zlen [Byte.x00]) with 1; lia). rewrite Hp2.
    assert (Hb : pre1 ++ nm ++ Byte.x00 :: concat docs ++ tail = pre2 ++ concat docs ++ tail) by (unfold pre2; by rewrite <- !app_assoc). rewrite Hb.
    pose proof (framed_long docs Hd).
    rewrite (docsLoop_spec docs (S fuel) pre2 tail [] vs); [|done|done|lia|unfold seq_length; fold nm; lia].
    cbn [mbind parse_bind mret parse_ret app]. rewrite (string_of_bytes_of_name name : String.string_of_list_byte nm = name).
    assert (He : zlen (pre ++ [Byte.x01]) + seq_length name docs = zlen (pre2 ++ concat docs)) by (rewrite (zlen_app pre2); unfold seq_length; fold nm; lia).
    rewrite He, app_assoc. apply IH; [done|done|lia].
Qed.

End proofs.
