(* ===== verification/WireTheorems.v ===== *)
(** The theorems about the wire protocol. *)
From S2P Require Import Prelude GoLib Value WireProtocol WireProof.
#[local] Open Scope Z_scope.
#[local] Set Warnings "-clear-no-such-hyp".

(** Values that are decoded as they were encoded. *)
Definition flat (v : value) : bool :=
  match v with VNil | VBool _ | VFloat _ | VInt32 _ | VInt64 _ | VString _ => true | _ => false end.

(** Documented behaviour of the BSON library: a document starts with its length,
    is never shorter than five bytes, and flat ones are decoded as encoded. *)
Class BsonOk `{Bson} := {
  marshal_long m d : bson_marshal m = Ok d -> 5 <= zlen d;
  marshal_framed m d : bson_marshal m = Ok d -> zlen d < 2 ^ 31 -> Uint32LE d = Some (zlen d);
  flat_roundtrip m d : (forall k v, m !! k = Some v -> flat v = true) -> bson_marshal m = Ok d -> bson_unmarshal d = Ok m
}.

Section wire.
Context `{B : Bson} `{BO : !BsonOk}.

Lemma zlen_header h : zlen (header_bytes h) = 16.
Proof. done. Qed.

Lemma read_op_msg fuel reqID resp flags ss cmd rest :
  length flags = 4%nat -> - 2 ^ 31 <= reqID < 2 ^ 31 -> - 2 ^ 31 <= resp < 2 ^ 31 ->
  Forall section_ok ss -> meaning ss ∅ = Some cmd ->
  zlen (op_msg reqID resp flags ss) < 2 ^ 31 -> (length (op_msg reqID resp flags ss) < fuel)%nat ->
  readMessage fuel (op_msg reqID resp flags ss ++ rest) = mret (reqID, cmd, opMsg, rest).
Proof.
  intros Hfl Hq Hr Hs Hm Hl Hf. unfold op_msg in *. set (body := flags ++ concat (map enc_section ss)) in *.
  rewrite zlen_app, zlen_header in Hl. rewrite length_app in Hf. pose proof (zlen_nonneg body).
  unfold readMessage. rewrite <- app_assoc, read_header_spec by (repeat split; cbn; unfold opMsg, opQuery; lia).
  cbn [mbind parse_bind mret parse_ret OpCode RequestID MessageLength].
  change (opMsg =? opQuery) with false. change (opMsg =? opMsg) with true. cbn [andb]. unfold readOpMsgBody. cbn [MessageLength].
  rewrite int32_small by lia. replace (16 + zlen body - 16) with (zlen body) by lia. rewrite read_body_spec.
  cbn [mbind parse_bind mret parse_ret]. replace 4 with (zlen flags) by (unfold zlen; lia).
  unfold body. rewrite (sectionsLoop_spec ss fuel flags ∅ cmd Hs Hm); [done|]. unfold body in Hf. rewrite length_app in Hf. lia.
Qed.

Lemma read_op_query fuel reqID resp flags name sr doc extra m rest :
  length flags = 4%nat -> length sr = 8%nat -> - 2 ^ 31 <= reqID < 2 ^ 31 -> - 2 ^ 31 <= resp < 2 ^ 31 ->
  Forall (fun x => x <> Byte.x00) (bytes_of_string name) -> framed doc -> bson_unmarshal doc = Ok m ->
  zlen (op_query reqID resp flags name sr doc extra) < 2 ^ 31 -> (length (op_query reqID resp flags name sr doc extra) < fuel)%nat ->
  readMessage fuel (op_query reqID resp flags name sr doc extra ++ rest) = mret (reqID, m, opQuery, rest).
Proof.
  intros Hfl Hsr Hq Hr Hn Hd Hm Hl Hf. unfold op_query in *. set (nm := bytes_of_string name) in *.
  set (body := flags ++ nm ++ [Byte.x00] ++ sr ++ doc ++ extra) in *.
  rewrite zlen_app, zlen_header in Hl. rewrite length_app in Hf. pose proof (zlen_nonneg body).
  unfold readMessage. rewrite <- app_assoc, read_header_spec by (repeat split; cbn; unfold opMsg, opQuery; lia).
  cbn [mbind parse_bind mret parse_ret OpCode RequestID MessageLength].
  change (opQuery =? opQuery) with true. cbn [andb]. unfold readQuery. cbn [MessageLength].
  rewrite int32_small by lia. replace (16 + zlen body - 16) with (zlen body) by lia. rewrite read_body_spec.
  assert (Hnul : findNul fuel body 4 = mret (zlen flags + zlen nm)).
  { replace 4 with (zlen flags) by (unfold zlen; lia). apply findNul_spec; [done|]. unfold body in Hf. rewrite !length_app in Hf. lia. }
  cbn [mbind parse_bind mret parse_ret]. rewrite Hnul. cbn [mbind parse_bind mret parse_ret].
  assert (Hb : body = (flags ++ nm ++ [Byte.x00] ++ sr) ++ doc ++ extra) by (unfold body; by rewrite <- !app_assoc).
  replace (zlen flags + zlen nm + 1 + 4 * 2) with (zlen (flags ++ nm ++ [Byte.x00] ++ sr)).
  2:{ rewrite !zlen_app. change (zlen [Byte.x00]) with 1. assert (zlen sr = 8) by (unfold zlen; lia). lia. }
  rewrite Hb, readRawDoc_spec by done. cbn [mbind parse_bind mret parse_ret]. by rewrite (unmarshal_Ok _ _ _ Hm).
Qed.

(** A kind-1 section that claims to be one byte shorter than nothing. *)
Definition looping_body : bytes :=
  [Byte.x00; Byte.x00; Byte.x00; Byte.x00; Byte.x01; Byte.xff; Byte.xff; Byte.xff; Byte.xff; Byte.x00].
Definition looping_message : bytes := header_bytes (mkHeader 26 7 0 opMsg) ++ looping_body.

Lemma looping_sections fuel : forall cmd, sectionsLoop fuel looping_body 4 cmd = Running.
Proof. induction fuel as [|fuel IH]; intros cmd; [done|]. exact (IH _). Qed.

(** A message that claims fewer bytes than its header has, and one that is never read
    to its end. *)
Lemma malformed_read fuel :
  (forall len reqID resp op rest, - 2 ^ 31 + 16 <= len < 16 -> - 2 ^ 31 <= reqID < 2 ^ 31 -> - 2 ^ 31 <= resp < 2 ^ 31 ->
     op = opMsg \/ op = opQuery ->
     readMessage fuel (header_bytes (mkHeader len reqID resp op) ++ rest) = Panicked) /\
  readMessage fuel looping_message = Running.
Proof.
  split.
  - intros len reqID resp op rest Hl Hq Hr Ho. unfold readMessage.
    rewrite read_header_spec by (repeat split; cbn; destruct Ho as [->| ->]; unfold opMsg, opQuery; lia).
    assert (Hneg : read_body (int32 (len - 16)) rest = Panicked).
    { unfold read_body. rewrite int32_small by lia. by rewrite (proj2 (Z.ltb_lt _ _)) by lia. }
    destruct Ho as [->| ->]; cbn [mbind parse_bind mret parse_ret OpCode]; unfold readOpMsgBody, readQuery; cbn; by rewrite Hneg.
  - unfold readMessage, looping_message. rewrite read_header_spec by (repeat split; cbn; unfold opMsg; lia).
    cbn [mbind parse_bind mret parse_ret OpCode]. change (opMsg =? opQuery) with false. change (opMsg =? opMsg) with true. cbv iota.
    unfold readOpMsgBody. change (read_body _ looping_body) with (mret (looping_body, @nil byte) : parse _).
    cbn [mbind parse_bind mret parse_ret]. by rewrite looping_sections.
Qed.

(** C27: The wire protocol reads what is written.  Whatever follows on the
    connection, [readMessage] returns, and returns exactly the request: of an
    [OP_MSG] the merged meaning of its sections, of an [OP_QUERY] its document,
    and it leaves what follows; and a reply written for an [OP_MSG] request reads
    back as the reply.  The lengths are not checked, though: a header that claims
    fewer than sixteen bytes makes [readMessage] panic, and a message of twenty-six
    bytes, with a section of negative length that takes the loop back, is never read
    to its end. *)
Theorem wire_roundtrip fuel reqID resp flags rest :
  length flags = 4%nat -> - 2 ^ 31 <= reqID < 2 ^ 31 -> - 2 ^ 31 <= resp < 2 ^ 31 ->
  (forall ss cmd, Forall section_ok ss -> meaning ss ∅ = Some cmd ->
     zlen (op_msg reqID resp flags ss) < 2 ^ 31 -> (length (op_msg reqID resp flags ss) < fuel)%nat ->
     readMessage fuel (op_msg reqID resp flags ss ++ rest) = mret (reqID, cmd, opMsg, rest)) /\
  (forall name sr doc extra m, length sr = 8%nat -> Forall (fun x => x <> Byte.x00) (bytes_of_string name) -> framed doc ->
     bson_unmarshal doc = Ok m -> zlen (op_query reqID resp flags name sr doc extra) < 2 ^ 31 ->
     (length (op_query reqID resp flags name sr doc extra) < fuel)%nat ->
     readMessage fuel (op_query reqID resp flags name sr doc extra ++ rest) = mret (reqID, m, opQuery, rest)) /\
  (forall reply b, (forall k v, reply !! k = Some v -> flat v = true) -> writeReply opMsg resp reply = Ok b ->
     zlen b < 2 ^ 31 -> (length b < fuel)%nat -> readMessage fuel (b ++ rest) = mret (0, reply, opMsg, rest)) /\
  (forall len op, - 2 ^ 31 + 16 <= len < 16 -> op = opMsg \/ op = opQuery ->
     readMessage fuel (header_bytes (mkHeader len reqID resp op) ++ rest) = Panicked) /\
  readMessage fuel looping_message = Running.
Proof.
  intros Hfl Hq Hr. destruct (malformed_read fuel) as [Hshort Hloop]. split_and!; [| | |intros; by apply Hshort|exact Hloop].
  - intros ss cmd. by apply read_op_msg.
  - intros name sr doc extra m ?. by apply read_op_query.
  - intros reply b Hflat Hw Hl Hf. unfold writeReply in Hw. change (opMsg =? opQuery) with false in Hw. unfold writeOpMsg in Hw.
    destruct (bson_marshal reply) as [d|] eqn:Em; [|done].
    pose proof (marshal_long _ _ Em) as Hd5. cbv zeta in Hw.
    set (body := [Byte.x00; Byte.x00; Byte.x00; Byte.x00] ++ [Byte.x00] ++ d) in *.
    assert (b = header_bytes (mkHeader (int32 (16 + zlen body)) 0 resp opMsg) ++ body) as -> by congruence. clear Hw.
    assert (Hbl : zlen body = 5 + zlen d) by (unfold body, zlen; cbn [length app]; lia). rewrite zlen_app, zlen_header in Hl.
    assert (Hfr : framed d) by (split; [lia|apply (marshal_framed _ _ Em); lia]).
    rewrite int32_small in Hf |- * by lia.
    assert (Hshape : header_bytes (mkHeader (16 + zlen body) 0 resp opMsg) ++ body =
      op_msg 0 resp [Byte.x00; Byte.x00; Byte.x00; Byte.x00] [SBody d]) by (unfold op_msg; cbn [map concat enc_section]; by rewrite app_nil_r).
    rewrite Hshape in *. apply read_op_msg; [done|lia|done|constructor; [exact Hfr|constructor]| | |done].
    + cbn. rewrite (flat_roundtrip _ _ Hflat Em). by rewrite (right_id_L ∅ (∪)).
    + rewrite <- Hshape, zlen_app, zlen_header. lia.
Qed.

End wire.

(** * A concrete encoding

    A document of one text field, behind its length. *)

Definition tiny_encode (k t : string) : bytes :=
  let fs := PutUint32LE (zlen (bytes_of_string k)) ++ bytes_of_string k ++ bytes_of_string t ++ [Byte.x00] in
  PutUint32LE (4 + zlen fs) ++ fs.

Definition tiny_bson : Bson := {|
  bson_marshal m := match map_to_list m with
    | [(k, VString t)] => if (zlen (bytes_of_string k) <? 2 ^ 31) then Ok (tiny_encode k t) else Err "too long"
    | _ => Err "unsupported"
    end;
  bson_unmarshal d :=
    match Uint32LE (drop 4 d) with
    | Some n =>
        let fs := drop 8 d in
        Ok {[String.string_of_list_byte (take (Z.to_nat n) fs) :=
             VString (String.string_of_list_byte (take (length fs - Z.to_nat n - 1) (drop (Z.to_nat n) fs)))]}
    | None => Err "too short"
    end
|}.

Lemma map_to_list_one {A} (m : gmap string A) k v : map_to_list m = [(k, v)] -> m = {[k := v]}.
Proof.
  intros H. apply map_eq. intros i. apply option_eq. intros x. rewrite <- elem_of_map_to_list, H, list_elem_of_singleton.
  rewrite lookup_singleton_Some. naive_solver.
Qed.

Lemma tiny_bson_ok : @BsonOk tiny_bson.
Proof.
  assert (Hm : forall m d, @bson_marshal tiny_bson m = Ok d -> exists k t, m = {[k := VString t]} /\
    zlen (bytes_of_string k) < 2 ^ 31 /\ d = tiny_encode k t).
  { intros m d. cbn [bson_marshal tiny_bson]. destruct (map_to_list m) as [|[k v] [|]] eqn:E; try done; destruct v; try done.
    destruct (_ <? _) eqn:El; [|done]. bool_to_prop. intros H. exists k, s. split_and!; [by apply map_to_list_one|lia|congruence]. }
  split.
  - intros m d (k & t & _ & _ & ->)%Hm. unfold tiny_encode, zlen. rewrite !length_app. cbn [length PutUint32LE]. lia.
  - intros m d (k & t & _ & _ & ->)%Hm Hl. unfold tiny_encode in Hl |- *. rewrite Uint32LE_Put. f_equal.
    set (fs := _ ++ bytes_of_string k ++ _) in *. pose proof (zlen_nonneg fs).
    rewrite (zlen_app (PutUint32LE (4 + zlen fs))) in Hl |- *. change (zlen (PutUint32LE (4 + zlen fs))) with 4 in *. apply u32_small. lia.
  - intros m d _ (k & t & -> & Hk & ->)%Hm. cbn [bson_unmarshal tiny_bson]. unfold tiny_encode.
    set (fs := bytes_of_string k ++ bytes_of_string t ++ [Byte.x00]).
    change (drop 4 (PutUint32LE ?a ++ ?x)) with x. rewrite Uint32LE_Put. pose proof (zlen_nonneg (bytes_of_string k)).
    rewrite u32_small by lia. change (drop 8 (PutUint32LE ?a ++ PutUint32LE ?b ++ ?x)) with x. unfold zlen. rewrite Nat2Z.id. unfold fs.
    rewrite take_app_length, drop_app_length, !length_app. cbn [length].
    replace (length (bytes_of_string k) + (length (bytes_of_string t) + 1) - length (bytes_of_string k) - 1)%nat with (length (bytes_of_string t)) by lia.
    rewrite take_app_length. by rewrite !string_of_bytes_of_name.
Qed.

#[local] Existing Instance tiny_bson.

Definition ping_doc : bytes := tiny_encode "ping" "x".
Definition other_doc : bytes := tiny_encode "a" "b".

Definition wire_sections : list section_ := [SBody ping_doc; SSeq "documents" [other_doc]].
Definition wire_cmd : bsonM := default ∅ (meaning wire_sections ∅).

Lemma ping_framed : framed ping_doc /\ framed other_doc.
Proof. split; (split; [split; [apply Z.leb_le|apply Z.ltb_lt]|]; vm_compute; reflexivity). Qed.

Lemma wire_sections_ok : Forall section_ok wire_sections /\ meaning wire_sections ∅ = Some wire_cmd.
Proof.
  split; [|vm_compute; reflexivity]. constructor; [apply ping_framed|constructor; [|constructor]]. split; [|split].
  - repeat constructor; discriminate.
  - constructor; [apply ping_framed|constructor].
  - apply Z.ltb_lt. vm_compute. reflexivity.
Qed.

Lemma wire_roundtrip_witness :
  wire_cmd !! "ping"%string = Some (VString "x") /\
  readMessage 1000 (op_msg 5 0 [Byte.x00; Byte.x00; Byte.x00; Byte.x00] wire_sections ++ [Byte.xff]) =
    mret (5, wire_cmd, opMsg, [Byte.xff]).
Proof.
  split; [vm_compute; reflexivity|].
  refine (proj1 (wire_roundtrip (BO := tiny_bson_ok) 1000 5 0 [Byte.x00; Byte.x00; Byte.x00; Byte.x00] [Byte.xff] eq_refl _ _) wire_sections wire_cmd
    (proj1 wire_sections_ok) (proj2 wire_sections_ok) _ _).
  - lia.
  - lia.
  - apply Z.ltb_lt. vm_compute. reflexivity.
  - apply Nat.ltb_lt. vm_compute. reflexivity.
Defined.
