(* ===== verification/Docstore.v ===== *)
(** The document stores ([docstore/document.go], [docstore/locked_store.go],
    [docstore/mvcc_store.go]): a store of current documents behind one lock, and
    a store of version chains with snapshots.

    Each exported method runs under the store's lock, so it is one step.  The
    class [Json] is what the code uses of [encoding/json] and [fmt]: how a
    document and a transaction are decoded and encoded, and how [%v] prints a
    value. *)
From S2P Require Import Prelude GoLib Value.
#[local] Open Scope Z_scope.

Definition Document : Type := gmap string value.

Record Mutation := mkMutation {
  Op : string;
  ID : string;
  Data : bytes;
  ExpectedVersion : option Z
}.

Class Json := {
  sprint : value -> string;
  unmarshal_document : bytes -> res (gmap string value);
  marshal_document : gmap string value -> res bytes;
  marshal_mutations : list Mutation -> res bytes;
  unmarshal_mutations : bytes -> res (list Mutation)
}.

(** Strings of ASCII characters, which are encoded and decoded unchanged. *)
Definition ascii_text (t : string) : bool := forallb (fun c => Z.of_N (Ascii.N_of_ascii c) <? 128) (chars t).

(** The document some bytes hold, if they hold one. *)
Definition document_of `{Json} (b : bytes) : option (gmap string value) :=
  match unmarshal_document b with Ok doc => Some doc | Err _ => None end.

(** The same request: the bytes of the document may be rewritten (compacted and
    escaped) by the encoder, but hold the same document. *)
Definition same_mutation `{Json} (m m' : Mutation) : Prop :=
  Op m' = Op m /\ ID m' = ID m /\ ExpectedVersion m' = ExpectedVersion m /\ document_of (Data m') = document_of (Data m).

(** Documented behaviour: decoding an encoded transaction gives it back, and so
    does decoding an encoded document, whose values came from JSON or are texts;
    any other document that can be encoded decodes to one with the same texts. *)
Class JsonOk `{Json} := {
  document_roundtrip b0 doc key text b :
    unmarshal_document b0 = Ok doc -> ascii_text key = true -> ascii_text text = true ->
    marshal_document (<[key := VString text]> doc) = Ok b ->
    unmarshal_document b = Ok (<[key := VString text]> doc);
  document_texts doc b :
    marshal_document doc = Ok b ->
    exists doc', unmarshal_document b = Ok doc' /\ forall key text,
      ascii_text key = true -> ascii_text text = true -> doc !! key = Some (VString text) -> doc' !! key = Some (VString text);
  mutations_roundtrip ms b :
    Forall (fun m => ascii_text (Op m) = true /\ ascii_text (ID m) = true) ms ->
    marshal_mutations ms = Ok b -> exists ms', unmarshal_mutations b = Ok ms' /\ Forall2 same_mutation ms ms'
}.

Section docstore.
Context `{J : Json}.

Definition EncodeTransaction (muts : list Mutation) : res bytes := marshal_mutations muts.
Definition DecodeTransaction (blob : bytes) : res (list Mutation) := unmarshal_mutations blob.

(** * The locked store *)

Record LockedStore := mkLocked {
  docs : gmap string Document;
  version : gmap string Z
}.

Definition NewLockedStore : LockedStore := mkLocked ∅ ∅.

(** The first mutation whose precondition fails, if any: the first loop of both
    [ApplyTransaction]s over [current], the version of each document. *)
Fixpoint validate (current : string -> Z) (muts : list Mutation) : res unit :=
  match muts with
  | [] => Ok tt
  | m :: muts =>
      match ExpectedVersion m with
      | Some v => if current (ID m) =? v then validate current muts else Err "docstore: expected version"
      | None => validate current muts
      end
  end.

(** One round of the second loop. *)
Definition locked_mutate (m : Mutation) : M LockedStore unit := fun s =>
  if bool_decide (Op m = "put"%string) then
    match unmarshal_document (Data m) with
    | Err _ => (Err "docstore: invalid document data", s)
    | Ok doc => (Ok tt, mkLocked (<[ID m := doc]> (docs s)) (<[ID m := mapget 0 (version s) (ID m) + 1]> (version s)))
    end
  else if bool_decide (Op m = "delete"%string) then
    (Ok tt, mkLocked (delete (ID m) (docs s)) (<[ID m := mapget 0 (version s) (ID m) + 1]> (version s)))
  else (Ok tt, s).

Fixpoint locked_commit (muts : list Mutation) : M LockedStore unit :=
  match muts with
  | [] => mret tt
  | m :: muts => _ ← locked_mutate m; locked_commit muts
  end.

Definition locked_ApplyTransaction (muts : list Mutation) : M LockedStore unit := fun s =>
  match validate (fun id => mapget 0 (version s) id) muts with
  | Err e => (Err e, s)
  | Ok _ => locked_commit muts s
  end.

Definition locked_Get (id : string) (s : LockedStore) : option Document := docs s !! id.
Definition Version (id : string) (s : LockedStore) : Z := mapget 0 (version s) id.

(** * The versioned store *)

Record versionedDocument := mkVersion {
  vversion : Z;
  data : Document;
  committedAt : Z;
  deleted : bool
}.

Record MVCCStore := mkMVCC {
  chains : gmap string (list versionedDocument);
  index : gmap string (list string);
  indexField : string;
  commitIndex : Z
}.

Definition NewMVCCStore (field : string) : MVCCStore := mkMVCC ∅ ∅ field 0.

Definition chain (s : MVCCStore) (id : string) : list versionedDocument := mapget [] (chains s) id.

Definition latestVersionLocked (id : string) (s : MVCCStore) : Z :=
  match last (chain s id) with None => 0 | Some v => vversion v end.

Definition push_version (id : string) (doc : Document) (at_ : Z) (del : bool) (s : MVCCStore) : MVCCStore :=
  mkMVCC (<[id := chain s id ++ [mkVersion (latestVersionLocked id s + 1) doc at_ del]]> (chains s))
    (index s) (indexField s) (commitIndex s).

(** The update of the index after a put. *)
Definition add_index (id : string) (doc : Document) (s : MVCCStore) : MVCCStore :=
  if bool_decide (indexField s = EmptyString) then s
  else
    match doc !! indexField s with
    | None => s
    | Some val =>
        let key := sprint val in
        mkMVCC (chains s) (<[key := mapget [] (index s) key ++ [id]]> (index s)) (indexField s) (commitIndex s)
    end.

Definition mvcc_mutate (raftIndex : Z) (m : Mutation) : M MVCCStore unit := fun s =>
  if bool_decide (Op m = "put"%string) then
    match unmarshal_document (Data m) with
    | Err _ => (Err "docstore: invalid document data", s)
    | Ok doc => (Ok tt, add_index (ID m) doc (push_version (ID m) doc raftIndex false s))
    end
  else if bool_decide (Op m = "delete"%string) then (Ok tt, push_version (ID m) ∅ raftIndex true s)
  else (Ok tt, s).

Fixpoint mvcc_commit (raftIndex : Z) (muts : list Mutation) : M MVCCStore unit :=
  match muts with
  | [] => modify (fun s => mkMVCC (chains s) (index s) (indexField s) raftIndex)
  | m :: muts => _ ← mvcc_mutate raftIndex m; mvcc_commit raftIndex muts
  end.

Definition ApplyTransaction (muts : list Mutation) (raftIndex : Z) : M MVCCStore unit := fun s =>
  match validate (fun id => latestVersionLocked id s) muts with
  | Err e => (Err e, s)
  | Ok _ => mvcc_commit raftIndex muts s
  end.

(** The loop of [GCBefore] over one chain: the position of the last version of
    the prefix committed at or before [raftIndex]. *)
Fixpoint keepFrom (raftIndex : Z) (i keep : nat) (c : list versionedDocument) : nat :=
  match c with
  | [] => keep
  | v :: c => if committedAt v <=? raftIndex then keepFrom raftIndex (S i) i c else keep
  end.

Definition gc_chain (raftIndex : Z) (c : list versionedDocument) : list versionedDocument :=
  drop (keepFrom raftIndex 0 0 c) c.

Definition GCBefore (raftIndex : Z) (s : MVCCStore) : MVCCStore :=
  mkMVCC (gc_chain raftIndex <$> chains s) (index s) (indexField s) (commitIndex s).

(** * Snapshots *)

(** [Snapshot]: the index it is pinned to; the store is read at each call. *)
Definition Snapshot (s : MVCCStore) : Z := commitIndex s.

(** [Get] of a snapshot pinned at [at_]; the outer [option] is a panic. *)
Definition Get (at_ : Z) (id : string) (s : MVCCStore) : option (option Document) :=
  let c := chain s id in
  r ← Search (zlen c) (fun i => v ← c @[i]; Some (at_ <? committedAt v));
  let idx := r - 1 in
  if idx <? 0 then Some None
  else v ← c @[idx]; Some (if deleted v then None else Some (data v)).

(** The value [%v] prints for a field that may be missing. *)
Definition sprint_field (o : option value) : string := match o with Some v => sprint v | None => "<nil>"%string end.

(** The loop of [QueryByIndex] over the candidates. *)
Fixpoint query (at_ : Z) (val : string) (s : MVCCStore) (seen : gset string) (cs result : list string) : option (list string) :=
  match cs with
  | [] => Some result
  | id :: cs =>
      if bool_decide (id ∈ seen) then query at_ val s seen cs result
      else
        d ← Get at_ id s;
        match d with
        | None => query at_ val s ({[id]} ∪ seen) cs result
        | Some doc =>
            if bool_decide (sprint_field (doc !! indexField s) = val)
            then query at_ val s ({[id]} ∪ seen) cs (result ++ [id])
            else query at_ val s ({[id]} ∪ seen) cs result
        end
  end.

Definition QueryByIndex (at_ : Z) (val : string) (s : MVCCStore) : option (list string) :=
  query at_ val s ∅ (mapget [] (index s) val) [].

(** [Scan]: the ids that exist at the snapshot, in some order. *)
Fixpoint scan_ids (at_ : Z) (s : MVCCStore) (ids : list string) : option (list string) :=
  match ids with
  | [] => Some []
  | id :: ids =>
      d ← Get at_ id s;
      rest ← scan_ids at_ s ids;
      Some (match d with Some _ => id :: rest | None => rest end)
  end.

Definition Scan (at_ : Z) (s : MVCCStore) : option (list string) := scan_ids at_ s (map fst (map_to_list (chains s))).

End docstore.
