(* ===== verification/DocstoreProof.v ===== *)
(** Proofs about the document stores: what a snapshot sees, what collection
    keeps, and the two stores side by side. *)
From S2P Require Import Prelude GoLib Value Docstore.
#[local] Open Scope Z_scope.

Section proofs.
Context `{J : Json}.
Implicit Types (s : MVCCStore) (l : LockedStore) (c : list versionedDocument).

(** * What a snapshot sees *)

Definition content (o : option versionedDocument) : option Document :=
  v ← o; if deleted v then None else Some (data v).

(** The reference: the last version committed at or before [at_]. *)
Definition visible (at_ : Z) c : option Document := content (last (filter (fun v => committedAt v <= at_) c)).

Definition ordered c : Prop :=
  forall i j vi vj, c !! i = Some vi -> c !! j = Some vj -> (i <= j)%nat -> committedAt vi <= committedAt vj.

Lemma filter_take {A} (P : A -> Prop) `{!forall x, Decision (P x)} (l : list A) : forall r,
  (forall k x, l !! k = Some x -> (k < r)%nat -> P x) -> (forall k x, l !! k = Some x -> (r <= k)%nat -> ~ P x) ->
  filter P l = take r l.
Proof.
  induction l as [|x l IH]; intros r Hlo Hhi; [by rewrite take_nil|]. destruct r as [|r]; cbn [take].
  - assert (Hn : forall y, y ∈ x :: l -> ~ P y).
    { intros y [k Hk]%list_elem_of_lookup. apply (Hhi k y Hk). lia. }
    clear -Hn. induction (x :: l) as [|y l' IH]; [done|]. rewrite filter_cons_False; [|apply Hn; left].
    apply IH. intros z Hz. apply Hn. by right.
  - rewrite filter_cons_True; [|apply (Hlo 0%nat); [done|lia]]. f_equal. apply IH; intros k y Hk Hr.
    + apply (Hlo (S k)); [done|lia].
    + apply (Hhi (S k)); [done|lia].
Qed.

(** The binary search of [Get] finds the version the reference names. *)
Lemma Get_spec at_ id s : ordered (chain s id) -> Get at_ id s = Some (visible at_ (chain s id)).
Proof.
  intros Ho. unfold Get, visible. set (c := chain s id) in *.
  set (p := fun k => match c @[k] with Some v => at_ <? committedAt v | None => true end).
  destruct (Search_spec (fun i => v ← c @[i]; Some (at_ <? committedAt v)) p (zlen c)) as (r & -> & Hr & Hlo & Hhi).
  { apply zlen_nonneg. }
  { intros k Hk. unfold p. destruct (zget_Some c k Hk) as [v ->]. done. }
  { intros k k' Hk Hk' Hp. unfold p in *. destruct (zget_Some c k ltac:(lia)) as [v Ev], (zget_Some c k' ltac:(lia)) as [v' Ev'].
    rewrite Ev in Hp. rewrite Ev'. destruct (zget_nat _ _ _ Ev) as (n & -> & Hn), (zget_nat _ _ _ Ev') as (n' & -> & Hn').
    pose proof (Ho n n' v v' Hn Hn' ltac:(lia)). lia. }
  cbn [mbind option_bind].
  assert (Hf : filter (fun v => committedAt v <= at_) c = take (Z.to_nat r) c).
  { assert (Hget : forall k v, c !! k = Some v -> c @[Z.of_nat k] = Some v).
    { intros k v Hk. unfold zget. rewrite (proj2 (Z.ltb_ge _ _)) by lia. by rewrite Nat2Z.id. }
    apply filter_take; intros k v Hk Hkr; pose proof (lookup_lt_Some _ _ _ Hk).
    - specialize (Hlo (Z.of_nat k) ltac:(lia)). unfold p in Hlo. rewrite (Hget _ _ Hk) in Hlo. lia.
    - specialize (Hhi (Z.of_nat k) ltac:(unfold zlen; lia)). unfold p in Hhi. rewrite (Hget _ _ Hk) in Hhi. lia. }
  rewrite Hf. case_test.
  { replace (Z.to_nat r) with 0%nat by lia. done. }
  destruct (zget_Some c (r - 1) ltac:(lia)) as [v Ev]. rewrite Ev. cbn [mbind option_bind].
  destruct (zget_nat _ _ _ Ev) as (n & Hn & Hv). replace (Z.to_nat r) with (S n) by lia.
  rewrite (take_S_r _ _ _ Hv), last_snoc. done.
Qed.

Lemma visible_snoc at_ c v : at_ < committedAt v -> visible at_ (c ++ [v]) = visible at_ c.
Proof. intros H. unfold visible. rewrite filter_app, filter_cons_False by lia. by rewrite filter_nil, app_nil_r. Qed.

Lemma visible_all at_ c : (forall v, v ∈ c -> committedAt v <= at_) -> visible at_ c = content (last c).
Proof.
  intros H. unfold visible. f_equal. f_equal. induction c as [|v c IH]; [done|].
  rewrite filter_cons_True by (apply H; left). f_equal. apply IH. intros. apply H. by right.
Qed.

(** * Collection *)

Lemma keepFrom_spec r c : forall i keep,
  keepFrom r i keep c = keep \/ exists k v, keepFrom r i keep c = (i + k)%nat /\ c !! k = Some v /\ committedAt v <= r.
Proof.
  induction c as [|v c IH]; intros i keep; cbn; [by left|]. case_test; [|by left].
  destruct (IH (S i) i) as [->|(k & v' & -> & Hk & Hv)]; right.
  - exists 0%nat, v. split_and!; [lia|done|done].
  - exists (S k), v'. split_and!; [lia|done|done].
Qed.

Lemma last_drop {A} (l : list A) k x : l !! k = Some x -> last (drop k l) = last l.
Proof.
  intros H. rewrite <- (take_drop k l) at 2. rewrite last_app.
  destruct (last (drop k l)) eqn:E; [done|]. apply last_None in E.
  pose proof (lookup_lt_Some _ _ _ H) as Hlt. apply (f_equal length) in E. rewrite length_drop in E. cbn in E. lia.
Qed.

Lemma gc_last r c : last (gc_chain r c) = last c.
Proof.
  unfold gc_chain. destruct (keepFrom_spec r c 0 0) as [->|(k & v & -> & Hk & _)]; [done|]. by eapply last_drop.
Qed.

Lemma gc_visible r at_ c : r <= at_ -> visible at_ (gc_chain r c) = visible at_ c.
Proof.
  intros Hr. unfold gc_chain. destruct (keepFrom_spec r c 0 0) as [->|(k & v & -> & Hk & Hv)]; [done|].
  unfold visible. f_equal. rewrite <- (take_drop k c) at 2. rewrite filter_app, last_app. cbn [plus].
  destruct (last (filter _ (drop k c))) eqn:E; [done|]. apply last_None in E.
  rewrite (drop_S _ _ _ Hk), filter_cons_True in E by lia. done.
Qed.

Lemma gc_sub r c v : v ∈ gc_chain r c -> v ∈ c.
Proof. unfold gc_chain. intros [k Hk]%list_elem_of_lookup. rewrite lookup_drop in Hk. by eapply list_elem_of_lookup_2. Qed.

Lemma gc_ordered r c : ordered c -> ordered (gc_chain r c).
Proof.
  intros Ho i j vi vj Hi Hj Hij. unfold gc_chain in *. rewrite lookup_drop in *. eapply Ho; [exact Hi|exact Hj|lia].
Qed.

Lemma ordered_snoc c v : ordered c -> (forall x, x ∈ c -> committedAt x <= committedAt v) -> ordered (c ++ [v]).
Proof.
  intros Ho Hv i j vi vj Hi Hj Hij. apply lookup_app_Some in Hi as [Hi|[Hi1 Hi2]].
  - apply lookup_app_Some in Hj as [Hj|[Hj1 Hj2]]; [by eapply Ho|].
    apply list_lookup_singleton_Some in Hj2 as [_ <-]. apply Hv. by eapply list_elem_of_lookup_2.
  - apply list_lookup_singleton_Some in Hi2 as [Hi2 <-]. pose proof (lookup_lt_Some _ _ _ Hj) as Hlt. rewrite length_app in Hlt. cbn in Hlt.
    apply lookup_app_Some in Hj as [Hj|[Hj1 Hj2]]; [apply lookup_lt_Some in Hj; lia|].
    by apply list_lookup_singleton_Some in Hj2 as [_ <-].
Qed.

(** * The invariant of the versioned store *)

(** Every version was committed at or before [top], in order, and the index
    covers every version. *)
Record wf (top : Z) s : Prop := {
  wf_ordered : forall id, ordered (chain s id);
  wf_top : forall id v, v ∈ chain s id -> committedAt v <= top;
  wf_commit : commitIndex s <= top;
  wf_index : forall id v val, indexField s <> EmptyString -> v ∈ chain s id -> deleted v = false ->
    data v !! indexField s = Some val -> id ∈ mapget [] (index s) (sprint val)
}.

Lemma wf_mono top top' s : top <= top' -> wf top s -> wf top' s.
Proof. intros H [Ho Ht Hc Hi]. split; try done; [|lia]. intros id v Hv. specialize (Ht id v Hv). lia. Qed.

Lemma wf_new field : wf 0 (NewMVCCStore field).
Proof.
  assert (Hc : forall id, chain (NewMVCCStore field) id = []) by (intros; unfold chain, mapget; cbn; by rewrite lookup_empty).
  split; [|..]; try (intros id *); rewrite ?Hc; try done; try (by intros ?%not_elem_of_nil).
  - by intros _ ?%not_elem_of_nil.
Qed.

Lemma chain_insert c id id' ch ix f ci :
  chain (mkMVCC (<[id := c]> ch) ix f ci) id' = if decide (id' = id) then c else mapget [] ch id'.
Proof.
  unfold chain, mapget. cbn. destruct (decide (id' = id)) as [->|]; [by rewrite lookup_insert_eq|by rewrite lookup_insert_ne].
Qed.

Lemma chain_push id doc at_ del s id' :
  chain (push_version id doc at_ del s) id' =
  if decide (id' = id) then chain s id ++ [mkVersion (latestVersionLocked id s + 1) doc at_ del] else chain s id'.
Proof. apply chain_insert. Qed.

Lemma chain_add_index id doc s id' : chain (add_index id doc s) id' = chain s id'.
Proof. unfold add_index. case_bool_decide; [done|]. by destruct (doc !! indexField s). Qed.

Lemma field_add_index id doc s : indexField (add_index id doc s) = indexField s /\ commitIndex (add_index id doc s) = commitIndex s.
Proof. unfold add_index. case_bool_decide; [done|]. by destruct (doc !! indexField s). Qed.

(** The index only grows, and gets the new version. *)
Lemma index_add_index id doc s key id' :
  id' ∈ mapget [] (index s) key -> id' ∈ mapget [] (index (add_index id doc s)) key.
Proof.
  intros H. unfold add_index. case_bool_decide; [done|]. destruct (doc !! indexField s) as [val|]; [|done].
  unfold mapget in *. cbn. destruct (decide (sprint val = key)) as [<-|]; [|by rewrite lookup_insert_ne].
  rewrite lookup_insert_eq. cbn. apply elem_of_app. by left.
Qed.

Lemma index_add_index_new id doc s val :
  indexField s <> EmptyString -> doc !! indexField s = Some val -> id ∈ mapget [] (index (add_index id doc s)) (sprint val).
Proof.
  intros Hf Hd. unfold add_index. rewrite bool_decide_false, Hd by done. unfold mapget. cbn. rewrite lookup_insert_eq. cbn.
  apply elem_of_app. right. left.
Qed.

Lemma wf_push top id doc del s :
  wf top s -> (del = false -> forall val, indexField s <> EmptyString -> doc !! indexField s = Some val ->
                 id ∈ mapget [] (index s) (sprint val)) ->
  wf top (push_version id doc top del s).
Proof.
  intros [Ho Ht Hc Hi] Hn. split; cbn; try done.
  - intros id'. rewrite chain_push. case_decide as E; [|done]. apply ordered_snoc; [done|]. cbn. apply Ht.
  - intros id' v. rewrite chain_push. case_decide as E; [|apply Ht].
    intros [?|Hv]%elem_of_app; [by eapply Ht|]. by apply list_elem_of_singleton in Hv as ->.
  - intros id' v val Hf. rewrite chain_push. case_decide as E; [|by apply Hi].
    subst id'. intros [?|Hv]%elem_of_app; [by apply Hi|]. apply list_elem_of_singleton in Hv as ->. cbn. intros ->. by apply Hn.
Qed.

Lemma wf_ext top s s' :
  (forall id, chain s' id = chain s id) -> indexField s' = indexField s -> commitIndex s' <= top ->
  (forall key id, id ∈ mapget [] (index s) key -> id ∈ mapget [] (index s') key) -> wf top s -> wf top s'.
Proof.
  intros Hch Hf Hci Hix [Ho Ht _ Hi]. split; try done.
  - intros id. by rewrite Hch.
  - intros id v. rewrite Hch. apply Ht.
  - intros id v val. rewrite Hf, Hch. intros. eapply Hix, Hi; done.
Qed.

(** A put: the new version and then the index; seen together they keep the
    invariant. *)
Lemma wf_put top id doc s : wf top s -> wf top (add_index id doc (push_version id doc top false s)).
Proof.
  intros H. set (s1 := push_version id doc top false s).
  assert (Hcomm : wf top (push_version id doc top false (add_index id doc s))).
  { apply wf_push.
    - eapply wf_ext, H; [intros; apply chain_add_index|apply field_add_index| |intros; by apply index_add_index].
      destruct (field_add_index id doc s) as [_ ->]. apply (wf_commit _ _ H).
    - intros _ val. destruct (field_add_index id doc s) as [-> _]. intros. by apply index_add_index_new. }
  eapply wf_ext, Hcomm.
  - intros id'. rewrite chain_add_index. unfold s1. rewrite !chain_push. unfold latestVersionLocked. by rewrite !chain_add_index.
  - destruct (field_add_index id doc s1) as [-> _]. cbn. by destruct (field_add_index id doc s) as [-> _].
  - destruct (field_add_index id doc s1) as [_ ->]. apply (wf_commit _ _ H).
  - intros key id'. cbn. unfold add_index. cbn. case_bool_decide; [done|]. by destruct (doc !! indexField s).
Qed.

Lemma mutate_wf top m s r s' : wf top s -> mvcc_mutate top m s = (r, s') -> wf top s'.
Proof.
  intros H E. unfold mvcc_mutate in E. case_bool_decide.
  - destruct (unmarshal_document (Data m)); injection E as <- <-; [by apply wf_put|done].
  - case_bool_decide; injection E as <- <-; [|done]. by apply wf_push.
Qed.

Lemma commit_wf top muts : forall s r s', wf top s -> mvcc_commit top muts s = (r, s') -> wf top s'.
Proof.
  induction muts as [|m muts IH]; intros s r s' H E; cbn in E.
  - injection E as <- <-. by eapply wf_ext, H.
  - unfold mbind, M_bind in E. destruct (mvcc_mutate top m s) as [[]  s1] eqn:E1.
    + eapply IH; [|exact E]. by eapply mutate_wf.
    + injection E as <- <-. by eapply mutate_wf.
Qed.

Lemma apply_wf top idx muts s r s' : wf top s -> top <= idx -> ApplyTransaction muts idx s = (r, s') -> wf idx s'.
Proof.
  intros H Hle E. apply (wf_mono _ _ _ Hle) in H. unfold ApplyTransaction in E.
  destruct (validate _ muts); [by eapply commit_wf|by injection E as <- <-].
Qed.

Lemma chain_gc r s id : chain (GCBefore r s) id = gc_chain r (chain s id).
Proof. unfold chain, mapget. cbn. rewrite lookup_fmap. by destruct (chains s !! id). Qed.

Lemma gc_wf top r s : wf top s -> wf top (GCBefore r s).
Proof.
  intros [Ho Ht Hc Hi]. split; try done.
  - intros id. rewrite chain_gc. by apply gc_ordered.
  - intros id v. rewrite chain_gc. intros Hv%gc_sub. by eapply Ht.
  - intros id v val Hf. rewrite chain_gc. intros Hv%gc_sub. by apply Hi.
Qed.

(** * Histories *)

(** What happens to a store: a committed transaction, applied at its index, or a
    collection. *)
Inductive store_op := OpApply (muts : list Mutation) (idx : Z) | OpGC (r : Z).

Definition store_step (o : store_op) s : MVCCStore :=
  match o with
  | OpApply muts idx => snd (ApplyTransaction muts idx s)
  | OpGC r => GCBefore r s
  end.

Definition store_run (os : list store_op) s : MVCCStore := foldl (fun s o => store_step o s) s os.

(** Transactions come with increasing indexes above [top]. *)
Fixpoint increasing (top : Z) (os : list store_op) : Prop :=
  match os with
  | [] => True
  | OpApply _ idx :: os => top < idx /\ increasing idx os
  | OpGC _ :: os => increasing top os
  end.

(** The index of the last transaction. *)
Fixpoint top_of (top : Z) (os : list store_op) : Z :=
  match os with
  | [] => top
  | OpApply _ idx :: os => top_of idx os
  | OpGC _ :: os => top_of top os
  end.

Lemma store_run_cons o os s : store_run (o :: os) s = store_run os (store_step o s).
Proof. done. Qed.

Lemma store_run_wf os : forall top s, wf top s -> increasing top os -> wf (top_of top os) (store_run os s).
Proof.
  induction os as [|[muts idx|r] os IH]; intros top s H Hi; cbn in *; [done| |].
  - destruct Hi as [Hlt Hi]. apply (IH idx); [|done]. destruct (ApplyTransaction muts idx s) as [res s'] eqn:E.
    eapply apply_wf; [exact H| |exact E]. lia.
  - apply (IH top); [by apply gc_wf|done].
Qed.

Lemma increasing_app os1 os2 : forall top, increasing top (os1 ++ os2) <-> increasing top os1 /\ increasing (top_of top os1) os2.
Proof. induction os1 as [|[muts idx|r] os1 IH]; intros top; cbn; [tauto| |apply IH]. rewrite IH. tauto. Qed.

Lemma store_run_app os1 os2 s : store_run (os1 ++ os2) s = store_run os2 (store_run os1 s).
Proof. apply foldl_app. Qed.

Lemma mutate_field idx m s r s' : mvcc_mutate idx m s = (r, s') -> indexField s' = indexField s.
Proof.
  intros E. unfold mvcc_mutate in E. case_bool_decide.
  - destruct (unmarshal_document (Data m)); injection E as <- <-; [|done].
    by match goal with |- indexField (add_index ?a ?b ?c) = _ => destruct (field_add_index a b c) as [-> _] end.
  - case_bool_decide; by injection E as <- <-.
Qed.

Lemma commit_field idx muts : forall s r s', mvcc_commit idx muts s = (r, s') -> indexField s' = indexField s.
Proof.
  induction muts as [|m muts IH]; intros s r s' E; cbn in E; [by injection E as <- <-|].
  unfold mbind, M_bind in E. destruct (mvcc_mutate idx m s) as [[] s1] eqn:E1.
  - rewrite (IH _ _ _ E). by eapply mutate_field.
  - injection E as <- <-. by eapply mutate_field.
Qed.

(** The indexed field is fixed. *)
Lemma store_run_field os : forall s, indexField (store_run os s) = indexField s.
Proof.
  induction os as [|[muts idx|r] os IH]; intros s; [done| |]; rewrite store_run_cons, IH; [|done]. cbn. unfold ApplyTransaction.
  destruct (validate _ muts); [|done]. destruct (mvcc_commit idx muts s) as [r s'] eqn:E. by eapply commit_field.
Qed.

(** A transaction after [at_] is invisible at [at_]. *)
Lemma mutate_visible at_ idx m s r s' id :
  at_ < idx -> mvcc_mutate idx m s = (r, s') -> visible at_ (chain s' id) = visible at_ (chain s id).
Proof.
  intros Hlt E. unfold mvcc_mutate in E. case_bool_decide.
  - destruct (unmarshal_document (Data m)); injection E as <- <-; [|done].
    rewrite chain_add_index, chain_push. case_decide as Eid; [|done]. subst id. by apply visible_snoc.
  - case_bool_decide; injection E as <- <-; [|done]. rewrite chain_push. case_decide as Eid; [|done]. subst id. by apply visible_snoc.
Qed.

Lemma commit_visible at_ idx muts id : at_ < idx -> forall s r s',
  mvcc_commit idx muts s = (r, s') -> visible at_ (chain s' id) = visible at_ (chain s id).
Proof.
  intros Hlt. induction muts as [|m muts IH]; intros s r s' E; cbn in E; [by injection E as <- <-|].
  unfold mbind, M_bind in E. destruct (mvcc_mutate idx m s) as [[] s1] eqn:E1.
  - rewrite (IH _ _ _ E). by eapply mutate_visible.
  - injection E as <- <-. by eapply mutate_visible.
Qed.

Lemma apply_visible at_ idx muts s id :
  at_ < idx -> visible at_ (chain (snd (ApplyTransaction muts idx s)) id) = visible at_ (chain s id).
Proof.
  intros Hlt. unfold ApplyTransaction. destruct (validate _ muts); [|done].
  destruct (mvcc_commit idx muts s) as [r s'] eqn:E. by eapply commit_visible.
Qed.

(** Collections at or before [at_]. *)
Definition gc_within (at_ : Z) (o : store_op) : Prop := match o with OpGC r => r <= at_ | OpApply _ _ => True end.

Lemma run_visible at_ id os : forall top s,
  at_ <= top -> increasing top os -> Forall (gc_within at_) os ->
  visible at_ (chain (store_run os s) id) = visible at_ (chain s id).
Proof.
  induction os as [|[muts idx|r] os IH]; intros top s Hle Hi Hg; [done| |];
    apply Forall_cons in Hg as [Hg Hgs]; rewrite store_run_cons.
  - destruct Hi as [Hlt Hi]. rewrite (IH idx); [|lia|done|done]. apply apply_visible. lia.
  - rewrite (IH top); [|done|done|done]. cbn [store_step]. rewrite chain_gc. by apply gc_visible.
Qed.

(** * The two stores side by side *)

(** The versioned store's latest versions are the locked store's documents. *)
Definition same_docs s l : Prop :=
  forall id, latestVersionLocked id s = Version id l /\ content (last (chain s id)) = locked_Get id l.

Lemma same_docs_new field : same_docs (NewMVCCStore field) NewLockedStore.
Proof. intros id. unfold latestVersionLocked, chain, Version, mapget, locked_Get. cbn. by rewrite !lookup_empty. Qed.

Lemma latest_push id doc at_ del s id' :
  latestVersionLocked id' (push_version id doc at_ del s) =
  if decide (id' = id) then latestVersionLocked id s + 1 else latestVersionLocked id' s.
Proof. unfold latestVersionLocked at 1. rewrite chain_push. case_decide; [by rewrite last_snoc|done]. Qed.

Lemma same_docs_push id doc at_ del s l :
  same_docs s l ->
  same_docs (push_version id doc at_ del s)
    (mkLocked (if del then delete id (docs l) else <[id := doc]> (docs l)) (<[id := mapget 0 (version l) id + 1]> (version l))).
Proof.
  intros H id'. destruct (H id') as [Hv Hd]. rewrite latest_push, chain_push. unfold Version, locked_Get, mapget in *. cbn.
  case_decide as E.
  - subst id'. rewrite last_snoc, lookup_insert_eq. cbn. split; [by rewrite Hv|].
    destruct del; [by rewrite lookup_delete_eq|by rewrite lookup_insert_eq].
  - rewrite lookup_insert_ne by done. split; [done|]. destruct del; [by rewrite lookup_delete_ne|by rewrite lookup_insert_ne].
Qed.

Lemma same_docs_index id doc s l : same_docs s l -> same_docs (add_index id doc s) l.
Proof. intros H id'. unfold latestVersionLocked. rewrite chain_add_index. apply H. Qed.

Lemma mutate_same idx m s l r s' :
  same_docs s l -> mvcc_mutate idx m s = (r, s') -> exists l', locked_mutate m l = (r, l') /\ same_docs s' l'.
Proof.
  intros H E. unfold mvcc_mutate in E. unfold locked_mutate. case_bool_decide.
  - destruct (unmarshal_document (Data m)) as [doc|]; injection E as <- <-; [|by exists l].
    eexists. split; [done|]. by apply same_docs_index, (same_docs_push _ _ _ false).
  - case_bool_decide; injection E as <- <-; [|by exists l]. eexists. split; [done|]. by apply (same_docs_push _ _ _ true).
Qed.

Lemma commit_same idx muts : forall s l r s',
  same_docs s l -> mvcc_commit idx muts s = (r, s') -> exists l', locked_commit muts l = (r, l') /\ same_docs s' l'.
Proof.
  induction muts as [|m muts IH]; intros s l r s' H E; cbn in E.
  - injection E as <- <-. exists l. by split.
  - cbn. unfold mbind, M_bind in *. destruct (mvcc_mutate idx m s) as [r1 s1] eqn:E1.
    destruct (mutate_same _ _ _ _ _ _ H E1) as (l1 & -> & H1). destruct r1; [by eapply IH|].
    injection E as <- <-. by exists l1.
Qed.

Lemma validate_ext f g muts : (forall id, f id = g id) -> validate f muts = validate g muts.
Proof. intros H. induction muts as [|m muts IH]; cbn; [done|]. destruct (ExpectedVersion m); [|done]. by rewrite H, IH. Qed.

(** Both stores give the same answer to a transaction and stay alike, also when
    it fails. *)
Lemma apply_same idx muts s l :
  same_docs s l -> fst (ApplyTransaction muts idx s) = fst (locked_ApplyTransaction muts l) /\
    same_docs (snd (ApplyTransaction muts idx s)) (snd (locked_ApplyTransaction muts l)).
Proof.
  intros H. unfold ApplyTransaction, locked_ApplyTransaction.
  rewrite (validate_ext (fun id => latestVersionLocked id s) (fun id => mapget 0 (version l) id)) by apply H.
  destruct (validate _ muts); [|done]. destruct (mvcc_commit idx muts s) as [r s'] eqn:E.
  destruct (commit_same _ _ _ _ _ _ H E) as (l' & -> & H'). done.
Qed.

Lemma gc_same r s l : same_docs s l -> same_docs (GCBefore r s) l.
Proof. intros H id. unfold latestVersionLocked. rewrite chain_gc, gc_last. apply H. Qed.

End proofs.
