(* ===== verification/DocstoreTheorems.v ===== *)
(** The theorems about the document stores: snapshots do not move, the versioned
    store answers as the locked one, transactions are atomic when their documents
    decode, and queries are exact. *)
From S2P Require Import Prelude GoLib Files Cold Segment SegmentFormat Batch Value Docstore DocstoreProof.
#[local] Open Scope Z_scope.

Section theorems.
Context `{J : Json}.
Implicit Types (s : MVCCStore) (l : LockedStore).

(** A store and the index of its last transaction, from a history of it. *)
Lemma history_wf field h : increasing 0 h -> wf (top_of 0 h) (store_run h (NewMVCCStore field)).
Proof. intros H. apply (store_run_wf h 0); [apply wf_new|done]. Qed.

Lemma Get_visible top at_ id s : wf top s -> Get at_ id s = Some (visible at_ (chain s id)).
Proof. intros H. apply Get_spec, (wf_ordered _ _ H). Qed.

(** * Snapshots *)

(** C10: Snapshot stability.  A snapshot of a store with any history reads the same
    document under every id, whatever transactions commit afterwards and whatever
    is collected at or before the snapshot; reading never panics. *)
Theorem snapshot_stable field h later id :
  increasing 0 (h ++ later) ->
  let s := store_run h (NewMVCCStore field) in
  Forall (gc_within (Snapshot s)) later ->
  exists d, Get (Snapshot s) id s = Some d /\ Get (Snapshot s) id (store_run later s) = Some d.
Proof.
  intros Hi s Hg. apply increasing_app in Hi as [Hh Hl].
  pose proof (history_wf field h Hh) as Hw. fold s in Hw.
  exists (visible (Snapshot s) (chain s id)). split; [by eapply Get_visible|].
  rewrite (Get_visible _ _ _ _ (store_run_wf later _ s Hw Hl)). f_equal.
  apply (run_visible _ _ _ (top_of 0 h)); [apply (wf_commit _ _ Hw)|done|done].
Qed.

(** * The two stores *)

(** The same history on the locked store, which has nothing to collect. *)
Definition locked_step (o : store_op) l : LockedStore :=
  match o with OpApply muts _ => snd (locked_ApplyTransaction muts l) | OpGC _ => l end.
Definition locked_run (os : list store_op) l : LockedStore := foldl (fun l o => locked_step o l) l os.

(** What the transactions of a history answered. *)
Fixpoint answers (os : list store_op) s : list (res unit) :=
  match os with
  | [] => []
  | OpApply muts idx :: os => fst (ApplyTransaction muts idx s) :: answers os (store_step (OpApply muts idx) s)
  | OpGC r :: os => answers os (store_step (OpGC r) s)
  end.
Fixpoint locked_answers (os : list store_op) l : list (res unit) :=
  match os with
  | [] => []
  | OpApply muts idx :: os => fst (locked_ApplyTransaction muts l) :: locked_answers os (locked_step (OpApply muts idx) l)
  | OpGC r :: os => locked_answers os l
  end.

Lemma runs_same os : forall s l, same_docs s l ->
  answers os s = locked_answers os l /\ same_docs (store_run os s) (locked_run os l).
Proof.
  induction os as [|[muts idx|r] os IH]; intros s l H; [done| |].
  - destruct (apply_same idx muts s l H) as [Hr Hs]. destruct (IH _ _ Hs) as [Ha Hf]. cbn [answers locked_answers].
    split; [by f_equal|exact Hf].
  - apply (IH (GCBefore r s) l). by apply gc_same.
Qed.


(** * Transactions *)

(** Every document put by the transaction decodes. *)
Definition puts_decode (muts : list Mutation) : Prop :=
  Forall (fun m => Op m = "put"%string -> is_ok (unmarshal_document (Data m)) = true) muts.

(** The reference: what a sequence of mutations makes of a document, and how many
    of them change it. *)
Definition effect (m : Mutation) (id : string) (old : option Document) : option Document :=
  if bool_decide (ID m = id) then
    if bool_decide (Op m = "put"%string) then
      match unmarshal_document (Data m) with Ok doc => Some doc | Err _ => old end
    else if bool_decide (Op m = "delete"%string) then None else old
  else old.
Definition changes (m : Mutation) (id : string) : bool :=
  bool_decide (ID m = id) && (bool_decide (Op m = "put"%string) || bool_decide (Op m = "delete"%string)).

Definition effects (muts : list Mutation) (id : string) (old : option Document) : option Document :=
  foldl (fun d m => effect m id d) old muts.
Definition count_changes (muts : list Mutation) (id : string) : Z := zlen (filter (fun m => changes m id = true) muts).

Lemma mutate_effect idx m s r s' id :
  mvcc_mutate idx m s = (r, s') -> (Op m = "put"%string -> is_ok (unmarshal_document (Data m)) = true) ->
  r = Ok tt /\ content (last (chain s' id)) = effect m id (content (last (chain s id))) /\
  latestVersionLocked id s' = latestVersionLocked id s + if changes m id then 1 else 0.
Proof.
  intros E Hp. unfold mvcc_mutate in E. unfold effect, changes.
  assert (Hpush : forall doc del, content (last (chain (push_version (ID m) doc idx del s) id)) =
      (if bool_decide (ID m = id) then if del then None else Some doc else content (last (chain s id))) /\
    latestVersionLocked id (push_version (ID m) doc idx del s) =
      latestVersionLocked id s + if bool_decide (ID m = id) then 1 else 0).
  { clear. intros doc del. rewrite latest_push, chain_push. case_bool_decide as Eid.
    - subst id. rewrite !decide_True by done. rewrite last_snoc. by destruct del.
    - rewrite !decide_False by (by apply not_eq_sym). split; [done|lia]. }
  destruct (bool_decide (Op m = "put"%string)) eqn:Eput; bool_to_prop.
  - specialize (Hp Eput). destruct (unmarshal_document (Data m)) as [doc|]; [|done]. injection E as <- <-. split; [done|].
    unfold latestVersionLocked. rewrite chain_add_index. destruct (Hpush doc false) as [H1 H2]. unfold latestVersionLocked in H2. rewrite H1, H2.
    rewrite andb_true_r. by case_bool_decide.
  - destruct (bool_decide (Op m = "delete"%string)) eqn:Edel; injection E as <- <-; (split; [done|]).
    + destruct (Hpush ∅ true) as [H1 H2]. rewrite H1, H2, andb_true_r. by case_bool_decide.
    + rewrite andb_false_r, Z.add_0_r. by case_bool_decide.
Qed.

Lemma mutate_index idx m s r s' : mvcc_mutate idx m s = (r, s') -> commitIndex s' = commitIndex s.
Proof.
  unfold mvcc_mutate. case_bool_decide; [destruct (unmarshal_document (Data m)); intros [= <- <-]; [exact (proj2 (field_add_index _ _ _))|done]|].
  case_bool_decide; by intros [= <- <-].
Qed.

Lemma commit_effects idx id muts : forall s r s',
  mvcc_commit idx muts s = (r, s') -> puts_decode muts ->
  r = Ok tt /\ commitIndex s' = idx /\ content (last (chain s' id)) = effects muts id (content (last (chain s id))) /\
  latestVersionLocked id s' = latestVersionLocked id s + count_changes muts id.
Proof.
  induction muts as [|m muts IH]; intros s r s' E Hp; cbn in E.
  { injection E as <- <-. split_and!; try done. unfold count_changes. cbn. rewrite zlen_nil. unfold latestVersionLocked, chain. cbn. lia. }
  apply Forall_cons in Hp as [Hm Hp]. unfold mbind, M_bind in E. destruct (mvcc_mutate idx m s) as [r1 s1] eqn:E1.
  destruct (mutate_effect _ _ _ _ _ id E1 Hm) as (-> & Hc & Hv). destruct (IH _ _ _ E Hp) as (-> & Hi & Hc' & Hv').
  split_and!; [done|done|by rewrite Hc', Hc|]. rewrite Hv', Hv. unfold count_changes. rewrite filter_cons.
  destruct (changes m id) eqn:Ec; [rewrite decide_True by done; rewrite zlen_cons; lia|rewrite decide_False by congruence; lia].
Qed.

Lemma validate_ok f muts : validate f muts = Ok tt <->
  Forall (fun m => forall v, ExpectedVersion m = Some v -> f (ID m) = v) muts.
Proof.
  split.
  - induction muts as [|m muts IH]; cbn; intros H; constructor.
    + intros v Hv. rewrite Hv in H. by case_test_in H.
    + apply IH. destruct (ExpectedVersion m); [by case_test_in H|done].
  - induction 1 as [|m muts Hm _ IH]; cbn; [done|]. destruct (ExpectedVersion m) as [v|]; [|done].
    by rewrite (Hm v eq_refl), Z.eqb_refl.
Qed.

(** A document that does not decode ends the loop with what came before it done. *)
Lemma commit_stops idx id m after : forall before s r s',
  mvcc_commit idx (before ++ m :: after) s = (r, s') -> puts_decode before ->
  Op m = "put"%string -> is_ok (unmarshal_document (Data m)) = false ->
  is_ok r = false /\ commitIndex s' = commitIndex s /\
  content (last (chain s' id)) = effects before id (content (last (chain s id))) /\
  latestVersionLocked id s' = latestVersionLocked id s + count_changes before id.
Proof.
  induction before as [|m1 before IH]; intros s r s' E Hp Hput Hbad; cbn in E; unfold mbind, M_bind in E.
  { unfold mvcc_mutate in E. rewrite bool_decide_true in E by done. destruct (unmarshal_document (Data m)); [done|].
    injection E as <- <-. split_and!; try done. unfold count_changes. cbn. rewrite zlen_nil. lia. }
  apply Forall_cons in Hp as [Hm Hp]. destruct (mvcc_mutate idx m1 s) as [r1 s1] eqn:E1.
  destruct (mutate_effect _ _ _ _ _ id E1 Hm) as (-> & Hc & Hv). destruct (IH _ _ _ E Hp Hput Hbad) as (? & Hi & Hc' & Hv').
  split_and!; [done|by rewrite Hi, (mutate_index _ _ _ _ _ E1)|by rewrite Hc', Hc|].
  rewrite Hv', Hv. unfold count_changes. rewrite filter_cons.
  destruct (changes m1 id) eqn:Ec; [rewrite decide_True by done; rewrite zlen_cons; lia|rewrite decide_False by congruence; lia].
Qed.

(** The first document of a transaction that does not decode. *)
Lemma puts_split muts :
  puts_decode muts \/ exists before m after, muts = before ++ m :: after /\ puts_decode before /\
    Op m = "put"%string /\ is_ok (unmarshal_document (Data m)) = false.
Proof.
  induction muts as [|m muts [IH|(before & m' & after & -> & Hb & Hm & Hbad)]]; [by left; constructor| |].
  - destruct (decide (Op m = "put"%string)) as [Hput|Hput]; [|by left; constructor].
    destruct (is_ok (unmarshal_document (Data m))) eqn:E; [by left; constructor|]. right. by exists [], m, muts; repeat constructor.
  - destruct (decide (Op m = "put"%string)) as [Hput|Hput]; [|by right; exists (m :: before), m', after; repeat constructor].
    destruct (is_ok (unmarshal_document (Data m))) eqn:E; right;
      [by exists (m :: before), m', after; repeat constructor|by exists [], m, (before ++ m' :: after); repeat constructor].
Qed.

(** C19: What a transaction does, on every branch.  A precondition that does not
    hold against the state before it fails it and changes nothing.  Otherwise, when
    the documents decode, all its mutations take effect in order, become visible at
    its index, and count up the version of each document they change.  A document
    that does not decode fails it part-way: the mutations before that document
    have taken effect, and only the snapshot index is left behind. *)
Theorem transaction_atomic top muts idx s r s' :
  wf top s -> top <= idx -> ApplyTransaction muts idx s = (r, s') ->
  let met := Forall (fun m => forall v, ExpectedVersion m = Some v -> latestVersionLocked (ID m) s = v) muts in
  let does done := forall id, Get idx id s' = Some (effects done id (visible top (chain s id))) /\
    latestVersionLocked id s' = latestVersionLocked id s + count_changes done id in
  match r with
  | Ok _ => met /\ puts_decode muts /\ Snapshot s' = idx /\ does muts
  | Err _ => (~ met /\ s' = s) \/
      met /\ Snapshot s' = Snapshot s /\ exists before m after, muts = before ++ m :: after /\ puts_decode before /\
        Op m = "put"%string /\ is_ok (unmarshal_document (Data m)) = false /\ does before
  end.
Proof.
  intros Hw Hle E met does. pose proof (apply_wf _ _ _ _ _ _ Hw Hle E) as Hw'. unfold ApplyTransaction in E.
  assert (Hget : forall done id, content (last (chain s' id)) = effects done id (content (last (chain s id))) ->
    Get idx id s' = Some (effects done id (visible top (chain s id)))).
  { intros done id He. rewrite (Get_visible _ _ _ _ Hw'). f_equal.
    rewrite (visible_all idx) by apply (wf_top _ _ Hw'). by rewrite (visible_all top) by apply (wf_top _ _ Hw). }
  pose proof (validate_ok (fun id => latestVersionLocked id s) muts) as Hv. fold met in Hv.
  destruct (validate _ muts) as [[]|] eqn:Ev; [|injection E as <- <-; left; split; [by intros ?%Hv|done]].
  destruct (puts_split muts) as [Hp|(before & m & after & -> & Hb & Hm & Hbad)].
  - pose proof (fun id => commit_effects idx id muts s r s' E Hp) as Hc.
    destruct (Hc EmptyString) as (-> & Hi & _). split_and!; [by apply Hv|done|done|].
    intros id. destruct (Hc id) as (_ & _ & He & ?). split; [by apply Hget|done].
  - pose proof (fun id => commit_stops idx id m after before s r s' E Hb Hm Hbad) as Hc.
    destruct (Hc EmptyString) as (Hr & Hi & _). destruct r; [done|]. right. split_and!; [by apply Hv|done|].
    exists before, m, after. split_and!; try done. intros id. destruct (Hc id) as (_ & _ & He & ?). split; [by apply Hget|done].
Qed.

(** The documents of a store at an index are those of applying a transaction to
    its documents just before. *)
Definition applied_as (muts : list Mutation) (idx : Z) (s : MVCCStore) : Prop :=
  exists s0, wf (idx - 1) s0 /\
    forall id, Get (idx - 1) id s = Get (idx - 1) id s0 /\ Get idx id s = Get idx id (snd (ApplyTransaction muts idx s0)).

Lemma validate_unconditional f muts : Forall (fun m => ExpectedVersion m = None) muts -> validate f muts = Ok tt.
Proof. induction 1 as [|m muts H _ IH]; cbn; [done|]. by rewrite H. Qed.

Lemma applied_effects muts idx s id :
  applied_as muts idx s -> Forall (fun m => ExpectedVersion m = None) muts -> puts_decode muts ->
  exists old, Get (idx - 1) id s = Some old /\ Get idx id s = Some (effects muts id old).
Proof.
  intros (s0 & Hw & H) Hn Hp. destruct (H id) as [-> ->]. unfold ApplyTransaction. rewrite validate_unconditional by done.
  destruct (mvcc_commit idx muts s0) as [r s'] eqn:E. destruct (commit_effects idx id _ _ _ _ E Hp) as (_ & _ & He & _).
  assert (Hw' : wf idx s') by (eapply commit_wf, E; eapply wf_mono, Hw; lia).
  rewrite (Get_visible _ _ _ _ Hw). eexists. split; [done|]. cbn [snd]. rewrite (Get_visible _ _ _ _ Hw'). f_equal.
  rewrite (visible_all idx) by apply (wf_top _ _ Hw'). rewrite (visible_all (idx - 1)) by apply (wf_top _ _ Hw). done.
Qed.

(** * Queries *)

(** The document is there at [at_] and its indexed field prints as [val]. *)
Definition matches at_ val s id : Prop :=
  exists doc, visible at_ (chain s id) = Some doc /\ sprint_field (doc !! indexField s) = val.

Lemma query_spec top at_ val s cs : wf top s -> forall (seen : gset string) result,
  NoDup result -> (forall id, id ∈ result -> id ∈ seen) ->
  exists r, query at_ val s seen cs result = Some r /\ NoDup r /\
    forall id, id ∈ r <-> id ∈ result \/ (id ∈ cs /\ ~ (id ∈ seen) /\ matches at_ val s id).
Proof.
  intros Hw. induction cs as [|c cs IH]; intros seen result Hn Hs; cbn [query].
  { exists result. split_and!; [done|done|]. intros id. split; [by left|]. intros [?|[?%not_elem_of_nil _]]; done. }
  case_bool_decide as Hc.
  { destruct (IH seen result Hn Hs) as (r & -> & Hr & Hin). exists r. split_and!; [done|done|]. intros id. rewrite Hin, elem_of_cons.
    split; [tauto|]. intros [?|([->|?] & ? & ?)]; [by left|done|by right]. }
  rewrite (Get_visible _ _ _ _ Hw). cbn [mbind option_bind].
  assert (Hskip : ~ matches at_ val s c -> exists r, query at_ val s ({[c]} ∪ seen) cs result = Some r /\ NoDup r /\
    forall id, id ∈ r <-> id ∈ result \/ (id ∈ c :: cs /\ ~ (id ∈ seen) /\ matches at_ val s id)).
  { intros Hno. destruct (IH ({[c]} ∪ seen) result Hn) as (r & -> & Hr & Hin); [set_solver|].
    exists r. split_and!; [done|done|]. intros id. rewrite Hin, elem_of_cons, elem_of_union, elem_of_singleton.
    destruct (decide (id = c)) as [->|]; [|tauto]. split; [tauto|]. intros [?|(_ & _ & ?)]; [by left|done]. }
  destruct (visible at_ (chain s c)) as [doc|] eqn:Ev.
  2:{ apply Hskip. intros (doc & Hd & _). congruence. }
  case_bool_decide as Em.
  2:{ apply Hskip. intros (doc' & Hd & ?). congruence. }
  destruct (IH ({[c]} ∪ seen) (result ++ [c])) as (r & -> & Hr & Hin).
  { apply list.NoDup_app. split_and!; [done| |apply NoDup_singleton]. intros x Hx ->%list_elem_of_singleton. by apply Hs in Hx. }
  { intros id [?| ->%list_elem_of_singleton]%elem_of_app; set_solver. }
  exists r. split_and!; [done|done|]. intros id.
  rewrite Hin, elem_of_app, list_elem_of_singleton, elem_of_cons, elem_of_union, elem_of_singleton.
  destruct (decide (id = c)) as [->|]; [|tauto]. split; [intros _; right|tauto]. split_and!; [by left|done|by exists doc].
Qed.

Lemma scan_spec top at_ s ids : wf top s ->
  exists r, scan_ids at_ s ids = Some r /\ r = filter (fun id => is_Some (visible at_ (chain s id))) ids.
Proof.
  intros Hw. induction ids as [|id ids (r & E & ->)]; cbn [scan_ids]; [by eexists|].
  rewrite (Get_visible _ _ _ _ Hw), E. cbn [mbind option_bind]. eexists. split; [done|]. rewrite filter_cons.
  destruct (visible at_ (chain s id)); [by rewrite decide_True by eauto|rewrite decide_False; [done|]]. by intros [? ?].
Qed.

Lemma index_covers top at_ val s id :
  wf top s -> indexField s <> EmptyString -> val <> "<nil>"%string -> matches at_ val s id ->
  id ∈ mapget [] (index s) val.
Proof.
  intros Hw Hf Hv (doc & Hd & Hm). unfold visible in Hd. destruct (last _) as [v|] eqn:El; [|done]. cbn in Hd.
  destruct (deleted v) eqn:Edel; [done|]. injection Hd as <-.
  assert (Hin : v ∈ chain s id).
  { apply last_Some in El as [l' El]. assert (H : v ∈ filter (fun v => committedAt v <= at_) (chain s id)).
    { rewrite El. apply elem_of_app. right. left. }
    by apply list_elem_of_filter in H as [_ ?]. }
  unfold sprint_field in Hm. destruct (data v !! indexField s) as [x|] eqn:Ex; [|congruence].
  rewrite <- Hm. by eapply (wf_index _ _ Hw).
Qed.

(** The ids of exactly the documents that exist at a snapshot and satisfy [P]. *)
Definition ids_of (P : Document -> Prop) at_ s (ids : list string) : Prop :=
  NoDup ids /\ forall id, id ∈ ids <-> exists doc, Get at_ id s = Some (Some doc) /\ P doc.

Lemma Query_exact top at_ val s :
  wf top s -> indexField s <> EmptyString -> val <> "<nil>"%string ->
  exists r, QueryByIndex at_ val s = Some r /\ ids_of (fun doc => sprint_field (doc !! indexField s) = val) at_ s r.
Proof.
  intros Hw Hf Hv.
  destruct (query_spec _ at_ val s (mapget [] (index s) val) Hw ∅ []) as (r & E & Hn & Hr); [constructor|by intros id ?%not_elem_of_nil|].
  exists r. split; [done|]. split; [done|]. intros id. rewrite Hr.
  assert (HG : (exists doc, Get at_ id s = Some (Some doc) /\ sprint_field (doc !! indexField s) = val) <-> matches at_ val s id).
  { rewrite (Get_visible _ _ _ _ Hw). by setoid_rewrite (inj_iff Some). }
  rewrite HG. split; [by intros [?%not_elem_of_nil|(_ & _ & ?)]|]. intros Hm. right. split_and!; [|set_solver|done].
  by eapply index_covers.
Qed.

Lemma Scan_exact top at_ s : wf top s -> exists r, Scan at_ s = Some r /\ ids_of (fun _ => True) at_ s r.
Proof.
  intros Hw. destruct (scan_spec _ at_ s (map fst (map_to_list (chains s))) Hw) as (r & E & ->). eexists. split; [exact E|].
  split; [apply list.NoDup_filter, NoDup_fst_map_to_list|]. intros id. rewrite list_elem_of_filter, (Get_visible _ _ _ _ Hw).
  split; [intros [[doc Hd] _]; exists doc; by rewrite Hd|]. intros (doc & [= Hd] & _). split; [by rewrite Hd|].
  destruct (chains s !! id) as [c|] eqn:Ec.
  - apply list_elem_of_fmap. exists (id, c). split; [done|]. by apply elem_of_map_to_list.
  - unfold visible, chain, mapget in Hd. by rewrite Ec in Hd.
Qed.

(** C25: Exact queries.  On a store with any history, [QueryByIndex] at any
    snapshot returns, once each, exactly the documents that exist at the snapshot
    and whose indexed field prints as the value asked for, though the index
    itself is neither versioned nor pruned; [Scan] returns, once each, exactly
    the documents that exist.  (The text [<nil>], which a missing field prints
    as, is not a value to ask for.) *)
Theorem queries_exact field h at_ val :
  increasing 0 h -> field <> EmptyString -> val <> "<nil>"%string ->
  let s := store_run h (NewMVCCStore field) in
  (exists r, QueryByIndex at_ val s = Some r /\ ids_of (fun doc => sprint_field (doc !! field) = val) at_ s r) /\
  (exists r, Scan at_ s = Some r /\ ids_of (fun _ => True) at_ s r).
Proof.
  intros Hh Hf Hv s. pose proof (history_wf field h Hh) as Hw. fold s in Hw.
  assert (Hfield : indexField s = field) by apply store_run_field. split; [|by eapply Scan_exact].
  rewrite <- Hfield in Hf |- *. by eapply Query_exact.
Qed.

End theorems.

(** * A codec to run the stores with

    The documents have texts as fields.  A document is written as a batch of a
    key and a text per field, a transaction as a batch of four byte strings per
    mutation. *)

Definition plain_gzip : Gzip := {| compress b := b; decompress b := Ok b |}.
#[local] Existing Instance plain_gzip.

Definition string_of_bytes (b : bytes) : string := String.string_of_list_byte b.

Lemma string_of_bytes_of_string t : string_of_bytes (bytes_of_string t) = t.
Proof. apply String.string_of_list_byte_of_string. Qed.

Definition version_bytes (o : option Z) : bytes := match o with None => [] | Some v => PutUint32 v end.
Definition version_of_bytes (b : bytes) : option Z := match b with [] => None | _ => Some (Uint32 b) end.
Definition small_version (o : option Z) : bool := match o with None => true | Some v => (0 <=? v) && (v <? 2 ^ 32) end.

Definition fields (m : Mutation) : list bytes :=
  [bytes_of_string (Op m); bytes_of_string (ID m); Data m; version_bytes (ExpectedVersion m)].

Fixpoint unfields (fs : list bytes) : res (list Mutation) :=
  match fs with
  | [] => Ok []
  | op :: id :: d :: v :: fs =>
      ms ← unfields fs; Ok (mkMutation (string_of_bytes op) (string_of_bytes id) d (version_of_bytes v) :: ms)
  | _ => Err "json: unexpected end"
  end.

(** What one batch can hold. *)
Definition fit (fs : list bytes) : bool := forallb (fun f => zlen f <? 2 ^ 32) fs && (zlen fs <? 2 ^ 32).

Definition writable (ms : list Mutation) : bool :=
  forallb (fun m => small_version (ExpectedVersion m)) ms && fit (concat (map fields ms)).

Definition text_of (v : value) : string := match v with VString t => t | _ => EmptyString end.
Definition is_text (v : value) : bool := match v with VString _ => true | _ => false end.

Definition pairs (l : list (string * value)) : list bytes :=
  concat (map (fun '(k, v) => [bytes_of_string k; bytes_of_string (text_of v)]) l).

Fixpoint unpairs (fs : list bytes) : res (list (string * value)) :=
  match fs with
  | [] => Ok []
  | k :: t :: fs => l ← unpairs fs; Ok ((string_of_bytes k, VString (string_of_bytes t)) :: l)
  | _ => Err "json: unexpected end"
  end.

Definition marshal_texts (doc : Document) : res bytes :=
  let l := map_to_list doc in
  if forallb (fun '(_, v) => is_text v) l && fit (pairs l) then Ok (Encode (pairs l)) else Err "json: unsupported value".

Definition unmarshal_texts (b : bytes) : res Document :=
  match TryDecode b with
  | Some (Batch fs) => l ← unpairs fs; Ok (list_to_map l)
  | _ => Err "json: not a document"
  end.

Definition toy_json : Json := {|
  sprint v := match v with VString t => t | _ => "<nil>"%string end;
  unmarshal_document := unmarshal_texts;
  marshal_document := marshal_texts;
  marshal_mutations ms := if writable ms then Ok (Encode (concat (map fields ms))) else Err "json: too large";
  unmarshal_mutations b := match TryDecode b with Some (Batch fs) => unfields fs | _ => Err "json: not a transaction" end
|}.

Lemma unfields_fields ms :
  forallb (fun m => small_version (ExpectedVersion m)) ms = true -> unfields (concat (map fields ms)) = Ok ms.
Proof.
  induction ms as [|[op id d v] ms IH]; [done|]. intros [Hv Hms]%andb_true_iff. specialize (IH Hms).
  cbn [map concat fields app unfields Op ID Data ExpectedVersion]. rewrite IH. cbn [mbind res_bind].
  rewrite !string_of_bytes_of_string. destruct v as [v|]; cbn [version_bytes small_version ExpectedVersion] in *; [|done].
  change (version_of_bytes (PutUint32 v)) with (Some (Uint32 (PutUint32 v))). rewrite Uint32_Put, u32_small by lia. done.
Qed.

Lemma unpairs_pairs l : forallb (fun '(_, v) => is_text v) l = true -> unpairs (pairs l) = Ok l.
Proof.
  induction l as [|[k v] l IH]; [done|]. intros [Hv Hl]%andb_true_iff. specialize (IH Hl).
  unfold pairs in *. cbn [map concat app unpairs]. rewrite IH. cbn [mbind res_bind].
  rewrite !string_of_bytes_of_string. by destruct v.
Qed.

Lemma TryDecode_fit fs : fit fs = true -> TryDecode (Encode fs) = Some (Batch fs).
Proof.
  intros [Hs Hl%Z.ltb_lt]%andb_true_iff. unfold Encode. apply (TryDecode_body _ fs []); [|done|by rewrite app_nil_r].
  apply list.Forall_forall. intros f Hf. rewrite forallb_forall in Hs. apply list_elem_of_In in Hf. apply Hs in Hf. lia.
Qed.

Lemma unmarshal_marshal_texts doc b : marshal_texts doc = Ok b -> unmarshal_texts b = Ok doc.
Proof.
  unfold marshal_texts, unmarshal_texts. destruct (_ && _) eqn:E; [|done]. apply andb_true_iff in E as [Ht Hf]. intros [= <-].
  rewrite (TryDecode_fit _ Hf), (unpairs_pairs _ Ht). cbn [mbind res_bind]. f_equal. apply list_to_map_to_list.
Qed.

Lemma toy_json_ok : @JsonOk toy_json.
Proof.
  split; cbn [marshal_document unmarshal_document marshal_mutations unmarshal_mutations toy_json].
  - intros b0 doc key text b _ _ _. apply unmarshal_marshal_texts.
  - intros doc b E%unmarshal_marshal_texts. by exists doc.
  - intros ms b _. destruct (writable ms) eqn:E; [|done]. intros [= <-].
    apply andb_true_iff in E as [Hv Hf]. exists ms. split.
    + rewrite (TryDecode_fit _ Hf). by apply unfields_fields.
    + apply Forall2_same_length_lookup_2; [done|]. intros i x y Hx Hy. rewrite Hx in Hy. injection Hy as <-. done.
Qed.

#[local] Existing Instance toy_json.

Definition named (name : string) : bytes := match marshal_texts {["name"%string := VString name]} with Ok b => b | Err _ => [] end.
Definition put_ (id name : string) (v : option Z) : Mutation := mkMutation "put" id (named name) v.
Definition del_ (id : string) : Mutation := mkMutation "delete" id [] None.

(** A history with a failed precondition, a deletion and a collection. *)
Definition doc_history : list store_op :=
  [OpApply [put_ "a" "ann" None; put_ "b" "bob" None] 1; OpApply [put_ "a" "amy" (Some 7)] 2;
   OpApply [put_ "a" "amy" (Some 1); del_ "b"] 3; OpGC 2].
Definition doc_later : list store_op := [OpApply [put_ "a" "zoe" (Some 2)] 5; OpGC 3; OpApply [del_ "a"] 6].

Lemma snapshot_stable_witness :
  let s := store_run doc_history (NewMVCCStore "name") in
  exists d, Get (Snapshot s) "a" s = Some d /\ Get (Snapshot s) "a" (store_run doc_later s) = Some d.
Proof.
  apply (snapshot_stable "name" doc_history doc_later "a"); [unfold doc_history, doc_later; cbn [app increasing]; lia|].
  unfold doc_later. repeat constructor. vm_compute. discriminate.
Defined.


Lemma transaction_atomic_witness :
  let s := store_run doc_history (NewMVCCStore "name") in
  let muts := [put_ "a" "ada" (Some 2); put_ "c" "cid" (Some 0)] in
  let spoilt := [put_ "a" "ada" (Some 2); mkMutation "put" "c" [] None] in
  wf 3 s /\ Get 4 "a" (snd (ApplyTransaction muts 4 s)) = Some (effects muts "a" (visible 3 (chain s "a"))) /\
  Snapshot (snd (ApplyTransaction spoilt 4 s)) = 3.
Proof.
  assert (Hw : wf 3 (store_run doc_history (NewMVCCStore "name"))) by (apply (history_wf "name" doc_history); unfold doc_history; cbn [increasing]; lia).
  split; [exact Hw|]. split.
  - destruct (ApplyTransaction [put_ "a" "ada" (Some 2); put_ "c" "cid" (Some 0)] 4 (store_run doc_history (NewMVCCStore "name"))) as [r s'] eqn:E.
    pose proof (transaction_atomic 3 [put_ "a" "ada" (Some 2); put_ "c" "cid" (Some 0)] 4 _ r s' Hw ltac:(lia) E) as H.
    assert (Hr : r = Ok tt) by (change r with (fst (r, s')); rewrite <- E; vm_compute; reflexivity).
    rewrite Hr in H. destruct H as (_ & _ & _ & H). apply H.
  - destruct (ApplyTransaction [put_ "a" "ada" (Some 2); mkMutation "put" "c" [] None] 4 (store_run doc_history (NewMVCCStore "name"))) as [r s'] eqn:E.
    pose proof (transaction_atomic 3 [put_ "a" "ada" (Some 2); mkMutation "put" "c" [] None] 4 _ r s' Hw ltac:(lia) E) as H.
    assert (Hr : is_ok r = false) by (change r with (fst (r, s')); rewrite <- E; vm_compute; reflexivity).
    destruct r as [|e]; [discriminate Hr|]. destruct H as [[Hmet _]|(_ & Hs & _)].
    + exfalso. apply Hmet. repeat constructor; cbn; intros v [= <-]; vm_compute; reflexivity.
    + cbn [snd]. rewrite Hs. vm_compute. reflexivity.
Defined.

Lemma queries_exact_witness :
  let s := store_run doc_history (NewMVCCStore "name") in
  exists r, QueryByIndex 3 "amy" s = Some r /\ ids_of (fun doc => sprint_field (doc !! "name"%string) = "amy"%string) 3 s r.
Proof.
  assert (H : increasing 0 doc_history) by (unfold doc_history; cbn [increasing]; lia).
  exact (proj1 (queries_exact "name" doc_history 3 "amy" H ltac:(discriminate) ltac:(discriminate))).
Defined.
