(* ===== verification/DocReplica.v ===== *)
(** Replicated document stores ([docstore/replicated.go],
    [docstore/replicated_locked.go]): every replica logs the transactions its
    Raft peer delivers in a storage log and applies them to its document store.

    The two files have the same text up to the store, so [Docs] and its
    operations are written once over the store and its [ApplyTransaction].  The
    loop body is one step of the replica: its three critical sections touch the
    log, the store and the index in turn, and only this goroutine writes them,
    except for [GCBefore], which is a step of its own. *)
From S2P Require Import Prelude GoLib Files Cold Segment SegmentFormat SegmentProof SegmentLog LogProof LogLifecycle LogRecover LogRefine Batch.
From S2P Require Import Raft RaftCluster RaftLog RaftInv RaftSteps RaftHandlers RaftSafety RaftTheorems Replica.
From S2P Require Import Value Docstore DocstoreProof DocstoreTheorems.
#[local] Open Scope Z_scope.

Record Docs (C Store : Type) := mkDocs {
  wal : Log;
  walEnv : Env C;
  store : Store;
  lastAppliedRaftIndex : Z
}.
Arguments mkDocs {C Store} wal walEnv store lastAppliedRaftIndex.
Arguments wal {C Store} d.
Arguments walEnv {C Store} d.
Arguments store {C Store} d.
Arguments lastAppliedRaftIndex {C Store} d.

(** The bytes of a delivered command, if it has any. *)
Definition payload (msg : ApplyMsg) : option bytes :=
  if CommandValid msg then match MsgCommand msg with Some (CBytes p) => Some p | _ => None end else None.

Section docs.
Context {C : Type} `{CS : ColdStore C} `{J : Json}.

Section store.
Context {Store : Type} (new : Store) (applyTx : list Mutation -> Z -> Store -> Store).

(** The constructors; the peer is one of [init]. *)
Definition NewDocs (e : Env C) : res (Docs C Store) :=
  match Open 0 e with
  | (Err _, _) => Err "open wal"
  | (Ok l, e) => Ok (mkDocs l e new 0)
  end.

(** The body of [applyLoop]; the results of [Append] and of [ApplyTransaction] are
    dropped. *)
Definition applyDoc (msg : ApplyMsg) (ds : Docs C Store) : option (Docs C Store) :=
  if negb (CommandValid msg) then Some ds
  else
    match MsgCommand msg with
    | Some (CBytes p) =>
        let '(_, (l, e)) := Append p (wal ds, walEnv ds) in
        let s := match DecodeTransaction p with
                 | Ok muts => applyTx muts (CommandIndex msg) (store ds)
                 | Err _ => store ds
                 end in
        Some (mkDocs l e s (CommandIndex msg))
    | _ => Some ds
    end.

(** [Propose] at replica [i]; [None] is a panic. *)
Definition Propose (ps : list Z) (chanCap : nat) (i : Z) (muts : list Mutation) (w : @RepWorld (Docs C Store))
    : option (res (Z * bool) * @RepWorld (Docs C Store)) :=
  match EncodeTransaction muts with
  | Err e => Some (Err e, w)
  | Ok blob =>
      '(idx, _, isLeader, w) ← Submit applyDoc ps chanCap (Some (CBytes blob)) i w;
      Some (Ok (idx, isLeader), w)
  end.

Definition CloseWal (ds : Docs C Store) : res unit * Docs C Store :=
  let '(r, (l, e)) := CloseLog (wal ds, walEnv ds) in (r, mkDocs l e (store ds) (lastAppliedRaftIndex ds)).
Definition CloseDocs (ps : list Z) (chanCap : nat) : Z -> @RepWorld (Docs C Store) -> _ := Shutdown applyDoc ps chanCap CloseWal.

End store.

Definition mvcc_tx (muts : list Mutation) (idx : Z) (s : MVCCStore) : MVCCStore := snd (ApplyTransaction muts idx s).
Definition locked_tx (muts : list Mutation) (idx : Z) (s : LockedStore) : LockedStore := snd (locked_ApplyTransaction muts s).

Definition NewReplicatedDocStore (indexField : string) : Env C -> res (Docs C MVCCStore) := NewDocs (NewMVCCStore indexField).
Definition NewReplicatedLockedDocStore : Env C -> res (Docs C LockedStore) := NewDocs NewLockedStore.

Definition applyMVCC : ApplyMsg -> Docs C MVCCStore -> option (Docs C MVCCStore) := applyDoc mvcc_tx.
Definition applyLocked : ApplyMsg -> Docs C LockedStore -> option (Docs C LockedStore) := applyDoc locked_tx.

Definition DocState : Z -> @RepWorld (Docs C MVCCStore) -> Z * bool := PeerState.
Definition DocWaitApplied : list Z -> nat -> list (list Action) -> Z -> Z -> Z -> @RepWorld (Docs C MVCCStore) -> _ :=
  WaitApplied applyMVCC lastAppliedRaftIndex.
Definition DocSnapshot (ds : Docs C MVCCStore) : Z := Snapshot (store ds).
Definition DocGCBefore (r : Z) (ds : Docs C MVCCStore) : Docs C MVCCStore :=
  mkDocs (wal ds) (walEnv ds) (GCBefore r (store ds)) (lastAppliedRaftIndex ds).

(** The operations of the locked store that go to its peer. *)
Definition LockedPropose : list Z -> nat -> Z -> list Mutation -> @RepWorld (Docs C LockedStore) -> _ := Propose locked_tx.
Definition LockedState : Z -> @RepWorld (Docs C LockedStore) -> Z * bool := PeerState.
Definition LockedWaitApplied : list Z -> nat -> list (list Action) -> Z -> Z -> Z -> @RepWorld (Docs C LockedStore) -> _ :=
  WaitApplied applyLocked lastAppliedRaftIndex.
Definition LockedClose : list Z -> nat -> Z -> @RepWorld (Docs C LockedStore) -> _ := CloseDocs locked_tx.
Definition LockedDocGet (id : string) (ds : Docs C LockedStore) : option Document := locked_Get id (store ds).

(** The two kinds of replica do the same with the same messages. *)
Definition mirrors (dl : Docs C LockedStore) (dm : Docs C MVCCStore) : Prop :=
  same_docs (store dm) (store dl) /\ wal dl = wal dm /\ walEnv dl = walEnv dm /\ lastAppliedRaftIndex dl = lastAppliedRaftIndex dm.

Lemma mirrors_apply m dl dm : mirrors dl dm ->
  exists dl' dm', applyLocked m dl = Some dl' /\ applyMVCC m dm = Some dm' /\ mirrors dl' dm'.
Proof.
  intros H. pose proof H as (Hs & Hw & He & Hl). unfold applyLocked, applyMVCC, applyDoc. rewrite Hw, He.
  destruct (CommandValid m); [|by exists dl, dm]. destruct (MsgCommand m) as [[p|c]|]; [|by exists dl, dm..]. cbn [negb].
  destruct (Append p (wal dm, walEnv dm)) as [r [l e]]. do 2 eexists. split; [done|]. split; [done|]. split_and!; try done.
  cbn. destruct (DecodeTransaction p) as [muts|]; [|done]. by apply apply_same.
Qed.

Lemma mirrors_applies ms : forall dl dm, mirrors dl dm ->
  exists dl' dm', applies applyLocked ms dl = Some dl' /\ applies applyMVCC ms dm = Some dm' /\ mirrors dl' dm'.
Proof.
  induction ms as [|m ms IH]; intros dl dm H; [by exists dl, dm|]. cbn.
  destruct (mirrors_apply m dl dm H) as (dl1 & dm1 & -> & -> & H1). cbn. by apply IH.
Qed.

(** * What a replica holds, from the messages it consumed *)

(** The history of transactions some messages stand for. *)
Definition tx_of (m : ApplyMsg) : option store_op :=
  p ← payload m; match DecodeTransaction p with Ok muts => Some (OpApply muts (CommandIndex m)) | Err _ => None end.
Definition txs (ms : list ApplyMsg) : list store_op := omap tx_of ms.

Definition last_idx (top : Z) (ms : list ApplyMsg) : Z :=
  foldl (fun t m => match payload m with Some _ => CommandIndex m | None => t end) top ms.

(** The log after appending payloads, whatever the calls return. *)
Definition logged (ps : list bytes) (st : Log * Env C) : Log * Env C := foldl (fun st p => snd (Append p st)) st ps.

Definition is_apply (o : store_op) : bool := match o with OpApply _ _ => true | OpGC _ => false end.

Lemma txs_app ms1 ms2 : txs (ms1 ++ ms2) = txs ms1 ++ txs ms2.
Proof. apply omap_app. Qed.

Lemma txs_is_apply ms : Forall (fun o => is_apply o = true) (txs ms).
Proof.
  apply list.Forall_forall. intros o (m & _ & Hm)%list_elem_of_omap. unfold tx_of in Hm.
  destruct (payload m); [|done]. cbn in Hm. destruct (DecodeTransaction _); [|done]. by injection Hm as <-.
Qed.

Lemma rising_le ms top top' : top <= top' -> rising top' ms -> rising top ms.
Proof. destruct ms; cbn; [done|]. intros ? []. split; [lia|done]. Qed.

Lemma rising_txs ms : forall top, rising top ms -> increasing top (txs ms).
Proof.
  induction ms as [|m ms IH]; intros top; cbn; [done|]. intros [Ht Hr].
  assert (Hle : rising top ms) by (eapply rising_le, Hr; lia). unfold tx_of at 1.
  destruct (payload m) as [p|]; cbn; [|by apply IH]. destruct (DecodeTransaction p); [|by apply IH]. split; [done|by apply IH].
Qed.

Lemma rising_last ms1 : forall top ms2, rising top (ms1 ++ ms2) -> rising (last_idx top ms1) ms2.
Proof.
  induction ms1 as [|m ms1 IH]; intros top ms2; cbn; [done|]. intros [Ht Hr]. apply IH.
  destruct (payload m); [done|]. eapply rising_le, Hr. lia.
Qed.

Lemma top_of_mono os : forall top top', top <= top' -> top_of top os <= top_of top' os.
Proof. induction os as [|[muts idx|r] os IH]; intros top top' H; cbn; [done|done|by apply IH]. Qed.

Lemma top_last ms : forall top, rising top ms -> top_of top (txs ms) <= last_idx top ms /\ top <= last_idx top ms.
Proof.
  induction ms as [|m ms IH]; intros top; cbn; [lia|]. intros [Ht Hr]. unfold tx_of at 1.
  assert (Hle : rising top ms) by (eapply rising_le, Hr; lia). destruct (payload m) as [p|]; cbn; [|by apply IH].
  destruct (IH _ Hr) as [H1 H2]. unfold last_idx in *. destruct (DecodeTransaction p); cbn; [split; [exact H1|lia]|].
  split; [|lia]. etransitivity; [|exact H1].
  apply top_of_mono. lia.
Qed.

Lemma increasing_filter h : forall top, increasing top (filter (fun o => is_apply o = true) h) <-> increasing top h.
Proof.
  induction h as [|[muts idx|r] h IH]; intros top; [done|rewrite filter_cons_True by done|rewrite filter_cons_False by done]; cbn.
  - by rewrite IH.
  - apply IH.
Qed.

Lemma top_of_filter h : forall top, top_of top (filter (fun o => is_apply o = true) h) = top_of top h.
Proof.
  induction h as [|[muts idx|r] h IH]; intros top; [done|rewrite filter_cons_True by done|rewrite filter_cons_False by done]; apply IH.
Qed.

(** * Collection below a horizon

    Two stores that differ only in versions collected at or below [horizon]. *)

Section horizon.
Context (horizon : Z).

Record alike (s s' : MVCCStore) : Prop := {
  al_last : forall id, last (chain s id) = last (chain s' id);
  al_vis : forall id at_, horizon <= at_ -> visible at_ (chain s id) = visible at_ (chain s' id);
  al_field : indexField s = indexField s'
}.

Lemma alike_refl s : alike s s.
Proof. by split. Qed.

Lemma alike_latest s s' id : alike s s' -> latestVersionLocked id s = latestVersionLocked id s'.
Proof. intros H. unfold latestVersionLocked. by rewrite (al_last _ _ H). Qed.

Lemma visible_push at_ c v :
  visible at_ (c ++ [v]) = if decide (committedAt v <= at_) then content (Some v) else visible at_ c.
Proof.
  unfold visible. rewrite filter_app, filter_cons, filter_nil. case_decide; [by rewrite last_snoc|by rewrite app_nil_r].
Qed.

Lemma alike_push id doc at_ del s s' : alike s s' -> alike (push_version id doc at_ del s) (push_version id doc at_ del s').
Proof.
  intros H. pose proof (alike_latest _ _ id H) as Hl. destruct H as [H1 H2 H3]. split; [| |done].
  - intros id'. rewrite !chain_push, Hl. case_decide; [by rewrite !last_snoc|done].
  - intros id' a Ha. rewrite !chain_push, Hl. case_decide; [|by apply H2].
    rewrite !visible_push. case_decide; [done|by apply H2].
Qed.

Lemma alike_index id doc s s' : alike s s' -> alike (add_index id doc s) (add_index id doc s').
Proof.
  intros [H1 H2 H3]. split; intros; rewrite ?chain_add_index; [done|by apply H2|].
  destruct (field_add_index id doc s) as [-> _], (field_add_index id doc s') as [-> _]. done.
Qed.

Lemma alike_mutate idx m s s' : alike s s' ->
  fst (mvcc_mutate idx m s) = fst (mvcc_mutate idx m s') /\ alike (snd (mvcc_mutate idx m s)) (snd (mvcc_mutate idx m s')).
Proof.
  intros H. unfold mvcc_mutate. case_bool_decide.
  - destruct (unmarshal_document (Data m)); (split; [done|]); [by apply alike_index, alike_push|done].
  - case_bool_decide; (split; [done|]); [by apply alike_push|done].
Qed.

Lemma alike_commit idx muts : forall s s', alike s s' -> alike (snd (mvcc_commit idx muts s)) (snd (mvcc_commit idx muts s')).
Proof.
  induction muts as [|m muts IH]; intros s s' H; cbn; [by destruct H|]. unfold mbind, M_bind.
  destruct (alike_mutate idx m s s' H) as [E H1].
  destruct (mvcc_mutate idx m s) as [r s1], (mvcc_mutate idx m s') as [r' s1']. cbn in E, H1. subst r'.
  destruct r; [by apply IH|done].
Qed.

Lemma alike_apply muts idx s s' : alike s s' -> alike (snd (ApplyTransaction muts idx s)) (snd (ApplyTransaction muts idx s')).
Proof.
  intros H. unfold ApplyTransaction. rewrite (validate_ext _ (fun id => latestVersionLocked id s')) by (intros; by apply alike_latest).
  destruct (validate _ muts); [by apply alike_commit|done].
Qed.

Lemma alike_gc r s s' : r <= horizon -> alike s s' -> alike (GCBefore r s) s'.
Proof.
  intros Hr [H1 H2 H3]. split; intros; rewrite ?chain_gc, ?gc_last, ?gc_visible by lia; [done|by apply H2|done].
Qed.

(** Collections below the horizon do not show at or above it. *)
Lemma alike_run h : forall s s', alike s s' -> Forall (gc_within horizon) h ->
  alike (store_run h s) (store_run (filter (fun o => is_apply o = true) h) s').
Proof.
  induction h as [|[muts idx|r] h IH]; intros s s' H Hg; [done| |]; apply Forall_cons in Hg as [Hg Hgs]; rewrite store_run_cons.
  - rewrite filter_cons_True, store_run_cons by done. apply IH; [by apply alike_apply|done].
  - rewrite filter_cons_False by done. apply IH; [by apply alike_gc|done].
Qed.

(** * The group of replicas *)

Context `{CSO : !ColdStoreOk C} (ps : list Z) (chanCap : nat) (start : Z -> Docs C MVCCStore) (field : string).

(** An action of the group, or a collection at some replica. *)
Inductive dstep : @RepWorld (Docs C MVCCStore) -> @RepWorld (Docs C MVCCStore) -> Prop :=
| d_exec a w w' : rexec applyMVCC ps chanCap a w = RNext w' -> dstep w w'
| d_gc i r w : r <= horizon -> dstep w (mkRep (group w) (upd (replica w) i (DocGCBefore r (replica w i)))).

Definition dreachable w : Prop := exists draw, rtc dstep (mkRep (init ps draw) start) w.

(** A replica just made over an empty directory. *)
Definition new_docs (ds : Docs C MVCCStore) : Prop := exists e, blank e /\ NewReplicatedDocStore field e = Ok ds.

(** What a replica made of the messages it consumed. *)
Record holds (ms : list ApplyMsg) (ds0 ds : Docs C MVCCStore) : Prop := {
  ho_hist : exists h, store ds = store_run h (store ds0) /\ filter (fun o => is_apply o = true) h = txs ms /\ Forall (gc_within horizon) h;
  ho_wal : (wal ds, walEnv ds) = logged (omap payload ms) (wal ds0, walEnv ds0);
  ho_last : lastAppliedRaftIndex ds = last_idx (lastAppliedRaftIndex ds0) ms
}.

Lemma holds_apply ms m ds0 ds ds' : holds ms ds0 ds -> applyMVCC m ds = Some ds' -> holds (ms ++ [m]) ds0 ds'.
Proof.
  intros [(h & Hs & Hf & Hg) Hw Hl] E. unfold applyMVCC, applyDoc in E.
  assert (Hskip : payload m = None -> holds (ms ++ [m]) ds0 ds).
  { intros Hp. split.
    - exists h. rewrite txs_app. unfold txs at 2. cbn. unfold tx_of. by rewrite Hp, app_nil_r.
    - rewrite omap_app. cbn. by rewrite Hp, app_nil_r.
    - rewrite Hl. unfold last_idx. rewrite foldl_app. cbn. by rewrite Hp. }
  unfold payload in Hskip. destruct (CommandValid m) eqn:Ev; cbn [negb] in E; [|injection E as <-; by apply Hskip].
  destruct (MsgCommand m) as [[p|c]|] eqn:Em; [|injection E as <-; by apply Hskip..]. clear Hskip.
  assert (Hp : payload m = Some p) by (unfold payload; by rewrite Ev, Em).
  destruct (Append p (wal ds, walEnv ds)) as [r [l e]] eqn:EA. injection E as <-. split; cbn.
  - rewrite txs_app. unfold txs at 2. cbn. unfold tx_of. rewrite Hp. cbn. destruct (DecodeTransaction p) as [muts|].
    + exists (h ++ [OpApply muts (CommandIndex m)]). split_and!.
      * rewrite store_run_app, <- Hs. done.
      * by rewrite filter_app, Hf.
      * apply Forall_app. split; [done|by repeat constructor].
    + exists h. by rewrite app_nil_r.
  - rewrite omap_app. unfold logged in *. cbn. rewrite Hp. rewrite foldl_app, <- Hw. cbn. by rewrite EA.
  - unfold last_idx. rewrite foldl_app. cbn. by rewrite Hp.
Qed.

Lemma holds_gc ms ds0 ds r : r <= horizon -> holds ms ds0 ds -> holds ms ds0 (DocGCBefore r ds).
Proof.
  intros Hr [(h & Hs & Hf & Hg) Hw Hl]. split; [|done|done]. exists (h ++ [OpGC r]). split_and!.
  - by rewrite store_run_app, <- Hs.
  - by rewrite filter_app, Hf, filter_cons_False, filter_nil, app_nil_r.
  - apply Forall_app. split; [done|by repeat constructor].
Qed.

Lemma dstep_group w w' : dstep w w' -> exists acts, run ps chanCap acts (group w) = Next (group w').
Proof.
  intros [a w1 w1' H|i r w1 _]; [exists [a]|by exists []]. cbn. by rewrite (rexec_group _ _ _ _ _ _ H).
Qed.

Lemma dsteps_group w w' : rtc dstep w w' -> exists acts, run ps chanCap acts (group w) = Next (group w').
Proof.
  induction 1 as [w|w1 w2 w3 H _ [acts IH]]; [by exists []|]. destruct (dstep_group _ _ H) as [acts1 E].
  exists (acts1 ++ acts). by rewrite run_app, E.
Qed.

Lemma dreachable_holds w : dreachable w ->
  reachable ps chanCap (group w) /\ forall i, holds (consumed (nodes (group w) i)) (start i) (replica w i).
Proof.
  intros [draw H]. revert w H. refine (rtc_ind_r _ _ _ _).
  { split; [constructor|]. intros i. split; [exists []|..]; done. }
  intros w w' _ H [Hr IH].
  destruct H as [a w w' H|i r w Hle].
  - pose proof (rexec_group _ _ _ _ _ _ H) as E. split; [by eapply reach_step|]. intros i.
    pose proof (exec_consumed ps chanCap _ _ _ i E) as Hc. unfold rexec in H. rewrite E in H.
    destruct a as [d|j|j c|k c|k|j c|j|j|j|j];
      try (rewrite Hc; assert (replica w' = replica w) as -> by (by injection H as <-); by apply IH).
    destruct Hc as (m & ms & Hm & ->). rewrite Hm in H. destruct (applyMVCC m (replica w j)) as [s|] eqn:Es; [|done].
    injection H as <-. cbn. unfold upd. destruct (decide (i = j)) as [->|]; [|apply IH]. by eapply holds_apply.
  - split; [done|]. intros j. cbn. upd_cases; [by apply holds_gc|apply IH].
Qed.

Lemma new_docs_inv ds : new_docs ds ->
  store ds = NewMVCCStore field /\ lastAppliedRaftIndex ds = 0.
Proof. intros (e & _ & H). unfold NewReplicatedDocStore, NewDocs in H. destruct (Open 0 e) as [[l|] e']; [|done]. by injection H as <-. Qed.

(** The store of a replica, against the history of its transactions alone. *)
Lemma replica_store w i : valid_config ps -> dreachable w -> new_docs (start i) ->
  let c := consumed (nodes (group w) i) in
  alike (store (replica w i)) (store_run (txs c) (NewMVCCStore field)) /\
  wf (last_idx 0 c) (store (replica w i)) /\ lastAppliedRaftIndex (replica w i) = last_idx 0 c /\ rising 0 c.
Proof.
  intros Hv Hd Hn c. destruct (dreachable_holds w Hd) as [Hr Hh]. destruct (new_docs_inv _ Hn) as [Hs0 Hl0].
  destruct (Hh i) as [(h & Hs & Hf & Hg) _ Hl]. rewrite Hs0 in Hs. rewrite Hl0 in Hl.
  pose proof (consumed_rising ps chanCap (group w) i Hv Hr) as Hri. unfold c. clear c. split_and!; [| |done|done].
  - rewrite Hs, <- Hf. apply alike_run; [apply alike_refl|done].
  - rewrite Hs. eapply wf_mono; [exact (proj1 (top_last _ 0 Hri))|]. rewrite <- Hf, top_of_filter.
    apply history_wf. apply increasing_filter. rewrite Hf. by apply rising_txs.
Qed.

Lemma replica_get w i at_ id : valid_config ps -> dreachable w -> new_docs (start i) -> horizon <= at_ ->
  Get at_ id (store (replica w i)) =
  Some (visible at_ (chain (store_run (txs (consumed (nodes (group w) i))) (NewMVCCStore field)) id)).
Proof.
  intros Hv Hd Hn Hat. destruct (replica_store w i Hv Hd Hn) as (Ha & Hw & _).
  rewrite (Get_visible _ _ _ _ Hw). f_equal. by apply (al_vis _ _ Ha).
Qed.

(** Messages after [ms1] do not show at the indexes [ms1] reaches. *)
Lemma later_invisible ms1 ms2 at_ s id :
  rising 0 (ms1 ++ ms2) -> at_ <= last_idx 0 ms1 ->
  visible at_ (chain (store_run (txs (ms1 ++ ms2)) s) id) = visible at_ (chain (store_run (txs ms1) s) id).
Proof.
  intros Hr Hat. rewrite txs_app, store_run_app.
  apply (run_visible _ _ _ (last_idx 0 ms1)); [done|by apply rising_txs, rising_last|].
  eapply Forall_impl; [apply txs_is_apply|]. by intros [].
Qed.

(** The payloads fit into records of the log. *)
Definition payloads_fit (ms : list ApplyMsg) : Prop :=
  Forall (fun p : bytes => zlen p < 2 ^ 32) (omap payload ms) /\ zlen (omap payload ms) < 2 ^ 63.

Lemma logged_sound ps' : forall e l a,
  sound false e l a -> Forall (fun p : bytes => zlen p < 2 ^ 32) ps' -> oldest a + zlen (records a) + zlen ps' < 2 ^ 63 ->
  sound false (snd (logged ps' (l, e))) (fst (logged ps' (l, e))) (mkAlog (oldest a) (records a ++ ps')).
Proof.
  induction ps' as [|p ps' IH]; intros e l a HS Hp Hb; cbn.
  { rewrite app_nil_r. by destruct a. }
  apply Forall_cons in Hp as [Hp Hps]. rewrite zlen_cons in Hb. pose proof (zlen_nonneg ps').
  destruct (sound_append _ _ _ _ p HS Hp ltac:(lia)) as (l1 & e1 & E & HS1). rewrite E. cbn [snd].
  specialize (IH _ _ _ HS1 Hps). cbn in IH. rewrite <- app_assoc in IH. apply IH. rewrite zlen_snoc. lia.
Qed.

Lemma replica_wal w i : dreachable w -> new_docs (start i) -> payloads_fit (consumed (nodes (group w) i)) ->
  observes (walEnv (replica w i)) (wal (replica w i)) (mkAlog 0 (omap payload (consumed (nodes (group w) i)))).
Proof.
  intros Hd (e & [[Hc Hs] Hn] & H) [Hf Hb]. destruct (dreachable_holds w Hd) as [_ Hh]. destruct (Hh i) as [_ Hw _].
  unfold NewReplicatedDocStore, NewDocs in H. destruct (open_empty_spec e 0 Hc ltac:(lia) Hn) as (l & e' & E & Hc' & C' & P).
  rewrite E in H. injection H as H. rewrite <- H in Hw. cbn [wal walEnv] in Hw.
  assert (HS : sound false e' l (mkAlog 0 [])) by (split; [split; [done|cbn; by rewrite C']|done]).
  pose proof (logged_sound _ _ _ _ HS Hf Hb) as HS'. rewrite <- Hw in HS'.
  eapply log_rep_observes; [by eapply sound_rep|apply HS'].
Qed.

(** C9: Replicated document stores agree.  In every reachable state, at any index
    that two replicas have both applied and that neither was asked to collect
    past, they return the same document under every id, though they may be at
    different points and have collected differently; the snapshot of a replica
    is at an index it has applied; and its log holds the payloads it was
    delivered, rejected transactions included. *)
Theorem doc_replicas_agree w i j at_ id :
  valid_config ps -> dreachable w -> (forall k, new_docs (start k)) ->
  horizon <= at_ -> at_ <= lastAppliedRaftIndex (replica w i) -> at_ <= lastAppliedRaftIndex (replica w j) ->
  (exists d, Get at_ id (store (replica w i)) = Some d /\ Get at_ id (store (replica w j)) = Some d) /\
  DocSnapshot (replica w i) <= lastAppliedRaftIndex (replica w i) /\
  (payloads_fit (consumed (nodes (group w) i)) ->
   observes (walEnv (replica w i)) (wal (replica w i)) (mkAlog 0 (omap payload (consumed (nodes (group w) i))))).
Proof.
  intros Hv Hd Hn Hh Hi Hj. destruct (dreachable_holds w Hd) as [Hr _].
  destruct (replica_store w i Hv Hd (Hn i)) as (_ & Hw & Hli & Hri), (replica_store w j Hv Hd (Hn j)) as (_ & _ & Hlj & Hrj).
  split_and!.
  - setoid_rewrite (fun k => replica_get w k at_ id Hv Hd (Hn k) Hh).
    destruct (consumed_agree ps chanCap (group w) i j Hv Hr) as [[ms E]|[ms E]]; eexists; (split; [reflexivity|]).
    + rewrite E in *. f_equal. rewrite later_invisible; [done|done|lia].
    + rewrite E in *. f_equal. rewrite later_invisible; [done|done|lia].
  - rewrite Hli. apply (wf_commit _ _ Hw).
  - by apply replica_wal.
Qed.

(** * Proposals *)

Lemma same_mutate idx m m' s : same_mutation m m' -> mvcc_mutate idx m' s = mvcc_mutate idx m s.
Proof.
  intros (Ho & Hi & _ & Hd). unfold mvcc_mutate. rewrite Ho, Hi. unfold document_of in Hd.
  destruct (unmarshal_document (Data m)), (unmarshal_document (Data m')); simplify_eq; done.
Qed.

Lemma same_apply muts muts' idx s :
  Forall2 same_mutation muts muts' -> ApplyTransaction muts' idx s = ApplyTransaction muts idx s.
Proof.
  intros H. unfold ApplyTransaction.
  assert (Hval : validate (fun id => latestVersionLocked id s) muts' = validate (fun id => latestVersionLocked id s) muts).
  { induction H as [|m m' ms ms' (_ & Hi & Hv & _) _ IH]; cbn; [done|]. rewrite Hi, Hv, IH. done. }
  rewrite Hval. destruct (validate _ muts); [|done]. clear Hval. revert s.
  induction H as [|m m' ms ms' Hm _ IH]; intros s; cbn; [done|]. unfold mbind, M_bind. rewrite (same_mutate _ _ _ _ Hm).
  destruct (mvcc_mutate idx m s) as [[] s1]; [apply IH|done].
Qed.

Lemma last_idx_mem ms : forall top, last_idx top ms = top \/ exists m, m ∈ ms /\ last_idx top ms = CommandIndex m.
Proof.
  induction ms as [|m ms IH]; intros top; cbn; [by left|]. destruct (payload m).
  - right. destruct (IH (CommandIndex m)) as [E|(x & Hx & E)]; [exists m; split; [left|done]|exists x; split; [by right|done]].
  - destruct (IH top) as [E|(x & Hx & E)]; [by left|right]. exists x. split; [by right|done].
Qed.

Lemma Propose_inv i muts w idx w1 :
  Propose mvcc_tx ps chanCap i muts w = Some (Ok (idx, true), w1) ->
  exists blob r', EncodeTransaction muts = Ok blob /\
    Start (Some (CBytes blob)) (peer_state (group w) i) = Some (r', (idx, currentTerm (peer_state (group w) i), true)) /\
    rexec applyMVCC ps chanCap (AStart i (Some (CBytes blob))) w = RNext w1.
Proof.
  unfold Propose. destruct (EncodeTransaction muts) as [blob|]; [|done].
  unfold Submit. destruct (Start _ _) as [[r' [[k t] b]]|] eqn:ES; [|done]. cbn [mbind option_bind]. fold applyMVCC.
  destruct (rexec _ _ _ _ w) as [w'| |] eqn:ER; try done. cbn [mbind option_bind]. intros [= <- -> <-]. exists blob, r'. split_and!; [done| |exact ER].
  rewrite ES. unfold Start in ES. case_test_in ES; [done|]. destruct (lastEntry _); [|done]. cbn in ES. by injection ES as <- <- <-.
Qed.

(** The store of a replica around the index of a transaction it applied. *)
Lemma replica_at w j blob muts idx :
  valid_config ps -> dreachable w -> new_docs (start j) -> horizon < idx ->
  mkApplyMsg true (Some (CBytes blob)) idx ∈ consumed (nodes (group w) j) -> DecodeTransaction blob = Ok muts ->
  applied_as muts idx (store (replica w j)).
Proof.
  intros Hv Hd Hn Hh Hin Hdec. destruct (replica_store w j Hv Hd Hn) as (_ & _ & _ & Hri).
  pose proof (fun at_ id => replica_get w j at_ id Hv Hd Hn) as Hget.
  apply list_elem_of_split in Hin as (c1 & c2 & E). rewrite E in Hri, Hget.
  set (m := mkApplyMsg true (Some (CBytes blob)) idx) in *. set (s0 := store_run (txs c1) (NewMVCCStore field)).
  assert (Htx : txs (c1 ++ [m]) = txs c1 ++ [OpApply muts idx]).
  { rewrite txs_app. f_equal. unfold txs. cbn. unfold tx_of. cbn. by rewrite Hdec. }
  change (m :: c2) with ([m] ++ c2) in *. rewrite app_assoc in Hri, Hget.
  assert (Hi : increasing 0 (txs c1 ++ [OpApply muts idx])) by (rewrite <- Htx; by eapply rising_txs, rising_app).
  pose proof (history_wf field _ Hi) as Hw1. rewrite store_run_app in Hw1. fold s0 in Hw1.
  apply increasing_app in Hi as [Hi [Hlt _]].
  assert (Hw0 : wf (idx - 1) s0) by (eapply wf_mono, history_wf, Hi; lia).
  assert (Hlast : last_idx 0 (c1 ++ [m]) = idx) by (unfold last_idx; by rewrite foldl_app).
  exists s0. split; [done|]. intros id.
  split; rewrite Hget, later_invisible, Htx, store_run_app by (done || lia); fold s0.
  - rewrite (Get_visible _ _ _ _ Hw0). f_equal. apply apply_visible. lia.
  - by rewrite (Get_visible _ _ _ _ Hw1).
Qed.

(** A proposed transaction takes effect everywhere as it was proposed.  When a
    leader accepts a transaction at an index, every replica that has applied
    that index has an entry there, and if the entry carries the term of the
    proposal, then the replica's documents at the index are those of applying
    the very transaction to its documents just before. *)
Lemma propose_applied `{JO : !JsonOk} i muts w idx w1 w2 j :
  valid_config ps -> dreachable w -> (forall k, new_docs (start k)) ->
  Forall (fun m => ascii_text (Op m) = true /\ ascii_text (ID m) = true) muts ->
  Propose mvcc_tx ps chanCap i muts w = Some (Ok (idx, true), w1) -> rtc dstep w1 w2 ->
  horizon < idx <= lastAppliedRaftIndex (replica w2 j) ->
  exists e, (log (peer_state (group w2) j)) @[idx] = Some e /\
    (Term e = currentTerm (peer_state (group w) i) -> applied_as muts idx (store (replica w2 j))).
Proof.
  intros Hv Hd Hn Ha HP H2 [Hh Hl]. destruct (Propose_inv _ _ _ _ _ HP) as (blob & r' & Henc & ES & E1).
  destruct (dreachable_holds w Hd) as [Hr _].
  assert (Hd2 : dreachable w2).
  { destruct Hd as [draw Hd]. exists draw. etransitivity; [exact Hd|]. eapply rtc_l; [by eapply d_exec|exact H2]. }
  destruct (dreachable_holds w2 Hd2) as [Hr2 _]. destruct (replica_store w2 j Hv Hd2 (Hn j)) as (_ & _ & Hlast & _).
  assert (Hpos : 0 < idx).
  { destruct (reachable_inv ps chanCap _ Hv Hr) as [g Hi]. unfold Start in ES. case_test_in ES; [done|].
    destruct (log_ok_last _ _ (no_log _ _ _ _ _ (inv_node _ _ _ _ _ Hi i))) as (l & Hll & _ & Hli).
    pose proof (log_ok_pos _ _ (no_log _ _ _ _ _ (inv_node _ _ _ _ _ Hi i))). rewrite Hll in ES. cbn in ES. injection ES as _ <-. lia. }
  destruct (last_idx_mem (consumed (nodes (group w2) j)) 0) as [E0|(m & Hm & Em)]; [lia|].
  assert (Hc : idx <= Raft.commitIndex (peer_state (group w2) j)).
  { etransitivity; [exact Hl|]. rewrite Hlast, Em. eapply committed_index; [done|exact Hr2|].
    destruct (consumed_committed ps chanCap (group w2) j Hv Hr2) as [rest ->]. apply elem_of_app. by left. }
  destruct (committed_agree_world ps chanCap (group w2) j j Hv Hr2 idx) as (e & He & _); [lia|].
  exists e. split; [done|]. intros Ht.
  destruct (dsteps_group _ _ H2) as [acts Hrun].
  pose proof (proposal_unique ps chanCap (group w) i _ _ _ _ _ _ _ Hv Hr ES (rexec_group _ _ _ _ _ _ E1) Hrun j e He Ht) as ->.
  destruct (mutations_roundtrip muts blob Ha Henc) as (muts' & Hdec & Hsame).
  destruct (replica_at w2 j blob muts' idx Hv Hd2 (Hn j) Hh) as (s0 & Hw & Hg); [|done|].
  - eapply (consumed_earlier ps chanCap); [done|done|exact Hm|lia|exact He|done].
  - exists s0. split; [done|]. intros id. by rewrite <- (same_apply muts muts').
Qed.

End horizon.
End docs.

(** * Concrete groups *)

Section runs.
Context {C : Type} `{CS : ColdStore C} `{J : Json} (horizon : Z) (ps : list Z) (chanCap : nat).

Lemma rrun_dsteps acts : forall w w' : @RepWorld (Docs C MVCCStore),
  rrun applyMVCC ps chanCap acts w = RNext w' -> rtc (dstep horizon ps chanCap) w w'.
Proof.
  induction acts as [|a acts IH]; intros w w' H; cbn in H; [by injection H as <-|].
  destruct (rexec applyMVCC ps chanCap a w) as [w1| |] eqn:E; [|done..]. eapply rtc_l; [by eapply d_exec|by apply IH].
Qed.
End runs.

#[local] Existing Instance toy_json.

Definition docs_env : Env LocalDirColdStore := mkEnv (mkDir ∅ []) (mkDir ∅ []).

Definition docs0 : Docs LocalDirColdStore MVCCStore :=
  match NewReplicatedDocStore "name" docs_env with
  | Ok ds => ds
  | Err _ => mkDocs (mkLog 0 [] (mkSegment 0 0 0 (mkFile EmptyString false 0 false) (mkFile EmptyString false 0 false) false EmptyString) false)
      docs_env (NewMVCCStore "name") 0
  end.

Lemma docs0_new : new_docs "name" docs0.
Proof.
  exists docs_env. split; [split; [done|intros name c; cbn; by rewrite lookup_empty]|]. unfold docs0.
  destruct (NewReplicatedDocStore "name" docs_env) eqn:E; [done|]. exfalso.
  assert (H : is_ok (NewReplicatedDocStore "name" docs_env) = true) by (vm_compute; reflexivity). by rewrite E in H.
Qed.

Definition dworld0 : @RepWorld (Docs LocalDirColdStore MVCCStore) := mkRep (init trio (fun _ => 0)) (fun _ => docs0).

Definition dafter (acts : list Action) (w : RepWorld) : @RepWorld (Docs LocalDirColdStore MVCCStore) :=
  match rrun applyMVCC trio 256 acts w with RNext w => w | _ => w end.

Lemma dafter_steps acts w : rtc (dstep 0 trio 256) w (dafter acts w).
Proof. unfold dafter. destruct (rrun _ _ _ acts w) eqn:E; [by eapply rrun_dsteps|done|done]. Qed.

Lemma dafter_reachable acts : dreachable 0 trio 256 (fun _ => docs0) (dafter acts dworld0).
Proof. exists (fun _ => 0). apply dafter_steps. Qed.

Definition doc_tx : list Mutation := [put_ "a" "ann" None; put_ "b" "bob" (Some 0)].

(** The proposal is replicated, committed and applied at the leader, then at a
    follower. *)
Definition doc_commits : list Action :=
  [ARun 0 0; ARun 0 0; ARun 0 0; AApply 0; ASendMsg 0; AConsume 0; ARun 1 0; ARun 1 0; ARun 0 0; AApply 1; ASendMsg 1; AConsume 1].

Definition doc_blob : bytes := match EncodeTransaction doc_tx with Ok b => b | Err _ => [] end.
Definition doc_run : list Action := election ++ AStart 0 (Some (CBytes doc_blob)) :: doc_commits.

Lemma doc_replicas_agree_witness :
  let w := dafter doc_run dworld0 in
  lastAppliedRaftIndex (replica w 0) = 2 /\
  exists d, Get 2 "b" (store (replica w 0)) = Some d /\ Get 2 "b" (store (replica w 1)) = Some d.
Proof.
  assert (H0 : lastAppliedRaftIndex (replica (dafter doc_run dworld0) 0) = 2) by (vm_compute; reflexivity).
  assert (H1 : lastAppliedRaftIndex (replica (dafter doc_run dworld0) 1) = 2) by (vm_compute; reflexivity).
  split; [exact H0|].
  apply (doc_replicas_agree 0 trio 256 (fun _ => docs0) "name" (dafter doc_run dworld0) 0 1 2 "b" trio_valid (dafter_reachable _)
    (fun _ => docs0_new)); lia.
Defined.
