(* ===== verification/BenchReads.v ===== *)
(** The benchmark of concurrent reads ([benchmarks/mvcc.go]): goroutines that read
    one document of a replicated store while another one writes it.

    The two benchmarks of the file have the same text up to the store and the way
    a reader reads, so they are written once over the class [ReadStore].  Every
    goroutine is a program counter; a [turn] takes one of them from one critical
    section to the next, or lets the others of the process run, and a run of the
    benchmark is a list of turns. *)
From S2P Require Import Prelude GoLib Value GoFloat Files Cold Segment SegmentProof SegmentLog LogProof LogLifecycle LogRecover LogRefine Batch.
From S2P Require Import Raft RaftCluster RaftLog RaftInv RaftSteps RaftHandlers RaftSafety RaftTheorems NetLib Tls Transport Replica RaftIntegrity.
From S2P Require Import Replication Producer BenchCluster Bench Docstore DocstoreProof DocstoreTheorems DocReplica.
From stdpp Require Import pretty.
#[local] Open Scope Z_scope.

Definition quote : string := String (Ascii.ascii_of_nat 34) EmptyString.
Definition quoted (s : string) : string := quote +:+ s +:+ quote.

(** A store as a replica keeps it, and how a reader reads a document: what it holds
    after its first critical section, and what it gets in the second ([None] is a
    panic).  [rs_counts] tells whether the writer counts its writes. *)
Class ReadStore (Store A : Type) := {
  rs_new : Store;
  rs_tx : list Mutation -> Z -> Store -> Store;
  rs_begin : Store -> A;
  rs_get : A -> string -> Store -> option (option Document);
  rs_counts : bool
}.

(** [Get] is one critical section. *)
#[export] Instance locked_reads `{Json} : ReadStore LockedStore unit := {|
  rs_new := NewLockedStore; rs_tx := locked_tx; rs_begin _ := tt; rs_get _ id s := Some (locked_Get id s); rs_counts := true
|}.

(** [Snapshot] and then the snapshot's [Get]. *)
#[export] Instance mvcc_reads `{Json} : ReadStore MVCCStore Z := {|
  rs_new := NewMVCCStore ""; rs_tx := mvcc_tx; rs_begin := Snapshot; rs_get := Get; rs_counts := false
|}.

(** The document the readers read, and the one the writer writes as number [n]. *)
Definition the_id : string := "doc-1".
Definition counter_json (n : Z) : bytes := bytes_of_string ("{" +:+ quoted "n" +:+ ":" +:+ pretty n +:+ "}").
Definition put_counter (n : Z) : Mutation := mkMutation "put" the_id (counter_json n) None.

(** The channels of the replicated stores. *)
Definition docs_cap : nat := 256.

Inductive writer := WSelect | WPropose | WCount | WSleep (until : Z) | WExit.

Inductive turn := TReader (k : nat) | TWriter | TOthers (acts : list Action).

Section load.
Context {C : Type} `{CS : ColdStore C} `{J : Json} {Store A : Type} `{RS : !ReadStore Store A}.

Inductive reader := RCheck | RBegin | RGet (a : A) | RCount | RExit.

(** The goroutines of a benchmark; [found] is what the reads returned, in the order of
    their ends. *)
Record Load := mkLoad {
  beside : cluster Network (Docs C Store);
  readers : list reader;
  totalReads : Z;
  writer_at : writer;
  n_written : Z;
  writeCount : Z;
  stop_closed : bool;
  found : list (option Document)
}.

Abbreviation Group := (@RepWorld (Docs C Store)).
Abbreviation apply_ := (applyDoc (C := C) (Store := Store) rs_tx).

Context (peers : list Z).

Definition group_of (l : Load) : Group := nodes_ (beside l).
Definition load_clock (l : Load) : Z := clock (group (group_of l)).
Definition set_group (w : Group) (l : Load) : Load :=
  mkLoad (mkCluster (net (beside l)) w (part (beside l))) (readers l) (totalReads l) (writer_at l) (n_written l) (writeCount l) (stop_closed l) (found l).
Definition set_reader (k : nat) (r : reader) (l : Load) : Load :=
  mkLoad (beside l) (<[k := r]> (readers l)) (totalReads l) (writer_at l) (n_written l) (writeCount l) (stop_closed l) (found l).
Definition set_writer (p : writer) (l : Load) : Load :=
  mkLoad (beside l) (readers l) (totalReads l) p (n_written l) (writeCount l) (stop_closed l) (found l).

Context (lead start duration : Z).

Definition store_of (l : Load) : Store := store (replica (group_of l) lead).

Definition reader_turn (k : nat) (l : Load) : finish Load :=
  match readers l !! k with
  | Some RCheck => mret (set_reader k (if load_clock l - start <? duration then RBegin else RExit) l)
  | Some RBegin => mret (set_reader k (RGet (rs_begin (store_of l))) l)
  | Some (RGet a) =>
      match rs_get a the_id (store_of l) with
      | None => Panics "index out of range"
      | Some o =>
          mret (set_reader k RCount
            (mkLoad (beside l) (readers l) (totalReads l) (writer_at l) (n_written l) (writeCount l) (stop_closed l) (found l ++ [o])))
      end
  | Some RCount =>
      mret (set_reader k RCheck
        (mkLoad (beside l) (readers l) (totalReads l + 1) (writer_at l) (n_written l) (writeCount l) (stop_closed l) (found l)))
  | Some RExit | None => mret l
  end.

(** The results of [Propose] are dropped. *)
Definition writer_turn (l : Load) : finish Load :=
  match writer_at l with
  | WSelect =>
      if stop_closed l then mret (set_writer WExit l)
      else mret (mkLoad (beside l) (readers l) (totalReads l) WPropose (n_written l + 1) (writeCount l) (stop_closed l) (found l))
  | WPropose =>
      match Propose rs_tx peers docs_cap lead [put_counter (n_written l)] (group_of l) with
      | None => Panics "index out of range"
      | Some (_, w) =>
          let l := set_group w l in
          mret (set_writer (if rs_counts then WCount else WSleep (load_clock l + Millisecond)) l)
      end
  | WCount =>
      mret (mkLoad (beside l) (readers l) (totalReads l) (WSleep (load_clock l + Millisecond)) (n_written l) (writeCount l + 1) (stop_closed l) (found l))
  | WSleep until => if until <=? load_clock l then mret (set_writer WSelect l) else mret l
  | WExit => mret l
  end.

Definition load_turn (t : turn) (l : Load) : finish Load :=
  match t with
  | TReader k => reader_turn k l
  | TWriter => writer_turn l
  | TOthers acts => mret (set_group (runs apply_ peers docs_cap acts (group_of l)) l)
  end.

Fixpoint load_turns (ts : list turn) (l : Load) : finish Load :=
  match ts with
  | [] => mret l
  | t :: ts => l ← load_turn t l; load_turns ts l
  end.

Definition exited (r : reader) : bool := match r with RExit => true | _ => false end.

(** [wg.Wait]: the turns until every reader is done. *)
Fixpoint waitGroup (ts : list turn) (l : Load) : finish Load :=
  if forallb exited (readers l) then mret l
  else
    match ts with
    | [] => Unfinished
    | t :: ts => l ← load_turn t l; waitGroup ts l
    end.

End load.
Arguments Load C Store A : clear implicits.
Arguments reader A : clear implicits.

(** What a run meets: the schedule of the group while the benchmark looks for a leader
    and while it waits for its first write, the turns before it starts its clock,
    until the readers are done, and until it reads the clock; the directories and
    the random numbers of the peers. *)
Record Setting (C : Type) := mkSetting {
  s_sched : nat -> list Action;
  s_polls : list (list Action);
  s_before : list turn;
  s_during : list turn;
  s_after : list turn;
  s_dirs : Z -> option (Env C);
  s_draw : Z -> Z
}.
Arguments s_sched {C} s.
Arguments s_polls {C} s.
Arguments s_before {C} s.
Arguments s_during {C} s.
Arguments s_after {C} s.
Arguments s_dirs {C} s.
Arguments s_draw {C} s.

Section benchmark.
Context {C : Type} `{CS : ColdStore C} `{J : Json} {Store A : Type} `{RS : !ReadStore Store A}.

Abbreviation apply_ := (applyDoc (C := C) (Store := Store) rs_tx).
Abbreviation nodes3 := (seqZ 0 3).

(** The two loops that look for a leader. *)
Definition findDocLeader (s : Setting C) (b : cluster Network (Docs C Store)) : finish (Z * cluster Network (Docs C Store)) :=
  '(lead, b) ← search apply_ (s_sched s) nodes3 docs_cap (fun net i => negb (IsConnected i net)) (20 * Millisecond) (3 * Second) b;
  if lead =? -1 then Panics "no leader elected" else mret (lead, b).

(** The write before the load. *)
Definition firstWrite (s : Setting C) (failure : string) (lead : Z) (w : @RepWorld (Docs C Store)) : finish (@RepWorld (Docs C Store)) :=
  match Propose rs_tx nodes3 docs_cap lead [put_counter 0] w with
  | None => Panics "index out of range"
  | Some (Err _, _) => Panics failure
  | Some (Ok (idx, isLeader), w) =>
      if negb isLeader then Panics failure
      else
        match WaitApplied apply_ lastAppliedRaftIndex nodes3 docs_cap (s_polls s) lead idx (clock (group w) + 2 * Second) w with
        | None => Unfinished
        | Some (false, _) => Panics failure
        | Some (true, w) => mret w
        end
  end.

(** [cleanup]: the results of [Close] are dropped. *)
Definition closeAll (w : @RepWorld (Docs C Store)) : @RepWorld (Docs C Store) :=
  foldl (fun w i => match CloseDocs rs_tx nodes3 docs_cap i w with Some (_, w) => w | None => w end) w nodes3.

Definition start_load (b : cluster Network (Docs C Store)) (w : @RepWorld (Docs C Store)) : Load C Store A :=
  mkLoad (mkCluster (net b) w (part b)) [] 0 WSelect 0 0 false [].

Definition start_readers (n : nat) (l : Load C Store A) : Load C Store A :=
  mkLoad (beside l) (replicate n RCheck) (totalReads l) (writer_at l) (n_written l) (writeCount l) (stop_closed l) (found l).

(** [close(stop)] and the deferred [cleanup]. *)
Definition stop_load (l : Load C Store A) : Load C Store A :=
  mkLoad (mkCluster (net (beside l)) (closeAll (group_of l)) (part (beside l))) (readers l) (totalReads l) (writer_at l) (n_written l) (writeCount l) true (found l).

Definition runReadBenchmark (failure : string) (s : Setting C) (concurrentReaders duration : Z) : finish (spec_float * Load C Store A) :=
  '(nt, w) ← clusterOf (NewDocs rs_new) 3 (s_dirs s) (s_draw s);
  '(lead, b) ← findDocLeader s (mkCluster nt w 0);
  w ← firstWrite s failure lead (nodes_ b);
  l ← load_turns nodes3 lead 0 duration (s_before s) (start_load b w);
  let start := load_clock l in
  l ← waitGroup nodes3 lead start duration (s_during s) (start_readers (Z.to_nat concurrentReaders) l);
  l ← load_turns nodes3 lead start duration (s_after s) l;
  let elapsed := load_clock l - start in
  mret (fdiv (float64 (totalReads l)) (Seconds elapsed), stop_load l).

End benchmark.

(** * The two benchmarks and their comparison *)

Record MVCCComparisonResult := mkComparison {
  LockedReadsPerSec : spec_float;
  MVCCReadsPerSec : spec_float;
  Speedup : spec_float;
  ConcurrentReaders : Z;
  ComparisonSec : spec_float
}.

Section comparison.
Context {C : Type} `{CS : ColdStore C} `{J : Json}.

Definition runLockedReadBenchmark : Setting C -> Z -> Z -> finish (spec_float * Load C LockedStore unit) :=
  runReadBenchmark "locked benchmark setup write failed".
Definition runMVCCReadBenchmark : Setting C -> Z -> Z -> finish (spec_float * Load C MVCCStore Z) :=
  runReadBenchmark "mvcc benchmark setup write failed".

Definition RunMVCCComparison (s1 s2 : Setting C) (concurrentReaders duration : Z) : finish MVCCComparisonResult :=
  '(lockedReads, _) ← runLockedReadBenchmark s1 concurrentReaders duration;
  '(mvccReads, _) ← runMVCCReadBenchmark s2 concurrentReaders duration;
  let speedup := if SFltb (S754_zero false) lockedReads then fdiv mvccReads lockedReads else S754_zero false in
  mret (mkComparison lockedReads mvccReads speedup concurrentReaders (Seconds duration)).

End comparison.

(** * What a reader finds *)

Section stores.
Context `{J : Json}.

(** A transaction that puts a document under the id of the benchmark. *)
Definition puts (o : store_op) (d : Document) : Prop :=
  exists m idx, o = OpApply [m] idx /\ Op m = "put"%string /\ ID m = the_id /\ ExpectedVersion m = None /\ document_of (Data m) = Some d.

Definition rs_run {Store A} `{!ReadStore Store A} (h : list store_op) (s : Store) : Store :=
  foldl (fun s o => match o with OpApply muts idx => rs_tx muts idx s | OpGC _ => s end) s h.

(** What the benchmark relies on: after the first such transaction a read finds one
    of the documents that were put, though more are put while it reads. *)
Class ReadStoreOk (Store A : Type) `{!ReadStore Store A} := {
  reads_found h0 h1 : increasing 0 (h0 ++ h1) -> h0 <> [] -> (forall o, o ∈ h0 ++ h1 -> exists d, puts o d) ->
    exists o d, o ∈ h0 ++ h1 /\ puts o d /\ rs_get (rs_begin (rs_run h0 rs_new)) the_id (rs_run (h0 ++ h1) rs_new) = Some (Some d)
}.

Lemma document_of_Some b d : document_of b = Some d -> unmarshal_document b = Ok d.
Proof. unfold document_of. destruct (unmarshal_document b); [by intros [= ->]|done]. Qed.

(** The last document that was put is the locked store's. *)
Lemma locked_last h o d s : puts o d -> locked_Get the_id (rs_run (h ++ [o]) s) = Some d.
Proof.
  intros (m & idx & -> & Hop & Hid & Hv & Hd%document_of_Some). unfold rs_run. rewrite foldl_app. cbn. unfold locked_tx, locked_ApplyTransaction.
  rewrite validate_unconditional by (by repeat constructor). cbn. unfold mbind, M_bind, locked_mutate. rewrite bool_decide_eq_true_2, Hd by done.
  cbn. unfold locked_Get. cbn. rewrite Hid. apply lookup_insert_eq.
Qed.

#[export] Instance locked_reads_ok : ReadStoreOk LockedStore unit.
Proof.
  split. intros h0 h1 _ Hne Hp. destruct (h0 ++ h1) as [|o h _] eqn:E using rev_ind; [by apply app_eq_nil in E as [-> _]|].
  destruct (Hp o) as [d Hd]; [apply elem_of_app; right; by left|]. exists o, d. split_and!; [apply elem_of_app; right; by left|done|].
  cbn [rs_get locked_reads]. f_equal. by apply locked_last.
Qed.

(** And the one that a snapshot of the versioned store sees. *)
Lemma snapshot_last h o d : puts o d -> increasing 0 (h ++ [o]) ->
  let s := store_run (h ++ [o]) (NewMVCCStore "") in visible (Snapshot s) (chain s the_id) = Some d.
Proof.
  intros (m & idx & -> & Hop & Hid & Hv & Hd%document_of_Some) Hi. cbn zeta. rewrite store_run_app.
  apply increasing_app in Hi as [Hh [Hlt _]]. pose proof (history_wf "" h Hh) as Hw. set (s := store_run h _) in *. cbn [store_run foldl store_step].
  unfold ApplyTransaction. rewrite validate_unconditional by (by repeat constructor). destruct (mvcc_commit idx [m] s) as [r s'] eqn:E.
  assert (Hp : puts_decode [m]) by (constructor; [intros _; by rewrite Hd|constructor]).
  destruct (commit_effects idx the_id _ _ _ _ E Hp) as (_ & Hx & He & _). cbn [snd]. unfold Snapshot. rewrite Hx.
  rewrite visible_all by (apply (wf_top idx); eapply commit_wf, E; eapply wf_mono, Hw; lia).
  rewrite He. cbn. unfold effect. by rewrite Hop, Hid, !bool_decide_eq_true_2, Hd.
Qed.

(** It reads the same later on. *)
#[export] Instance mvcc_reads_ok : ReadStoreOk MVCCStore Z.
Proof.
  split. intros h0 h1 Hi Hne Hp.
  assert (Hrun : forall h s, (forall o, o ∈ h -> exists d, puts o d) -> rs_run h s = store_run h s).
  { induction h as [|o h IH]; intros s Hh; [done|]. destruct (Hh o) as (d & m & idx & -> & _); [by left|]. cbn.
    apply IH. intros o' Ho'. apply Hh. by right. }
  rewrite !Hrun; [|done|intros o Ho; apply Hp, elem_of_app; by left]. apply increasing_app in Hi as [Hi0 Hi1].
  pose proof (history_wf "" h0 Hi0) as Hw. rewrite store_run_app. set (s0 := store_run h0 _) in *. cbn [rs_begin rs_get mvcc_reads].
  rewrite (Get_visible _ _ _ _ (store_run_wf h1 _ s0 Hw Hi1)), (run_visible _ _ _ (top_of 0 h0)); [|apply (wf_commit _ _ Hw)|done|].
  2:{ apply list.Forall_forall. intros o Ho. destruct (Hp o) as (d & m & idx & -> & _); [apply elem_of_app; by right|done]. }
  destruct h0 as [|o h _] eqn:E using rev_ind; [done|]. destruct (Hp o) as [d Hd]; [rewrite !elem_of_app; left; right; by left|].
  exists o, d. split_and!; [rewrite !elem_of_app; left; right; by left|done|]. f_equal. by apply snapshot_last.
Qed.

End stores.

Lemma forallb_false_ex {X} (f : X -> bool) (xs : list X) : forallb f xs = false -> exists k x, xs !! k = Some x /\ f x = false.
Proof.
  induction xs as [|x xs IH]; [done|]. cbn. intros [H|H]%andb_false_iff; [by exists 0%nat, x|].
  destruct (IH H) as (k & y & Hk & Hy). by exists (S k), y.
Qed.

(** * The invariant of a load *)

(** The other goroutines of the process propose nothing. *)
Definition proposes (a : Action) : bool := match a with AStart _ _ => true | _ => false end.
Definition no_proposals (acts : list Action) : Prop := Forall (fun a => proposes a = false) acts.

Section invariant.
Context {C : Type} `{CS : ColdStore C} `{J : Json} `{JO : !JsonOk} {Store A : Type} `{RS : !ReadStore Store A} `{RSO : !ReadStoreOk Store A}.
Context (doc : Z -> Document) (decodes : forall k, 0 <= k -> document_of (counter_json k) = Some (doc k)).
Context (peers : list Z) (valid : valid_config peers) (origin : Z -> Docs C Store).
Context (fresh_origin : forall i, store (origin i) = rs_new /\ lastAppliedRaftIndex (origin i) = 0).

Abbreviation apply_ := (applyDoc (C := C) (Store := Store) rs_tx).
Abbreviation Group := (@RepWorld (Docs C Store)).

(** An entry with one of the documents up to number [n]. *)
Definition put_entry (n : Z) (e : LogEntry) : Prop :=
  exists k blob, 0 <= k <= n /\ EncodeTransaction [put_counter k] = Ok blob /\ Command e = Some (CBytes blob).

(** Only these were proposed. *)
Definition only_puts (n : Z) (w : Group) : Prop :=
  rreachable apply_ peers docs_cap origin w /\ all_from (put_entry n) (group w).

Abbreviation taken w i := (consumed (nodes (group w) i)).

Lemma only_puts_mono n n' w : n <= n' -> only_puts n w -> only_puts n' w.
Proof. intros Hn [Hr Ha]. split; [done|]. eapply all_from_mono, Ha. intros e (k & blob & Hk & H). exists k, blob. split; [lia|done]. Qed.

Lemma rexec_puts n a w w' : rexec apply_ peers docs_cap a w = RNext w' -> only_puts n w ->
  (forall i c, a = AStart i (Some c) -> exists k blob, 0 <= k <= n /\ EncodeTransaction [put_counter k] = Ok blob /\ c = CBytes blob) -> only_puts n w'.
Proof.
  intros H [Hr Ha] Hc. split; [by eapply rreach_step|]. apply rexec_group in H. eapply exec_from; [exact H|done|].
  intros i c r' idx t Ea _. destruct (Hc i c Ea) as (k & blob & Hk & He & ->). by exists k, blob.
Qed.

Lemma rrun_puts n acts : forall w w', rrun apply_ peers docs_cap acts w = RNext w' -> no_proposals acts -> only_puts n w ->
  only_puts n w'.
Proof.
  induction acts as [|a acts IH]; intros w w' H Hn Hw; cbn [rrun] in H; [by injection H as <-|].
  destruct (rexec _ _ _ a w) as [w1| |] eqn:E; [|done..]. apply Forall_cons_1 in Hn as [Ha Hn].
  apply (IH w1 w' H Hn). eapply rexec_puts; [exact E|done|]. intros i c ->; done.
Qed.

Lemma runs_puts n acts w : no_proposals acts -> only_puts n w ->
  only_puts n (runs apply_ peers docs_cap acts w) /\ (forall i, taken w i `prefix_of` taken (runs apply_ peers docs_cap acts w) i) /\
  clock (group w) <= clock (group (runs apply_ peers docs_cap acts w)).
Proof.
  intros Hn Hw. unfold runs. destruct (rrun _ _ _ acts w) as [w'| |] eqn:E; [|by split_and!..].
  split_and!; [by eapply rrun_puts|intros i; by eapply rrun_taken|by eapply rrun_clock].
Qed.

Lemma propose_puts n k i w r w' : Propose rs_tx peers docs_cap i [put_counter k] w = Some (r, w') -> 0 <= k <= n -> only_puts n w ->
  only_puts n w' /\ (forall j, taken w j `prefix_of` taken w' j) /\ clock (group w) <= clock (group w').
Proof.
  unfold Propose, Submit. intros H Hk Hw. destruct (EncodeTransaction [put_counter k]) as [blob|] eqn:EE; [|by injection H as _ <-].
  destruct (Start _ _) as [[r' [[idx t] b]]|]; [|done]. cbn [mbind option_bind] in H.
  destruct (rexec _ _ _ _ w) as [w1| |] eqn:E; [|done..]. cbn in H. injection H as _ <-. split_and!.
  - eapply rexec_puts; [exact E|done|]. intros j c [= _ <-]. by exists k, blob.
  - intros j. eapply (rrun_taken _ _ _ [_]). cbn [rrun]. by rewrite E.
  - by apply rexec_group, exec_clock in E.
Qed.

(** The state of a replica after some messages. *)
Lemma applies_docs ms : forall ds ds', applies apply_ ms ds = Some ds' ->
  store ds' = rs_run (txs ms) (store ds) /\ lastAppliedRaftIndex ds' = last_idx (lastAppliedRaftIndex ds) ms.
Proof.
  induction ms as [|m ms IH]; intros ds ds' H; cbn in H; [by injection H as <-|].
  destruct (apply_ m ds) as [ds1|] eqn:E; [|done]. cbn in H. destruct (IH _ _ H) as [-> ->].
  unfold applyDoc in E. cbn [txs omap list_omap last_idx foldl]. unfold tx_of, payload.
  destruct (CommandValid m); cbn [negb] in E; [|by injection E as <-].
  destruct (MsgCommand m) as [[p|c]|]; [|by injection E as <-..]. cbn [mbind option_bind].
  destruct (Append _ _) as [? [? ?]]. injection E as <-. cbn. destruct (DecodeTransaction p); done.
Qed.

(** Every message is a put of one of the documents. *)
Lemma taken_puts n w i m : only_puts n w -> m ∈ taken w i -> exists o k, tx_of m = Some o /\ 0 <= k <= n /\ puts o (doc k).
Proof.
  intros [Hr Ha] Hm. destruct (replica_applies _ _ _ _ w Hr) as [Hg _].
  destruct (delivered_from peers docs_cap _ (group w) i m valid Hg Ha) as (e & c & (k & blob & Hk & HE & Hc) & Hc' & ->).
  { unfold delivered. apply elem_of_app. by left. }
  rewrite Hc in Hc'. injection Hc' as <-. destruct (mutations_roundtrip [put_counter k] blob) as (ms' & HD & HF); [by repeat constructor|done|].
  inversion HF as [|? m' ? ms'' (Hop & Hid & Hv & Hd) HF']; subst. inversion HF'; subst.
  exists (OpApply [m'] (Index e)), k. split_and!; [|lia|lia|].
  - unfold tx_of, payload. cbn. unfold DecodeTransaction. by rewrite HD.
  - exists m', (Index e). split_and!; [done|done|done|done|]. rewrite Hd. apply decodes. lia.
Qed.

Lemma puts_same o d d' : puts o d -> puts o d' -> d = d'.
Proof. intros (m & idx & -> & _ & _ & _ & Hd) (m' & idx' & [= <- _] & _ & _ & _ & Hd'). congruence. Qed.

(** What a reader has seen of replica [i] when it holds [a]. *)
Definition seen (i : Z) (a : A) (w : Group) : Prop :=
  exists c0, c0 <> [] /\ c0 `prefix_of` taken w i /\ a = rs_begin (rs_run (txs c0) rs_new).

Lemma replica_run n w i : only_puts n w -> store (replica w i) = rs_run (txs (taken w i)) rs_new /\ lastAppliedRaftIndex (replica w i) = last_idx 0 (taken w i).
Proof.
  intros [Hr _]. destruct (replica_applies _ _ _ _ w Hr) as [_ Hi]. destruct (fresh_origin i) as [<- <-]. by apply applies_docs.
Qed.

(** A read gets a document. *)
Lemma seen_found n i a w : only_puts n w -> seen i a w ->
  exists k, 0 <= k <= n /\ rs_get a the_id (store (replica w i)) = Some (Some (doc k)).
Proof.
  intros Hw (c0 & Hne & [c1 Hc] & ->). destruct (replica_run n w i Hw) as [-> _].
  assert (Hp : forall o, o ∈ txs (c0 ++ c1) -> exists k, 0 <= k <= n /\ puts o (doc k)).
  { intros o (m & Hm & Ho)%list_elem_of_omap. rewrite <- Hc in Hm. destruct (taken_puts n w i m Hw Hm) as (o' & k & Ho' & Hk & Hp).
    exists k. split; [done|]. congruence. }
  assert (Hne' : txs c0 <> []).
  { destruct c0 as [|m c0]; [done|]. destruct (taken_puts n w i m Hw) as (o & k & Ho & _); [rewrite Hc; by left|]. unfold txs. cbn. by rewrite Ho. }
  rewrite Hc, txs_app in *. destruct (reads_found (txs c0) (txs c1)) as (o & d & Ho & Hd & ->).
  - rewrite <- txs_app, <- Hc. apply rising_txs, (consumed_rising peers docs_cap); [done|]. destruct Hw as [Hr _]. by apply replica_applies in Hr as [? _].
  - done.
  - intros o Ho. destruct (Hp o Ho) as (k & _ & ?). by exists (doc k).
  - destruct (Hp o Ho) as (k & Hk & Hd'). exists k. split; [done|]. do 2 f_equal. by eapply puts_same.
Qed.

(** ** Turns *)

Definition counting (r : reader A) : bool := match r with RCount => true | _ => false end.
Definition in_count (rs : list (reader A)) : Z := foldr (fun r n => Z.b2z (counting r) + n) 0 rs.

Lemma in_count_insert rs : forall k r r', rs !! k = Some r -> in_count (<[k := r']> rs) = in_count rs - Z.b2z (counting r) + Z.b2z (counting r').
Proof.
  induction rs as [|x rs IH]; intros k r r' H; [done|]. change (in_count (x :: rs)) with (Z.b2z (counting x) + in_count rs).
  destruct k as [|k]; [injection H as ->; change (in_count (<[0%nat := r']> (r :: rs))) with (Z.b2z (counting r') + in_count rs); lia|].
  change (in_count (<[S k := r']> (x :: rs))) with (Z.b2z (counting x) + in_count (<[k := r']> rs)). rewrite (IH k r r' H). lia.
Qed.

Lemma in_count_exited rs : forallb exited rs = true -> in_count rs = 0.
Proof. induction rs as [|r rs IH]; [done|]. cbn. intros [Hr Hrs]%andb_true_iff. specialize (IH Hrs). unfold in_count in *. rewrite IH. by destruct r. Qed.

Context (lead : Z) (lead_in : lead ∈ peers) (start duration : Z).

Record load_ok (l : Load C Store A) : Prop := {
  ok_written : 0 <= n_written l;
  ok_puts : only_puts (n_written l) (group_of l);
  ok_taken : taken (group_of l) lead <> [];
  ok_seen : forall k a, readers l !! k = Some (RGet a) -> seen lead a (group_of l);
  ok_found : Forall (fun o => exists k, 0 <= k <= n_written l /\ o = Some (doc k)) (found l);
  ok_total : zlen (found l) = totalReads l + in_count (readers l);
  ok_exit : forall k, readers l !! k = Some RExit -> duration <= load_clock l - start
}.

(** The turns that the schedule may have. *)
Definition turn_ok (t : turn) : Prop := match t with TOthers acts => no_proposals acts | _ => True end.

(** What a turn gives. *)
Definition steps_to (l l' : Load C Store A) : Prop :=
  load_ok l' /\ load_clock l <= load_clock l' /\ length (readers l') = length (readers l).

Lemma set_reader_ok k r l :
  load_ok l -> (forall a, r = RGet a -> seen lead a (group_of l)) -> (r = RExit -> duration <= load_clock l - start) ->
  forall r0, readers l !! k = Some r0 -> forall total fs,
  zlen fs = total + in_count (<[k := r]> (readers l)) -> Forall (fun o => exists k, 0 <= k <= n_written l /\ o = Some (doc k)) fs ->
  steps_to l (set_reader k r (mkLoad (beside l) (readers l) total (writer_at l) (n_written l) (writeCount l) (stop_closed l) fs)).
Proof.
  intros [H1 H2 H3 H4 H5 H6 H7] Hr Hx r0 Hk total fs Ht Hf. split; [|split; [done|apply (length_insert (readers l) k r)]]. split; try done; cbn.
  - intros j a. destruct (decide (j = k)) as [->|Hj].
    + rewrite list_lookup_insert_eq by (by eapply lookup_lt_Some). intros [= Ha]. by apply Hr.
    + rewrite list_lookup_insert_ne by done. apply H4.
  - intros j. destruct (decide (j = k)) as [->|Hj].
    + rewrite list_lookup_insert_eq by (by eapply lookup_lt_Some). intros [= Ha]. by apply Hx.
    + rewrite list_lookup_insert_ne by done. apply H7.
Qed.

Lemma reader_turn_ok k l : load_ok l -> exists l', reader_turn lead start duration k l = Returns l' /\ steps_to l l'.
Proof.
  intros H. unfold reader_turn. destruct (readers l !! k) as [r|] eqn:Ek; [|by exists l].
  pose proof (fun r => set_reader_ok k r l H) as HS. pose proof (ok_total _ H) as Ht. pose proof (ok_found _ H) as Hf.
  destruct r as [| |a| |]; [..|by exists l].
  - eexists. split; [done|]. apply (HS (if load_clock l - start <? duration then RBegin else RExit)) with (r0 := RCheck) (total := totalReads l) (fs := found l);
      [intros a; by case_test|case_test; [done|lia]|done| |done].
    rewrite (in_count_insert _ _ _ _ Ek). case_test; cbn [counting Z.b2z]; lia.
  - eexists. split; [done|]. apply (HS (RGet _)) with (r0 := RBegin) (total := totalReads l) (fs := found l); [|done|done| |done].
    + intros a [= <-]. exists (taken (group_of l) lead). split; [apply (ok_taken _ H)|]. split; [done|].
      f_equal. by apply (replica_run _ _ _ (ok_puts _ H)).
    + rewrite (in_count_insert _ _ _ _ Ek). cbn [counting Z.b2z]. lia.
  - destruct (seen_found _ lead a _ (ok_puts _ H) (ok_seen _ H k a Ek)) as (j & Hj & E). unfold store_of. rewrite E.
    eexists. split; [done|]. apply (HS RCount) with (r0 := RGet a); [done|done|done| |].
    + rewrite (in_count_insert _ _ _ _ Ek), zlen_snoc. cbn [counting Z.b2z]. lia.
    + apply Forall_app. split; [done|]. constructor; [|constructor]. by exists j.
  - eexists. split; [done|]. apply (HS RCheck) with (r0 := RCount); [done|done|done| |done].
    rewrite (in_count_insert _ _ _ _ Ek). cbn [counting Z.b2z]. lia.
Qed.

(** The group moved on and the writer is elsewhere. *)
Lemma moved_ok l w p n c : load_ok l -> n_written l <= n -> only_puts n w ->
  (forall i, taken (group_of l) i `prefix_of` taken w i) -> load_clock l <= clock (group w) ->
  steps_to l (mkLoad (mkCluster (net (beside l)) w (part (beside l))) (readers l) (totalReads l) p n c (stop_closed l) (found l)).
Proof.
  intros [H1 H2 H3 H4 H5 H6 H7] Hn Hw Hp Hc. split; [|done]. split; try done; cbn.
  - lia.
  - intros E. destruct (Hp lead) as [rest Hrest]. unfold group_of in *. cbn in E. rewrite E in Hrest.
    by apply eq_sym, app_eq_nil in Hrest as [? _].
  - intros k a Hk. destruct (H4 k a Hk) as (c0 & Hne & Hc0 & ->). exists c0. split; [done|]. split; [|done]. etransitivity; [exact Hc0|apply Hp].
  - eapply Forall_impl; [exact H5|]. intros o (k & Hk & ->). exists k. split; [lia|done].
  - intros k Hk. specialize (H7 k Hk). unfold load_clock, group_of in *. cbn in *. lia.
Qed.

Lemma writer_turn_ok l : load_ok l -> exists l', writer_turn peers lead l = Returns l' /\ steps_to l l'.
Proof.
  intros H. pose proof (ok_written _ H) as Hw. pose proof (ok_puts _ H) as Hp.
  assert (Hstay : forall p n c, n_written l <= n -> steps_to l (mkLoad (beside l) (readers l) (totalReads l) p n c (stop_closed l) (found l))).
  { intros p n c Hn. pose proof (moved_ok l (group_of l) p n c H Hn (only_puts_mono _ _ _ Hn Hp) ltac:(done) ltac:(done)) as Hm.
    unfold group_of in Hm. by destruct (beside l). }
  unfold writer_turn. destruct (writer_at l); [..|by exists l].
  - destruct (stop_closed l) eqn:Es; eexists; (split; [done|]); unfold set_writer; rewrite ?Es; apply Hstay; lia.
  - destruct (Propose rs_tx peers docs_cap lead [put_counter (n_written l)] (group_of l)) as [[r w]|] eqn:E.
    + destruct (propose_puts _ _ _ _ _ _ E ltac:(by split) Hp) as (Hw' & Ht & Hc). eexists. split; [done|].
      exact (moved_ok l w _ (n_written l) (writeCount l) H ltac:(done) Hw' Ht Hc).
    + exfalso. unfold Propose in E. destruct (EncodeTransaction _) as [blob|]; [|done].
      destruct (Submit_total apply_ peers docs_cap origin (Some (CBytes blob)) lead (group_of l) valid (proj1 Hp) lead_in) as (? & ? & ? & ? & E'). by rewrite E' in E.
  - eexists. split; [done|]. by apply Hstay.
  - case_test; eexists; (split; [done|]); [by apply Hstay|done].
Qed.

Lemma load_turn_ok t l : turn_ok t -> load_ok l -> exists l', load_turn peers lead start duration t l = Returns l' /\ steps_to l l'.
Proof.
  intros Ht H. destruct t as [k| |acts]; cbn [load_turn]; [by apply reader_turn_ok|by apply writer_turn_ok|].
  destruct (runs_puts _ acts _ Ht (ok_puts _ H)) as (Hw & Hp & Hc). eexists. split; [done|].
  exact (moved_ok l _ (writer_at l) (n_written l) (writeCount l) H ltac:(done) Hw Hp Hc).
Qed.

Lemma steps_to_trans l1 l2 l3 : steps_to l1 l2 -> steps_to l2 l3 -> steps_to l1 l3.
Proof. intros (_ & H2 & H3) (H4 & H5 & H6). split_and!; [done|lia|congruence]. Qed.

Lemma load_turns_ok ts : forall l, Forall turn_ok ts -> load_ok l ->
  exists l', load_turns peers lead start duration ts l = Returns l' /\ steps_to l l'.
Proof.
  induction ts as [|t ts IH]; intros l Ht H; cbn [load_turns]; [by exists l|]. apply Forall_cons in Ht as [Ht Hts].
  destruct (load_turn_ok t l Ht H) as (l1 & -> & H1). destruct (IH l1 Hts (proj1 H1)) as (l2 & E2 & H2).
  exists l2. split; [exact E2|by eapply steps_to_trans].
Qed.

Lemma waitGroup_ok ts : forall l, Forall turn_ok ts -> load_ok l ->
  match waitGroup peers lead start duration ts l with
  | Returns l' => steps_to l l' /\ forallb exited (readers l') = true
  | Panics _ => False
  | Unfinished => exists l', load_turns peers lead start duration ts l = Returns l' /\ forallb exited (readers l') = false
  end.
Proof.
  induction ts as [|t ts IH]; intros l Ht H; cbn [waitGroup load_turns]; destruct (forallb exited (readers l)) eqn:E; [done|by exists l|done|].
  apply Forall_cons in Ht as [Ht Hts]. destruct (load_turn_ok t l Ht H) as (l1 & -> & H1). unfold mbind, finish_bind.
  specialize (IH l1 Hts (proj1 H1)). destruct (waitGroup _ _ _ _ ts l1) as [l'| |]; [|done|done].
  destruct IH as [H2 He]. split; [by eapply steps_to_trans|done].
Qed.

Lemma load_turns_app ts1 ts2 (l : Load C Store A) :
  load_turns peers lead start duration (ts1 ++ ts2) l =
  match load_turns peers lead start duration ts1 l with Returns l => load_turns peers lead start duration ts2 l | o => o end.
Proof.
  revert l; induction ts1 as [|t ts1 IH]; intros l; cbn [load_turns app]; [done|]. unfold mbind, finish_bind.
  destruct (load_turn _ _ _ _ t l); [apply IH|done..].
Qed.

(** Readers that are done stay so. *)
Lemma exited_stay ts : forall l l' : Load C Store A, forallb exited (readers l) = true -> load_turns peers lead start duration ts l = Returns l' ->
  readers l' = readers l.
Proof.
  induction ts as [|t ts IH]; intros l l' He H; cbn [load_turns] in H; [by injection H as <-|]. unfold mbind, finish_bind in H.
  destruct (load_turn _ _ _ _ t l) as [l1| |] eqn:E; [|done..].
  assert (Hr : readers l1 = readers l); [|rewrite <- Hr in He |- *; by eapply IH].
  destruct t as [k| |acts]; cbn in E; [|unfold writer_turn in E|by injection E as <-].
  - unfold reader_turn in E. destruct (readers l !! k) as [r|] eqn:Ek; [|by injection E as <-].
    assert (exited r = true) by (rewrite forallb_forall in He; apply He, list_elem_of_In; by eapply list_elem_of_lookup_2).
    destruct r; try done. by injection E as <-.
  - destruct (writer_at l); [destruct (stop_closed l)|destruct (Propose _ _ _ _ _ _) as [[? ?]|]; [|done]| |case_test_in E|]; by injection E as <-.
Qed.

(** ** Readers end *)

(** How many turns a reader needs once the time is over. *)
Definition left_turns (r : reader A) : nat := match r with RExit => 0 | RCheck => 1 | RCount => 2 | RGet _ => 3 | RBegin => 4 end.
Definition is_turn_of (k : nat) (t : turn) : bool := match t with TReader j => Nat.eqb j k | _ => false end.
Definition turns_of (k : nat) (ts : list turn) : nat := length (List.filter (is_turn_of k) ts).

Lemma load_turn_reader t (l l' : Load C Store A) k r : load_turn peers lead start duration t l = Returns l' -> duration <= load_clock l - start ->
  readers l !! k = Some r ->
  exists r', readers l' !! k = Some r' /\ (left_turns r' <= left_turns r)%nat /\ (is_turn_of k t = true -> left_turns r' = pred (left_turns r)).
Proof.
  intros H Hc Hk. destruct t as [j| |acts]; cbn in H.
  - unfold reader_turn in H. destruct (decide (j = k)) as [->|Hj].
    + rewrite Hk in H. destruct r as [| |a| |]; cbn in H.
      * rewrite (proj2 (Z.ltb_ge _ _)) in H by lia. injection H as <-. cbn. eexists. rewrite list_lookup_insert_eq by (by eapply lookup_lt_Some). split_and!; [done|cbn; lia|done].
      * injection H as <-. cbn. eexists. rewrite list_lookup_insert_eq by (by eapply lookup_lt_Some). split_and!; [done|cbn; lia|done].
      * destruct (rs_get _ _ _); [|done]. injection H as <-. cbn. eexists. rewrite list_lookup_insert_eq by (by eapply lookup_lt_Some). split_and!; [done|cbn; lia|done].
      * injection H as <-. cbn. eexists. rewrite list_lookup_insert_eq by (by eapply lookup_lt_Some). split_and!; [done|cbn; lia|done].
      * injection H as <-. by exists RExit.
    + exists r. split; [|split; [done|cbn; by intros ?%Nat.eqb_eq]].
      destruct (readers l !! j) as [[| |a| |]|]; cbn in H; [..|by injection H as <-|by injection H as <-];
        try (injection H as <-; cbn; by rewrite list_lookup_insert_ne).
      destruct (rs_get _ _ _); [|done]. injection H as <-. cbn. by rewrite list_lookup_insert_ne.
  - exists r. split; [|done]. unfold writer_turn in H. destruct (writer_at l); [destruct (stop_closed l)|destruct (Propose _ _ _ _ _ _) as [[? ?]|]; [|done]| |case_test_in H|];
      by injection H as <-.
  - exists r. by injection H as <-.
Qed.

Lemma readers_exit ts : forall l l' k r, Forall turn_ok ts -> load_ok l -> load_turns peers lead start duration ts l = Returns l' ->
  duration <= load_clock l - start -> readers l !! k = Some r -> (left_turns r <= turns_of k ts)%nat -> readers l' !! k = Some RExit.
Proof.
  induction ts as [|t ts IH]; intros l l' k r Ht Hok H Hc Hk Hn; cbn [load_turns] in H.
  - injection H as <-. unfold turns_of in Hn. cbn in Hn. destruct r; cbn in Hn; (lia || done).
  - apply Forall_cons in Ht as [Ht Hts]. destruct (load_turn_ok t l Ht Hok) as (l1 & E & Hok1 & Hc1 & _). rewrite E in H.
    destruct (load_turn_reader t l l1 k r E Hc Hk) as (r1 & Hk1 & Hle & Hlt).
    apply (IH l1 l' k r1 Hts Hok1 H ltac:(lia) Hk1). unfold turns_of in *. cbn [List.filter] in Hn.
    destruct (is_turn_of k t); [rewrite Hlt by done; cbn [length] in Hn; lia|lia].
Qed.

End invariant.

(** * What the benchmarks report *)

Section results.
Context {C : Type} `{CS : ColdStore C} `{J : Json} `{JO : !JsonOk} (doc : Z -> Document).
Context (decodes : forall k, 0 <= k -> document_of (counter_json k) = Some (doc k)).

(** Nothing else in the process proposes. *)
Definition quiet_setting (s : Setting C) : Prop :=
  (forall k, no_proposals (s_sched s k)) /\ Forall no_proposals (s_polls s) /\
  Forall turn_ok (s_before s) /\ Forall turn_ok (s_during s) /\ Forall turn_ok (s_after s).

Abbreviation nodes3 := (seqZ 0 3).

Section store.
Context {Store A : Type} `{RS : !ReadStore Store A} `{RSO : !ReadStoreOk Store A}.
Abbreviation apply_ := (applyDoc (C := C) (Store := Store) rs_tx).

Lemma nodes3_valid : valid_config nodes3.
Proof. split; [apply NoDup_seqZ|by repeat constructor]. Qed.

Section group.
Context (origin : Z -> Docs C Store) (fresh_origin : forall i, store (origin i) = rs_new /\ lastAppliedRaftIndex (origin i) = 0).

Lemma findDocLeader_ok s b : quiet_setting s -> only_puts nodes3 origin 0 (nodes_ b) ->
  match findDocLeader s b with
  | Returns (lead, b') => lead ∈ nodes3 /\ only_puts nodes3 origin 0 (nodes_ b')
  | Panics msg => msg = "no leader elected"%string
  | Unfinished => False
  end.
Proof.
  intros (Hs & _) Hb. unfold findDocLeader.
  destruct (search_spec apply_ (s_sched s) nodes3 docs_cap (fun net i => negb (IsConnected i net)) (20 * Millisecond) (3 * Second) b) as (i & b' & E & _ & Hi);
    [done|done|]. unfold mbind, finish_bind. rewrite E. case_test; [done|]. destruct Hi as [[-> _]|[Hi _]]; [done|]. split; [done|].
  eapply (search_keeps apply_ (s_sched s) nodes3 docs_cap (only_puts nodes3 origin 0)); [..|exact E|exact Hb].
  - intros k w Hw. by apply runs_puts.
  - intros d w Hw. apply runs_puts; [by repeat constructor|done].
Qed.

Lemma firstWrite_ok s failure lead w : quiet_setting s -> lead ∈ nodes3 -> only_puts nodes3 origin 0 w ->
  match firstWrite s failure lead w with
  | Returns w' => only_puts nodes3 origin 0 w' /\ consumed (nodes (group w') lead) <> []
  | Panics msg => msg = failure
  | Unfinished => exists idx w1, WaitApplied apply_ lastAppliedRaftIndex nodes3 docs_cap (s_polls s) lead idx (clock (group w1) + 2 * Second) w1 = None
  end.
Proof.
  intros (_ & Hp & _) Hl Hw. unfold firstWrite. destruct (Propose rs_tx nodes3 docs_cap lead [put_counter 0] w) as [[r w1]|] eqn:E.
  2:{ exfalso. unfold Propose in E. destruct (EncodeTransaction _) as [blob|]; [|done].
      destruct (Submit_total apply_ nodes3 docs_cap origin (Some (CBytes blob)) lead w nodes3_valid (proj1 Hw) Hl) as (? & ? & ? & ? & E'). by rewrite E' in E. }
  destruct r as [[idx b]|]; [|done]. destruct b; [|done]. cbn [negb].
  assert (Hidx : 1 <= idx).
  { unfold Propose in E. destruct (EncodeTransaction _) as [blob|]; [|done]. destruct (Submit _ _ _ _ _ w) as [[[[? ?] ?] ?]|] eqn:ES; [|done].
    cbn in E. simplify_eq. eapply Submit_index; [exact nodes3_valid|exact (proj1 Hw)|exact ES]. }
  destruct (propose_puts nodes3 origin 0 0 lead w _ w1 E ltac:(lia) Hw) as [Hw1 _].
  destruct (WaitApplied _ _ _ _ _ _ _ _ w1) as [[[] w2]|] eqn:EW; [|done|by exists idx, w1].
  assert (Hw2 : only_puts nodes3 origin 0 w2).
  { eapply WaitApplied_keeps; [|exact EW|exact Hw1]. intros part v v' Hpart Hv. rewrite list.Forall_forall in Hp. intros Hq.
    by apply (rrun_puts nodes3 origin 0 part v v' Hv (Hp _ Hpart)). }
  split; [done|]. intros Hc. apply WaitApplied_spec in EW as [_ Hap]. specialize (Hap eq_refl).
  destruct (replica_run nodes3 origin fresh_origin 0 w2 lead Hw2) as [_ Hlast]. rewrite Hlast, Hc in Hap. cbn in Hap. lia.
Qed.

End group.

(** Why a run has not ended: its first write waits, or some reader has fewer than four
    turns after the time is over. *)
Definition cut_short (s : Setting C) (n : nat) (duration : Z) : Prop :=
  (exists lead idx w, WaitApplied apply_ lastAppliedRaftIndex nodes3 docs_cap (s_polls s) lead idx (clock (group w) + 2 * Second) w = None) \/
  exists lead (l : Load C Store A) k, (k < n)%nat /\ forall before after l1, s_during s = before ++ after ->
    load_turns nodes3 lead (load_clock l) duration before (start_readers n l) = Returns l1 -> duration <= load_clock l1 - load_clock l ->
    (turns_of k after < 4)%nat.

(** What a run that ended reports. *)
Definition reads_reported (n duration : Z) (ops : spec_float) (l : Load C Store A) : Prop :=
  exists elapsed, ops = fdiv (float64 (zlen (found l))) (Seconds elapsed) /\ 0 <= elapsed /\ (0 < n -> duration <= elapsed) /\
    Forall (fun o => exists k, 0 <= k <= n_written l /\ o = Some (doc k)) (found l).

(** The origins of a cluster that was set up. *)
Lemma docs_cluster dirs draw :
  match clusterOf (NewDocs (C := C) (Store := Store) rs_new) 3 dirs draw with
  | Returns (_, w) => exists origin, (forall i, store (origin i) = rs_new /\ lastAppliedRaftIndex (origin i) = 0) /\ only_puts nodes3 origin 0 w
  | Panics msg => msg = "mkdir"%string \/ msg = "open wal"%string
  | Unfinished => False
  end.
Proof.
  pose proof (clusterOf_spec (NewDocs (C := C) (Store := Store) rs_new) 3 dirs draw ltac:(lia)) as H.
  destruct (clusterOf _ 3 dirs draw) as [[nt w]|msg|]; [|destruct H as [->|[e He]]; [by left|right]|done].
  - destruct H as (origin & -> & Ho). exists origin. split; [|split; [apply rreach_init|apply init_from]].
    intros i. destruct (Ho i) as (j & e & _ & He). unfold NewDocs in He. destruct (Open 0 e) as [[]]; [|done]. by injection He as <-.
  - unfold NewDocs in He. destruct (Open 0 e) as [[]]; [done|]. by injection He as <-.
Qed.

Section phases.
Context (origin : Z -> Docs C Store) (fresh_origin : forall i, store (origin i) = rs_new /\ lastAppliedRaftIndex (origin i) = 0).
Context (lead : Z) (lead_in : lead ∈ nodes3) (duration : Z).

Abbreviation ok := (load_ok doc nodes3 origin lead).

Lemma start_load_ok b w : only_puts nodes3 origin 0 w -> consumed (nodes (group w) lead) <> [] ->
  ok 0 duration (start_load b w : Load C Store A) /\ readers (start_load b w : Load C Store A) = [].
Proof. intros Hw Hc. split; [|done]. split; try done. Qed.

Lemma start_readers_ok n l : ok 0 duration l -> readers l = [] -> ok (load_clock l) duration (start_readers n l).
Proof.
  intros [H1 H2 H3 H4 H5 H6 H7] Hr. split; try done; cbn.
  - intros k a [? _]%lookup_replicate. done.
  - rewrite Hr in H6. rewrite H6. f_equal. clear. induction n as [|n IH]; [done|]. exact IH.
  - intros k [? _]%lookup_replicate. done.
Qed.

(** A reader that is not done had too few turns. *)
Lemma starved l ts n l' : ok (load_clock l) duration (start_readers n l) -> Forall turn_ok ts ->
  load_turns nodes3 lead (load_clock l) duration ts (start_readers n l) = Returns l' -> forallb exited (readers l') = false ->
  exists k, (k < n)%nat /\ forall before after l1, ts = before ++ after ->
    load_turns nodes3 lead (load_clock l) duration before (start_readers n l) = Returns l1 -> duration <= load_clock l1 - load_clock l -> (turns_of k after < 4)%nat.
Proof.
  intros Hok Hts E He. destruct (forallb_false_ex _ _ He) as (k & r & Hk & Hr).
  destruct (load_turns_ok doc decodes nodes3 nodes3_valid origin fresh_origin lead lead_in (load_clock l) duration ts _ Hts Hok) as (l2 & E2 & _ & _ & Hlen).
  rewrite E in E2. injection E2 as <-. exists k. split.
  { apply lookup_lt_Some in Hk. rewrite Hlen in Hk. cbn in Hk. by rewrite length_replicate in Hk. }
  intros before after l1 -> E1 Hc. apply Forall_app in Hts as [Hb Ha].
  destruct (load_turns_ok doc decodes nodes3 nodes3_valid origin fresh_origin lead lead_in (load_clock l) duration before _ Hb Hok) as (l1' & E1' & Hok1 & _ & Hlen1).
  rewrite E1 in E1'. injection E1' as <-. rewrite load_turns_app, E1 in E.
  destruct (lookup_lt_is_Some_2 (readers l1) k) as [r1 Hr1].
  { apply lookup_lt_Some in Hk. congruence. }
  apply Nat.lt_nge. intros Hn. assert (Hx : readers l' !! k = Some RExit); [|rewrite Hx in Hk; by injection Hk as <-].
  eapply (readers_exit doc decodes nodes3 nodes3_valid origin fresh_origin lead lead_in (load_clock l) duration after l1 l'); [done|done|exact E|done|exact Hr1|].
  etransitivity; [|exact Hn]. destruct r1; cbn; lia.
Qed.

End phases.
Lemma runReadBenchmark_spec failure s n duration : quiet_setting s ->
  match runReadBenchmark (Store := Store) (A := A) failure s n duration with
  | Returns (ops, l) => reads_reported n duration ops l
  | Panics msg => msg ∈ ["mkdir"; "open wal"; "no leader elected"; failure]%string
  | Unfinished => cut_short s (Z.to_nat n) duration
  end.
Proof.
  intros Hq. unfold runReadBenchmark. unfold mbind, finish_bind at 1. pose proof (docs_cluster (s_dirs s) (s_draw s)) as HC.
  destruct (clusterOf _ 3 _ _) as [[nt w]|msg|]; [|rewrite !elem_of_cons; tauto|done]. destruct HC as (origin & Ho & Hw).
  unfold finish_bind at 1. pose proof (findDocLeader_ok origin s (mkCluster nt w 0) Hq Hw) as HL.
  destruct (findDocLeader s _) as [[lead b]|msg|]; [|subst; rewrite !elem_of_cons; tauto|done]. destruct HL as [Hlead Hb].
  unfold finish_bind at 1. pose proof (firstWrite_ok origin Ho s failure lead (nodes_ b) Hq Hlead Hb) as HF.
  destruct (firstWrite s failure lead (nodes_ b)) as [w1|msg|]; [|subst; rewrite !elem_of_cons; tauto|].
  2:{ destruct HF as (idx & w1 & E). left. by exists lead, idx, w1. }
  destruct HF as [Hw1 Hc]. destruct (start_load_ok origin lead duration b w1 Hw1 Hc) as [Hok0 Hr0]. destruct Hq as (_ & _ & Hbefore & Hduring & Hafter).
  unfold finish_bind at 1.
  destruct (load_turns_ok doc decodes nodes3 nodes3_valid origin Ho lead Hlead 0 duration _ _ Hbefore Hok0) as (l1 & -> & Hok1 & _ & Hlen1).
  rewrite Hr0 in Hlen1. apply nil_length_inv in Hlen1. cbn zeta. unfold finish_bind at 1.
  pose proof (start_readers_ok origin lead duration (Z.to_nat n) l1 Hok1 Hlen1) as Hok2.
  pose proof (waitGroup_ok doc decodes nodes3 nodes3_valid origin Ho lead Hlead (load_clock l1) duration _ _ Hduring Hok2) as HW.
  destruct (waitGroup _ _ _ _ _ _) as [l3|msg|]; [|done|].
  2:{ destruct HW as (l' & E & He). right. exists lead, l1. by eapply starved. }
  destruct HW as [(Hok3 & Hc3 & Hlen3) He]. unfold finish_bind.
  destruct (load_turns_ok doc decodes nodes3 nodes3_valid origin Ho lead Hlead (load_clock l1) duration _ _ Hafter Hok3) as (l4 & E4 & Hok4 & Hc4 & Hlen4). rewrite E4.
  pose proof (exited_stay nodes3 lead (load_clock l1) duration _ _ _ He E4) as Hr4. rewrite <- Hr4 in He.
  change (load_clock l1 <= load_clock l3) in Hc3. exists (load_clock l4 - load_clock l1).
  split_and!; [|lia| |exact (ok_found _ _ _ _ _ _ _ Hok4)].
  - cbn [found stop_load]. pose proof (ok_total _ _ _ _ _ _ _ Hok4) as Ht.
    rewrite in_count_exited in Ht by done. rewrite Ht. by rewrite Z.add_0_r.
  - intros Hn. destruct (lookup_lt_is_Some_2 (readers l4) 0) as [r Hr].
    { rewrite Hlen4, Hlen3. cbn. rewrite length_replicate. lia. }
    apply (ok_exit _ _ _ _ _ _ _ Hok4 0%nat). rewrite forallb_forall in He. specialize (He r ltac:(apply list_elem_of_In; by eapply list_elem_of_lookup_2)).
    by destruct r.
Qed.

End store.


End results.

(** * A run *)

(** A codec that reads the writer's documents: what it did not write itself it reads
    as a text. *)
Definition text_json : Json := {|
  sprint := @sprint toy_json;
  unmarshal_document b :=
    match unmarshal_texts b with Ok d => Ok d | Err _ => Ok {["text"%string := VString (string_of_bytes b)]} end;
  marshal_document := @marshal_document toy_json;
  marshal_mutations := @marshal_mutations toy_json;
  unmarshal_mutations := @unmarshal_mutations toy_json
|}.

Lemma text_json_ok : @JsonOk text_json.
Proof.
  split; cbn [marshal_document unmarshal_document marshal_mutations unmarshal_mutations text_json].
  - intros b0 doc key text b _ _ _ E%unmarshal_marshal_texts. by rewrite E.
  - intros doc b E%unmarshal_marshal_texts. exists doc. by rewrite E.
  - intros ms b _. cbn [marshal_mutations unmarshal_mutations toy_json]. destruct (writable ms) eqn:E; [|done]. intros [= <-].
    apply andb_true_iff in E as [Hv Hf]. exists ms. rewrite (TryDecode_fit _ Hf). split; [by apply unfields_fields|].
    apply Forall2_same_length_lookup_2; [done|]. intros i x y Hx Hy. rewrite Hx in Hy. injection Hy as <-. done.
Qed.

#[local] Existing Instances text_json text_json_ok.

Definition text_doc (k : Z) : Document := match unmarshal_document (counter_json k) with Ok d => d | Err _ => ∅ end.

Lemma text_decodes k : 0 <= k -> document_of (counter_json k) = Some (text_doc k).
Proof. intros _. unfold text_doc, document_of. cbn. by destruct (unmarshal_texts _). Qed.

(** A peer is elected and commits the first write; the one reader takes a look at the
    store, the writer writes, the reader reads, and the time is over. *)
Definition one_read : Setting LocalDirColdStore := {|
  s_sched k := match k with 0%nat => election | _ => [] end;
  s_polls := [commits];
  s_before := [TWriter];
  s_during := [TReader 0; TReader 0; TWriter; TOthers commits; TReader 0; TReader 0; TOthers [ATime (4 * Second)]; TReader 0];
  s_after := [];
  s_dirs := bench_dirs;
  s_draw _ := 0
|}.

Lemma one_read_quiet : quiet_setting one_read.
Proof. split_and!; [intros [|k]|..]; by repeat constructor. Qed.

