(* ===== verification/Cmd.v ===== *)
(** The programs under [cmd/]: [cmd/benchmark], [cmd/mvcc_benchmark],
    [cmd/transport_benchmark], [cmd/compression_benchmark] and [cmd/dashboard_demo].

    A process prints and writes files.  The text of a JSON value and whether a file
    can be written are arguments, and so are the numbers that [math/rand] draws:
    the corpus is one for any of them. *)
From S2P Require Import Prelude GoLib Value GoFloat NetLib Http Files Cold Segment SegmentLog LogProof LogLifecycle LogRecover LogRefine Batch.
From S2P Require Import Raft RaftCluster RaftLog RaftInv RaftSteps RaftHandlers RaftSafety RaftTheorems Tls Transport Replica Replication Producer Monitor BenchCluster Bench BenchTcp.
From S2P Require Import Docstore DocstoreProof DocstoreTheorems DocReplica BenchReads.
From stdpp Require Import pretty.
#[local] Open Scope Z_scope.

Record Process := mkProcess { stdout : list string; stderr : list string; disk : gmap string string }.

(** A process exits with a status, dies of a panic, or has not ended. *)
Inductive Ending := exit (status : Z) (p : Process) | died (msg : string) (p : Process) | still.

Definition Println (s : string) (p : Process) : Process := mkProcess (stdout p ++ [s]) (stderr p) (disk p).
Definition Eprintln (s : string) (p : Process) : Process := mkProcess (stdout p) (stderr p ++ [s]) (disk p).

(** The rest of a program after a call. *)
Definition then_ {A} (r : finish A) (p : Process) (k : A -> Ending) : Ending :=
  match r with Returns a => k a | Panics msg => died msg p | Unfinished => still end.

(** The values that are encoded, with the names of their fields. *)
#[warnings="-register-all"]
Inductive json := JString (s : string) | JInt (z : Z) | JFloat (f : spec_float) | JArray (l : list json) | JObject (l : list (string * json)).

Section programs.
Context (MarshalIndent : json -> res string) (writable : string -> bool).

(** How the programs end: encode the result, write it and print it. *)
Definition report (marshal write path : string) (v : json) (p : Process) : Ending :=
  match MarshalIndent v with
  | Err e => exit 1 (Eprintln (marshal +:+ " " +:+ e) p)
  | Ok out =>
      if writable path then exit 0 (Println out (Println ("wrote " +:+ path) (mkProcess (stdout p) (stderr p) (<[path := out]> (disk p)))))
      else exit 1 (Eprintln write p)
  end.

(** * cmd/benchmark *)

Section benchmark.
Context {C : Type} `{CS : ColdStore C} `{GZ : Gzip}.

(** What each of the four runs meets. *)
Record Run := mkRun { r_sched : nat -> list Action; r_polls : nat -> list (list Action); r_fuel : nat; r_dirs : Z -> option (Env C); r_draw : Z -> Z }.

Definition json_of_throughput (r : ThroughputResult) : json :=
  JObject [("ack_level", JString (AckLevelName r)); ("writes", JInt (Writes r)); ("duration_sec", JFloat (DurationSec r));
           ("ops_per_sec", JFloat (OpsPerSec r)); ("p50_ms", JFloat (P50Ms r)); ("p95_ms", JFloat (P95Ms r)); ("p99_ms", JFloat (P99Ms r))]%string.
Definition json_of_chaos (r : ChaosResult) : json :=
  JObject [("detection_ms", JFloat (DetectionMs r)); ("recovery_ms", JFloat (RecoveryMs r))]%string.
Definition json_of_baseline (generatedAt : string) (throughput : list ThroughputResult) (chaos : ChaosResult) : json :=
  JObject [("generated_at", JString generatedAt); ("throughput", JArray (map json_of_throughput throughput)); ("chaos", json_of_chaos chaos)]%string.

Definition throughput (r : Run) (ack : AckLevel) (name : string) (burst : Z) : finish ThroughputResult :=
  '(x, _) ← RunThroughput (r_sched r) (r_polls r) (r_fuel r) (r_dirs r) (r_draw r) ack name burst; mret x.

Definition benchmark_main (run : nat -> Run) (generatedAt : string) (p : Process) : Ending :=
  let burst := 3 * Second in
  let p := Println "running throughput benchmark: ack=0 ..." p in
  then_ (throughput (run 0%nat) AckNone "ack=0" burst) p (fun ackNone =>
  let p := Println "running throughput benchmark: ack=1 ..." p in
  then_ (throughput (run 1%nat) AckLeader "ack=1" burst) p (fun ackLeader =>
  let p := Println "running throughput benchmark: ack=all ..." p in
  then_ (throughput (run 2%nat) AckAll "ack=all" burst) p (fun ackAll =>
  let p := Println "running chaos benchmark (kill leader, measure recovery) ..." p in
  then_ (RunChaos (r_sched (run 3%nat)) (r_polls (run 3%nat)) (r_dirs (run 3%nat)) (r_draw (run 3%nat))) p (fun '(chaos, _) =>
  report "marshal results:" "write results:" "benchmarks/results/v0.7_baseline.json"
    (json_of_baseline generatedAt [ackNone; ackLeader; ackAll] chaos) p)))).

End benchmark.

(** * cmd/mvcc_benchmark *)

Definition json_of_comparison (r : MVCCComparisonResult) : json :=
  JObject [("locked_reads_per_sec", JFloat (LockedReadsPerSec r)); ("mvcc_reads_per_sec", JFloat (MVCCReadsPerSec r)); ("speedup", JFloat (Speedup r));
           ("concurrent_readers", JInt (ConcurrentReaders r)); ("duration_sec", JFloat (ComparisonSec r))]%string.

Definition mvcc_main {C : Type} `{CS : ColdStore C} `{J : Json} (locked mvcc : Setting C) (p : Process) : Ending :=
  let p := Println "running MVCC vs. lock-based comparison (this takes a few seconds) ..." p in
  then_ (RunMVCCComparison locked mvcc 8 (2 * Second)) p (fun result =>
  report "marshal:" "write:" "benchmarks/results/v1.0_mvcc.json" (json_of_comparison result) p).

(** * cmd/transport_benchmark *)

(** What each of the five runs meets. *)
Record TcpRun := mkTcpRun {
  t_sched : nat -> list Action; t_calls : nat -> list (Z * TcpStep); t_timer : nat -> bool; t_fuel : nat;
  t_port : nat -> option Z; t_bind : Z -> string -> option string; t_draw : Z -> Z }.

Fixpoint tcpRuns (n i : nat) (run : nat -> TcpRun) : finish (list ChaosResult) :=
  match n with
  | O => mret []
  | S n =>
      let r := run i in
      '(x, _) ← RunRealTransportChaos (t_sched r) (t_calls r) (t_timer r) (t_fuel r) (t_port r) (t_bind r) (t_draw r);
      xs ← tcpRuns n (S i) run; mret (x :: xs)
  end.

Definition json_of_runs (generatedAt : string) (runs : list ChaosResult) : json :=
  JObject [("generated_at", JString generatedAt);
           ("transport", JString "real TCP (net/rpc over net.Listen/net.Dial), kill simulated via bidirectional TCPTransport.BlockPeer");
           ("runs", JArray (map json_of_chaos runs))]%string.

Definition transport_main (run : nat -> TcpRun) (generatedAt : string) (p : Process) : Ending :=
  let p := Println "running chaos benchmark over a real TCP transport (kill leader via bidirectional connection block) ..." p in
  then_ (tcpRuns 5 0 run) p (fun results =>
  report "marshal:" "write:" "benchmarks/results/v0.14_transport.json" (json_of_runs generatedAt results) p).

(** * cmd/compression_benchmark *)

(** A source of random numbers: [Intn] and [Int63n] are below their bound, and
    [Float64] is a fraction of 2^53. *)
Class Rand (R : Type) := {
  Intn : Z -> R -> Z * R;
  Int63n : Z -> R -> Z * R;
  Float64 : R -> Z * R
}.

Definition paths : list string :=
  ["/api/v1/objects"; "/api/v1/objects/{id}"; "/health"; "/metrics"; "/api/v1/buckets"; "/api/v1/buckets/{name}/list"]%string.
Definition statuses : list string := ["ok"; "ok"; "ok"; "ok"; "timeout"; "not_found"; "internal_error"]%string.
Definition errorMessages : list string :=
  ["connection reset by peer while reading chunk 4 of 9"; "quorum not reached: 1 of 3 replicas acknowledged within deadline";
   "segment file corrupt at offset 88213, index rebuild required"; "leader stepped down mid-request, retry against new leader"]%string.

(** The verb [%.3f]: the nearest decimal with three places, ties to even. *)
Definition thousandths (m : positive) (e : Z) : Z :=
  if 0 <=? e then Z.pos m * 2 ^ e * 1000
  else
    let d := 2 ^ (- e) in
    let q := Z.pos m * 1000 / d in
    let r := Z.pos m * 1000 mod d in
    if 2 * r <? d then q else if d <? 2 * r then q + 1 else if Z.even q then q else q + 1.
Definition three (k : Z) : string := ((if (k <? 100)%Z then "0" else "") +:+ (if (k <? 10)%Z then "0" else "") +:+ pretty k)%string.
Definition fixed3 (f : spec_float) : string :=
  match f with
  | S754_nan => "NaN"
  | S754_infinity s => if s then "-Inf" else "+Inf"
  | S754_zero s => (if s then "-" else "") +:+ "0.000"
  | S754_finite s m e => (if s then "-" else "") +:+ pretty (thousandths m e / 1000)%Z +:+ "." +:+ three (thousandths m e mod 1000)%Z
  end%string.

Section corpus.
Context {R : Type} `{RN : Rand R}.

(** The digits of [randomHexID]. *)
Fixpoint randomHexID (n : nat) (r : R) : option (string * R) :=
  match n with
  | O => Some (EmptyString, r)
  | S n =>
      let '(k, r) := Intn 16 r in
      c ← (chars "0123456789abcdef") @[k]; '(s, r) ← randomHexID n r; Some (String c s, r)
  end.

(** The line of one message; [None] is an index out of range. *)
Definition corpusLine (i : Z) (r : R) : option (string * R) :=
  let '(k, r) := Intn (zlen paths) r in path ← paths @[k];
  let '(k, r) := Intn (zlen statuses) r in status ← statuses @[k];
  let '(x, r) := Float64 r in
  let latencyMs := fadd (fdiv (float64 1) (float64 2)) (fmul (fdiv (float64 x) (float64 (2 ^ 53))) (float64 250)) in
  let '(userID, r) := Int63n 50000 r in
  '(requestID, r) ← randomHexID 16 r;
  let line := ("{" +:+ quoted "ts" +:+ ":" +:+ pretty (1700000000 + i)%Z +:+ "," +:+ quoted "level" +:+ ":" +:+ quoted "info" +:+ "," +:+
    quoted "service" +:+ ":" +:+ quoted "ledgerdb" +:+ "," +:+ quoted "path" +:+ ":" +:+ quoted path +:+ "," +:+
    quoted "status" +:+ ":" +:+ quoted status +:+ "," +:+ quoted "latency_ms" +:+ ":" +:+ fixed3 latencyMs +:+ "," +:+
    quoted "user_id" +:+ ":" +:+ pretty userID +:+ "," +:+ quoted "request_id" +:+ ":" +:+ quoted requestID)%string in
  if bool_decide (status = "ok"%string) then Some ((line +:+ "}")%string, r)
  else
    let '(k, r) := Intn (zlen errorMessages) r in
    e ← errorMessages @[k]; Some ((line +:+ "," +:+ quoted "error" +:+ ":" +:+ quoted e +:+ "}")%string, r).

Fixpoint corpusLoop (n : nat) (i : Z) (r : R) : option (list bytes) :=
  match n with
  | O => Some []
  | S n => '(line, r) ← corpusLine i r; ms ← corpusLoop n (i + 1) r; Some (bytes_of_string line :: ms)
  end.

Definition json_of_compression (r : CompressionResult) : json :=
  JObject [("message_count", JInt (MessageCount r)); ("uncompressed_bytes", JInt (UncompressedBytes r));
           ("compressed_bytes", JInt (CompressedBytes r)); ("compression_ratio", JFloat (CompressionRatio r))]%string.

(** [main]: the source is seeded before. *)
Definition compression_main `{GZ : Gzip} (r : R) (p : Process) : Ending :=
  match corpusLoop 1000 0 r with
  | None => died "index out of range" p
  | Some messages =>
      report "marshal:" "write:" "benchmarks/results/v0.8_compression.json" (json_of_compression (RunCompressionComparison messages)) p
  end.

End corpus.
End programs.

(** * cmd/dashboard_demo *)

(** [main] until it serves: the routes, the nodes and what was printed; [bind] is
    whether the port can be had. *)
Definition demo_main {C : Type} `{CS : ColdStore C} `{J : Json} (indexHTML : bytes) (bind : string -> bool) (dirs : Z -> option (Env C)) (draw : Z -> Z)
    (p : Process) : Ending + list (Pattern * (list (Z * bool) -> dash_response)) * @RepWorld (Docs C MVCCStore) * Process :=
  match clusterOf (NewReplicatedDocStore "") 3 dirs draw with
  | Unfinished => inl still
  | Panics msg => inl (died msg p)
  | Returns (_, w) =>
      let p := Println "serving dashboard at http://localhost:8080" p in
      match dash_New indexHTML with
      | None => inl (died "http: invalid pattern" p)
      | Some mux => if bind ":8080"%string then inr (mux, w, p) else inl (died "listen" p)
      end
  end.

(** What the nodes say when a request asks them. *)
Definition demo_states {C} (w : @RepWorld (Docs C MVCCStore)) : list (Z * bool) := map (fun i => DocState i w) (seqZ 0 3).

(** A demo that serves shows the states of its three nodes under [/status]. *)
Lemma demo_serves {C : Type} `{CS : ColdStore C} `{J : Json} indexHTML bind (dirs : Z -> option (Env C)) draw p mux (w w' : @RepWorld (Docs C MVCCStore)) p' method :
  demo_main indexHTML bind dirs draw p = inr (mux, w, p') ->
  dash_ServeHTTP mux method "/status" "" (demo_states w') =
  JsonStatus "application/json" [mkNodeStatus 0 (fst (DocState 0 w')) (snd (DocState 0 w')); mkNodeStatus 1 (fst (DocState 1 w')) (snd (DocState 1 w'));
    mkNodeStatus 2 (fst (DocState 2 w')) (snd (DocState 2 w'))].
Proof.
  unfold demo_main. destruct (clusterOf _ 3 dirs draw) as [[nt w0]| |]; try done.
  destruct (dash_New indexHTML) as [m|] eqn:Em; [|done]. destruct (bind _); [|done]. intros [= -> _ _].
  rewrite (dash_serves indexHTML mux method "/status" "" _ (chars "status") Em) by (vm_compute; reflexivity || discriminate).
  rewrite bool_decide_true by reflexivity. reflexivity.
Qed.

(** * What the programs measure *)

(** Random numbers within their bounds. *)
Class RandOk (R : Type) `{Rand R} := {
  Intn_bound n r : 0 < n -> 0 <= fst (Intn n r) < n
}.

Section corpus_proofs.
Context {R : Type} `{RN : Rand R} `{RO : !RandOk R}.

Lemma randomHexID_total n : forall r, exists s r', randomHexID n r = Some (s, r') /\ length (chars s) = n.
Proof.
  induction n as [|n IH]; intros r; cbn [randomHexID]; [by eexists _, _|].
  pose proof (Intn_bound 16 r ltac:(lia)) as Hb. destruct (Intn 16 r) as [k r1]. cbn in Hb.
  destruct (zget_Some (chars "0123456789abcdef") k) as [c ->]; [exact Hb|]. cbn [mbind option_bind].
  destruct (IH r1) as (s & r2 & -> & Hl). cbn [mbind option_bind]. exists (String c s), r2. split; [done|]. cbn. f_equal. exact Hl.
Qed.

Lemma corpusLine_total i r : exists line r', corpusLine i r = Some (line, r').
Proof.
  unfold corpusLine. pose proof (Intn_bound (zlen paths) r ltac:(done)) as B1. destruct (Intn (zlen paths) r) as [k1 r1].
  destruct (zget_Some paths k1 B1) as [path ->]. cbn [mbind option_bind].
  pose proof (Intn_bound (zlen statuses) r1 ltac:(done)) as B2. destruct (Intn (zlen statuses) r1) as [k2 r2].
  destruct (zget_Some statuses k2 B2) as [status ->]. cbn [mbind option_bind].
  destruct (Float64 r2) as [x r3], (Int63n 50000 r3) as [u r4]. destruct (randomHexID_total 16 r4) as (h & r5 & -> & _). cbn [mbind option_bind].
  destruct (bool_decide _); [by eexists _, _|]. pose proof (Intn_bound (zlen errorMessages) r5 ltac:(done)) as B3.
  destruct (Intn (zlen errorMessages) r5) as [k3 r6]. destruct (zget_Some errorMessages k3 B3) as [m ->]. cbn [mbind option_bind]. by eexists _, _.
Qed.

Lemma corpusLoop_total n : forall i r, exists ms, corpusLoop n i r = Some ms /\ length ms = n.
Proof.
  induction n as [|n IH]; intros i r; cbn [corpusLoop]; [by exists []|]. destruct (corpusLine_total i r) as (line & r1 & ->). cbn [mbind option_bind].
  destruct (IH (i + 1) r1) as (ms & -> & Hl). cbn [mbind option_bind]. eexists. split; [done|]. cbn. by rewrite Hl.
Qed.

(** The comparison is of a batch that loses nothing: the blob whose size is reported
    decodes to the messages whose sizes are added up. *)
Lemma compression_lossless `{GZ : Gzip} `{GZO : !GzipOk} messages : small messages -> zlen messages < 2 ^ 32 ->
  TryDecode (Encode messages) = Some (Batch messages) /\
  let r := RunCompressionComparison messages in
  MessageCount r = zlen messages /\ UncompressedBytes r = zlen (concat messages) /\ CompressedBytes r = zlen (Encode messages).
Proof.
  intros Hs Hl. split; [by apply batch_roundtrip|]. cbn. split; [done|]. split; [|done].
  assert (H : forall (ms : list bytes) n, foldl (fun n m => n + zlen m) n ms = n + zlen (concat ms)); [|by rewrite H].
  induction ms as [|m ms IH]; intros n; cbn; [rewrite zlen_nil; lia|]. rewrite IH, zlen_app. lia.
Qed.

(** [main] reports a comparison of a thousand messages, whatever is drawn. *)
Lemma compression_main_reports `{GZ : Gzip} MarshalIndent writable (r : R) p : exists messages,
  zlen messages = 1000 /\
  compression_main MarshalIndent writable r p =
  report MarshalIndent writable "marshal:" "write:" "benchmarks/results/v0.8_compression.json" (json_of_compression (RunCompressionComparison messages)) p.
Proof.
  unfold compression_main. destruct (corpusLoop_total 1000 0 r) as (ms & -> & Hl). exists ms. unfold zlen. by rewrite Hl.
Qed.

End corpus_proofs.

(** The results of the five runs are what the measurements returned, in their order. *)
Lemma tcpRuns_all n : forall i run xs, tcpRuns n i run = Returns xs ->
  length xs = n /\
  forall k x, xs !! k = Some x -> exists b,
    RunRealTransportChaos (t_sched (run (i + k)%nat)) (t_calls (run (i + k)%nat)) (t_timer (run (i + k)%nat)) (t_fuel (run (i + k)%nat))
      (t_port (run (i + k)%nat)) (t_bind (run (i + k)%nat)) (t_draw (run (i + k)%nat)) = Returns (x, b).
Proof.
  induction n as [|n IH]; intros i run xs; cbn [tcpRuns]; [by intros [= <-]|]. unfold mbind, finish_bind.
  destruct (RunRealTransportChaos _ _ _ _ _ _ _) as [[x b]| |] eqn:E; [|done..]. destruct (tcpRuns n (S i) run) as [ys| |] eqn:Ey; [|done..].
  intros [= <-]. destruct (IH _ _ _ Ey) as [Hl Hk]. split; [cbn; by rewrite Hl|]. intros [|k] y.
  - intros [= <-]. exists b. by rewrite Nat.add_0_r.
  - rewrite Nat.add_succ_r. apply Hk.
Qed.

(** A program that ends well has written its report and printed it last. *)
Lemma report_ok MarshalIndent writable marshal write path v p p' : report MarshalIndent writable marshal write path v p = exit 0 p' ->
  exists out, MarshalIndent v = Ok out /\ disk p' = <[path := out]> (disk p) /\ stdout p' = stdout p ++ ["wrote " +:+ path; out]%string.
Proof.
  unfold report. destruct (MarshalIndent v) as [out|]; [|done]. destruct (writable path); [|done]. intros [= <-]. exists out. cbn. by rewrite <- app_assoc.
Qed.

(** The TCP benchmark that ends well reports five recoveries. *)
Lemma transport_main_reports MarshalIndent writable run generatedAt p p' : transport_main MarshalIndent writable run generatedAt p = exit 0 p' ->
  exists results out, length results = 5%nat /\ tcpRuns 5 0 run = Returns results /\ MarshalIndent (json_of_runs generatedAt results) = Ok out /\
    disk p' = <["benchmarks/results/v0.14_transport.json"%string := out]> (disk p).
Proof.
  unfold transport_main, then_. destruct (tcpRuns 5 0 run) as [results| |] eqn:E; [|done..]. intros (out & Hm & Hd & _)%report_ok.
  exists results, out. split; [apply (tcpRuns_all _ _ _ _ E)|]. done.
Qed.
