(* ===== verification/DocMirror.v ===== *)
(** The two replicated document stores side by side
    ([docstore/replicated.go], [docstore/replicated_locked.go]).

    A script is a sequence of calls on the replicas of a group, with whatever the
    group does between and during them.  Run on replicas over the locked store
    and on replicas over the versioned one, it gives the same answers. *)
From S2P Require Import Prelude GoLib Files Cold Segment SegmentLog LogProof LogLifecycle LogRecover LogRefine Batch.
From S2P Require Import Raft RaftCluster RaftLog RaftInv RaftSteps RaftHandlers RaftSafety RaftTheorems Replica.
From S2P Require Import Value Docstore DocstoreProof DocstoreTheorems DocReplica.
#[local] Open Scope Z_scope.

(** A call at a replica; [CGroup] are steps of the group alone. *)
Inductive DocCall :=
| CGroup (acts : list Action)
| CPropose (i : Z) (muts : list Mutation)
| CWait (i raftIndex timeout : Z) (polls : list (list Action))
| CState (i : Z)
| CClose (i : Z).

Inductive DocAnswer :=
| ANone
| AProposed (r : res (Z * bool))
| AWaited (b : bool)
| AState (s : Z * bool)
| AClosed (r : res unit).

Section mirror.
Context {C : Type} `{CS : ColdStore C} `{J : Json} (ps : list Z) (chanCap : nat).

Section store.
Context {Store : Type} (applyTx : list Mutation -> Z -> Store -> Store).

Definition doc_call (c : DocCall) (w : @RepWorld (Docs C Store)) : option (DocAnswer * @RepWorld (Docs C Store)) :=
  match c with
  | CGroup acts => match rrun (applyDoc applyTx) ps chanCap acts w with RNext w => Some (ANone, w) | _ => None end
  | CPropose i muts => '(r, w) ← Propose applyTx ps chanCap i muts w; Some (AProposed r, w)
  | CWait i idx timeout polls =>
      '(b, w) ← WaitApplied (applyDoc applyTx) lastAppliedRaftIndex ps chanCap polls i idx (clock (group w) + timeout) w;
      Some (AWaited b, w)
  | CState i => Some (AState (PeerState i w), w)
  | CClose i => '(r, w) ← CloseDocs applyTx ps chanCap i w; Some (AClosed r, w)
  end.

Fixpoint doc_calls (cs : list DocCall) (w : @RepWorld (Docs C Store)) : option (list DocAnswer * @RepWorld (Docs C Store)) :=
  match cs with
  | [] => Some ([], w)
  | c :: cs => '(a, w) ← doc_call c w; '(l, w) ← doc_calls cs w; Some (a :: l, w)
  end.

End store.

(** The worlds of the two groups: the same peers, and replicas that mirror each
    other, the versioned ones well formed up to what they consumed. *)
Record mirrored (wl : @RepWorld (Docs C LockedStore)) (wm : @RepWorld (Docs C MVCCStore)) : Prop := {
  mi_group : group wl = group wm;
  mi_reach : reachable ps chanCap (group wm);
  mi_docs i : mirrors (replica wl i) (replica wm i);
  mi_wf i : wf (last_idx 0 (consumed (nodes (group wm) i))) (store (replica wm i));
  mi_last i : lastAppliedRaftIndex (replica wm i) = last_idx 0 (consumed (nodes (group wm) i))
}.

(** Two outcomes that go on mirrored, or both stop. *)
Definition together {A} (R : A -> A -> Prop) (x : option (A * @RepWorld (Docs C LockedStore))) (y : option (A * @RepWorld (Docs C MVCCStore))) : Prop :=
  match x, y with
  | Some (a, wl), Some (b, wm) => R a b /\ mirrored wl wm
  | None, None => True
  | _, _ => False
  end.

Lemma together_bind {A B} x y (f : A -> _ -> option (B * _)) (g : A -> _ -> option (B * _)) :
  together eq x y -> (forall a wl wm, mirrored wl wm -> together eq (f a wl) (g a wm)) ->
  together eq ('(a, w) ← x; f a w) ('(a, w) ← y; g a w).
Proof. destruct x as [[a wl]|], y as [[b wm]|]; cbn; try done. intros [<- H] Hf. by apply Hf. Qed.

Context (Hv : valid_config ps).

(** What the apply loop keeps. *)
Lemma applied_wf m top (ds ds' : Docs C MVCCStore) : applyMVCC m ds = Some ds' -> wf top (store ds) -> top < CommandIndex m ->
  lastAppliedRaftIndex ds = top ->
  wf (match payload m with Some _ => CommandIndex m | None => top end) (store ds') /\
  lastAppliedRaftIndex ds' = match payload m with Some _ => CommandIndex m | None => top end.
Proof.
  unfold applyMVCC, applyDoc, payload. intros E Hw Ht Hl. destruct (CommandValid m); [|by injection E as <-].
  destruct (MsgCommand m) as [[p|c]|]; [|by injection E as <-..]. cbn [negb] in E.
  destruct (Append p (wal ds, walEnv ds)) as [r [l e]]. injection E as <-. cbn. split; [|done].
  destruct (DecodeTransaction p) as [muts|]; [|eapply wf_mono; [|exact Hw]; lia].
  unfold mvcc_tx. destruct (ApplyTransaction muts (CommandIndex m) (store ds)) as [r' s'] eqn:E.
  eapply apply_wf; [exact Hw| |exact E]. lia.
Qed.

Lemma mirrored_exec a wl wm : mirrored wl wm ->
  match rexec applyLocked ps chanCap a wl, rexec applyMVCC ps chanCap a wm with
  | RNext wl', RNext wm' => mirrored wl' wm'
  | RDisabled, RDisabled => True
  | RPanic, RPanic => True
  | _, _ => False
  end.
Proof.
  intros [Hg Hr Hd Hw Hl]. unfold rexec. rewrite Hg. destruct (exec ps chanCap a (group wm)) as [g| |] eqn:E; [|done..].
  assert (Hr' : reachable ps chanCap g) by by eapply reach_step.
  pose proof (fun i => exec_consumed ps chanCap a _ _ i E) as Hc.
  destruct a as [d|j|j r|k r|k|j c|j|j|j|j]; try (split; cbn; intros; rewrite ?Hc; auto; done).
  destruct (Hc j) as (m & ms & Hm & Hcj). rewrite Hm. rewrite decide_True in Hcj by done.
  destruct (mirrors_apply m _ _ (Hd j)) as (dl & dm & -> & Em & Hdd). rewrite Em.
  pose proof (consumed_rising ps chanCap g j Hv Hr') as Hri. rewrite Hcj in Hri. apply rising_last in Hri as [Ht _].
  destruct (applied_wf m _ _ _ Em (Hw j) Ht (Hl j)) as [Hw' Hl'].
  assert (Hlast : last_idx 0 (consumed (nodes g j)) =
    match payload m with Some _ => CommandIndex m | None => last_idx 0 (consumed (nodes (group wm) j)) end).
  { rewrite Hcj. unfold last_idx. by rewrite foldl_app. }
  assert (Hoth : forall i, i <> j -> consumed (nodes g i) = consumed (nodes (group wm) i)).
  { intros i Hi. destruct (Hc i) as (m' & ms' & _ & Hci). by rewrite decide_False in Hci. }
  split; cbn; [done|done| | |]; intros i; upd_cases; rewrite ?Hlast, ?Hoth by done; auto.
Qed.

Lemma mirrored_run acts : forall wl wm, mirrored wl wm ->
  match rrun applyLocked ps chanCap acts wl, rrun applyMVCC ps chanCap acts wm with
  | RNext wl', RNext wm' => mirrored wl' wm'
  | RDisabled, RDisabled => True
  | RPanic, RPanic => True
  | _, _ => False
  end.
Proof.
  induction acts as [|a acts IH]; intros wl wm H; cbn [rrun]; [done|]. pose proof (mirrored_exec a wl wm H) as H1.
  destruct (rexec _ _ _ a wl), (rexec _ _ _ a wm); try done. by apply IH.
Qed.

Lemma mirrored_wait i idx deadline polls : forall wl wm, mirrored wl wm ->
  together eq (WaitApplied applyLocked lastAppliedRaftIndex ps chanCap polls i idx deadline wl)
    (WaitApplied applyMVCC lastAppliedRaftIndex ps chanCap polls i idx deadline wm).
Proof.
  induction polls as [|acts polls IH]; intros wl wm H; cbn [WaitApplied];
    destruct (mi_docs _ _ H i) as (_ & _ & _ & ->); rewrite (mi_group _ _ H); repeat case_test; try done.
  pose proof (mirrored_run acts wl wm H) as H1.
  destruct (rrun applyLocked ps chanCap acts wl), (rrun applyMVCC ps chanCap acts wm); try done. by apply IH.
Qed.

Lemma mirrored_close i wl wm : mirrored wl wm ->
  together eq (CloseDocs locked_tx ps chanCap i wl) (CloseDocs mvcc_tx ps chanCap i wm).
Proof.
  intros H. unfold CloseDocs, Shutdown. pose proof (mirrored_exec (AKill i) wl wm H) as H1. fold (applyLocked (C := C)) (applyMVCC (C := C)).
  destruct (rexec _ _ _ _ wl) as [wl1| |], (rexec _ _ _ _ wm) as [wm1| |]; try done.
  destruct H1 as [Hg Hr Hd Hw Hl]. destruct (Hd i) as (Hs & Hwal & He & Hla). unfold CloseWal. rewrite Hwal, He.
  destruct (CloseLog _) as [r [l e]]. cbn. split; [done|]. split; cbn; [done|done| | |]; intros j; upd_cases; cbn; auto. done.
Qed.

Lemma mirrored_call c wl wm : mirrored wl wm -> together eq (doc_call locked_tx c wl) (doc_call mvcc_tx c wm).
Proof.
  intros H. destruct c as [acts|i muts|i idx timeout polls|i|i]; cbn [doc_call]; fold (applyLocked (C := C)) (applyMVCC (C := C)).
  - pose proof (mirrored_run acts wl wm H) as H1.
    destruct (rrun applyLocked ps chanCap acts wl), (rrun applyMVCC ps chanCap acts wm); done.
  - apply together_bind; [|done]. unfold Propose, Submit. destruct (EncodeTransaction muts) as [blob|]; [|done].
    fold (applyLocked (C := C)) (applyMVCC (C := C)). rewrite (mi_group _ _ H). destruct (Start _ _) as [[r' [[k t] b]]|]; [|done]. cbn [mbind option_bind].
    pose proof (mirrored_exec (AStart i (Some (CBytes blob))) wl wm H) as H1.
    destruct (rexec applyLocked _ _ _ wl), (rexec applyMVCC _ _ _ wm); done.
  - rewrite (mi_group _ _ H). apply together_bind; [by apply mirrored_wait|done].
  - split; [|done]. unfold PeerState. by rewrite (mi_group _ _ H).
  - apply together_bind; [by apply mirrored_close|done].
Qed.

Lemma mirrored_calls cs : forall wl wm, mirrored wl wm -> together eq (doc_calls locked_tx cs wl) (doc_calls mvcc_tx cs wm).
Proof.
  induction cs as [|c cs IH]; intros wl wm H; cbn [doc_calls]; [done|].
  apply together_bind; [by apply mirrored_call|]. intros a wl1 wm1 H1. apply together_bind; [by apply IH|done].
Qed.

Lemma mirrored_init field draw startl startm :
  (forall k, exists e, NewReplicatedLockedDocStore e = Ok (startl k) /\ NewReplicatedDocStore field e = Ok (startm k)) ->
  mirrored (mkRep (init ps draw) startl) (mkRep (init ps draw) startm).
Proof.
  intros Hs. split; [done|apply reach_init| | |]; intros i; destruct (Hs i) as (e & E1 & E2);
    unfold NewReplicatedLockedDocStore, NewReplicatedDocStore, NewDocs in *; destruct (Open 0 e) as [[l|] e']; try done;
    cbn [replica group]; injection E1 as E1; injection E2 as E2; rewrite <- ?E1, <- ?E2; cbn.
  - split; [apply same_docs_new|done].
  - apply (history_wf field []). done.
  - done.
Qed.


End mirror.

#[local] Existing Instance toy_json.

(** A transaction is proposed at the leader, refused at a follower and waited for;
    then the leader closes. *)
Definition mirror_script : list DocCall :=
  [CGroup election; CPropose 0 doc_tx; CPropose 1 doc_tx; CWait 0 2 1000000 [doc_commits]; CState 0; CClose 0; CState 0].

Definition ldocs0 : Docs LocalDirColdStore LockedStore := mkDocs (wal docs0) (walEnv docs0) NewLockedStore 0.

