(* ===== verification/Backend.v ===== *)
(** What the front ends ask of a document store: the interface [Store] of
    [mongowire/server.go] and [api/rest.go], and the replicated document store
    of [docstore/replicated.go] as one.

    Between two calls of a request anything may happen to the store; [elapse] is
    that.  A call gives [None] when it does not return: it panics, or still waits
    when the schedule it is run with is over. *)
From S2P Require Import Prelude GoLib Files Cold SegmentLog LogRefine.
From S2P Require Import Raft RaftCluster RaftLog RaftInv RaftSteps RaftHandlers RaftSafety RaftTheorems Replica.
From S2P Require Import Value Docstore DocstoreProof DocstoreTheorems DocReplica.
#[local] Open Scope Z_scope.

Class Backend (W : Type) := {
  be_Propose : list Mutation -> W -> option (res (Z * bool) * W);
  be_WaitApplied : Z -> Z -> W -> option (bool * W);
  be_Snapshot : W -> Z * MVCCStore;
  elapse : W -> option W
}.

(** Requests change the backend and may not return. *)
Definition request (W A : Type) : Type := W -> option (A * W).
#[export] Instance request_ret W : MRet (request W) := fun A a w => Some (a, w).
#[export] Instance request_bind W : MBind (request W) := fun A B k m w => '(a, w) ← m w; k a w.
Definition lift {W A} (o : option A) : request W A := fun w => a ← o; Some (a, w).
Definition take_snapshot {W} `{Backend W} : request W (Z * MVCCStore) := fun w => Some (be_Snapshot w, w).

(** Mutations as the front ends build them. *)
Definition sendable (muts : list Mutation) : Prop := Forall (fun m => ascii_text (Op m) = true /\ ascii_text (ID m) = true) muts.

(** The promises the front ends rely on.  [good] is an invariant of the backend;
    [kept w w' idx] says that the entry proposed in [w] at [idx] is the one at
    [idx] in [w'].  A snapshot is of a well-formed store; and when a proposal
    was accepted and waited for, the documents at its index are those of applying
    it to the documents just before, if its entry was kept. *)
Class BackendOk (W : Type) `{Backend W} `{Json} := {
  good : W -> Prop;
  kept : W -> W -> Z -> Prop;
  good_elapse w w' : good w -> elapse w = Some w' -> good w';
  good_snapshot w : good w -> exists top, wf top (snd (be_Snapshot w)) /\ fst (be_Snapshot w) <= top;
  good_applied muts idx timeout w w1 w2 : good w -> sendable muts ->
    be_Propose muts w = Some (Ok (idx, true), w1) -> be_WaitApplied idx timeout w1 = Some (true, w2) ->
    good w2 /\ (kept w w2 idx -> applied_as muts idx (snd (be_Snapshot w2)))
}.

(** * The replicated document store *)

Section replicated.
Context {C : Type} `{CS : ColdStore C} `{J : Json}.
Context (ps : list Z) (chanCap : nat) (i : Z).

(** What the rest of the group does between the calls of a request and between the
    polls of [WaitApplied] at replica [i]. *)
Context (meanwhile : @RepWorld (Docs C MVCCStore) -> list Action).
Context (polls : @RepWorld (Docs C MVCCStore) -> list (list Action)).

Definition replicated_backend : Backend (@RepWorld (Docs C MVCCStore)) := {|
  be_Propose := Propose mvcc_tx ps chanCap i;
  be_WaitApplied idx timeout w := WaitApplied applyMVCC lastAppliedRaftIndex ps chanCap (polls w) i idx (clock (group w) + timeout) w;
  be_Snapshot w := (DocSnapshot (replica w i), store (replica w i));
  elapse w := match rrun applyMVCC ps chanCap (meanwhile w) w with RNext w => Some w | _ => None end
|}.
#[local] Existing Instance replicated_backend.

Context `{CSO : !ColdStoreOk C} `{JO : !JsonOk} (start : Z -> Docs C MVCCStore) (field : string) (horizon : Z).
Context (Hv : valid_config ps) (Hn : forall k, new_docs field (start k)).

Lemma rrun_good acts w w' :
  dreachable horizon ps chanCap start w -> rrun applyMVCC ps chanCap acts w = RNext w' -> dreachable horizon ps chanCap start w'.
Proof. intros [draw H] E. exists draw. etransitivity; [exact H|by eapply rrun_dsteps]. Qed.

(** The entry at the index carries the term of the proposal, and nothing was
    collected as far as the index. *)
Definition same_term (w w' : @RepWorld (Docs C MVCCStore)) (idx : Z) : Prop :=
  horizon < idx /\ forall e, (log (peer_state (group w') i)) @[idx] = Some e -> Term e = currentTerm (peer_state (group w) i).

Lemma replicated_applied muts idx timeout w w1 w2 :
  dreachable horizon ps chanCap start w -> sendable muts ->
  be_Propose muts w = Some (Ok (idx, true), w1) -> be_WaitApplied idx timeout w1 = Some (true, w2) ->
  dreachable horizon ps chanCap start w2 /\ (same_term w w2 idx -> applied_as muts idx (snd (be_Snapshot w2))).
Proof.
  cbn. intros Hd Ha HP HW. destruct (WaitApplied_spec _ _ _ _ _ _ _ _ _ _ _ HW) as [[acts E] Hl]. specialize (Hl eq_refl).
  pose proof (rrun_dsteps horizon _ _ _ _ _ E) as H2. split.
  - destruct Hd as [draw Hd]. exists draw. destruct (Propose_inv _ _ _ _ _ _ _ HP) as (blob & r' & _ & _ & E1).
    etransitivity; [exact Hd|]. eapply rtc_l; [by eapply d_exec|exact H2].
  - intros [Hh Hk].
    destruct (propose_applied horizon ps chanCap start field i muts w idx w1 w2 i Hv Hd Hn Ha HP H2 ltac:(lia)) as (e & He & Happ).
    by apply Happ, Hk.
Qed.

#[export] Instance replicated_backend_ok : BackendOk (@RepWorld (Docs C MVCCStore)).
Proof.
  refine {| good := dreachable horizon ps chanCap start; kept := same_term |}.
  - intros w w'. cbn. intros Hd H. destruct (rrun _ _ _ _ _) as [w1| |] eqn:E; try done. injection H as <-. by eapply rrun_good.
  - intros w Hd. destruct (replica_store horizon ps chanCap start field w i Hv Hd (Hn i)) as (_ & Hw & _).
    eexists. split; [exact Hw|apply (wf_commit _ _ Hw)].
  - exact replicated_applied.
Defined.

End replicated.
