(* ===== verification/Mongo.v ===== *)
(** The commands of the MongoDB front end ([mongowire/commands.go],
    [mongowire/server.go]), over any document store.

    A document of a command is a map that the handlers own, so writing [_id] into
    it is making a new map.  A [nil] map reads like an empty one.  Error values
    are their messages. *)
From S2P Require Import Prelude GoLib Value WireProtocol Docstore DocstoreProof DocstoreTheorems DocReplica Backend.
#[local] Open Scope Z_scope.

(** [bson.UnmarshalExtJSON] into a [bson.M], which may be left [nil]. *)
Class ExtJson := unmarshalExtJSON : bytes -> res (option bsonM).

(** The constants [1.0] and [0.0], and the texts of the replies. *)
Definition float1 : value := VFloat (S754_finite false 4503599627370496 (-52)).
Definition float0 : value := VFloat (S754_zero false).
Definition failed (msg : string) : bsonM := {["ok"%string := float0; "errmsg"%string := VString msg]}.

(** [m[key]], the [nil] interface when missing. *)
Definition field (m : bsonM) (key : string) : value := mapget VNil m key.
(** [v.([]interface{})] and [v.(string)], the zero value when it fails. *)
Definition as_slice (v : value) : list value := match v with VSlice l => l | _ => [] end.
Definition as_string (v : value) : string := match v with VString s => s | _ => EmptyString end.

Definition toM (v : value) : bsonM :=
  match v with
  | VM t => t
  | VD t => foldl (fun m '(k, x) => <[k := x]> m) ∅ t
  | _ => ∅
  end.

(** [hex.EncodeToString] of the random bytes. *)
Definition hexDigit (n : Z) : Ascii.ascii := default Ascii.zero (String.get (Z.to_nat n) "0123456789abcdef").
Fixpoint newID (rand : bytes) : string :=
  match rand with
  | [] => EmptyString
  | b :: rand => String (hexDigit (Z.shiftr (Z_of_byte b) 4)) (String (hexDigit (Z.land (Z_of_byte b) 15)) (newID rand))
  end.

Definition has (cmd : bsonM) (key : string) : bool := bool_decide (is_Some (cmd !! key)).

Section mongo.
Context `{J : Json} `{X : ExtJson} {W : Type} `{B : Backend W}.

Definition docID (rand : bytes) (doc : bsonM) : string :=
  match doc !! "_id"%string with Some v => sprint v | None => newID rand end.

Definition docToJSON (doc : bsonM) : res bytes := marshal_document doc.

Definition filterID (filter : bsonM) : option string :=
  if bool_decide (size filter = 0%nat) then None
  else match filter !! "_id"%string with Some v => Some (sprint v) | None => None end.

(** [Server.propose]; [None] is no error. *)
Definition propose (muts : list Mutation) : request W (option string) := fun w =>
  w ← elapse w;
  '(r, w) ← be_Propose muts w;
  match r with
  | Err e => Some (Some e, w)
  | Ok (idx, isLeader) =>
      if negb isLeader then Some (Some "mongowire: not leader"%string, w)
      else
        '(applied, w) ← be_WaitApplied idx (2 * 10 ^ 9) w;
        Some (if (applied : bool) then None else Some "mongowire: write did not commit"%string, w)
  end.

(** The loop of [handleInsert]; [rand k] is what the call of [newID] for the [k]-th
    document reads. *)
Fixpoint insertLoop (rand : nat -> bytes) (k : nat) (docs : list value) : res (list Mutation) :=
  match docs with
  | [] => Ok []
  | VM doc :: docs =>
      let id := docID (rand k) doc in
      data ← docToJSON (<["_id"%string := VString id]> doc);
      muts ← insertLoop rand (S k) docs;
      Ok (mkMutation "put" id data None :: muts)
  | _ :: docs => insertLoop rand (S k) docs
  end.

Definition handleInsert (rand : nat -> bytes) (cmd : bsonM) : request W bsonM :=
  match insertLoop rand 0 (as_slice (field cmd "documents")) with
  | Err e => mret (failed e)
  | Ok muts =>
      if zlen muts =? 0 then mret {["ok"%string := float1; "n"%string := VInt32 0]}
      else
        err ← propose muts;
        match err with
        | Some e => mret (failed e)
        | None => mret {["ok"%string := float1; "n"%string := VInt32 (int32 (zlen muts))]}
        end
  end.

(** The loop of [handleFind] over a snapshot; [None] is a panic. *)
Fixpoint findLoop (snap : Z * MVCCStore) (ids : list string) : option (list bsonM) :=
  match ids with
  | [] => Some []
  | id :: ids =>
      d ← Get (fst snap) id (snd snap);
      match d with
      | None => findLoop snap ids
      | Some doc =>
          match marshal_document doc with
          | Err _ => findLoop snap ids
          | Ok blob =>
              match unmarshalExtJSON blob with
              | Err _ => findLoop snap ids
              | Ok None => None
              | Ok (Some m) => batch ← findLoop snap ids; Some (<["_id"%string := VString id]> m :: batch)
              end
          end
      end
  end.

Definition handleFind (cmd : bsonM) : request W bsonM :=
  let filter := toM (field cmd "filter") in
  snap ← take_snapshot;
  ids ← match filterID filter with Some id => mret [id] | None => lift (Scan (fst snap) (snd snap)) end;
  batch ← lift (findLoop snap ids);
  let collName := as_string (field cmd "find") in
  let dbName := as_string (field cmd "$db") in
  mret {["ok"%string := float1;
         "cursor"%string := VM {["firstBatch"%string := VDocs batch; "id"%string := VInt64 0;
                                 "ns"%string := VString (dbName ++ "." ++ collName)]}]}.

(** The loop of [handleUpdate]: the mutations and the numbers matched and
    modified.  The outer [option] is a panic. *)
Fixpoint updateLoop (snap : Z * MVCCStore) (updates : list value) (matched modified : Z) (muts : list Mutation)
    : option (res (list Mutation * Z * Z)) :=
  match updates with
  | [] => Some (Ok (muts, matched, modified))
  | VM upd :: updates =>
      match filterID (toM (field upd "q")) with
      | None => updateLoop snap updates matched modified muts
      | Some id =>
          d ← Get (fst snap) id (snd snap);
          match d with
          | None => updateLoop snap updates matched modified muts
          | Some doc =>
              let matched := int32 (matched + 1) in
              let uDoc := toM (field upd "u") in
              let set := toM (field uDoc "$set") in
              let merged := <["_id"%string := VString id]> (set ∪ doc) in
              match docToJSON merged with
              | Err e => Some (Err e)
              | Ok data => updateLoop snap updates matched (int32 (modified + 1)) (muts ++ [mkMutation "put" id data None])
              end
          end
      end
  | _ :: updates => updateLoop snap updates matched modified muts
  end.

Definition handleUpdate (cmd : bsonM) : request W bsonM :=
  snap ← take_snapshot;
  r ← lift (updateLoop snap (as_slice (field cmd "updates")) 0 0 []);
  match r with
  | Err e => mret (failed e)
  | Ok (muts, matched, modified) =>
      err ← (if 0 <? zlen muts then propose muts else mret None);
      match err with
      | Some e => mret (failed e)
      | None => mret {["ok"%string := float1; "n"%string := VInt32 matched; "nModified"%string := VInt32 modified]}
      end
  end.

Fixpoint deleteLoop (deletes : list value) : list Mutation :=
  match deletes with
  | [] => []
  | VM del :: deletes =>
      match filterID (toM (field del "q")) with
      | None => deleteLoop deletes
      | Some id => mkMutation "delete" id [] None :: deleteLoop deletes
      end
  | _ :: deletes => deleteLoop deletes
  end.

Definition handleDelete (cmd : bsonM) : request W bsonM :=
  let muts := deleteLoop (as_slice (field cmd "deletes")) in
  if zlen muts =? 0 then mret {["ok"%string := float1; "n"%string := VInt32 0]}
  else
    err ← propose muts;
    match err with
    | Some e => mret (failed e)
    | None => mret {["ok"%string := float1; "n"%string := VInt32 (int32 (zlen muts))]}
    end.

Definition hello (now : Z) : bsonM :=
  {["ismaster"%string := VBool true; "isWritablePrimary"%string := VBool true;
    "maxWireVersion"%string := VInt32 17; "minWireVersion"%string := VInt32 0;
    "maxBsonObjectSize"%string := VInt32 (16 * 1024 * 1024); "maxMessageSizeBytes"%string := VInt32 (48 * 1024 * 1024);
    "maxWriteBatchSize"%string := VInt32 1000; "localTime"%string := VTime now;
    "logicalSessionTimeoutMinutes"%string := VInt32 30; "ok"%string := float1]}.

(** [dispatch] at time [now]. *)
Definition dispatch (now : Z) (rand : nat -> bytes) (cmd : bsonM) : request W bsonM :=
  if has cmd "hello" || has cmd "ismaster" || has cmd "isMaster" then mret (hello now)
  else if has cmd "ping" then mret {["ok"%string := float1]}
  else if has cmd "insert" then handleInsert rand cmd
  else if has cmd "find" then handleFind cmd
  else if has cmd "update" then handleUpdate cmd
  else if has cmd "delete" then handleDelete cmd
  else mret (failed ("mongowire: unsupported command " ++ sprint (VM cmd))).

(** One round of the loop of [handleConn], on the bytes the client sent and that were
    not read yet: the reply and what is left of them, or nothing when the
    connection is closed.  [fuel] bounds the loops of the parser; a panic of a
    handler or one that does not return is [Panicked].  Writing to the connection
    does not fail. *)
Definition handleOne `{BS : Bson} (fuel : nat) (now : Z) (rand : nat -> bytes) (r : bytes) (w : W) : out (option (bytes * bytes) * W) :=
  match readMessage fuel r with
  | Panicked => Panicked
  | Running => Running
  | Done (Err _) => Done (None, w)
  | Done (Ok (reqID, cmd, opCode, r)) =>
      match dispatch now rand cmd w with
      | None => Panicked
      | Some (reply, w) =>
          match writeReply opCode reqID reply with
          | Err _ => Done (None, w)
          | Ok b => Done (Some (b, r), w)
          end
      end
  end.

(** [handleConn] over what the client sends: the bytes written until the
    connection is closed.  [n] bounds the requests served; [k] counts them, and
    [now k] and [rand k] are those of the [k]-th. *)
Fixpoint handleConn `{BS : Bson} (fuel : nat) (now : nat -> Z) (rand : nat -> nat -> bytes) (k n : nat) (r : bytes) (w : W)
    : out (bytes * W) :=
  match n with
  | O => Running
  | S n' =>
      match handleOne fuel (now k) (rand k) r w with
      | Panicked => Panicked
      | Running => Running
      | Done (None, w) => Done ([], w)
      | Done (Some (b, r), w) =>
          match handleConn fuel now rand (S k) n' r w with
          | Done (bs, w) => Done (b ++ bs, w)
          | Panicked => Panicked
          | Running => Running
          end
      end
  end.

(** * The server

    Its listener, the goroutine of [acceptLoop], and one goroutine for each
    accepted connection. *)

(** A connection: what the client sends on it, what is not read yet, what was
    written, and whether [handleConn] still runs. *)
Record Conn := mkConn { incoming : bytes; unread : bytes; replies : bytes; serving : bool }.

Record Server := mkServer { listener : string; listening : bool; accepting : bool; conns : list Conn }.

(** [bind] is what the system makes of a listening address. *)
Definition Listen (bind : string -> option string) (addr : string) : res Server :=
  match bind addr with
  | None => Err "listen"
  | Some a => Ok (mkServer a true true [])
  end.

Definition Addr (s : Server) : string := listener s.

Definition Close (s : Server) : res unit * Server :=
  if listening s then (Ok tt, mkServer (listener s) false (accepting s) (conns s)) else (Err "use of closed network connection", s).

(** One round of [acceptLoop]: a connection and what its client will send, or a
    failure.  A closed listener accepts nothing. *)
Definition accept (conn : option bytes) (s : Server) : option Server :=
  if negb (accepting s) then None
  else match conn with
  | None => Some (mkServer (listener s) (listening s) false (conns s))
  | Some b => if listening s then Some (mkServer (listener s) true true (conns s ++ [mkConn b b [] true])) else None
  end.

(** A round of the [k]-th connection. *)
Definition turn `{BS : Bson} (fuel : nat) (now : Z) (rand : nat -> bytes) (k : nat) (s : Server) (w : W) : option (out (Server * W)) :=
  c ← conns s !! k;
  if negb (serving c) then None
  else Some match handleOne fuel now rand (unread c) w with
  | Panicked => Panicked
  | Running => Running
  | Done (None, w) =>
      Done (mkServer (listener s) (listening s) (accepting s) (<[k := mkConn (incoming c) [] (replies c) false]> (conns s)), w)
  | Done (Some (b, r), w) =>
      Done (mkServer (listener s) (listening s) (accepting s) (<[k := mkConn (incoming c) r (replies c ++ b) true]> (conns s)), w)
  end.

(** What may happen: [None] is a step that is not possible. *)
Inductive ServerStep := SAccept (conn : option bytes) | STurn (k : nat) (now : Z) (rand : nat -> bytes) | SElapse | SClose.

Definition server_step `{BS : Bson} (fuel : nat) (a : ServerStep) (s : Server) (w : W) : option (out (Server * W)) :=
  match a with
  | SAccept conn => s ← accept conn s; Some (Done (s, w))
  | STurn k now rand => turn fuel now rand k s w
  | SElapse => w ← elapse w; Some (Done (s, w))
  | SClose => Some (Done (snd (Close s), w))
  end.

Fixpoint server_run `{BS : Bson} (fuel : nat) (steps : list ServerStep) (s : Server) (w : W) : option (out (Server * W)) :=
  match steps with
  | [] => Some (Done (s, w))
  | a :: steps =>
      match server_step fuel a s w with
      | Some (Done (s, w)) => server_run fuel steps s w
      | o => o
      end
  end.

End mongo.
