(* ===== verification/Rest.v ===== *)
(** The REST front end ([api/rest.go]), over any document store.

    A response is the status and the body a handler writes; the JSON encoding of
    the body is left to the encoder.  The parameters of a URL come in the order in
    which Go ranges over the map of them.  Requests are routed as
    [http.ServeMux] does ([Http]). *)
From Stdlib Require Import Strings.Ascii.
From S2P Require Import Prelude GoLib NetLib Http Value Docstore DocstoreProof DocstoreTheorems DocReplica Backend.
#[local] Open Scope Z_scope.

(** [json.Decoder.Decode] of a request's body into a map, which [null] leaves
    [nil]. *)
Class JsonBody := decode_body : bytes -> res (option (gmap string value)).

(** Documented behaviour: the decoder reads a JSON value as [Unmarshal] does. *)
Class JsonBodyOk `{Json} `{JsonBody} :=
  decode_value b doc : decode_body b = Ok (Some doc) -> exists b0, unmarshal_document b0 = Ok doc.

Inductive content_ := Text (msg : string) | JsonDoc (doc : Document) | JsonDocs (docs : list Document)
| Location (path : string) | Empty.
Record response := mkResponse { status : Z; sent : content_ }.

Record http_request := mkRequest {
  Method : string;
  Path : string;
  Query : list (string * list string);
  Body : bytes;
  RawPath : string
}.

Definition StatusOK : Z := 200.
Definition StatusNoContent : Z := 204.
Definition StatusMovedPermanently : Z := 301.
Definition StatusBadRequest : Z := 400.
Definition StatusNotFound : Z := 404.
Definition StatusMethodNotAllowed : Z := 405.
Definition StatusInternalServerError : Z := 500.
Definition StatusServiceUnavailable : Z := 503.
Definition StatusGatewayTimeout : Z := 504.

(** [http.Error] and [writeJSON]. *)
Definition Error (msg : string) (code : Z) : response := mkResponse code (Text msg).
Definition writeJSON (code : Z) (c : content_) : response := mkResponse code c.

Definition TrimPrefix (s prefix : string) : string :=
  if String.prefix prefix s
  then String.substring (String.length prefix) (String.length s - String.length prefix) s else s.

Record proposeErr := mkProposeErr { err_status : Z; err_msg : string }.

Definition writeProposeError (e : proposeErr) : response := Error (err_msg e) (err_status e).

Section rest.
Context `{J : Json} `{JB : JsonBody} {W : Type} `{B : Backend W}.

(** [Server.propose]; [None] is no error. *)
Definition rest_propose (muts : list Mutation) : request W (option proposeErr) := fun w =>
  w ← elapse w;
  '(r, w) ← be_Propose muts w;
  match r with
  | Err e => Some (Some (mkProposeErr StatusInternalServerError e), w)
  | Ok (idx, isLeader) =>
      if negb isLeader then Some (Some (mkProposeErr StatusServiceUnavailable "not leader, retry against another node"), w)
      else
        '(applied, w) ← be_WaitApplied idx (2 * 10 ^ 9) w;
        Some (if (applied : bool) then None
              else Some (mkProposeErr StatusGatewayTimeout "write proposed but did not commit within timeout"), w)
  end.

Definition putDoc (body : bytes) (id : string) : request W response :=
  match decode_body body with
  | Err e => mret (Error ("malformed JSON body: " ++ e) StatusBadRequest)
  | Ok None => fun _ => None
  | Ok (Some doc) =>
      match marshal_document (<["_id"%string := VString id]> doc) with
      | Err e => mret (Error e StatusInternalServerError)
      | Ok data =>
          err ← rest_propose [mkMutation "put" id data None];
          mret (match err with Some e => writeProposeError e | None => mkResponse StatusOK Empty end)
      end
  end.

Definition getDoc (id : string) : request W response :=
  snap ← take_snapshot;
  d ← lift (Get (fst snap) id (snd snap));
  mret (match d with None => Error "not found" StatusNotFound | Some doc => writeJSON StatusOK (JsonDoc doc) end).

Definition deleteDoc (id : string) : request W response :=
  snap ← take_snapshot;
  d ← lift (Get (fst snap) id (snd snap));
  match d with
  | None => mret (Error "not found" StatusNotFound)
  | Some _ =>
      err ← rest_propose [mkMutation "delete" id [] None];
      mret (match err with Some e => writeProposeError e | None => mkResponse StatusNoContent Empty end)
  end.

Definition handleDoc (r : http_request) : request W response :=
  let id := TrimPrefix (Path r) "/docs/" in
  if bool_decide (id = EmptyString) then mret (Error "missing document id" StatusBadRequest)
  else if bool_decide (Method r = "PUT"%string) then putDoc (Body r) id
  else if bool_decide (Method r = "GET"%string) then getDoc id
  else if bool_decide (Method r = "DELETE"%string) then deleteDoc id
  else mret (Error "method not allowed" StatusMethodNotAllowed).

(** The first loop of [handleDocs]: the first parameter with a value. *)
Fixpoint queryLoop (snap : Z * MVCCStore) (q : list (string * list string)) : option (list string) :=
  match q with
  | [] => Some []
  | (_, v :: _) :: _ => QueryByIndex (fst snap) v (snd snap)
  | (_, []) :: q => queryLoop snap q
  end.

(** The second loop. *)
Fixpoint docsOf (snap : Z * MVCCStore) (ids : list string) : option (list Document) :=
  match ids with
  | [] => Some []
  | id :: ids =>
      d ← Get (fst snap) id (snd snap);
      docs ← docsOf snap ids;
      Some (match d with Some doc => doc :: docs | None => docs end)
  end.

Definition handleDocs (r : http_request) : request W response :=
  if negb (bool_decide (Method r = "GET"%string)) then mret (Error "method not allowed" StatusMethodNotAllowed)
  else
    snap ← take_snapshot;
    ids ← lift (if 0 <? zlen (Query r) then queryLoop snap (Query r) else Scan (fst snap) (snd snap));
    docs ← lift (docsOf snap ids);
    mret (writeJSON StatusOK (JsonDocs docs)).

(** [New]: the routes; the patterns are different, so registering does not panic. *)
Definition New : option (list (Pattern * (http_request -> request W response))) :=
  mux ← HandleFunc (chars "/docs/") handleDoc [];
  HandleFunc (chars "/docs") handleDocs mux.

(** [Server.ServeHTTP] and that of the routes. *)
Definition ServeHTTP (mux : list (Pattern * (http_request -> request W response))) (r : http_request) : request W response :=
  if bool_decide (Path r = "*"%string) then mret (mkResponse StatusBadRequest Empty)
  else
    match findHandler mux (Method r) (chars (Path r)) (chars (RawPath r)) with
    | Handle h => h r
    | Redirect path => mret (mkResponse StatusMovedPermanently (Location (string_of path)))
    | NotFound => mret (Error "404 page not found" StatusNotFound)
    end.

(** A request as the server parses it from what the client sends; [None] is a
    request that is refused. *)
Definition parseRequest (method target : string) (query : list (string * list string)) (body : bytes) : option http_request :=
  '(path, raw) ← setPath (chars target);
  Some (mkRequest method (string_of path) query body (string_of raw)).

Lemma New_routes : New = Some (collection (chars "docs") handleDoc handleDocs).
Proof.
  unfold New, HandleFunc. rewrite bool_decide_false by apply not_elem_of_nil. cbn [mbind option_bind].
  rewrite bool_decide_false; [reflexivity|]. by intros ?%list_elem_of_singleton.
Qed.

Lemma chars_string_of l : chars (string_of l) = l.
Proof. apply String.list_ascii_of_string_of_list_ascii. Qed.

Lemma TrimPrefix_docs id : TrimPrefix ("/docs/" +:+ id) "/docs/" = id.
Proof.
  assert (Hs : String.substring 0 (String.length id) id = id) by (induction id as [|c id IH]; cbn; congruence).
  unfold TrimPrefix. rewrite <- Hs at 5.
  change ("/docs/" +:+ id) with (String "/" (String "d" (String "o" (String "c" (String "s" (String "/" id)))))). cbn. by destruct id.
Qed.

(** The parsed request for a document. *)
Lemma parse_doc id method query body : id <> ""%string -> id <> "."%string -> id <> ".."%string ->
  exists raw, parseRequest method ("/docs/" +:+ string_of (PathEscape (chars id))) query body =
      Some (mkRequest method ("/docs/" +:+ id) query body raw) /\
    EscapedPath (chars ("/docs/" +:+ id)) (chars raw) = "/"%char :: chars "docs" ++ "/"%char :: PathEscape (chars id) /\
    below (chars "docs") (PathEscape (chars id)).
Proof.
  intros H0 H1 H2. set (e := PathEscape (chars id)).
  assert (Hb : below (chars "docs") e).
  { apply below_escaped; try done; [repeat constructor; done|..]; intros E; [apply H0|apply H1|apply H2]; by apply chars_inj. }
  assert (Hc : chars ("/docs/" +:+ string_of e) = "/"%char :: chars "docs" ++ "/"%char :: e) by (rewrite chars_app, chars_string_of; reflexivity).
  assert (Hu : unescape ("/"%char :: chars "docs" ++ "/"%char :: e) = Some (chars ("/docs/" +:+ id))).
  { cbn -[unescape]. rewrite !unescape_plain by done. unfold e, PathEscape. rewrite unescape_escape by reflexivity. reflexivity. }
  destruct (setPath ("/"%char :: chars "docs" ++ "/"%char :: e)) as [[path raw]|] eqn:Es.
  2:{ unfold setPath in Es. by rewrite Hu in Es. }
  assert (path = chars ("/docs/" +:+ id)) as ->.
  { unfold setPath in Es. rewrite Hu in Es. by injection Es as <- _. }
  exists (string_of raw). rewrite chars_string_of. split_and!; [| |done].
  - unfold parseRequest. rewrite Hc, Es. cbn [mbind option_bind]. do 3 f_equal. apply chars_inj. by rewrite chars_string_of.
  - apply EscapedPath_set; [done| |done]. unfold validEncoded. cbn -[valid_char e]. apply forallb_forall. intros c Hin%list_elem_of_In.
    pose proof (PathEscape_chars (chars id)) as Hf. rewrite list.Forall_forall in Hf. by apply (Hf c Hin).
Qed.

End rest.
