(* ===== verification/DocLive.v ===== *)
(** Availability of the document service: as long as a majority of the replicas is
    alive, a write through the REST or the MongoDB front end of one of them
    can be acknowledged, and what is acknowledged is applied. *)
From S2P Require Import Prelude GoLib Files Cold SegmentLog LogRefine.
From S2P Require Import Raft RaftCluster RaftLog RaftInv RaftSteps RaftHandlers RaftSafety RaftTheorems RaftProgress RaftLive Replica.
From S2P Require Import Value Docstore DocstoreProof DocstoreTheorems DocReplica Backend Mongo Rest.
#[local] Open Scope Z_scope.

(** When applying a message never fails, a run of the group is a run of the
    replicas. *)
Lemma rrun_lift {S} (apply : ApplyMsg -> S -> option S) ps chanCap acts : (forall m s, is_Some (apply m s)) ->
  forall w g, run ps chanCap acts (group w) = Next g -> exists w', rrun apply ps chanCap acts w = RNext w' /\ group w' = g.
Proof.
  intros Htot. induction acts as [|a acts IH]; intros w g H; cbn in H; [injection H as <-; by exists w|].
  destruct (exec ps chanCap a (group w)) as [g1| |] eqn:E; try done.
  assert (H1 : exists w1, rexec apply ps chanCap a w = RNext w1 /\ group w1 = g1).
  { unfold rexec. rewrite E. destruct a as [d|j|j r|k r|k|j c|j|j|j|j]; try (by eexists). cbn in E.
    destruct (applyCh (nodes (group w) j)) as [|m ms]; [done|]. destruct (Htot m (replica w j)) as [s ->]. by eexists. }
  destruct H1 as (w1 & E1 & <-). destruct (IH w1 g H) as (w2 & E2 & Hg). exists w2. cbn. by rewrite E1.
Qed.

Section live.
Context {C : Type} `{CS : ColdStore C} `{CSO : !ColdStoreOk C} `{J : Json} `{JO : !JsonOk}.
Context (ps : list Z) (chanCap : nat) (start : Z -> Docs C MVCCStore) (field : string) (horizon : Z).
Context (Hv : valid_config ps) (Hn : forall k, new_docs field (start k)).

Lemma applyMVCC_total m (ds : Docs C MVCCStore) : is_Some (applyMVCC m ds).
Proof.
  unfold applyMVCC, applyDoc. destruct (CommandValid m); [|by eexists]. destruct (MsgCommand m) as [[p|]|]; [|by eexists..].
  cbn. destruct (Append _ _) as [r [l e]]. by eexists.
Qed.

(** A replica that consumed a transaction reports its index or a later one. *)
Lemma last_idx_consumed ms m p : rising 0 ms -> m ∈ ms -> payload m = Some p -> CommandIndex m <= last_idx 0 ms.
Proof.
  intros Hr Hm Hp. apply list_elem_of_split in Hm as (a & b & ->).
  assert (E : last_idx 0 (a ++ m :: b) = last_idx (CommandIndex m) b) by (unfold last_idx; rewrite foldl_app; cbn; by rewrite Hp).
  rewrite E. change (m :: b) with ([m] ++ b) in Hr. rewrite app_assoc in Hr. apply rising_last in Hr.
  assert (El : last_idx 0 (a ++ [m]) = CommandIndex m) by (unfold last_idx; rewrite foldl_app; cbn; by rewrite Hp).
  rewrite El in Hr. apply (top_last _ _ Hr).
Qed.

(** A replica is not ahead of its peer's commit index. *)
Lemma applied_bound w i : dreachable horizon ps chanCap start w ->
  lastAppliedRaftIndex (replica w i) <= Raft.commitIndex (peer_state (group w) i).
Proof.
  intros Hd. destruct (dreachable_holds horizon ps chanCap start w Hd) as [Hr _].
  destruct (replica_store horizon ps chanCap start field w i Hv Hd (Hn i)) as (_ & _ & -> & _).
  destruct (last_idx_mem (consumed (nodes (group w) i)) 0) as [->|(m & Hm & ->)].
  - destruct (reachable_inv ps chanCap _ Hv Hr) as [g Hg]. destruct (winv_node ps (group w) i g Hg) as [Hl Hc]. lia.
  - apply (committed_index ps chanCap); [done|done|]. destruct (consumed_committed ps chanCap (group w) i Hv Hr) as [rest ->].
    apply elem_of_app. by left.
Qed.

(** A leader of a live majority accepts a transaction, and waiting for it
    succeeds. *)
Lemma leader_accepts Q w i muts blob timeout :
  dreachable horizon ps chanCap start w -> (forall q, q ∈ Q -> q ∈ ps) -> NoDup Q -> majority ps <= zlen Q -> 2 <= zlen ps ->
  (0 < chanCap)%nat -> 0 < timeout -> governs ps chanCap Q (group w) i -> EncodeTransaction muts = Ok blob ->
  exists acts w1 w2 idx, Propose mvcc_tx ps chanCap i muts w = Some (Ok (idx, true), w1) /\
    WaitApplied applyMVCC lastAppliedRaftIndex ps chanCap [acts] i idx (clock (group w1) + timeout) w1 = Some (true, w2) /\
    dreachable horizon ps chanCap start w2 /\ mkApplyMsg true (Some (CBytes blob)) idx ∈ consumed (nodes (group w2) i) /\
    (forall j, j ∉ Q -> nodes (group w2) j = nodes (group w) j).
Proof.
  intros Hd HQ HQd Hmaj H2 Hcap Htime G Henc.
  destruct (commits ps chanCap Hv Q HQ HQd Hmaj H2 (group w) i (CBytes blob) Hcap G) as (r' & g1 & g2 & ES & E1 & M1 & [[[acts E2] N2] K2] & S2 & C2).
  set (idx := zlen (log (peer_state (group w) i))) in *.
  destruct (rrun_lift applyMVCC ps chanCap [AStart i (Some (CBytes blob))] applyMVCC_total w g1) as (w1 & R1 & <-); [cbn [run]; by rewrite E1|].
  cbn [rrun] in R1. destruct (rexec applyMVCC ps chanCap (AStart i (Some (CBytes blob))) w) as [w1'| |] eqn:X1; try done. injection R1 as ->.
  destruct (rrun_lift applyMVCC ps chanCap acts applyMVCC_total w1 g2 E2) as (w2 & R2 & <-).
  assert (Hd1 : dreachable horizon ps chanCap start w1) by (eapply (rrun_good ps chanCap start horizon [_]); [exact Hd|]; cbn [rrun]; by rewrite X1).
  assert (Hd2 : dreachable horizon ps chanCap start w2) by (by eapply rrun_good).
  destruct (replica_store horizon ps chanCap start field w2 i Hv Hd2 (Hn i)) as (_ & _ & Hl2 & Hri).
  exists acts, w1, w2, idx. split_and!; [| |done|done|].
  - unfold Propose, Submit. rewrite Henc, ES. cbn [mbind option_bind]. unfold applyMVCC in X1. by rewrite X1.
  - assert (Hdone : idx <= lastAppliedRaftIndex (replica w2 i)).
    { rewrite Hl2. by apply (last_idx_consumed _ _ blob Hri C2). }
    assert (Hwait : lastAppliedRaftIndex (replica w1 i) < idx).
    { pose proof (applied_bound w1 i Hd1) as Hb. destruct (dreachable_holds horizon ps chanCap start w Hd) as [Hr _].
      destruct (reachable_inv ps chanCap _ Hv Hr) as [g Hg]. destruct (winv_node ps (group w) i g Hg) as [_ Hlt].
      assert (Hp : peer_state (group w1) i = r').
      { cbn in E1. rewrite bool_decide_true in E1 by (apply HQ, (le_in _ _ _ _ _ G)). rewrite ES in E1. cbn in E1. injection E1 as <-.
        unfold peer_state. cbn. by rewrite upd_eq. }
      assert (Hc : Raft.commitIndex r' = Raft.commitIndex (peer_state (group w) i)).
      { unfold Start in ES. case_test_in ES; [done|]. destruct (lastEntry _); [|done]. cbn in ES. by injection ES as <-. }
      rewrite Hp, Hc in Hb. unfold idx, peer_state in *. lia. }
    cbn. rewrite (proj2 (Z.ltb_lt _ _)), (proj2 (Z.leb_gt _ _)), R2 by lia.
    by rewrite (proj2 (Z.ltb_lt _ _)), (proj2 (Z.leb_le _ _)) by lia.
  - intros j Hj. destruct M1 as [_ N1]. by rewrite N2, N1.
Qed.

(** What was delivered is applied as it was proposed. *)
Lemma delivered_applied w i muts blob idx : dreachable horizon ps chanCap start w -> sendable muts -> EncodeTransaction muts = Ok blob ->
  mkApplyMsg true (Some (CBytes blob)) idx ∈ consumed (nodes (group w) i) -> horizon < idx -> applied_as muts idx (store (replica w i)).
Proof.
  intros Hd Ha Henc Hin Hh. destruct (mutations_roundtrip muts blob Ha Henc) as (muts' & Hdec & Hsame).
  destruct (replica_at horizon ps chanCap start field w i blob muts' idx Hv Hd (Hn i) Hh Hin Hdec) as (s0 & Hw & Hg).
  exists s0. split; [done|]. intros id. by rewrite <- (same_apply muts muts').
Qed.

End live.



#[local] Existing Instances toy_json toy_json_ok.

(** The leader of three replicas crashes after a transaction; the two others serve
    the next one. *)
Definition crashed : @RepWorld (Docs LocalDirColdStore MVCCStore) := dafter (doc_run ++ [AKill 0]) dworld0.

