(* ===== verification/ServiceTheorems.v ===== *)
(** The theorems about the two front ends, over any backend that keeps the promises
    of [BackendOk]; the replicated document store is one
    ([replicated_backend_ok]). *)
From S2P Require Import Prelude GoLib NetLib Http Files Cold SegmentLog LogRefine.
From S2P Require Import Raft RaftCluster RaftTheorems Replica Value WireProtocol WireProof WireTheorems.
From S2P Require Import Docstore DocstoreProof DocstoreTheorems DocReplica Backend Mongo Rest.
#[local] Open Scope Z_scope.

Section services.
Context `{J : Json} `{JO : !JsonOk} `{X : ExtJson} `{JB : JsonBody} `{JBO : !JsonBodyOk} {W : Type} `{B : Backend W} `{BO : !BackendOk W}.

(** A transaction was accepted at an index while the request ran from [w] to [w'],
    and if its entry was kept there, every document at the index is what the
    transaction makes of it. *)
Definition takes_effect (w : W) (muts : list Mutation) (w' : W) : Prop :=
  good w' /\ exists w0 w1 idx, elapse w = Some w0 /\ be_Propose muts w0 = Some (Ok (idx, true), w1) /\
    (kept w0 w' idx -> forall id, exists old,
       Get (idx - 1) id (snd (be_Snapshot w')) = Some old /\ Get idx id (snd (be_Snapshot w')) = Some (effects muts id old)).

(** Mutations without preconditions, whose documents decode and whose texts are
    encoded unchanged. *)
Definition unconditional (muts : list Mutation) : Prop :=
  sendable muts /\ Forall (fun m => ExpectedVersion m = None) muts /\ puts_decode muts.

Lemma accepted muts w0 w1 w2 idx timeout w :
  good w -> unconditional muts -> elapse w = Some w0 -> be_Propose muts w0 = Some (Ok (idx, true), w1) ->
  be_WaitApplied idx timeout w1 = Some (true, w2) -> takes_effect w muts w2.
Proof.
  intros Hg (Hs & Hn & Hp) He HP HW. destruct (good_applied _ _ _ _ _ _ (good_elapse _ _ Hg He) Hs HP HW) as [Hg2 Ha].
  split; [done|]. exists w0, w1, idx. split_and!; [done|done|]. intros Hk id. by apply applied_effects; [apply Ha|..].
Qed.

Lemma propose_effect muts w w' : good w -> unconditional muts -> propose muts w = Some (None, w') -> takes_effect w muts w'.
Proof.
  intros Hg Hu H. unfold propose in H. destruct (elapse w) as [w0|] eqn:E0; [|done]. cbn in H.
  destruct (be_Propose muts w0) as [[[[idx []]|] w1]|] eqn:E1; try done. cbn in H.
  destruct (be_WaitApplied idx _ w1) as [[[] w2]|] eqn:E2; try done. cbn in H. injection H as <-. by eapply accepted.
Qed.

Lemma rest_propose_effect muts w w' : good w -> unconditional muts -> rest_propose muts w = Some (None, w') -> takes_effect w muts w'.
Proof.
  intros Hg Hu H. unfold rest_propose in H. destruct (elapse w) as [w0|] eqn:E0; [|done]. cbn in H.
  destruct (be_Propose muts w0) as [[[[idx []]|] w1]|] eqn:E1; try done. cbn in H.
  destruct (be_WaitApplied idx _ w1) as [[[] w2]|] eqn:E2; try done. cbn in H. injection H as <-. by eapply accepted.
Qed.

(** * The writes of the MongoDB front end *)

(** [m] stores [doc] under [id], with its [_id]. *)
Definition stores (id : string) (doc : bsonM) (m : Mutation) : Prop :=
  exists data stored, m = mkMutation "put" id data None /\ marshal_document (<["_id"%string := VString id]> doc) = Ok data /\
    unmarshal_document data = Ok stored /\ (ascii_text id = true -> stored !! "_id"%string = Some (VString id)).

Lemma stores_put id doc data : marshal_document (<["_id"%string := VString id]> doc) = Ok data -> stores id doc (mkMutation "put" id data None).
Proof.
  intros E. destruct (document_texts _ _ E) as (stored & Hs & Ht). exists data, stored. split_and!; [done|done|done|].
  intros Ha. by apply Ht; [|done|rewrite lookup_insert_eq].
Qed.

(** The documents among the values, with the random bytes for each. *)
Fixpoint documents (rand : nat -> bytes) (k : nat) (vs : list value) : list (string * bsonM) :=
  match vs with
  | [] => []
  | VM doc :: vs => (docID (rand k) doc, doc) :: documents rand (S k) vs
  | _ :: vs => documents rand (S k) vs
  end.

Lemma insertLoop_spec rand vs : forall k muts, insertLoop rand k vs = Ok muts ->
  Forall2 (fun d m => stores (fst d) (snd d) m) (documents rand k vs) muts.
Proof.
  induction vs as [|v vs IH]; intros k muts H; cbn in H; [by injection H as <-|].
  destruct v; try (cbn; by apply IH). cbn [documents].
  unfold docToJSON in H. destruct (marshal_document _) as [data|] eqn:Ed; [|done]. cbn in H.
  destruct (insertLoop rand (S k) vs) as [ms|] eqn:E; [|done]. cbn in H. injection H as <-.
  constructor; [by apply stores_put|by apply IH].
Qed.

(** The updates among the values that match a document of the snapshot: its id and
    the merged document. *)
Fixpoint updates_of (snap : Z * MVCCStore) (vs : list value) : list (string * bsonM) :=
  match vs with
  | [] => []
  | VM u :: vs =>
      match filterID (toM (field u "q")) with
      | Some id =>
          match Get (fst snap) id (snd snap) with
          | Some (Some doc) => (id, toM (field (toM (field u "u")) "$set") ∪ doc) :: updates_of snap vs
          | _ => updates_of snap vs
          end
      | None => updates_of snap vs
      end
  | _ :: vs => updates_of snap vs
  end.

Lemma int32_succ z : int32 (int32 z + 1) = int32 (z + 1).
Proof.
  unfold int32. cbv zeta. assert (H : forall x, (if x mod 2 ^ 32 <? 2 ^ 31 then x mod 2 ^ 32 else x mod 2 ^ 32 - 2 ^ 32) = (x + 2 ^ 31) mod 2 ^ 32 - 2 ^ 31).
  { intros x. pose proof (Z.mod_pos_bound x (2 ^ 32) ltac:(lia)) as Hy. rewrite (Z.add_mod x) by lia. change (2 ^ 31 mod 2 ^ 32) with (2 ^ 31).
    set (y := x mod 2 ^ 32) in *. clearbody y. case_test.
    - rewrite Z.mod_small; lia.
    - replace (y + 2 ^ 31) with (y - 2 ^ 31 + 1 * 2 ^ 32) by lia. rewrite Z.mod_add by lia. rewrite Z.mod_small; lia. }
  rewrite !H. f_equal. replace ((z + 2 ^ 31) mod 2 ^ 32 - 2 ^ 31 + 1 + 2 ^ 31) with ((z + 2 ^ 31) mod 2 ^ 32 + 1) by lia.
  rewrite Zplus_mod_idemp_l. f_equal. lia.
Qed.

Lemma updateLoop_spec snap vs : forall matched modified muts muts' a b,
  updateLoop snap vs (int32 matched) (int32 modified) muts = Some (Ok (muts', a, b)) ->
  exists new, muts' = muts ++ new /\ Forall2 (fun d m => stores (fst d) (snd d) m) (updates_of snap vs) new /\
    a = int32 (matched + zlen new) /\ b = int32 (modified + zlen new).
Proof.
  induction vs as [|v vs IH]; intros matched modified muts muts' a b H; cbn in H.
  { injection H as <- <- <-. exists []. rewrite app_nil_r, zlen_nil, !Z.add_0_r. by split_and!. }
  destruct v; try (cbn; by apply IH). cbn [updates_of].
  destruct (filterID _) as [id|]; [|by apply IH]. destruct (Get _ id _) as [[doc|]|]; [|by apply IH|done]. cbn in H.
  unfold docToJSON in H. destruct (marshal_document _) as [data|] eqn:Ed; [|done]. rewrite !int32_succ in H.
  destruct (IH _ _ _ _ _ _ H) as (new & -> & Hf & -> & ->). exists (mkMutation "put" id data None :: new).
  rewrite <- app_assoc, zlen_cons. split_and!; [done| |f_equal; lia|f_equal; lia]. constructor; [by apply stores_put|done].
Qed.

Lemma stores_unconditional ds muts :
  Forall2 (fun d m => stores (fst d) (snd d) m) ds muts -> Forall (fun d => ascii_text (fst d) = true) ds -> unconditional muts.
Proof.
  induction 1 as [|[id doc] m ds muts (data & stored & -> & _ & Hd & _) _ IH]; intros Ha.
  { split_and!; constructor. }
  apply Forall_cons in Ha as [Ha Has]. destruct (IH Has) as (H1 & H2 & H3). split_and!; constructor; try done.
  intros _. cbn. by rewrite Hd.
Qed.

Lemma deletes_unconditional vs :
  Forall (fun m => ascii_text (ID m) = true) (deleteLoop vs) -> unconditional (deleteLoop vs).
Proof.
  induction vs as [|[] vs IH]; cbn; try done; [intros _; split_and!; constructor|]. destruct (filterID _) as [id|]; [|done].
  intros [Hi H]%Forall_cons. destruct (IH H) as (H1 & H2 & H3). by split_and!; constructor.
Qed.

(** The outcome of a write command: the reply counts the mutations, which all took
    effect in one transaction, or there were none and nothing happened. *)
Definition wrote (w : W) (muts : list Mutation) (reply : bsonM) (w' : W) : Prop :=
  reply !! "n"%string = Some (VInt32 (int32 (zlen muts))) /\ (muts = [] /\ w' = w \/ takes_effect w muts w').

Lemma failed_not_ok e : failed e !! "ok"%string <> Some float1.
Proof. intros H. vm_compute in H. discriminate H. Qed.

Lemma snapshot_bind {A} (k : Z * MVCCStore -> request W A) w : (snap ← take_snapshot; k snap) w = k (be_Snapshot w) w.
Proof. done. Qed.

Lemma ret_bind {A A'} (x : A') (k : A' -> request W A) w : (a ← mret x; k a) w = k x w.
Proof. done. Qed.

Lemma lift_bind {A A'} (o : option A') (k : A' -> request W A) w : (a ← lift o; k a) w = a ← o; k a w.
Proof. by destruct o. Qed.

Lemma proposed muts answer w reply w' :
  good w -> unconditional muts -> reply !! "ok"%string = Some float1 ->
  (err ← propose muts; match err with Some e => mret (failed e) | None => mret answer end) w = Some (reply, w') ->
  reply = answer /\ takes_effect w muts w'.
Proof.
  intros Hg Hu Hok H. unfold mbind, request_bind in H. destruct (propose muts w) as [[[e|] w1]|] eqn:E; [| |done].
  - injection H as <- <-. by apply failed_not_ok in Hok.
  - injection H as <- <-. split; [done|by apply propose_effect].
Qed.

(** How [insert] and [delete] end. *)
Lemma counted muts w reply w' :
  good w -> unconditional muts -> reply !! "ok"%string = Some float1 ->
  (if zlen muts =? 0 then mret {["ok"%string := float1; "n"%string := VInt32 0]}
   else err ← propose muts;
     match err with
     | Some e => mret (failed e)
     | None => mret {["ok"%string := float1; "n"%string := VInt32 (int32 (zlen muts))]}
     end) w = Some (reply, w') -> wrote w muts reply w'.
Proof.
  intros Hg Hu Hok H. case_test_in H.
  - assert (muts = []) as -> by (destruct muts; [done|rewrite zlen_cons in Etest; pose proof (zlen_nonneg muts); lia]).
    injection H as <- <-. split; [done|by left].
  - destruct (proposed _ _ _ _ _ Hg Hu Hok H) as [-> He]. split; [done|by right].
Qed.


(** * The writes of the REST front end *)

(** One document was changed: a transaction was accepted at an index while the
    request ran, and if its entry was kept there, the document is [new] at the
    index, and every other one as before. *)
Definition changed (w : W) (id : string) (new : option Document) (w' : W) : Prop :=
  good w' /\ exists muts w0 w1 idx, elapse w = Some w0 /\ be_Propose muts w0 = Some (Ok (idx, true), w1) /\
    (kept w0 w' idx -> forall id', exists old,
       Get (idx - 1) id' (snd (be_Snapshot w')) = Some old /\
       Get idx id' (snd (be_Snapshot w')) = Some (if bool_decide (id = id') then new else old)).

Lemma changed_effect w m new w' :
  takes_effect w [m] w' -> (forall id old, effect m id old = if bool_decide (ID m = id) then new else old) -> changed w (ID m) new w'.
Proof.
  intros [Hg (w0 & w1 & idx & H0 & H1 & H2)] He. split; [done|]. exists [m], w0, w1, idx. split_and!; [done|done|].
  intros Hk id'. destruct (H2 Hk id') as (old & Ho & Hn). exists old. split; [done|]. rewrite Hn. unfold effects. cbn. by rewrite He.
Qed.

Lemma rest_propose_status muts w e w' :
  rest_propose muts w = Some (Some e, w') -> 500 <= err_status e.
Proof.
  unfold rest_propose. destruct (elapse w) as [w0|]; [|done]. cbn.
  destruct (be_Propose muts w0) as [[[[idx []]|] w1]|]; cbn; [|intros [= <- _]..|done]; try done.
  destruct (be_WaitApplied _ _ w1) as [[[] w2]|]; cbn; [done| |done]. by intros [= <- _].
Qed.

(** The ends of [putDoc] and [deleteDoc]. *)
Lemma rest_written m code new w res w' :
  good w -> unconditional [m] -> 200 <= code < 300 -> (forall id old, effect m id old = if bool_decide (ID m = id) then new else old) ->
  (err ← rest_propose [m]; mret (match err with Some e => writeProposeError e | None => mkResponse code Empty end)) w = Some (res, w') ->
  500 <= status res \/ status res = code /\ changed w (ID m) new w'.
Proof.
  intros Hg Hu Hc He H. unfold mbind, request_bind in H. destruct (rest_propose [m] w) as [[[e|] w1]|] eqn:E; [| |done]; injection H as <- <-.
  - left. by eapply rest_propose_status.
  - right. split; [done|]. apply changed_effect; [by apply rest_propose_effect|done].
Qed.

Lemma put_unconditional id data doc : ascii_text id = true -> unmarshal_document data = Ok doc ->
  unconditional [mkMutation "put" id data None] /\
  forall id' old, effect (mkMutation "put" id data None) id' old = if bool_decide (id = id') then Some doc else old.
Proof.
  intros Ha Hd. split; [split_and!; repeat constructor; try done; intros _; cbn; by rewrite Hd|]. intros id' old. unfold effect. cbn. by rewrite Hd.
Qed.

(** C14: The REST front end.  A [PUT] answered 200 stored the document of the body with its
    [_id], and a [DELETE] answered 204 removed a document that existed; if the
    entry was kept, no other document changed at its index.  A request answered
    with a status below 500 that is not a success changed nothing; a [PUT] of
    [null] panics, whatever the store. *)
Theorem rest_acknowledged r w :
  good w -> let id := TrimPrefix (Path r) "/docs/" in id <> EmptyString -> ascii_text id = true ->
  (Method r = "PUT"%string ->
     (decode_body (Body r) = Ok None -> handleDoc r w = None) /\
     forall res w', handleDoc r w = Some (res, w') -> status res < 500 ->
       status res = 400 /\ w' = w /\ is_ok (decode_body (Body r)) = false \/
       status res = 200 /\ exists doc, decode_body (Body r) = Ok (Some doc) /\ changed w id (Some (<["_id"%string := VString id]> doc)) w') /\
  (Method r = "DELETE"%string ->
     forall res w', handleDoc r w = Some (res, w') -> status res < 500 ->
       exists d, Get (fst (be_Snapshot w)) id (snd (be_Snapshot w)) = Some d /\
         (d = None /\ status res = 404 /\ w' = w \/ is_Some d /\ status res = 204 /\ changed w id None w')).
Proof.
  intros Hg id Hid Ha. unfold handleDoc. fold id. rewrite bool_decide_eq_false_2 by done. split; intros Hm; rewrite Hm.
  - rewrite bool_decide_eq_true_2 by done. unfold putDoc. destruct (decode_body (Body r)) as [[doc|]|e] eqn:Eb.
    + split; [done|]. intros res w' H Hs. destruct (marshal_document _) as [data|] eqn:Ed.
      2:{ injection H as <- <-. cbn in Hs. unfold StatusInternalServerError in Hs. lia. }
      destruct (decode_value _ _ Eb) as [b0 Hb0].
      destruct (put_unconditional id data _ Ha (document_roundtrip b0 doc "_id" id data Hb0 eq_refl Ha Ed)) as [Hu He].
      destruct (rest_written _ StatusOK _ _ _ _ Hg Hu ltac:(unfold StatusOK; lia) He H) as [?|[-> Hc]]; [lia|].
      right. split; [done|]. by exists doc.
    + split; [done|]. intros res w' H. discriminate H.
    + split; [done|]. intros res w' H _. injection H as <- <-. by left.
  - intros res w' H Hs. rewrite bool_decide_eq_false_2, bool_decide_eq_false_2, bool_decide_eq_true_2 in H by done.
    unfold deleteDoc in H. rewrite snapshot_bind, lift_bind in H. destruct (Get _ id _) as [[doc|]|] eqn:Eg; [| |discriminate H]; cbn [mbind option_bind] in H.
    + exists (Some doc). split; [done|]. right. split; [by eexists|].
      assert (Hu : unconditional [mkMutation "delete" id [] None]) by (split_and!; repeat constructor; done).
      destruct (rest_written _ StatusNoContent None _ _ _ Hg Hu ltac:(unfold StatusNoContent; lia) (fun _ _ => eq_refl) H) as [?|[-> Hc]]; [lia|done].
    + exists None. split; [done|]. left. by injection H as <- <-.
Qed.

(** * Reads *)

Definition documents_at (snap : Z * MVCCStore) (ids : list string) (docs : list Document) : Prop :=
  Forall2 (fun id doc => Get (fst snap) id (snd snap) = Some (Some doc)) ids docs.

Lemma docsOf_spec snap ids : Forall (fun id => exists doc, Get (fst snap) id (snd snap) = Some (Some doc)) ids ->
  exists docs, docsOf snap ids = Some docs /\ documents_at snap ids docs.
Proof.
  induction 1 as [|id ids [doc Hd] _ (docs & E & H)]; cbn.
  { exists []. split; [done|constructor]. }
  rewrite Hd. cbn. rewrite E. cbn.
  exists (doc :: docs). split; [done|by constructor].
Qed.

Lemma ids_of_found P at_ s ids : ids_of P at_ s ids -> Forall (fun id => exists doc, Get at_ id s = Some (Some doc)) ids.
Proof. intros [_ H]. apply list.Forall_forall. intros id Hi. apply H in Hi as (doc & Hd & _). by exists doc. Qed.

(** What [find] returns for an id, if anything. *)
Definition found (snap : Z * MVCCStore) (id : string) : option bsonM :=
  match Get (fst snap) id (snd snap) with
  | Some (Some doc) =>
      match marshal_document doc with
      | Ok blob => match unmarshalExtJSON blob with Ok (Some m) => Some (<["_id"%string := VString id]> m) | _ => None end
      | Err _ => None
      end
  | _ => None
  end.

Lemma findLoop_spec top snap ids : wf top (snd snap) -> (forall blob, unmarshalExtJSON blob <> Ok None) ->
  findLoop snap ids = Some (omap (found snap) ids).
Proof.
  intros Hw Hx. induction ids as [|id ids IH]; [done|]. cbn. unfold found at 1. rewrite (Get_visible _ _ _ _ Hw). cbn.
  destruct (visible _ _) as [doc|]; [|done]. destruct (marshal_document doc) as [blob|]; [|done].
  specialize (Hx blob). destruct (unmarshalExtJSON blob) as [[m|]|]; [|done|done]. by rewrite IH.
Qed.

(** The answer to a [find]. *)
Definition cursor (cmd : bsonM) (batch : list bsonM) : bsonM :=
  {["ok"%string := float1;
    "cursor"%string := VM {["firstBatch"%string := VDocs batch; "id"%string := VInt64 0;
                            "ns"%string := VString (as_string (field cmd "$db") ++ "." ++ as_string (field cmd "find"))]}]}.


(** * A connection *)

Context `{BS : Bson} (now : nat -> Z) (rand : nat -> nat -> bytes).

(** A request as the client sends it, and what it asks for. *)
Record sent_request := mkSent { req_id : Z; req_flags : bytes; req_sections : list section_; req_cmd : bsonM }.
Definition request_bytes (q : sent_request) : bytes := op_msg (req_id q) 0 (req_flags q) (req_sections q).

Record well_formed (fuel : nat) (q : sent_request) : Prop := {
  wq_id : - 2 ^ 31 <= req_id q < 2 ^ 31;
  wq_flags : length (req_flags q) = 4%nat;
  wq_sections : Forall section_ok (req_sections q);
  wq_cmd : meaning (req_sections q) ∅ = Some (req_cmd q);
  wq_size : zlen (request_bytes q) < 2 ^ 31;
  wq_fuel : (length (request_bytes q) < fuel)%nat
}.

(** The commands run one after the other. *)
Inductive served : nat -> W -> list sent_request -> list bytes -> W -> Prop :=
| served_nil k w : served k w [] [] w
| served_cons k w q qs reply w1 b bs w2 :
    dispatch (now k) (rand k) (req_cmd q) w = Some (reply, w1) -> writeReply opMsg (req_id q) reply = Ok b ->
    served (S k) w1 qs bs w2 -> served k w (q :: qs) (b :: bs) w2.

Lemma connection_alone fuel qs outs w w' rest e n k :
  Forall (well_formed fuel) qs -> served k w qs outs w' -> readMessage fuel rest = perr e -> (length qs < n)%nat ->
  handleConn fuel now rand k n (concat (map request_bytes qs) ++ rest) w = Done (concat outs, w').
Proof.
  intros Hq Hs Hr. revert Hq n. induction Hs as [k w|k w q qs reply w1 b bs w2 Hd Hw Hs IH]; intros Hq n Hn; (destruct n as [|n]; [cbn in Hn; lia|]).
  - cbn [map concat app handleConn]. unfold handleOne. by rewrite Hr.
  - apply Forall_cons in Hq as [[H1 H2 H3 H4 H5 H6] Hqs]. cbn [map concat handleConn]. rewrite <- app_assoc. unfold request_bytes at 1, handleOne.
    rewrite (read_op_msg fuel (req_id q) 0 (req_flags q) (req_sections q) (req_cmd q)) by (done || lia).
    cbn [mret parse_ret]. rewrite Hd, Hw, IH; [done|done|cbn in Hn; lia].
Qed.

(** * The connections of a server *)

(** The messages read one after the other from the bytes of a client, and what is left. *)
Inductive reads (fuel : nat) (b : bytes) : list (Z * bsonM * Z) -> bytes -> Prop :=
| reads_nil : reads fuel b [] b
| reads_snoc msgs r reqID cmd opCode r' :
    reads fuel b msgs r -> readMessage fuel r = Done (Ok (reqID, cmd, opCode, r')) ->
    reads fuel b (msgs ++ [(reqID, cmd, opCode)]) r'.

(** A message was read from the [ev_conn]-th connection and answered. *)
Record event := mkEvent { ev_conn : nat; ev_msg : Z * bsonM * Z; ev_reply : res bytes }.

(** Commands that ran one after the other, other things happening between them. *)
Inductive handled (w : W) : list event -> W -> Prop :=
| handled_nil : handled w [] w
| handled_elapse evs w1 w2 : handled w evs w1 -> elapse w1 = Some w2 -> handled w evs w2
| handled_snoc evs w1 k reqID cmd opCode t rnd reply w2 :
    handled w evs w1 -> dispatch t rnd cmd w1 = Some (reply, w2) ->
    handled w (evs ++ [mkEvent k (reqID, cmd, opCode) (writeReply opCode reqID reply)]) w2.

Definition of_conn (k : nat) (evs : list event) : list event := filter (fun ev => ev_conn ev = k) evs.
Definition answers_of (evs : list event) : bytes := concat (map (fun ev => match ev_reply ev with Ok b => b | Err _ => [] end) evs).

Record serves (fuel : nat) (evs : list event) (s : Server) : Prop := {
  sv_conns : Forall (fun ev => (ev_conn ev < length (conns s))%nat) evs;
  sv_conn k c : conns s !! k = Some c ->
    replies c = answers_of (of_conn k evs) /\
    exists r, reads fuel (incoming c) (map ev_msg (of_conn k evs)) r /\ (serving c = true -> unread c = r)
}.

Lemma of_conn_snoc k evs ev : of_conn k (evs ++ [ev]) = of_conn k evs ++ (if decide (ev_conn ev = k) then [ev] else []).
Proof. unfold of_conn. rewrite filter_app, filter_cons, filter_nil. done. Qed.

Lemma of_conn_none k evs : Forall (fun ev => (ev_conn ev < k)%nat) evs -> of_conn k evs = [].
Proof.
  unfold of_conn. induction 1 as [|ev evs Hev _ IH]; [done|]. rewrite filter_cons_False; [done|]. lia.
Qed.

Lemma accept_serves fuel conn evs s s' : serves fuel evs s -> accept conn s = Some s' -> serves fuel evs s'.
Proof.
  intros [Hc Hs] E. unfold accept in E. destruct (accepting s); [|done]. cbn in E.
  destruct conn as [b|]; [destruct (listening s); [|done]|]; injection E as <-; [|by split].
  split; cbn.
  - eapply Forall_impl; [exact Hc|]. cbn. intros ev Hev. rewrite length_app. cbn. lia.
  - intros k c [Hk|[Hk E]]%lookup_app_Some; [by apply Hs|]. apply list_lookup_singleton_Some in E as [Ek <-].
    rewrite of_conn_none by (eapply Forall_impl; [exact Hc|]; cbn; intros; lia). split; [done|]. exists b. split; [constructor|done].
Qed.

(** A connection whose round is over: its events are those before, or one more. *)
Lemma set_serves fuel evs evs' s k c c' :
  serves fuel evs s -> conns s !! k = Some c -> (evs' = [] \/ exists ev, evs' = [ev] /\ ev_conn ev = k) ->
  (replies c = answers_of (of_conn k evs) ->
   (exists r, reads fuel (incoming c) (map ev_msg (of_conn k evs)) r /\ unread c = r) ->
   replies c' = answers_of (of_conn k evs ++ evs') /\
   exists r, reads fuel (incoming c') (map ev_msg (of_conn k evs ++ evs')) r /\ (serving c' = true -> unread c' = r)) ->
  serving c = true ->
  serves fuel (evs ++ evs') (mkServer (listener s) (listening s) (accepting s) (<[k := c']> (conns s))).
Proof.
  intros [Hc Hs] Hk Hev Hc' Hsv. pose proof (lookup_lt_Some _ _ _ Hk) as Hlt. split; cbn.
  - rewrite length_insert. apply Forall_app. split; [done|].
    destruct Hev as [->|(ev & -> & <-)]; constructor; [done|constructor].
  - intros j d Hd. destruct (decide (j = k)) as [->|Hj].
    + rewrite list_lookup_insert_eq in Hd by done. injection Hd as <-.
      assert (of_conn k (evs ++ evs') = of_conn k evs ++ evs') as ->.
      { destruct Hev as [->|(ev & -> & Ek)]; [by rewrite !app_nil_r|]. by rewrite of_conn_snoc, decide_True. }
      destruct (Hs _ _ Hk) as (Hr & r & Hrd & Hu). apply Hc'; [done|]. exists r. auto.
    + rewrite list_lookup_insert_ne in Hd by done. destruct (Hs _ _ Hd) as (Hr & r & Hrd & Hu).
      assert (of_conn j (evs ++ evs') = of_conn j evs) as ->.
      { destruct Hev as [->|(ev & -> & Ek)]; [by rewrite !app_nil_r|]. by rewrite of_conn_snoc, decide_False, app_nil_r by congruence. }
      split; [done|]. by exists r.
Qed.

Lemma turn_serves fuel t rnd k evs s w0 w s' w' :
  handled w0 evs w -> serves fuel evs s -> turn fuel t rnd k s w = Some (Done (s', w')) ->
  exists evs', handled w0 evs' w' /\ serves fuel evs' s'.
Proof.
  intros Hh Hs E. unfold turn in E. destruct (conns s !! k) as [c|] eqn:Hk; [|done]. cbn [mbind option_bind] in E.
  destruct (serving c) eqn:Hsv; [|done]. cbn [negb] in E. unfold handleOne in E.
  destruct (readMessage fuel (unread c)) as [[[[[reqID cmd] opCode] r]|e]| |] eqn:Er; [|  |done|done].
  - destruct (dispatch t rnd cmd w) as [[reply w1]|] eqn:Ed; [|done].
    set (ev := mkEvent k (reqID, cmd, opCode) (writeReply opCode reqID reply)).
    exists (evs ++ [ev]). pose proof (handled_snoc w0 evs w k reqID cmd opCode t rnd reply w1 Hh Ed) as Hh'. fold ev in Hh'.
    assert (Hrd : forall r0, reads fuel (incoming c) (map ev_msg (of_conn k evs)) r0 -> unread c = r0 ->
      reads fuel (incoming c) (map ev_msg (of_conn k evs ++ [ev])) r).
    { intros r0 Hr0 <-. rewrite map_app. cbn. by eapply reads_snoc. }
    assert (Ha : answers_of (of_conn k evs ++ [ev]) = answers_of (of_conn k evs) ++ match ev_reply ev with Ok b => b | Err _ => [] end).
    { unfold answers_of. rewrite map_app, concat_app. cbn. by rewrite app_nil_r. }
    cbn [ev_reply ev] in Ha.
    destruct (writeReply opCode reqID reply) as [b|] eqn:Ew; injection E as <- <-; (split; [done|]);
      (apply (set_serves fuel evs [ev] s k c); [done|done|right; by exists ev| |done]); cbn; intros Hr (r0 & H1 & H2);
      rewrite Ha, Hr, ?app_nil_r; (split; [done|]); exists r; (split; [by eapply Hrd|done]).
  - injection E as <- <-. exists evs. split; [done|]. rewrite <- (app_nil_r evs).
    apply (set_serves fuel evs [] s k c); [done|done|by left| |done]. cbn. rewrite app_nil_r. intros Hr (r0 & H1 & H2). split; [done|]. by exists r0.
Qed.

Lemma server_run_serves fuel steps : forall evs s w0 w s' w',
  handled w0 evs w -> serves fuel evs s -> server_run fuel steps s w = Some (Done (s', w')) ->
  exists evs', handled w0 evs' w' /\ serves fuel evs' s'.
Proof.
  induction steps as [|a steps IH]; intros evs s w0 w s' w' Hh Hs E; cbn [server_run] in E; [injection E as <- <-; by exists evs|].
  destruct (server_step fuel a s w) as [[[s1 w1]| |]|] eqn:E1; try done.
  assert (H : exists evs1, handled w0 evs1 w1 /\ serves fuel evs1 s1); [|destruct H as (evs1 & H1 & H2); by eapply IH].
  destruct a as [conn|k t rnd| |]; cbn in E1.
  - destruct (accept conn s) as [s2|] eqn:Ea; [|done]. injection E1 as <- <-. exists evs. split; [done|by eapply accept_serves].
  - by eapply turn_serves.
  - destruct (elapse w) as [w2|] eqn:Ee; [|done]. injection E1 as <- <-. exists evs. split; [by eapply handled_elapse|done].
  - injection E1 as <- <-. exists evs. split; [done|]. unfold Close. destruct (listening s); [|done]. by destruct Hs.
Qed.


End services.

(** C29: Documents have addresses.  For every document id but the empty one, a dot and
    two dots, a request of any method to the path made of ["/docs/"] and the
    escaped id ([url.PathEscape]) is accepted, is not redirected, and does what the
    handler of the method does for exactly that id; so a document can be put,
    read and deleted under any other id, with slashes, spaces and escapes. *)
Theorem rest_addressing `{J : Json} `{JB : JsonBody} {W : Type} `{B : Backend W} id method query body mux (w : W) :
  id <> ""%string -> id <> "."%string -> id <> ".."%string -> New = Some mux ->
  exists r, parseRequest method ("/docs/" +:+ string_of (PathEscape (chars id))) query body = Some r /\
    ServeHTTP mux r w =
      (if bool_decide (method = "PUT"%string) then putDoc body id
       else if bool_decide (method = "GET"%string) then getDoc id
       else if bool_decide (method = "DELETE"%string) then deleteDoc id
       else mret (Error "method not allowed" StatusMethodNotAllowed)) w.
Proof.
  intros H0 H1 H2 Hn. assert (mux = collection (chars "docs") handleDoc handleDocs) as -> by (rewrite New_routes in Hn; congruence).
  destruct (parse_doc id method query body H0 H1 H2) as (raw & E & He & Hb). eexists. split; [exact E|].
  unfold ServeHTTP. cbn [Path Method RawPath]. rewrite bool_decide_false by done.
  rewrite (route_member (chars "docs") handleDoc handleDocs eq_refl method _ _ _ Hb He).
  unfold handleDoc. cbn [Path Method Body]. rewrite TrimPrefix_docs. by rewrite (bool_decide_false (id = _)) by done.
Qed.

(** * A group of three replicas that serves requests *)

#[local] Existing Instances toy_json toy_json_ok.

Definition toy_decode (b : bytes) : res (option (gmap string value)) := match unmarshal_texts b with Ok doc => Ok (Some doc) | Err e => Err e end.
#[local] Instance toy_body : JsonBody := toy_decode.
#[local] Instance toy_ext : ExtJson := toy_decode.

#[local] Instance toy_body_ok : JsonBodyOk.
Proof. intros b doc. unfold decode_body, toy_body, toy_decode. cbn. destruct (unmarshal_texts b) as [d|] eqn:E; [|done]. intros [= <-]. by exists b. Qed.

(** The requests go to the leader; while it waits the group commits. *)
Definition served_world : Type := @RepWorld (Docs LocalDirColdStore MVCCStore).
#[local] Instance trio_backend : Backend served_world := replicated_backend trio 256 0 (fun _ => []) (fun _ => [doc_commits]).
#[local] Instance trio_backend_ok : BackendOk served_world :=
  replicated_backend_ok trio 256 0 (fun _ => []) (fun _ => [doc_commits]) (fun _ => docs0) "name" 0 trio_valid (fun _ => docs0_new).

Definition leading : served_world := dafter election dworld0.

Lemma leading_good : good leading.
Proof. exact (dafter_reachable election). Qed.

Definition ann : bsonM := {["_id"%string := VString "a"; "name"%string := VString "ann"]}.
Definition insert_cmd : bsonM := {["insert"%string := VString "people"; "documents"%string := VSlice [VM ann]]}.


Definition put_ann : http_request := mkRequest "PUT" "/docs/a" [] (named "ann") "".

Lemma rest_acknowledged_witness :
  exists res w' doc, handleDoc put_ann leading = Some (res, w') /\ status res = 200 /\
    decode_body (Body put_ann) = Ok (Some doc) /\ changed leading "a" (Some (<["_id"%string := VString "a"]> doc)) w'.
Proof.
  assert (H : (fun p => status (fst p)) <$> handleDoc put_ann leading = Some 200) by (vm_compute; reflexivity).
  destruct (handleDoc put_ann leading) as [[res w']|] eqn:E; [|discriminate H]. injection H as H.
  pose proof (proj1 (rest_acknowledged put_ann leading leading_good ltac:(discriminate) ltac:(vm_compute; reflexivity)) eq_refl) as [_ HP].
  destruct (HP res w' E ltac:(lia)) as [[H4 _]|(H2 & doc & Hd & Hc)]; [lia|].
  exists res, w', doc. split; [reflexivity|]. split; [exact H|]. split; [exact Hd|exact Hc].
Defined.


(** A document whose id has a slash, a space and a percent sign. *)
Lemma rest_addressing_witness :
  exists mux r, New = Some mux /\ parseRequest "PUT" "/docs/a%2F%20b%25" [] (named "ann") = Some r /\
    ServeHTTP mux r leading = putDoc (named "ann") "a/ b%" leading.
Proof.
  destruct (rest_addressing "a/ b%" "PUT" [] (named "ann") (collection (chars "docs") handleDoc handleDocs) leading) as (r & E & H);
    [discriminate|discriminate|discriminate|apply New_routes|].
  exists (collection (chars "docs") handleDoc handleDocs), r. split; [apply New_routes|]. split; [exact E|exact H].
Defined.

(** A codec that writes the texts of a document, and one document for every answer. *)
#[local] Instance ok_bson : Bson := {|
  bson_unmarshal := @bson_unmarshal tiny_bson;
  bson_marshal m := if has m "ok" then Ok (tiny_encode "ok" "1") else @bson_marshal tiny_bson m
|}.

Definition ping : sent_request := mkSent 5 [Byte.x00; Byte.x00; Byte.x00; Byte.x00] wire_sections wire_cmd.

(** Two clients, the second one with nothing to say after its request. *)
Definition two_clients : list ServerStep :=
  [SAccept (Some (request_bytes ping)); SAccept (Some (request_bytes ping)); STurn 1 7 (fun _ => []); STurn 0 8 (fun _ => []);
   SClose; SAccept None; STurn 1 9 (fun _ => [])].

