(* ===== verification/Group.v ===== *)
(** Consumer groups ([group/coordinator.go]): partitions are assigned round-robin
    to the live members of a group.

    Each method runs under the coordinator's lock, and so does one tick of
    [expiryLoop].  Go ranges over a map in an order it does not specify: [keys]
    is the order of the run. *)
From S2P Require Import Prelude GoLib.
#[local] Open Scope Z_scope.
#[local] Set Warnings "-clear-no-such-hyp".

(** Times and durations are in nanoseconds. *)
Definition defaultHeartbeatTimeout : Z := 500 * 10 ^ 6.

Record Coordinator := mkCoordinator {
  numPartitions : Z;
  heartbeatTimeout : Z;
  lastHeartbeat : gmap string Z;
  assignment : gmap string (list Z);
  closed : bool
}.

(** [None] is the panic of [time.NewTicker], in [expiryLoop], on an interval that
    is not positive. *)
Definition NewCoordinator (numPartitions heartbeatTimeout : Z) : option Coordinator :=
  let heartbeatTimeout := if heartbeatTimeout <=? 0 then defaultHeartbeatTimeout else heartbeatTimeout in
  if heartbeatTimeout / 2 <=? 0 then None
  else Some (mkCoordinator numPartitions heartbeatTimeout ∅ ∅ false).

(** The loop over the partitions, from [p] on. *)
Fixpoint assignLoop (rounds : nat) (p : Z) (live : list string) (a : gmap string (list Z)) : option (gmap string (list Z)) :=
  match rounds with
  | O => Some a
  | S rounds =>
      if zlen live =? 0 then Some a
      else
        owner ← live @[p mod zlen live];
        assignLoop rounds (p + 1) live (<[owner := mapget [] a owner ++ [p]]> a)
  end.

Definition rebalanceLocked (keys : list string) (c : Coordinator) : option Coordinator :=
  let live := Strings keys in
  let a := foldl (fun a id => <[id := []]> a) ∅ live in
  a ← assignLoop (Z.to_nat (numPartitions c)) 0 live a;
  Some (mkCoordinator (numPartitions c) (heartbeatTimeout c) (lastHeartbeat c) a (closed c)).

Definition with_heartbeats (h : gmap string Z) (c : Coordinator) : Coordinator :=
  mkCoordinator (numPartitions c) (heartbeatTimeout c) h (assignment c) (closed c).

Definition Join (keys : list string) (id : string) (now : Z) (c : Coordinator) : option Coordinator :=
  rebalanceLocked keys (with_heartbeats (<[id := now]> (lastHeartbeat c)) c).

Definition Heartbeat (id : string) (now : Z) (c : Coordinator) : Coordinator :=
  match lastHeartbeat c !! id with
  | Some _ => with_heartbeats (<[id := now]> (lastHeartbeat c)) c
  | None => c
  end.

Definition Leave (keys : list string) (id : string) (c : Coordinator) : option Coordinator :=
  rebalanceLocked keys (with_heartbeats (delete id (lastHeartbeat c)) c).

Definition Assignment (id : string) (c : Coordinator) : list Z := mapget [] (assignment c) id.
Definition FullAssignment (c : Coordinator) : gmap string (list Z) := assignment c.

(** One tick of [expiryLoop]. *)
Definition expireTick (keys : list string) (now : Z) (c : Coordinator) : option Coordinator :=
  let kept := filter (fun '(_, last) => now - last <= heartbeatTimeout c) (lastHeartbeat c) in
  let c' := with_heartbeats kept c in
  if bool_decide (kept = lastHeartbeat c) then Some c' else rebalanceLocked keys c'.

Definition Close (c : Coordinator) : Coordinator :=
  mkCoordinator (numPartitions c) (heartbeatTimeout c) (lastHeartbeat c) (assignment c) true.

(** * Histories of a group *)

Inductive GroupStep :=
| GJoin (keys : list string) (id : string) (now : Z)
| GHeartbeat (id : string) (now : Z)
| GLeave (keys : list string) (id : string)
| GExpire (keys : list string) (now : Z)
| GClose.

Definition group_step (s : GroupStep) (c : Coordinator) : option Coordinator :=
  match s with
  | GJoin keys id now => Join keys id now c
  | GHeartbeat id now => Some (Heartbeat id now c)
  | GLeave keys id => Leave keys id c
  | GExpire keys now => expireTick keys now c
  | GClose => Some (Close c)
  end.

Definition members (c : Coordinator) : list string := map fst (map_to_list (lastHeartbeat c)).

(** The order in which the run ranges over the map is an order of its keys. *)
Definition order_ok (s : GroupStep) (c' : Coordinator) : Prop :=
  match s with
  | GJoin keys _ _ | GLeave keys _ | GExpire keys _ => keys ≡ₚ members c'
  | GHeartbeat _ _ | GClose => True
  end.

Inductive group_reachable (n t : Z) : Coordinator -> Prop :=
| group_init c : NewCoordinator n t = Some c -> group_reachable n t c
| group_more s c c' : group_reachable n t c -> group_step s c = Some c' -> order_ok s c' -> group_reachable n t c'.

(** * What is assigned *)

(** The reference: partition [p] goes to the member at position [p] of the sorted
    members, cyclically. *)
Definition owner_of (live : list string) (p : Z) : option string := live @[p mod zlen live].
Definition owned (live : list string) (n : Z) (id : string) : list Z := filter (fun p => owner_of live p = Some id) (seqZ 0 n).

Lemma owner_of_Some live p : live <> [] -> exists id, owner_of live p = Some id.
Proof.
  intros H. apply zget_Some. apply Z.mod_pos_bound. destruct live; [done|]. rewrite zlen_cons. pose proof (zlen_nonneg live). lia.
Qed.

Lemma owner_of_live live p id : owner_of live p = Some id -> id ∈ live.
Proof. unfold owner_of, zget. case_test; [done|]. apply list_elem_of_lookup_2. Qed.

Lemma owner_of_nil l id : filter (fun q => owner_of [] q = Some id) l = [].
Proof.
  induction l as [|q l IH]; [done|]. rewrite filter_cons_False; [done|]. unfold owner_of, zget. by case_test.
Qed.

Lemma assignLoop_spec live k : forall p a, exists a', assignLoop k p live a = Some a' /\
  (forall id, mapget [] a' id = mapget [] a id ++ filter (fun q => owner_of live q = Some id) (seqZ p (Z.of_nat k))) /\
  dom a ⊆ dom a' /\ dom a' ⊆ dom a ∪ list_to_set live.
Proof.
  induction k as [|k IH]; intros p a; cbn [assignLoop].
  { exists a. split_and!; [done| |done|set_solver]. intros id. by rewrite seqZ_nil, filter_nil, app_nil_r by lia. }
  destruct (zlen live =? 0) eqn:E; bool_to_prop.
  { exists a. split_and!; [done| |done|set_solver]. intros id. destruct live; [|rewrite zlen_cons in E; pose proof (zlen_nonneg live); lia].
    by rewrite owner_of_nil, app_nil_r. }
  destruct (owner_of_Some live p) as [owner Ho]; [by intros ->|]. unfold owner_of in Ho. rewrite Ho. cbn [mbind option_bind].
  destruct (IH (p + 1) (<[owner := mapget [] a owner ++ [p]]> a)) as (a' & -> & Ha & Hd1 & Hd2).
  assert (Hin : owner ∈ live) by (by eapply owner_of_live). exists a'. split_and!; [done| |set_solver|set_solver].
  intros id. rewrite Ha, (seqZ_cons p), filter_cons by lia. replace (Z.pred (Z.of_nat (S k))) with (Z.of_nat k) by lia.
  change (Z.succ p) with (p + 1). unfold mapget at 1. fold (owner_of live p) in Ho. destruct (decide (owner = id)) as [->|Hne].
  - rewrite lookup_insert_eq, decide_True by done. cbn. by rewrite <- app_assoc.
  - rewrite lookup_insert_ne by done. rewrite decide_False by congruence. done.
Qed.

Lemma blank_assignment live : forall a : gmap string (list Z), (forall id, mapget [] a id = []) ->
  let a' := foldl (fun a id => <[id := []]> a) a live in
  (forall id, mapget [] a' id = []) /\ dom a' = dom a ∪ list_to_set live.
Proof.
  induction live as [|x live IH]; intros a Ha; cbn; [split; [done|set_solver]|].
  destruct (IH (<[x := []]> a)) as [H1 H2].
  { intros id. unfold mapget. destruct (decide (x = id)) as [->|]; [by rewrite lookup_insert_eq|rewrite lookup_insert_ne by done; apply Ha]. }
  split; [done|]. rewrite H2. set_solver.
Qed.

(** The assignment is the one of the current members. *)
Definition assigned (c : Coordinator) : Prop :=
  let live := Strings (members c) in
  (forall id, Assignment id c = owned live (numPartitions c) id) /\ dom (assignment c) = dom (lastHeartbeat c).

Lemma members_dom c : list_to_set (members c) = dom (lastHeartbeat c).
Proof.
  apply set_eq. intros x. rewrite elem_of_list_to_set, elem_of_dom. unfold members. split.
  - intros ([k v] & -> & H%elem_of_map_to_list)%list_elem_of_fmap. by exists v.
  - intros [v H]. apply list_elem_of_fmap. exists (x, v). split; [done|by apply elem_of_map_to_list].
Qed.

Lemma rebalance_spec keys c : exists c', rebalanceLocked keys c = Some c' /\
  numPartitions c' = numPartitions c /\ heartbeatTimeout c' = heartbeatTimeout c /\ lastHeartbeat c' = lastHeartbeat c /\
  (keys ≡ₚ members c -> assigned c').
Proof.
  unfold rebalanceLocked. destruct (blank_assignment (Strings keys) ∅) as [H1 H2]; [intros id; unfold mapget; by rewrite lookup_empty|].
  destruct (assignLoop_spec (Strings keys) (Z.to_nat (numPartitions c)) 0 (foldl (fun a id => <[id:=[]]> a) ∅ (Strings keys)))
    as (a' & -> & Ha & Hd1 & Hd2). eexists. split_and!; [reflexivity|done|done|done|]. intros Hk. unfold assigned, Assignment, owned.
  cbn [assignment lastHeartbeat numPartitions]. unfold members. cbn [lastHeartbeat]. fold (members c).
  rewrite (Strings_unique _ _ Hk) in *. split.
  - intros id. rewrite Ha, H1. cbn. destruct (decide (0 <= numPartitions c)); [by rewrite Z2Nat.id by lia|].
    by rewrite !seqZ_nil by lia.
  - assert (Hs : list_to_set (Strings (members c)) = dom (lastHeartbeat c)).
    { rewrite <- members_dom. unfold Strings. by rewrite merge_sort_Permutation. }
    set_solver.
Qed.

Lemma members_heartbeat id now c : members (Heartbeat id now c) ≡ₚ members c.
Proof.
  unfold Heartbeat. destruct (lastHeartbeat c !! id) eqn:E; [|done].
  apply NoDup_Permutation; [apply NoDup_fst_map_to_list..|]. intros x.
  pose proof (members_dom c) as H1. pose proof (members_dom (with_heartbeats (<[id:=now]> (lastHeartbeat c)) c)) as H2.
  rewrite <- !(elem_of_list_to_set (C := gset string)), H1, H2. cbn. apply elem_of_dom_2 in E. set_solver.
Qed.

Lemma group_inv n t c : group_reachable n t c -> assigned c /\ numPartitions c = n.
Proof.
  induction 1 as [c H|s c c' _ [[IH IHd] IHn] H Ho].
  { unfold NewCoordinator in H. repeat case_test_in H; try done; injection H as <-; (split; [split|done]); cbn; try done;
      intros id; unfold Assignment, owned, mapget; cbn; rewrite lookup_empty; cbn; by rewrite owner_of_nil. }
  destruct s as [keys id now|id now|keys id|keys now|]; cbn in H, Ho.
  - unfold Join in H. destruct (rebalance_spec keys (with_heartbeats (<[id:=now]> (lastHeartbeat c)) c)) as (c1 & E & Hn & _ & Hl & Ha).
    rewrite E in H. injection H as <-. split; [apply Ha|by rewrite Hn]. by unfold members in *; rewrite Hl in Ho.
  - injection H as <-. pose proof (members_heartbeat id now c) as Hm. unfold assigned. rewrite (Strings_unique _ _ Hm).
    unfold Heartbeat. destruct (lastHeartbeat c !! id) eqn:E; [|done]. split; [split|done]; [done|]. cbn. rewrite IHd.
    apply elem_of_dom_2 in E. set_solver.
  - unfold Leave in H. destruct (rebalance_spec keys (with_heartbeats (delete id (lastHeartbeat c)) c)) as (c1 & E & Hn & _ & Hl & Ha).
    rewrite E in H. injection H as <-. split; [apply Ha|by rewrite Hn]. by unfold members in *; rewrite Hl in Ho.
  - unfold expireTick in H. case_bool_decide as Ek.
    + injection H as <-. rewrite Ek. split; [|done]. split; [|done]. intros id. apply IH.
    + destruct (rebalance_spec keys (with_heartbeats (filter (fun '(_, last) => now - last <= heartbeatTimeout c) (lastHeartbeat c)) c))
        as (c1 & E & Hn & _ & Hl & Ha). rewrite E in H. injection H as <-. split; [apply Ha|by rewrite Hn].
      by unfold members in *; rewrite Hl in Ho.
  - by injection H as <-.
Qed.

(** How many of the first [n] partitions go to position [k] of [L]. *)
Lemma round_robin_count (L k : Z) (n : nat) : 0 <= k < L ->
  Z.of_nat (length (filter (fun p => p mod L = k) (seqZ 0 (Z.of_nat n)))) = Z.of_nat n / L + if k <? Z.of_nat n mod L then 1 else 0.
Proof.
  intros Hk. induction n as [|n IH].
  { rewrite seqZ_nil by lia. cbn. rewrite Z.div_0_l, Z.mod_0_l by lia. by rewrite (proj2 (Z.ltb_ge _ _)) by lia. }
  rewrite seqZ_S, filter_app, length_app, Nat2Z.inj_add, IH, filter_cons, filter_nil. cbn [Z.add]. rewrite Z.add_0_l.
  rewrite Nat2Z.inj_succ. set (m := Z.of_nat n). unfold Z.succ.
  assert (Hm : m = L * (m / L) + m mod L) by (apply Z.div_mod; lia). pose proof (Z.mod_pos_bound m L ltac:(lia)) as Hb.
  destruct (decide (m mod L + 1 = L)) as [El|El].
  - assert (Hq : (m + 1) / L = m / L + 1) by (symmetry; apply (Z.div_unique _ _ _ 0); lia).
    assert (Hr : (m + 1) mod L = 0) by (symmetry; apply (Z.mod_unique _ _ (m / L + 1)); lia).
    rewrite Hq, Hr. rewrite (proj2 (Z.ltb_ge k 0)) by lia. case_decide; cbn [length]; case_test; lia.
  - assert (Hq : (m + 1) / L = m / L) by (symmetry; apply (Z.div_unique _ _ _ (m mod L + 1)); lia).
    assert (Hr : (m + 1) mod L = m mod L + 1) by (symmetry; apply (Z.mod_unique _ _ (m / L)); lia).
    rewrite Hq, Hr. case_decide; cbn [length]; case_test; case_test; lia.
Qed.

Lemma zget_NoDup {A} (l : list A) i j x : NoDup l -> l @[i] = Some x -> l @[j] = Some x -> i = j.
Proof.
  intros Hn Hi Hj. pose proof (zget_bounds _ _ _ Hi). pose proof (zget_bounds _ _ _ Hj). unfold zget in *.
  rewrite (proj2 (Z.ltb_ge i 0)) in Hi by lia. rewrite (proj2 (Z.ltb_ge j 0)) in Hj by lia. pose proof (NoDup_lookup _ _ _ _ Hn Hi Hj). lia.
Qed.

Lemma owned_count live n id : NoDup live -> id ∈ live ->
  n / zlen live <= zlen (owned live n id) <= n / zlen live + 1 \/ n < 0 /\ owned live n id = [].
Proof.
  intros Hn Hin. destruct (decide (0 <= n)) as [H0|]; [left|right; unfold owned; rewrite seqZ_nil by lia; split; [lia|done]].
  apply list_elem_of_lookup in Hin as [k Hk]. pose proof (lookup_lt_Some _ _ _ Hk) as Hlt.
  assert (Hz : live @[Z.of_nat k] = Some id) by (unfold zget; rewrite (proj2 (Z.ltb_ge _ _)), Nat2Z.id by lia; done).
  assert (E : owned live n id = filter (fun p => p mod zlen live = Z.of_nat k) (seqZ 0 n)).
  { unfold owned. apply list_filter_iff. intros p. unfold owner_of. split; [intros H; by eapply zget_NoDup|by intros ->]. }
  pose proof (round_robin_count (zlen live) (Z.of_nat k) (Z.to_nat n) ltac:(unfold zlen; lia)) as Hc.
  rewrite Z2Nat.id, <- E in Hc by lia. change (Z.of_nat (length (owned live n id))) with (zlen (owned live n id)) in Hc.
  rewrite Hc. case_test; lia.
Qed.

Lemma live_NoDup c : NoDup (Strings (members c)).
Proof. unfold Strings. rewrite merge_sort_Permutation. apply NoDup_fst_map_to_list. Qed.

Lemma group_step_total s c : group_step s c <> None.
Proof.
  destruct s as [keys id now|id now|keys id|keys now|]; cbn; try done; unfold Join, Leave, expireTick; [| |case_bool_decide; [done|]];
    match goal with |- rebalanceLocked ?k ?c <> None => destruct (rebalance_spec k c) as (? & -> & _) end; done.
Qed.

(** C23: Consumer groups are assigned exactly.  After any history of joins,
    heartbeats, leaves and expiry ticks, and whatever order the map is ranged
    over, partition [p] of [n] belongs to the member at position [p mod members]
    of the sorted members and to nobody else; all partitions are assigned as soon
    as there is a member; no member has two partitions more than another; no step
    panics; and after a tick a consumer whose heartbeat is too old owns nothing. *)
Theorem group_assignment n t c :
  group_reachable n t c ->
  let live := Strings (members c) in
  (forall id, Assignment id c = owned live n id) /\
  (forall p, live <> [] -> 0 <= p < n ->
     exists id, id ∈ live /\ p ∈ Assignment id c /\ forall id', p ∈ Assignment id' c -> id' = id) /\
  (forall id id', id ∈ live -> id' ∈ live -> zlen (Assignment id c) <= zlen (Assignment id' c) + 1) /\
  (forall s, group_step s c <> None) /\
  (forall keys now c' id last, expireTick keys now c = Some c' -> keys ≡ₚ members c' ->
     lastHeartbeat c !! id = Some last -> heartbeatTimeout c < now - last -> Assignment id c' = []).
Proof.
  intros Hr live. destruct (group_inv _ _ _ Hr) as [[Ha Hd] Hn]. fold live in Ha. rewrite Hn in Ha.
  assert (Hown : forall p id, 0 <= p < n -> owner_of live p = Some id <-> p ∈ Assignment id c).
  { intros p id Hp. rewrite Ha. unfold owned. rewrite list_elem_of_filter, elem_of_seqZ. split; [intros; split; [done|lia]|tauto]. }
  split_and!; [done| | |intros s; apply group_step_total|].
  - intros p Hl Hp. destruct (owner_of_Some live p Hl) as [id Hid]. exists id. split_and!; [by eapply owner_of_live|by apply Hown|].
    intros id' H. apply Hown in H; [congruence|done].
  - intros id id' Hi Hi'. rewrite !Ha. pose proof (owned_count live n id (live_NoDup c) Hi).
    pose proof (owned_count live n id' (live_NoDup c) Hi'). pose proof (zlen_nonneg (owned live n id')).
    destruct H as [H|[? H]]; [|rewrite H, zlen_nil; lia]. destruct H0 as [H0|[? H0]]; [lia|].
    assert (n / zlen live < 0) by (apply Z.div_lt_upper_bound; [|lia]; apply list_elem_of_lookup in Hi as [k Hk%lookup_lt_Some]; unfold zlen; lia).
    rewrite H0, zlen_nil. lia.
  - intros keys now c' id last E Hk Hl Ho.
    assert (Hr' : group_reachable n t c') by (eapply (group_more _ _ (GExpire keys now)); done).
    destruct (group_inv _ _ _ Hr') as [[_ Hd'] _].
    assert (Hout : id ∉ dom (lastHeartbeat c')).
    { assert (lastHeartbeat c' = filter (fun '(_, last) => now - last <= heartbeatTimeout c) (lastHeartbeat c)) as ->.
      { unfold expireTick in E. case_bool_decide; [by injection E as <-|].
        match type of E with rebalanceLocked ?k ?x = _ => destruct (rebalance_spec k x) as (c1 & E1 & _ & _ & Hh & _) end.
        rewrite E1 in E. injection E as <-. done. }
      rewrite not_elem_of_dom. apply map_lookup_filter_None. right. intros x Hx. rewrite Hl in Hx. injection Hx as <-. lia. }
    rewrite <- Hd' in Hout. apply not_elem_of_dom in Hout. unfold Assignment, mapget. by rewrite Hout.
Qed.

Definition group_history : list GroupStep :=
  [GJoin ["b"%string] "b" 0; GJoin ["b"%string; "a"%string] "a" 5; GHeartbeat "a" 90; GJoin ["c"%string; "b"%string; "a"%string] "c" 95;
   GExpire ["c"%string; "a"%string] 120].

Fixpoint group_run (ss : list GroupStep) (c : Coordinator) : Coordinator :=
  match ss with [] => c | s :: ss => group_run ss (default c (group_step s c)) end.
Definition group0 : Coordinator := mkCoordinator 5 100 ∅ ∅ false.

Lemma group_assignment_witness :
  let c := group_run group_history group0 in
  Assignment "a" c = [0; 2; 4] /\ Assignment "c" c = owned (Strings (members c)) 5 "c".
Proof.
  split; [vm_compute; reflexivity|].
  apply (group_assignment 5 100 (group_run group_history group0)).
  assert (Hstep : forall s c, group_reachable 5 100 c -> order_ok s (default c (group_step s c)) -> group_reachable 5 100 (default c (group_step s c))).
  { intros s c Hc Ho. destruct (group_step s c) eqn:E; [|done]. by eapply group_more. }
  unfold group_history, group_run. repeat (apply Hstep; [|vm_compute; solve [done | apply perm_swap | solve_Permutation]]).
  by apply group_init.
Defined.
