(* ===== verification/Schema.v ===== *)
(** Schemas, access control and the writes they guard ([schema/schema.go],
    [schema/registry.go], [security/acl.go]).

    Go ranges over a map in an order it does not specify; [order] is the order of
    the run.  The registry keeps the pointer it is given: a schema that its owner
    changes after registering is outside the model. *)
From S2P Require Import Prelude GoLib Files Cold Segment SegmentFormat SegmentProof SegmentLog LogProof LogLifecycle LogRecover LogRefine Batch.
From S2P Require Import Raft RaftCluster RaftLog RaftInv RaftSteps RaftHandlers RaftSafety RaftTheorems Replica Replication Producer.
From S2P Require Import Value Docstore DocstoreProof DocstoreTheorems.
#[local] Open Scope Z_scope.

(** * Schemas *)

Definition FieldType : Type := string.
Definition TypeString : FieldType := "string".
Definition TypeInteger : FieldType := "integer".
Definition TypeNumber : FieldType := "number".
Definition TypeBoolean : FieldType := "boolean".

Record Field := mkField { FType : FieldType; Required : bool }.
Record Schema := mkSchema { Fields : gmap string Field }.

Definition checkType (want : FieldType) (val : value) : res unit :=
  if bool_decide (want = TypeString) then
    match val with VString _ => Ok tt | _ => Err "schema: field must be a string" end
  else if bool_decide (want = TypeInteger) then
    match val with
    | VFloat num => if is_trunc num then Ok tt else Err "schema: field must be an integer"
    | _ => Err "schema: field must be an integer"
    end
  else if bool_decide (want = TypeNumber) then
    match val with VFloat _ => Ok tt | _ => Err "schema: field must be a number" end
  else if bool_decide (want = TypeBoolean) then
    match val with VBool _ => Ok tt | _ => Err "schema: field must be a boolean" end
  else Err "schema: unknown field type".

(** The loop over the fields of the schema. *)
Fixpoint validateLoop (order : list (string * Field)) (doc : gmap string value) : res unit :=
  match order with
  | [] => Ok tt
  | (name, field) :: order =>
      match doc !! name with
      | None => if Required field then Err "schema: missing required field" else validateLoop order doc
      | Some val => _ ← checkType (FType field) val; validateLoop order doc
      end
  end.

Definition Validate `{Json} (order : list (string * Field)) (docJSON : bytes) : res unit :=
  match unmarshal_document docJSON with
  | Err _ => Err "schema: invalid JSON"
  | Ok doc => validateLoop order doc
  end.

Definition typeWidenedOrSame (oldType newType : FieldType) : bool :=
  if bool_decide (oldType = newType) then true
  else bool_decide (oldType = TypeInteger) && bool_decide (newType = TypeNumber).

(** The two loops of [IsCompatible]. *)
Fixpoint keepsFields (order : list (string * Field)) (newSchema : Schema) : bool * string :=
  match order with
  | [] => (true, EmptyString)
  | (name, oldField) :: order =>
      match Fields newSchema !! name with
      | None => if Required oldField then (false, "required field removed"%string) else keepsFields order newSchema
      | Some newField =>
          if negb (typeWidenedOrSame (FType oldField) (FType newField)) then (false, "field narrowed"%string)
          else keepsFields order newSchema
      end
  end.

Fixpoint addsNoRequired (order : list (string * Field)) (oldSchema : Schema) : bool * string :=
  match order with
  | [] => (true, EmptyString)
  | (name, newField) :: order =>
      if negb (Required newField) then addsNoRequired order oldSchema
      else
        match Fields oldSchema !! name with
        | None => (false, "new required field has no default for existing documents"%string)
        | Some _ => addsNoRequired order oldSchema
        end
  end.

Definition IsCompatible (oldOrder newOrder : list (string * Field)) (oldSchema newSchema : Schema) : bool * string :=
  let '(ok, reason) := keepsFields oldOrder newSchema in
  if negb ok then (false, reason) else addsNoRequired newOrder oldSchema.

(** * The registry *)

Record Registry := mkRegistry { current : gmap Z Schema }.
Definition NewRegistry : Registry := mkRegistry ∅.

Definition Register (oldOrder newOrder : list (string * Field)) (partition : Z) (s : Schema) (r : Registry) : res unit * Registry :=
  let set := mkRegistry (<[partition := s]> (current r)) in
  match current r !! partition with
  | Some existing =>
      let '(compatible, _) := IsCompatible oldOrder newOrder existing s in
      if negb compatible then (Err "schema: incompatible schema change", r) else (Ok tt, set)
  | None => (Ok tt, set)
  end.

Definition CurrentSchema (partition : Z) (r : Registry) : option Schema := current r !! partition.

(** * Access control *)

Definition Permission : Type := Z.
Definition PermRead : Permission := 0.
Definition PermWrite : Permission := 1.

Definition ErrUnauthorized : string := "security: identity not authorized for this partition/permission".

Record ACL := mkACL { grants : gmap string (gmap Z (gmap Permission bool)) }.
Definition NewACL : ACL := mkACL ∅.

Definition Grant (identity : string) (partition : Z) (perm : Permission) (a : ACL) : ACL :=
  let parts := mapget ∅ (grants a) identity in
  let perms := mapget ∅ parts partition in
  mkACL (<[identity := <[partition := <[perm := true]> perms]> parts]> (grants a)).

Definition Allowed (identity : string) (partition : Z) (perm : Permission) (a : ACL) : bool :=
  match mapget ∅ (grants a) identity !! partition with
  | None => false
  | Some perms => mapget false perms perm
  end.

Section guarded.
Context {C : Type} `{CS : ColdStore C} `{GZ : Gzip} `{J : Json}.
Context (ps : list Z) (chanCap : nat).

(** [security.CheckedWrite] and [security.CheckedRead], at replica [i]. *)
Definition acl_CheckedWrite (polls : list (list Action)) (acl : ACL) (identity : string) (partition i : Z) (payload : bytes)
    (ack : AckLevel) (w : @RepWorld (ReplicatedPartition C)) : option (res Z * @RepWorld (ReplicatedPartition C)) :=
  if negb (Allowed identity partition PermWrite acl) then Some (Err ErrUnauthorized, w)
  else Write ps chanCap polls i payload ack w.

Definition CheckedRead (acl : ACL) (identity : string) (partition : Z) (offset : Z) (rp : ReplicatedPartition C)
    : res bytes * ReplicatedPartition C :=
  if negb (Allowed identity partition PermRead acl) then (Err ErrUnauthorized, rp) else ReadLocal offset rp.

(** [schema.CheckedWrite]. *)
Definition CheckedWrite (order : list (string * Field)) (polls : list (list Action)) (reg : Registry) (acl : ACL) (identity : string)
    (partition i : Z) (docJSON : bytes) (ack : AckLevel) (w : @RepWorld (ReplicatedPartition C))
    : option (res Z * @RepWorld (ReplicatedPartition C)) :=
  match CurrentSchema partition reg with
  | Some s =>
      match Validate order docJSON with
      | Err e => Some (Err e, w)
      | Ok _ => acl_CheckedWrite polls acl identity partition i docJSON ack w
      end
  | None => acl_CheckedWrite polls acl identity partition i docJSON ack w
  end.

End guarded.

(** * What the checks mean *)

(** An order in which the run may range over the fields of a schema. *)
Definition ranges (s : Schema) (order : list (string * Field)) : Prop := order ≡ₚ map_to_list (Fields s).

Inductive has_type : FieldType -> value -> Prop :=
| ht_string t : has_type TypeString (VString t)
| ht_integer f : is_trunc f = true -> has_type TypeInteger (VFloat f)
| ht_number f : has_type TypeNumber (VFloat f)
| ht_boolean b : has_type TypeBoolean (VBool b).

(** A document of the type a schema describes. *)
Definition conforms (s : Schema) (doc : gmap string value) : Prop :=
  forall name field, Fields s !! name = Some field ->
    match doc !! name with None => Required field = false | Some v => has_type (FType field) v end.

Lemma checkType_spec want v : is_ok (checkType want v) = true <-> has_type want v.
Proof.
  unfold checkType. split.
  - repeat case_bool_decide; subst; try done; destruct v; try done; try constructor.
    cbn. destruct (is_trunc f) eqn:E; [by constructor|done].
  - intros []; cbn; try done. by rewrite H.
Qed.

Lemma validateLoop_spec order doc : is_ok (validateLoop order doc) = true <->
  Forall (fun '(name, field) => match doc !! name with None => Required field = false | Some v => has_type (FType field) v end) order.
Proof.
  induction order as [|[name field] order IH]; cbn; [done|]. rewrite Forall_cons, <- IH.
  destruct (doc !! name) as [v|]; [|destruct (Required field); cbn; (split; [done|by intros [? ?]])].
  rewrite <- checkType_spec. destruct (checkType (FType field) v); cbn; [tauto|]. split; [done|by intros [? _]].
Qed.

Lemma ranges_forall s order (P : string * Field -> Prop) :
  ranges s order -> Forall P order <-> forall name field, Fields s !! name = Some field -> P (name, field).
Proof.
  intros H. rewrite list.Forall_forall. split.
  - intros HP name field Hf. apply HP. rewrite H. by apply elem_of_map_to_list.
  - intros HP [name field] Hin. rewrite H in Hin. by apply HP, elem_of_map_to_list.
Qed.

Lemma validate_conforms s order doc : ranges s order -> is_ok (validateLoop order doc) = true <-> conforms s doc.
Proof. intros H. rewrite validateLoop_spec, (ranges_forall s order _ H). done. Qed.

Lemma has_type_widened t t' v : typeWidenedOrSame t t' = true -> has_type t v -> has_type t' v.
Proof.
  unfold typeWidenedOrSame. case_bool_decide; [by subst|]. intros [->%bool_decide_eq_true ->%bool_decide_eq_true]%andb_true_iff Hv.
  inversion Hv. constructor.
Qed.

Lemma keepsFields_spec order s : fst (keepsFields order s) = true <->
  Forall (fun '(name, old) => match Fields s !! name with
    | None => Required old = false | Some new => typeWidenedOrSame (FType old) (FType new) = true end) order.
Proof.
  induction order as [|[name field] order IH]; cbn; [done|]. rewrite Forall_cons, <- IH.
  destruct (Fields s !! name) as [new|]; [|destruct (Required field); cbn; (split; [done|by intros [? ?]])].
  destruct (typeWidenedOrSame _ _); cbn; [tauto|]. split; [done|]. by intros [? _].
Qed.

Lemma addsNoRequired_spec order s : fst (addsNoRequired order s) = true <->
  Forall (fun '(name, new) => Required new = true -> is_Some (Fields s !! name)) order.
Proof.
  induction order as [|[name field] order IH]; cbn; [done|]. rewrite Forall_cons, <- IH.
  destruct (Required field); cbn; [|split; [intros H; by split|tauto]].
  destruct (Fields s !! name); cbn; [split; [intros H; split; [by eexists|done]|tauto]|]. split; [done|]. intros [H _]. by destruct (H eq_refl).
Qed.

Lemma IsCompatible_spec oldOrder newOrder old new : ranges old oldOrder -> ranges new newOrder ->
  fst (IsCompatible oldOrder newOrder old new) = true <->
  (forall name f, Fields old !! name = Some f ->
     match Fields new !! name with None => Required f = false | Some f' => typeWidenedOrSame (FType f) (FType f') = true end) /\
  (forall name f, Fields new !! name = Some f -> Required f = true -> is_Some (Fields old !! name)).
Proof.
  intros Ho Hn. unfold IsCompatible.
  rewrite <- (ranges_forall old oldOrder (fun '(name, f) => match Fields new !! name with
    | None => Required f = false | Some f' => typeWidenedOrSame (FType f) (FType f') = true end) Ho), <- keepsFields_spec.
  rewrite <- (ranges_forall new newOrder (fun '(name, f) => Required f = true -> is_Some (Fields old !! name)) Hn), <- addsNoRequired_spec.
  destruct (keepsFields oldOrder new) as [[] reason]; cbn; [tauto|]. split; [done|]. by intros [? _].
Qed.

Section schema_theorems.
Context `{J : Json}.

(** Validation is typing. *)
Lemma Validate_typed s order b :
  ranges s order ->
  is_ok (Validate order b) = true <-> exists doc, unmarshal_document b = Ok doc /\ conforms s doc.
Proof.
  intros H. unfold Validate. destruct (unmarshal_document b) as [doc|].
  - rewrite (validate_conforms s order doc H). split; [by exists doc|]. by intros (? & [= ->] & ?).
  - split; [done|]. by intros (? & ? & _).
Qed.


End schema_theorems.

(** * Guarded writes *)

(** What an administrator does. *)
Inductive AdminOp :=
| DoRegister (oldOrder newOrder : list (string * Field)) (partition : Z) (s : Schema)
| DoGrant (identity : string) (partition : Z) (perm : Permission).

Definition admin_step (st : Registry * ACL) (o : AdminOp) : Registry * ACL :=
  match o with
  | DoRegister oo no p s => (snd (Register oo no p s st.1), st.2)
  | DoGrant id p perm => (st.1, Grant id p perm st.2)
  end.
Definition admin_run (ops : list AdminOp) : Registry * ACL := foldl admin_step (NewRegistry, NewACL) ops.

Lemma Allowed_Grant id p perm id' p' perm' a :
  Allowed id' p' perm' (Grant id p perm a) =
  if decide (id = id' /\ p = p' /\ perm = perm') then true else Allowed id' p' perm' a.
Proof.
  unfold Allowed, Grant, mapget. cbn. destruct (decide (id = id')) as [->|Hid].
  2:{ rewrite lookup_insert_ne, decide_False by tauto. done. }
  rewrite lookup_insert_eq. cbn. destruct (decide (p = p')) as [->|Hp].
  2:{ rewrite lookup_insert_ne, decide_False by tauto. done. }
  rewrite lookup_insert_eq. destruct (decide (perm = perm')) as [->|Hpm].
  - by rewrite lookup_insert_eq, decide_True.
  - rewrite lookup_insert_ne, decide_False by tauto. by destruct (default ∅ (grants a !! id') !! p').
Qed.

(** The permissions are those granted, and the schemas those registered. *)
Lemma admin_granted ops id p perm : Allowed id p perm (admin_run ops).2 = true <-> DoGrant id p perm ∈ ops.
Proof.
  induction ops as [|o ops IH] using rev_ind; [by split; [|intros ?%not_elem_of_nil]|].
  unfold admin_run in *. rewrite foldl_app, elem_of_app, list_elem_of_singleton, <- IH. cbn.
  destruct o as [oo no p' s|id' p' perm']; cbn; [by split; [left|intros [?|?]]|].
  rewrite Allowed_Grant. case_decide as E; [destruct E as (-> & -> & ->); tauto|].
  split; [by left|]. intros [?|[= -> -> ->]]; [done|tauto].
Qed.

Lemma admin_registered ops p s : CurrentSchema p (admin_run ops).1 = Some s -> exists oo no, DoRegister oo no p s ∈ ops.
Proof.
  induction ops as [|o ops IH] using rev_ind; [unfold CurrentSchema; cbn; by rewrite lookup_empty|].
  unfold admin_run in *. rewrite foldl_app. cbn. intros H.
  assert (Hold : CurrentSchema p (foldl admin_step (NewRegistry, NewACL) ops).1 = Some s -> exists oo no, DoRegister oo no p s ∈ ops ++ [o]).
  { intros (oo & no & ?)%IH. exists oo, no. apply elem_of_app. by left. }
  destruct o as [oo no p' s'|id' p' perm']; cbn in H; [|by apply Hold].
  assert (Hset : CurrentSchema p (mkRegistry (<[p' := s']> (current (foldl admin_step (NewRegistry, NewACL) ops).1))) = Some s ->
    exists oo' no', DoRegister oo' no' p s ∈ ops ++ [DoRegister oo no p' s']).
  { unfold CurrentSchema. cbn. destruct (decide (p' = p)) as [->|]; [|rewrite lookup_insert_ne by done; apply Hold].
    rewrite lookup_insert_eq. intros [= ->]. exists oo, no. apply elem_of_app. right. left. }
  unfold Register in H. destruct (current _ !! p'); [|by apply Hset].
  destruct (IsCompatible oo no _ s') as [[] ?]; [by apply Hset|by apply Hold].
Qed.

Section guarded_theorems.
Context {C : Type} `{CS : ColdStore C} `{GZ : Gzip} `{J : Json}.
Context (ps : list Z) (chanCap : nat).

(** Guarded writes.  A write through the schema and access checks either is
    refused with an error and changes nothing at all, or is the producer's write
    of the same bytes; in that case the identity was granted writing on the
    partition, and the bytes are a document of the type of the partition's
    schema, if one was registered. *)
Lemma checked_write_guarded ops order polls identity partition i docJSON ack
    (w w' : @RepWorld (ReplicatedPartition C)) r :
  let '(reg, acl) := admin_run ops in
  (forall s, CurrentSchema partition reg = Some s -> ranges s order) ->
  CheckedWrite ps chanCap order polls reg acl identity partition i docJSON ack w = Some (r, w') ->
  (is_ok r = false /\ w' = w) \/
  (DoGrant identity partition PermWrite ∈ ops /\
   (forall s, CurrentSchema partition reg = Some s ->
      (exists oo no, DoRegister oo no partition s ∈ ops) /\ exists doc, unmarshal_document docJSON = Ok doc /\ conforms s doc) /\
   Write ps chanCap polls i docJSON ack w = Some (r, w')).
Proof.
  destruct (admin_run ops) as [reg acl] eqn:E. intros Ho H. unfold CheckedWrite in H.
  assert (Hacl : acl_CheckedWrite ps chanCap polls acl identity partition i docJSON ack w = Some (r, w') ->
    (is_ok r = false /\ w' = w) \/ DoGrant identity partition PermWrite ∈ ops /\ Write ps chanCap polls i docJSON ack w = Some (r, w')).
  { unfold acl_CheckedWrite. destruct (Allowed _ _ _ _) eqn:Ea; cbn [negb]; [right|left; by simplify_eq].
    split; [|done]. apply admin_granted. by rewrite E. }
  destruct (CurrentSchema partition reg) as [s|] eqn:Es.
  - destruct (Validate order docJSON) as [[]|] eqn:Ev; [|left; by simplify_eq].
    destruct (Hacl H) as [?|[Hg Hw]]; [by left|right]. split_and!; [done| |done]. intros s' [= <-]. split.
    + apply admin_registered. by rewrite E.
    + unfold Validate in Ev. destruct (unmarshal_document docJSON) as [doc|]; [|done]. exists doc. split; [done|].
      apply (validate_conforms s order); [by apply Ho|by rewrite Ev].
  - destruct (Hacl H) as [?|[Hg Hw]]; [by left|right]. split_and!; [done|done|done].
Qed.

End guarded_theorems.

(** * Concrete schemas and writes *)

#[local] Existing Instance stored_gzip.
#[local] Existing Instance toy_json.

Definition person : Schema := mkSchema {["name"%string := mkField TypeString true]}.
Definition person2 : Schema := mkSchema (<["age"%string := mkField TypeInteger false]> (Fields person)).
Definition person_order : list (string * Field) := map_to_list (Fields person).
Definition person2_order : list (string * Field) := map_to_list (Fields person2).

Lemma person_ranges : ranges person person_order /\ ranges person2 person2_order.
Proof. split; unfold ranges; reflexivity. Qed.

Lemma person_field name f : Fields person !! name = Some f -> name = "name"%string /\ f = mkField TypeString true.
Proof. unfold person. cbn. by intros [<- <-]%lookup_singleton_Some. Qed.

Lemma person2_field name f : Fields person2 !! name = Some f ->
  name = "age"%string /\ f = mkField TypeInteger false \/ name = "name"%string /\ f = mkField TypeString true.
Proof. unfold person2. cbn. intros [[<- <-]|[_ H]]%lookup_insert_Some; [by left|right]. by apply person_field. Qed.

Definition ann : gmap string value := {["name"%string := VString "ann"]}.
Definition registry1 : Registry := snd (Register [] person_order 0 person NewRegistry).


Definition admin_ops : list AdminOp := [DoRegister [] person_order 0 person; DoGrant "bob" 0 PermWrite].

(** Written by somebody who may, and refused to somebody who may not. *)
