(* ===== verification/Streaming.v ===== *)
(** Tumbling windows ([streaming/window.go]).

    A [time.Time] is the number of nanoseconds since Go's zero time, from which
    [Truncate] counts. *)
From S2P Require Import Prelude GoLib.
#[local] Open Scope Z_scope.

Definition second : Z := 10 ^ 9.

Definition Truncate (t d : Z) : Z := if d <=? 0 then t else t - t mod d.

(** Seconds since 1970. *)
Definition Unix (t : Z) : Z := t / second - 62135596800.

(** The interface [Sink], and the sink that remembers the counts. *)
Class Sink (K : Type) := Emit : Z -> Z -> K -> K.

Record InMemorySink := mkSink { Counts : gmap Z Z }.
Definition NewInMemorySink : InMemorySink := mkSink ∅.
#[export] Instance InMemorySink_Emit : Sink InMemorySink := fun windowStart count s =>
  mkSink (<[Unix windowStart := count]> (Counts s)).

(** The first loop: [i] is the position of the next event. *)
Fixpoint countLoop (windowSize i : Z) (events : list Z) (counts : gmap Z Z) (minWindow maxWindow : Z) : gmap Z Z * Z * Z :=
  match events with
  | [] => (counts, minWindow, maxWindow)
  | e :: events =>
      let w := Truncate e windowSize in
      let counts := <[Unix w := mapget 0 counts (Unix w) + 1]> counts in
      let minWindow := if (i =? 0) || (w <? minWindow) then w else minWindow in
      let maxWindow := if (i =? 0) || (maxWindow <? w) then w else maxWindow in
      countLoop windowSize (i + 1) events counts minWindow maxWindow
  end.

(** The second loop, for [fuel] rounds; [None] when it is still running. *)
Fixpoint emitLoop {K : Type} `{Sink K} (fuel : nat) (windowSize w maxWindow : Z) (counts : gmap Z Z) (sink : K) : option K :=
  match fuel with
  | O => None
  | S fuel =>
      if maxWindow <? w then Some sink
      else emitLoop fuel windowSize (w + windowSize) maxWindow counts (Emit w (mapget 0 counts (Unix w)) sink)
  end.

Definition ProcessTumblingWindows {K : Type} `{Sink K} (fuel : nat) (events : list Z) (windowSize : Z) (sink : K) : option K :=
  match events with
  | [] => Some sink
  | _ =>
      let '(counts, minWindow, maxWindow) := countLoop windowSize 0 events ∅ 0 0 in
      emitLoop fuel windowSize minWindow maxWindow counts sink
  end.

(** * What is emitted *)

(** The number of events whose window starts in the second of [w]. *)
Definition in_second (windowSize w : Z) (events : list Z) : Z :=
  zlen (filter (fun e => Unix (Truncate e windowSize) = Unix w) events).

(** The number of events of the window [[w, w + windowSize)]. *)
Definition in_window (windowSize w : Z) (events : list Z) : Z := zlen (filter (fun e => w <= e < w + windowSize) events).

Lemma countLoop_spec size events : forall i counts mn mx, 0 <= i -> exists counts' mn' mx',
  countLoop size i events counts mn mx = (counts', mn', mx') /\
  (forall u, mapget 0 counts' u = mapget 0 counts u + zlen (filter (fun e => Unix (Truncate e size) = u) events)) /\
  (forall e, e ∈ events -> mn' <= Truncate e size <= mx') /\
  (0 < i -> mn' <= mn /\ mx <= mx') /\
  ((0 < i /\ mn' = mn) \/ exists e, e ∈ events /\ mn' = Truncate e size \/ events = []) /\
  ((0 < i /\ mx' = mx) \/ exists e, e ∈ events /\ mx' = Truncate e size \/ events = []).
Proof.
  induction events as [|e events IH]; intros i counts mn mx Hi; cbn [countLoop].
  { exists counts, mn, mx. split_and!; [done| |by intros ? ?%not_elem_of_nil|lia|right; exists 0; by right|right; exists 0; by right].
    intros u. transitivity (mapget 0 counts u + 0); [lia|done]. }
  set (w := Truncate e size). set (mn1 := if (i =? 0) || (w <? mn) then w else mn). set (mx1 := if (i =? 0) || (mx <? w) then w else mx).
  destruct (IH (i + 1) (<[Unix w := mapget 0 counts (Unix w) + 1]> counts) mn1 mx1 ltac:(lia)) as (c' & mn' & mx' & E & Hc & Hin & Hm & H1 & H2).
  specialize (Hm ltac:(lia)). exists c', mn', mx'.
  assert (Hmn : mn1 <= w /\ (mn1 = w \/ 0 < i /\ mn1 = mn) /\ (0 < i -> mn1 <= mn)).
  { unfold mn1. destruct (i =? 0) eqn:E0; cbn; [lia|]. destruct (w <? mn) eqn:E1; lia. }
  assert (Hmx : w <= mx1 /\ (mx1 = w \/ 0 < i /\ mx1 = mx) /\ (0 < i -> mx <= mx1)).
  { unfold mx1. destruct (i =? 0) eqn:E0; cbn; [lia|]. destruct (mx <? w) eqn:E1; lia. }
  split_and!; [done| | |lia| |].
  - intros u. rewrite Hc, filter_cons. unfold mapget. destruct (decide (Unix w = u)) as [<-|Hne].
    + rewrite lookup_insert_eq, decide_True by done. rewrite zlen_cons. cbn. lia.
    + rewrite lookup_insert_ne, decide_False by done. lia.
  - intros e' [->|He']%elem_of_cons; [fold w; lia|by apply Hin].
  - destruct H1 as [[_ ->]|(x & [[Hx ->]|Hx])].
    + destruct Hmn as (_ & [->|[? ->]] & _); [right; exists e; left; split; [left|done]|by left].
    + right. exists x. left. split; [by right|done].
    + subst events. cbn in E. injection E as <- <- <-. destruct Hmn as (_ & [->|[? ->]] & _); [right; exists e; left; split; [left|done]|by left].
  - destruct H2 as [[_ ->]|(x & [[Hx ->]|Hx])].
    + destruct Hmx as (_ & [->|[? ->]] & _); [right; exists e; left; split; [left|done]|by left].
    + right. exists x. left. split; [by right|done].
    + subst events. cbn in E. injection E as <- <- <-. destruct Hmx as (_ & [->|[? ->]] & _); [right; exists e; left; split; [left|done]|by left].
Qed.

(** The starts of [n] windows from [mn] on. *)
Definition windows (size mn n : Z) : list Z := map (fun k => mn + k * size) (seqZ 0 n).

Lemma windows_cons size mn n : 0 < n -> windows size mn n = mn :: windows size (mn + size) (n - 1).
Proof.
  intros Hn. unfold windows. rewrite seqZ_cons by lia. cbn [map]. f_equal; [lia|].
  change (Z.succ 0) with (1 + 0). replace (Z.pred n) with (n - 1) by lia. rewrite <- fmap_add_seqZ.
  change (((fun k => mn + k * size) <$> (Z.add 1 <$> seqZ 0 (n - 1))) = ((fun k => mn + size + k * size) <$> seqZ 0 (n - 1))).
  rewrite <- list_fmap_compose. apply list_fmap_ext. intros i k _. unfold compose. lia.
Qed.

Lemma emitLoop_spec {K} `{Sink K} size mx counts (n : nat) : 0 < size -> forall fuel w sink,
  w + (Z.of_nat n - 1) * size <= mx < w + Z.of_nat n * size -> (n < fuel)%nat ->
  emitLoop fuel size w mx counts sink =
  Some (foldl (fun s w => Emit w (mapget 0 counts (Unix w)) s) sink (windows size w (Z.of_nat n))).
Proof.
  intros Hs. induction n as [|n IH]; intros fuel w sink Hw Hf; (destruct fuel as [|fuel]; [lia|]); cbn [emitLoop].
  - rewrite (proj2 (Z.ltb_lt mx w)) by lia. unfold windows. by rewrite seqZ_nil by lia.
  - rewrite (proj2 (Z.ltb_ge mx w)) by nia. rewrite windows_cons by lia. cbn [foldl].
    replace (Z.of_nat (S n) - 1) with (Z.of_nat n) by lia. apply IH; [nia|lia].
Qed.

Lemma emitLoop_stuck {K} `{Sink K} mx counts w fuel : forall sink, w <= mx -> emitLoop fuel 0 w mx counts sink = None.
Proof.
  revert w. induction fuel as [|fuel IH]; intros w sink Hw; cbn; [done|]. rewrite (proj2 (Z.ltb_ge mx w)) by lia. apply IH. lia.
Qed.

Lemma Truncate_mult e size : 0 < size -> exists q, Truncate e size = q * size /\ Truncate e size <= e < Truncate e size + size.
Proof.
  intros Hs. unfold Truncate. rewrite (proj2 (Z.leb_gt _ _)) by lia. exists (e / size).
  pose proof (Z.div_mod e size ltac:(lia)). pose proof (Z.mod_pos_bound e size Hs). split; lia.
Qed.

Lemma Truncate_window e size w q : 0 < size -> w = q * size -> Truncate e size = w <-> w <= e < w + size.
Proof.
  intros Hs ->. destruct (Truncate_mult e size Hs) as (q' & E & He). rewrite E in *. split; [lia|]. intros Hw.
  assert (q' = q) as -> by nia. done.
Qed.

Lemma Unix_inj a b : (second | a) -> (second | b) -> Unix a = Unix b -> a = b.
Proof.
  intros [x ->] [y ->]. unfold Unix. rewrite !Z.div_mul by done. intros E. replace x with y by lia. done.
Qed.

Lemma in_second_window size w q events : 0 < size -> (second | size) -> w = q * size ->
  in_second size w events = in_window size w events.
Proof.
  intros Hs Hd Hw. unfold in_second, in_window. f_equal. apply list_filter_iff. intros e.
  rewrite <- (Truncate_window e size w q Hs Hw). split; [|by intros ->]. destruct (Truncate_mult e size Hs) as (q' & E & _).
  apply Unix_inj; [rewrite E|rewrite Hw]; by apply Z.divide_mul_r.
Qed.

Lemma foldl_pointwise {A B} (f g : A -> B -> A) l : (forall a x, f a x = g a x) -> forall a, foldl f a l = foldl g a l.
Proof. intros H. induction l as [|x l IH]; intros a; cbn; [done|]. by rewrite H, IH. Qed.

Definition sumZ (l : list Z) : Z := foldr Z.add 0 l.

Lemma sum_ones (ws : list Z) (f g : Z -> Z) x : NoDup ws -> (forall w, f w = g w + if decide (x = w) then 1 else 0) ->
  sumZ (map f ws) = sumZ (map g ws) + if decide (x ∈ ws) then 1 else 0.
Proof.
  intros Hn Hf. unfold sumZ. induction ws as [|w ws IH]; [done|]. apply NoDup_cons in Hn as [Hw Hn]. cbn [map foldr]. rewrite (IH Hn), Hf.
  destruct (decide (x = w)) as [->|].
  - rewrite (decide_False (P := w ∈ ws)) by done. rewrite decide_True by left. lia.
  - destruct (decide (x ∈ ws)) as [Hx|Hx]; [rewrite decide_True by (by right); lia|].
    rewrite decide_False by (by intros [->|?]%elem_of_cons). lia.
Qed.

(** Every event is counted in exactly one of the windows. *)
Lemma sum_windows size ws events : 0 < size -> NoDup ws -> (forall w, w ∈ ws -> exists q, w = q * size) ->
  (forall e, e ∈ events -> Truncate e size ∈ ws) -> sumZ (map (fun w => in_window size w events) ws) = zlen events.
Proof.
  intros Hs Hn Hq He. assert (E : map (fun w => in_window size w events) ws =
    map (fun w => zlen (filter (fun e => Truncate e size = w) events)) ws).
  { apply map_ext_in. intros w [q Hw]%list_elem_of_In%Hq. unfold in_window. f_equal. apply list_filter_iff. intros e.
    symmetry. by apply (Truncate_window e size w q). }
  rewrite E. clear E Hq. induction events as [|e events IH].
  { clear. unfold sumZ. induction ws as [|w ws IH]; [done|]. cbn [map foldr]. rewrite IH. done. }
  rewrite (sum_ones ws _ (fun w => zlen (filter (fun e => Truncate e size = w) events)) (Truncate e size) Hn).
  2:{ intros w. rewrite filter_cons. case_decide; [rewrite zlen_cons; lia|lia]. }
  rewrite IH, zlen_cons by (intros e' ?; apply He; by right). rewrite decide_True by (apply He; left). lia.
Qed.

Lemma windows_in size mn n w : 0 < size -> w ∈ windows size mn n <-> exists k, 0 <= k < n /\ w = mn + k * size.
Proof.
  intros Hs. unfold windows. rewrite list_elem_of_fmap. setoid_rewrite elem_of_seqZ.
  split; intros (k & ? & ?); exists k; split; lia || done.
Qed.

Lemma windows_NoDup size mn n : 0 < size -> NoDup (windows size mn n).
Proof. intros Hs. apply NoDup_fmap_2_strong; [|apply NoDup_seqZ]. intros x y _ _ E. nia. Qed.

(** C32: Tumbling windows.  With a positive window size the second loop ends, after
    one round per window from that of the earliest to that of the latest event,
    and emits each window once, in order, with the number of events whose window
    starts in the same second; when the size is a whole number of seconds that is
    the number of events in the window, and the counts add up to the number of
    events.  With size zero the loop never ends. *)
Theorem windows_exact {K} `{Sink K} (events : list Z) (size : Z) (sink : K) :
  events <> [] ->
  (forall fuel, ProcessTumblingWindows fuel events 0 sink = None) /\
  (0 < size -> exists mn mx,
    (exists e, e ∈ events /\ mn = Truncate e size) /\ (exists e, e ∈ events /\ mx = Truncate e size) /\
    (forall e, e ∈ events -> mn <= Truncate e size <= mx) /\
    let n := (mx - mn) / size + 1 in
    (forall fuel, (Z.to_nat n < fuel)%nat -> ProcessTumblingWindows fuel events size sink =
       Some (foldl (fun s w => Emit w (in_second size w events) s) sink (windows size mn n))) /\
    ((second | size) ->
       (forall w, w ∈ windows size mn n -> in_second size w events = in_window size w events) /\
       sumZ (map (fun w => in_window size w events) (windows size mn n)) = zlen events)).
Proof.
  intros Hne. destruct events as [|e0 events]; [done|]. split.
  { intros fuel. unfold ProcessTumblingWindows.
    destruct (countLoop_spec 0 (e0 :: events) 0 ∅ 0 0 ltac:(lia)) as (c & mn & mx & -> & _ & Hin & _). cbn zeta.
    apply emitLoop_stuck. specialize (Hin e0 ltac:(left)). lia. }
  intros Hs. destruct (countLoop_spec size (e0 :: events) 0 ∅ 0 0 ltac:(lia)) as (c & mn & mx & E & Hc & Hin & _ & H1 & H2).
  exists mn, mx. destruct H1 as [[? _]|(e1 & [[He1 Hmn]|?])]; [lia| |done]. destruct H2 as [[? _]|(e2 & [[He2 Hmx]|?])]; [lia| |done].
  destruct (Truncate_mult e1 size Hs) as (q1 & E1 & _), (Truncate_mult e2 size Hs) as (q2 & E2 & _). rewrite <- Hmn in E1. rewrite <- Hmx in E2.
  pose proof (Hin e0 ltac:(left)) as H0. set (n := (mx - mn) / size + 1).
  assert (Hn : n = q2 - q1 + 1) by (unfold n; rewrite E1, E2; replace (q2 * size - q1 * size) with ((q2 - q1) * size) by lia; by rewrite Z.div_mul by lia).
  assert (Hq : forall w, w ∈ windows size mn n -> exists q, w = q * size).
  { intros w (k & _ & ->)%windows_in; [|done]. exists (q1 + k). lia. }
  split; [by exists e1|]. split; [by exists e2|]. split; [done|]. cbv zeta. fold n. split.
  - intros fuel Hf. unfold ProcessTumblingWindows. rewrite E. cbv beta iota.
    rewrite (emitLoop_spec size mx c (Z.to_nat n) Hs); [|rewrite Z2Nat.id; nia|done]. rewrite Z2Nat.id by nia. f_equal.
    apply foldl_pointwise. intros s w. rewrite Hc. unfold mapget at 1. by rewrite lookup_empty.
  - intros Hd. split.
    + intros w Hw. destruct (Hq w Hw) as [q Hwq]. by eapply in_second_window.
    + apply sum_windows; [done|by apply windows_NoDup|done|]. intros e He. apply windows_in; [done|].
      destruct (Truncate_mult e size Hs) as (q & Eq & _). specialize (Hin e He). exists (q - q1). rewrite Eq in *. nia.
Qed.

(** Four events in three windows of a minute, the middle one empty. *)
Definition minute : Z := 60 * second.
Definition some_events : list Z := [5 * minute; 5 * minute + 1; 6 * minute - 1; 7 * minute + 30 * second].

Lemma windows_exact_witness :
  some_events <> [] /\ exists mn mx, (exists e, e ∈ some_events /\ mn = Truncate e minute) /\
    sumZ (map (fun w => in_window minute w some_events) (windows minute mn ((mx - mn) / minute + 1))) = 4.
Proof.
  assert (Hne : some_events <> []) by discriminate. split; [exact Hne|].
  destruct (proj2 (windows_exact (K := InMemorySink) some_events minute NewInMemorySink Hne) ltac:(reflexivity))
    as (mn & mx & H1 & _ & _ & _ & Hd).
  exists mn, mx. split; [exact H1|]. apply Hd. exists 60. reflexivity.
Defined.
